(* ===== verification/_CoqProject ===== *)
-Q . S2P
Prelude.v
Std.v
Parse.v
Prog.v
ProgFacts.v
Utf8.v
Foreign.v
WireTypes.v
Errors.v
ConfigTypes.v
ErrorText.v
TextFacts.v
Eyre.v
Effects.v
Wire.v
StreamSpec.v
WireFacts.v
Framing.v
Config.v
ConfigFacts.v
Connection.v
Incoming.v
Channel.v
Igd.v
IgdFacts.v
Endpoint.v
ErrorFacts.v
SendFacts.v
UniListener.v
Verification.v
BiListener.v
BiStreams.v
EndpointFacts.v
Panics.v
Rpc.v
NewPeer.v
Delivery.v
Locking.v
System.v
SystemFacts.v
EchoStreams.v
Peers.v
Tests.v
EndpointTests.v
ConnectionTests.v
CommonTests.v
ClientTest.v
NetworkCheck.v
Node.v
NodeFacts.v
Demo.v
Witnesses.v
NodeWitnesses.v
SystemWitnesses.v
TestWitnesses.v
CommonWitnesses.v
