(* ===== verification/Prelude.v ===== *)
(** * qp2p: a verification development

    qp2p is a library for peer-to-peer communication over QUIC. This development
    models the crate's own code under src/src/ and the example src/examples/p2p_node.rs,
    and proves the properties that make them correct. It is a shallow embedding: a
    function of the crate is a Rocq function, an asynchronous one a program over the
    calls it makes.

    ** The program and its model

    - [Prelude.v]: Rust's [Result], the [From] trait, machine integers with their
      ranges and casts, big-endian bytes; the hint databases.
    - [Std.v], [Parse.v], [Utf8.v]: the parts of the standard library the code uses:
      [Duration], socket addresses with their setters, their textual form and its
      parser, the builders of [Debug] output, the lossy decoding of UTF-8, and the
      operations that panic (indexing, slicing, allocating) as partial functions.
    - [Prog.v], [ProgFacts.v]: the type [prog] of asynchronous programs (events with
      answers, timeouts and selects as [Cut], loops, [select_ok] as [Race]), the
      meaning [runs] (a trace of events and an outcome: finished, still running,
      panicked; a timeout or select gives up only on a future that waits for an
      answer), the executable semantics [exec], and the rules to reason about runs.
    - [Foreign.v]: the types and pure functions of quinn, rustls, rcgen, igd, bincode
      and tokio, which are not part of the repository, as a class. [Effects.v]: their
      effectful calls as events; the crate's handles and background tasks.
    - [WireTypes.v], [Wire.v]: wire_msg.rs and utils.rs. [Errors.v]: error.rs, the types
      and conversions; [ErrorText.v]: the texts and sources of all errors.
      [ConfigTypes.v], [Config.v]: config.rs. [Connection.v]: connection.rs,
      [Connection], [SendStream], [RecvStream]. [Incoming.v]: connection.rs,
      [ConnectionIncoming], the listeners and protocol handlers. [Igd.v]: igd.rs.
      [Endpoint.v]: endpoint.rs. [Node.v]: examples/p2p_node.rs. Every function of
      these files is a definition with the function's name (prefixed with its type
      where two functions share one); loops are split into a step and the loop.
    - [Eyre.v]: [eyre::Report], the errors of the example and of the tests. [Tests.v]: the
      tests in connection.rs and endpoint.rs, and three of tests/common.rs, as programs over
      the same calls.
    - [System.v]: the crate at work: [system] puts the thread of a user and the background
      tasks it spawns together in any interleaving, [network] is the environment between
      them.

    A [Connection] is made by an [Endpoint] and starts two listeners, which read
    messages in the wire format from incoming streams, answer protocol requests and
    put user messages on the channel of the [ConnectionIncoming]; an [Endpoint] uses
    the echo and verification requests to find and check its public address and igd
    to forward a port. The example node uses the public interface only.

    ** What is assumed

    Theorems about runs hold for every answer of the environment and at every moment.
    Where more is needed it is a named hypothesis:
    - [conforms]: reads return what a stream holds, split in any way; after its bytes a
      stream is finished or fails, with any error and then with any further ones;
    - [BincodeLaws]: what was serialized is read back, and is not empty;
    - [BackoffLaws]: an operation is repeated only after a transient error;
    - [RustlsLaws]: a client configuration uses the verifier it was built with;
    - [QuinnConfigLaws]: the setters of quinn's configurations set what they say, and an
      idle timeout is the duration it was made from, in milliseconds;
    - [mutex]: a lock that is held is not granted again before it is released;
    - [arrives], [transported], [fifo]: what QUIC promises of a stream (the peer reads
      a prefix of what was written, or all of it) and of the order in which streams are
      accepted, and what a channel promises;
    - the freshness of the streams that quinn opens;
    - [network]: of a whole system, that an item taken from a channel was put there, that
      a stream is accepted at the other end of its connection and delivers a part of what
      was written, and that handles are distinct; [direct]: that addresses are not
      translated; [handed_over]: that a connection taken from an endpoint's channel was put
      there; [event_idle]: that connections time out; [event_lasting]: that they do not;
      [event_certified]: that the certificates rcgen generates can be serialized.
    [Demo.v] instantiates all of them; [Witnesses.v], [NodeWitnesses.v],
    [SystemWitnesses.v], [TestWitnesses.v] and [CommonWitnesses.v] apply every theorem that
    has hypotheses there. [NetworkCheck.v] decides [network] and [direct] on concrete traces.

    ** The theorems

    - Framing ([StreamSpec.v], [WireFacts.v], [Framing.v]): [decode] is a reference
      decoder on bytes. Reading refines it for every fragmentation and always ends,
      headers and messages make the round trip, sequences of messages arrive in order,
      oversized messages are refused, and what is written is a prefix of a frame.
    - Sending ([SendFacts.v]): attempts, retries and what success means.
    - Receiving ([UniListener.v], [BiListener.v], [BiStreams.v], [Channel.v]): each
      listener against a specification of the items it reports; for bidirectional
      streams first one handler (its reports, its answers to requests, the discipline
      of the stream's lock), then all handlers interleaved; when the listeners stop.
    - From user to user ([Delivery.v], [Locking.v]): the sending side joined with the
      listener of the peer, for sends that run concurrently, fail and are retried; and
      the sending half of a bidirectional stream, shared by the handler and the users
      under its lock.
    - The crate at work ([SystemFacts.v], [EchoStreams.v], [Peers.v], [EndpointTests.v],
      [ConnectionTests.v], [CommonTests.v], [ClientTest.v]): the tests of the crate pass in
      every interleaving with the accept loops and listeners they start: what one peer sends
      is what the other receives, the echo is the address of the endpoint that asked, a
      connection that times out is an error for the sender and a normal end for the
      receiver; an accepted connection comes from the endpoint that connected, and both
      ends of it talk to each other. [SystemFacts.v] and [Peers.v] hold
      what such systems have in common: which thread owns a stream, where a message came
      from, and that listeners that are asked only for echoes do not reach out.
    - Verification and RPCs ([Verification.v], [Rpc.v]): what a peer did when it
      confirms an address, and client and handler joined end to end.
    - Endpoints ([EndpointFacts.v], [NewPeer.v]): connecting, the choice of the public
      address, the order of the steps of [new_peer], the origin of its errors, the
      accept loop.
    - Panics ([Panics.v]): which tasks and public functions can panic, and when, with
      every index, slice and allocation of the crate's own code as a possible panic.
    - The example ([NodeFacts.v]): its greetings, its answers, and how it ends.
    - Configuration, errors, port forwarding ([ConfigFacts.v], [ErrorFacts.v],
      [TextFacts.v], [IgdFacts.v]).

    ** Fuel and bounds

    [runs] has no fuel. [exec] has, and only the executions of the witnesses use it:
    20 rounds of a loop, more than any of their scripts needs. [decode_all] and
    [stream_items] take fuel above the number of bytes of a stream, which is enough
    because a message takes at least one ([decode_all_total], [stream_items_fuel]).
    [causes] follows at most six sources, which is enough for every error
    ([causes_total]). [bi_reads] takes the number of reads as an argument because the
    handler it specifies need not have come to the end of its stream; [bi_left] ties the
    number to what the reads consumed, [bi_complete] says that there are no more. Integers are [Z] with the ranges of their Rust
    types stated where they matter; 16- and 32-bit encodings wrap as the casts do.

    ** What is not modelled

    Logging, the [Debug] output of [Endpoint] and of derived types, the code that serde
    and structopt generate (apart from the default strings and their parsers), the
    passage of time beyond which timer came first, the dropping of handles at the end of a
    block, and the configuration without the feature igd; lib.rs has no code. Pointers
    have 64 bits, memory does not run out, and calls into other crates do not panic. What a
    failed or unfinished [write_all] put on its stream is not counted as written
    ([event_written]); where a stream arrives, it is a prefix of what was ([arrives]). The
    alive channel never carries a value, so the branch of the listener that ignores one is
    left out. The reference decoder [decode] takes the header's fields and the meaning of
    flag and data from the functions of the code ([from_bytes], [interpret]); the header
    format is pinned by the round trip with [to_bytes]. The [Debug]
    output of [Endpoint] contains that of two floats, whose shortest decimal form is an
    algorithm of the standard library that is not modelled. Of tests/common.rs the tests
    are left out that compare hashes of many messages sent by concurrent tasks, that open
    several connections between the same peers, which would need the network to say which
    two ends belong together, and that try an address at which nobody listens. The test
    endpoint_verification is modelled, but whether it passes depends on connecting back in
    time; what a verdict means is proved in [Verification.v] and [Rpc.v]. *)

From Stdlib Require Export ZArith Lia.
From Stdlib Require Import Strings.Byte.
From stdpp Require Export base list sets strings decidable.

(** ** Results and conversions

    [Result] is Rust's type of the same name; [From] is the trait
    [std::convert::From], whose instances the [?] operator uses. *)

Inductive Result (T E : Type) : Type :=
| Ok (v : T)
| Err (e : E).

Arguments Ok {T E} v.
Arguments Err {T E} e.

Class From (A B : Type) := from : A -> B.

(** The reflexive instance [impl<T> From<T> for T]. *)
#[export] Instance From_refl (A : Type) : From A A | 10 := fun a => a.

Definition map_err {T E F} (f : E -> F) (r : Result T E) : Result T F :=
  match r with Ok v => Ok v | Err e => Err (f e) end.

Definition is_ok {T E} (r : Result T E) : bool :=
  match r with Ok _ => true | Err _ => false end.

Definition and_then {T U E} (r : Result T E) (f : T -> Result U E) : Result U E :=
  match r with Ok v => f v | Err e => Err e end.

Definition or_else {T E F} (r : Result T E) (f : E -> Result T F) : Result T F :=
  match r with Ok v => Ok v | Err e => f e end.

(** [Option<Result<T, E>>::transpose] and [Result<Option<T>, E>]. *)
Definition transpose {T E} (o : option (Result T E)) : Result (option T) E :=
  match o with
  | None => Ok None
  | Some (Ok v) => Ok (Some v)
  | Some (Err e) => Err e
  end.

Definition unwrap_or {T} (o : option T) (d : T) : T :=
  match o with Some v => v | None => d end.

(** ** Bytes and fixed-width integers

    A [u8] is the Standard Library's [byte]; the wider unsigned types are [Z]
    with their range written out. *)

Abbreviation Bytes := (list Byte.byte).

Definition u8 (b : Byte.byte) : Z := Z.of_N (Byte.to_N b).

Definition u8_of (z : Z) : Byte.byte :=
  match Byte.of_N (Z.to_N (z mod 256)) with
  | Some b => b
  | None => Byte.x00
  end.

Definition u16_range (z : Z) : Prop := (0 <= z < 2 ^ 16)%Z.
Definition u32_range (z : Z) : Prop := (0 <= z < 2 ^ 32)%Z.
Definition u64_range (z : Z) : Prop := (0 <= z < 2 ^ 64)%Z.

Definition u32_MAX : Z := 2 ^ 32 - 1.

(** [z as u32] on an unsigned value. *)
Definition as_u32 (z : Z) : Z := z mod 2 ^ 32.

(** [u32::try_from(usize)]. *)
Definition u32_try_from (z : Z) : option Z :=
  if (z <=? u32_MAX)%Z then Some z else None.

(** [to_be_bytes] and [from_be_bytes] of an [n]-byte unsigned integer. *)
Fixpoint to_be_bytes (n : nat) (z : Z) : Bytes :=
  match n with
  | O => []
  | S n => u8_of (Z.shiftr z (8 * Z.of_nat n)) :: to_be_bytes n z
  end.

Definition from_be_bytes (l : Bytes) : Z :=
  fold_left (fun acc b => acc * 256 + u8 b)%Z l 0%Z.

(** The length of a buffer as the integer [usize] holds. *)
Definition zlen {A} (l : list A) : Z := Z.of_nat (length l).

(** ** Lemmas *)

Create HintDb qp2p discriminated.
Create Rewrite HintDb qp2p_len.

Lemma u8_range b : (0 <= u8 b < 256)%Z.
Proof.
  unfold u8. pose proof (Byte.to_N_bounded b). lia.
Qed.

Lemma u8_u8_of z : u8 (u8_of z) = (z mod 256)%Z.
Proof.
  unfold u8, u8_of.
  pose proof (Z.mod_pos_bound z 256 ltac:(lia)) as Hz.
  destruct (Byte.of_N (Z.to_N (z mod 256))) as [b|] eqn:E.
  - apply Byte.to_of_N in E. rewrite E. lia.
  - apply Byte.of_N_None_iff in E. lia.
Qed.

Lemma u8_inj b1 b2 : u8 b1 = u8 b2 -> b1 = b2.
Proof.
  unfold u8. intros H%N2Z.inj.
  pose proof (Byte.of_to_N b1). pose proof (Byte.of_to_N b2). congruence.
Qed.

Lemma u8_of_u8 b : u8_of (u8 b) = b.
Proof.
  apply u8_inj. rewrite u8_u8_of. apply Z.mod_small, u8_range.
Qed.

Lemma length_to_be_bytes n z : length (to_be_bytes n z) = n.
Proof. induction n as [|n IH]; simpl; congruence. Qed.

Lemma from_be_bytes_snoc l b :
  from_be_bytes (l ++ [b]) = (from_be_bytes l * 256 + u8 b)%Z.
Proof. unfold from_be_bytes. by rewrite fold_left_app. Qed.

Lemma fold_be_acc l a :
  fold_left (fun acc b => acc * 256 + u8 b)%Z l a
  = (a * 256 ^ zlen l + from_be_bytes l)%Z.
Proof.
  unfold from_be_bytes, zlen. revert a.
  induction l as [|b l IH]; intros a; cbn [fold_left length].
  - lia.
  - rewrite IH, (IH (0 * 256 + u8 b)%Z), Nat2Z.inj_succ, Z.pow_succ_r by lia. lia.
Qed.

Lemma from_be_bytes_cons b l :
  from_be_bytes (b :: l) = (u8 b * 256 ^ zlen l + from_be_bytes l)%Z.
Proof. unfold from_be_bytes at 1. cbn [fold_left]. rewrite fold_be_acc. lia. Qed.

Lemma from_be_bytes_range l : (0 <= from_be_bytes l < 256 ^ zlen l)%Z.
Proof.
  unfold zlen. induction l as [|b l IH].
  - cbn. lia.
  - rewrite from_be_bytes_cons. cbn [length].
    rewrite Nat2Z.inj_succ, Z.pow_succ_r by lia.
    pose proof (u8_range b). unfold zlen. nia.
Qed.

Lemma pow256 n : (2 ^ (8 * Z.of_nat n) = 256 ^ Z.of_nat n)%Z.
Proof. rewrite Z.pow_mul_r by lia. reflexivity. Qed.

Lemma from_to_be_bytes n z :
  from_be_bytes (to_be_bytes n z) = (z mod 256 ^ Z.of_nat n)%Z.
Proof.
  induction n as [|n IH]; cbn [to_be_bytes].
  - by rewrite Z.mod_1_r.
  - rewrite from_be_bytes_cons, IH, u8_u8_of.
    unfold zlen. rewrite length_to_be_bytes, Z.shiftr_div_pow2, pow256 by lia.
    rewrite Nat2Z.inj_succ, Z.pow_succ_r by lia.
    rewrite (Z.mul_comm 256), Z.rem_mul_r by lia. lia.
Qed.

(** Encoding on [n] bytes ignores any multiple of a higher power of 256. *)
Lemma to_be_bytes_add n k x r :
  (n <= k)%nat ->
  to_be_bytes n (x * 256 ^ Z.of_nat k + r) = to_be_bytes n r.
Proof.
  induction n as [|n IH]; intros Hn; [done|].
  cbn [to_be_bytes]. rewrite IH by lia. f_equal.
  apply u8_inj. rewrite !u8_u8_of, !Z.shiftr_div_pow2, pow256 by lia.
  replace (Z.of_nat k) with (Z.of_nat (k - S n) + 1 + Z.of_nat n)%Z by lia.
  rewrite !Z.pow_add_r, !Z.mul_assoc, Z.div_add_l by lia.
  rewrite Z.add_comm, Z.pow_1_r. by apply Z.mod_add.
Qed.

Lemma to_from_be_bytes l : to_be_bytes (length l) (from_be_bytes l) = l.
Proof.
  induction l as [|b l IH]; [done|].
  pose proof (from_be_bytes_range l) as Hr. pose proof (u8_range b) as Hb.
  rewrite from_be_bytes_cons. cbn [length to_be_bytes]. f_equal.
  - apply u8_inj. rewrite u8_u8_of, Z.shiftr_div_pow2, pow256 by lia.
    unfold zlen in *. rewrite Z.div_add_l by lia.
    rewrite (Z.div_small (from_be_bytes l)), Z.add_0_r by lia.
    by apply Z.mod_small.
  - unfold zlen. by rewrite to_be_bytes_add.
Qed.

Lemma zlen_app {A} (l1 l2 : list A) : zlen (l1 ++ l2) = (zlen l1 + zlen l2)%Z.
Proof. unfold zlen. rewrite length_app. lia. Qed.

Lemma zlen_nonneg {A} (l : list A) : (0 <= zlen l)%Z.
Proof. unfold zlen. lia. Qed.

(** Strings under concatenation. *)
#[export] Instance string_app_assoc : Assoc (=) String.append.
Proof. intros s1 s2 s3. induction s1 as [|c s1 IH]; [done|]. exact (f_equal (String c) IH). Qed.

#[export] Instance string_app_nil_r : RightId (=) EmptyString String.append.
Proof. intros s. induction s as [|c s IH]; [done|]. exact (f_equal (String c) IH). Qed.

#[export] Hint Resolve u8_range zlen_nonneg : qp2p.
#[export] Hint Rewrite @length_app length_to_be_bytes @length_replicate : qp2p_len.
