(* ===== verification/Std.v ===== *)
(** * What the crate uses of Rust's standard library

    [std::time::Duration], the socket addresses of [std::net] and the text they
    and byte slices are formatted to ([fmt::Display], [fmt::Debug] and [{:02x}]).
    Numbers are printed with stdpp's [pretty], which is the decimal numeral. *)

From stdpp Require Import pretty.
From Stdlib Require Import Strings.Byte.
From S2P Require Import Prelude.

Local Open Scope Z_scope.

(** ** Duration: whole seconds ([u64]) and nanoseconds below one second *)

Record Duration := mkDuration { secs : Z; nanos : Z }.

Definition NANOS_PER_SEC : Z := 1000000000.

Definition Duration_wf (d : Duration) : Prop :=
  u64_range (secs d) /\ 0 <= nanos d < NANOS_PER_SEC.

Definition from_secs (s : Z) : Duration := mkDuration s 0.

Definition from_millis (ms : Z) : Duration :=
  mkDuration (ms / 1000) (ms mod 1000 * 1000000).

Definition as_secs (d : Duration) : Z := secs d.

Definition as_millis (d : Duration) : Z := secs d * 1000 + nanos d / 1000000.

(** [Ord::min]: lexicographic on seconds, then nanoseconds; on a tie the two
    are equal. *)
Definition Duration_le (a b : Duration) : bool :=
  if secs a <? secs b then true
  else if secs b <? secs a then false
  else nanos a <=? nanos b.

Definition Duration_min (a b : Duration) : Duration :=
  if Duration_le a b then a else b.

Definition Duration_zero (d : Duration) : bool :=
  (secs d =? 0) && (nanos d =? 0).

(** ** Operations that panic: [None] is the panic

    The machine is one with 64-bit pointers. Indices into arrays that are constants are
    checked when the crate is compiled and are not of this kind. *)

(** [a[i]] of a slice. *)
Definition index {A} (a : list A) (i : nat) : option A := a !! i.

(** [a - b] of [usize]. *)
Definition usize_sub (a b : nat) : option nat :=
  if (b <=? a)%nat then Some (a - b)%nat else None.

(** The length of [buf[off..]], for a buffer of [len] elements. *)
Definition slice_from (len off : nat) : option nat := usize_sub len off.

Definition isize_MAX : Z := 2 ^ 63 - 1.

(** The length of [vec![0; n]]: a vector has at most [isize::MAX] bytes. *)
Definition vec_zeroed (n : Z) : option nat :=
  if n <=? isize_MAX then Some (Z.to_nat n) else None.

(** ** Socket addresses *)

Record Ipv4Addr := mkIpv4 { oct0 : byte; oct1 : byte; oct2 : byte; oct3 : byte }.

(** The eight 16-bit segments of an IPv6 address. *)
Record Ipv6Addr := mkIpv6
  { seg0 : Z; seg1 : Z; seg2 : Z; seg3 : Z; seg4 : Z; seg5 : Z; seg6 : Z; seg7 : Z }.

Definition segments (a : Ipv6Addr) : list Z :=
  [seg0 a; seg1 a; seg2 a; seg3 a; seg4 a; seg5 a; seg6 a; seg7 a].

Inductive IpAddr :=
| IpV4 (a : Ipv4Addr)
| IpV6 (a : Ipv6Addr).

Record SocketAddrV4 := mkV4 { v4_ip : Ipv4Addr; v4_port : Z }.

Record SocketAddrV6 := mkV6
  { v6_ip : Ipv6Addr; v6_port : Z; v6_flowinfo : Z; v6_scope_id : Z }.

Inductive SocketAddr :=
| V4 (a : SocketAddrV4)
| V6 (a : SocketAddrV6).

#[export] Instance byte_eq_dec : EqDecision byte := Byte.byte_eq_dec.
#[export] Instance Ipv4Addr_eq_dec : EqDecision Ipv4Addr.
Proof. solve_decision. Defined.
#[export] Instance Ipv6Addr_eq_dec : EqDecision Ipv6Addr.
Proof. solve_decision. Defined.
#[export] Instance IpAddr_eq_dec : EqDecision IpAddr.
Proof. solve_decision. Defined.
#[export] Instance SocketAddrV4_eq_dec : EqDecision SocketAddrV4.
Proof. solve_decision. Defined.
#[export] Instance SocketAddrV6_eq_dec : EqDecision SocketAddrV6.
Proof. solve_decision. Defined.
#[export] Instance SocketAddr_eq_dec : EqDecision SocketAddr.
Proof. solve_decision. Defined.

Definition sa_ip (a : SocketAddr) : IpAddr :=
  match a with V4 a => IpV4 (v4_ip a) | V6 a => IpV6 (v6_ip a) end.

Definition sa_port (a : SocketAddr) : Z :=
  match a with V4 a => v4_port a | V6 a => v6_port a end.

(** [SocketAddr::new]. *)
Definition sa_new (ip : IpAddr) (port : Z) : SocketAddr :=
  match ip with
  | IpV4 a => V4 (mkV4 a port)
  | IpV6 a => V6 (mkV6 a port 0 0)
  end.

(** [SocketAddr::set_ip] keeps the flow information and scope of a V6 address
    when the family stays the same, and starts afresh when it changes. *)
Definition set_ip (a : SocketAddr) (ip : IpAddr) : SocketAddr :=
  match a, ip with
  | V4 a, IpV4 ip => V4 (mkV4 ip (v4_port a))
  | V6 a, IpV6 ip => V6 (mkV6 ip (v6_port a) (v6_flowinfo a) (v6_scope_id a))
  | a, ip => sa_new ip (sa_port a)
  end.

Definition set_port (a : SocketAddr) (port : Z) : SocketAddr :=
  match a with
  | V4 a => V4 (mkV4 (v4_ip a) port)
  | V6 a => V6 (mkV6 (v6_ip a) port (v6_flowinfo a) (v6_scope_id a))
  end.

(** [Ipv4Addr::LOCALHOST]. *)
Definition LOCALHOST : Ipv4Addr := mkIpv4 x7f x00 x00 x01.

(** ** Formatting *)

Local Open Scope string_scope.

(** [{}] of an unsigned integer. *)
Definition dec (z : Z) : string := pretty z.

Definition hex_digit (n : N) : string :=
  match n with
  | 0 => "0" | 1 => "1" | 2 => "2" | 3 => "3" | 4 => "4" | 5 => "5" | 6 => "6" | 7 => "7"
  | 8 => "8" | 9 => "9" | 10 => "a" | 11 => "b" | 12 => "c" | 13 => "d" | 14 => "e"
  | _ => "f"
  end%N.

(** [{:02x}] of a byte. *)
Definition hex2 (b : byte) : string :=
  (hex_digit (Byte.to_N b / 16) +:+ hex_digit (Byte.to_N b mod 16))%N.

(** [{:x}] of a 16-bit segment: no leading zeros. *)
Definition hex16 (z : Z) : string :=
  let d i := hex_digit (Z.to_N (Z.land (Z.shiftr z (4 * i)) 15)) in
  (if z <? 16 then d 0
   else if z <? 256 then d 1 +:+ d 0
   else if z <? 4096 then d 2 +:+ d 1 +:+ d 0
   else d 3 +:+ d 2 +:+ d 1 +:+ d 0)%Z.

Fixpoint join (sep : string) (l : list string) : string :=
  match l with
  | [] => ""
  | [s] => s
  | s :: l => s +:+ sep +:+ join sep l
  end.

Definition fmt_Ipv4 (a : Ipv4Addr) : string :=
  join "." (map (fun b => dec (u8 b)) [oct0 a; oct1 a; oct2 a; oct3 a]).

(** The longest run of zero segments, the first of equal ones: [(start, len)].
    [cur] is the run the scan is in. *)
Fixpoint longest_zeroes (i : nat) (l : list Z) (cur best : nat * nat) : nat * nat :=
  match l with
  | [] => best
  | s :: l =>
      if (s =? 0)%Z then
        let cur := ((if (cur.2 =? 0)%nat then i else cur.1), S cur.2) in
        longest_zeroes (S i) l cur (if (best.2 <? cur.2)%nat then cur else best)
      else longest_zeroes (S i) l (0, 0)%nat best
  end.

Definition fmt_segments (l : list Z) : string := join ":" (map hex16 l).

(** The IPv4 address embedded in an IPv4-compatible or IPv4-mapped one. *)
Definition embedded_v4 (a : Ipv6Addr) : Ipv4Addr :=
  mkIpv4 (u8_of (seg6 a / 256)) (u8_of (seg6 a)) (u8_of (seg7 a / 256)) (u8_of (seg7 a)).

Definition fmt_Ipv6 (a : Ipv6Addr) : string :=
  if decide (segments a = [0; 0; 0; 0; 0; 0; 0; 0]%Z) then "::"
  else if decide (segments a = [0; 0; 0; 0; 0; 0; 0; 1]%Z) then "::1"
  else if decide (take 6 (segments a) = [0; 0; 0; 0; 0; 0]%Z)
  then "::" +:+ fmt_Ipv4 (embedded_v4 a)
  else if decide (take 6 (segments a) = [0; 0; 0; 0; 0; 65535]%Z)
  then "::ffff:" +:+ fmt_Ipv4 (embedded_v4 a)
  else
    let z := longest_zeroes 0 (segments a) (0, 0)%nat (0, 0)%nat in
    if (1 <? z.2)%nat
    then fmt_segments (take z.1 (segments a)) +:+ "::"
         +:+ fmt_segments (drop (z.1 + z.2) (segments a))
    else fmt_segments (segments a).

Definition fmt_SocketAddr (a : SocketAddr) : string :=
  match a with
  | V4 a => fmt_Ipv4 (v4_ip a) +:+ ":" +:+ dec (v4_port a)
  | V6 a =>
      if (v6_scope_id a =? 0)%Z
      then "[" +:+ fmt_Ipv6 (v6_ip a) +:+ "]:" +:+ dec (v6_port a)
      else "[" +:+ fmt_Ipv6 (v6_ip a) +:+ "%" +:+ dec (v6_scope_id a) +:+ "]:"
           +:+ dec (v6_port a)
  end.

(** [{:?}] of a byte slice. *)
Definition debug_bytes (l : Bytes) : string :=
  "[" +:+ join ", " (map (fun b => dec (u8 b)) l) +:+ "]".

(** [f.debug_struct(name).field(..)..]: [finish] and [finish_non_exhaustive]. *)
Definition debug_struct (name : string) (fields : list (string * string)) (more : list string) :
    string :=
  match (map (fun f => f.1 +:+ ": " +:+ f.2) fields ++ more)%list with
  | [] => name
  | l => name +:+ " { " +:+ join ", " l +:+ " }"
  end.

Definition finish_non_exhaustive : list string := [".."].

(** ** Lemmas *)

Local Open Scope Z_scope.

Lemma Duration_min_le a b : secs (Duration_min a b) <= secs b.
Proof.
  unfold Duration_min, Duration_le.
  destruct (secs a <? secs b) eqn:E1; [lia|].
  destruct (secs b <? secs a) eqn:E2; [done|].
  destruct (nanos a <=? nanos b); lia.
Qed.

Lemma Duration_min_l a b : Duration_le a b = true -> Duration_min a b = a.
Proof. unfold Duration_min. by intros ->. Qed.

Lemma sa_ip_set_ip a ip : sa_ip (set_ip a ip) = ip.
Proof. by destruct a, ip. Qed.

Lemma sa_port_set_ip a ip : sa_port (set_ip a ip) = sa_port a.
Proof. by destruct a, ip. Qed.

Lemma sa_ip_set_port a p : sa_ip (set_port a p) = sa_ip a.
Proof. by destruct a. Qed.

Lemma sa_port_set_port a p : sa_port (set_port a p) = p.
Proof. by destruct a. Qed.

Lemma set_port_same a : set_port a (sa_port a) = a.
Proof. by destruct a as [[]|[]]. Qed.

Lemma set_ip_same a : set_ip a (sa_ip a) = a.
Proof. by destruct a as [[]|[]]. Qed.

Create Rewrite HintDb sockaddr.
#[export] Hint Rewrite sa_ip_set_ip sa_port_set_ip sa_ip_set_port sa_port_set_port
  set_port_same set_ip_same : sockaddr.
