(* ===== verification/Parse.v ===== *)
(** * [SocketAddr::from_str]

    The standard library's parser of socket addresses ([core::net::parser]), which the
    example uses for its arguments. A parser takes the text and returns the value with
    the rest of the text; a parser that fails consumes nothing. *)

From stdpp Require Import pretty.
From Stdlib Require Import Strings.Byte Ascii.
From S2P Require Import Prelude Std.

Local Open Scope Z_scope.

Abbreviation parser A := (string -> option (A * string)).

(** [char::to_digit]. *)
Definition to_digit (radix : Z) (c : ascii) : option Z :=
  let n := Z.of_nat (nat_of_ascii c) in
  let d :=
    if (48 <=? n) && (n <=? 57) then n - 48
    else if (97 <=? n) && (n <=? 122) then n - 87
    else if (65 <=? n) && (n <=? 90) then n - 55
    else radix in
  if d <? radix then Some d else None.

(** The loop of [read_number]; [max] is the largest value of the integer type, on which
    [checked_mul] and [checked_add] fail. *)
Fixpoint read_digits (radix max : Z) (max_digits : option nat) (result : Z) (digit_count : nat)
    (s : string) : option (Z * nat * string) :=
  match s with
  | EmptyString => Some (result, digit_count, s)
  | String c s' =>
      match to_digit radix c with
      | None => Some (result, digit_count, s)
      | Some digit =>
          if result * radix + digit <=? max then
            if match max_digits with Some m => (m <? S digit_count)%nat | None => false end
            then None
            else read_digits radix max max_digits (result * radix + digit) (S digit_count) s'
          else None
      end
  end.

Definition has_leading_zero (s : string) : bool :=
  match s with String c _ => Ascii.eqb c "0" | EmptyString => false end.

Definition read_number (radix max : Z) (max_digits : option nat) (allow_zero_prefix : bool) :
    parser Z := fun s =>
  match read_digits radix max max_digits 0 0 s with
  | None => None
  | Some (result, digit_count, s') =>
      if (digit_count =? 0)%nat then None
      else if negb allow_zero_prefix && has_leading_zero s && (1 <? digit_count)%nat then None
      else Some (result, s')
  end.

Definition read_given_char (c : ascii) : parser unit := fun s =>
  match s with
  | String c' s' => if Ascii.eqb c' c then Some (tt, s') else None
  | EmptyString => None
  end.

(** The separator stands before every element but the first. *)
Definition read_separator {A} (sep : ascii) (index : nat) (inner : parser A) : parser A := fun s =>
  if (0 <? index)%nat then '(_, s) ← read_given_char sep s; inner s else inner s.

Definition read_octet (index : nat) : parser Z :=
  read_separator "." index (read_number 10 255 (Some 3%nat) false).

Definition read_ipv4_addr : parser Ipv4Addr := fun s =>
  '(a, s) ← read_octet 0 s;
  '(b, s) ← read_octet 1 s;
  '(c, s) ← read_octet 2 s;
  '(d, s) ← read_octet 3 s;
  Some (mkIpv4 (u8_of a) (u8_of b) (u8_of c) (u8_of d), s).

(** Groups [index], [index + 1], .. of at most [limit] more; whether the last two of
    them were an embedded IPv4 address; the rest of the text. *)
Fixpoint read_groups (limit index : nat) (s : string) : list Z * bool * string :=
  match limit with
  | O => ([], false, s)
  | S limit =>
      match (if (0 <? limit)%nat then read_separator ":" index read_ipv4_addr s else None) with
      | Some (mkIpv4 one two three four, s) =>
          ([from_be_bytes [one; two]; from_be_bytes [three; four]], true, s)
      | None =>
          match read_separator ":" index (read_number 16 65535 (Some 4%nat) true) s with
          | Some (g, s) =>
              let '(gs, v4, s) := read_groups limit (S index) s in (g :: gs, v4, s)
          | None => ([], false, s)
          end
      end
  end.

Definition ipv6_of (l : list Z) : Ipv6Addr :=
  let seg i := nth i l 0 in
  mkIpv6 (seg 0%nat) (seg 1%nat) (seg 2%nat) (seg 3%nat) (seg 4%nat) (seg 5%nat) (seg 6%nat)
    (seg 7%nat).

Definition read_ipv6_addr : parser Ipv6Addr := fun s =>
  let '(head, head_ipv4, s) := read_groups 8 0 s in
  if (length head =? 8)%nat then Some (ipv6_of head, s)
  else if head_ipv4 : bool then None
  else
    '(_, s) ← read_given_char ":" s;
    '(_, s) ← read_given_char ":" s;
    let '(tail, _, s) := read_groups (8 - (length head + 1)) 0 s in
    Some (ipv6_of (head ++ replicate (8 - length head - length tail) 0 ++ tail), s).

Definition read_port : parser Z := fun s =>
  '(_, s) ← read_given_char ":" s; read_number 10 65535 None true s.

Definition read_scope_id : parser Z := fun s =>
  '(_, s) ← read_given_char "%" s; read_number 10 (2 ^ 32 - 1) None true s.

Definition read_socket_addr_v4 : parser SocketAddrV4 := fun s =>
  '(ip, s) ← read_ipv4_addr s;
  '(port, s) ← read_port s;
  Some (mkV4 ip port, s).

Definition read_socket_addr_v6 : parser SocketAddrV6 := fun s =>
  '(_, s) ← read_given_char "[" s;
  '(ip, s) ← read_ipv6_addr s;
  let '(scope_id, s) := match read_scope_id s with Some r => r | None => (0, s) end in
  '(_, s) ← read_given_char "]" s;
  '(port, s) ← read_port s;
  Some (mkV6 ip port 0 scope_id, s).

Definition read_socket_addr : parser SocketAddr := fun s =>
  match read_socket_addr_v4 s with
  | Some (a, s) => Some (V4 a, s)
  | None => '(a, s) ← read_socket_addr_v6 s; Some (V6 a, s)
  end.

(** [parse_with]: the whole text has to be consumed. *)
Definition SocketAddr_from_str (s : string) : option SocketAddr :=
  match read_socket_addr s with
  | Some (a, EmptyString) => Some a
  | _ => None
  end.

Example parse_v4 : SocketAddr_from_str "127.0.0.1:1234" = Some (V4 (mkV4 LOCALHOST 1234)).
Proof. vm_compute. reflexivity. Qed.

Example parse_v6 :
  SocketAddr_from_str "[fe80::1:2%3]:443"
  = Some (V6 (mkV6 (mkIpv6 65152 0 0 0 0 0 1 2) 443 0 3)).
Proof. vm_compute. reflexivity. Qed.

Example parse_v6_embedded :
  SocketAddr_from_str "[::ffff:10.0.0.1]:1"
  = Some (V6 (mkV6 (mkIpv6 0 0 0 0 0 65535 2560 1) 1 0 0)).
Proof. vm_compute. reflexivity. Qed.

Example parse_refused :
  map SocketAddr_from_str
    ["127.0.0.1"; "127.0.0.1:65536"; "256.0.0.1:1"; "127.0.0.01:1"; "127.0.0.1:1 "; "localhost:1";
     "[::1]"; "[1:2:3:4:5:6:7:8:9]:1"]%string
  = replicate 8 None.
Proof. vm_compute. reflexivity. Qed.

(** ** Printing and parsing again *)

Local Open Scope N_scope.

Lemma pretty_N_go_app x s t : (pretty_N_go x s +:+ t = pretty_N_go x (s +:+ t))%string.
Proof.
  revert s. induction (N.lt_wf_0 x) as [x _ IH]; intros s.
  destruct (decide (0 < x)) as [Hx|Hx]; [|by replace x with 0 by lia].
  rewrite (pretty_N_go_step x s), (pretty_N_go_step x (s +:+ t)%string) by done.
  rewrite IH by (by apply N.div_lt). done.
Qed.

(** The numeral of a positive number does not start with a zero. *)
Lemma pretty_N_go_head x s : 0 < x -> has_leading_zero (pretty_N_go x s) = false.
Proof.
  revert s. induction (N.lt_wf_0 x) as [x _ IH]; intros s Hx.
  rewrite pretty_N_go_step by done. destruct (decide (0 < x / 10)) as [Hd|Hd].
  - apply IH; [by apply N.div_lt|done].
  - apply N.nlt_ge, N.le_0_r in Hd. rewrite Hd, pretty_N_go_0.
    apply N.div_small_iff in Hd; [|done]. rewrite N.mod_small by done.
    unfold pretty_N_char. by repeat case_match; try lia.
Qed.

Lemma to_digit_pretty x : x < 10 -> to_digit 10 (pretty_N_char x) = Some (Z.of_N x).
Proof.
  intros H. assert (x = 0 ∨ x = 1 ∨ x = 2 ∨ x = 3 ∨ x = 4 ∨ x = 5 ∨ x = 6 ∨ x = 7 ∨ x = 8 ∨ x = 9)
    by lia. by destruct_or?; subst.
Qed.

Local Open Scope Z_scope.

Definition allows (max_digits : option nat) (z : Z) : Prop :=
  match max_digits with Some m => z < 10 ^ Z.of_nat m | None => True end.

(** Reading the digits of a positive number. *)
Lemma read_pretty_N_go max md x s :
  (0 < x)%N -> Z.of_N x <= max -> allows md (Z.of_N x) ->
  exists k, (0 < k)%nat /\ 10 ^ (Z.of_nat k - 1) <= Z.of_N x
    /\ read_digits 10 max md 0 0 (pretty_N_go x s) = read_digits 10 max md (Z.of_N x) k s.
Proof.
  revert s. induction (N.lt_wf_0 x) as [x _ IH]; intros s Hx Hmax Hmd.
  rewrite pretty_N_go_step by done.
  pose proof (N.div_mod x 10 ltac:(done)) as Hdm. pose proof (N.mod_lt x 10 ltac:(done)) as Hm.
  assert (x / 10 < x)%N as Hlt by (by apply N.div_lt).
  generalize dependent (x mod 10)%N. generalize dependent (x / 10)%N. intros q Hlt r Hdm Hm.
  destruct (decide (0 < q)%N) as [Hd|Hd].
  - destruct (IH q) with (s := String (pretty_N_char r) s)
      as (k & Hk & Hpow & ->); [done|done|lia|destruct md; [cbn in *; lia|done]|].
    exists (S k). cbn [read_digits]. rewrite to_digit_pretty by done.
    replace (Z.of_N q * 10 + Z.of_N r) with (Z.of_N x) by lia.
    rewrite (proj2 (Z.leb_le _ _) Hmax).
    assert (10 ^ (Z.of_nat (S k) - 1) <= Z.of_N x) as Hlow.
    { replace (Z.of_nat (S k) - 1) with (1 + (Z.of_nat k - 1)) by lia.
      rewrite Z.pow_add_r by lia. lia. }
    split_and!; [lia|done|]. destruct md as [m|]; [|done].
    destruct (Nat.ltb_spec m (S k)); [|done]. cbn in Hmd.
    assert (10 ^ Z.of_nat m <= 10 ^ (Z.of_nat (S k) - 1)) by (apply Z.pow_le_mono_r; lia). lia.
  - replace q with 0%N by lia. rewrite pretty_N_go_0. exists 1%nat. cbn [read_digits].
    rewrite to_digit_pretty by done. replace (0 * 10 + Z.of_N r) with (Z.of_N x) by lia.
    rewrite (proj2 (Z.leb_le _ _) Hmax). split_and!; [lia|cbn; lia|].
    destruct md as [[|m]|]; [|done..]. cbn in Hmd. lia.
Qed.

(** The text after a number does not continue it. *)
Definition no_digit (s : string) : Prop :=
  match s with String c _ => to_digit 10 c = None | EmptyString => True end.

Lemma read_digits_stop max md r k s : no_digit s -> read_digits 10 max md r k s = Some (r, k, s).
Proof. destruct s as [|c s]; cbn; [done|]. by intros ->. Qed.

(** A printed number is read back. *)
Lemma read_number_dec max md allow z s :
  0 <= z <= max -> allows md z -> (md <> Some 0%nat) -> no_digit s ->
  read_number 10 max md allow (dec z +:+ s) = Some (z, s).
Proof.
  intros Hz Hmd Hm Hs. unfold read_number. destruct z as [|p|p]; [| |lia].
  - change (dec 0 +:+ s)%string with (String "0" s). cbn [read_digits].
    change (to_digit 10 "0") with (Some 0). cbv iota beta. change (0 * 10 + 0) with 0.
    rewrite (proj2 (Z.leb_le 0 max)) by lia.
    assert (match md with Some m => (m <? 1)%nat | None => false end = false) as ->
      by (destruct md as [[|]|]; done).
    rewrite read_digits_stop by done. cbn. by rewrite andb_false_r.
  - change (dec (Z.pos p)) with (pretty_N_go (N.pos p) "").
    rewrite pretty_N_go_app. change ("" +:+ s)%string with s.
    destruct (read_pretty_N_go max md (N.pos p) s) as (k & Hk & _ & ->); [lia|lia|done|].
    rewrite read_digits_stop by done.
    destruct (Nat.eqb_spec k 0); [lia|]. rewrite pretty_N_go_head by lia. by rewrite andb_false_r.
Qed.

Lemma read_octet_first b s : no_digit s -> read_octet 0 (dec (u8 b) +:+ s) = Some (u8 b, s).
Proof.
  intros Hs. pose proof (u8_range b). apply read_number_dec; [lia|cbn; lia|done|done].
Qed.

Lemma read_octet_next i b s :
  no_digit s -> read_octet (S i) ("." +:+ dec (u8 b) +:+ s) = Some (u8 b, s).
Proof. apply read_octet_first. Qed.

Lemma fmt_Ipv4_app a s :
  (fmt_Ipv4 a +:+ s)%string
  = (dec (u8 (oct0 a)) +:+ "." +:+ dec (u8 (oct1 a)) +:+ "." +:+ dec (u8 (oct2 a)) +:+ "."
     +:+ dec (u8 (oct3 a)) +:+ s)%string.
Proof.
  unfold fmt_Ipv4. cbn [map join]. by rewrite <- !(assoc String.append).
Qed.

Lemma read_ipv4_addr_fmt a s : no_digit s -> read_ipv4_addr (fmt_Ipv4 a +:+ s) = Some (a, s).
Proof.
  intros Hs. rewrite fmt_Ipv4_app. unfold read_ipv4_addr.
  rewrite read_octet_first by done. cbn [mbind option_bind].
  rewrite read_octet_next by done. cbn [mbind option_bind].
  rewrite read_octet_next by done. cbn [mbind option_bind].
  rewrite read_octet_next by done. cbn [mbind option_bind].
  rewrite !u8_of_u8. by destruct a.
Qed.

(** A printed IPv4 socket address is parsed back. *)
Lemma SocketAddr_v4_roundtrip ip port :
  u16_range port -> SocketAddr_from_str (fmt_SocketAddr (V4 (mkV4 ip port))) = Some (V4 (mkV4 ip port)).
Proof.
  unfold u16_range. intros Hp.
  unfold SocketAddr_from_str, read_socket_addr, read_socket_addr_v4. cbn [fmt_SocketAddr v4_ip v4_port].
  rewrite read_ipv4_addr_fmt by done. cbn [mbind option_bind]. unfold read_port.
  change (":" +:+ dec port)%string with (String ":" (dec port)). cbn [read_given_char].
  rewrite Ascii.eqb_refl. cbn [mbind option_bind].
  replace (dec port) with (dec port +:+ "")%string by apply right_id, _.
  by rewrite read_number_dec by (done || lia).
Qed.
