(* ===== verification/Prog.v ===== *)
(** * Asynchronous programs and their runs

    The crate's functions await calls into quinn, tokio, igd and their like. A
    function is translated to a [prog]: a tree whose nodes are those calls
    (events of a signature [E], each with the type of its answer) and the three
    control constructs the crate takes from tokio and futures:

    - [Cut c p k]: [p] raced against the cause [c] ([timeout] and the [select]
      on the alive channel); [k] gets [p]'s value, or [None] when [c] came first.
      Both constructs poll [p] before they look at the cause, so a cut happens only
      while [p] waits for the answer of a call it awaits;
    - [Loop body s k]: the crate's own [loop] and [while] loops;
    - [Race ps k]: [futures::future::select_ok].

    [runs p tr o] is the meaning: [p], in some environment that gives the answers
    recorded in [tr], has performed exactly the events of [tr] and is now in the
    outcome [o]: finished with a value, still running, or panicked. Every theorem
    that quantifies over runs therefore holds in every environment and at every
    moment of the execution. [exec] executes a program against a concrete
    environment and yields a run ([exec_sound]). *)

From S2P Require Import Prelude Std.

Set Warnings "-register-all".

(** Why a future is dropped before it finishes. *)
Inductive cause :=
| Timer (d : Duration)
| HandlesDropped.

Inductive halt := Running | Faulted.

Inductive outcome (A : Type) : Type :=
| Done (a : A)
| Halt (h : halt).
Arguments Done {A} a.
Arguments Halt {A} h.

(** Which calls are awaited: the others answer at once, within one poll of the future
    that makes them. *)
Class Awaited (E : Type -> Type) := awaited : forall T, E T -> bool.
Arguments awaited {E _ T} e.

Section Prog.
Context {E : Type -> Type} {Aw : Awaited E}.

Inductive prog (A : Type) : Type :=
| Ret (a : A)
| Fault
| Vis (T : Type) (e : E T) (k : T -> prog A)
| Cut (B : Type) (c : cause) (p : prog B) (k : option B -> prog A)
| Loop (S B : Type) (body : S -> prog (S + B)) (s : S) (k : B -> prog A)
| Race (B X : Type) (ps : list (prog (Result B X))) (k : Result B X -> prog A).

Arguments Ret {A} a.
Arguments Fault {A}.
Arguments Vis {A T} e k.
Arguments Cut {A B} c p k.
Arguments Loop {A S B} body s k.
Arguments Race {A B X} ps k.

Fixpoint bind {A B} (p : prog A) (f : A -> prog B) : prog B :=
  match p with
  | Ret a => f a
  | Fault => Fault
  | Vis e k => Vis e (fun x => bind (k x) f)
  | Cut c p k => Cut c p (fun r => bind (k r) f)
  | Loop body s k => Loop body s (fun b => bind (k b) f)
  | Race ps k => Race ps (fun r => bind (k r) f)
  end.

Definition call {T} (e : E T) : prog T := Vis e Ret.
Definition within {B} (c : cause) (p : prog B) : prog (option B) := Cut c p Ret.
Definition loop {S B} (body : S -> prog (S + B)) (s : S) : prog B := Loop body s Ret.
Definition race {B X} (ps : list (prog (Result B X))) : prog (Result B X) := Race ps Ret.

(** The [?] operator: an error is converted with [From] and returned. *)
Definition try_bind {A B X Y} `{From X Y} (p : prog (Result A X))
    (f : A -> prog (Result B Y)) : prog (Result B Y) :=
  bind p (fun r => match r with Ok a => f a | Err e => Ret (Err (from e)) end).

(** An operation whose [None] is a panic. *)
Definition or_panic {A} (o : option A) : prog A :=
  match o with Some a => Ret a | None => Fault end.

(** A call and the answer it got. *)
Inductive event : Type :=
| Ev {T : Type} (e : E T) (x : T).

Abbreviation trace := (list event).

(** ** Meaning of the control constructs, over the meaning of their parts *)

Definition seq_runs {A B} (R : trace -> outcome A -> Prop)
    (K : A -> trace -> outcome B -> Prop) (tr : trace) (o : outcome B) : Prop :=
  (exists a tr1 tr2, tr = tr1 ++ tr2 /\ R tr1 (Done a) /\ K a tr2 o)
  \/ (exists h, o = Halt h /\ R tr (Halt h)).

(** After [tr] the program is not done and waits for the answer of an awaited call. (No
    program that is cut contains another cut, which could make it done at any time.) *)
Definition pending {B} (R : trace -> outcome B -> Prop) (tr : trace) : Prop :=
  R tr (Halt Running) /\ (forall b, ~ R tr (Done b))
  /\ exists T (e : E T) x, awaited e = true /\ R (tr ++ [Ev e x]) (Halt Running).

Definition cut_runs {B} (R : trace -> outcome B -> Prop) (tr : trace)
    (o : outcome (option B)) : Prop :=
  match o with
  | Done (Some b) => R tr (Done b)
  | Done None => pending R tr
  | Halt h => R tr (Halt h)
  end.

Inductive loop_runs {S B} (R : S -> trace -> outcome (S + B) -> Prop) :
    S -> trace -> outcome B -> Prop :=
| loop_next s s' tr1 tr2 o :
    R s tr1 (Done (inl s')) -> loop_runs R s' tr2 o -> loop_runs R s (tr1 ++ tr2) o
| loop_exit s b tr : R s tr (Done (inr b)) -> loop_runs R s tr (Done b)
| loop_halt s h tr : R s tr (Halt h) -> loop_runs R s tr (Halt h).

(** [merges ls l]: [l] is an interleaving of the sequences [ls]. *)
Inductive merges {A} : list (list A) -> list A -> Prop :=
| merges_nil ls : Forall (fun l => l = []) ls -> merges ls []
| merges_cons l1 x t l2 l :
    merges (l1 ++ t :: l2) l -> merges (l1 ++ (x :: t) :: l2) (x :: l).

(** [spawns starts outer parts running l]: [l] is an interleaving of [outer], of the
    sequences [running], and of the sequences [parts], each of which begins only after
    the event of [outer] that starts it: the first of [parts] after the first event that
    satisfies [starts], and so on. When [parts] is used up, such an event has not yet
    started anything. *)
Inductive spawns {A} (starts : A -> bool) :
    list A -> list (list A) -> list (list A) -> list A -> Prop :=
| spawns_end running : Forall (fun t => t = []) running -> spawns starts [] [] running []
| spawns_start x outer p parts running l :
    starts x = true -> spawns starts outer parts (running ++ [p]) l ->
    spawns starts (x :: outer) (p :: parts) running (x :: l)
| spawns_other x outer parts running l :
    (starts x = true -> parts = []) -> spawns starts outer parts running l ->
    spawns starts (x :: outer) parts running (x :: l)
| spawns_running outer parts r1 x t r2 l :
    spawns starts outer parts (r1 ++ t :: r2) l ->
    spawns starts outer parts (r1 ++ (x :: t) :: r2) (x :: l).

(** A contestant that has not won: it failed or it is still running. *)
Definition behind {B X} (o : outcome (Result B X)) : Prop :=
  match o with Done (Ok _) => False | Done (Err _) => True | Halt h => h = Running end.

Definition failed {B X} (o : outcome (Result B X)) : Prop :=
  match o with Done (Err _) => True | _ => False end.

(** [select_ok]: the first success wins and the others are dropped; when all
    fail the last error is returned; it panics on no contestants. *)
Definition race_outcome {B X} (os : list (outcome (Result B X)))
    (o : outcome (Result B X)) : Prop :=
  match o with
  | Done (Ok b) => exists l r, os = l ++ Done (Ok b) :: r /\ Forall behind (l ++ r)
  | Done (Err e) => In (Done (Err e)) os /\ Forall failed os
  | Halt Running => Forall behind os
  | Halt Faulted => os = [] \/ In (Halt Faulted) os
  end.

Definition race_runs {B X} (Rs : list (trace -> outcome (Result B X) -> Prop))
    (tr : trace) (o : outcome (Result B X)) : Prop :=
  exists rs, Forall2 (fun R r => R r.1 r.2) Rs rs
    /\ merges (map fst rs) tr /\ race_outcome (map snd rs) o.

Fixpoint runs {A} (p : prog A) (tr : trace) (o : outcome A) {struct p} : Prop :=
  match p with
  | Ret a => tr = [] /\ (o = Done a \/ o = Halt Running)
  | Fault => tr = [] /\ (o = Halt Running \/ o = Halt Faulted)
  | Vis e k =>
      (tr = [] /\ o = Halt Running)
      \/ exists x tr', tr = Ev e x :: tr' /\ runs (k x) tr' o
  | Cut c p k => seq_runs (cut_runs (runs p)) (fun r => runs (k r)) tr o
  | Loop body s k =>
      seq_runs (loop_runs (fun s => runs (body s)) s) (fun b => runs (k b)) tr o
  | Race ps k =>
      seq_runs (race_runs (map (fun q => runs q) ps)) (fun r => runs (k r)) tr o
  end.

(** ** Execution against a concrete environment *)

(** What answers the calls; nothing is cut short in an execution. *)
Record handler (W : Type) := mkHandler { answer : forall T, E T -> W -> T * W }.
Arguments answer {W} _ {T} _ _.

Definition prepend {A W} (tr : trace) (r : option (A * trace * W)) :
    option (A * trace * W) :=
  match r with Some (a, tr', w) => Some (a, tr ++ tr', w) | None => None end.

Fixpoint exec_loop {S B W} (fuel : nat) (f : S -> W -> option ((S + B) * trace * W))
    (s : S) (w : W) : option (B * trace * W) :=
  match fuel with
  | O => None
  | Datatypes.S fuel =>
      match f s w with
      | Some (inl s', tr, w') => prepend tr (exec_loop fuel f s' w')
      | Some (inr b, tr, w') => Some (b, tr, w')
      | None => None
      end
  end.

(** One schedule of a race: the contestants in turn until one succeeds. *)
Fixpoint exec_race {B X W} (fs : list (W -> option (Result B X * trace * W))) (w : W) :
    option (Result B X * trace * W) :=
  match fs with
  | [] => None
  | f :: fs =>
      match f w with
      | Some (Ok b, tr, w') => Some (Ok b, tr, w')
      | Some (Err e, tr, w') =>
          match fs with [] => Some (Err e, tr, w') | _ => prepend tr (exec_race fs w') end
      | None => None
      end
  end.

Fixpoint exec {A W} (h : handler W) (fuel : nat) (p : prog A) (w : W) :
    option (A * trace * W) :=
  match p with
  | Ret a => Some (a, [], w)
  | Fault => None
  | Vis e k =>
      let '(x, w') := answer h e w in prepend [Ev e x] (exec h fuel (k x) w')
  | Cut c p k =>
      match exec h fuel p w with
      | Some (b, tr, w') => prepend tr (exec h fuel (k (Some b)) w')
      | None => None
      end
  | Loop body s k =>
      match exec_loop fuel (fun s w => exec h fuel (body s) w) s w with
      | Some (b, tr, w') => prepend tr (exec h fuel (k b) w')
      | None => None
      end
  | Race ps k =>
      match exec_race (map (fun q w => exec h fuel q w) ps) w with
      | Some (r, tr, w') => prepend tr (exec h fuel (k r) w')
      | None => None
      end
  end.

End Prog.

Arguments prog : clear implicits.
Arguments event : clear implicits.
Arguments handler : clear implicits.
Arguments Ret {E A} a.
Arguments Fault {E A}.
Arguments Vis {E A T} e k.
Arguments Cut {E A B} c p k.
Arguments Loop {E A S B} body s k.
Arguments Race {E A B X} ps k.
Arguments Ev {E T} e x.
Arguments mkHandler {E W} _.
Arguments answer {E W} _ {T} _ _.

Declare Scope prog_scope.
Delimit Scope prog_scope with prog.
Notation "'let*' x := p 'in' q" := (bind p (fun x => q))
  (at level 10, x pattern, p at level 200, q at level 200,
   format "'[v' 'let*'  x  :=  p  'in' '/' q ']'") : prog_scope.
Notation "'let?' x := p 'in' q" := (try_bind p (fun x => q))
  (at level 10, x pattern, p at level 200, q at level 200,
   format "'[v' 'let?'  x  :=  p  'in' '/' q ']'") : prog_scope.
