(* ===== verification/ProgFacts.v ===== *)
(** * Reasoning about runs

    Inversion lemmas for [runs], one per construct and one for [bind] and the
    [?] operator, the tactic [run_inv] that applies them, the composition rule
    for loops, and the soundness of [exec]. *)

From S2P Require Import Prelude Std Prog.

Section Facts.
Context {E : Type -> Type} {Aw : Awaited E}.
Implicit Types tr : list (event E).

(** ** Sequencing *)

Lemma seq_runs_iff {A B} (R R' : list (event E) -> outcome A -> Prop)
    (K K' : A -> list (event E) -> outcome B -> Prop) tr o :
  (forall tr o, R tr o <-> R' tr o) -> (forall a tr o, K a tr o <-> K' a tr o) ->
  seq_runs R K tr o <-> seq_runs R' K' tr o.
Proof.
  intros HR HK. unfold seq_runs.
  setoid_rewrite HR. by setoid_rewrite HK.
Qed.

Lemma seq_runs_assoc {A B C} (R : list (event E) -> outcome A -> Prop)
    (K : A -> list (event E) -> outcome B -> Prop)
    (L : B -> list (event E) -> outcome C -> Prop) tr o :
  seq_runs R (fun a => seq_runs (K a) L) tr o <-> seq_runs (seq_runs R K) L tr o.
Proof.
  split.
  - intros [(a & t1 & t2 & -> & HR & [(b & t3 & t4 & -> & HK & HL)|(h & -> & HK)])|(h & -> & HR)].
    + left. exists b, (t1 ++ t3), t4. rewrite app_assoc. split_and!; [done| |done].
      left. by exists a, t1, t3.
    + right. exists h. split; [done|]. left. by exists a, t1, t2.
    + right. exists h. split; [done|]. right. by exists h.
  - intros [(b & t1 & t2 & -> & [(a & t3 & t4 & -> & HR & HK)|(h & ? & _)] & HL)|
            (h & -> & [(a & t1 & t2 & -> & HR & HK)|(h' & [= <-] & HR)])].
    + left. exists a, t3, (t4 ++ t2). rewrite <- app_assoc. split_and!; [done..|].
      left. by exists b, t4, t2.
    + done.
    + left. exists a, t1, t2. split_and!; [done..|]. right. by exists h.
    + right. by exists h.
Qed.

Lemma seq_runs_done {A B} (R : list (event E) -> outcome A -> Prop)
    (K : A -> list (event E) -> outcome B -> Prop) tr b :
  seq_runs R K tr (Done b) <->
  exists a tr1 tr2, tr = tr1 ++ tr2 /\ R tr1 (Done a) /\ K a tr2 (Done b).
Proof.
  unfold seq_runs. split; [|tauto].
  by intros [H|(h & [=] & _)].
Qed.

(** Every program can be observed before its first event. *)
Lemma runs_start : forall A (p : prog E A), runs p [] (Halt Running).
Proof.
  fix IH 2. intros A p. destruct p as [a| |T e k|B c p k|S B body s k|B X ps k]; cbn.
  - auto.
  - auto.
  - auto.
  - right. exists Running. split; [done|]. apply IH.
  - right. exists Running. split; [done|]. constructor. apply IH.
  - right. exists Running. split; [done|].
    exists (map (fun _ => ([], Halt Running)) ps).
    induction ps as [|q ps IHps]; cbn.
    + split_and!; [constructor|repeat constructor|repeat constructor].
    + destruct IHps as (HF & Hm & Ho). split_and!.
      * constructor; [apply IH|done].
      * inversion Hm; subst. constructor. by constructor.
      * by constructor.
Qed.

Lemma runs_bind {A B} (p : prog E A) (f : A -> prog E B) tr o :
  runs (bind p f) tr o <-> seq_runs (runs p) (fun a => runs (f a)) tr o.
Proof.
  revert tr o. induction p as [A a|A|A T e k IH|A C c p _ k IH|A S C body _ s k IH|A C X ps k IH];
    intros tr o; cbn [bind runs].
  - split.
    + intros H. left. exists a, [], tr. auto.
    + intros [(a' & t1 & t2 & -> & [-> [Ho|Ho]] & Hf)|(h & -> & [-> [Ho|Ho]])];
        simplify_eq; [done|apply runs_start].
  - split.
    + intros [-> Ho]. right. destruct Ho as [->| ->]; eauto.
    + intros [(a' & t1 & t2 & -> & [-> [Ho|Ho]] & _)|(h & -> & [-> [Ho|Ho]])];
        simplify_eq; auto.
  - setoid_rewrite IH. split.
    + intros [[-> ->]|(x & t & -> & [(a & t1 & t2 & -> & H1 & H2)|(h & -> & H1)])].
      * right. exists Running. auto.
      * left. exists a, (Ev e x :: t1), t2. split_and!; [done| |done]. eauto.
      * right. exists h. split; [done|]. right. eauto.
    + intros [(a & t1 & t2 & -> & [[-> Ho]|(x & t & -> & H1)] & H2)|(h & -> & [[-> Ho]|(x & t & -> & H1)])].
      * done.
      * right. exists x, (t ++ t2). split; [done|]. left. by exists a, t, t2.
      * left. by simplify_eq.
      * right. exists x, t. split; [done|]. right. by exists h.
  - rewrite <- seq_runs_assoc. apply seq_runs_iff; [done|]. intros. apply IH.
  - rewrite <- seq_runs_assoc. apply seq_runs_iff; [done|]. intros. apply IH.
  - rewrite <- seq_runs_assoc. apply seq_runs_iff; [done|]. intros. apply IH.
Qed.

(** ** Inversion, for finished runs *)

Lemma runs_ret_done {A} (a b : A) tr :
  runs (E := E) (Ret a) tr (Done b) <-> tr = [] /\ b = a.
Proof. cbn. split; [intros [-> [?|?]]; by simplify_eq|intros [-> ->]; auto]. Qed.

Lemma runs_vis_done {A T} (e : E T) (k : T -> prog E A) tr b :
  runs (Vis e k) tr (Done b) <->
  exists x tr', tr = Ev e x :: tr' /\ runs (k x) tr' (Done b).
Proof. cbn. split; [intros [[_ ?]|?]; by simplify_eq|auto]. Qed.

Lemma runs_call_done {T} (e : E T) tr x :
  runs (call e) tr (Done x) <-> tr = [Ev e x].
Proof.
  unfold call. rewrite runs_vis_done. setoid_rewrite runs_ret_done.
  split; [by intros (y & t & -> & -> & ->)|intros ->; eauto].
Qed.

Lemma runs_bind_done {A B} (p : prog E A) (f : A -> prog E B) tr b :
  runs (bind p f) tr (Done b) <->
  exists a tr1 tr2, tr = tr1 ++ tr2 /\ runs p tr1 (Done a) /\ runs (f a) tr2 (Done b).
Proof. by rewrite runs_bind, seq_runs_done. Qed.

Lemma runs_try_done {A B X Y} `{From X Y} (p : prog E (Result A X))
    (f : A -> prog E (Result B Y)) tr r :
  runs (try_bind p f) tr (Done r) <->
  (exists a tr1 tr2, tr = tr1 ++ tr2 /\ runs p tr1 (Done (Ok a)) /\ runs (f a) tr2 (Done r))
  \/ (exists e, runs p tr (Done (Err e)) /\ r = Err (from e)).
Proof.
  unfold try_bind. rewrite runs_bind_done. split.
  - intros ([a|e] & t1 & t2 & -> & Hp & Hk); [left; eauto 6|].
    apply runs_ret_done in Hk as [-> ->]. rewrite app_nil_r. right. eauto.
  - intros [(a & t1 & t2 & -> & Hp & Hk)|(e & Hp & ->)]; [eauto 7|].
    exists (Err e), tr, []. rewrite app_nil_r, runs_ret_done. auto.
Qed.

Lemma runs_within_iff {B} c (p : prog E B) tr r :
  runs (within c p) tr (Done r) <->
  match r with
  | Some b => runs p tr (Done b)
  | None => pending (runs p) tr
  end.
Proof.
  unfold within. cbn [runs]. rewrite seq_runs_done. setoid_rewrite runs_ret_done.
  split.
  - intros (a & t1 & t2 & -> & HR & -> & ->). rewrite app_nil_r. by destruct a.
  - intros H. exists r, tr, []. rewrite app_nil_r. by destruct r.
Qed.

Lemma runs_within_done {B} c (p : prog E B) tr r :
  runs (within c p) tr (Done r) ->
  match r with
  | Some b => runs p tr (Done b)
  | None => runs p tr (Halt Running)
  end.
Proof. rewrite runs_within_iff. destruct r; [done|]. by intros [? _]. Qed.

Lemma runs_loop_done {S B} (body : S -> prog E (S + B)) s tr b :
  runs (loop body s) tr (Done b) <-> loop_runs (fun s => runs (body s)) s tr (Done b).
Proof.
  unfold loop. cbn [runs]. rewrite seq_runs_done. setoid_rewrite runs_ret_done.
  split.
  - intros (a & t1 & t2 & -> & HR & -> & ->). by rewrite app_nil_r.
  - intros H. exists b, tr, []. by rewrite app_nil_r.
Qed.

Lemma runs_race_done {B X} (ps : list (prog E (Result B X))) tr r :
  runs (race ps) tr (Done r) <-> race_runs (map (fun q => runs q) ps) tr (Done r).
Proof.
  unfold race. cbn [runs]. rewrite seq_runs_done. setoid_rewrite runs_ret_done.
  split.
  - intros (a & t1 & t2 & -> & HR & -> & ->). by rewrite app_nil_r.
  - intros H. exists r, tr, []. by rewrite app_nil_r.
Qed.

(** ** Inversion, at any moment *)

Lemma runs_ret {A} (a : A) tr o :
  runs (E := E) (Ret a) tr o <-> tr = [] /\ (o = Done a \/ o = Halt Running).
Proof. done. Qed.

Lemma runs_call {T} (e : E T) tr o :
  runs (call e) tr o <->
  (tr = [] /\ o = Halt Running) \/ exists x, tr = [Ev e x] /\ (o = Done x \/ o = Halt Running).
Proof.
  cbn. split; (intros [?|H]; [by left|right]).
  - destruct H as (x & t & -> & -> & Ho). eauto.
  - destruct H as (x & -> & Ho). eauto 6.
Qed.

(** A finished program can also be observed just before it returns. *)
(** A call followed by the rest, in any outcome. *)
Lemma runs_call_bind {T A} (e : E T) (k : T -> prog E A) tr o :
  runs (bind (call e) k) tr o <->
  (tr = [] /\ o = Halt Running) \/ exists x tr', tr = Ev e x :: tr' /\ runs (k x) tr' o.
Proof. done. Qed.

Lemma runs_done_running {A} (p : prog E A) tr a :
  runs p tr (Done a) -> runs p tr (Halt Running).
Proof.
  revert tr. induction p as [A a'|A|A T e k IH|A C c p _ k IH|A S C body _ s k IH|A C X ps k IH];
    intros tr; cbn [runs].
  - intros [-> _]. auto.
  - intros [-> _]. auto.
  - intros [[_ [=]]|(x & t & -> & H)]. right. eauto.
  - intros (r & t1 & t2 & -> & HR & HK)%seq_runs_done. left. eauto 8.
  - intros (r & t1 & t2 & -> & HR & HK)%seq_runs_done. left. eauto 8.
  - intros (r & t1 & t2 & -> & HR & HK)%seq_runs_done. left. eauto 8.
Qed.

Lemma runs_within {B} c (p : prog E B) tr o :
  runs (within c p) tr o <-> cut_runs (runs p) tr o.
Proof.
  destruct o as [r|h].
  - rewrite runs_within_iff. by destruct r.
  - unfold within. cbn [runs]. split.
    + intros [(a & t1 & t2 & -> & HR & [-> [[=]|[= ->]]])|(h' & [= ->] & H)]; [|done].
      rewrite app_nil_r. destruct a as [b|]; [by eapply runs_done_running|by destruct HR].
    + intros H. right. by exists h.
Qed.

Lemma runs_loop {S B} (body : S -> prog E (S + B)) s tr o :
  runs (loop body s) tr o <-> loop_runs (fun s => runs (body s)) s tr o.
Proof.
  destruct o as [b|h]; [apply runs_loop_done|]. unfold loop. cbn [runs]. split.
  - intros [(b & t1 & t2 & -> & HR & [-> Ho])|(h' & Ho & H)]; [|by simplify_eq].
    destruct Ho as [Ho|Ho]; simplify_eq. rewrite app_nil_r.
    remember (Done b) as o eqn:Eo. induction HR as [s s' t1 t2 o H1 _ IH|s b' t H1|s h t H1].
    + eapply loop_next; eauto.
    + apply loop_halt. by eapply runs_done_running.
    + done.
  - intros H. right. by exists h.
Qed.

(** ** Loops

    A property of single iterations that composes along the trace is a property
    of the whole loop. [I s tr]: the trace [tr] is acceptable from state [s]. *)
Lemma loop_runs_ind_trace {S B} (R : S -> list (event E) -> outcome (S + B) -> Prop)
    (P : S -> list (event E) -> outcome B -> Prop) :
  (forall s s' t1 t2 o, R s t1 (Done (inl s')) -> P s' t2 o -> P s (t1 ++ t2) o) ->
  (forall s b t, R s t (Done (inr b)) -> P s t (Done b)) ->
  (forall s h t, R s t (Halt h) -> P s t (Halt h)) ->
  forall s tr o, loop_runs R s tr o -> P s tr o.
Proof. intros H1 H2 H3 s tr o H. induction H; eauto. Qed.

(** ** Programs that perform only certain events, in every run *)

Definition only {A} (P : event E -> Prop) (p : prog E A) : Prop :=
  forall tr o, runs p tr o -> Forall P tr.

Lemma only_ret {A} P (a : A) : only P (Ret a).
Proof. intros tr o [-> _]. constructor. Qed.

Lemma only_fault {A} P : only (A := A) P Fault.
Proof. intros tr o [-> _]. constructor. Qed.

Lemma only_or_panic {A} P (o : option A) : only P (or_panic o).
Proof. destruct o; [apply only_ret|apply only_fault]. Qed.

Lemma only_call {T} (P : event E -> Prop) (e : E T) :
  (forall x, P (Ev e x)) -> only P (call e).
Proof.
  intros He tr o [[-> _]|(x & -> & _)]%runs_call; [constructor|]. by repeat constructor.
Qed.

Lemma only_bind {A B} P (p : prog E A) (f : A -> prog E B) :
  only P p -> (forall a, only P (f a)) -> only P (bind p f).
Proof.
  intros Hp Hf tr o [(a & t1 & t2 & -> & H1 & H2)|(h & -> & H)]%runs_bind; [|by eapply Hp].
  apply Forall_app. split; [by eapply Hp|by eapply Hf].
Qed.

Lemma only_try {A B X Y} `{From X Y} P (p : prog E (Result A X)) (f : A -> prog E (Result B Y)) :
  only P p -> (forall a, only P (f a)) -> only P (try_bind p f).
Proof. intros Hp Hf. apply only_bind; [done|]. intros [a|e]; [done|apply only_ret]. Qed.

Lemma only_within {B} P c (p : prog E B) : only P p -> only P (within c p).
Proof.
  intros Hp tr o Hr%runs_within. destruct o as [[b|]|h]; [|destruct Hr as [Hr _]|]; by eapply Hp.
Qed.

Lemma only_loop {S B} P (body : S -> prog E (S + B)) s :
  (forall s, only P (body s)) -> only P (loop body s).
Proof.
  intros Hb tr o Hr.
  assert (forall tr o, loop_runs (fun s => runs (body s)) s tr o -> Forall P tr) as Hl.
  { clear Hr. intros tr' o' H. induction H as [s s' t1 t2 o1 H1 _ IH|s b t H1|s h t H1].
    - apply Forall_app. split; [by eapply Hb|done].
    - by eapply Hb.
    - by eapply Hb. }
  unfold loop in Hr. cbn [runs] in Hr.
  destruct Hr as [(a & t1 & t2 & -> & H1 & [-> _])|(h & -> & H)]; [|by eapply Hl].
  rewrite app_nil_r. by eapply Hl.
Qed.

(** ** Programs in an environment whose answers satisfy [P]

    [ensures P Q p R]: in every run of [p] all of whose events satisfy [P] they also
    satisfy [Q], and a result satisfies [R]. *)

Definition ensures {A} (P Q : event E -> Prop) (p : prog E A) (R : A -> Prop) : Prop :=
  forall tr o, runs p tr o -> Forall P tr ->
    Forall Q tr /\ match o with Done a => R a | Halt _ => True end.

Lemma ensures_weaken {A} P Q (p : prog E A) (R R' : A -> Prop) :
  ensures P Q p R -> (forall a, R a -> R' a) -> ensures P Q p R'.
Proof.
  intros Hp HR tr o Hr HP. destruct (Hp tr o Hr HP) as [HQ Ho]. split; [done|]. destruct o; auto.
Qed.

Lemma ensures_ret {A} P Q (a : A) (R : A -> Prop) : R a -> ensures P Q (Ret a) R.
Proof. intros HR tr o [-> Ho] _. split; [constructor|]. by destruct Ho as [->| ->]. Qed.

Lemma ensures_call {T} (P Q : event E -> Prop) (e : E T) (R : T -> Prop) :
  (forall x, P (Ev e x) -> Q (Ev e x) /\ R x) -> ensures P Q (call e) R.
Proof.
  intros He tr o [[-> ->]|(x & -> & Ho)]%runs_call HP; [by split|].
  inversion_clear HP as [|? ? Hx _]. destruct (He x Hx).
  split; [by repeat constructor|]. by destruct Ho as [->| ->].
Qed.

Lemma ensures_bind {A B} P Q (p : prog E A) (f : A -> prog E B) R R' :
  ensures P Q p R -> (forall a, R a -> ensures P Q (f a) R') -> ensures P Q (bind p f) R'.
Proof.
  intros Hp Hf tr o [(a & t1 & t2 & -> & H1 & H2)|(h & -> & H)]%runs_bind HP.
  - apply Forall_app in HP as [HP1 HP2]. destruct (Hp _ _ H1 HP1) as [HQ1 Ha].
    destruct (Hf a Ha _ _ H2 HP2) as [HQ2 Ho]. split; [by apply Forall_app|done].
  - by destruct (Hp _ _ H HP).
Qed.

Lemma ensures_try {A B X Y} `{From X Y} P Q (p : prog E (Result A X))
    (f : A -> prog E (Result B Y)) R R' :
  ensures P Q p (fun r => match r with Ok a => R a | Err e => R' (Err (from e)) end) ->
  (forall a, R a -> ensures P Q (f a) R') -> ensures P Q (try_bind p f) R'.
Proof.
  intros Hp Hf. eapply ensures_bind; [exact Hp|]. intros [a|e] Ha; [by apply Hf|by apply ensures_ret].
Qed.

Lemma ensures_within {B} P Q c (p : prog E B) R :
  ensures P Q p R ->
  ensures P Q (within c p) (fun r => match r with Some b => R b | None => True end).
Proof.
  intros Hp tr o Hr%runs_within HP. destruct o as [[b|]|h]; [|destruct Hr as [Hr _]|]; by destruct (Hp _ _ Hr HP).
Qed.

Lemma ensures_loop {S B} P Q (body : S -> prog E (S + B)) s :
  (forall s, ensures P Q (body s) (fun _ => True)) -> ensures P Q (loop body s) (fun _ => True).
Proof.
  intros Hb tr o Hr HP. split; [|by destruct o]. apply runs_loop in Hr. revert HP.
  induction Hr as [s s' t1 t2 o H1 _ IH|s b t H1|s h t H1]; intros HP.
  - apply Forall_app in HP as [HP1 HP2]. apply Forall_app. split; [by eapply Hb|auto].
  - by eapply Hb.
  - by eapply Hb.
Qed.

Lemma ensures_only {A} P Q (p : prog E A) : only Q p -> ensures P Q p (fun _ => True).
Proof. intros Hp tr o Hr _. split; [by eapply Hp|]. by destruct o. Qed.

(** ** Events after which a program does nothing more *)

Definition final {A} (P : A -> Prop) (l : list A) : Prop :=
  forall l1 v l2, l = l1 ++ v :: l2 -> P v -> l2 = [].

Lemma final_none {A} (P : A -> Prop) l : Forall (fun v => ~ P v) l -> final P l.
Proof.
  intros Hl l1 v l2 -> Hv. apply Forall_app in Hl as [_ Hl]. by inversion_clear Hl.
Qed.

Lemma final_app {A} (P : A -> Prop) k l :
  Forall (fun v => ~ P v) k -> final P l -> final P (k ++ l).
Proof.
  intros Hk Hl. induction Hk as [|x k Hx Hk IH]; [done|].
  intros [|y l1] v l2 E0 Hv; simplify_list_eq; [done|by eapply IH].
Qed.

Lemma final_one {A} (P : A -> Prop) v : final P [v].
Proof. intros [|y [|]] w l2 E0 _; by simplify_list_eq. Qed.

Lemma loop_final {S B} (P : event E -> Prop) (body : S -> prog E (S + B)) s tr o :
  (forall s s' t, runs (body s) t (Done (inl s')) -> Forall (fun v => ~ P v) t) ->
  (forall s t o, runs (body s) t o -> final P t) ->
  runs (loop body s) tr o -> final P tr.
Proof.
  intros H1 H2 Hr. apply runs_loop in Hr.
  induction Hr as [s s' t1 t2 o Hb _ IH|s b t Hb|s h t Hb]; [|by eapply H2..].
  apply final_app; [by eapply H1|done].
Qed.

(** ** Interleavings *)

Lemma merges_nils {A} (l1 : list A) ls :
  Forall (fun l => l = []) ls -> merges (l1 :: ls) l1.
Proof.
  intros Hls. induction l1 as [|x l1 IH].
  - constructor. by constructor.
  - by apply (merges_cons [] x l1 ls).
Qed.

Lemma merges_app {A} (l1 l2 : list A) ls :
  merges ls l2 -> merges (l1 :: ls) (l1 ++ l2).
Proof.
  intros H. induction l1 as [|x l1 IH]; cbn.
  - induction H as [ls Hls|k1 x t k2 l _ IH].
    + constructor. by constructor.
    + by apply (merges_cons ([] :: k1)).
  - by apply (merges_cons [] x l1 ls).
Qed.

Lemma merges_elem {A} (ls : list (list A)) l x :
  merges ls l -> x ∈ l -> exists l', l' ∈ ls /\ x ∈ l'.
Proof.
  induction 1 as [ls Hls|k1 y t k2 l _ IH]; intros Hx; [by apply not_elem_of_nil in Hx|].
  apply elem_of_cons in Hx as [->|Hx].
  - exists (y :: t). split; [|by left]. apply elem_of_app. right. by left.
  - destruct (IH Hx) as (l' & Hl' & Hxl'). rewrite elem_of_app, elem_of_cons in Hl'.
    destruct Hl' as [Hl'|[->|Hl']].
    + exists l'. rewrite elem_of_app. auto.
    + exists (y :: t). rewrite elem_of_app, !elem_of_cons. auto.
    + exists l'. rewrite elem_of_app, elem_of_cons. auto.
Qed.

Lemma merges_sublist {A} (ls : list (list A)) l t :
  merges ls l -> t ∈ ls -> t `sublist_of` l.
Proof.
  intros Hm. revert t. induction Hm as [ls Hls|k1 x u k2 l _ IH]; intros t Ht.
  - rewrite list.Forall_forall in Hls. by rewrite (Hls t Ht).
  - rewrite elem_of_app, elem_of_cons in Ht. destruct Ht as [Ht|[->|Ht]].
    + apply sublist_cons, IH, elem_of_app. by left.
    + apply sublist_skip, IH, elem_of_app. right. by left.
    + apply sublist_cons, IH, elem_of_app. right. by right.
Qed.

(** Mapping every element to a list keeps an interleaving an interleaving. *)
Lemma merges_flat_map {A B} (f : A -> list B) ls l :
  merges ls l -> merges (map (fun t => concat (map f t)) ls) (concat (map f l)).
Proof.
  induction 1 as [ls Hls|k1 x t k2 l _ IH].
  - constructor. apply Forall_map. revert Hls. apply Forall_impl. by intros t ->.
  - rewrite map_app in IH |- *. cbn [map concat] in IH |- *.
    induction (f x) as [|y ys IHy]; [done|]. cbn [app]. by apply merges_cons.
Qed.

Lemma merges_skip_nil {A} (ls : list (list A)) l : merges ([] :: ls) l -> merges ls l.
Proof.
  intros H. remember ([] :: ls) as ks eqn:E0. revert ls E0.
  induction H as [ks Hks|k1 x t k2 l _ IH]; intros ls E0.
  - subst. constructor. by inversion_clear Hks.
  - destruct k1 as [|k k1]; simplify_eq/=. apply merges_cons. by apply IH.
Qed.

Lemma merges_only_first {A} (l : list A) ls k :
  merges (l :: ls) k -> Forall (fun t => t = []) ls -> k = l.
Proof.
  intros H. remember (l :: ls) as ks eqn:E0. revert l ls E0.
  induction H as [ks Hks|k1 x t k2 k _ IH]; intros l ls E0 Hls.
  - subst. by inversion_clear Hks.
  - destruct k1 as [|k' k1]; simplify_eq/=.
    + f_equal. by eapply IH.
    + apply Forall_app in Hls as [_ Hls]. by inversion_clear Hls.
Qed.

Lemma merges_permutation {A} (ls : list (list A)) l : merges ls l -> l ≡ₚ concat ls.
Proof.
  induction 1 as [ls Hls|k1 x t k2 l _ IH].
  - induction Hls as [|t ls -> _ IH]; [done|]. done.
  - rewrite IH, !concat_app. cbn [concat app]. by rewrite Permutation_middle.
Qed.

(** When all other parts are empty, the interleaving is the remaining part. *)
Lemma merges_single {A} (ls : list (list A)) l i t :
  merges ls l -> ls !! i = Some t -> (forall j u, j <> i -> ls !! j = Some u -> u = []) -> l = t.
Proof.
  intros Hm. revert i t. induction Hm as [ls Hls|k1 x u k2 l _ IH]; intros i t Ht Ho.
  - rewrite list.Forall_forall in Hls. symmetry. apply Hls. by eapply list_elem_of_lookup_2.
  - assert (i = length k1) as ->.
    { destruct (decide (i = length k1)) as [|Hi]; [done|].
      specialize (Ho (length k1) (x :: u) ltac:(done)). rewrite list_lookup_middle in Ho by done.
      by specialize (Ho eq_refl). }
    rewrite list_lookup_middle in Ht by done. injection Ht as <-. f_equal.
    apply (IH (length k1)); [by rewrite list_lookup_middle|]. intros j v Hj Hv.
    apply (Ho j); [done|]. destruct (decide (j < length k1)%nat) as [Hlt|Hge].
    + rewrite lookup_app_l in Hv |- * by done. done.
    + rewrite lookup_app_r in Hv |- * by lia. destruct (j - length k1)%nat eqn:E0; [lia|done].
Qed.

(** ** Interleavings with parts that start later *)

Lemma spawns_merges {A} (starts : A -> bool) outer parts running l :
  spawns starts outer parts running l -> merges (outer :: running ++ parts) l.
Proof.
  induction 1 as [running Hr|x outer p parts running l _ _ IH|x outer parts running l _ _ IH
    |outer parts r1 x t r2 l _ IH].
  - constructor. constructor; [done|]. by rewrite app_nil_r.
  - rewrite <- app_assoc in IH. by apply (merges_cons [] x outer (running ++ p :: parts)).
  - by apply (merges_cons [] x outer (running ++ parts)).
  - rewrite <- app_assoc in *. by apply (merges_cons (outer :: r1) x t (r2 ++ parts)).
Qed.

(** An element of the result comes from [outer], from a sequence that was running, or
    from a part that was started before. *)
Lemma spawns_origin {A} (starts : A -> bool) outer parts running l l1 v l2 :
  spawns starts outer parts running l -> l = l1 ++ v :: l2 ->
  v ∈ outer \/ (exists t, t ∈ running /\ v ∈ t)
  \/ exists j x t, List.filter starts outer !! j = Some x /\ parts !! j = Some t /\ v ∈ t /\ x ∈ l1.
Proof.
  intros H. revert l1. induction H as [running Hr|x outer p parts running l Hx _ IH
    |x outer parts running l Hx _ IH|outer parts r1 x t r2 l _ IH]; intros l1 Hl.
  - by destruct l1.
  - destruct l1 as [|y l1]; simplify_list_eq; [left; by left|].
    destruct (IH l1 eq_refl) as [Hv|[(t & Ht & Hv)|(j & z & t & Hj & Hp & Hv & Hz)]].
    + left. by right.
    + apply elem_of_app in Ht as [Ht|Ht]; [right; left; by exists t|].
      apply list_elem_of_singleton in Ht as ->. right. right. exists 0, y, p. rewrite Hx.
      split_and!; [done..|by left].
    + right. right. exists (S j), z, t. rewrite Hx. split_and!; [done..|by right].
  - destruct l1 as [|y l1]; simplify_list_eq; [left; by left|].
    destruct (IH l1 eq_refl) as [Hv|[(t & Ht & Hv)|(j & z & t & Hj & Hp & Hv & Hz)]].
    + left. by right.
    + right. left. by exists t.
    + right. right. exists j, z, t. destruct (starts y); [by rewrite (Hx eq_refl) in Hp|].
      split_and!; [done..|by right].
  - assert (forall u, u ∈ r1 ++ t :: r2 -> v ∈ u ->
      exists u', u' ∈ r1 ++ (x :: t) :: r2 /\ v ∈ u') as Hup.
    { intros u Hu Hv. apply elem_of_app in Hu as [Hu|[->|Hu]%elem_of_cons].
      - exists u. split; [apply elem_of_app; by left|done].
      - exists (x :: t). split; [apply elem_of_app; right; by left|by right].
      - exists u. split; [apply elem_of_app; right; by right|done]. }
    destruct l1 as [|y l1]; simplify_list_eq.
    + right. left. exists (v :: t). split; [apply elem_of_app; right; by left|by left].
    + destruct (IH l1 eq_refl) as [Hv|[(u & Hu & Hv)|(j & z & u & Hj & Hp & Hv & Hz)]].
      * by left.
      * right. left. by apply (Hup u).
      * right. right. exists j, z, u. split_and!; [done..|by right].
Qed.

Lemma Permutation_Forall2 {A B} (R : A -> B -> Prop) l l' k :
  l ≡ₚ l' -> Forall2 R l k -> exists k', k ≡ₚ k' /\ Forall2 R l' k'.
Proof.
  intros Hp. revert k. induction Hp as [|x l l' _ IH|x y l|l l1 l2 _ IH1 _ IH2]; intros k Hk.
  - inversion_clear Hk. by exists [].
  - inversion_clear Hk as [|? b ? k0 Hx Hk0]. destruct (IH _ Hk0) as (k' & ? & ?).
    exists (b :: k'). split; [by constructor|by constructor].
  - inversion_clear Hk as [|? b ? k0 Hy Hk0]. inversion_clear Hk0 as [|? c ? k1 Hx Hk1].
    exists (c :: b :: k1). split; [by constructor|by repeat constructor].
  - destruct (IH1 _ Hk) as (k1 & H1 & Hk1). destruct (IH2 _ Hk1) as (k2 & H2 & Hk2).
    exists k2. split; [by etrans|done].
Qed.

Lemma Forall2_elem_l {A B} (R : A -> B -> Prop) l k x :
  Forall2 R l k -> x ∈ l -> exists y, y ∈ k /\ R x y.
Proof.
  induction 1 as [|a b l k Hab _ IH]; intros Hx; [by apply not_elem_of_nil in Hx|].
  apply elem_of_cons in Hx as [->|Hx]; [by exists b; split; [left|]|].
  destruct (IH Hx) as (y & Hy & HR). exists y. split; [by right|done].
Qed.

Lemma Forall2_elem_r {A B} (R : A -> B -> Prop) l k y :
  Forall2 R l k -> y ∈ k -> exists x, x ∈ l /\ R x y.
Proof.
  induction 1 as [|a b l k Hab _ IH]; intros Hy; [by apply not_elem_of_nil in Hy|].
  apply elem_of_cons in Hy as [->|Hy]; [by exists a; split; [left|]|].
  destruct (IH Hy) as (x & Hx & HR). exists x. split; [by right|done].
Qed.

Lemma only_race {B X} P (ps : list (prog E (Result B X))) :
  Forall (only P) ps -> only P (race ps).
Proof.
  intros Hps tr o Hr.
  assert (forall tr o, race_runs (map (fun q => runs q) ps) tr o -> Forall P tr) as Hl.
  { intros tr' o' (rs & HF & Hm & _). apply list.Forall_forall. intros x Hx.
    destruct (merges_elem _ _ _ Hm Hx) as (l & Hl & Hxl).
    apply list_elem_of_fmap in Hl as (r & -> & Hr').
    assert (Forall (fun r => Forall P r.1) rs) as Hrs.
    { clear -HF Hps. remember (map (fun q => runs q) ps) as Rs eqn:E0.
      revert ps Hps E0. induction HF as [|R r Rs rs HR _ IH]; intros [|q ps] Hps E0;
        simplify_eq/=; constructor; inversion_clear Hps; eauto. }
    rewrite list.Forall_forall in Hrs. specialize (Hrs r Hr').
    rewrite list.Forall_forall in Hrs. auto. }
  unfold race in Hr. cbn [runs] in Hr.
  destruct Hr as [(a & t1 & t2 & -> & H1 & [-> _])|(h & -> & H)]; [|by eapply Hl].
  rewrite app_nil_r. by eapply Hl.
Qed.

(** ** Soundness of execution *)

Section Exec.
Context {W : Type} (h : handler E W).

Definition sound {A} (R : list (event E) -> outcome A -> Prop)
    (f : W -> option (A * list (event E) * W)) : Prop :=
  forall w a tr w', f w = Some (a, tr, w') -> R tr (Done a).

Lemma exec_seq_sound {A B} (R : list (event E) -> outcome B -> Prop)
    (K : B -> list (event E) -> outcome A -> Prop) f g :
  sound R f -> (forall b, sound (K b) (g b)) ->
  sound (seq_runs R K)
    (fun w => match f w with Some (b, tr, w') => prepend tr (g b w') | None => None end).
Proof.
  intros HR HK w a tr w' H. apply seq_runs_done.
  destruct (f w) as [[[b t] w1]|] eqn:Ef; [|done]. cbn in H.
  destruct (g b w1) as [[[a' t'] w2]|] eqn:Eg; [|done]. cbn in H. simplify_eq.
  exists b, t, t'. split_and!; [done|by eapply HR|by eapply HK].
Qed.

Lemma exec_loop_sound {S B} (R : S -> list (event E) -> outcome (S + B) -> Prop) fuel f s :
  (forall s, sound (R s) (f s)) -> sound (loop_runs R s) (exec_loop fuel f s).
Proof.
  intros HR. revert s. induction fuel as [|fuel IH]; intros s w b tr w'; cbn; [done|].
  destruct (f s w) as [[[[s'|b'] t] w1]|] eqn:Ef; cbn; intros H; [| |done].
  - destruct (exec_loop fuel f s' w1) as [[[b1 t1] w2]|] eqn:El; [|done].
    cbn in H. simplify_eq.
    eapply loop_next; [by eapply HR|by eapply IH].
  - simplify_eq. apply loop_exit. by eapply HR.
Qed.

Lemma exec_race_sound {B X} (Rs : list (list (event E) -> outcome (Result B X) -> Prop)) fs :
  Forall2 sound Rs fs -> Forall (fun R => R [] (Halt Running)) Rs ->
  sound (race_runs Rs) (exec_race fs).
Proof.
  intros Hs. induction Hs as [|R f Rs fs HRf Hs IH]; intros Hstart w r tr w'; cbn; [done|].
  inversion Hstart as [|? ? HR0 Hstart']; subst.
  assert (Hnil : Forall2 (fun R r => R r.1 r.2) Rs (map (fun _ => ([], Halt Running)) Rs)).
  { clear -Hstart'. induction Hstart'; constructor; auto. }
  destruct (f w) as [[[[b|e] t] w1]|] eqn:Ef; [| |done]; intros H.
  - simplify_eq. exists ((tr, Done (Ok b)) :: map (fun _ => ([], Halt Running)) Rs).
    split_and!.
    + constructor; [by eapply HRf|done].
    + cbn. apply merges_nils. rewrite map_map. by apply Forall_map, Forall_true.
    + exists [], (map snd (map (fun _ => (@nil (event E), @Halt (Result B X) Running)) Rs)).
      split; [done|]. rewrite map_map. apply Forall_map. by apply Forall_true.
  - destruct fs as [|g fs].
    + inversion Hs; subst. simplify_eq. exists [(tr, Done (Err e))].
      split_and!; [repeat constructor; by eapply HRf|by apply merges_nils|].
      split; [by left|by repeat constructor].
    + destruct (exec_race (g :: fs) w1) as [[[r' t'] w2]|] eqn:Er; simplify_eq/=.
      destruct (IH Hstart' w1 _ _ _ Er) as (rs & HF & Hm & Ho).
      exists ((t, Done (Err e)) :: rs). split_and!.
      * constructor; [by eapply HRf|done].
      * by apply merges_app.
      * destruct r as [b|e'].
        -- destruct Ho as (l & r & Hl & Hb). exists (Done (Err e) :: l), r.
           cbn. rewrite Hl. split; [done|by constructor].
        -- destruct Ho as [Hin Hf]. split; [by right|by constructor].
Qed.

Lemma exec_sound fuel : forall A (p : prog E A), sound (runs p) (exec h fuel p).
Proof.
  fix IH 2. intros A p. destruct p as [a| |T e k|B c p k|S B body s k|B X ps k];
    intros w x tr w'; cbn [exec runs].
  - intros [= -> <- ->]. auto.
  - done.
  - destruct (answer h e w) as [y w1]. intros H.
    destruct (exec h fuel (k y) w1) as [[[a t] w2]|] eqn:Ek; simplify_eq/=.
    right. exists y, t. split; [done|]. by eapply IH.
  - intros H. refine (exec_seq_sound (cut_runs (runs p)) (fun r => runs (k r))
        (fun w => match exec h fuel p w with Some (b, t, w') => Some (Some b, t, w') | None => None end)
        (fun r => exec h fuel (k r)) _ (fun r => IH _ (k r)) w x tr w' _).
    + intros w1 r t w2 Hr. destruct (exec h fuel p w1) as [[[b t'] w3]|] eqn:Ep; simplify_eq.
      cbn. by eapply IH.
    + by destruct (exec h fuel p w) as [[[b t'] w3]|].
  - apply (exec_seq_sound (loop_runs (fun s => runs (body s)) s) (fun b => runs (k b))
      (exec_loop fuel (fun s => exec h fuel (body s)) s) (fun b => exec h fuel (k b)));
      [|intros; apply IH].
    apply exec_loop_sound. intros; apply IH.
  - apply (exec_seq_sound (race_runs (map (fun q => runs q) ps)) (fun r => runs (k r))
      (exec_race (map (fun q => exec h fuel q) ps)) (fun r => exec h fuel (k r)));
      [|intros; apply IH].
    apply exec_race_sound.
    + induction ps as [|q ps IHps]; constructor; [apply IH|apply IHps].
    + apply Forall_map. induction ps as [|q ps IHps]; constructor; [apply runs_start|apply IHps].
Qed.

(** An execution preserves what every answer of the environment preserves. *)
Section Respects.
Context (R : W -> list (event E) -> W -> Prop).
Context (Hnil : forall w, R w [] w).
Context (Happ : forall w1 t1 w2 t2 w3, R w1 t1 w2 -> R w2 t2 w3 -> R w1 (t1 ++ t2) w3).
Context (Hans : forall T (e : E T) w, R w [Ev e (answer h e w).1] (answer h e w).2).

Definition respects {A} (f : W -> option (A * list (event E) * W)) : Prop :=
  forall w a tr w', f w = Some (a, tr, w') -> R w tr w'.

Lemma respects_seq {A B} (f : W -> option (A * list (event E) * W)) (g : A -> W -> option (B * _ * W)) :
  respects f -> (forall a, respects (g a)) ->
  respects (fun w => match f w with Some (b, tr, w') => prepend tr (g b w') | None => None end).
Proof.
  intros Hf Hg w a tr w' H. destruct (f w) as [[[b t] w1]|] eqn:Ef; [|done]. cbn in H.
  destruct (g b w1) as [[[a' t'] w2]|] eqn:Eg; simplify_eq/=.
  eapply Happ; [by eapply Hf|by eapply Hg].
Qed.

Lemma respects_loop {S B} fuel (f : S -> W -> option ((S + B) * list (event E) * W)) s :
  (forall s, respects (f s)) -> respects (exec_loop fuel f s).
Proof.
  intros Hf. revert s. induction fuel as [|fuel IH]; intros s w b tr w'; cbn; [done|].
  destruct (f s w) as [[[[s'|b'] t] w1]|] eqn:Ef; cbn; intros H; [| |done].
  - destruct (exec_loop fuel f s' w1) as [[[b1 t1] w2]|] eqn:El; simplify_eq/=.
    eapply Happ; [by eapply Hf|by eapply IH].
  - simplify_eq. by eapply Hf.
Qed.

Lemma respects_race {B X} (fs : list (W -> option (Result B X * list (event E) * W))) :
  Forall respects fs -> respects (exec_race fs).
Proof.
  intros Hfs. induction Hfs as [|f fs Hf Hfs IH]; intros w r tr w'; cbn; [done|].
  destruct (f w) as [[[[b|e] t] w1]|] eqn:Ef; [| |done]; intros H; [simplify_eq; by eapply Hf|].
  destruct fs as [|g fs]; [simplify_eq; by eapply Hf|].
  destruct (exec_race (g :: fs) w1) as [[[r' t'] w2]|] eqn:Er; simplify_eq/=.
  eapply Happ; [by eapply Hf|by eapply IH].
Qed.

Lemma exec_respects fuel : forall A (p : prog E A), respects (exec h fuel p).
Proof.
  fix IH 2. intros A p. destruct p as [a| |T e k|B c p k|S B body s k|B X ps k];
    intros w x tr w'; cbn [exec].
  - intros [= -> <- ->]. apply Hnil.
  - done.
  - pose proof (Hans T e w) as Ha. destruct (answer h e w) as [y w1]. intros H.
    destruct (exec h fuel (k y) w1) as [[[a t] w2]|] eqn:Ek; simplify_eq/=.
    apply (Happ w [Ev e y] w1); [done|by eapply IH].
  - apply (respects_seq (fun w => exec h fuel p w) (fun b => exec h fuel (k (Some b)))); intros; apply IH.
  - apply (respects_seq (exec_loop fuel (fun s => exec h fuel (body s)) s) (fun b => exec h fuel (k b)));
      [|intros; apply IH]. apply respects_loop. intros; apply IH.
  - apply (respects_seq (exec_race (map (fun q => exec h fuel q) ps)) (fun b => exec h fuel (k b)));
      [|intros; apply IH]. apply respects_race.
    induction ps as [|q ps IHps]; constructor; [apply IH|apply IHps].
Qed.

End Respects.
End Exec.
End Facts.

(** Decompose every finished run in the context. *)
Ltac run_inv :=
  repeat match goal with
  | H : runs (Ret _) _ (Done _) |- _ => apply runs_ret_done in H as [? ?]; simplify_eq
  | H : runs (call _) _ (Done _) |- _ => apply runs_call_done in H; subst
  | H : runs (bind _ _) _ (Done _) |- _ =>
      apply runs_bind_done in H; destruct H as (? & ? & ? & ? & ? & ?); subst
  | H : runs (try_bind _ _) _ (Done _) |- _ =>
      apply runs_try_done in H;
      destruct H as [(? & ? & ? & ? & ? & ?)|(? & ? & ?)]; simplify_eq
  | H : runs (within _ _) _ (Done _) |- _ => apply runs_within_done in H
  end.

(** Prove that a program performs only certain events, structurally. *)
Ltac only_step :=
  match goal with
  | |- only _ (bind _ _) => apply only_bind; [|intros ?]
  | |- only _ (try_bind _ _) => apply only_try; [|intros ?]
  | |- only _ (Ret _) => apply only_ret
  | |- only _ Fault => apply only_fault
  | |- only _ (or_panic _) => apply only_or_panic
  | |- only _ (call _) => apply only_call; intros ?
  | |- only _ (within _ _) => apply only_within
  | |- only _ (loop _ _) => apply only_loop; intros ?
  | |- only _ (match ?x with _ => _ end) => destruct x
  end.
