(* ===== verification/Utf8.v ===== *)
(** * [String::from_utf8_lossy]

    The standard library's lossy decoding of UTF-8, which the crate uses for the
    reasons a peer gives when it closes a connection, and its specification: every
    maximal invalid part is replaced by U+FFFD, the result is the encoding of a
    sequence of Unicode scalar values, and such an encoding is left as it is. *)

From Stdlib Require Import Strings.Byte.
From S2P Require Import Prelude Std.

Local Open Scope Z_scope.

Definition between (lo hi : Z) (b : byte) : bool := (lo <=? u8 b) && (u8 b <=? hi).

(** [core::str::validations::utf8_char_width]; 0 is not the start of a character. *)
Definition utf8_char_width (b : byte) : nat :=
  if between 0 127 b then 1
  else if between 194 223 b then 2
  else if between 224 239 b then 3
  else if between 240 244 b then 4
  else 0.

(** A continuation byte: [b & 192 == 128]. *)
Definition is_cont (b : byte) : bool := Z.land (u8 b) 192 =? 128.

(** The second byte of a three-byte character: neither overlong nor a surrogate. *)
Definition second_of_3 (b0 b1 : byte) : bool :=
  (between 224 224 b0 && between 160 191 b1)
  || (between 225 236 b0 && between 128 191 b1)
  || (between 237 237 b0 && between 128 159 b1)
  || (between 238 239 b0 && between 128 191 b1).

(** The second byte of a four-byte character: neither overlong nor above U+10FFFF. *)
Definition second_of_4 (b0 b1 : byte) : bool :=
  (between 240 240 b0 && between 144 191 b1)
  || (between 241 243 b0 && between 128 191 b1)
  || (between 244 244 b0 && between 128 143 b1).

(** U+FFFD. *)
Definition REPLACEMENT : Bytes := [xef; xbf; xbd].

Fixpoint from_utf8_lossy (l : Bytes) : Bytes :=
  match l with
  | [] => []
  | b0 :: l0 =>
      match utf8_char_width b0, l0 with
      | 1%nat, _ => b0 :: from_utf8_lossy l0
      | 2%nat, b1 :: l1 =>
          if is_cont b1 then b0 :: b1 :: from_utf8_lossy l1
          else REPLACEMENT ++ from_utf8_lossy l0
      | 3%nat, b1 :: l1 =>
          if second_of_3 b0 b1 then
            match l1 with
            | b2 :: l2 =>
                if is_cont b2 then b0 :: b1 :: b2 :: from_utf8_lossy l2
                else REPLACEMENT ++ from_utf8_lossy l1
            | [] => REPLACEMENT
            end
          else REPLACEMENT ++ from_utf8_lossy l0
      | 4%nat, b1 :: l1 =>
          if second_of_4 b0 b1 then
            match l1 with
            | b2 :: l2 =>
                if is_cont b2 then
                  match l2 with
                  | b3 :: l3 =>
                      if is_cont b3 then b0 :: b1 :: b2 :: b3 :: from_utf8_lossy l3
                      else REPLACEMENT ++ from_utf8_lossy l2
                  | [] => REPLACEMENT
                  end
                else REPLACEMENT ++ from_utf8_lossy l1
            | [] => REPLACEMENT
            end
          else REPLACEMENT ++ from_utf8_lossy l0
      | _, _ => REPLACEMENT ++ from_utf8_lossy l0
      end
  end.

(** ** Specification: the encoding of scalar values *)

Definition scalar (c : Z) : Prop := 0 <= c <= 55295 \/ 57344 <= c <= 1114111.

Definition encode_char (c : Z) : Bytes :=
  if c <? 128 then [u8_of c]
  else if c <? 2048 then [u8_of (192 + c / 64); u8_of (128 + c mod 64)]
  else if c <? 65536 then
    [u8_of (224 + c / 4096); u8_of (128 + c / 64 mod 64); u8_of (128 + c mod 64)]
  else
    [u8_of (240 + c / 262144); u8_of (128 + c / 4096 mod 64); u8_of (128 + c / 64 mod 64);
     u8_of (128 + c mod 64)].

Definition utf8 (l : Bytes) : Prop :=
  exists cs, Forall scalar cs /\ l = concat (map encode_char cs).

(** ** Lemmas *)

Lemma is_cont_spec b : is_cont b = between 128 191 b.
Proof. by destruct b. Qed.

Lemma between_spec lo hi b : between lo hi b = true <-> lo <= u8 b <= hi.
Proof. unfold between. rewrite andb_true_iff, !Z.leb_le. lia. Qed.

Lemma between_false lo hi b : between lo hi b = false <-> ~ lo <= u8 b <= hi.
Proof. rewrite <- between_spec. destruct (between lo hi b); split; congruence. Qed.

Lemma u8_of_small z : 0 <= z < 256 -> u8 (u8_of z) = z.
Proof. intros ?. rewrite u8_u8_of. by apply Z.mod_small. Qed.

Lemma utf8_nil : utf8 [].
Proof. by exists []. Qed.

Lemma utf8_app l1 l2 : utf8 l1 -> utf8 l2 -> utf8 (l1 ++ l2).
Proof.
  intros (cs1 & H1 & ->) (cs2 & H2 & ->). exists (cs1 ++ cs2).
  by rewrite map_app, concat_app, Forall_app.
Qed.

Lemma utf8_char c : scalar c -> utf8 (encode_char c).
Proof. intros Hc. exists [c]. cbn. rewrite app_nil_r. auto. Qed.

Lemma utf8_char_width_spec b :
  match utf8_char_width b with
  | 0%nat => True
  | 1%nat => u8 b <= 127
  | 2%nat => 194 <= u8 b <= 223
  | 3%nat => 224 <= u8 b <= 239
  | 4%nat => 240 <= u8 b <= 244
  | _ => False
  end.
Proof.
  unfold utf8_char_width.
  repeat match goal with |- context [between ?lo ?hi b] => destruct (between lo hi b) eqn:?B end;
    rewrite ?between_spec in *; lia.
Qed.

(** Turns the boolean tests on bytes into inequalities. *)
Ltac byte_tests :=
  unfold second_of_3, second_of_4 in *; rewrite ?is_cont_spec in *;
  repeat match goal with
  | H : (_ || _)%bool = true |- _ => apply orb_true_iff in H as [H|H]
  | H : (_ && _)%bool = true |- _ => apply andb_true_iff in H as [? ?]
  end;
  rewrite ?between_spec in *.

#[export] Instance u8_Inj : Inj (=) (=) u8.
Proof. intros b1 b2. apply u8_inj. Qed.

Lemma encode_bytes (l : Bytes) c :
  scalar c -> map u8 l = map u8 (encode_char c) -> utf8 l.
Proof.
  intros Hc He. replace l with (encode_char c); [by apply utf8_char|].
  symmetry. apply (inj (fmap u8)), He.
Qed.

Ltac encoded c :=
  apply (encode_bytes _ c);
  [unfold scalar; lia
  |unfold encode_char; 
   repeat match goal with |- context [?x <? ?y] => destruct (Z.ltb_spec x y); try lia end;
   cbn [map]; rewrite !u8_of_small by (Z.div_mod_to_equations; lia);
   repeat f_equal; Z.div_mod_to_equations; lia].

Lemma utf8_1 b : utf8_char_width b = 1%nat -> utf8 [b].
Proof.
  intros H. pose proof (utf8_char_width_spec b) as Hw. rewrite H in Hw.
  pose proof (u8_range b). encoded (u8 b).
Qed.

Lemma utf8_2 b0 b1 : utf8_char_width b0 = 2%nat -> is_cont b1 = true -> utf8 [b0; b1].
Proof.
  intros H H1. pose proof (utf8_char_width_spec b0) as Hw. rewrite H in Hw. byte_tests.
  encoded ((u8 b0 - 192) * 64 + (u8 b1 - 128)).
Qed.

Lemma utf8_3 b0 b1 b2 :
  second_of_3 b0 b1 = true -> is_cont b2 = true -> utf8 [b0; b1; b2].
Proof.
  intros H1 H2. byte_tests;
    encoded ((u8 b0 - 224) * 4096 + (u8 b1 - 128) * 64 + (u8 b2 - 128)).
Qed.

Lemma utf8_4 b0 b1 b2 b3 :
  second_of_4 b0 b1 = true -> is_cont b2 = true -> is_cont b3 = true -> utf8 [b0; b1; b2; b3].
Proof.
  intros H1 H2 H3. byte_tests;
    encoded ((u8 b0 - 240) * 262144 + (u8 b1 - 128) * 4096 + (u8 b2 - 128) * 64 + (u8 b3 - 128)).
Qed.

Lemma utf8_replacement : utf8 REPLACEMENT.
Proof. apply (encode_bytes _ 65533); [unfold scalar; lia|done]. Qed.

(** [[b0; b1] ++ l], as the pattern matching leaves it. *)
Lemma utf8_cons1 b l : utf8 [b] -> utf8 l -> utf8 (b :: l).
Proof. apply (utf8_app [b]). Qed.
Lemma utf8_cons2 b0 b1 l : utf8 [b0; b1] -> utf8 l -> utf8 (b0 :: b1 :: l).
Proof. apply (utf8_app [b0; b1]). Qed.
Lemma utf8_cons3 b0 b1 b2 l : utf8 [b0; b1; b2] -> utf8 l -> utf8 (b0 :: b1 :: b2 :: l).
Proof. apply (utf8_app [b0; b1; b2]). Qed.
Lemma utf8_cons4 b0 b1 b2 b3 l :
  utf8 [b0; b1; b2; b3] -> utf8 l -> utf8 (b0 :: b1 :: b2 :: b3 :: l).
Proof. apply (utf8_app [b0; b1; b2; b3]). Qed.

Create HintDb utf8 discriminated.
#[export] Hint Resolve utf8_nil utf8_app utf8_char utf8_1 utf8_2 utf8_3 utf8_4 utf8_replacement : utf8.

(** The result is well-formed UTF-8, whatever the bytes. *)
Lemma from_utf8_lossy_utf8 l : utf8 (from_utf8_lossy l).
Proof.
  induction l as [l IH] using (induction_ltof1 _ (@length byte)). unfold ltof in IH.
  destruct l as [|b0 l0]; cbn [from_utf8_lossy]; [apply utf8_nil|].
  assert (forall k, (length k <= length l0)%nat -> utf8 (from_utf8_lossy k)) as Hrec
    by (intros k Hk; apply IH; cbn; lia).
  destruct (utf8_char_width b0) as [|[|[|[|[|n]]]]] eqn:Hw; repeat case_match; subst;
    first [apply utf8_replacement
          |apply utf8_app; [apply utf8_replacement|apply Hrec; cbn; lia]
          |apply utf8_cons1; [by apply utf8_1|apply Hrec; cbn; lia]
          |apply utf8_cons2; [by apply utf8_2|apply Hrec; cbn; lia]
          |apply utf8_cons3; [by apply utf8_3|apply Hrec; cbn; lia]
          |apply utf8_cons4; [by apply utf8_4|apply Hrec; cbn; lia]].
Qed.

(** ** Encodings are unchanged *)

Lemma utf8_char_width_eq b n :
  match n with
  | 1%nat => u8 b <= 127
  | 2%nat => 194 <= u8 b <= 223
  | 3%nat => 224 <= u8 b <= 239
  | 4%nat => 240 <= u8 b <= 244
  | _ => False
  end -> utf8_char_width b = n.
Proof.
  pose proof (u8_range b). unfold utf8_char_width.
  repeat match goal with |- context [between ?lo ?hi b] => destruct (between lo hi b) eqn:?B end;
    rewrite ?between_spec, ?between_false in *; destruct n as [|[|[|[|[|]]]]]; try done; lia.
Qed.

Lemma second_of_3_intro b0 b1 :
  224 <= u8 b0 <= 239 -> 128 <= u8 b1 <= 191 ->
  (u8 b0 = 224 -> 160 <= u8 b1) -> (u8 b0 = 237 -> u8 b1 <= 159) -> second_of_3 b0 b1 = true.
Proof.
  intros ????. unfold second_of_3. rewrite !orb_true_iff, !andb_true_iff, !between_spec. lia.
Qed.

Lemma second_of_4_intro b0 b1 :
  240 <= u8 b0 <= 244 -> 128 <= u8 b1 <= 191 ->
  (u8 b0 = 240 -> 144 <= u8 b1) -> (u8 b0 = 244 -> u8 b1 <= 143) -> second_of_4 b0 b1 = true.
Proof.
  intros ????. unfold second_of_4. rewrite !orb_true_iff, !andb_true_iff, !between_spec. lia.
Qed.

Lemma is_cont_u8_of z : 0 <= z < 64 -> is_cont (u8_of (128 + z)) = true.
Proof. intros ?. rewrite is_cont_spec, between_spec, u8_of_small; lia. Qed.

Ltac byte_bounds := rewrite ?u8_of_small by (Z.div_mod_to_equations; lia); Z.div_mod_to_equations; lia.

Lemma lossy_encode_char c l :
  scalar c -> from_utf8_lossy (encode_char c ++ l) = encode_char c ++ from_utf8_lossy l.
Proof.
  intros Hc. unfold scalar in Hc. unfold encode_char.
  destruct (Z.ltb_spec c 128); [|destruct (Z.ltb_spec c 2048); [|destruct (Z.ltb_spec c 65536)]];
    cbn [app from_utf8_lossy].
  - by rewrite (utf8_char_width_eq _ 1) by byte_bounds.
  - rewrite (utf8_char_width_eq _ 2) by byte_bounds. by rewrite is_cont_u8_of by byte_bounds.
  - rewrite (utf8_char_width_eq _ 3) by byte_bounds.
    rewrite second_of_3_intro by byte_bounds. by rewrite is_cont_u8_of by byte_bounds.
  - rewrite (utf8_char_width_eq _ 4) by byte_bounds.
    rewrite second_of_4_intro by byte_bounds. by rewrite !is_cont_u8_of by byte_bounds.
Qed.

(** Well-formed UTF-8 is left as it is. *)
Lemma from_utf8_lossy_id l : utf8 l -> from_utf8_lossy l = l.
Proof.
  intros (cs & Hcs & ->). induction Hcs as [|c cs Hc _ IH]; [done|].
  cbn [map concat]. by rewrite lossy_encode_char, IH.
Qed.

(** ** Texts *)

(** A [String] holds the bytes of its characters. *)
Definition to_string (l : Bytes) : string := String.string_of_list_byte l.
