(* ===== verification/Foreign.v ===== *)
(** * The crates qp2p calls

    quinn, bincode, rcgen, rustls, igd and tokio are not part of the repository.
    Their types are the carriers of the class [Foreign]; a type whose
    constructors the sources match on is an inductive type with exactly those
    constructors. The functions of [Foreign] are the pure ones the configuration
    code calls; everything else these crates do is an event of [Effects.v], whose
    answers no theorem constrains unless it says so. *)

From S2P Require Import Prelude Std.

(** The trait [rustls::client::ServerCertVerifier]: end entity, intermediates, server
    name, SCTs, OCSP response, time. *)
Record ServerCertVerifier (Name Time Verified Error : Type) := mkServerCertVerifier
  { verify_server_cert :
      Bytes -> list Bytes -> Name -> list Bytes -> Bytes -> Time -> Result Verified Error }.
Arguments mkServerCertVerifier {_ _ _ _} _.
Arguments verify_server_cert {_ _ _ _} _ _ _ _ _ _ _.

Class Foreign := {
  (** quinn and quinn_proto *)
  q_Endpoint : Type;
  q_Connection : Type;
  q_Connecting : Type;
  q_Incoming : Type;
  q_IncomingUniStreams : Type;
  q_IncomingBiStreams : Type;
  q_SendStream : Type;
  q_RecvStream : Type;
  q_ClientConfig : Type;
  q_ServerConfig : Type;
  q_TransportConfig : Type;
  q_IdleTimeout : Type;
  q_TransportError : Type;
  q_TransportErrorCode : Type;
  VarIntBoundsExceeded : Type;
  (** bincode's error kinds other than [Custom] *)
  bincode_OtherKind : Type;
  io_Error : Type;
  (** rcgen and rustls *)
  rcgen_Certificate : Type;
  rcgen_Error : Type;
  rustls_Error : Type;
  webpki_Error : Type;
  RootCertStore : Type;
  ClientCrypto : Type;
  ServerName : Type;
  SystemTime : Type;
  ServerCertVerified : Type;
  (** the errors behind those of these crates *)
  other_error : Type;
  (** what [color_eyre::install] fails with, in the example *)
  color_eyre_Error : Type;
  (** igd *)
  igd_Gateway : Type;
  igd_AddPortError : Type;
  igd_SearchError : Type;
  (** the ends of the tokio channels *)
  MessageTx : Type;
  MessageRx : Type;
  ConnectionTx : Type;
  ConnectionRx : Type;
  AliveTx : Type;
  AliveRx : Type;
  TerminationTx : Type;
  TerminationRx : Type;
  (** functions used by [InternalConfig] *)
  IdleTimeout_try_from : Duration -> Result q_IdleTimeout VarIntBoundsExceeded;
  TransportConfig_default : q_TransportConfig;
  tc_max_idle_timeout : q_TransportConfig -> option q_IdleTimeout -> q_TransportConfig;
  tc_keep_alive_interval : q_TransportConfig -> option Duration -> q_TransportConfig;
  serialize_private_key_der : rcgen_Certificate -> Bytes;
  serialize_der : rcgen_Certificate -> Result Bytes rcgen_Error;
  RootCertStore_empty : RootCertStore;
  RootCertStore_add : RootCertStore -> Bytes -> Result RootCertStore webpki_Error;
  client_builder_with_roots : RootCertStore -> ClientCrypto;
  set_certificate_verifier :
    ClientCrypto -> ServerCertVerifier ServerName SystemTime ServerCertVerified rustls_Error ->
    ClientCrypto;
  (** [ServerCertVerified::assertion()] *)
  assertion : ServerCertVerified;
  ServerConfig_with_single_cert : list Bytes -> Bytes -> Result q_ServerConfig rustls_Error;
  server_set_transport : q_ServerConfig -> q_TransportConfig -> q_ServerConfig;
  ClientConfig_new : ClientCrypto -> q_ClientConfig;
  client_set_transport : q_ClientConfig -> q_TransportConfig -> q_ClientConfig;
}.

Section ForeignTypes.
Context {F : Foreign}.

(** [quinn::ApplicationClose]: [error_code] is a [VarInt], [reason] a [Bytes]. *)
Record q_ApplicationClose := mkApplicationClose { ac_error_code : Z; ac_reason : Bytes }.

Record q_ConnectionClose := mkConnectionClose
  { cc_error_code : q_TransportErrorCode; cc_reason : Bytes }.

Inductive q_ConnectionError :=
| q_VersionMismatch
| q_TransportErrorC (e : q_TransportError)
| q_ConnectionClosed (c : q_ConnectionClose)
| q_ApplicationClosed (c : q_ApplicationClose)
| q_Reset
| q_TimedOut
| q_LocallyClosed.

Inductive q_ConnectError :=
| q_EndpointStopping
| q_TooManyConnections
| q_InvalidDnsName (name : string)
| q_InvalidRemoteAddress (a : SocketAddr)
| q_NoDefaultClientConfig
| q_UnsupportedVersion.

(** Stream error codes are [VarInt]s, converted to [u64] by the crate. *)
Inductive q_WriteError :=
| q_WriteStopped (code : Z)
| q_WriteConnectionLost (e : q_ConnectionError)
| q_WriteUnknownStream
| q_WriteZeroRttRejected.

Inductive q_ReadError :=
| q_ReadReset (code : Z)
| q_ReadConnectionLost (e : q_ConnectionError)
| q_ReadUnknownStream
| q_ReadIllegalOrderedRead
| q_ReadZeroRttRejected.

Inductive q_ReadExactError :=
| q_FinishedEarly
| q_ReadExactReadError (e : q_ReadError).

Record q_NewConnection := mkNewConnection
  { nc_connection : q_Connection;
    nc_uni_streams : q_IncomingUniStreams;
    nc_bi_streams : q_IncomingBiStreams }.

(** [bincode::Error], a box of [bincode::ErrorKind]. *)
Inductive bincode_Error :=
| bincode_Custom (msg : string)
| bincode_Other (k : bincode_OtherKind).

(** [tokio::time::error::Elapsed]. *)
Inductive Elapsed := mkElapsed.

(** [tokio::sync::broadcast::error::TryRecvError]. *)
Inductive broadcast_TryRecvError :=
| broadcast_Empty
| broadcast_Closed
| broadcast_Lagged (n : Z).

(** [tokio::sync::mpsc::error::TryRecvError]. *)
Inductive mpsc_TryRecvError :=
| mpsc_Empty
| mpsc_Disconnected.

End ForeignTypes.
