(* ===== verification/WireTypes.v ===== *)
(** * The messages of the wire protocol and how they are displayed

    [WireMsg] of [wire_msg.rs] with its [Display], and [utils.rs]. *)

From Stdlib Require Import Strings.Byte.
From S2P Require Import Prelude Std.

Local Open Scope string_scope.

Inductive WireMsg :=
| EndpointEchoReq
| EndpointEchoResp (addr : SocketAddr)
| EndpointVerificationReq (addr : SocketAddr)
| EndpointVerificationResp (valid : bool)
| UserMsg (msg : Bytes).

#[export] Instance WireMsg_eq_dec : EqDecision WireMsg.
Proof. solve_decision. Defined.

(** [data[len - k]]. *)
Definition index_back (data : Bytes) (k : nat) : option byte :=
  i ← usize_sub (length data) k; index data i.

(** [None] is a panic of the indexing. *)
Definition bin_data_format (data : Bytes) : option string :=
  let len := length data in
  if (len <? 8)%nat then Some ("[ " +:+ debug_bytes data +:+ " ]")
  else
    b0 ← index data 0; b1 ← index data 1; b2 ← index data 2; b3 ← index data 3;
    b4 ← index_back data 4; b5 ← index_back data 3; b6 ← index_back data 2;
    b7 ← index_back data 1;
    Some ("[ " +:+ hex2 b0 +:+ " " +:+ hex2 b1 +:+ " " +:+ hex2 b2 +:+ " " +:+ hex2 b3 +:+ ".."
               +:+ hex2 b4 +:+ " " +:+ hex2 b5 +:+ " " +:+ hex2 b6 +:+ " " +:+ hex2 b7 +:+ " ]").

Definition fmt_WireMsg (m : WireMsg) : option string :=
  match m with
  | UserMsg m => s ← bin_data_format m; Some ("WireMsg::UserMsg(" +:+ s +:+ ")")
  | EndpointEchoReq => Some "WireMsg::EndpointEchoReq"
  | EndpointEchoResp sa => Some ("WireMsg::EndpointEchoResp(" +:+ fmt_SocketAddr sa +:+ ")")
  | EndpointVerificationReq sa =>
      Some ("WireMsg::EndpointVerificationReq(" +:+ fmt_SocketAddr sa +:+ ")")
  | EndpointVerificationResp valid =>
      Some ("WireMsg::EndpointEchoResp(" +:+ (if valid then "Valid" else "Invalid") +:+ ")")
  end.

(** Every access of [bin_data_format] is in bounds: it formats any data. *)
Lemma bin_data_format_total data : exists s, bin_data_format data = Some s.
Proof.
  unfold bin_data_format. destruct (Nat.ltb_spec (length data) 8) as [|Hl]; [eauto|].
  assert (forall i, (i < 8)%nat -> exists b, index data i = Some b) as Hi
    by (intros i Hlt; apply lookup_lt_is_Some; lia).
  assert (forall k, (0 < k <= 8)%nat -> exists b, index_back data k = Some b) as Hb.
  { intros k Hk. unfold index_back, usize_sub. destruct (Nat.leb_spec k (length data)); [|lia].
    apply lookup_lt_is_Some. lia. }
  repeat match goal with
  | |- context [index data ?i] => destruct (Hi i ltac:(lia)) as [? ->]; cbn [mbind option_bind]
  | |- context [index_back data ?k] => destruct (Hb k ltac:(lia)) as [? ->]; cbn [mbind option_bind]
  end. eauto.
Qed.

Lemma fmt_WireMsg_total m : exists s, fmt_WireMsg m = Some s.
Proof. destruct m; cbn; eauto. destruct (bin_data_format_total msg) as [s ->]. cbn. eauto. Qed.
