(* ===== verification/Errors.v ===== *)
(** * error.rs: the crate's error types and their conversions

    Every enum of [error.rs] with its variants (a variant [V] of the enum [T] is
    the constructor [T_V]), [is_benign], and the [From] implementations as
    instances of the class [From], which the [?] operator of [Prog.v] uses. The
    configuration and IGD errors are here too, since [EndpointError] contains
    them. *)

From S2P Require Import Prelude Std Foreign WireTypes.

Local Open Scope Z_scope.

Section Errors.
Context {F : Foreign}.

Inductive TransportErrorCode := mkTransportErrorCode (c : q_TransportErrorCode).

Inductive Close :=
| Close_Local
| Close_Application (error_code : Z) (reason : Bytes)
| Close_Transport (error_code : TransportErrorCode) (reason : Bytes).

Inductive InternalConfigError := mkInternalConfigError (e : q_ConnectError).

Inductive ConnectionError :=
| ConnectionError_Stopped
| ConnectionError_TooManyConnections
| ConnectionError_InvalidAddress (a : SocketAddr)
| ConnectionError_InternalConfigError (e : InternalConfigError)
| ConnectionError_VersionMismatch
| ConnectionError_TransportError (e : q_TransportError)
| ConnectionError_Reset
| ConnectionError_TimedOut
| ConnectionError_Closed (c : Close).

Inductive SerializationError := mkSerializationError (e : bincode_Error).

(** The boxed error is the quinn error it was made from. *)
Inductive UnsupportedStreamOperation :=
| UnsupportedWrite (e : q_WriteError)
| UnsupportedRead (e : q_ReadError).

Inductive StreamError :=
| StreamError_Stopped (code : Z)
| StreamError_Gone
| StreamError_Unsupported (op : UnsupportedStreamOperation).

Inductive SendError :=
| SendError_Serialization (e : SerializationError)
| SendError_ConnectionLost (e : ConnectionError)
| SendError_StreamLost (e : StreamError).

Inductive RecvError :=
| RecvError_Serialization (e : SerializationError)
| RecvError_ConnectionLost (e : ConnectionError)
| RecvError_StreamLost (e : StreamError).

Inductive RpcError :=
| RpcError_TimedOut
| RpcError_Send (e : SendError)
| RpcError_Recv (e : RecvError).

Inductive CertificateGenerationError := mkCertificateGenerationError (e : rcgen_Error).

Inductive ConfigError :=
| ConfigError_CertificateGeneration (e : CertificateGenerationError)
| ConfigError_InvalidIdleTimeout (e : VarIntBoundsExceeded)
| ConfigError_Rustls (e : rustls_Error)
| ConfigError_Webpki.

Inductive IgdError :=
| IgdError_TimedOut
| IgdError_NotSupported
| IgdError_AddPort (e : igd_AddPortError)
| IgdError_Search (e : igd_SearchError).

Inductive UpnpError := mkUpnpError (e : IgdError).

Inductive EndpointError :=
| EndpointError_Config (e : ConfigError)
| EndpointError_Socket (e : io_Error)
| EndpointError_EndpointEcho (peer : SocketAddr) (error : RpcError)
| EndpointError_Upnp (e : UpnpError)
| EndpointError_EndpointVerification (peer : SocketAddr) (error : RpcError)
| EndpointError_Unreachable (public_addr : SocketAddr)
| EndpointError_IoError (e : io_Error).

Inductive ClientEndpointError :=
| ClientEndpointError_Config (e : ConfigError)
| ClientEndpointError_Socket (e : io_Error)
| ClientEndpointError_Io (e : io_Error).

Definition is_benign (e : ConnectionError) : bool :=
  match e with
  | ConnectionError_TimedOut => true
  | ConnectionError_Closed Close_Local => true
  | ConnectionError_Closed (Close_Application error_code _) => error_code =? 0
  | _ => false
  end.

(** ** [SerializationError] *)

Definition SerializationError_new (message : string) : SerializationError :=
  mkSerializationError (bincode_Custom message).

Definition SerializationError_unexpected (actual : option WireMsg) : option SerializationError :=
  match actual with
  | Some actual =>
      text ← fmt_WireMsg actual;
      Some (SerializationError_new
        ("The message received was not the expected one: " +:+ text))
  | None => Some (SerializationError_new "Unexpected end of stream")
  end.

(** The error it makes, which it always does. *)
Definition unexpected_error (actual : option WireMsg) : SerializationError :=
  match SerializationError_unexpected actual with
  | Some e => e
  | None => SerializationError_new "Unexpected end of stream"
  end.

Lemma unexpected_total actual :
  SerializationError_unexpected actual = Some (unexpected_error actual).
Proof.
  unfold unexpected_error. destruct actual as [m|]; [|done]. cbn.
  by destruct (fmt_WireMsg_total m) as [s ->].
Qed.

(** ** Conversions *)

#[export] Instance EndpointError_from_ConfigError : From ConfigError EndpointError :=
  EndpointError_Config.

#[export] Instance EndpointError_from_io : From io_Error EndpointError :=
  EndpointError_IoError.

#[export] Instance EndpointError_from_IgdError : From IgdError EndpointError :=
  fun error => EndpointError_Upnp (mkUpnpError error).

#[export] Instance ClientEndpointError_from_ConfigError : From ConfigError ClientEndpointError :=
  ClientEndpointError_Config.

#[export] Instance ClientEndpointError_from_io : From io_Error ClientEndpointError :=
  ClientEndpointError_Io.

#[export] Instance ConnectionError_from_ConnectError : From q_ConnectError ConnectionError :=
  fun error =>
  match error with
  | q_EndpointStopping => ConnectionError_Stopped
  | q_TooManyConnections => ConnectionError_TooManyConnections
  | q_InvalidRemoteAddress addr => ConnectionError_InvalidAddress addr
  | q_InvalidDnsName _ | q_NoDefaultClientConfig | q_UnsupportedVersion =>
      ConnectionError_InternalConfigError (mkInternalConfigError error)
  end.

#[export] Instance ConnectionError_from_quinn : From q_ConnectionError ConnectionError :=
  fun error =>
  match error with
  | q_LocallyClosed => ConnectionError_Closed Close_Local
  | q_ApplicationClosed close =>
      ConnectionError_Closed (Close_Application (ac_error_code close) (ac_reason close))
  | q_ConnectionClosed close =>
      ConnectionError_Closed
        (Close_Transport (mkTransportErrorCode (cc_error_code close)) (cc_reason close))
  | q_VersionMismatch => ConnectionError_VersionMismatch
  | q_TransportErrorC error => ConnectionError_TransportError error
  | q_Reset => ConnectionError_Reset
  | q_TimedOut => ConnectionError_TimedOut
  end.

#[export] Instance Close_from_ApplicationClose : From q_ApplicationClose Close :=
  fun close => Close_Application (ac_error_code close) (ac_reason close).

#[export] Instance Close_from_ConnectionClose : From q_ConnectionClose Close :=
  fun close => Close_Transport (mkTransportErrorCode (cc_error_code close)) (cc_reason close).

#[export] Instance SendError_from_SerializationError : From SerializationError SendError :=
  SendError_Serialization.

#[export] Instance SendError_from_ConnectionError : From ConnectionError SendError :=
  SendError_ConnectionLost.

#[export] Instance SendError_from_bincode : From bincode_Error SendError :=
  fun error => SendError_Serialization (mkSerializationError error).

#[export] Instance SendError_from_quinn : From q_ConnectionError SendError :=
  fun error => SendError_ConnectionLost (from error).

#[export] Instance SendError_from_WriteError : From q_WriteError SendError :=
  fun error =>
  match error with
  | q_WriteStopped code => SendError_StreamLost (StreamError_Stopped code)
  | q_WriteConnectionLost error => SendError_ConnectionLost (from error)
  | q_WriteUnknownStream => SendError_StreamLost StreamError_Gone
  | q_WriteZeroRttRejected =>
      SendError_StreamLost (StreamError_Unsupported (UnsupportedWrite error))
  end.

#[export] Instance RecvError_from_SerializationError : From SerializationError RecvError :=
  RecvError_Serialization.

#[export] Instance RecvError_from_ConnectionError : From ConnectionError RecvError :=
  RecvError_ConnectionLost.

#[export] Instance RecvError_from_quinn : From q_ConnectionError RecvError :=
  fun error => RecvError_ConnectionLost (from error).

#[export] Instance RecvError_from_bincode : From bincode_Error RecvError :=
  fun error => RecvError_Serialization (mkSerializationError error).

#[export] Instance RecvError_from_ReadError : From q_ReadError RecvError :=
  fun error =>
  match error with
  | q_ReadReset code => RecvError_StreamLost (StreamError_Stopped code)
  | q_ReadConnectionLost error => RecvError_ConnectionLost (from error)
  | q_ReadUnknownStream => RecvError_StreamLost StreamError_Gone
  | q_ReadIllegalOrderedRead | q_ReadZeroRttRejected =>
      RecvError_StreamLost (StreamError_Unsupported (UnsupportedRead error))
  end.

#[export] Instance RecvError_from_ReadExactError : From q_ReadExactError RecvError :=
  fun error =>
  match error with
  | q_FinishedEarly =>
      RecvError_Serialization (SerializationError_new "Received too few bytes for message")
  | q_ReadExactReadError error => from error
  end.

#[export] Instance RpcError_from_SendError : From SendError RpcError := RpcError_Send.

#[export] Instance RpcError_from_RecvError : From RecvError RpcError := RpcError_Recv.

#[export] Instance RpcError_from_ConnectionError : From ConnectionError RpcError :=
  fun error => RpcError_Send (from error).

#[export] Instance RpcError_from_quinn : From q_ConnectionError RpcError :=
  fun error => RpcError_Send (from error).

#[export] Instance RpcError_from_Elapsed : From Elapsed RpcError :=
  fun _ => RpcError_TimedOut.

#[export] Instance ConfigError_from_rcgen : From rcgen_Error ConfigError :=
  fun error => ConfigError_CertificateGeneration (mkCertificateGenerationError error).

#[export] Instance ConfigError_from_VarInt : From VarIntBoundsExceeded ConfigError :=
  ConfigError_InvalidIdleTimeout.

#[export] Instance ConfigError_from_rustls : From rustls_Error ConfigError :=
  ConfigError_Rustls.

#[export] Instance IgdError_from_AddPortError : From igd_AddPortError IgdError :=
  IgdError_AddPort.

#[export] Instance IgdError_from_SearchError : From igd_SearchError IgdError :=
  IgdError_Search.

End Errors.
