(* ===== verification/ConfigTypes.v ===== *)
(** * config.rs: the configuration data

    [Config], [RetryConfig] and [InternalConfig] with their defaults, the
    structopt default strings with the parser they go through, and the backoff
    policy a [RetryConfig] stands for. An [f64] is a primitive IEEE 754 binary64
    float. The crate is modelled with its default feature [igd]. *)

From Stdlib Require Import Ascii Floats Uint63.
From S2P Require Import Prelude Std Foreign Errors.

Local Open Scope Z_scope.

Definition DEFAULT_UPNP_LEASE_DURATION : Duration := from_secs 120.
Definition DEFAULT_INITIAL_RETRY_INTERVAL : Duration := from_millis 500.
Definition DEFAULT_INITIAL_RETRY_INTERVAL_STR : string := "500".
Definition DEFAULT_IDLE_TIMEOUT : Duration := from_secs 18.
Definition DEFAULT_MAX_RETRY_INTERVAL : Duration := from_secs 15.
Definition DEFAULT_MAX_RETRY_INTERVAL_STR : string := "15".
Definition DEFAULT_RETRY_INTERVAL_MULTIPLIER : float := 1.5%float.
Definition DEFAULT_RETRY_INTERVAL_MULTIPLIER_STR : string := "1.5".
Definition DEFAULT_RETRY_DELAY_RAND_FACTOR : float := 0x1.3333333333333p-2%float. (* 0.3 *)
Definition DEFAULT_RETRY_DELAY_RAND_FACTOR_STR : string := "0.3".
Definition DEFAULT_RETRYING_MAX_ELAPSED_TIME : Duration := from_secs 30.
Definition DEFAULT_RETRYING_MAX_ELAPSED_TIME_STR : string := "30".
Definition SERVER_NAME : string := "maidsafe.net".

Record RetryConfig := mkRetryConfig
  { initial_retry_interval : Duration;
    max_retry_interval : Duration;
    retry_delay_multiplier : float;
    retry_delay_rand_factor : float;
    retrying_max_elapsed_time : Duration }.

Definition RetryConfig_default : RetryConfig :=
  {| initial_retry_interval := DEFAULT_INITIAL_RETRY_INTERVAL;
     max_retry_interval := DEFAULT_MAX_RETRY_INTERVAL;
     retry_delay_multiplier := DEFAULT_RETRY_INTERVAL_MULTIPLIER;
     retry_delay_rand_factor := DEFAULT_RETRY_DELAY_RAND_FACTOR;
     retrying_max_elapsed_time := DEFAULT_RETRYING_MAX_ELAPSED_TIME |}.

Record Config := mkConfig
  { forward_port : bool;
    external_port : option Z;
    external_ip : option IpAddr;
    idle_timeout : option Duration;
    keep_alive_interval : option Duration;
    upnp_lease_duration : option Duration;
    retry_config : RetryConfig }.

(** The derived [Default]. *)
Definition Config_default : Config :=
  {| forward_port := false;
     external_port := None;
     external_ip := None;
     idle_timeout := None;
     keep_alive_interval := None;
     upnp_lease_duration := None;
     retry_config := RetryConfig_default |}.

(** ** [parse_millis], over the standard library's [u64::from_str] *)

Inductive ParseIntError := ParseInt_Empty | ParseInt_InvalidDigit | ParseInt_PosOverflow.

Definition digit_of (c : ascii) : option Z :=
  let n := Z.of_nat (nat_of_ascii c) in
  if (48 <=? n) && (n <=? 57) then Some (n - 48) else None.

Fixpoint parse_digits (acc : Z) (s : string) : Result Z ParseIntError :=
  match s with
  | EmptyString => Ok acc
  | String c s =>
      match digit_of c with
      | None => Err ParseInt_InvalidDigit
      | Some d =>
          if acc * 10 + d <? 2 ^ 64 then parse_digits (acc * 10 + d) s
          else Err ParseInt_PosOverflow
      end
  end.

Definition u64_from_str (s : string) : Result Z ParseIntError :=
  match s with
  | EmptyString => Err ParseInt_Empty
  | String "+"%char EmptyString => Err ParseInt_InvalidDigit
  | String "+"%char s => parse_digits 0 s
  | s => parse_digits 0 s
  end.

Definition parse_millis (millis : string) : Result Duration ParseIntError :=
  and_then (u64_from_str millis) (fun ms => Ok (from_millis ms)).

(** [f64::from_str] on the numerals [d..d.d..d] of at most 15 digits: the digits as an
    integer, divided by a power of ten, both of them exact. This is the standard library's
    fast path; numerals outside of it are not covered ([None]). *)
Fixpoint split_at (c : ascii) (s : string) : option (string * string) :=
  match s with
  | EmptyString => None
  | String c' s =>
      if Ascii.eqb c' c then Some (EmptyString, s)
      else option_map (fun p => (String c' p.1, p.2)) (split_at c s)
  end.

Definition f64_from_str (s : string) : option float :=
  match split_at "." s with
  | Some (whole, fraction) =>
      if (String.length whole + String.length fraction <=? 15)%nat then
        match parse_digits 0 (whole +:+ fraction) with
        | Ok m =>
            Some (PrimFloat.of_uint63 (Uint63.of_Z m)
                  / PrimFloat.of_uint63 (Uint63.of_Z (10 ^ Z.of_nat (String.length fraction))))%float
        | Err _ => None
        end
      else None
  | None => None
  end.

(** ** The backoff policy

    The fields of [backoff::ExponentialBackoff] that [RetryConfig::retry] sets;
    the others keep their defaults. *)
Record ExponentialBackoff := mkExponentialBackoff
  { initial_interval : Duration;
    randomization_factor : float;
    multiplier : float;
    max_interval : Duration;
    max_elapsed_time : option Duration }.

Definition RetryConfig_backoff (c : RetryConfig) : ExponentialBackoff :=
  {| initial_interval := initial_retry_interval c;
     randomization_factor := retry_delay_rand_factor c;
     multiplier := retry_delay_multiplier c;
     max_interval := max_retry_interval c;
     max_elapsed_time := Some (retrying_max_elapsed_time c) |}.

Section InternalConfig.
Context {F : Foreign}.

Record InternalConfig := mkInternalConfig
  { ic_client : q_ClientConfig;
    ic_server : q_ServerConfig;
    ic_forward_port : bool;
    ic_external_port : option Z;
    ic_external_ip : option IpAddr;
    ic_upnp_lease_duration : Duration;
    ic_retry_config : RetryConfig }.

End InternalConfig.
