(* ===== verification/ErrorText.v ===== *)
(** * error.rs, config.rs, igd.rs: the texts of errors and what caused them

    [fmt::Display] of every error type and [Error::source], as thiserror derives
    them from the attributes: [#[error("..")]] is the text, [#[source]] and
    [#[from]] mark the source, [#[error(transparent)]] takes both from the error
    inside. The texts of the errors of other crates are the class [ForeignText]. *)

From Stdlib Require Import Strings.Byte.
From S2P Require Import Prelude Std Utf8 Foreign WireTypes Errors.

Local Open Scope string_scope.

Class Display (A : Type) := display : A -> string.

Section ErrorText.
Context {F : Foreign}.

(** The errors of other crates that the crate's errors contain. *)
Inductive foreign_error :=
| F_quinn (e : q_ConnectionError)
| F_connect (e : q_ConnectError)
| F_transport (e : q_TransportError)
| F_write (e : q_WriteError)
| F_read (e : q_ReadError)
| F_bincode (e : bincode_Error)
| F_io (e : io_Error)
| F_rcgen (e : rcgen_Error)
| F_rustls (e : rustls_Error)
| F_varint (e : VarIntBoundsExceeded)
| F_add_port (e : igd_AddPortError)
| F_search (e : igd_SearchError)
| F_other (e : other_error).

Class ForeignText := {
  foreign_text : foreign_error -> string;
  foreign_source : foreign_error -> option foreign_error;
  code_text : q_TransportErrorCode -> string;
  code_debug : q_TransportErrorCode -> string;
}.

Context `{!ForeignText}.

(** ** Display *)

#[export] Instance TransportErrorCode_display : Display TransportErrorCode :=
  fun '(mkTransportErrorCode c) => code_text c.

(** [fmt::Debug] of the code. *)
Definition TransportErrorCode_debug (code : TransportErrorCode) : string :=
  let '(mkTransportErrorCode c) := code in code_debug c.

#[export] Instance Close_display : Display Close :=
  fun c =>
  let closed closed_by error_code reason :=
    closed_by +:+ " (error code: " +:+ error_code +:+ ", reason: " +:+ reason +:+ ")" in
  match c with
  | Close_Local => "us"
  | Close_Application error_code reason =>
      closed "application" (dec error_code) (to_string (from_utf8_lossy reason))
  | Close_Transport error_code reason =>
      closed "transport" (display error_code) (to_string (from_utf8_lossy reason))
  end.

#[export] Instance InternalConfigError_display : Display InternalConfigError :=
  fun '(mkInternalConfigError e) => foreign_text (F_connect e).

#[export] Instance ConnectionError_display : Display ConnectionError :=
  fun e =>
  match e with
  | ConnectionError_Stopped => "The endpoint has been stopped"
  | ConnectionError_TooManyConnections =>
      "The number of active connections on the local endpoint is at the limit"
  | ConnectionError_InvalidAddress a => "Invalid remote address: " +:+ fmt_SocketAddr a
  | ConnectionError_InternalConfigError _ => "BUG: internal configuration error"
  | ConnectionError_VersionMismatch => foreign_text (F_quinn q_VersionMismatch)
  | ConnectionError_TransportError e => foreign_text (F_transport e)
  | ConnectionError_Reset => foreign_text (F_quinn q_Reset)
  | ConnectionError_TimedOut => foreign_text (F_quinn q_TimedOut)
  | ConnectionError_Closed c => "The connection was closed by " +:+ display c
  end.

#[export] Instance SerializationError_display : Display SerializationError :=
  fun '(mkSerializationError e) => foreign_text (F_bincode e).

#[export] Instance UnsupportedStreamOperation_display : Display UnsupportedStreamOperation :=
  fun op =>
  match op with
  | UnsupportedWrite e => foreign_text (F_write e)
  | UnsupportedRead e => foreign_text (F_read e)
  end.

#[export] Instance StreamError_display : Display StreamError :=
  fun e =>
  match e with
  | StreamError_Stopped code =>
      "The peer abandoned the stream (error code: " +:+ dec code +:+ ")"
  | StreamError_Gone => "The stream was already stopped, finished, or reset"
  | StreamError_Unsupported _ => "An error was caused by an unsupported operation"
  end.

#[export] Instance SendError_display : Display SendError :=
  fun e =>
  match e with
  | SendError_Serialization _ => "Failed to serialize message"
  | SendError_ConnectionLost _ => "Connection was lost when trying to send a message"
  | SendError_StreamLost _ => "Stream was lost when trying to send a message"
  end.

#[export] Instance RecvError_display : Display RecvError :=
  fun e =>
  match e with
  | RecvError_Serialization _ => "Failed to deserialize message"
  | RecvError_ConnectionLost _ => "Connection was lost when trying to receive a message"
  | RecvError_StreamLost _ => "Stream was lost when trying to receive a message"
  end.

#[export] Instance RpcError_display : Display RpcError :=
  fun e =>
  match e with
  | RpcError_TimedOut => "We did not receive a response within the expected time"
  | RpcError_Send _ => "Failed to send the request"
  | RpcError_Recv _ => "Failed to receive the response"
  end.

#[export] Instance CertificateGenerationError_display : Display CertificateGenerationError :=
  fun '(mkCertificateGenerationError e) => foreign_text (F_rcgen e).

#[export] Instance ConfigError_display : Display ConfigError :=
  fun e =>
  match e with
  | ConfigError_CertificateGeneration _ =>
      "An error occurred when generating the TLS certificate"
  | ConfigError_InvalidIdleTimeout _ => "An error occurred parsing idle timeout duration"
  | ConfigError_Rustls _ => "An error occurred within rustls"
  | ConfigError_Webpki => "An error occurred generaeting client config certificates"
  end.

#[export] Instance IgdError_display : Display IgdError :=
  fun e =>
  match e with
  | IgdError_TimedOut => "Timed out waiting for the operation to complete"
  | IgdError_NotSupported => "IGD is not supported for IPv6"
  | IgdError_AddPort e => foreign_text (F_add_port e)
  | IgdError_Search e => foreign_text (F_search e)
  end.

#[export] Instance UpnpError_display : Display UpnpError :=
  fun _ => "Failed to establish UPnP port forwarding".

#[export] Instance EndpointError_display : Display EndpointError :=
  fun e =>
  match e with
  | EndpointError_Config _ => "There was a problem with the provided configuration"
  | EndpointError_Socket _ => "Failed to bind UDP socket"
  | EndpointError_EndpointEcho peer _ =>
      "Failed to query our public address from peer " +:+ fmt_SocketAddr peer
  | EndpointError_Upnp e => display e
  | EndpointError_EndpointVerification peer _ =>
      "Failed to verify our public address with peer " +:+ fmt_SocketAddr peer
  | EndpointError_Unreachable public_addr =>
      "Our determined public address (" +:+ fmt_SocketAddr public_addr +:+ ") is not reachable"
  | EndpointError_IoError e => foreign_text (F_io e)
  end.

#[export] Instance ClientEndpointError_display : Display ClientEndpointError :=
  fun e =>
  match e with
  | ClientEndpointError_Config _ => "There was a problem with the provided configuration"
  | ClientEndpointError_Socket _ => "Failed to bind UDP socket"
  | ClientEndpointError_Io e => foreign_text (F_io e)
  end.

(** ** [Error::source] *)

(** [&dyn Error]: an error of the crate or of another one. *)
Inductive dyn_error :=
| D_Endpoint (e : EndpointError)
| D_ClientEndpoint (e : ClientEndpointError)
| D_Config (e : ConfigError)
| D_CertificateGeneration (e : CertificateGenerationError)
| D_Upnp (e : UpnpError)
| D_Igd (e : IgdError)
| D_Rpc (e : RpcError)
| D_Send (e : SendError)
| D_Recv (e : RecvError)
| D_Connection (e : ConnectionError)
| D_InternalConfig (e : InternalConfigError)
| D_Serialization (e : SerializationError)
| D_Stream (e : StreamError)
| D_Unsupported (op : UnsupportedStreamOperation)
| D_foreign (e : foreign_error).

#[export] Instance dyn_error_display : Display dyn_error :=
  fun e =>
  match e with
  | D_Endpoint e => display e
  | D_ClientEndpoint e => display e
  | D_Config e => display e
  | D_CertificateGeneration e => display e
  | D_Upnp e => display e
  | D_Igd e => display e
  | D_Rpc e => display e
  | D_Send e => display e
  | D_Recv e => display e
  | D_Connection e => display e
  | D_InternalConfig e => display e
  | D_Serialization e => display e
  | D_Stream e => display e
  | D_Unsupported op => display op
  | D_foreign e => foreign_text e
  end.

Definition foreign_cause (e : foreign_error) : option dyn_error :=
  option_map D_foreign (foreign_source e).

Definition ConfigError_source (e : ConfigError) : option dyn_error :=
  match e with
  | ConfigError_CertificateGeneration e => Some (D_CertificateGeneration e)
  | ConfigError_InvalidIdleTimeout e => Some (D_foreign (F_varint e))
  | ConfigError_Rustls e => Some (D_foreign (F_rustls e))
  | ConfigError_Webpki => None
  end.

Definition CertificateGenerationError_source (e : CertificateGenerationError) :
    option dyn_error :=
  let '(mkCertificateGenerationError e) := e in foreign_cause (F_rcgen e).

Definition IgdError_source (e : IgdError) : option dyn_error :=
  match e with
  | IgdError_TimedOut | IgdError_NotSupported => None
  | IgdError_AddPort e => foreign_cause (F_add_port e)
  | IgdError_Search e => foreign_cause (F_search e)
  end.

Definition UpnpError_source (e : UpnpError) : option dyn_error :=
  let '(mkUpnpError e) := e in Some (D_Igd e).

Definition InternalConfigError_source (e : InternalConfigError) : option dyn_error :=
  let '(mkInternalConfigError e) := e in foreign_cause (F_connect e).

Definition ConnectionError_source (e : ConnectionError) : option dyn_error :=
  match e with
  | ConnectionError_InternalConfigError e => Some (D_InternalConfig e)
  | ConnectionError_TransportError e => Some (D_foreign (F_transport e))
  | _ => None
  end.

Definition SerializationError_source (e : SerializationError) : option dyn_error :=
  let '(mkSerializationError e) := e in foreign_cause (F_bincode e).

Definition UnsupportedStreamOperation_source (op : UnsupportedStreamOperation) :
    option dyn_error :=
  match op with
  | UnsupportedWrite e => foreign_cause (F_write e)
  | UnsupportedRead e => foreign_cause (F_read e)
  end.

Definition StreamError_source (e : StreamError) : option dyn_error :=
  match e with StreamError_Unsupported op => Some (D_Unsupported op) | _ => None end.

Definition SendError_source (e : SendError) : option dyn_error :=
  match e with
  | SendError_Serialization e => Some (D_Serialization e)
  | SendError_ConnectionLost e => Some (D_Connection e)
  | SendError_StreamLost e => Some (D_Stream e)
  end.

Definition RecvError_source (e : RecvError) : option dyn_error :=
  match e with
  | RecvError_Serialization e => Some (D_Serialization e)
  | RecvError_ConnectionLost e => Some (D_Connection e)
  | RecvError_StreamLost e => Some (D_Stream e)
  end.

Definition RpcError_source (e : RpcError) : option dyn_error :=
  match e with
  | RpcError_TimedOut => None
  | RpcError_Send e => Some (D_Send e)
  | RpcError_Recv e => Some (D_Recv e)
  end.

Definition EndpointError_source (e : EndpointError) : option dyn_error :=
  match e with
  | EndpointError_Config e => Some (D_Config e)
  | EndpointError_Socket e => Some (D_foreign (F_io e))
  | EndpointError_EndpointEcho _ error => Some (D_Rpc error)
  | EndpointError_Upnp e => UpnpError_source e
  | EndpointError_EndpointVerification _ error => Some (D_Rpc error)
  | EndpointError_Unreachable _ => None
  | EndpointError_IoError e => foreign_cause (F_io e)
  end.

Definition ClientEndpointError_source (e : ClientEndpointError) : option dyn_error :=
  match e with
  | ClientEndpointError_Config e => Some (D_Config e)
  | ClientEndpointError_Socket e => Some (D_foreign (F_io e))
  | ClientEndpointError_Io e => foreign_cause (F_io e)
  end.

Definition dyn_source (e : dyn_error) : option dyn_error :=
  match e with
  | D_Endpoint e => EndpointError_source e
  | D_ClientEndpoint e => ClientEndpointError_source e
  | D_Config e => ConfigError_source e
  | D_CertificateGeneration e => CertificateGenerationError_source e
  | D_Upnp e => UpnpError_source e
  | D_Igd e => IgdError_source e
  | D_Rpc e => RpcError_source e
  | D_Send e => SendError_source e
  | D_Recv e => RecvError_source e
  | D_Connection e => ConnectionError_source e
  | D_InternalConfig e => InternalConfigError_source e
  | D_Serialization e => SerializationError_source e
  | D_Stream e => StreamError_source e
  | D_Unsupported op => UnsupportedStreamOperation_source op
  | D_foreign e => foreign_cause e
  end.

(** The chain of causes, down to the first error of another crate; [None] when the
    fuel runs out ([chain_total]: six is enough for every error). *)
Fixpoint chain (fuel : nat) (e : dyn_error) : option (list dyn_error) :=
  match fuel with
  | O => None
  | S fuel =>
      match e with
      | D_foreign _ => Some [e]
      | _ =>
          match dyn_source e with
          | None => Some [e]
          | Some e' => option_map (cons e) (chain fuel e')
          end
      end
  end.

Definition causes (e : dyn_error) : option (list dyn_error) := chain 6 e.

End ErrorText.
