(* ===== verification/TextFacts.v ===== *)
(** * Properties of the errors' texts and causes *)

From Stdlib Require Import Strings.Byte.
From S2P Require Import Prelude Std Utf8 Foreign WireTypes Errors ErrorText.

Local Open Scope Z_scope.

(** ** The reason of a close *)

Section Texts.
Context {F : Foreign} {FT : ForeignText}.

(** A reason that is UTF-8 is shown as it is. *)
Lemma close_reason_shown code reason :
  utf8 reason ->
  display (Close_Application code reason)
  = ("application (error code: " +:+ dec code +:+ ", reason: " +:+ to_string reason +:+ ")")%string.
Proof. intros Hr. cbn [display Close_display]. by rewrite from_utf8_lossy_id. Qed.

End Texts.

(** ** Causes *)

Section Causes.
Context {F : Foreign} {FT : ForeignText}.

(** An error at which a chain of causes ends: it has no source, or is not ours. *)
Definition root_cause (e : dyn_error) : Prop :=
  (exists f, e = D_foreign f) \/ dyn_source e = None.

Inductive cause_chain : dyn_error -> list dyn_error -> Prop :=
| cause_root e : root_cause e -> cause_chain e [e]
| cause_step e e' l : dyn_source e = Some e' -> cause_chain e' l -> cause_chain e (e :: l).

Lemma chain_unfold n e :
  (exists f, e = D_foreign f /\ chain (S n) e = Some [e])
  \/ chain (S n) e = match dyn_source e with
                     | None => Some [e]
                     | Some e' => option_map (cons e) (chain n e')
                     end.
Proof. destruct e; eauto. Qed.

Lemma chain_sound fuel e l : chain fuel e = Some l -> cause_chain e l.
Proof.
  revert e l. induction fuel as [|fuel IH]; intros e l; [done|].
  destruct (chain_unfold fuel e) as [(f & -> & ->)| ->].
  - intros [= <-]. constructor. left. eauto.
  - destruct (dyn_source e) as [e'|] eqn:Es; [|intros [= <-]; constructor; by right].
    destruct (chain fuel e') as [l'|] eqn:Ec; [|done]. intros [= <-].
    econstructor; [done|by apply IH].
Qed.

Definition deep (n : nat) (e : dyn_error) : Prop :=
  exists l, chain n e = Some l /\ (length l <= n)%nat.

Lemma deep_none n e : dyn_source e = None -> deep (S n) e.
Proof.
  intros He. destruct (chain_unfold n e) as [(f & _ & H)|H]; [|rewrite He in H];
    exists [e]; (split; [done|cbn; lia]).
Qed.

Lemma deep_step n e e' : dyn_source e = Some e' -> deep n e' -> deep (S n) e.
Proof.
  intros He (l & Hl & Hk). destruct (chain_unfold n e) as [(f & _ & H)|H].
  - exists [e]. split; [done|cbn; lia].
  - rewrite He, Hl in H. exists (e :: l). split; [done|cbn; lia].
Qed.

Lemma deep_other n f : deep (S n) (D_foreign f).
Proof. exists [D_foreign f]. split; [done|cbn; lia]. Qed.

Lemma deep_foreign n e f : dyn_source e = foreign_cause f -> deep (S (S n)) e.
Proof.
  unfold foreign_cause. destruct (foreign_source f); cbn; intros H; [|by apply deep_none].
  eapply deep_step; [done|apply deep_other].
Qed.

Ltac deep :=
  cbn; first [apply deep_other | by apply deep_none | by eapply deep_foreign
             | eapply deep_step; [reflexivity|]].

Lemma deep_connection n e : deep (3 + n) (D_Connection e).
Proof. destruct e as [| | |[]| | | | |]; repeat deep. Qed.

Lemma deep_stream n e : deep (3 + n) (D_Stream e).
Proof. destruct e as [| |[]]; repeat deep. Qed.

Lemma deep_send n e : deep (4 + n) (D_Send e).
Proof. destruct e as [[]| |]; repeat deep; [apply deep_connection|apply deep_stream]. Qed.

Lemma deep_recv n e : deep (4 + n) (D_Recv e).
Proof. destruct e as [[]| |]; repeat deep; [apply deep_connection|apply deep_stream]. Qed.

Lemma deep_rpc n e : deep (5 + n) (D_Rpc e).
Proof. destruct e; repeat deep; [apply deep_send|apply deep_recv]. Qed.

Lemma deep_config n e : deep (3 + n) (D_Config e).
Proof. destruct e as [[]| | |]; repeat deep. Qed.

Lemma deep_upnp n e : deep (3 + n) (D_Upnp e).
Proof. destruct e as [[]]; repeat deep. Qed.

Lemma deep_all e : deep 6 e.
Proof.
  destruct e as [[| | |[[]]| | |]|[]|e|[]|e|[]|e|e|e|e|[]|[]|e|[]|e];
    repeat deep;
    first [apply deep_config | apply deep_rpc | apply deep_upnp | apply deep_send
          | apply deep_recv | apply deep_connection | apply deep_stream].
Qed.

(** From every error of the crate, following the sources ends after at most six
    errors, at an error of another crate or at one that has no further cause. *)
Lemma causes_total e :
  exists l, causes e = Some l /\ cause_chain e l /\ (length l <= 6)%nat.
Proof.
  destruct (deep_all e) as (l & Hl & Hk). exists l. eauto using chain_sound.
Qed.

(** An RPC that failed because of its connection shows the connection's error. *)
Lemma rpc_keeps_connection_error (e : ConnectionError) l :
  causes (D_Rpc (from e)) = Some l -> D_Connection e ∈ l.
Proof.
  change (causes (D_Rpc (from e)))
    with (option_map (cons (D_Rpc (from e)))
            (option_map (cons (D_Send (from e))) (chain 4 (D_Connection e)))).
  destruct (chain 4 (D_Connection e)) as [k|] eqn:Ek; [|done]. intros [= <-].
  apply chain_sound in Ek. inversion Ek; subst; set_solver.
Qed.

End Causes.
