(* ===== verification/Eyre.v ===== *)
(** * eyre::Report: the errors of the example and of the tests

    A report keeps the error it is made from, or what [bail!] was given: its literal and
    the value that it formats. *)

From S2P Require Import Prelude Std Foreign WireTypes Errors ErrorText.

Section Eyre.
Context {F : Foreign}.

(** The values that the tests format in a message of [bail!]. *)
Inductive bail_arg :=
| Bail_nothing
| Bail_message (msg : WireMsg)
| Bail_sent (res : Result unit SendError)
| Bail_received (res : Result (option Bytes) RecvError).

Inductive Report :=
| Report_install (e : color_eyre_Error)
| Report_of (e : dyn_error)
| Report_elapsed (e : Elapsed)
| Report_addr_parse
| Report_bail (message : string) (arg : bail_arg).

#[export] Instance Report_from_install : From color_eyre_Error Report := Report_install.

#[export] Instance Report_from_EndpointError : From EndpointError Report :=
  fun e => Report_of (D_Endpoint e).

#[export] Instance Report_from_ClientEndpointError : From ClientEndpointError Report :=
  fun e => Report_of (D_ClientEndpoint e).

#[export] Instance Report_from_ConfigError : From ConfigError Report :=
  fun e => Report_of (D_Config e).

#[export] Instance Report_from_ConnectionError : From ConnectionError Report :=
  fun e => Report_of (D_Connection e).

#[export] Instance Report_from_SendError : From SendError Report :=
  fun e => Report_of (D_Send e).

#[export] Instance Report_from_RecvError : From RecvError Report :=
  fun e => Report_of (D_Recv e).

#[export] Instance Report_from_io : From io_Error Report :=
  fun e => Report_of (D_foreign (F_io e)).

#[export] Instance Report_from_ConnectError : From q_ConnectError Report :=
  fun e => Report_of (D_foreign (F_connect e)).

#[export] Instance Report_from_quinn : From q_ConnectionError Report :=
  fun e => Report_of (D_foreign (F_quinn e)).

#[export] Instance Report_from_Elapsed : From Elapsed Report := Report_elapsed.

End Eyre.
