(* ===== verification/Effects.v ===== *)
(** * The calls of the crate into its environment

    [ev T] is a call whose answer has type [T]: the methods of quinn's handles,
    the tokio channels, locks, timers and tasks, igd's gateway and rcgen's
    certificate generator. The handles the crate itself defines around them
    ([Connection], [ConnectionIncoming], the items of its channels) are here
    because channels carry them. *)

From S2P Require Import Prelude Std Foreign WireTypes Errors ConfigTypes Prog.

Section Effects.
Context {F : Foreign}.

(** [struct SendStream { inner: quinn::SendStream }]. The [Arc<Mutex<_>>] around
    it is one lock per stream, named by the stream. *)
Record SendStream := mkSendStream { ss_inner : q_SendStream }.

Record RecvStream := mkRecvStream { rs_inner : q_RecvStream }.

Record Connection := mkConnection
  { conn_inner : q_Connection;
    default_retry_config : option RetryConfig;
    conn_alive_tx : AliveTx }.

Record ConnectionIncoming := mkConnectionIncoming
  { message_rx : MessageRx;
    incoming_alive_tx : AliveTx }.

(** An item of the message channel. *)
Abbreviation MessageItem := (Result (Bytes * option SendStream) RecvError).

(** The background tasks, with the values they capture. *)
Inductive task :=
| ListenOnUniStreams (peer_addr : SocketAddr) (s : q_IncomingUniStreams)
    (alive : AliveRx) (tx : MessageTx)
| ListenOnBiStreams (ep : q_Endpoint) (peer_addr : SocketAddr) (s : q_IncomingBiStreams)
    (alive : AliveRx) (tx : MessageTx)
| ListenForIncomingConnections (inc : q_Incoming) (tx : ConnectionTx) (ep : q_Endpoint)
    (cfg : RetryConfig)
| RenewPortPeriodically (ext_port : Z) (local_addr : SocketAddr) (lease_interval : Duration)
    (lease_interval_u32 : Z) (rx : TerminationRx).

Inductive ev : Type -> Type :=
(* quinn::Endpoint *)
| EndpointServer (cfg : q_ServerConfig) (a : SocketAddr) :
    ev (Result (q_Endpoint * q_Incoming) io_Error)
| EndpointClient (a : SocketAddr) : ev (Result q_Endpoint io_Error)
| EndpointLocalAddr (ep : q_Endpoint) : ev (Result SocketAddr io_Error)
| SetDefaultClientConfig (ep : q_Endpoint) (cfg : q_ClientConfig) : ev unit
| Connect (ep : q_Endpoint) (a : SocketAddr) (server_name : string) :
    ev (Result q_Connecting q_ConnectError)
| AwaitConnecting (c : q_Connecting) : ev (Result q_NewConnection q_ConnectionError)
| EndpointClose (ep : q_Endpoint) (code : Z) (reason : Bytes) : ev unit
| NextIncoming (inc : q_Incoming) : ev (option q_Connecting)
| WaitIdle (ep : q_Endpoint) : ev unit
(* quinn::Connection *)
| RemoteAddress (c : q_Connection) : ev SocketAddr
| StableId (c : q_Connection) : ev Z
| OpenUni (c : q_Connection) : ev (Result q_SendStream q_ConnectionError)
| OpenBi (c : q_Connection) : ev (Result (q_SendStream * q_RecvStream) q_ConnectionError)
| ConnectionClose (c : q_Connection) (code : Z) (reason : Bytes) : ev unit
| NextUni (s : q_IncomingUniStreams) : ev (option (Result q_RecvStream q_ConnectionError))
| NextBi (s : q_IncomingBiStreams) :
    ev (option (Result (q_SendStream * q_RecvStream) q_ConnectionError))
(* quinn's streams; a read returns the bytes it put at the front of the buffer *)
| SetPriority (s : q_SendStream) (priority : Z) : ev bool
| WriteAll (s : q_SendStream) (data : Bytes) : ev (Result unit q_WriteError)
| Finish (s : q_SendStream) : ev (Result unit q_WriteError)
| Read (s : q_RecvStream) (len : nat) : ev (Result (option Bytes) q_ReadError)
| ReadExact (s : q_RecvStream) (len : nat) : ev (Result Bytes q_ReadExactError)
(* tokio *)
| NewMessageChannel (cap : Z) : ev (MessageTx * MessageRx)
| NewConnectionChannel (cap : Z) : ev (ConnectionTx * ConnectionRx)
| NewAliveChannel : ev (AliveTx * AliveRx)
| NewTerminationChannel (cap : Z) : ev (TerminationTx * TerminationRx)
| SendMessage (tx : MessageTx) (item : MessageItem) : ev (Result unit MessageItem)
| RecvMessage (rx : MessageRx) : ev (option MessageItem)
| SendConnection (tx : ConnectionTx) (c : Connection * ConnectionIncoming) : ev bool
| RecvConnection (rx : ConnectionRx) : ev (option (Connection * ConnectionIncoming))
| TryRecvConnection (rx : ConnectionRx) :
    ev (Result (Connection * ConnectionIncoming) mpsc_TryRecvError)
| SendTermination (tx : TerminationTx) : ev bool
| TryRecvTermination (rx : TerminationRx) : ev (Result unit broadcast_TryRecvError)
| LockStream (s : q_SendStream) : ev unit
| UnlockStream (s : q_SendStream) : ev unit
| Spawn (t : task) : ev unit
| Tick (period : Duration) : ev unit
| Sleep (d : Duration) : ev unit
(* igd and rcgen *)
| SearchGateway : ev (Result igd_Gateway igd_SearchError)
| GatewayAddPort (gw : igd_Gateway) (ext_port : Z) (local_addr : SocketAddrV4)
    (lease_duration : Z) (description : string) : ev (Result unit igd_AddPortError)
| GenerateSimpleSelfSigned (names : list string) :
    ev (Result rcgen_Certificate rcgen_Error)
(* the environment of the example: [None] and [false] are the panics of std on an argument
   that is not Unicode and on a broken standard output *)
| InstallColorEyre : ev (Result unit color_eyre_Error)
| EnvArgs : ev (option (list string))
| Println (line : string) : ev bool.

End Effects.

Abbreviation MessageItem := (Result (Bytes * option SendStream) RecvError).
Abbreviation io := (prog ev).

(** The calls the crate awaits; the others are synchronous functions. *)
#[export] Instance ev_awaited {F : Foreign} : Awaited ev := fun T e =>
  match e with
  | AwaitConnecting _ | NextIncoming _ | WaitIdle _ | OpenUni _ | OpenBi _ | NextUni _
  | NextBi _ | WriteAll _ _ | Finish _ | Read _ _ | ReadExact _ _ | SendMessage _ _
  | RecvMessage _ | SendConnection _ _ | RecvConnection _ | LockStream _ | Tick _ | Sleep _
  | SearchGateway | GatewayAddPort _ _ _ _ _ => true
  | _ => false
  end.

(** [tokio::time::timeout]. *)
Definition timeout {F : Foreign} {A} (d : Duration) (p : io A) : io (Result A Elapsed) :=
  bind (within (Timer d) p)
    (fun r => Ret (match r with Some a => Ok a | None => Err mkElapsed end)).
