(* ===== verification/Wire.v ===== *)
(** * wire_msg.rs: framing of messages on QUIC streams

    The nine-byte header and the two functions that write a message to and read
    a message from a stream. bincode is the class [Bincode]; what the crate
    relies on is [BincodeLaws]. *)

From Stdlib Require Import Strings.Byte.
From S2P Require Import Prelude Std Foreign WireTypes Errors ConfigTypes Prog Effects.

Local Open Scope Z_scope.
Local Open Scope prog_scope.

Definition MSG_HEADER_LEN : nat := 9.
Definition MSG_PROTOCOL_VERSION : Z := 1.
Definition USER_MSG_FLAG : byte := x00.
Definition ECHO_SRVC_MSG_FLAG : byte := x01.

(** Header: version ([u16]), length ([u32]), flag and two reserved bytes. *)
Record MsgHeader := mkMsgHeader
  { version : Z;
    data_len : Z;
    usr_msg_flag : byte;
    reserved : byte * byte }.

(** Element [i] of an array whose length is known when the crate is compiled. *)
Definition byte_at (bytes : Bytes) (i : nat) : byte := nth i bytes x00.

Definition MsgHeader_wf (h : MsgHeader) : Prop :=
  u16_range (version h) /\ u32_range (data_len h) /\ reserved h = (x00, x00).

Definition to_bytes (h : MsgHeader) : Bytes :=
  let version := to_be_bytes 2 (version h) in
  let data_len := to_be_bytes 4 (data_len h) in
  [byte_at version 0; byte_at version 1; byte_at data_len 0; byte_at data_len 1;
   byte_at data_len 2; byte_at data_len 3; usr_msg_flag h; x00; x00].

Definition from_bytes (bytes : Bytes) : MsgHeader :=
  {| version := from_be_bytes [byte_at bytes 0; byte_at bytes 1];
     data_len := from_be_bytes
       [byte_at bytes 2; byte_at bytes 3; byte_at bytes 4; byte_at bytes 5];
     usr_msg_flag := byte_at bytes 6;
     reserved := (x00, x00) |}.

(** A call that fills [buf] from index [off] on. *)
Definition overwrite (buf : Bytes) (off : nat) (bs : Bytes) : Bytes :=
  take off buf ++ bs ++ drop (off + length bs) buf.

(** bincode with its default options, at the type [WireMsg]. *)
Class Bincode {F : Foreign} := {
  serialize : WireMsg -> Result Bytes bincode_Error;
  deserialize : Bytes -> Result WireMsg bincode_Error;
}.

Class BincodeLaws {F : Foreign} {B : Bincode} := {
  (** what was serialized is read back *)
  deserialize_serialize m bs : serialize m = Ok bs -> deserialize bs = Ok m;
  (** an enum is encoded with its variant index first *)
  serialize_nonempty m bs : serialize m = Ok bs -> bs <> [];
}.

Section Wire.
Context {F : Foreign} {Bc : Bincode}.

Definition too_long (len : Z) : SerializationError :=
  SerializationError_new
    ("The serialized message is too long (" +:+ dec len +:+ " bytes, max: 4 GiB)").

Definition MsgHeader_new (msg : Bytes) (flag : byte) : Result MsgHeader SendError :=
  match u32_try_from (zlen msg) with
  | None => Err (from (too_long (zlen msg)))
  | Some len =>
      Ok {| version := MSG_PROTOCOL_VERSION; data_len := len; usr_msg_flag := flag;
            reserved := (x00, x00) |}
  end.

Definition empty_message : SerializationError :=
  SerializationError_new "Empty message received from peer".

Definition invalid_flag (flag : byte) : SerializationError :=
  SerializationError_new
    ("Invalid message type flag found in message header: " +:+ dec (u8 flag)).

(** The message that a header's flag and the data after it stand for. *)
Definition interpret (flag : byte) (data : Bytes) : Result (option WireMsg) RecvError :=
  if bool_decide (data = []) then Err (from empty_message)
  else if bool_decide (flag = USER_MSG_FLAG) then Ok (Some (UserMsg data))
  else if bool_decide (flag = ECHO_SRVC_MSG_FLAG) then
    match deserialize data with
    | Ok m => Ok (Some m)
    | Err e => Err (from e)
    end
  else Err (from (invalid_flag flag)).

(** From the complete header on. *)
Definition read_data (recv : q_RecvStream) (header_bytes : Bytes) :
    io (Result (option WireMsg) RecvError) :=
  let msg_header := from_bytes header_bytes in
  let* data_length := or_panic (vec_zeroed (data_len msg_header)) in
  let? data := call (ReadExact recv data_length) in
  Ret (interpret (usr_msg_flag msg_header) data).

(** The rest of the header, when the first read returned only part of it. *)
Definition read_header_rest (recv : q_RecvStream) (header_bytes : Bytes) (len : nat) :
    io (Result Bytes RecvError) :=
  if (len <? MSG_HEADER_LEN)%nat then
    let* rest_length := or_panic (slice_from MSG_HEADER_LEN len) in
    let? rest := call (ReadExact recv rest_length) in
    Ret (Ok (overwrite header_bytes len rest))
  else Ret (Ok header_bytes).

Definition read_from_stream (recv : q_RecvStream) : io (Result (option WireMsg) RecvError) :=
  let header_bytes := replicate MSG_HEADER_LEN x00 in
  let* r := call (Read recv MSG_HEADER_LEN) in
  match map_err from r : Result (option Bytes) RecvError with
  | Err (RecvError_ConnectionLost error) =>
      if is_benign error then Ret (Ok None)
      else Ret (Err (RecvError_ConnectionLost error))
  | Err error => Ret (Err error)
  | Ok None => Ret (Ok None)
  | Ok (Some bs) =>
      let? header_bytes :=
        read_header_rest recv (overwrite header_bytes 0 bs) (length bs) in
      read_data recv header_bytes
  end.

(** The payload of a message and its flag. *)
Definition payload (m : WireMsg) : Result (Bytes * byte) bincode_Error :=
  match m with
  | UserMsg m => Ok (m, USER_MSG_FLAG)
  | _ => and_then (serialize m) (fun bs => Ok (bs, ECHO_SRVC_MSG_FLAG))
  end.

Definition write_to_stream (m : WireMsg) (send_stream : q_SendStream) :
    io (Result unit SendError) :=
  let? (msg_bytes, msg_flag) := Ret (payload m) in
  let? msg_header := Ret (MsgHeader_new msg_bytes msg_flag) in
  let? _ := call (WriteAll send_stream (to_bytes msg_header)) in
  let? _ := call (WriteAll send_stream msg_bytes) in
  Ret (Ok tt).

End Wire.
