(* ===== verification/StreamSpec.v ===== *)
(** * What a QUIC stream delivers, and the reference decoder

    The specification side of the framing: a receiving stream is the bytes that
    will arrive on it and the way it ends; [conforms] says that the reads of a
    trace got what quinn documents for such streams ([read] returns a non-empty
    prefix of at most the buffer's length, [read_exact] fills the buffer or fails).
    [decode] is the message such a stream starts with, as a function of the bytes
    alone; [frame] is the bytes of a message. *)

From Stdlib Require Import Strings.Byte.
From S2P Require Import Prelude Std Foreign WireTypes Errors ConfigTypes Prog Effects Wire.

Local Open Scope Z_scope.

Section Spec.
Context {F : Foreign} {Bc : Bincode}.

(** The peer finished the stream, or reading it fails with an error; reads after an error
    end in some way too, not necessarily with the same error. *)
Inductive ending := Finished | Failed (e : q_ReadError) (next : ending).

(** How the stream goes on after its end was reported. *)
Definition after (e : ending) : ending :=
  match e with Finished => Finished | Failed _ next => next end.

Record stream := mkStream { content : Bytes; ends : ending }.

(** The net: what each receiving stream still holds. *)
Abbreviation net := (q_RecvStream -> stream).

Inductive read_ok : stream -> nat -> Result (option Bytes) q_ReadError -> stream -> Prop :=
| read_some c e n k :
    (0 < k <= n)%nat -> (k <= length c)%nat ->
    read_ok (mkStream c e) n (Ok (Some (take k c))) (mkStream (drop k c) e)
| read_finished n :
    read_ok (mkStream [] Finished) n (Ok None) (mkStream [] Finished)
| read_failed e next n :
    read_ok (mkStream [] (Failed e next)) n (Err e) (mkStream [] next).

Definition exact_error (e : ending) : q_ReadExactError :=
  match e with Finished => q_FinishedEarly | Failed e _ => q_ReadExactReadError e end.

Inductive read_exact_ok : stream -> nat -> Result Bytes q_ReadExactError -> stream -> Prop :=
| read_exact_full c e n :
    (n <= length c)%nat ->
    read_exact_ok (mkStream c e) n (Ok (take n c)) (mkStream (drop n c) e)
| read_exact_short c e n :
    (length c < n)%nat ->
    read_exact_ok (mkStream c e) n (Err (exact_error e)) (mkStream [] (after e)).

Definition others_unchanged (s : q_RecvStream) (n n' : net) : Prop :=
  forall t, t <> s -> n' t = n t.

Definition unchanged (n n' : net) : Prop := forall t, n' t = n t.

Definition event_conforms (n : net) (v : event ev) (n' : net) : Prop :=
  match v with
  | Ev e x =>
      match e in ev T return T -> Prop with
      | Read s len => fun a => read_ok (n s) len a (n' s) /\ others_unchanged s n n'
      | ReadExact s len => fun a => read_exact_ok (n s) len a (n' s) /\ others_unchanged s n n'
      | _ => fun _ => unchanged n n'
      end x
  end.

Fixpoint conforms (n : net) (tr : list (event ev)) (n' : net) : Prop :=
  match tr with
  | [] => unchanged n n'
  | v :: tr => exists n1, event_conforms n v n1 /\ conforms n1 tr n'
  end.

(** ** The reference decoder *)

(** The error of a stream that ends inside a message. *)
Definition cut_short (e : ending) : RecvError :=
  match e with
  | Finished =>
      RecvError_Serialization (SerializationError_new "Received too few bytes for message")
  | Failed e _ => from e
  end.

(** The end of a stream between two messages: benign connection loss is a
    normal end. *)
Definition at_end (e : ending) : Result (option WireMsg) RecvError :=
  match e with
  | Finished => Ok None
  | Failed e _ =>
      match from e : RecvError with
      | RecvError_ConnectionLost error =>
          if is_benign error then Ok None else Err (RecvError_ConnectionLost error)
      | error => Err error
      end
  end.

(** The result of reading one message, and what is left of the stream. *)
Definition decode (s : stream) : Result (option WireMsg) RecvError * stream :=
  let ended := mkStream [] (after (ends s)) in
  if bool_decide (content s = []) then (at_end (ends s), ended)
  else if (length (content s) <? MSG_HEADER_LEN)%nat then (Err (cut_short (ends s)), ended)
  else
    let h := from_bytes (take MSG_HEADER_LEN (content s)) in
    let rest := drop MSG_HEADER_LEN (content s) in
    let n := Z.to_nat (data_len h) in
    if (length rest <? n)%nat then (Err (cut_short (ends s)), ended)
    else (interpret (usr_msg_flag h) (take n rest), mkStream (drop n rest) (ends s)).

(** The frame of a message, when it can be sent. *)
Definition frame (m : WireMsg) : option Bytes :=
  match payload m with
  | Ok (p, flag) =>
      match MsgHeader_new p flag with
      | Ok h => Some (to_bytes h ++ p)
      | Err _ => None
      end
  | Err _ => None
  end.

(** The bytes successfully written to a sending stream along a trace. *)
Definition event_written `{!EqDecision q_SendStream} (s : q_SendStream) (v : event ev) : Bytes :=
  match v with
  | Ev e x =>
      match e in ev T return T -> Bytes with
      | WriteAll s' data => fun a =>
          match a with
          | Ok _ => if decide (s' = s) then data else []
          | Err _ => []
          end
      | _ => fun _ => []
      end x
  end.

Definition written `{!EqDecision q_SendStream} (s : q_SendStream) (tr : list (event ev)) : Bytes :=
  concat (map (event_written s) tr).

(** Reading messages until the stream gives no more or fails; [None] when the
    fuel runs out ([decode_all_total]: it does not with more fuel than bytes). *)
Fixpoint decode_all (fuel : nat) (s : stream) : option (list WireMsg * Result unit RecvError) :=
  match fuel with
  | O => None
  | S fuel =>
      match decode s with
      | (Ok (Some m), s') =>
          match decode_all fuel s' with Some (ms, r) => Some (m :: ms, r) | None => None end
      | (Ok None, _) => Some ([], Ok tt)
      | (Err e, _) => Some ([], Err e)
      end
  end.

End Spec.
