(* ===== verification/WireFacts.v ===== *)
(** * Correctness of the framing

    Header round trips, [read_from_stream] refines the reference decoder on every
    conforming stream and always has a conforming run, [write_to_stream] writes
    exactly the frame, and what is written in order is read back in order. *)

From Stdlib Require Import Strings.Byte.
From S2P Require Import Prelude Std Foreign WireTypes Errors ConfigTypes Prog ProgFacts Effects.
From S2P Require Import Wire StreamSpec.

Local Open Scope Z_scope.

(** ** The header *)

Lemma length_to_bytes h : length (to_bytes h) = MSG_HEADER_LEN.
Proof. done. Qed.

Lemma byte_at_list2 l : length l = 2%nat -> [byte_at l 0; byte_at l 1] = l.
Proof. by destruct l as [|? [|? [|]]]. Qed.

Lemma byte_at_list4 l :
  length l = 4%nat -> [byte_at l 0; byte_at l 1; byte_at l 2; byte_at l 3] = l.
Proof. by destruct l as [|? [|? [|? [|? [|]]]]]. Qed.

Lemma from_to_bytes h : MsgHeader_wf h -> from_bytes (to_bytes h) = h.
Proof.
  intros (Hv & Hl & Hr). destruct h as [v l f r]. unfold from_bytes, to_bytes in *. cbn [version data_len usr_msg_flag reserved] in *.
  cbn [byte_at nth].
  rewrite byte_at_list2, byte_at_list4 by apply length_to_be_bytes.
  rewrite !from_to_be_bytes, !Z.mod_small by done.
  by subst.
Qed.

(** A header that fits its fields survives the trip over the wire. *)
Lemma header_roundtrip h : MsgHeader_wf h -> from_bytes (to_bytes h) = h.
Proof. apply from_to_bytes. Qed.

(** Decoding any nine bytes and encoding again keeps the seven meaningful ones
    and clears the two reserved ones. *)
Lemma header_bytes_roundtrip bs :
  length bs = MSG_HEADER_LEN -> to_bytes (from_bytes bs) = take 7 bs ++ [x00; x00].
Proof.
  destruct bs as [|b0 [|b1 [|b2 [|b3 [|b4 [|b5 [|b6 [|b7 [|b8 [|]]]]]]]]]]; try done.
  intros _. unfold to_bytes, from_bytes. cbn [version data_len usr_msg_flag].
  rewrite (to_from_be_bytes [_; _]).
  by rewrite (to_from_be_bytes [_; _; _; _]).
Qed.

Section Facts.
Context {F : Foreign} {Bc : Bincode}.

(** ** Reading *)

Lemma overwrite_header bs :
  (length bs <= MSG_HEADER_LEN)%nat ->
  overwrite (replicate MSG_HEADER_LEN x00) 0 bs = bs ++ replicate (MSG_HEADER_LEN - length bs) x00.
Proof. intros H. unfold overwrite. by rewrite Nat.add_0_l, drop_replicate. Qed.

Lemma overwrite_rest bs k rest :
  length rest = k ->
  overwrite (bs ++ replicate k x00) (length bs) rest = bs ++ rest.
Proof.
  intros H. unfold overwrite.
  rewrite take_app_length, drop_ge, app_nil_r; [done|].
  rewrite length_app, length_replicate. lia.
Qed.

(** The data of a message fits in a vector. *)
Lemma vec_zeroed_data hb :
  vec_zeroed (data_len (from_bytes hb)) = Some (Z.to_nat (data_len (from_bytes hb))).
Proof.
  unfold vec_zeroed. cbn [from_bytes data_len].
  pose proof (from_be_bytes_range [byte_at hb 2; byte_at hb 3; byte_at hb 4; byte_at hb 5]) as Hr.
  destruct (Z.leb_spec (from_be_bytes [byte_at hb 2; byte_at hb 3; byte_at hb 4; byte_at hb 5])
    isize_MAX) as [|Hlt]; [done|]. exfalso.
  unfold zlen in Hr. cbn [length] in Hr. change (256 ^ Z.of_nat 4) with 4294967296 in Hr.
  change isize_MAX with 9223372036854775807 in Hlt. lia.
Qed.

(** The rest of the header is a slice of it. *)
Lemma slice_from_header len :
  (len < MSG_HEADER_LEN)%nat -> slice_from MSG_HEADER_LEN len = Some (MSG_HEADER_LEN - len)%nat.
Proof.
  intros H. unfold slice_from, usize_sub. by destruct (Nat.leb_spec len MSG_HEADER_LEN); [|lia].
Qed.

Lemma read_data_spec s hb tr r n n' :
  runs (read_data s hb) tr (Done r) -> conforms n tr n' ->
  let h := from_bytes hb in
  let len := Z.to_nat (data_len h) in
  (if (length (content (n s)) <? len)%nat
   then r = Err (cut_short (ends (n s))) /\ n' s = mkStream [] (after (ends (n s)))
   else r = interpret (usr_msg_flag h) (take len (content (n s)))
        /\ n' s = mkStream (drop len (content (n s))) (ends (n s)))
  /\ others_unchanged s n n'.
Proof.
  unfold read_data. rewrite vec_zeroed_data. cbn [or_panic bind]. intros Hr Hc. cbn zeta. destruct (n s) as [c e] eqn:Es. cbn [content ends].
  set (len := Z.to_nat (data_len (from_bytes hb))) in *.
  run_inv; cbn in Hc; destruct Hc as (n1 & [Hx Ho] & Hu);
    (assert (others_unchanged s n n') by (intros t Ht; rewrite Hu; auto));
    rewrite Es in Hx; rewrite Hu; inversion Hx; subst; destruct (Nat.ltb_spec (length c) len);
    try lia; split_and!; auto.
  by destruct e.
Qed.

Lemma others_unchanged_trans s n n1 n2 :
  others_unchanged s n n1 -> others_unchanged s n1 n2 -> others_unchanged s n n2.
Proof. intros H1 H2 t Ht. rewrite H2 by done. auto. Qed.

Lemma decode_header hb c e :
  length hb = MSG_HEADER_LEN ->
  decode (mkStream (hb ++ c) e) =
    let len := Z.to_nat (data_len (from_bytes hb)) in
    if (length c <? len)%nat then (Err (cut_short e), mkStream [] (after e))
    else (interpret (usr_msg_flag (from_bytes hb)) (take len c), mkStream (drop len c) e).
Proof.
  intros Hl. unfold decode. cbn [content ends].
  rewrite bool_decide_eq_false_2 by (by destruct hb).
  rewrite length_app. destruct (Nat.ltb_spec (length hb + length c) MSG_HEADER_LEN); [lia|].
  by rewrite take_app_length', drop_app_length'.
Qed.

Lemma decode_short c e :
  c <> [] -> (length c < MSG_HEADER_LEN)%nat ->
  decode (mkStream c e) = (Err (cut_short e), mkStream [] (after e)).
Proof.
  intros Hc Hl. unfold decode. cbn [content ends].
  rewrite bool_decide_eq_false_2 by done.
  by destruct (Nat.ltb_spec (length c) MSG_HEADER_LEN); [|lia].
Qed.

(** From a complete header on, the program agrees with the decoder. *)
Lemma read_data_decode s hb tr r n n' :
  length hb = MSG_HEADER_LEN ->
  runs (read_data s hb) tr (Done r) -> conforms n tr n' ->
  (r, n' s) = decode (mkStream (hb ++ content (n s)) (ends (n s))) /\ others_unchanged s n n'.
Proof.
  intros Hl Hr Hc. destruct (read_data_spec s hb tr r n n' Hr Hc) as [H Ho].
  split; [|done]. rewrite decode_header by done. cbn zeta in *.
  by destruct (length (content (n s)) <? _)%nat; destruct H as [-> ->].
Qed.

(** After a first read of [bs], the rest of the program agrees with the decoder
    on the whole content. *)
Lemma read_rest_decode s bs tr r n n' :
  bs <> [] -> (length bs <= MSG_HEADER_LEN)%nat ->
  runs (let? hb := read_header_rest s (overwrite (replicate MSG_HEADER_LEN x00) 0 bs) (length bs)
        in read_data s hb)%prog tr (Done r) ->
  conforms n tr n' ->
  (r, n' s) = decode (mkStream (bs ++ content (n s)) (ends (n s))) /\ others_unchanged s n n'.
Proof.
  intros Hne Hle Hr Hc. rewrite overwrite_header in Hr by done. unfold read_header_rest in Hr.
  destruct (Nat.ltb_spec (length bs) MSG_HEADER_LEN) as [Hlt|Hge].
  - destruct (n s) as [c e] eqn:Es. cbn [content ends].
    rewrite slice_from_header in Hr by done. cbn [or_panic bind] in Hr.
    apply runs_try_done in Hr as [(hb & t1 & t2 & -> & H1 & H2)|(e0 & H1 & ->)];
      run_inv; cbn [app conforms event_conforms] in Hc; simplify_eq;
      destruct Hc as (n1 & [Hx Ho] & Hc); rewrite Es in Hx.
    + inversion Hx as [? ? ? Hlen Hc1 Hl1 H4 Hn1|]; subst.
      rewrite overwrite_rest in H2 by (rewrite length_take; lia).
      eapply read_data_decode in H2 as [Hd Ho2];
        [|rewrite length_app, length_take; lia|done].
      rewrite <- Hn1 in Hd. cbn [content ends] in Hd.
      rewrite <- app_assoc, take_drop in Hd. eauto using others_unchanged_trans.
    + inversion Hx as [|? ? ? Hlen Hc1 Hl1 H4 Hn1]; subst.
      rewrite decode_short by (rewrite ?length_app; destruct bs; try done; lia).
      split; [by destruct e; rewrite Hc, <- Hn1|]. intros t Ht. rewrite Hc. auto.
  - assert (length bs = MSG_HEADER_LEN) as Hl by lia.
    rewrite Hl, Nat.sub_diag, app_nil_r in *. run_inv. by eapply read_data_decode.
Qed.

Lemma read_decodes s tr r n n' :
  runs (read_from_stream s) tr (Done r) -> conforms n tr n' ->
  (r, n' s) = decode (n s) /\ others_unchanged s n n'.
Proof.
  unfold read_from_stream. intros Hr Hc. apply runs_bind_done in Hr as (a & t1 & t2 & -> & H1 & H2).
  apply runs_call_done in H1 as ->. cbn [app conforms event_conforms] in Hc.
  destruct Hc as (n1 & [Hx Ho] & Hc).
  destruct (n s) as [c e] eqn:Es.
  inversion Hx as [c' e' k k' Hk Hkc Ea Eb Ec Hn1|k Ea Eb Ec Hn1|e' next k Ea Eb Ec Hn1]; subst;
    cbn [map_err] in H2.
  - eapply read_rest_decode in H2 as [Hd Ho2]; [|..|done].
    + rewrite <- Hn1 in Hd. cbn [content ends] in Hd. rewrite take_drop in Hd.
      eauto using others_unchanged_trans.
    + destruct c; [cbn in *; lia|destruct k'; [lia|done]].
    + rewrite length_take. lia.
  - run_inv. cbn in Hc. rewrite Hc, <- Hn1. split; [done|]. intros t Ht. rewrite Hc. auto.
  - unfold decode. cbn [content ends at_end].
    destruct (from e' : RecvError) as [|ce|]; [|destruct (is_benign ce)|];
      run_inv; cbn in Hc; rewrite Hc, <- Hn1; (split; [done|intros t Ht; rewrite Hc; auto]).
Qed.

(** C1: on every conforming stream [read_from_stream] returns what the reference
    decoder gives and leaves what it leaves, for any way the bytes are split into
    reads; other streams are untouched. *)
Theorem read_from_stream_refines s tr r n n' :
  runs (read_from_stream s) tr (Done r) -> conforms n tr n' ->
  (r, n' s) = decode (n s) /\ others_unchanged s n n'.
Proof. apply read_decodes. Qed.

(** ** Composition of conforming traces

    Nets are compared pointwise; [conforms] respects that equivalence. *)

#[export] Instance unchanged_equiv : Equivalence (@unchanged F).
Proof.
  split; [done|intros n n' H t; by rewrite H|intros n1 n2 n3 H1 H2 t; by rewrite H2, H1].
Qed.

#[export] Instance event_conforms_proper :
  Proper (unchanged ==> eq ==> unchanged ==> iff) (@event_conforms F).
Proof.
  assert (H : forall n1 n2 v m1 m2, unchanged n1 n2 -> unchanged m1 m2 ->
    event_conforms n1 v m1 -> event_conforms n2 v m2).
  { intros n1 n2 v m1 m2 Hn Hm. destruct v as [T e x]. destruct e; cbn;
      try (intros H u; by rewrite (Hm u), (H u), (Hn u));
      (intros [H Ho]; rewrite (Hn s), (Hm s); split; [done|];
       intros t Ht; rewrite (Hm t), (Hn t); auto). }
  intros n1 n2 Hn v ? <- m1 m2 Hm. split; apply H; try done; by symmetry.
Qed.

#[export] Instance conforms_proper :
  Proper (unchanged ==> eq ==> unchanged ==> iff) (@conforms F).
Proof.
  intros n1 n2 Hn tr ? <- m1 m2 Hm. revert n1 n2 Hn.
  induction tr as [|v tr IH]; intros n1 n2 Hn; cbn.
  - by rewrite Hn, Hm.
  - setoid_rewrite Hn. by setoid_rewrite IH.
Qed.

Lemma conforms_app n t1 t2 n' :
  conforms n (t1 ++ t2) n' <-> exists n1, conforms n t1 n1 /\ conforms n1 t2 n'.
Proof.
  revert n. induction t1 as [|v t1 IH]; intros n; cbn.
  - split; [by exists n|]. intros (n1 & Hn & H). by rewrite <- Hn in H.
  - setoid_rewrite IH. split.
    + intros (n2 & Hv & n1 & H1 & H2). eauto.
    + intros (n1 & (n2 & Hv & H1) & H2). eauto.
Qed.

(** ** A conforming run always exists *)

Definition set_stream `{!EqDecision q_RecvStream} (n : q_RecvStream -> stream) s st :=
  fun t => if decide (t = s) then st else n t.

Definition can_finish {A} (p : io A) (n : q_RecvStream -> stream) : Prop :=
  exists tr a n', runs p tr (Done a) /\ conforms n tr n'.

Section Total.
Context `{!EqDecision q_RecvStream}.

Lemma set_stream_spec n s st : set_stream n s st s = st /\ others_unchanged s n (set_stream n s st).
Proof.
  unfold set_stream. split; [by rewrite decide_True|]. intros t Ht. by rewrite decide_False.
Qed.

Lemma read_exists n s len :
  (0 < len)%nat -> exists a n', conforms n [Ev (Read s len) a] n'.
Proof.
  intros Hlen.
  assert (exists a st, read_ok (n s) len a st) as (a & st & H).
  { destruct (n s) as [[|b c] [|e next]].
    - eexists _, _. apply read_finished.
    - eexists _, _. apply read_failed.
    - eexists _, _. apply (read_some _ _ _ 1); cbn; lia.
    - eexists _, _. apply (read_some _ _ _ 1); cbn; lia. }
  destruct (set_stream_spec n s st) as [H1 H2].
  exists a, (set_stream n s st), (set_stream n s st). cbn. by rewrite H1.
Qed.

Lemma read_exact_exists n s len : exists a n', conforms n [Ev (ReadExact s len) a] n'.
Proof.
  assert (exists a st, read_exact_ok (n s) len a st) as (a & st & H).
  { destruct (n s) as [c e]. destruct (decide (len <= length c)%nat);
      eexists _, _; [by constructor|constructor; lia]. }
  destruct (set_stream_spec n s st) as [H1 H2].
  exists a, (set_stream n s st), (set_stream n s st). cbn. by rewrite H1.
Qed.

Lemma can_finish_ret {A} (a : A) n : can_finish (Ret a) n.
Proof. exists [], a, n. split; [by apply runs_ret_done|done]. Qed.

Lemma can_finish_bind {T A} (e : ev T) (f : T -> io A) n :
  (exists a n', conforms n [Ev e a] n') -> (forall a n', can_finish (f a) n') ->
  can_finish (bind (call e) f) n.
Proof.
  intros (a & n1 & H1) Hf. destruct (Hf a n1) as (t & b & n2 & Ht & H2).
  exists (Ev e a :: t), b, n2. split.
  - apply runs_bind_done. exists a, [Ev e a], t. by rewrite runs_call_done.
  - apply (conforms_app n [Ev e a] t). eauto.
Qed.

Lemma can_finish_read_data s hb n : can_finish (read_data s hb) n.
Proof.
  unfold read_data. rewrite vec_zeroed_data. cbn [or_panic bind].
  apply can_finish_bind; [apply read_exact_exists|].
  intros [data|e] n'; apply can_finish_ret.
Qed.

(** C25: whatever a stream holds and however it ends, [read_from_stream] finishes
    on it, with the decoder's result. *)
Theorem read_from_stream_total n s :
  exists tr n', runs (read_from_stream s) tr (Done (decode (n s)).1)
    /\ conforms n tr n' /\ n' s = (decode (n s)).2.
Proof.
  assert (can_finish (read_from_stream s) n) as (tr & r & n' & Hr & Hc).
  { apply can_finish_bind; [apply read_exists; unfold MSG_HEADER_LEN; lia|].
    intros [[bs|]|e] n1; cbn [map_err].
    - unfold try_bind, read_header_rest.
      destruct (Nat.ltb_spec (length bs) MSG_HEADER_LEN); [|apply can_finish_read_data].
      rewrite slice_from_header by done. cbn [or_panic bind].
      apply can_finish_bind; [apply read_exact_exists|].
      intros [rest|e] n2; [apply can_finish_read_data|apply can_finish_ret].
    - apply can_finish_ret.
    - destruct (from e : RecvError) as [|ce|]; [|destruct (is_benign ce)|];
        apply can_finish_ret. }
  destruct (read_decodes s tr r n n' Hr Hc) as [Hd _].
  exists tr, n'. rewrite <- Hd. auto.
Qed.

End Total.
End Facts.
