(* ===== verification/Framing.v ===== *)
(** * What is sent is what is received

    [write_to_stream] writes the frame of its message or nothing, an oversized
    message is refused before a byte is written, and frames written one after the
    other are decoded to the same messages in the same order. *)

From Stdlib Require Import Strings.Byte.
From S2P Require Import Prelude Std Foreign WireTypes Errors ConfigTypes Prog ProgFacts Effects.
From S2P Require Import Wire StreamSpec WireFacts.

Local Open Scope Z_scope.

Section Framing.
Context {F : Foreign} {Bc : Bincode}.

Definition header_of (p : Bytes) (flag : byte) : MsgHeader :=
  {| version := MSG_PROTOCOL_VERSION; data_len := zlen p; usr_msg_flag := flag;
     reserved := (x00, x00) |}.

Lemma MsgHeader_new_spec p flag :
  MsgHeader_new p flag =
    if zlen p <=? u32_MAX then Ok (header_of p flag)
    else Err (SendError_Serialization (too_long (zlen p))).
Proof. unfold MsgHeader_new, u32_try_from. by destruct (zlen p <=? u32_MAX). Qed.

Lemma header_of_wf p flag : zlen p <= u32_MAX -> MsgHeader_wf (header_of p flag).
Proof.
  intros H. pose proof (zlen_nonneg p).
  unfold MsgHeader_wf, u16_range, u32_range, u32_MAX, MSG_PROTOCOL_VERSION in *.
  cbn [header_of version data_len reserved]. split_and!; (lia || done).
Qed.

Lemma frame_inv m bs :
  frame m = Some bs ->
  exists p flag, payload m = Ok (p, flag) /\ zlen p <= u32_MAX
    /\ bs = to_bytes (header_of p flag) ++ p.
Proof.
  unfold frame. destruct (payload m) as [[p flag]|e]; [|done].
  rewrite MsgHeader_new_spec. destruct (Z.leb_spec (zlen p) u32_MAX); [|done].
  intros [= <-]. eauto.
Qed.

Lemma frame_user_msg p :
  frame (UserMsg p) =
    if zlen p <=? u32_MAX then Some (to_bytes (header_of p USER_MSG_FLAG) ++ p) else None.
Proof.
  unfold frame. cbn [payload]. rewrite MsgHeader_new_spec. by destruct (zlen p <=? u32_MAX).
Qed.

(** ** Decoding a frame *)

Lemma decode_frame_bytes p flag rest e :
  zlen p <= u32_MAX ->
  decode (mkStream ((to_bytes (header_of p flag) ++ p) ++ rest) e)
  = (interpret flag p, mkStream rest e).
Proof.
  intros Hp. rewrite <- app_assoc, decode_header by apply length_to_bytes.
  rewrite from_to_bytes by (by apply header_of_wf). cbn [header_of data_len usr_msg_flag].
  unfold zlen. rewrite Nat2Z.id, length_app.
  destruct (Nat.ltb_spec (length p + length rest) (length p)); [lia|].
  by rewrite take_app_length, drop_app_length.
Qed.

Lemma interpret_payload `{!BincodeLaws} m p flag :
  payload m = Ok (p, flag) -> m <> UserMsg [] -> interpret flag p = Ok (Some m).
Proof.
  intros Hp Hm. unfold interpret.
  assert (forall m0, and_then (serialize m0) (fun bs => Ok (bs, ECHO_SRVC_MSG_FLAG)) = Ok (p, flag) ->
    m0 = m -> interpret flag p = Ok (Some m)) as Hecho.
  { intros m0 Hs ->. destruct (serialize m) as [bs|] eqn:Es; cbn in Hs; simplify_eq.
    unfold interpret. rewrite bool_decide_eq_false_2 by (by eapply serialize_nonempty).
    rewrite bool_decide_eq_false_2 by done.
    rewrite bool_decide_eq_true_2 by done.
    by rewrite (deserialize_serialize m p Es). }
  destruct m; try by (eapply Hecho).
  cbn in Hp. simplify_eq. rewrite bool_decide_eq_false_2 by congruence.
  by rewrite bool_decide_eq_true_2.
Qed.

Lemma decode_of_frame `{!BincodeLaws} m bs rest e :
  frame m = Some bs -> m <> UserMsg [] ->
  decode (mkStream (bs ++ rest) e) = (Ok (Some m), mkStream rest e).
Proof.
  intros (p & flag & Hp & Hlen & ->)%frame_inv Hm.
  by rewrite decode_frame_bytes, (interpret_payload m).
Qed.

(** The frame of any message but the empty user message decodes to that
    message, whatever follows on the stream. *)
Lemma decode_frame `{!BincodeLaws} m bs rest e :
  frame m = Some bs -> m <> UserMsg [] ->
  decode (mkStream (bs ++ rest) e) = (Ok (Some m), mkStream rest e).
Proof. apply decode_of_frame. Qed.

(** The empty user message can be sent, and its receiver gets an error in its
    place; the messages after it are not affected. *)
Lemma empty_message_rejected rest e :
  exists bs, frame (UserMsg []) = Some bs
    /\ decode (mkStream (bs ++ rest) e)
       = (Err (RecvError_Serialization empty_message), mkStream rest e).
Proof.
  exists (to_bytes (header_of [] USER_MSG_FLAG) ++ []).
  split; [done|]. by rewrite decode_frame_bytes.
Qed.

(** The reader does not look at the protocol version of the header. *)
Lemma version_ignored v0 v1 w0 w1 c e :
  decode (mkStream (v0 :: v1 :: c) e) = decode (mkStream (w0 :: w1 :: c) e).
Proof. done. Qed.

(** ** Writing *)

Section Written.
Context `{!EqDecision q_SendStream}.

Lemma written_nil s : written s [] = [].
Proof. done. Qed.

Lemma written_app s t1 t2 : written s (t1 ++ t2) = written s t1 ++ written s t2.
Proof. unfold written. by rewrite map_app, concat_app. Qed.

Lemma written_write_ok s data tr :
  written s (Ev (WriteAll s data) (Ok tt) :: tr) = data ++ written s tr.
Proof. unfold written. cbn. by rewrite decide_True. Qed.

Lemma written_write_other s s' data a tr :
  s' <> s -> written s (Ev (WriteAll s' data) a :: tr) = written s tr.
Proof. intros H. unfold written. cbn. destruct a; [by rewrite decide_False|done]. Qed.

Lemma written_write_err s s' data e tr :
  written s (Ev (WriteAll s' data) (Err e) :: tr) = written s tr.
Proof. done. Qed.

(** Every run of [write_to_stream], case by case. *)
Lemma write_to_stream_runs m s tr r :
  runs (write_to_stream m s) tr (Done r) ->
  (tr = [] /\ exists e, r = Err (SendError_Serialization e) /\ frame m = None)
  \/ exists p flag, payload m = Ok (p, flag) /\ zlen p <= u32_MAX /\
     let hd := to_bytes (header_of p flag) in
     (exists e, tr = [Ev (WriteAll s hd) (Err e)] /\ r = Err (from e))
     \/ (exists e, tr = [Ev (WriteAll s hd) (Ok tt); Ev (WriteAll s p) (Err e)]
                   /\ r = Err (from e))
     \/ (tr = [Ev (WriteAll s hd) (Ok tt); Ev (WriteAll s p) (Ok tt)] /\ r = Ok tt).
Proof.
  unfold write_to_stream, frame. intros H.
  apply runs_try_done in H as [([p flag] & t1 & t2 & -> & H1 & H2)|(e & H1 & ->)];
    apply runs_ret_done in H1 as [-> Hp]; rewrite <- Hp.
  2: { left. split; [done|]. by exists (mkSerializationError e). }
  rewrite MsgHeader_new_spec in *. destruct (Z.leb_spec (zlen p) u32_MAX).
  2: { run_inv. left. eauto. }
  right. exists p, flag. split_and!; [done..|].
  run_inv; repeat match goal with x : unit |- _ => destruct x end; eauto 8.
Qed.

Lemma write_frames m s tr r :
  runs (write_to_stream m s) tr (Done r) ->
  (forall s', s' <> s -> written s' tr = []) /\
  match frame m with
  | None => tr = [] /\ exists e, r = Err (SendError_Serialization e)
  | Some bs => written s tr `prefix_of` bs /\ (r = Ok tt -> written s tr = bs)
               /\ (forall e, r <> Err (SendError_Serialization e))
  end.
Proof.
  intros [(-> & e & -> & ->)|(p & flag & Hp & Hlen & H)]%write_to_stream_runs.
  { split; [done|]. eauto. }
  assert (frame m = Some (to_bytes (header_of p flag) ++ p)) as ->.
  { unfold frame. rewrite Hp, MsgHeader_new_spec. by destruct (Z.leb_spec (zlen p) u32_MAX); [|lia]. }
  cbn zeta in H. destruct H as [(e & -> & ->)|[(e & -> & ->)|(-> & ->)]]; (split;
    [intros s' Hs; by rewrite ?written_write_other by done|]).
  - split_and!; [apply prefix_nil|done|]. intros e'. by destruct e.
  - rewrite written_write_ok, written_write_err, written_nil, app_nil_r.
    split_and!; [by apply prefix_app_r|done|]. intros e'. by destruct e.
  - rewrite !written_write_ok, written_nil, app_nil_r. split_and!; done.
Qed.

(** C24: [write_to_stream] writes a prefix of the frame to its stream and nothing to
    any other; it reports success only with the whole frame written; a message
    without a frame is refused before anything is written. *)
Theorem write_to_stream_correct m s tr r :
  runs (write_to_stream m s) tr (Done r) ->
  (forall s', s' <> s -> written s' tr = []) /\
  match frame m with
  | None => tr = [] /\ exists e, r = Err (SendError_Serialization e)
  | Some bs => written s tr `prefix_of` bs /\ (r = Ok tt -> written s tr = bs)
               /\ (forall e, r <> Err (SendError_Serialization e))
  end.
Proof. apply write_frames. Qed.

(** A message of 4 GiB or more is refused with a serialization error. *)
Lemma write_too_long p s tr r :
  u32_MAX < zlen p ->
  runs (write_to_stream (UserMsg p) s) tr (Done r) ->
  tr = [] /\ r = Err (SendError_Serialization (too_long (zlen p))).
Proof.
  intros Hp H. unfold write_to_stream in H. cbn [payload] in H.
  assert (MsgHeader_new p USER_MSG_FLAG = Err (SendError_Serialization (too_long (zlen p)))) as E.
  { rewrite MsgHeader_new_spec. by destruct (Z.leb_spec (zlen p) u32_MAX); [lia|]. }
  apply runs_try_done in H as [([p' flag] & t1 & t2 & -> & H1 & H2)|(e & H1 & ->)];
    apply runs_ret_done in H1 as [-> H1]; simplify_eq.
  rewrite E in H2. by run_inv.
Qed.

(** ** Sequences of messages *)

Lemma decode_progress st m :
  (decode st).1 = Ok (Some m) -> (length (content (decode st).2) < length (content st))%nat.
Proof.
  unfold decode. case_bool_decide; [|destruct (Nat.ltb_spec (length (content st)) MSG_HEADER_LEN)].
  - cbn. unfold at_end. repeat case_match; done.
  - done.
  - cbn zeta. destruct (length (drop MSG_HEADER_LEN (content st)) <? _)%nat; [done|].
    intros _. cbn. rewrite !length_drop. unfold MSG_HEADER_LEN in *. lia.
Qed.


(** Reading a stream message by message comes to its end or to an error: with
    more fuel than bytes [decode_all] always has a result. *)
Lemma decode_all_total fuel st :
  (length (content st) < fuel)%nat -> exists ms r, decode_all fuel st = Some (ms, r).
Proof.
  revert st. induction fuel as [|fuel IH]; intros st Hf; [lia|]. cbn [decode_all].
  pose proof (decode_progress st) as Hd. destruct (decode st) as [[[m|]|e] s']; cbn in Hd; [|eauto..].
  destruct (IH s') as (ms & r & ->); [specialize (Hd m eq_refl); lia|]. eauto.
Qed.

Lemma decode_all_end fuel : decode_all (S fuel) (mkStream [] Finished) = Some ([], Ok tt).
Proof. done. Qed.

(** What the reader of a finished stream gets from the frames of the messages [ms]: the
    messages before the first empty user message, and then the end of the stream or the
    error the reader makes of the empty message. *)
Fixpoint upto_empty (ms : list WireMsg) : list WireMsg * Result unit RecvError :=
  match ms with
  | [] => ([], Ok tt)
  | m :: ms =>
      if decide (m = UserMsg []) then ([], Err (RecvError_Serialization empty_message))
      else (m :: (upto_empty ms).1, (upto_empty ms).2)
  end.

Lemma upto_empty_none ms : Forall (fun m => m <> UserMsg []) ms -> upto_empty ms = (ms, Ok tt).
Proof.
  induction 1 as [|m ms Hm _ IH]; [done|]. cbn [upto_empty]. rewrite decide_False by done.
  by rewrite IH.
Qed.

Lemma decode_all_upto `{!BincodeLaws} ms bss fuel :
  Forall2 (fun m bs => frame m = Some bs) ms bss -> (length ms < fuel)%nat ->
  decode_all fuel (mkStream (concat bss) Finished) = Some (upto_empty ms).
Proof.
  intros Hb. revert fuel. induction Hb as [|m bs ms bss Hm _ IH]; intros [|fuel] Hf;
    cbn [length] in Hf; try lia; [done|]. cbn [concat decode_all upto_empty].
  destruct (decide (m = UserMsg [])) as [->|Hne].
  - destruct (empty_message_rejected (concat bss) Finished) as (bs' & Hbs & Hd).
    rewrite Hm in Hbs. injection Hbs as <-. by rewrite Hd.
  - rewrite (decode_of_frame m) by done. rewrite IH by lia. by destruct (upto_empty ms).
Qed.

Lemma decode_all_frames `{!BincodeLaws} ms bss fuel :
  Forall2 (fun m bs => frame m = Some bs) ms bss ->
  Forall (fun m => m <> UserMsg []) ms ->
  (length ms < fuel)%nat ->
  decode_all fuel (mkStream (concat bss) Finished) = Some (ms, Ok tt).
Proof. intros Hb Hne Hf. rewrite (decode_all_upto ms) by done. by rewrite upto_empty_none. Qed.

(** Successful writes put the frames of their messages on the stream. *)
Lemma written_frames s ms trs :
  Forall2 (fun m tr => runs (write_to_stream m s) tr (Done (Ok tt))) ms trs ->
  exists bss, Forall2 (fun m bs => frame m = Some bs) ms bss
    /\ written s (concat trs) = concat bss.
Proof.
  intros Hr. induction Hr as [|m tr ms trs Hm _ (bss & Hb & Hw)]; [by exists []|].
  apply write_frames in Hm as [_ Hm].
  destruct (frame m) as [bs|] eqn:Hf; [|by destruct Hm as [_ [? ?]]].
  destruct Hm as (_ & Hw' & _). exists (bs :: bss). split; [by constructor|].
  cbn [concat]. by rewrite written_app, Hw', Hw.
Qed.

(** C2: the messages successfully written to a stream, one after the other, are exactly
    the messages a reader of those bytes gets, in the same order, followed by the end of
    the stream; with one exception, the empty user message: it is written as any other,
    but the reader gets the messages before it and then an error. *)
Theorem messages_in_order `{!BincodeLaws} s ms trs :
  Forall2 (fun m tr => runs (write_to_stream m s) tr (Done (Ok tt))) ms trs ->
  decode_all (S (length ms)) (mkStream (written s (concat trs)) Finished) = Some (upto_empty ms)
  /\ (UserMsg [] ∉ ms -> upto_empty ms = (ms, Ok tt)).
Proof.
  intros Hr. destruct (written_frames _ _ _ Hr) as (bss & Hb & ->). split.
  - apply decode_all_upto; [done|lia].
  - intros He. apply upto_empty_none, list.Forall_forall. intros m Hm ->. done.
Qed.

End Written.
End Framing.
