(* ===== verification/Config.v ===== *)
(** * config.rs: validating a configuration, and retrying

    [InternalConfig::try_from_config] with the transport and certificate helpers
    and the certificate verifier, and [RetryConfig::retry] over the backoff crate's [future::retry], which is
    the class [Backoff]. *)

From S2P Require Import Prelude Std Foreign WireTypes Errors ConfigTypes Prog Effects.

Local Open Scope prog_scope.

(** [backoff::Error]. *)
Inductive backoff_Error (X : Type) : Type :=
| Permanent (e : X)
| Transient (e : X).
Arguments Permanent {X} e.
Arguments Transient {X} e.

(** [impl<E> From<E> for backoff::Error<E>]: errors are transient unless said
    otherwise. *)
#[export] Instance backoff_Error_from (X : Type) : From X (backoff_Error X) := Transient.

Class Backoff {F : Foreign} := {
  backoff_retry : forall R X : Type,
    ExponentialBackoff -> io (Result R (backoff_Error X)) -> io (Result R X);
}.
Arguments backoff_retry {F _ R X}.

(** The runs of an operation that is retried: attempts that fail with a transient
    error may be followed by another one; success, a permanent error, or giving
    up after a transient error ends it. *)
Inductive retried {F : Foreign} {R X}
    (op : list (event ev) -> outcome (Result R (backoff_Error X)) -> Prop) :
    list (event ev) -> outcome (Result R X) -> Prop :=
| retried_ok tr v : op tr (Done (Ok v)) -> retried op tr (Done (Ok v))
| retried_permanent tr e : op tr (Done (Err (Permanent e))) -> retried op tr (Done (Err e))
| retried_give_up tr e : op tr (Done (Err (Transient e))) -> retried op tr (Done (Err e))
| retried_again tr1 tr2 e o :
    op tr1 (Done (Err (Transient e))) -> retried op tr2 o -> retried op (tr1 ++ tr2) o
| retried_halt tr h : op tr (Halt h) -> retried op tr (Halt h).

(** What the crate relies on: nothing else happens in a retried operation. *)
Class BackoffLaws {F : Foreign} {B : Backoff} := {
  retry_runs R X b (op : io (Result R (backoff_Error X))) tr o :
    runs (backoff_retry b op) tr o -> retried (runs op) tr o;
}.

(** What a client configuration does with the certificate a server presents: it asks the
    verifier that was set on the rustls configuration it was made from. *)
Class RustlsLaws {F : Foreign} := {
  server_cert_check : q_ClientConfig ->
    ServerCertVerifier ServerName SystemTime ServerCertVerified rustls_Error;
  server_cert_check_new crypto v :
    server_cert_check (ClientConfig_new (set_certificate_verifier crypto v)) = v;
  server_cert_check_transport client t :
    server_cert_check (client_set_transport client t) = server_cert_check client;
}.

(** What quinn documents of its configurations: an idle timeout is a number of
    milliseconds, a setter of the transport configuration sets its field and no other, and
    an endpoint's configuration has the transport configuration that was assigned to it and
    the certificate chain and key it was made with. *)
Class QuinnConfigLaws {F : Foreign} := {
  idle_millis : q_IdleTimeout -> Z;
  idle_of : q_TransportConfig -> option q_IdleTimeout;
  keep_alive_of : q_TransportConfig -> option Duration;
  server_transport : q_ServerConfig -> q_TransportConfig;
  server_identity : q_ServerConfig -> list Bytes * Bytes;
  client_transport : q_ClientConfig -> q_TransportConfig;
  idle_millis_from d i : IdleTimeout_try_from d = Ok i -> idle_millis i = as_millis d;
  idle_of_set t i : idle_of (tc_max_idle_timeout t i) = i;
  idle_of_keep_alive t k : idle_of (tc_keep_alive_interval t k) = idle_of t;
  keep_alive_of_set t k : keep_alive_of (tc_keep_alive_interval t k) = k;
  keep_alive_of_idle t i : keep_alive_of (tc_max_idle_timeout t i) = keep_alive_of t;
  server_transport_set s t : server_transport (server_set_transport s t) = t;
  server_identity_set s t : server_identity (server_set_transport s t) = server_identity s;
  server_identity_new certs key s :
    ServerConfig_with_single_cert certs key = Ok s -> server_identity s = (certs, key);
  client_transport_set c t : client_transport (client_set_transport c t) = t;
}.

Section Config.
Context {F : Foreign}.

Definition RetryConfig_retry `{!Backoff} {R X} (c : RetryConfig)
    (op : io (Result R (backoff_Error X))) : io (Result R X) :=
  backoff_retry (RetryConfig_backoff c) op.

Definition new_transport_config (idle : q_IdleTimeout) (keep_alive : option Duration) :
    q_TransportConfig :=
  let config := TransportConfig_default in
  let config := tc_max_idle_timeout config (Some idle) in
  tc_keep_alive_interval config keep_alive.

(** [serialize_der().unwrap()] panics on an error. *)
Definition generate_cert : io (Result (Bytes * Bytes) ConfigError) :=
  let? cert := call (GenerateSimpleSelfSigned [SERVER_NAME]) in
  let key := serialize_private_key_der cert in
  match serialize_der cert with
  | Ok cert => Ret (Ok (cert, key))
  | Err _ => Fault
  end.

(** [impl ServerCertVerifier for SkipCertificateVerification]. *)
Definition SkipCertificateVerification :
    ServerCertVerifier ServerName SystemTime ServerCertVerified rustls_Error :=
  mkServerCertVerifier (fun _end_entity _intermediates _server_name _scts _ocsp_response _now =>
    Ok assertion).

Definition try_from_config (config : Config) : io (Result InternalConfig ConfigError) :=
  let? default_idle_timeout := Ret (IdleTimeout_try_from DEFAULT_IDLE_TIMEOUT) in
  let? idle_timeout :=
    Ret (map_err (from : _ -> ConfigError)
      (unwrap_or (option_map IdleTimeout_try_from (idle_timeout config))
         (Ok default_idle_timeout))) in
  let upnp_lease_duration :=
    unwrap_or (upnp_lease_duration config) DEFAULT_UPNP_LEASE_DURATION in
  let transport := new_transport_config idle_timeout (keep_alive_interval config) in
  let? (cert, key) := generate_cert in
  let? roots :=
    Ret (map_err (fun _ => ConfigError_Webpki) (RootCertStore_add RootCertStore_empty cert)) in
  let client_crypto := client_builder_with_roots roots in
  let client_crypto := set_certificate_verifier client_crypto SkipCertificateVerification in
  let? server := Ret (ServerConfig_with_single_cert [cert] key) in
  let server := server_set_transport server transport in
  let client := ClientConfig_new client_crypto in
  let client := client_set_transport client transport in
  Ret (Ok
    {| ic_client := client;
       ic_server := server;
       ic_forward_port := forward_port config;
       ic_external_port := external_port config;
       ic_external_ip := external_ip config;
       ic_upnp_lease_duration := upnp_lease_duration;
       ic_retry_config := retry_config config |}).

End Config.
