(* ===== verification/ConfigFacts.v ===== *)
(** * What [InternalConfig::try_from_config] makes of a configuration *)

From S2P Require Import Prelude Std Foreign WireTypes Errors ConfigTypes Prog ProgFacts Effects.
From S2P Require Import Config.

Local Open Scope Z_scope.
Local Open Scope prog_scope.

Section ConfigFacts.
Context {F : Foreign}.

(** What holds of every event of an operation holds of every event of its retries. *)
Lemma only_retry {Bo : Backoff} `{!BackoffLaws} {R X} P c (op : io (Result R (backoff_Error X))) :
  only P op -> only P (RetryConfig_retry c op).
Proof.
  intros Hop tr o Hr%retry_runs.
  induction Hr as [t v H1|t e H1|t e H1|t1 t2 e o H1 _ IH|t h H1]; try by apply Hop in H1.
  apply Forall_app. split; [by apply Hop in H1|done].
Qed.

(** The idle timeout in effect. *)
Definition effective_idle (config : Config) : Duration :=
  unwrap_or (idle_timeout config) DEFAULT_IDLE_TIMEOUT.

Definition effective_lease (config : Config) : Duration :=
  unwrap_or (upnp_lease_duration config) DEFAULT_UPNP_LEASE_DURATION.

(** The internal configuration that belongs to a configuration and a certificate. *)
Definition configures (config : Config) (cert key : Bytes) (ic : InternalConfig) : Prop :=
  exists idle roots server,
    IdleTimeout_try_from (effective_idle config) = Ok idle
    /\ RootCertStore_add RootCertStore_empty cert = Ok roots
    /\ ServerConfig_with_single_cert [cert] key = Ok server
    /\ let transport := new_transport_config idle (keep_alive_interval config) in
       ic = {| ic_client :=
                 client_set_transport
                   (ClientConfig_new
                      (set_certificate_verifier (client_builder_with_roots roots)
                         SkipCertificateVerification)) transport;
               ic_server := server_set_transport server transport;
               ic_forward_port := forward_port config;
               ic_external_port := external_port config;
               ic_external_ip := external_ip config;
               ic_upnp_lease_duration := effective_lease config;
               ic_retry_config := retry_config config |}.

Lemma generate_cert_runs tr r :
  runs generate_cert tr (Done r) ->
  exists a, tr = [Ev (GenerateSimpleSelfSigned [SERVER_NAME]) a]
    /\ match a with
       | Ok c => exists der, serialize_der c = Ok der
                   /\ r = Ok (der, serialize_private_key_der c)
       | Err e => r = Err (from e)
       end.
Proof.
  unfold generate_cert. intros H.
  apply runs_try_done in H as [(c & t1 & t2 & -> & H1 & H)|(e & H1 & ->)];
    apply runs_call_done in H1 as ->; [|by exists (Err e)].
  destruct (serialize_der c) as [der|e] eqn:Ed.
  - apply runs_ret_done in H as [-> ->]. exists (Ok c). split; [done|]. eauto.
  - destruct H as [_ [?|?]]; done.
Qed.

Lemma try_from_config_runs config tr ic :
  runs (try_from_config config) tr (Done (Ok ic)) ->
  exists c cert, tr = [Ev (GenerateSimpleSelfSigned [SERVER_NAME]) (Ok c)]
    /\ serialize_der c = Ok cert /\ configures config cert (serialize_private_key_der c) ic.
Proof.
  unfold try_from_config. intros H.
  apply runs_try_done in H as [(d & t1 & t2 & -> & H1 & H)|(e & H1 & He)]; [|done].
  apply runs_ret_done in H1 as [-> Hd].
  apply runs_try_done in H as [(idle & t1 & t3 & -> & H1 & H)|(e & H1 & He)]; [|done].
  apply runs_ret_done in H1 as [-> Hi].
  apply runs_try_done in H as [([cert key] & t1 & t4 & -> & H1 & H)|(e & H1 & He)]; [|done].
  apply generate_cert_runs in H1 as ([c|e] & -> & Hc); [|done]. destruct Hc as (der & Hder & Hck).
  injection Hck as -> ->.
  apply runs_try_done in H as [(roots & t1 & t5 & -> & H1 & H)|(e & H1 & He)]; [|done].
  apply runs_ret_done in H1 as [-> Hro].
  apply runs_try_done in H as [(server & t1 & t6 & -> & H1 & H)|(e & H1 & He)]; [|done].
  apply runs_ret_done in H1 as [-> Hs]. apply runs_ret_done in H as [-> Hic].
  exists c, der. split_and!; [done..|]. exists idle, roots, server. split_and!; [| |done|].
  - unfold effective_idle. destruct (idle_timeout config) as [d'|]; cbn in Hi |- *.
    + by destruct (IdleTimeout_try_from d'); simplify_eq/=.
    + by simplify_eq/=.
  - by destruct (RootCertStore_add RootCertStore_empty der); simplify_eq/=.
  - by injection Hic as ->.
Qed.

(** The transport configuration [t] is as [config] asks: its idle timeout is the
    configured one, 18 seconds if there is none, and it has the configured keep-alive
    interval. *)
Definition transport_as_asked `{!QuinnConfigLaws} (config : Config) (t : q_TransportConfig) : Prop :=
  option_map idle_millis (idle_of t)
    = Some (match idle_timeout config with Some d => as_millis d | None => 18000 end)
  /\ keep_alive_of t = keep_alive_interval config.

Lemma new_transport_as_asked `{!QuinnConfigLaws} config idle :
  IdleTimeout_try_from (effective_idle config) = Ok idle ->
  transport_as_asked config (new_transport_config idle (keep_alive_interval config)).
Proof.
  intros Hi%idle_millis_from. unfold transport_as_asked, new_transport_config.
  rewrite idle_of_keep_alive, idle_of_set, keep_alive_of_set. cbn [option_map]. rewrite Hi.
  split; [|done]. unfold effective_idle. by destruct (idle_timeout config).
Qed.

(** C35: a successful [try_from_config] generated one certificate, for the name
    "maidsafe.net", and the server presents it with its key; the transport configurations
    of the server and of the client have the configured idle timeout, 18 s unless given,
    and keep-alive interval; the lease is 120 s unless given; the port, address,
    forwarding and retry settings are those of the configuration. *)
Theorem try_from_config_ok `{!QuinnConfigLaws} config tr ic :
  runs (try_from_config config) tr (Done (Ok ic)) ->
  (exists c cert, tr = [Ev (GenerateSimpleSelfSigned ["maidsafe.net"]) (Ok c)]
     /\ serialize_der c = Ok cert
     /\ server_identity (ic_server ic) = ([cert], serialize_private_key_der c))
  /\ transport_as_asked config (server_transport (ic_server ic))
  /\ transport_as_asked config (client_transport (ic_client ic))
  /\ ic_upnp_lease_duration ic
     = match upnp_lease_duration config with Some d => d | None => mkDuration 120 0 end
  /\ ic_forward_port ic = forward_port config /\ ic_external_port ic = external_port config
  /\ ic_external_ip ic = external_ip config /\ ic_retry_config ic = retry_config config.
Proof.
  intros (c & cert & -> & Hder & idle & roots & server & Hi & _ & Hs & ->)%try_from_config_runs.
  cbn [ic_client ic_server]. rewrite server_transport_set, client_transport_set.
  pose proof (new_transport_as_asked config idle Hi) as Ht.
  split_and!; [|done|done|unfold effective_lease; cbn; by destruct (upnp_lease_duration config)|done|done|done|done].
  exists c, cert. rewrite server_identity_set. eauto using server_identity_new.
Qed.

(** An idle timeout that QUIC cannot represent is refused before anything else is
    done. *)
Lemma try_from_config_bad_idle config d idle e :
  IdleTimeout_try_from DEFAULT_IDLE_TIMEOUT = Ok idle ->
  idle_timeout config = Some d -> IdleTimeout_try_from d = Err e ->
  forall tr o, runs (try_from_config config) tr o ->
  tr = [] /\ (o = Done (Err (ConfigError_InvalidIdleTimeout e)) \/ o = Halt Running).
Proof.
  intros Hd Hi He tr o. unfold try_from_config. rewrite Hd, Hi. cbn [option_map unwrap_or].
  rewrite He. done.
Qed.

(** C36: the client of an endpoint accepts every certificate that a server presents, for
    every name and at every time: connections are encrypted, but the identity of the peer
    is not checked. *)
Theorem client_accepts_any_certificate `{!RustlsLaws} config tr ic :
  runs (try_from_config config) tr (Done (Ok ic)) ->
  forall end_entity intermediates name scts ocsp now,
  verify_server_cert (server_cert_check (ic_client ic)) end_entity intermediates name scts ocsp now
  = Ok assertion.
Proof.
  intros (c & cert & _ & _ & idle & roots & server & _ & _ & _ & ->)%try_from_config_runs.
  intros. cbn [ic_client]. by rewrite server_cert_check_transport, server_cert_check_new.
Qed.

End ConfigFacts.
