(* ===== verification/Connection.v ===== *)
(** * connection.rs: connections, their streams and the sending side

    [Connection], [SendStream] and [RecvStream] with every method. The logging
    calls are left out. *)

From Stdlib Require Import Strings.Byte.
From S2P Require Import Prelude Std Foreign WireTypes Errors ConfigTypes Prog Effects Wire.
From S2P Require Import Config.

Local Open Scope Z_scope.
Local Open Scope prog_scope.

Definition INCOMING_MESSAGE_BUFFER_LEN : Z := 10000.
Definition ENDPOINT_VERIFICATION_TIMEOUT : Duration := from_secs 30.
Definition QP2P_CLOSED_CONNECTION : string :=
  "The connection was closed intentionally by qp2p.".

Section Connection.
Context {F : Foreign} {Bc : Bincode} {Bo : Backoff}.

(** ** Streams *)

Definition SendStream_new (inner : q_SendStream) : SendStream := mkSendStream inner.

Definition SendStream_debug (s : SendStream) : string :=
  debug_struct "SendStream" [] finish_non_exhaustive.

Definition RecvStream_new (inner : q_RecvStream) : RecvStream := mkRecvStream inner.

Definition RecvStream_debug (s : RecvStream) : string :=
  debug_struct "RecvStream" [] finish_non_exhaustive.

Definition SendStream_set_priority (s : SendStream) (priority : Z) : io unit :=
  let* _ := call (SetPriority (ss_inner s) priority) in Ret tt.

Definition send_user_msg (s : SendStream) (msg : Bytes) : io (Result unit SendError) :=
  write_to_stream (UserMsg msg) (ss_inner s).

Definition SendStream_finish (s : SendStream) : io (Result unit SendError) :=
  let? _ := call (Finish (ss_inner s)) in Ret (Ok tt).

Definition send_wire_msg (s : SendStream) (msg : WireMsg) : io (Result unit SendError) :=
  write_to_stream msg (ss_inner s).

Definition next_wire_msg (s : RecvStream) : io (Result (option WireMsg) RecvError) :=
  read_from_stream (rs_inner s).

Definition RecvStream_next (s : RecvStream) : io (Result Bytes RecvError) :=
  let? msg := next_wire_msg s in
  match msg with
  | Some (UserMsg msg) => Ret (Ok msg)
  | msg =>
      let* error := or_panic (SerializationError_unexpected msg) in
      Ret (Err (from error))
  end.

(** ** Construction: the incoming half starts the two listeners *)

Definition start_message_listeners (endpoint : q_Endpoint) (peer_addr : SocketAddr)
    (uni_streams : q_IncomingUniStreams) (bi_streams : q_IncomingBiStreams)
    (alive_rx : AliveRx) (message_tx : MessageTx) : io unit :=
  let* _ := call (Spawn (ListenOnUniStreams peer_addr uni_streams alive_rx message_tx)) in
  let* _ := call (Spawn (ListenOnBiStreams endpoint peer_addr bi_streams alive_rx message_tx)) in
  Ret tt.

Definition ConnectionIncoming_new (endpoint : q_Endpoint) (peer_addr : SocketAddr)
    (uni_streams : q_IncomingUniStreams) (bi_streams : q_IncomingBiStreams)
    (alive_tx : AliveTx) (alive_rx : AliveRx) : io ConnectionIncoming :=
  let* (message_tx, message_rx) := call (NewMessageChannel INCOMING_MESSAGE_BUFFER_LEN) in
  let* _ := start_message_listeners endpoint peer_addr uni_streams bi_streams alive_rx
              message_tx in
  Ret (mkConnectionIncoming message_rx alive_tx).

Definition Connection_new (endpoint : q_Endpoint) (default_retry_config : option RetryConfig)
    (connection : q_NewConnection) : io (Connection * ConnectionIncoming) :=
  let* (alive_tx, alive_rx) := call NewAliveChannel in
  let* peer_address := call (RemoteAddress (nc_connection connection)) in
  let* incoming :=
    ConnectionIncoming_new endpoint peer_address (nc_uni_streams connection)
      (nc_bi_streams connection) alive_tx alive_rx in
  Ret (mkConnection (nc_connection connection) default_retry_config alive_tx, incoming).

(** ** The methods of [Connection] *)

Definition Connection_id (c : Connection) : io Z := call (StableId (conn_inner c)).

Definition remote_address (c : Connection) : io SocketAddr :=
  call (RemoteAddress (conn_inner c)).

Definition Connection_debug (c : Connection) : io string :=
  let* id := Connection_id c in
  let* addr := remote_address c in
  Ret (debug_struct "Connection" [("id", dec id); ("remote_address", fmt_SocketAddr addr)]
         finish_non_exhaustive).

Definition open_uni (c : Connection) : io (Result SendStream ConnectionError) :=
  let? send_stream := call (OpenUni (conn_inner c)) in
  Ret (Ok (SendStream_new send_stream)).

Definition open_bi (c : Connection) : io (Result (SendStream * RecvStream) ConnectionError) :=
  let? (send_stream, recv_stream) := call (OpenBi (conn_inner c)) in
  Ret (Ok (SendStream_new send_stream, RecvStream_new recv_stream)).

Definition Connection_close (c : Connection) (reason : option string) : io unit :=
  let reason := unwrap_or reason QP2P_CLOSED_CONNECTION in
  call (ConnectionClose (conn_inner c) 0 (String.list_byte_of_string reason)).

(** A stream the peer stopped is not an error when finishing. *)
Definition ignore_stopped (r : Result unit SendError) : Result unit SendError :=
  or_else r (fun err =>
    match err with
    | SendError_StreamLost (StreamError_Stopped _) => Ok tt
    | _ => Err err
    end).

Definition send_uni (c : Connection) (msg : Bytes) (priority : Z) : io (Result unit SendError) :=
  let* r := open_uni c in
  let? send_stream := Ret (map_err SendError_ConnectionLost r) in
  let* _ := SendStream_set_priority send_stream priority in
  let? _ := send_user_msg send_stream msg in
  let* r := SendStream_finish send_stream in
  let? _ := Ret (ignore_stopped r) in
  Ret (Ok tt).

(** The loss of the connection is not retried. *)
Definition classify (error : SendError) : backoff_Error SendError :=
  match error with
  | SendError_ConnectionLost _ => Permanent error
  | _ => Transient error
  end.

Definition send_attempt (c : Connection) (msg : Bytes) (priority : Z) :
    io (Result unit (backoff_Error SendError)) :=
  let* r := send_uni c msg priority in Ret (map_err classify r).

Definition send_with (c : Connection) (msg : Bytes) (priority : Z)
    (retry_config : option RetryConfig) : io (Result unit SendError) :=
  match (match retry_config with Some cfg => Some cfg | None => default_retry_config c end) with
  | Some retry_config =>
      let? _ := RetryConfig_retry retry_config (send_attempt c msg priority) in
      Ret (Ok tt)
  | None =>
      let? _ := send_uni c msg priority in
      Ret (Ok tt)
  end.

Definition send (c : Connection) (msg : Bytes) : io (Result unit SendError) :=
  send_with c msg 0 None.

End Connection.
