(* ===== verification/Incoming.v ===== *)
(** * connection.rs: the receiving side

    [ConnectionIncoming], the listeners that run in the background and feed its
    channel, the filter for benign closes and the two protocol handlers.

    The state of [listen_on_uni_streams]' message stream
    ([map_ok], [try_unfold], [try_flatten]) is the unidirectional stream it is
    currently reading, if any: [try_flatten] polls the inner stream until it ends
    and only then the outer one, and [try_unfold] ends after an error. The select on
    the alive channel is the cause [HandlesDropped]: the crate never sends on that
    channel, so waiting for a change ends only when its senders, the connection
    handles, are dropped.

    [listen_on_bi_streams] runs one [handle_bi_stream] per accepted stream,
    concurrently ([try_for_each_concurrent]): its runs are [bi_listener]. *)

From Stdlib Require Import Strings.Byte.
From S2P Require Import Prelude Std Foreign WireTypes Errors ConfigTypes Prog Effects Wire.
From S2P Require Import Config Connection.

Local Open Scope prog_scope.

Section Incoming.
Context {F : Foreign} {Bc : Bincode}.

(** ** [ConnectionIncoming] *)

Definition next_with_stream (i : ConnectionIncoming) :
    io (Result (option (Bytes * option SendStream)) RecvError) :=
  let* item := call (RecvMessage (message_rx i)) in
  Ret (transpose item).

Definition ConnectionIncoming_next (i : ConnectionIncoming) :
    io (Result (option Bytes) RecvError) :=
  let? r := next_with_stream i in
  match r with
  | Some (bytes, _) => Ret (Ok (Some bytes))
  | None => Ret (Ok None)
  end.

(** ** [FilterBenignClose::poll_next], on the item the inner stream gave *)

Definition filter_benign_close {A} (next : option (Result A q_ConnectionError)) :
    option (Result A ConnectionError) :=
  match transpose next with
  | Ok next => option_map Ok next
  | Err error =>
      let error : ConnectionError := from error in
      if is_benign error then None else Some (Err error)
  end.

(** ** Unidirectional streams *)

(** The step of the [try_unfold] over one stream, the [and_then] of the message read. *)
Definition user_msg_or_end (r : Result (option WireMsg) RecvError) :
    io (Result (option Bytes) RecvError) :=
  let? msg := Ret r in
  match msg with
  | Some (UserMsg msg) => Ret (Ok (Some msg))
  | None => Ret (Ok None)
  | _ =>
      let* error := or_panic (SerializationError_unexpected msg) in
      Ret (Err (from error))
  end.

(** One poll of the flattened stream: [inr] is an item, with the stream that is read
    next. *)
Definition uni_next_step (uni_streams : q_IncomingUniStreams) (current : option q_RecvStream) :
    io (option q_RecvStream + option (Result Bytes RecvError) * option q_RecvStream) :=
  match current with
  | Some recv_stream =>
      let* r := read_from_stream recv_stream in
      let* item := user_msg_or_end r in
      Ret (match item with
           | Ok (Some msg) => inr (Some (Ok msg), Some recv_stream)
           | Ok None => inl None
           | Err error => inr (Some (Err error), None)
           end)
  | None =>
      let* next := call (NextUni uni_streams) in
      Ret (match filter_benign_close next with
           | None => inr (None, None)
           | Some (Err error) => inr (Some (Err (from error)), None)
           | Some (Ok recv_stream) => inl (Some recv_stream)
           end)
  end.

(** [uni_messages.next()]. *)
Definition uni_messages_next (uni_streams : q_IncomingUniStreams) :
    option q_RecvStream -> io (option (Result Bytes RecvError) * option q_RecvStream) :=
  loop (uni_next_step uni_streams).

(** The item put on the channel for a result of the message stream. *)
Definition uni_item (result : Result Bytes RecvError) : MessageItem :=
  match result with Ok b => Ok (b, None) | Err e => Err e end.

Definition is_connection_lost {T} (r : Result T RecvError) : bool :=
  match r with Err (RecvError_ConnectionLost _) => true | _ => false end.

(** The loop body from a received result on: report it, and stop after the loss
    of the connection or of the receiver. *)
Definition uni_report (message_tx : MessageTx) (result : Result Bytes RecvError)
    (current : option q_RecvStream) : io (option q_RecvStream + unit) :=
  let break_ := is_connection_lost result in
  let* sent := call (SendMessage message_tx (uni_item result)) in
  let break_ := break_ || negb (is_ok sent) in
  if break_ then Ret (inr tt) else Ret (inl current).

(** One iteration of the [while let] loop. *)
Definition uni_step (uni_streams : q_IncomingUniStreams) (message_tx : MessageTx)
    (current : option q_RecvStream) : io (option q_RecvStream + unit) :=
  let* selected := within HandlesDropped (uni_messages_next uni_streams current) in
  match selected with
  | None => Ret (inr tt)
  | Some (None, _) => Ret (inr tt)
  | Some (Some result, current) => uni_report message_tx result current
  end.

Definition listen_on_uni_streams (uni_streams : q_IncomingUniStreams)
    (message_tx : MessageTx) : io unit :=
  loop (uni_step uni_streams message_tx) None.

(** ** Protocol handlers *)

Definition handle_endpoint_echo (send_stream : q_SendStream) (peer_addr : SocketAddr) :
    io (Result unit SendError) :=
  write_to_stream (EndpointEchoResp peer_addr) send_stream.

(** The check of [handle_endpoint_verification]: connect back and exchange an echo. *)
Definition verify (endpoint : q_Endpoint) (addr : SocketAddr) : io (Result unit RpcError) :=
  let* connecting := call (Connect endpoint addr SERVER_NAME) in
  let? connecting := Ret (map_err (from : _ -> ConnectionError) connecting) in
  let? connection := call (AwaitConnecting connecting) in
  let? (send_stream, recv_stream) := call (OpenBi (nc_connection connection)) in
  let? _ := write_to_stream EndpointEchoReq send_stream in
  let? msg := read_from_stream recv_stream in
  match msg with
  | Some (EndpointEchoResp _) => Ret (Ok tt)
  | msg =>
      let* error := or_panic (SerializationError_unexpected msg) in
      Ret (Err (from (from error : RecvError)))
  end.

Definition handle_endpoint_verification (endpoint : q_Endpoint) (send_stream : q_SendStream)
    (addr : SocketAddr) : io (Result unit SendError) :=
  let* verified := timeout ENDPOINT_VERIFICATION_TIMEOUT (verify endpoint addr) in
  let verified : Result unit RpcError :=
    match verified with Ok v => v | Err error => Err (from error) end in
  let? _ := write_to_stream (EndpointVerificationResp (is_ok verified)) send_stream in
  Ret (Ok tt).

(** ** Bidirectional streams *)

(** The [match] of one round of the loop over a stream: [inl] goes on, [inr] breaks.
    The replies hold the stream's lock, which user code holding the [SendStream] of
    a delivered message also takes. *)
Definition bi_dispatch (endpoint : q_Endpoint) (peer_addr : SocketAddr) (message_tx : MessageTx)
    (send_stream : q_SendStream) (r : Result (option WireMsg) RecvError) : io (unit + unit) :=
  match r with
  | Err error =>
      let break_ := is_connection_lost (T := unit) (Err error) in
      let* sent := call (SendMessage message_tx (Err error)) in
      let break_ := break_ || negb (is_ok sent) in
      if break_ then Ret (inr tt) else Ret (inl tt)
  | Ok None => Ret (inr tt)
  | Ok (Some (UserMsg msg)) =>
      let* sent := call (SendMessage message_tx (Ok (msg, Some (SendStream_new send_stream)))) in
      if is_ok sent then Ret (inl tt) else Ret (inr tt)
  | Ok (Some EndpointEchoReq) =>
      let* _ := call (LockStream send_stream) in
      let* _ := handle_endpoint_echo send_stream peer_addr in
      let* _ := call (UnlockStream send_stream) in
      Ret (inl tt)
  | Ok (Some (EndpointVerificationReq addr)) =>
      let* _ := call (LockStream send_stream) in
      let* _ := handle_endpoint_verification endpoint send_stream addr in
      let* _ := call (UnlockStream send_stream) in
      Ret (inl tt)
  | Ok _ => Ret (inl tt)
  end.

(** One stream of [listen_on_bi_streams]. *)
Definition handle_bi_stream (endpoint : q_Endpoint) (peer_addr : SocketAddr)
    (message_tx : MessageTx) (send_stream : q_SendStream) (recv_stream : q_RecvStream) : io unit :=
  loop (fun _ : unit =>
    let* r := read_from_stream recv_stream in
    bi_dispatch endpoint peer_addr message_tx send_stream r) tt.

(** [bi_streams.next()] under the filter. *)
Definition bi_streams_next (bi_streams : q_IncomingBiStreams) :
    io (option (Result (q_SendStream * q_RecvStream) ConnectionError)) :=
  let* next := call (NextBi bi_streams) in
  Ret (filter_benign_close next).

(** The streams accepted along a trace of the outer loop, and how it stands. *)
Inductive accepts (bi_streams : q_IncomingBiStreams) :
    list (event ev) -> list (q_SendStream * q_RecvStream) ->
    outcome (Result unit ConnectionError) -> Prop :=
| accepts_one tr tr' p ps o :
    runs (bi_streams_next bi_streams) tr (Done (Some (Ok p))) ->
    accepts bi_streams tr' ps o -> accepts bi_streams (tr ++ tr') (p :: ps) o
| accepts_end tr :
    runs (bi_streams_next bi_streams) tr (Done None) ->
    accepts bi_streams tr [] (Done (Ok tt))
| accepts_error tr e :
    runs (bi_streams_next bi_streams) tr (Done (Some (Err e))) ->
    accepts bi_streams tr [] (Done (Err e))
| accepts_halt tr h :
    runs (bi_streams_next bi_streams) tr (Halt h) ->
    accepts bi_streams tr [] (Halt h).

(** The event of accepting a stream, which starts its handler. *)
Definition accepts_stream (v : event ev) : bool :=
  match v with
  | Ev e x =>
      match e in ev T return T -> bool with
      | NextBi _ => fun a => match a with Some (Ok _) => true | _ => false end
      | _ => fun _ => false
      end x
  end.

(** How [listen_on_bi_streams] stands: the three ways its final [match] ends, still
    running, or panicked, as it is when one of the futures it polls panics. *)
Inductive bi_status :=
| BiRunning
| BiStreamEnded
| BiStoppedByError (e : ConnectionError)
| BiHandlesDropped
| BiPanicked.

Definition bi_standing (o : outcome (Result unit ConnectionError))
    (hs : list (list (event ev) * outcome unit)) (st : bi_status) : Prop :=
  match st with
  | BiRunning | BiHandlesDropped => True
  | BiStoppedByError e => o = Done (Err e)
  | BiStreamEnded => o = Done (Ok tt) /\ Forall (fun h => h.2 = Done tt) hs
  | BiPanicked => o = Halt Faulted \/ Exists (fun h => h.2 = Halt Faulted) hs
  end.

(** The runs of [listen_on_bi_streams]: the outer loop and the handlers of the
    accepted streams interleave, a handler after its stream was accepted. The listener
    ends when the outer stream has ended
    and all handlers are done, on an error of the outer stream, and at any moment
    when the connection handles are dropped. *)
Definition bi_listener (endpoint : q_Endpoint) (peer_addr : SocketAddr)
    (bi_streams : q_IncomingBiStreams) (message_tx : MessageTx)
    (tr : list (event ev)) (st : bi_status) : Prop :=
  exists tr0 ps o (hs : list (list (event ev) * outcome unit)),
    accepts bi_streams tr0 ps o
    /\ Forall2 (fun p h => runs (handle_bi_stream endpoint peer_addr message_tx p.1 p.2) h.1 h.2)
         ps hs
    /\ spawns accepts_stream tr0 (map fst hs) [] tr
    /\ bi_standing o hs st.

End Incoming.
