(* ===== verification/Channel.v ===== *)
(** * Taking messages from a connection

    [ConnectionIncoming::next] and the channel it reads: one call takes one item of the
    channel and returns its message, its error, or the end. *)

From S2P Require Import Prelude Std Foreign WireTypes Errors ConfigTypes Prog ProgFacts Effects.
From S2P Require Import Wire Connection Incoming.

Section Channel.
Context {F : Foreign} {Bc : Bincode}.

(** The messages taken from channels along a trace. *)
Definition event_taken (v : event ev) : list (option MessageItem) :=
  match v with
  | Ev e x =>
      match e in ev T return T -> list (option MessageItem) with
      | RecvMessage _ => fun a => [a]
      | _ => fun _ => []
      end x
  end.

Definition taken (tr : list (event ev)) := concat (map event_taken tr).

Lemma next_runs i tr r :
  runs (ConnectionIncoming_next i) tr (Done r) ->
  exists a, tr = [Ev (RecvMessage (message_rx i)) a]
    /\ match a with
       | Some (Ok (msg, _)) => r = Ok (Some msg)
       | Some (Err e) => r = Err e
       | None => r = Ok None
       end.
Proof.
  unfold ConnectionIncoming_next, next_with_stream. intros H.
  apply runs_try_done in H as [(x & t1 & t2 & -> & H1 & H)|(e & H1 & ->)];
    apply runs_bind_done in H1 as (a & t3 & t4 & -> & ->%runs_call_done & H1);
    apply runs_ret_done in H1 as [-> Ha]; exists a.
  - destruct a as [[[m st]|e']|]; cbn in Ha; simplify_eq; by apply runs_ret_done in H as [-> ->].
  - destruct a as [[[m st]|e']|]; cbn in Ha; by simplify_eq.
Qed.

Lemma taken_app t1 t2 : taken (t1 ++ t2) = taken t1 ++ taken t2.
Proof. unfold taken. by rewrite map_app, concat_app. Qed.

Lemma next_taken i tr o :
  runs (ConnectionIncoming_next i) tr o -> (length (taken tr) <= 1)%nat.
Proof.
  unfold ConnectionIncoming_next, next_with_stream, try_bind. intros Hr.
  assert (forall tr o, runs (bind (call (RecvMessage (message_rx i))) (fun item => Ret (transpose item))) tr o ->
    (length (taken tr) <= 1)%nat) as Hn.
  { clear. intros tr o [(a & t1 & t2 & -> & ->%runs_call_done & [-> _])|(h & -> & Hc)]%runs_bind; [done|].
    apply runs_call in Hc as [[-> _]|(x & -> & _)]; cbn; lia. }
  apply runs_bind in Hr as [(x & t1 & t2 & -> & H1 & H2)|(h & -> & Hr)]; [|by eapply Hn].
  assert (t2 = []) as -> by (destruct x as [[[]|]|]; by destruct H2). rewrite app_nil_r. by eapply Hn.
Qed.

Lemma next_shape i tr o :
  runs (ConnectionIncoming_next i) tr o ->
  tr = [] \/ exists a, tr = [Ev (RecvMessage (message_rx i)) a].
Proof.
  unfold ConnectionIncoming_next, next_with_stream, try_bind. intros Hr.
  apply runs_bind in Hr as [(x & t1 & t2 & -> & H1 & H2)|(h & -> & Hr)].
  - assert (t2 = []) as -> by (destruct x as [[[]|]|]; by destruct H2). rewrite app_nil_r.
    apply runs_bind_done in H1 as (a & t3 & t4 & -> & ->%runs_call_done & [-> _]%runs_ret_done). eauto.
  - apply runs_bind in Hr as [(a & t3 & t4 & -> & ->%runs_call_done & [-> _])|(h' & _ & Hc)]; [by eauto|].
    apply runs_call in Hc as [[-> _]|(x & -> & _)]; eauto.
Qed.

(** What [next] makes of an item. *)
Definition next_result (a : option MessageItem) : Result (option Bytes) RecvError :=
  match a with
  | Some (Ok (msg, _)) => Ok (Some msg)
  | Some (Err e) => Err e
  | None => Ok None
  end.

(** Calls of [next], one after the other, return the items in the order of the channel. *)
Lemma next_all i results ts :
  Forall2 (fun r t => runs (ConnectionIncoming_next i) t (Done r)) results ts ->
  results = map next_result (taken (concat ts)).
Proof.
  induction 1 as [|r t results ts (a & -> & Ha)%next_runs _ IH]; [done|].
  cbn [concat]. rewrite taken_app, map_app, <- IH.
  destruct a as [[[msg st]|e]|]; cbn; by subst r.
Qed.

End Channel.
