(* ===== verification/Igd.v ===== *)
(** * igd.rs: port forwarding with the Internet Gateway Device protocol *)

From S2P Require Import Prelude Std Foreign WireTypes Errors ConfigTypes Prog Effects.

Local Open Scope Z_scope.
Local Open Scope prog_scope.

Section Igd.
Context {F : Foreign}.

Definition add_port (ext_port : Z) (local_addr : SocketAddr) (lease_duration : Z) :
    io (Result unit IgdError) :=
  let? gateway := call SearchGateway in
  match local_addr with
  | V4 local_addr =>
      let? _ := call (GatewayAddPort gateway ext_port local_addr lease_duration "MaidSafe.net") in
      Ret (Ok tt)
  | V6 _ => Ret (Err IgdError_NotSupported)
  end.

Definition renew_port (ext_port : Z) (local_addr : SocketAddr) (lease_duration : Z) :
    io (Result unit IgdError) :=
  let? gateway := call SearchGateway in
  match local_addr with
  | V4 socket_addr =>
      let? _ := call (GatewayAddPort gateway ext_port socket_addr lease_duration "MaidSafe.net") in
      Ret (Ok tt)
  | V6 _ => Ret (Err IgdError_NotSupported)
  end.

(** One round of the renewal task. *)
Definition renew_step (ext_port : Z) (local_addr : SocketAddr) (lease_interval : Duration)
    (lease_interval_u32 : Z) (termination_rx : TerminationRx) : io (unit + unit) :=
  let* _ := call (Tick lease_interval) in
  let* r := call (TryRecvTermination termination_rx) in
  match r with
  | Err broadcast_Empty =>
      let* _ := renew_port ext_port local_addr lease_interval_u32 in
      Ret (inl tt)
  | _ => Ret (inr tt)
  end.

(** The renewal task. [time::interval_at] panics on a zero period. *)
Definition renew_port_periodically (ext_port : Z) (local_addr : SocketAddr)
    (lease_interval : Duration) (lease_interval_u32 : Z) (termination_rx : TerminationRx) :
    io unit :=
  if Duration_zero lease_interval then Fault
  else
    loop (fun _ : unit =>
      renew_step ext_port local_addr lease_interval lease_interval_u32 termination_rx) tt.

(** [lease_interval.min(Duration::from_secs(u32::MAX.into()))]. *)
Definition cap_lease (lease_interval : Duration) : Duration :=
  Duration_min lease_interval (from_secs u32_MAX).

Definition igd_forward_port (ext_port : Z) (local_addr : SocketAddr) (lease_interval : Duration)
    (termination_rx : TerminationRx) : io (Result unit IgdError) :=
  let lease_interval := cap_lease lease_interval in
  let lease_interval_u32 := as_u32 (as_secs lease_interval) in
  let? _ := add_port ext_port local_addr lease_interval_u32 in
  let* _ := call (Spawn (RenewPortPeriodically ext_port local_addr lease_interval
                           lease_interval_u32 termination_rx)) in
  Ret (Ok tt).

End Igd.
