(* ===== verification/IgdFacts.v ===== *)
(** * Port forwarding: leases and their renewal *)

From S2P Require Import Prelude Std Foreign WireTypes Errors ConfigTypes Prog ProgFacts Effects.
From S2P Require Import Igd.

Local Open Scope Z_scope.
Local Open Scope prog_scope.

Section IgdFacts.
Context {F : Foreign}.

(** The lease in seconds that the gateway is asked for. *)
Definition lease_of (d : Duration) : Z := Z.min (secs d) u32_MAX.

Lemma cap_lease_secs d : Duration_wf d -> secs (cap_lease d) = lease_of d.
Proof.
  intros [_ Hn]. unfold cap_lease, Duration_min, Duration_le, lease_of, from_secs.
  cbn [secs nanos]. destruct (Z.ltb_spec (secs d) u32_MAX); [lia|].
  destruct (Z.ltb_spec u32_MAX (secs d)); [cbn [secs]; lia|].
  destruct (Z.leb_spec (nanos d) 0); cbn [secs]; lia.
Qed.

(** The cast to [u32] loses nothing, for any duration. *)
Lemma lease_lossless d : Duration_wf d -> as_u32 (as_secs (cap_lease d)) = lease_of d.
Proof.
  intros Hd. unfold as_u32, as_secs. rewrite cap_lease_secs by done.
  destruct Hd as [[Hd _] _]. apply Z.mod_small. unfold lease_of, u32_MAX. lia.
Qed.

(** The trace of a successful [forward_port]. *)
Definition forwarding gateway (ext_port : Z) (la : SocketAddrV4) (d : Duration) rx :
    list (event ev) :=
  [Ev SearchGateway (Ok gateway);
   Ev (GatewayAddPort gateway ext_port la (lease_of d) "MaidSafe.net") (Ok tt);
   Ev (Spawn (RenewPortPeriodically ext_port (V4 la) (cap_lease d) (lease_of d) rx)) tt].

Lemma add_port_runs ext_port local lease tr r :
  runs (add_port ext_port local lease) tr (Done r) ->
  match local with
  | V4 la =>
      (exists e, tr = [Ev SearchGateway (Err e)] /\ r = Err (IgdError_Search e))
      \/ exists gateway a, tr = [Ev SearchGateway (Ok gateway);
                                 Ev (GatewayAddPort gateway ext_port la lease "MaidSafe.net") a]
           /\ r = map_err from a
  | V6 _ =>
      exists a, tr = [Ev SearchGateway a]
        /\ r = match a with Ok _ => Err IgdError_NotSupported | Err e => Err (IgdError_Search e) end
  end.
Proof.
  unfold add_port. intros H.
  apply runs_try_done in H as [(gw & t1 & t2 & -> & H1 & H)|(e & H1 & ->)]; apply runs_call_done in H1 as ->.
  - destruct local as [la|la].
    + right. apply runs_try_done in H as [([] & t3 & t4 & -> & H1 & H)|(e & H1 & ->)];
        apply runs_call_done in H1 as ->.
      * apply runs_ret_done in H as [-> ->]. by exists gw, (Ok tt).
      * by exists gw, (Err e).
    + apply runs_ret_done in H as [-> ->]. by exists (Ok gw).
  - destruct local as [la|la]; [left; eauto|]. by exists (Err e).
Qed.

(** C33: a successful [forward_port] mapped the external port to the local IPv4 address
    for the requested number of seconds, at most [u32::MAX], and started one renewal
    task with the same lease; a failed one started none. IPv6 is never mapped. *)
Theorem forward_port_runs ext_port local d rx tr r :
  Duration_wf d ->
  runs (igd_forward_port ext_port local d rx) tr (Done r) ->
  match r with
  | Ok _ => exists gateway la, local = V4 la /\ tr = forwarding gateway ext_port la d rx
  | Err e =>
      (forall t, Ev (Spawn t) tt ∉ tr)
      /\ match local with
         | V4 _ => e <> IgdError_NotSupported
         | V6 _ => exists a, tr = [Ev SearchGateway a] /\ (is_ok a = true -> e = IgdError_NotSupported)
         end
  end.
Proof.
  intros Hd. unfold igd_forward_port. rewrite lease_lossless by done. intros H.
  apply runs_try_done in H as [([] & t1 & t2 & -> & H1 & H)|(e & H1 & ->)]; apply add_port_runs in H1.
  - destruct local as [la|la]; [|by destruct H1 as ([g|e] & _ & ?)].
    destruct H1 as [(e & _ & ?)|(g & [[]|e] & -> & ?)]; [done| |done].
    apply runs_bind_done in H as ([] & t3 & t4 & -> & H2 & H). apply runs_call_done in H2 as ->.
    apply runs_ret_done in H as [-> ->]. by exists g, la.
  - destruct local as [la|la].
    + destruct H1 as [(e' & -> & He)|(g & [u|e'] & -> & He)]; simplify_eq/=; (split; [|done]);
        intros t Ht; repeat (apply elem_of_cons in Ht as [Ht|Ht]; [done|]); by apply not_elem_of_nil in Ht.
    + destruct H1 as ([g|e'] & -> & He); simplify_eq/=; (split; [|by eexists]);
        intros t Ht; repeat (apply elem_of_cons in Ht as [Ht|Ht]; [done|]); by apply not_elem_of_nil in Ht.
Qed.

(** A lease interval below a second is rounded down to a lease of zero, which
    asks the gateway for a mapping without a time limit. *)
Lemma subsecond_lease ext_port la d rx :
  Duration_wf d -> secs d = 0 ->
  lease_of d = 0 /\ forall gateway, runs (igd_forward_port ext_port (V4 la) d rx)
    (forwarding gateway ext_port la d rx) (Done (Ok tt)).
Proof.
  intros Hd Hs. split; [unfold lease_of, u32_MAX; lia|]. intros gateway.
  unfold igd_forward_port. rewrite lease_lossless by done.
  apply runs_try_done. left. eexists tt, [_; _], [_]. split; [done|]. split.
  - apply runs_try_done. left. eexists gateway, [_], [_]. split_and!; [done|by apply runs_call_done|].
    apply runs_try_done. left. eexists tt, [_], []. split_and!; [done|by apply runs_call_done|].
    by apply runs_ret_done.
  - apply runs_bind_done. eexists tt, [_], []. split_and!; [done|by apply runs_call_done|].
    by apply runs_ret_done.
Qed.

(** ** The renewal task *)

Section Renewal.
Context (ext_port : Z) (local : SocketAddr) (period : Duration) (lease : Z) (rx : TerminationRx).

Definition event_terminates (v : event ev) : Prop :=
  match v with
  | Ev e x =>
      match e in ev T return T -> Prop with
      | TryRecvTermination _ => fun a => a <> Err broadcast_Empty
      | _ => fun _ => False
      end x
  end.

(** [+1] for a tick of the timer, [-1] for a mapping request. *)
Definition event_balance (v : event ev) : Z :=
  match v with
  | Ev e _ => match e with Tick _ => 1 | GatewayAddPort _ _ _ _ _ => -1 | _ => 0 end
  end.

Definition balance (tr : list (event ev)) : Z := foldr (fun v b => event_balance v + b) 0 tr.

Lemma balance_app t1 t2 : balance (t1 ++ t2) = balance t1 + balance t2.
Proof. unfold balance. induction t1 as [|v t1 IH]; cbn in *; lia. Qed.

Lemma renew_port_ok tr o :
  runs (renew_port ext_port local lease) tr o ->
  -1 <= balance tr /\ Forall (fun v => ~ event_terminates v) tr.
Proof.
  intros Hr. split.
  - unfold renew_port in Hr. apply runs_bind in Hr as [(a & t1 & t2 & -> & H1 & H2)|(h & -> & H1)].
    + apply runs_call_done in H1 as ->. rewrite balance_app. cbn -[balance].
      assert (-1 <= balance t2); [|cbn; lia].
      destruct a as [g|e]; [|by destruct H2 as [-> _]]. destruct local as [la|la]; [|by destruct H2 as [-> _]].
      apply runs_bind in H2 as [(b & t3 & t4 & -> & H3 & H4)|(h & -> & H3)].
      * apply runs_call_done in H3 as ->. assert (t4 = []) as -> by (destruct b; by destruct H4). done.
      * by apply runs_call in H3 as [[-> _]|(b & -> & _)].
    + by apply runs_call in H1 as [[-> _]|(a & -> & _)].
  - revert tr o Hr. change (only (fun v => ~ event_terminates v) (renew_port ext_port local lease)).
    unfold renew_port. repeat (only_step || tauto).
Qed.

(** One round: a tick, the check for termination, and at most one renewal. *)
Lemma renewal_round t (o : outcome (unit + unit)) :
  runs (renew_step ext_port local period lease rx) t o ->
  0 <= balance t /\ final event_terminates t
  /\ (forall u, o = Done (inl u) -> Forall (fun v => ~ event_terminates v) t)
  /\ (forall u, o = Done (inr u) ->
        exists t' a, t = t' ++ [Ev (TryRecvTermination rx) a] /\ a <> Err broadcast_Empty).
Proof.
  intros [([] & t1 & t2 & -> & H1 & H2)|(h & -> & H1)]%runs_bind.
  2: { apply runs_call in H1 as [[-> _]|([] & -> & _)]; (split_and!; [done| |done..]);
       [by apply final_none|apply final_one]. }
  apply runs_call_done in H1 as ->. rewrite balance_app.
  apply runs_bind in H2 as [(r & t3 & t4 & -> & H3 & H4)|(h & -> & H3)].
  2: { apply runs_call in H3 as [[-> _]|(a & -> & _)]; (split_and!; [done| |done..]);
       [apply final_one|]. apply (final_app _ [_]); [apply Forall_singleton; tauto|apply final_one]. }
  apply runs_call_done in H3 as ->. rewrite balance_app.
  assert (r = Err broadcast_Empty \/ r <> Err broadcast_Empty) as [->|Hne]
    by (destruct r as [u|[]]; [right|left|right|right]; done).
  - apply runs_bind in H4 as [(r & t5 & t6 & -> & H5 & H6)|(h & -> & H5)];
      apply renew_port_ok in H5 as [Hb Ht].
    + destruct H6 as [-> Ho]. rewrite app_nil_r. cbn [balance foldr event_balance].
      assert (Forall (fun v => ~ event_terminates v)
        ([Ev (Tick period) tt] ++ [Ev (TryRecvTermination rx) (Err broadcast_Empty)] ++ t5)) as HF.
      { constructor; [tauto|]. constructor; [cbn; tauto|done]. }
      split_and!; [lia|by apply final_none|done|]. intros u ->. by destruct Ho.
    + cbn [balance foldr event_balance]. split_and!; [lia| |done..].
      apply final_none. constructor; [tauto|]. constructor; [cbn; tauto|done].
  - assert (t4 = [] /\ forall u, o <> Done (inl u)) as [-> Ho]
      by (destruct r as [u|[]]; (try done); destruct H4 as [-> Ho]; (split; [done|]); intros u' ->; by destruct Ho).
    cbn [balance foldr event_balance]. split_and!; [lia| | |].
    + apply (final_app _ [_]); [apply Forall_singleton; tauto|apply final_one].
    + intros u ->. by destruct (Ho u).
    + intros u _. by exists [Ev (Tick period) tt], r.
Qed.

(** C34: the renewal task makes at most one mapping request per period of its timer,
    does nothing more once it saw the termination message or the end of the channel,
    and returns only then: failed renewals do not end it. *)
Theorem renewal_stops tr o :
  runs (renew_port_periodically ext_port local period lease rx) tr o ->
  0 <= balance tr /\ final event_terminates tr
  /\ (o = Done tt ->
      exists tr' a, tr = tr' ++ [Ev (TryRecvTermination rx) a] /\ a <> Err broadcast_Empty).
Proof.
  unfold renew_port_periodically. destruct (Duration_zero period).
  { intros [-> [->| ->]]; (split_and!; [done|by apply final_none|done]). }
  intros Hr%runs_loop. set (u := tt) in Hr at 1. clearbody u.
  induction Hr as [u0 u1 t1 t2 o H1 _ (IHb & IHf & IHd)|u0 b t H1|u0 h t H1];
    apply renewal_round in H1 as (Hb & Hf & Hc & Hd).
  - rewrite balance_app. split_and!; [lia|by eapply final_app, IHf; eapply Hc|].
    intros Ho. destruct (IHd Ho) as (t' & a & -> & Ha). exists (t1 ++ t'), a. by rewrite app_assoc.
  - split_and!; [done..|]. intros _. by eapply Hd.
  - by split_and!.
Qed.

(** With a zero lease interval the renewal task panics before its first renewal. *)
Lemma zero_lease_panics :
  Duration_zero period = true ->
  runs (renew_port_periodically ext_port local period lease rx) [] (Halt Faulted)
  /\ forall tr o, runs (renew_port_periodically ext_port local period lease rx) tr o ->
       tr = [] /\ o <> Done tt.
Proof.
  intros Hz. unfold renew_port_periodically. rewrite Hz. split; [cbn; auto|].
  intros tr o [-> [->| ->]]; done.
Qed.

End Renewal.
End IgdFacts.
