(* ===== verification/Endpoint.v ===== *)
(** * endpoint.rs: endpoints

    [Endpoint] with every method, [IncomingConnections] and the accept loop. *)

From Stdlib Require Import Strings.Byte.
From S2P Require Import Prelude Std Foreign WireTypes Errors ConfigTypes Prog Effects Wire.
From S2P Require Import Config Connection Igd.

Local Open Scope Z_scope.
Local Open Scope prog_scope.

Definition PORT_FORWARD_TIMEOUT : Duration := from_secs 30.
Definition ECHO_SERVICE_QUERY_TIMEOUT : Duration := from_secs 30.
Definition STANDARD_CHANNEL_SIZE : Z := 10000.

Section Endpoint.
Context {F : Foreign} {Bc : Bincode} {Bo : Backoff}.

Record IncomingConnections := mkIncomingConnections { ic_rx : ConnectionRx }.

Definition IncomingConnections_next (i : IncomingConnections) :
    io (option (Connection * ConnectionIncoming)) :=
  call (RecvConnection (ic_rx i)).

Definition IncomingConnections_try_recv (i : IncomingConnections) :
    io (Result (Connection * ConnectionIncoming) mpsc_TryRecvError) :=
  call (TryRecvConnection (ic_rx i)).

Record Endpoint := mkEndpoint
  { ep_local_addr : SocketAddr;
    ep_public_addr : option SocketAddr;
    quinn_endpoint : q_Endpoint;
    ep_retry_config : RetryConfig;
    termination_tx : TerminationTx }.

Definition local_addr (e : Endpoint) : SocketAddr := ep_local_addr e.

Definition public_addr (e : Endpoint) : SocketAddr :=
  unwrap_or (ep_public_addr e) (ep_local_addr e).

Definition set_public_addr (e : Endpoint) (a : SocketAddr) : Endpoint :=
  {| ep_local_addr := ep_local_addr e;
     ep_public_addr := Some a;
     quinn_endpoint := quinn_endpoint e;
     ep_retry_config := ep_retry_config e;
     termination_tx := termination_tx e |}.

(** ** Connecting *)

(** The closure [new_connection] retries: every error is transient. *)
Definition connect_attempt (e : Endpoint) (node_addr : SocketAddr) :
    io (Result (Connection * ConnectionIncoming) (backoff_Error ConnectionError)) :=
  let* r := call (Connect (quinn_endpoint e) node_addr SERVER_NAME) in
  let? connecting := Ret (map_err (from : _ -> ConnectionError) r) in
  let* r := call (AwaitConnecting connecting) in
  let? new_conn :=
    match r with
    | Ok new_conn =>
        let* c := Connection_new (quinn_endpoint e) (Some (ep_retry_config e)) new_conn in
        Ret (Ok c)
    | Err error => Ret (Err (from error : ConnectionError))
    end in
  Ret (Ok new_conn).

Definition new_connection (e : Endpoint) (node_addr : SocketAddr) :
    io (Result (Connection * ConnectionIncoming) ConnectionError) :=
  RetryConfig_retry (ep_retry_config e) (connect_attempt e node_addr).

Definition connect_to (e : Endpoint) (node_addr : SocketAddr) :
    io (Result (Connection * ConnectionIncoming) ConnectionError) :=
  new_connection e node_addr.

Definition connect_to_any (e : Endpoint) (peer_addrs : list SocketAddr) :
    io (option (Connection * ConnectionIncoming)) :=
  match peer_addrs with
  | [] => Ret None
  | _ =>
      let* r := race (map (new_connection e) peer_addrs) in
      match r with
      | Ok connection => Ret (Some connection)
      | Err _ => Ret None
      end
  end.

(** ** The RPCs *)

Definition is_reachable (e : Endpoint) (peer_addr : SocketAddr) : io (Result unit RpcError) :=
  let? (connection, _) := new_connection e peer_addr in
  let? (send_stream, recv_stream) := open_bi connection in
  let? _ := send_wire_msg send_stream EndpointEchoReq in
  let? r := timeout ECHO_SERVICE_QUERY_TIMEOUT (next_wire_msg recv_stream) in
  let? msg := Ret r in
  match msg with
  | Some (EndpointEchoResp _) => Ret (Ok tt)
  | Some _ => Ret (Ok tt)
  | None => Ret (Ok tt)
  end.

Definition endpoint_echo (contact : Connection) : io (Result SocketAddr RpcError) :=
  let? (send, recv) := open_bi contact in
  let? _ := send_wire_msg send EndpointEchoReq in
  let? r := timeout ECHO_SERVICE_QUERY_TIMEOUT (next_wire_msg recv) in
  let? msg := Ret r in
  match msg with
  | Some (EndpointEchoResp addr) => Ret (Ok addr)
  | msg =>
      let* error := or_panic (SerializationError_unexpected msg) in
      Ret (Err (from (RecvError_Serialization error)))
  end.

Definition endpoint_verification (contact : Connection) (public_addr : SocketAddr) :
    io (Result bool RpcError) :=
  let? (send, recv) := open_bi contact in
  let? _ := send_wire_msg send (EndpointVerificationReq public_addr) in
  let? r := timeout ECHO_SERVICE_QUERY_TIMEOUT (next_wire_msg recv) in
  let? msg := Ret r in
  match msg with
  | Some (EndpointVerificationResp valid) => Ret (Ok valid)
  | msg =>
      let* error := or_panic (SerializationError_unexpected msg) in
      Ret (Err (from (RecvError_Serialization error)))
  end.

(** ** The public address *)

(** The address built from the local one, the configuration and what the contact
    sees. *)
Definition choose_public_addr (local : SocketAddr) (config_external_ip : option IpAddr)
    (config_external_port : option Z) (visible_addr : option SocketAddr) : SocketAddr :=
  let public_addr := local in
  let public_addr :=
    match config_external_ip with
    | Some external_ip => set_ip public_addr external_ip
    | None =>
        match visible_addr with
        | Some visible_addr => set_ip public_addr (sa_ip visible_addr)
        | None => public_addr
        end
    end in
  match config_external_port with
  | Some external_port => set_port public_addr external_port
  | None =>
      match visible_addr with
      | Some visible_addr => set_port public_addr (sa_port visible_addr)
      | None => public_addr
      end
  end.

(** What the contact sees of us; the peer's address is asked for only to report
    an error. *)
Definition visible_addr (contact : option Connection) :
    io (Result (option SocketAddr) EndpointError) :=
  match contact with
  | Some contact =>
      let* r := endpoint_echo contact in
      match r with
      | Ok addr => Ret (Ok (Some addr))
      | Err error =>
          let* peer := remote_address contact in
          Ret (Err (EndpointError_EndpointEcho peer error))
      end
  | None => Ret (Ok None)
  end.

(** Returns the address and the endpoint with it set. *)
Definition resolve_public_addr (e : Endpoint) (config_external_ip : option IpAddr)
    (config_external_port : option Z) (contact : option Connection) :
    io (Result (SocketAddr * Endpoint) EndpointError) :=
  let? visible_addr := visible_addr contact in
  let public_addr :=
    choose_public_addr (ep_local_addr e) config_external_ip config_external_port visible_addr in
  Ret (Ok (public_addr, set_public_addr e public_addr)).

(** ** Construction *)

(** The accept loop, one round and the whole. *)
Definition accept_step (quinn_incoming : q_Incoming) (connection_tx : ConnectionTx)
    (quinn_endpoint : q_Endpoint) (retry_config : RetryConfig) : io (unit + unit) :=
  let* next := call (NextIncoming quinn_incoming) in
  match next with
  | Some quinn_conn =>
      let* r := call (AwaitConnecting quinn_conn) in
      match r with
      | Ok connection =>
          let* c := Connection_new quinn_endpoint (Some retry_config) connection in
          let* _ := call (SendConnection connection_tx c) in
          Ret (inl tt)
      | Err _ => Ret (inl tt)
      end
  | None => Ret (inr tt)
  end.

Definition accept_connections (quinn_incoming : q_Incoming) (connection_tx : ConnectionTx)
    (quinn_endpoint : q_Endpoint) (retry_config : RetryConfig) : io unit :=
  loop (fun _ : unit => accept_step quinn_incoming connection_tx quinn_endpoint retry_config) tt.

Definition listen_for_incoming_connections (quinn_incoming : q_Incoming)
    (connection_tx : ConnectionTx) (quinn_endpoint : q_Endpoint) (retry_config : RetryConfig) :
    io unit :=
  call (Spawn (ListenForIncomingConnections quinn_incoming connection_tx quinn_endpoint
                 retry_config)).

(** The [if config.forward_port] block of [new_peer]. *)
Definition forward_if_configured (config : InternalConfig) (public_addr : SocketAddr)
    (local : SocketAddr) (termination_rx : TerminationRx) : io (Result unit EndpointError) :=
  if ic_forward_port config then
    let* r :=
      timeout PORT_FORWARD_TIMEOUT
        (igd_forward_port (sa_port public_addr) local (ic_upnp_lease_duration config)
           termination_rx) in
    let? r := Ret (map_err (fun _ => IgdError_TimedOut) r) in
    let? _ := Ret r in
    Ret (Ok tt)
  else Ret (Ok tt).

(** The final reachability check of [new_peer]. *)
Definition check_reachable (contact : option (Connection * ConnectionIncoming))
    (public_addr : SocketAddr) : io (Result unit EndpointError) :=
  match contact with
  | Some (contact, _) =>
      let* r := endpoint_verification contact public_addr in
      match r with
      | Err error =>
          let* peer := remote_address contact in
          Ret (Err (EndpointError_EndpointVerification peer error))
      | Ok valid =>
          if negb valid then Ret (Err (EndpointError_Unreachable public_addr)) else Ret (Ok tt)
      end
  | None => Ret (Ok tt)
  end.

Definition new_peer (local_addr : SocketAddr) (contacts : list SocketAddr) (config : Config) :
    io (Result (Endpoint * IncomingConnections * option (Connection * ConnectionIncoming))
          EndpointError) :=
  let? config := try_from_config config in
  let* (termination_tx, termination_rx) := call (NewTerminationChannel 1) in
  let? (quinn_endpoint, quinn_incoming) := call (EndpointServer (ic_server config) local_addr) in
  let? quinn_endpoint_socket_addr := call (EndpointLocalAddr quinn_endpoint) in
  let* _ := call (SetDefaultClientConfig quinn_endpoint (ic_client config)) in
  let endpoint :=
    {| ep_local_addr := quinn_endpoint_socket_addr;
       ep_public_addr := None;
       quinn_endpoint := quinn_endpoint;
       ep_retry_config := ic_retry_config config;
       termination_tx := termination_tx |} in
  let* contact := connect_to_any endpoint contacts in
  let? (public_addr, endpoint) :=
    resolve_public_addr endpoint (ic_external_ip config) (ic_external_port config)
      (option_map fst contact) in
  let endpoint := set_public_addr endpoint public_addr in
  let? _ := forward_if_configured config public_addr (ep_local_addr endpoint) termination_rx in
  let* (connection_tx, connection_rx) := call (NewConnectionChannel STANDARD_CHANNEL_SIZE) in
  let* _ :=
    listen_for_incoming_connections quinn_incoming connection_tx quinn_endpoint
      (ep_retry_config endpoint) in
  let? _ := check_reachable contact public_addr in
  Ret (Ok (endpoint, mkIncomingConnections connection_rx, contact)).

Definition new_client (local_addr : SocketAddr) (config : Config) :
    io (Result Endpoint ClientEndpointError) :=
  let? config := try_from_config config in
  let* (termination_tx, _) := call (NewTerminationChannel 1) in
  let? quinn_endpoint := call (EndpointClient local_addr) in
  let? local_quinn_socket_addr := call (EndpointLocalAddr quinn_endpoint) in
  let* _ := call (SetDefaultClientConfig quinn_endpoint (ic_client config)) in
  Ret (Ok
    {| ep_local_addr := local_quinn_socket_addr;
       ep_public_addr := None;
       quinn_endpoint := quinn_endpoint;
       ep_retry_config := ic_retry_config config;
       termination_tx := termination_tx |}).

Definition Endpoint_close (e : Endpoint) : io unit :=
  let* _ := call (SendTermination (termination_tx e)) in
  call (EndpointClose (quinn_endpoint e) 0 (String.list_byte_of_string "Endpoint closed")).

End Endpoint.
