(* ===== verification/ErrorFacts.v ===== *)
(** * Properties of the error conversions and of the configuration data *)

From Stdlib Require Import Ascii.
From S2P Require Import Prelude Std Foreign WireTypes Errors ConfigTypes.

Local Open Scope Z_scope.

Section ErrorFacts.
Context {F : Foreign}.

(** The quinn errors that stand for a graceful end of a connection. *)
Definition graceful (e : q_ConnectionError) : bool :=
  match e with
  | q_TimedOut | q_LocallyClosed => true
  | q_ApplicationClosed c => ac_error_code c =? 0
  | _ => false
  end.

(** A converted connection error is benign exactly when it is an idle timeout, a
    local close, or a close by the peer application with code 0. *)
Lemma is_benign_spec (e : q_ConnectionError) :
  is_benign (from e) = graceful e.
Proof. by destruct e as [| |[]|[]| | |]. Qed.

Lemma is_benign_iff (e : ConnectionError) :
  is_benign e = true <->
  e = ConnectionError_TimedOut \/ e = ConnectionError_Closed Close_Local
  \/ exists reason, e = ConnectionError_Closed (Close_Application 0 reason).
Proof.
  split.
  - destruct e as [| | | | | | | |[|code reason|]]; try done; auto.
    cbn. intros H%Z.eqb_eq. subst. eauto.
  - by intros [->|[->|[reason ->]]].
Qed.

(** The conversion of a close keeps the code and the reason: the two paths from a
    quinn close to [ConnectionError::Closed] agree. *)
Lemma close_conversions_agree c :
  (from (q_ApplicationClosed c) : ConnectionError) = ConnectionError_Closed (from c).
Proof. done. Qed.

(** A read error is reported as the loss of the connection exactly when quinn
    reported it as such, with the error converted; a stream that ended early is a
    serialization error. *)
Lemma recv_error_of_read_exact (e : q_ReadExactError) (ce : ConnectionError) :
  (from e : RecvError) = RecvError_ConnectionLost ce <->
  exists qe, e = q_ReadExactReadError (q_ReadConnectionLost qe) /\ ce = from qe.
Proof.
  split.
  - destruct e as [|[]]; cbn; try discriminate. intros [= <-]. eauto.
  - by intros (qe & -> & ->).
Qed.

Lemma send_error_connection_lost (e : q_WriteError) (ce : ConnectionError) :
  (from e : SendError) = SendError_ConnectionLost ce <->
  exists qe, e = q_WriteConnectionLost qe /\ ce = from qe.
Proof.
  split.
  - destruct e; cbn; try discriminate. intros [= <-]. eauto.
  - by intros (qe & -> & ->).
Qed.

Lemma write_error_not_serialization (e : q_WriteError) se :
  (from e : SendError) <> SendError_Serialization se.
Proof. by destruct e. Qed.

End ErrorFacts.

(** ** Defaults *)

(** The structopt default of the initial retry interval is the documented
    default; those of the maximal interval and of the total time go through
    [parse_millis] and so stand for 15 ms and 30 ms, not for the 15 s and 30 s of
    the constants. The two factors are read as their constants. *)
Lemma structopt_defaults :
  parse_millis DEFAULT_INITIAL_RETRY_INTERVAL_STR = Ok DEFAULT_INITIAL_RETRY_INTERVAL
  /\ parse_millis DEFAULT_MAX_RETRY_INTERVAL_STR = Ok (from_millis 15)
  /\ parse_millis DEFAULT_RETRYING_MAX_ELAPSED_TIME_STR = Ok (from_millis 30)
  /\ from_millis 15 <> DEFAULT_MAX_RETRY_INTERVAL
  /\ from_millis 30 <> DEFAULT_RETRYING_MAX_ELAPSED_TIME
  /\ f64_from_str DEFAULT_RETRY_INTERVAL_MULTIPLIER_STR = Some DEFAULT_RETRY_INTERVAL_MULTIPLIER
  /\ f64_from_str DEFAULT_RETRY_DELAY_RAND_FACTOR_STR = Some DEFAULT_RETRY_DELAY_RAND_FACTOR.
Proof. by vm_compute. Qed.

Lemma from_millis_wf ms : u64_range ms -> Duration_wf (from_millis ms).
Proof.
  unfold u64_range, Duration_wf, from_millis, NANOS_PER_SEC. cbn [secs nanos]. intros H.
  pose proof (Z.mod_pos_bound ms 1000 ltac:(lia)).
  assert (0 <= ms / 1000 <= ms) by (split; [apply Z.div_pos; lia|apply Z.div_le_upper_bound; lia]).
  unfold u64_range. lia.
Qed.

Lemma parse_digits_range s acc v :
  u64_range acc -> parse_digits acc s = Ok v -> u64_range v.
Proof.
  revert acc. induction s as [|c s IH]; intros acc Ha; cbn; [by intros [= <-]|].
  unfold digit_of. destruct ((48 <=? _) && (_ <=? 57)) eqn:Ec; [|done].
  apply andb_prop in Ec as [E1%Z.leb_le E2%Z.leb_le].
  destruct (Z.ltb_spec (acc * 10 + (Z.of_nat (Ascii.nat_of_ascii c) - 48)) (2 ^ 64)); [|done].
  apply IH. unfold u64_range in *. lia.
Qed.

Lemma parse_millis_wf s d : parse_millis s = Ok d -> Duration_wf d.
Proof.
  unfold parse_millis. destruct (u64_from_str s) as [ms|] eqn:E; cbn; [|done].
  intros [= <-]. apply from_millis_wf. revert E. unfold u64_from_str.
  repeat case_match; try done; by apply parse_digits_range; unfold u64_range.
Qed.

(** *** Numerals, positionally *)

Fixpoint all_digits (s : string) : Prop :=
  match s with
  | EmptyString => True
  | String c s => is_Some (digit_of c) /\ all_digits s
  end.

Fixpoint numeral (s : string) : Z :=
  match s with
  | EmptyString => 0
  | String c s => unwrap_or (digit_of c) 0 * 10 ^ Z.of_nat (String.length s) + numeral s
  end.

(** [s] is a numeral for [v]: decimal digits, at least one, after an optional plus. *)
Definition denotes (s : string) (v : Z) : Prop :=
  exists ds, (s = ds \/ s = String "+"%char ds) /\ ds <> EmptyString /\ all_digits ds /\ v = numeral ds.

Lemma digit_of_range c d : digit_of c = Some d -> 0 <= d <= 9.
Proof.
  unfold digit_of. destruct ((48 <=? _) && (_ <=? 57)) eqn:E; [|done]. intros [= <-].
  apply andb_prop in E as [E1%Z.leb_le E2%Z.leb_le]. lia.
Qed.

Lemma numeral_nonneg s : 0 <= numeral s.
Proof.
  induction s as [|c s IH]; cbn; [done|].
  destruct (digit_of c) as [d|] eqn:E; cbn; [apply digit_of_range in E; nia|lia].
Qed.

(** Left to right and positionally, a numeral has the same value, and it overflows on
    the way exactly when the value does. *)
Lemma parse_digits_numeral s acc v :
  0 <= acc < 2 ^ 64 ->
  parse_digits acc s = Ok v <->
  all_digits s /\ v = acc * 10 ^ Z.of_nat (String.length s) + numeral s /\ v < 2 ^ 64.
Proof.
  revert acc. induction s as [|c s IH]; intros acc Ha; cbn [parse_digits all_digits numeral String.length].
  - rewrite Z.pow_0_r. split; [intros [= <-]; lia|]. intros (_ & -> & _). f_equal. lia.
  - destruct (digit_of c) as [d|] eqn:Ed; cbn [unwrap_or].
    2: { split; [done|]. intros [[[? ?] _] _]. done. }
    apply digit_of_range in Ed. pose proof (numeral_nonneg s).
    rewrite Nat2Z.inj_succ, Z.pow_succ_r by lia.
    pose proof (Z.pow_pos_nonneg 10 (Z.of_nat (String.length s)) ltac:(lia) ltac:(lia)).
    destruct (Z.ltb_spec (acc * 10 + d) (2 ^ 64)).
    + rewrite IH by lia. split; [intros (? & -> & ?)|intros ([_ ?] & -> & ?)];
        (split; [by eauto|split; nia]).
    + split; [done|]. intros (_ & -> & ?). nia.
Qed.

Lemma u64_from_str_denotes s v : u64_from_str s = Ok v <-> denotes s v /\ v < 2 ^ 64.
Proof.
  assert (forall ds, ds <> EmptyString -> parse_digits 0 ds = Ok v <->
            (all_digits ds /\ v = numeral ds) /\ v < 2 ^ 64) as Hp.
  { intros ds _. rewrite parse_digits_numeral by lia. rewrite Z.mul_0_l, Z.add_0_l. tauto. }
  assert (~ all_digits "+") as Hplus by (intros [[? ?] _]; done).
  unfold denotes. destruct s as [|c s].
  - split; [done|]. intros [(ds & [<-|?] & ? & _) _]; done.
  - destruct (decide (c = "+"%char)) as [->|Hc].
    + destruct s as [|c' s]; cbn [u64_from_str].
      * split; [done|]. intros [(ds & [<-|[= <-]] & ? & ? & _) _]; done.
      * rewrite Hp by done. split; [intros [[? ?] ?]; eauto 8|].
        intros [(ds & [<-|[= <-]] & ? & Hd & ->) ?]; [|done]. by destruct Hd as [[? ?] _].
    + assert (u64_from_str (String c s) = parse_digits 0 (String c s)) as ->.
      { destruct c as [[] [] [] [] [] [] [] []]; done. }
      rewrite Hp by done. split; [intros [[? ?] ?]; eauto 8|].
      intros [(ds & [<-|[= -> _]] & ? & Hd & ->) ?]; done.
Qed.

(** C40: a text is accepted as a duration exactly when it is a decimal numeral, with an
    optional plus and any number of leading zeros, of a value below 2^64; the duration,
    always well formed, is that number of milliseconds. *)
Theorem parse_millis_denotes s d :
  parse_millis s = Ok d <->
  exists ms, denotes s ms /\ ms < 2 ^ 64 /\ d = from_millis ms /\ Duration_wf d.
Proof.
  split.
  - intros H. pose proof (parse_millis_wf s d H) as Hwf. revert H. unfold parse_millis.
    destruct (u64_from_str s) as [ms|] eqn:E; cbn; [|done]. intros [= <-].
    apply u64_from_str_denotes in E as [? ?]. eauto.
  - intros (ms & Hs & Hms & -> & _). unfold parse_millis.
    by rewrite (proj2 (u64_from_str_denotes s ms)).
Qed.
