(* ===== verification/SendFacts.v ===== *)
(** * Sending a message over a connection

    Every attempt opens a fresh unidirectional stream and writes the whole frame;
    [send_with] reports success only after a complete attempt, retries exactly the
    errors that leave the connection up, and never retries its loss. *)

From Stdlib Require Import Strings.Byte.
From S2P Require Import Prelude Std Foreign WireTypes Errors ConfigTypes Prog ProgFacts Effects.
From S2P Require Import Wire StreamSpec WireFacts Framing Config Connection.

Local Open Scope Z_scope.

Section SendFacts.
Context {F : Foreign} {Bc : Bincode} {Bo : Backoff}.

(** The trace of a complete delivery of [msg] on the fresh stream [s]. *)
Definition delivery (c : q_Connection) (s : q_SendStream) (msg : Bytes) (priority : Z)
    (known : bool) (fin : Result unit q_WriteError) : list (event ev) :=
  [Ev (OpenUni c) (Ok s); Ev (SetPriority s priority) known;
   Ev (WriteAll s (to_bytes (header_of msg USER_MSG_FLAG))) (Ok tt);
   Ev (WriteAll s msg) (Ok tt); Ev (Finish s) fin].

(** The stream was finished, or the peer stopped it after the message was written. *)
Definition finished_or_stopped (fin : Result unit q_WriteError) : Prop :=
  fin = Ok tt \/ exists code, fin = Err (q_WriteStopped code).

Lemma ignore_stopped_ok (r : Result unit q_WriteError) :
  ignore_stopped (map_err from r) = Ok tt <-> finished_or_stopped r.
Proof.
  unfold finished_or_stopped. destruct r as [[]|[]]; cbn; split; intros H; try done; eauto;
    destruct H as [?|[? ?]]; simplify_eq.
Qed.

Lemma finish_runs s tr r :
  runs (SendStream_finish s) tr (Done r) ->
  exists a, tr = [Ev (Finish (ss_inner s)) a] /\ r = map_err from a.
Proof.
  unfold SendStream_finish. intros H. run_inv.
  - exists (Ok x). by destruct x.
  - by exists (Err x).
Qed.

Lemma open_uni_runs c tr r :
  runs (open_uni c) tr (Done r) ->
  exists a, tr = [Ev (OpenUni (conn_inner c)) a]
    /\ r = match a with Ok s => Ok (mkSendStream s) | Err e => Err (from e) end.
Proof.
  unfold open_uni. intros H. run_inv; [by exists (Ok x)|by exists (Err x)].
Qed.

(** When [send_uni] succeeds, it has opened a stream of its own, set the
    priority, written the complete frame of the message to it and then finished it;
    the only error it forgives is the peer stopping the stream at that point. *)
Lemma send_uni_success c msg priority tr :
  runs (send_uni c msg priority) tr (Done (Ok tt)) ->
  exists s known fin, tr = delivery (conn_inner c) s msg priority known fin
    /\ finished_or_stopped fin /\ zlen msg <= u32_MAX.
Proof.
  unfold send_uni, SendStream_set_priority. intros H.
  apply runs_bind_done in H as (r & t1 & t2 & -> & (a & -> & ->)%open_uni_runs & H).
  destruct a as [s|e]; cbn [map_err] in H; [|run_inv; done].
  apply runs_try_done in H as [(s' & t3 & t4 & -> & H1 & H)|(e & H1 & ?)]; [|run_inv; done].
  apply runs_ret_done in H1 as [-> [= ->]].
  apply runs_bind_done in H as (? & t5 & t6 & -> & H1 & H).
  apply runs_bind_done in H1 as (known & t7 & t8 & -> & H1 & H1').
  apply runs_call_done in H1 as ->. apply runs_ret_done in H1' as [-> ->].
  apply runs_try_done in H as [([] & t9 & t10 & -> & H1 & H)|(e & H1 & ?)]; [|done].
  apply write_to_stream_runs in H1 as [(_ & e & He & _)|(p & flag & Hp & Hlen & Hw)]; [done|].
  injection Hp as <- <-.
  destruct Hw as [(e & _ & He)|[(e & _ & He)|(-> & _)]]; [done..|].
  apply runs_bind_done in H as (r & t11 & t12 & -> & (fin & -> & ->)%finish_runs & H).
  apply runs_try_done in H as [([] & t13 & t14 & -> & H1 & H)|(e & H1 & ?)]; [|done].
  apply runs_ret_done in H1 as [-> Hf]. apply runs_ret_done in H as [-> _].
  exists s, known, fin. split_and!; [done| |done].
  apply ignore_stopped_ok. by rewrite Hf.
Qed.

(** An attempt that the retry policy may repeat: it failed without losing the
    connection. *)
Definition retryable (e : SendError) : Prop := forall ce, e <> SendError_ConnectionLost ce.

Definition failed_attempt c msg priority (tr : list (event ev)) : Prop :=
  exists e, runs (send_uni c msg priority) tr (Done (Err e)) /\ retryable e.

Lemma send_attempt_runs c msg priority tr r :
  runs (send_attempt c msg priority) tr (Done r) ->
  exists r0, runs (send_uni c msg priority) tr (Done r0) /\ r = map_err classify r0.
Proof.
  unfold send_attempt. intros H. run_inv. rewrite app_nil_r. eauto.
Qed.

Lemma classify_transient e e' : classify e = Transient e' -> e = e' /\ retryable e.
Proof. destruct e; cbn; intros ?; by simplify_eq. Qed.

Lemma classify_permanent e e' : classify e = Permanent e' -> e = e'.
Proof. destruct e; cbn; intros ?; by simplify_eq. Qed.

Lemma retried_attempts c msg priority tr r :
  retried (runs (send_attempt c msg priority)) tr (Done r) ->
  exists trs tr', tr = concat trs ++ tr' /\ Forall (failed_attempt c msg priority) trs
    /\ runs (send_uni c msg priority) tr' (Done r).
Proof.
  remember (Done r) as o eqn:Ho. intros H. revert r Ho.
  induction H as [tr v H|tr e H|tr e H|tr1 tr2 e o H _ IH|tr h H]; intros r Ho; simplify_eq.
  - apply send_attempt_runs in H as ([v'|e] & Hr & ?); simplify_eq/=.
    exists [], tr. auto.
  - apply send_attempt_runs in H as ([v'|e'] & Hr & ?); simplify_eq/=.
    match goal with H : Permanent _ = _ |- _ => symmetry in H; apply classify_permanent in H as -> end. exists [], tr. auto.
  - apply send_attempt_runs in H as ([v'|e'] & Hr & ?); simplify_eq/=.
    match goal with H : Transient _ = _ |- _ => symmetry in H; apply classify_transient in H as [-> _] end. exists [], tr. auto.
  - apply send_attempt_runs in H as ([v'|e'] & Hr & ?); simplify_eq/=.
    match goal with H : Transient _ = _ |- _ => symmetry in H; apply classify_transient in H as [-> Ht] end.
    destruct (IH r eq_refl) as (trs & tr' & -> & Hf & Hl).
    exists (tr1 :: trs), tr'. cbn. rewrite app_assoc. split_and!; [done| |done].
    constructor; [by exists e|done].
Qed.

Lemma send_with_runs `{!BackoffLaws} c msg priority cfg tr r :
  runs (send_with c msg priority cfg) tr (Done r) ->
  exists trs tr', tr = concat trs ++ tr' /\ Forall (failed_attempt c msg priority) trs
    /\ runs (send_uni c msg priority) tr' (Done r)
    /\ (cfg = None -> default_retry_config c = None -> trs = []).
Proof.
  unfold send_with. intros Hs.
  destruct (match cfg with Some cfg => Some cfg | None => default_retry_config c end) as [rc|] eqn:Ec.
  - assert (runs (RetryConfig_retry rc (send_attempt c msg priority)) tr (Done r)) as Hr.
    { run_inv; [|done]. destruct x. by rewrite app_nil_r. }
    apply retry_runs, retried_attempts in Hr as (trs & tr' & -> & Hf & Hl).
    exists trs, tr'. split_and!; [done..|]. intros -> Hd. congruence.
  - exists [], tr. split_and!; [done|done| |done].
    run_inv; [|done]. destruct x. by rewrite app_nil_r.
Qed.

(** C17: [send_with] is a sequence of attempts: every attempt but the last failed
    with an error other than the loss of the connection, and the result is the
    result of the last one. With no retry policy there is exactly one attempt. *)
Theorem send_with_attempts `{!BackoffLaws} c msg priority cfg tr r :
  runs (send_with c msg priority cfg) tr (Done r) ->
  exists trs tr', tr = concat trs ++ tr' /\ Forall (failed_attempt c msg priority) trs
    /\ runs (send_uni c msg priority) tr' (Done r)
    /\ (cfg = None -> default_retry_config c = None -> trs = []).
Proof. apply send_with_runs. Qed.

(** A message reported as sent was written completely, on a stream of its own,
    at the end of the execution (at-least-once: earlier attempts may have been
    made). *)
Lemma send_delivers `{!BackoffLaws} c msg tr :
  runs (send c msg) tr (Done (Ok tt)) ->
  exists tr0 s known fin, tr = tr0 ++ delivery (conn_inner c) s msg 0 known fin
    /\ finished_or_stopped fin.
Proof.
  unfold send. intros (trs & tr' & -> & _ & Hl & _)%send_with_runs.
  apply send_uni_success in Hl as (s & known & fin & -> & Hf & _). eauto 6.
Qed.

End SendFacts.
