(* ===== verification/UniListener.v ===== *)
(** * The listener for unidirectional streams delivers what the peer sent

    [uni_spec] is the specification: the accepted streams one after the other, of
    each the user messages it holds and then the error it ends with, if any, until
    the connection is lost. The theorems say that in every run the items reported on
    the channel are a prefix of it, that nothing is missing once the end of the
    streams was seen, and that nothing is reported after a lost connection. *)

From Stdlib Require Import Strings.Byte.
From S2P Require Import Prelude Std Foreign WireTypes Errors ConfigTypes Prog ProgFacts Effects.
From S2P Require Import Wire StreamSpec WireFacts Framing Config Connection Incoming.

Local Open Scope prog_scope.

Section UniListener.
Context {F : Foreign} {Bc : Bincode}.

(** ** Specification *)

Definition event_accepted (v : event ev) : list (option (Result q_RecvStream q_ConnectionError)) :=
  match v with
  | Ev e x =>
      match e in ev T return T -> _ with
      | NextUni _ => fun a => [a]
      | _ => fun _ => []
      end x
  end.

(** The answers of the incoming unidirectional streams along a trace. *)
Definition accepted (tr : list (event ev)) := concat (map event_accepted tr).

Definition event_reported (v : event ev) : list MessageItem :=
  match v with
  | Ev e x =>
      match e in ev T return T -> _ with
      | SendMessage _ item => fun _ => [item]
      | _ => fun _ => []
      end x
  end.

(** The items put on the message channel along a trace. *)
Definition reported (tr : list (event ev)) := concat (map event_reported tr).

(** What a listener makes of the message it read. *)
Definition user_msg (r : Result (option WireMsg) RecvError) : Result (option Bytes) RecvError :=
  match r with
  | Ok (Some (UserMsg msg)) => Ok (Some msg)
  | Ok None => Ok None
  | Ok msg => Err (RecvError_Serialization (unexpected_error msg))
  | Err e => Err e
  end.

Lemma user_msg_or_end_eq r : user_msg_or_end r = Ret (user_msg r).
Proof.
  destruct r as [[m|]|e]; [|done..]. unfold user_msg_or_end. cbn [try_bind bind].
  destruct m; try rewrite unexpected_total; done.
Qed.

Fixpoint stream_items (fuel : nat) (st : stream) : list (Result Bytes RecvError) :=
  match fuel with
  | O => []
  | S fuel =>
      match user_msg (decode st).1 with
      | Ok (Some m) => Ok m :: stream_items fuel (decode st).2
      | Ok None => []
      | Err e => [Err e]
      end
  end.

(** The items of one stream; every message takes at least a byte. *)
Definition items (st : stream) : list (Result Bytes RecvError) :=
  stream_items (S (length (content st))) st.

Definition unless_lost (l k : list (Result Bytes RecvError)) : list (Result Bytes RecvError) :=
  l ++ (if existsb is_connection_lost l then [] else k).

Fixpoint uni_spec (n : q_RecvStream -> stream)
    (l : list (option (Result q_RecvStream q_ConnectionError))) : list (Result Bytes RecvError) :=
  match l with
  | [] => []
  | a :: l =>
      match filter_benign_close a with
      | None => []
      | Some (Err e) => [Err (from e)]
      | Some (Ok rs) => unless_lost (items (n rs)) (uni_spec n l)
      end
  end.

(** The specification from a state of the listener. *)
Definition uni_spec_from (n : q_RecvStream -> stream) (current : option q_RecvStream) l :=
  match current with
  | None => uni_spec n l
  | Some rs => unless_lost (items (n rs)) (uni_spec n l)
  end.

Definition accepted_stream (a : option (Result q_RecvStream q_ConnectionError)) :
    list q_RecvStream :=
  match a with Some (Ok rs) => [rs] | _ => [] end.

Definition streams_of (l : list (option (Result q_RecvStream q_ConnectionError))) :=
  concat (map accepted_stream l).

(** The incoming streams ended, gracefully. *)
Definition ended (l : list (option (Result q_RecvStream q_ConnectionError))) : Prop :=
  Exists (fun a => filter_benign_close a = None) l.

#[local] Arguments items : simpl never.
#[local] Arguments unless_lost : simpl never.

(** ** Lemmas on the specification *)

Lemma accepted_app t1 t2 : accepted (t1 ++ t2) = accepted t1 ++ accepted t2.
Proof. unfold accepted. by rewrite map_app, concat_app. Qed.

Lemma reported_app t1 t2 : reported (t1 ++ t2) = reported t1 ++ reported t2.
Proof. unfold reported. by rewrite map_app, concat_app. Qed.

Lemma streams_of_app l1 l2 : streams_of (l1 ++ l2) = streams_of l1 ++ streams_of l2.
Proof. unfold streams_of. by rewrite map_app, concat_app. Qed.

Lemma user_msg_some r m :
  user_msg r = Ok (Some m) -> r = Ok (Some (UserMsg m)).
Proof. destruct r as [[[]|]|]; cbn; intros; by simplify_eq. Qed.

Lemma stream_items_fuel f1 f2 st :
  length (content st) < f1 -> length (content st) < f2 ->
  stream_items f1 st = stream_items f2 st.
Proof.
  revert f2 st. induction f1 as [|f1 IH]; intros [|f2] st H1 H2; try lia. cbn [stream_items].
  destruct (user_msg (decode st).1) as [[m|]|e] eqn:E; [|done..].
  apply user_msg_some, decode_progress in E. f_equal. apply IH; lia.
Qed.

Lemma items_unfold st :
  items st =
    match user_msg (decode st).1 with
    | Ok (Some m) => Ok m :: items (decode st).2
    | Ok None => []
    | Err e => [Err e]
    end.
Proof.
  unfold items at 1. cbn [stream_items].
  destruct (user_msg (decode st).1) as [[m|]|e] eqn:E; [|done..].
  apply user_msg_some, decode_progress in E. f_equal. apply stream_items_fuel; lia.
Qed.

Lemma unless_lost_ok m l k : unless_lost (Ok m :: l) k = Ok m :: unless_lost l k.
Proof. done. Qed.

Lemma unless_lost_err e k :
  unless_lost [Err e] k = Err e :: (if is_connection_lost (T := Bytes) (Err e) then [] else k).
Proof. unfold unless_lost. cbn. by destruct e. Qed.

Lemma uni_spec_ext n n' l :
  (forall rs, rs ∈ streams_of l -> n' rs = n rs) -> uni_spec n' l = uni_spec n l.
Proof.
  induction l as [|a l IH]; intros Hn; [done|]. cbn [uni_spec].
  change (a :: l) with ([a] ++ l) in Hn. rewrite streams_of_app in Hn. setoid_rewrite elem_of_app in Hn.
  destruct (filter_benign_close a) as [[rs|e]|] eqn:Ea; [|done..].
  rewrite IH, Hn; [done| |auto]. left.
  destruct a as [[rs'|e]|]; cbn in Ea; simplify_eq; [by left|by case_match].
Qed.

Lemma filter_ok_inv (a : option (Result q_RecvStream q_ConnectionError)) rs :
  filter_benign_close a = Some (Ok rs) -> a = Some (Ok rs).
Proof.
  destruct a as [[rs'|e]|]; cbn; intros; simplify_eq; [done|by case_match].
Qed.

Lemma uni_spec_unchanged n n' l : unchanged n n' -> uni_spec n' l = uni_spec n l.
Proof. intros Hn. apply uni_spec_ext. auto. Qed.

(** ** The events of the parts *)

Definition quiet (v : event ev) : Prop := event_accepted v = [] /\ event_reported v = [].

Lemma quiet_trace tr : Forall quiet tr -> accepted tr = [] /\ reported tr = [].
Proof.
  induction 1 as [|v tr [H1 H2] _ [IH1 IH2]]; [done|]. unfold accepted, reported in *. cbn.
  by rewrite H1, H2, IH1, IH2.
Qed.

Lemma read_quiet s tr o :
  runs (read_from_stream s) tr o -> accepted tr = [] /\ reported tr = [].
Proof.
  intros H. apply quiet_trace. revert tr o H.
  change (only quiet (read_from_stream s)).
  unfold read_from_stream, read_data, read_header_rest. repeat (only_step || done).
Qed.

(** ** [uni_messages.next()] *)

(** What a run of [uni_messages_next] from [current] establishes, given that the
    streams still to come are different from the ones read. *)
Definition next_ok n (current : option q_RecvStream) tr n'
    (o : outcome (option (Result Bytes RecvError) * option q_RecvStream)) : Prop :=
  reported tr = [] /\
  forall l, NoDup (option_list current ++ streams_of (accepted tr ++ l)) ->
  match o with
  | Done (None, _) => uni_spec_from n current (accepted tr ++ l) = []
  | Done (Some r, current') =>
      uni_spec_from n current (accepted tr ++ l)
        = r :: (if is_connection_lost r then [] else uni_spec_from n' current' l)
      /\ NoDup (option_list current' ++ streams_of l) /\ ~ ended (accepted tr)
  | Halt _ => ended (accepted tr) -> uni_spec_from n current (accepted tr ++ l) = []
  end.

Lemma spec_from_read n n1 rs l :
  (n1 rs) = (decode (n rs)).2 -> others_unchanged rs n n1 ->
  NoDup (rs :: streams_of l) ->
  uni_spec_from n (Some rs) l =
    match user_msg (decode (n rs)).1 with
    | Ok (Some m) => Ok m :: uni_spec_from n1 (Some rs) l
    | Ok None => uni_spec_from n1 None l
    | Err e => Err e :: (if is_connection_lost (T := Bytes) (Err e) then [] else uni_spec_from n1 None l)
    end.
Proof.
  intros Hrs Ho Hnd. inversion_clear Hnd as [|? ? Hrs' _]. cbn [uni_spec_from].
  assert (uni_spec n1 l = uni_spec n l) as ->.
  { apply uni_spec_ext. intros t Ht. apply Ho. intros ->. done. }
  rewrite items_unfold, Hrs.
  destruct (user_msg (decode (n rs)).1) as [[m|]|e]; [done..|apply unless_lost_err].
Qed.

Lemma ended_app l1 l2 : ended (l1 ++ l2) <-> ended l1 \/ ended l2.
Proof. apply Exists_app. Qed.

Lemma not_ended_nil : ~ ended [].
Proof. by intros H%Exists_nil. Qed.

Lemma ended_accepted_ok uni rs t :
  ended (accepted ([Ev (NextUni uni) (Some (Ok rs))] ++ t)) -> ended (accepted t).
Proof.
  rewrite accepted_app. intros [H|H]%ended_app; [|done].
  apply Exists_exists in H as (a & [<-|[]] & Ha). done.
Qed.

(** One iteration that reads from the current stream. *)
Lemma next_read_step rs n t n1 r :
  runs (read_from_stream rs) t (Done r) -> conforms n t n1 ->
  accepted t = [] /\ reported t = [] /\
  r = (decode (n rs)).1 /\ n1 rs = (decode (n rs)).2 /\ others_unchanged rs n n1.
Proof.
  intros Hr Hc. destruct (read_quiet _ _ _ Hr) as [-> ->].
  destruct (read_decodes _ _ _ _ _ Hr Hc) as [Hd Ho].
  by rewrite <- Hd.
Qed.

Lemma next_continue uni cur cur' t1 t2 o n n1 n' :
  runs (uni_next_step uni cur) t1 (Done (inl cur')) -> conforms n t1 n1 ->
  next_ok n1 cur' t2 n' o -> next_ok n cur (t1 ++ t2) n' o.
Proof.
  intros H1 Hc1 [Hrep IH].
  destruct cur as [rs|]; apply runs_bind_done in H1 as (r & t3 & t4 & -> & H1 & H2);
    [rewrite user_msg_or_end_eq in H2; cbn [bind] in H2|];
    apply runs_ret_done in H2 as [-> Hm]; rewrite app_nil_r in *.
  - destruct (next_read_step _ _ _ _ _ H1 Hc1) as (Ha & Hrp & -> & Hn1 & Ho).
    destruct (user_msg (decode (n rs)).1) as [[m|]|e] eqn:Eu; simplify_eq.
    split; [by rewrite reported_app, Hrp|]. intros l. rewrite accepted_app, Ha. cbn [app].
    intros Hnd. cbn [option_list option_rect app] in Hnd.
    pose proof (spec_from_read n n1 rs _ Hn1 Ho Hnd) as Hs. rewrite Eu in Hs.
    inversion_clear Hnd as [|? ? _ Hnd']. specialize (IH l Hnd'). by rewrite Hs.
  - apply runs_call_done in H1 as ->. cbn in Hc1. destruct Hc1 as (n2 & Hu1 & Hu2).
    assert (unchanged n n1) as Hu by (by transitivity n2).
    destruct (filter_benign_close r) as [[rs|e]|] eqn:Ef; simplify_eq.
    apply filter_ok_inv in Ef as ->.
    split; [by rewrite reported_app|]. intros l Hnd. specialize (IH l Hnd).
    assert (uni_spec_from n None (accepted ([Ev (NextUni uni) (Some (Ok rs))] ++ t2) ++ l)
            = uni_spec_from n1 (Some rs) (accepted t2 ++ l)) as Hs.
    { cbn. rewrite (Hu rs). fold (accepted t2).
      by rewrite (uni_spec_unchanged _ _ _ Hu). }
    assert (ended (accepted ([Ev (NextUni uni) (Some (Ok rs))] ++ t2)) -> ended (accepted t2))
      as Hne by apply ended_accepted_ok.
    rewrite Hs. destruct o as [[[r|] cur'']|h]; [|done|].
    + destruct IH as (IH1 & IH2 & IH3). split_and!; auto.
    + auto.
Qed.

Lemma next_exit uni cur b t n n' :
  runs (uni_next_step uni cur) t (Done (inr b)) -> conforms n t n' -> next_ok n cur t n' (Done b).
Proof.
  intros H1 Hc.
  destruct cur as [rs|]; apply runs_bind_done in H1 as (r & t3 & t4 & -> & H1 & H2);
    [rewrite user_msg_or_end_eq in H2; cbn [bind] in H2|];
    apply runs_ret_done in H2 as [-> Hm]; rewrite app_nil_r in *.
  - destruct (next_read_step _ _ _ _ _ H1 Hc) as (Ha & Hrp & -> & Hn1 & Ho).
    destruct (user_msg (decode (n rs)).1) as [[m|]|e] eqn:Eu; simplify_eq;
      (split; [done|]; intros l; rewrite Ha; cbn [app option_list option_rect]; intros Hnd;
       pose proof (spec_from_read n n' rs _ Hn1 Ho Hnd) as Hs; rewrite Eu in Hs;
       split_and!; [done| |apply not_ended_nil]).
    + done.
    + by inversion_clear Hnd.
  - apply runs_call_done in H1 as ->. cbn in Hc. destruct Hc as (n2 & Hu1 & Hu2).
    destruct (filter_benign_close r) as [[rs|e]|] eqn:Ef; simplify_eq.
    + split; [done|]. intros l Hnd. cbn [accepted map concat event_accepted app uni_spec_from uni_spec].
      rewrite Ef. split_and!; [done| |].
      -- cbn [option_list option_rect app accepted map concat event_accepted] in *.
         change (r :: l) with ([r] ++ l) in Hnd. rewrite streams_of_app in Hnd.
         by apply list.NoDup_app in Hnd as (_ & _ & Hnd).
      -- intros H%Exists_exists. destruct H as (a & [<-|[]] & Ha). congruence.
    + split; [done|]. intros l Hnd. cbn. by rewrite Ef.
Qed.

Lemma next_halt uni cur t h n n' :
  runs (uni_next_step uni cur) t (Halt h) -> next_ok n cur t n' (Halt h).
Proof.
  intros H1.
  destruct cur as [rs|]; apply runs_bind in H1 as [(r & t3 & t4 & -> & H1 & H2)|(h' & Ho & H1)].
  - rewrite user_msg_or_end_eq in H2. apply runs_ret in H2 as [-> _]. rewrite app_nil_r in *.
    apply read_quiet in H1 as [Ha Hrp]. split; [done|]. rewrite Ha. by intros l _ H%not_ended_nil.
  - apply read_quiet in H1 as [Ha Hrp]. split; [done|]. rewrite Ha. by intros l _ H%not_ended_nil.
  - apply runs_ret in H2 as [-> _]. rewrite app_nil_r in *. apply runs_call_done in H1 as ->.
    split; [done|]. intros l _ H%Exists_exists. destruct H as (a & [<-|[]] & Ha).
    cbn. by rewrite Ha.
  - apply runs_call in H1 as [[-> _]|(a & -> & _)].
    + split; [done|]. by intros l _ H%not_ended_nil.
    + split; [done|]. intros l _ H%Exists_exists. destruct H as (b & [<-|[]] & Ha).
      cbn. by rewrite Ha.
Qed.

Lemma uni_next_ok uni current tr o n n' :
  runs (uni_messages_next uni current) tr o -> conforms n tr n' ->
  next_ok n current tr n' o.
Proof.
  intros Hr. apply runs_loop in Hr. revert n.
  induction Hr as [cur cur' t1 t2 o H1 _ IH|cur b t H1|cur h t H1]; intros n Hc.
  - apply conforms_app in Hc as (n1 & Hc1 & Hc2). by eapply next_continue, IH.
  - by eapply next_exit.
  - by eapply next_halt.
Qed.

(** ** The listener *)

(** The items reported so far are the first ones of the specification, and all of
    them once the incoming streams have ended. *)
Definition delivers n (current : option q_RecvStream) tr : Prop :=
  reported tr `prefix_of` map uni_item (uni_spec_from n current (accepted tr))
  /\ (ended (accepted tr) -> reported tr = map uni_item (uni_spec_from n current (accepted tr))).

Lemma uni_report_runs tx result current t o :
  runs (uni_report tx result current) t o ->
  (t = [] /\ o = Halt Running)
  \/ exists a, t = [Ev (SendMessage tx (uni_item result)) a]
       /\ (o = Halt Running
           \/ o = Done (if is_connection_lost result || negb (is_ok a)
                         then inr tt else inl current)).
Proof.
  unfold uni_report. rewrite runs_bind.
  intros [(a & t1 & t2 & -> & H1 & H2)|(h & -> & H1)].
  - apply runs_call_done in H1 as ->. right. exists a.
    destruct (is_connection_lost result || negb (is_ok a)); destruct H2 as [-> Ho]; (split; [done|tauto]).
  - apply runs_call in H1 as [[-> Ho]|(a & -> & Ho)]; [simplify_eq; by left|].
    right. exists a. destruct Ho as [?|Ho]; simplify_eq. auto.
Qed.

Lemma uni_step_shape uni tx current t o :
  runs (uni_step uni tx current) t o ->
  (exists o', runs (uni_messages_next uni current) t o'
     /\ (forall r c, o' <> Done (Some r, c)) /\ (forall c, o <> Done (inl c)))
  \/ exists r c t1 t2, t = t1 ++ t2 /\ runs (uni_messages_next uni current) t1 (Done (Some r, c))
     /\ runs (uni_report tx r c) t2 o.
Proof.
  unfold uni_step. rewrite runs_bind. intros [(s & t1 & t2 & -> & H1 & H2)|(h & -> & H1)].
  - apply runs_within_done in H1. destruct s as [[[r|] c]|].
    + right. by exists r, c, t1, t2.
    + left. destruct H2 as [-> Ho]. rewrite app_nil_r. exists (Done (None, c)).
      split_and!; [done..|]. intros c' ->. by destruct Ho.
    + left. destruct H2 as [-> Ho]. rewrite app_nil_r. exists (Halt Running).
      split_and!; [done..|]. intros c' ->. by destruct Ho.
  - apply runs_within in H1. cbn in H1. left. exists (Halt h). by split_and!.
Qed.

Lemma delivers_quiet uni current t o n n' :
  runs (uni_messages_next uni current) t o -> (forall r c, o <> Done (Some r, c)) ->
  conforms n t n' -> NoDup (option_list current ++ streams_of (accepted t)) ->
  delivers n current t.
Proof.
  intros Hr Ho Hc Hnd. destruct (uni_next_ok _ _ _ _ _ _ Hr Hc) as [Hrep Hok].
  specialize (Hok []). rewrite !app_nil_r in Hok. specialize (Hok Hnd).
  unfold delivers. rewrite Hrep. split; [apply prefix_nil|].
  destruct o as [[[r|] c]|h]; [by destruct (Ho r c)| |]; intros He.
  - by rewrite Hok.
  - by rewrite Hok.
Qed.

(** One reported item, and the rest from the state it leaves. *)
Lemma delivers_report uni current t1 r c n n1 n2 tx a t2 n' :
  runs (uni_messages_next uni current) t1 (Done (Some r, c)) -> conforms n t1 n1 ->
  unchanged n1 n2 -> conforms n2 t2 n' ->
  NoDup (option_list current ++ streams_of (accepted t1 ++ accepted t2)) ->
  (is_connection_lost r = true -> t2 = []) ->
  (NoDup (option_list c ++ streams_of (accepted t2)) -> t2 = [] \/ delivers n2 c t2) ->
  delivers n current (t1 ++ Ev (SendMessage tx (uni_item r)) a :: t2).
Proof.
  intros Hr Hc Hu Hc2 Hnd Hl Hd. destruct (uni_next_ok _ _ _ _ _ _ Hr Hc) as [Hrep Hok].
  destruct (Hok _ Hnd) as (Hs & Hnd2 & Hne). specialize (Hd Hnd2).
  assert (uni_spec_from n1 c (accepted t2) = uni_spec_from n2 c (accepted t2)) as Hn.
  { symmetry. destruct c as [rs|]; cbn; [rewrite (Hu rs)|]; by rewrite (uni_spec_unchanged _ _ _ Hu). }
  rewrite Hn in Hs. unfold delivers. rewrite reported_app, accepted_app, Hrep.
  change (accepted (Ev _ a :: t2)) with (accepted t2).
  change (reported (Ev _ a :: t2)) with (uni_item r :: reported t2). cbn [app].
  rewrite Hs, ended_app. cbn [map]. destruct Hd as [->|[Hp He]].
  - split; [apply prefix_cons, prefix_nil|]. intros [?|H%not_ended_nil]; done.
  - destruct (is_connection_lost r); [rewrite (Hl eq_refl) in *|].
    + split; [done|]. intros [?|H%not_ended_nil]; done.
    + split; [by apply prefix_cons|]. intros [?|H]; [done|]. by rewrite He.
Qed.

Lemma uni_listener_from uni tx current tr o n n' :
  loop_runs (fun current => runs (uni_step uni tx current)) current tr o ->
  conforms n tr n' -> NoDup (option_list current ++ streams_of (accepted tr)) ->
  delivers n current tr.
Proof.
  intros Hr. revert n. induction Hr as [cur cur' t1 t2 o H1 _ IH|cur b t H1|cur h t H1];
    intros n Hc Hnd; apply uni_step_shape in H1 as [(o' & H1 & Ho' & Ho)|(r & c & t3 & t4 & -> & H1 & H2)].
  - by destruct (Ho cur').
  - apply uni_report_runs in H2 as [[_ ?]|(a & -> & [?|H2])]; [done..|].
    destruct (is_connection_lost r || negb (is_ok a)) eqn:El; simplify_eq.
    rewrite <- app_assoc in *. apply conforms_app in Hc as (n1 & Hc1 & n2 & Hu & Hc2).
    eapply delivers_report; eauto.
    + by rewrite accepted_app in Hnd.
    + intros Hl. by rewrite Hl in El.
  - by eapply delivers_quiet.
  - apply conforms_app in Hc as (n1 & Hc1 & Hc2).
    apply uni_report_runs in H2 as [[_ ?]|(a & -> & _)]; [done|].
    destruct Hc2 as (n2 & Hu & Hc2). eapply delivers_report; eauto. by rewrite accepted_app in Hnd.
  - by eapply delivers_quiet.
  - apply conforms_app in Hc as (n1 & Hc1 & Hc2).
    apply uni_report_runs in H2 as [[-> _]|(a & -> & _)].
    + rewrite app_nil_r in *. destruct (uni_next_ok _ _ _ _ _ _ H1 Hc1) as [Hrep Hok].
      specialize (Hok []). rewrite !app_nil_r in Hok. destruct (Hok Hnd) as (_ & _ & Hne).
      split; [rewrite Hrep; apply prefix_nil|done].
    + destruct Hc2 as (n2 & Hu & Hc2). eapply delivers_report; eauto. by rewrite accepted_app in Hnd.
Qed.

(** The stream of messages ends only when the incoming streams have. *)
Lemma uni_next_none uni current tr c :
  runs (uni_messages_next uni current) tr (Done (None, c)) -> ended (accepted tr).
Proof.
  intros Hr. apply runs_loop in Hr. remember (Done (None, c)) as o eqn:Ho.
  induction Hr as [cur cur' t1 t2 o _ _ IH|cur b t H1|cur h t _]; [|injection Ho as ->|done].
  - rewrite accepted_app. apply ended_app. right. auto.
  - destruct cur as [rs|]; apply runs_bind_done in H1 as (r & t3 & t4 & -> & H1 & H2);
      [rewrite user_msg_or_end_eq in H2; cbn [bind] in H2|];
      apply runs_ret_done in H2 as [-> Hm]; rewrite app_nil_r.
    + by destruct (user_msg r) as [[m|]|e].
    + apply runs_call_done in H1 as ->. constructor.
      by destruct (filter_benign_close r) as [[rs|e]|].
Qed.

(** C3: in every run of [listen_on_uni_streams] whose reads return what the accepted
    streams hold, however they are split into pieces, the items put on the message
    channel are a prefix of [uni_spec]: the user messages of the accepted streams, in
    the order of the streams and within a stream in the order they were sent, each
    stream followed by the error it ended with, up to the loss of the connection.
    Once the incoming streams have ended no item is missing, and the listener finds no
    more messages only when they have. *)
Theorem uni_listener_correct uni tx tr o n n' :
  runs (listen_on_uni_streams uni tx) tr o -> conforms n tr n' ->
  NoDup (streams_of (accepted tr)) ->
  reported tr `prefix_of` map uni_item (uni_spec n (accepted tr))
  /\ (ended (accepted tr) -> reported tr = map uni_item (uni_spec n (accepted tr)))
  /\ (forall current t c, runs (uni_messages_next uni current) t (Done (None, c)) ->
        ended (accepted t)).
Proof.
  intros Hr%runs_loop Hc Hnd.
  destruct (uni_listener_from _ _ None _ _ _ _ Hr Hc Hnd) as [Hp He].
  split_and!; [exact Hp|exact He|apply uni_next_none].
Qed.

(** ** The end of the listener *)

(** A report of a lost connection, or one the channel did not take. *)
Definition event_stops (v : event ev) : Prop :=
  match v with
  | Ev e x =>
      match e in ev T return T -> Prop with
      | SendMessage _ item => fun a => is_connection_lost item || negb (is_ok a) = true
      | _ => fun _ => False
      end x
  end.

Lemma silent_not_stopping tr : reported tr = [] -> Forall (fun v => ~ event_stops v) tr.
Proof.
  induction tr as [|[T e x] tr IH]; [constructor|].
  change (Ev e x :: tr) with ([Ev e x] ++ tr). rewrite reported_app.
  intros [H1 H2]%app_eq_nil. constructor; [|auto]. destruct e; cbn in H1 |- *; (tauto || done).
Qed.

Lemma lost_item r : is_connection_lost (uni_item r) = is_connection_lost r.
Proof. by destruct r. Qed.

Lemma uni_next_silent uni current t o :
  runs (uni_messages_next uni current) t o -> Forall (fun v => ~ event_stops v) t.
Proof.
  intros Hr. revert Hr. apply only_loop. unfold uni_next_step. intros [rs|]; [|repeat (only_step || tauto)].
  only_step; [|rewrite user_msg_or_end_eq; repeat only_step]. intros t' o' Hr. by eapply silent_not_stopping, read_quiet.
Qed.

(** C37: [listen_on_uni_streams] performs no further event after it reported the loss
    of the connection or after a report that the channel did not take. *)
Theorem uni_listener_stops uni tx tr o tr1 v tr2 :
  runs (listen_on_uni_streams uni tx) tr o -> tr = tr1 ++ v :: tr2 -> event_stops v -> tr2 = [].
Proof.
  intros Hr. revert tr1 v tr2. change (final event_stops tr). eapply loop_final, Hr; clear.
  - intros c c' t Hr. apply uni_step_shape in Hr as [(o' & H1 & _ & Ho)|(r & c1 & t3 & t4 & -> & H1 & H2)].
    + by destruct (Ho c').
    + apply Forall_app. split; [by eapply uni_next_silent|].
      apply uni_report_runs in H2 as [[_ ?]|(a & -> & [?|H2])]; [done..|].
      repeat constructor. cbn. rewrite lost_item. intros Hs. by rewrite Hs in H2.
  - intros c t o Hr. apply uni_step_shape in Hr as [(o' & H1 & _ & _)|(r & c1 & t3 & t4 & -> & H1 & H2)].
    + by eapply final_none, uni_next_silent.
    + apply final_app; [by eapply uni_next_silent|].
      apply uni_report_runs in H2 as [[-> _]|(a & -> & _)]; [by apply final_none|apply final_one].
Qed.

End UniListener.
