(* ===== verification/Verification.v ===== *)
(** * The endpoint verification a contact performs

    A peer that is asked to verify an address answers over the stream of the
    request. [reached] describes the conversation in which it connected back to the
    address and got an echo; the theorems say that the answer is positive exactly
    when that conversation took place within the time limit. *)

From Stdlib Require Import Strings.Byte.
From S2P Require Import Prelude Std Foreign WireTypes Errors ConfigTypes Prog ProgFacts Effects.
From S2P Require Import Wire StreamSpec WireFacts Framing Config Connection Incoming.

Local Open Scope prog_scope.

Section Verification.
Context {F : Foreign} {Bc : Bincode}.

(** The trace of a successful connection back to [addr]: a connection, a stream, a
    complete echo request on it and an echo response read from it. *)
Definition reached (endpoint : q_Endpoint) (addr : SocketAddr) (tr : list (event ev)) : Prop :=
  exists connecting nc s rs bs tw trd seen,
    tr = [Ev (Connect endpoint addr SERVER_NAME) (Ok connecting);
          Ev (AwaitConnecting connecting) (Ok nc);
          Ev (OpenBi (nc_connection nc)) (Ok (s, rs))] ++ tw ++ trd
    /\ frame EndpointEchoReq = Some bs
    /\ (forall (D : EqDecision q_SendStream), written s tw = bs)
    /\ runs (read_from_stream rs) trd (Done (Ok (Some (EndpointEchoResp seen)))).

Lemma write_ok_frame m s tr :
  runs (write_to_stream m s) tr (Done (Ok tt)) ->
  exists bs, frame m = Some bs /\ (forall (D : EqDecision q_SendStream), written s tr = bs).
Proof.
  intros H. destruct (write_to_stream_runs _ _ _ _ H) as [(_ & e & ? & _)|(p & flag & Hp & Hl & _)];
    [done|].
  assert (exists bs, frame m = Some bs) as [bs Hbs].
  { unfold frame. rewrite Hp, MsgHeader_new_spec. destruct (Z.leb_spec (zlen p) u32_MAX); [eauto|lia]. }
  exists bs. split; [done|]. intros D. apply write_frames in H as [_ H].
  rewrite Hbs in H. by apply H.
Qed.

Lemma verify_reached endpoint addr tr :
  runs (verify endpoint addr) tr (Done (Ok tt)) -> reached endpoint addr tr.
Proof.
  unfold verify. intros H.
  apply runs_bind_done in H as (c & t1 & t2 & -> & H1 & H). apply runs_call_done in H1 as ->.
  apply runs_try_done in H as [(connecting & t1 & t3 & -> & H1 & H)|(e & _ & ?)]; [|done].
  apply runs_ret_done in H1 as [-> Hc]. destruct c as [c|e]; cbn [map_err] in Hc; simplify_eq.
  apply runs_try_done in H as [(nc & t4 & t5 & -> & H1 & H)|(e & _ & ?)]; [|done].
  apply runs_call_done in H1 as ->.
  apply runs_try_done in H as [([s rs] & t6 & t7 & -> & H1 & H)|(e & _ & ?)]; [|done].
  apply runs_call_done in H1 as ->.
  apply runs_try_done in H as [([] & tw & t8 & -> & Hw & H)|(e & _ & ?)]; [|done].
  apply runs_try_done in H as [(msg & trd & t9 & -> & Hr & H)|(e & _ & ?)]; [|done].
  destruct (write_ok_frame _ _ _ Hw) as (bs & Hbs & Hwr).
  destruct msg as [[|seen| | |]|]; rewrite ?unexpected_total in H; cbn [or_panic bind] in H;
    apply runs_ret_done in H as [-> ?]; simplify_eq.
  exists c, nc, s, rs, bs, tw, trd, seen. rewrite app_nil_r. by split_and!.
Qed.

(** The check was begun and had not come to an end: the connection back to [addr] was
    being made or was in use, and [verify] had not returned. *)
Definition unfinished (endpoint : q_Endpoint) (addr : SocketAddr) (tr : list (event ev)) : Prop :=
  (exists connecting t, tr = Ev (Connect endpoint addr SERVER_NAME) (Ok connecting) :: t)
  /\ runs (verify endpoint addr) tr (Halt Running)
  /\ forall v, ~ runs (verify endpoint addr) tr (Done v).

(** What [verify] did when the answer is [b]: it succeeded, or it failed or ran out
    of time. *)
Definition verdict (endpoint : q_Endpoint) (addr : SocketAddr) (tr : list (event ev)) (b : bool) :
    Prop :=
  if b then reached endpoint addr tr
  else (exists e, runs (verify endpoint addr) tr (Done (Err e))) \/ unfinished endpoint addr tr.

Definition connect_ok (v : event ev) : bool :=
  match v with
  | Ev e x => match e in ev T return T -> bool with Connect _ _ _ => is_ok | _ => fun _ => false end x
  end.

(** [verify] is cut off only once it waits for the connection: starting it is
    synchronous. *)
Lemma verify_pending endpoint addr tr :
  pending (runs (verify endpoint addr)) tr -> unfinished endpoint addr tr.
Proof.
  intros (Hr & Hn & T & e & x & He & Hx). split; [|done]. clear Hn.
  unfold verify in Hr. apply runs_call_bind in Hr as [[-> _]|(c & t & -> & Hr)].
  - unfold verify in Hx. apply runs_call_bind in Hx as [[? _]|(c & t & Ht & _)]; [done|].
    apply (f_equal (fun l => match l with Ev e _ :: _ => awaited e | [] => false end)) in Ht.
    cbn in Ht. by rewrite He in Ht.
  - destruct c as [c|c]; [by exists c, t|]. exfalso.
    unfold verify in Hx. apply runs_call_bind in Hx as [[? _]|([c'|c'] & t' & Ht & Hx)]; [done| |].
    + apply (f_equal (fun l => match l with v :: _ => connect_ok v | [] => false end)) in Ht. done.
    + cbn [map_err try_bind bind] in Hx. destruct Hx as [-> _].
      apply (f_equal length) in Ht. rewrite length_app in Ht. cbn in Ht. lia.
Qed.

Lemma verification_shape endpoint s addr tr r :
  runs (handle_endpoint_verification endpoint s addr) tr (Done r) ->
  exists tr1 tr2 b o, tr = tr1 ++ tr2 /\ runs (verify endpoint addr) tr1 o
    /\ verdict endpoint addr tr1 b
    /\ runs (write_to_stream (EndpointVerificationResp b) s) tr2 (Done r).
Proof.
  unfold handle_endpoint_verification, timeout. intros H.
  apply runs_bind_done in H as (v & t1 & t2 & -> & H1 & H).
  apply runs_bind_done in H1 as (w & t3 & t4 & -> & H1 & H2).
  apply runs_ret_done in H2 as [-> ->]. apply runs_within_iff in H1. rewrite app_nil_r.
  assert (forall b, runs (let? _ := write_to_stream (EndpointVerificationResp b) s in Ret (Ok tt)) t2
            (Done r) -> runs (write_to_stream (EndpointVerificationResp b) s) t2 (Done r)) as Hw.
  { intros b Hb. run_inv; [|done]. rewrite app_nil_r. by destruct x. }
  destruct w as [[[]|e]|]; cbn [is_ok] in H; apply Hw in H.
  - exists t3, t2, true, (Done (Ok tt)). split_and!; [done..|by apply verify_reached|done].
  - exists t3, t2, false, (Done (Err e)). split_and!; [done..|by left; exists e|done].
  - exists t3, t2, false, (Halt Running).
    split_and!; [done|apply H1|right; by apply verify_pending|done].
Qed.

(** The outcome of a finished check is what the handler answers. *)
Lemma verification_answers endpoint s addr tr1 v tr2 r :
  runs (verify endpoint addr) tr1 (Done v) ->
  runs (write_to_stream (EndpointVerificationResp (is_ok v)) s) tr2 (Done r) ->
  runs (handle_endpoint_verification endpoint s addr) (tr1 ++ tr2) (Done r).
Proof.
  intros Hv Hw. unfold handle_endpoint_verification, timeout. apply runs_bind_done.
  exists (Ok v), tr1, tr2. split_and!; [done| |].
  - apply runs_bind_done. exists (Some v), tr1, []. rewrite app_nil_r.
    split_and!; [done|by apply runs_within_iff|by apply runs_ret_done].
  - apply runs_try_done. destruct r as [[]|e]; [left|right].
    + exists tt, tr2, []. rewrite app_nil_r. split_and!; [done..|by apply runs_ret_done].
    + by exists e.
Qed.

(** C21: the handler of a verification request answers with exactly one message, after
    the check. The answer is [true] only when the handler connected back to the address,
    sent a complete echo request and read an echo response. It is [false] only when the
    check returned an error, or when the time limit came while the check, begun by
    connecting to the address, had not returned. And whenever the check returns within the
    limit, the handler goes on to answer with its outcome: [true] after success, [false]
    after an error. *)
Theorem handle_verification_sound endpoint s addr :
  (forall tr r, runs (handle_endpoint_verification endpoint s addr) tr (Done r) ->
     exists tr1 tr2 b, tr = tr1 ++ tr2 /\ verdict endpoint addr tr1 b
       /\ runs (write_to_stream (EndpointVerificationResp b) s) tr2 (Done r))
  /\ (forall tr1 v tr2 r, runs (verify endpoint addr) tr1 (Done v) ->
        runs (write_to_stream (EndpointVerificationResp (is_ok v)) s) tr2 (Done r) ->
        runs (handle_endpoint_verification endpoint s addr) (tr1 ++ tr2) (Done r)).
Proof.
  split.
  - intros tr r (tr1 & tr2 & b & _ & Htr & _ & Hv & Hw)%verification_shape. by exists tr1, tr2, b.
  - apply verification_answers.
Qed.

End Verification.
