(* ===== verification/BiListener.v ===== *)
(** * The handler of a bidirectional stream

    [bi_reads] and [bi_items] specify a stream: the results of reading it message by
    message, and what they put on the message channel. The theorems say that
    the handler reports exactly that, answers the requests in their order with
    complete frames, writes only while it holds the stream's lock, and stops when
    the connection is lost or the receiver is gone. *)

From Stdlib Require Import Strings.Byte.
From S2P Require Import Prelude Std Foreign WireTypes Errors ConfigTypes Prog ProgFacts Effects.
From S2P Require Import Wire StreamSpec WireFacts Framing Config Connection Incoming.
From S2P Require Import UniListener Verification.

Local Open Scope prog_scope.

Section BiListener.
Context {F : Foreign} {Bc : Bincode}.
Context (endpoint : q_Endpoint) (peer_addr : SocketAddr) (tx : MessageTx).
Context (s : q_SendStream) (rs : q_RecvStream).

Abbreviation handler_loop := (handle_bi_stream endpoint peer_addr tx s rs).
Abbreviation dispatch := (bi_dispatch endpoint peer_addr tx s).

(** ** Specification *)

(** What one read message puts on the channel. *)
Definition bi_report (r : Result (option WireMsg) RecvError) : list MessageItem :=
  match r with
  | Err e => [Err e]
  | Ok (Some (UserMsg m)) => [Ok (m, Some (mkSendStream s))]
  | _ => []
  end.

(** The end of the stream and the loss of the connection end the handler. *)
Definition bi_last (r : Result (option WireMsg) RecvError) : bool :=
  match r with Ok None => true | Err (RecvError_ConnectionLost _) => true | _ => false end.

(** The results of the first [k] reads from a stream, up to the last one. *)
Fixpoint bi_reads (k : nat) (st : stream) : list (Result (option WireMsg) RecvError) :=
  match k with
  | O => []
  | S k => (decode st).1 :: (if bi_last (decode st).1 then [] else bi_reads k (decode st).2)
  end.

(** What they leave of the stream. *)
Fixpoint bi_left (k : nat) (st : stream) : stream :=
  match k with
  | O => st
  | S k => if bi_last (decode st).1 then (decode st).2 else bi_left k (decode st).2
  end.

(** The items these reads put on the channel. *)
Definition bi_items (k : nat) (st : stream) : list MessageItem :=
  concat (map bi_report (bi_reads k st)).

(** The first [k] reads are all there are. *)
Definition bi_complete (k : nat) (st : stream) : Prop :=
  forall k', k <= k' -> bi_reads k' st = bi_reads k st.

(** A report the channel did not take. *)
Definition event_refused (v : event ev) : Prop :=
  match v with
  | Ev e x =>
      match e in ev T return T -> Prop with
      | SendMessage _ _ => fun a => is_ok a = false
      | _ => fun _ => False
      end x
  end.

Definition frame_or_nothing (m : WireMsg) : Bytes := unwrap_or (frame m) [].

(** The bytes that answer a message. *)
Definition answers (r : Result (option WireMsg) RecvError) (bs : Bytes) : Prop :=
  match r with
  | Ok (Some EndpointEchoReq) => bs = frame_or_nothing (EndpointEchoResp peer_addr)
  | Ok (Some (EndpointVerificationReq _)) =>
      exists b, bs = frame_or_nothing (EndpointVerificationResp b)
  | _ => bs = []
  end.

(** The streams opened by the handler are not the one it serves. *)
Definition event_fresh (v : event ev) : Prop :=
  match v with
  | Ev e x =>
      match e in ev T return T -> Prop with
      | OpenBi _ => fun a =>
          match a with Ok (s', rs') => s' <> s /\ rs' <> rs | Err _ => True end
      | _ => fun _ => True
      end x
  end.

(** An event that does not touch the served stream or the channel. *)
Definition event_elsewhere (v : event ev) : Prop :=
  match v with
  | Ev e x =>
      match e in ev T return T -> Prop with
      | Read rs' _ => fun _ => rs' <> rs
      | ReadExact rs' _ => fun _ => rs' <> rs
      | WriteAll s' _ => fun _ => s' <> s
      | SendMessage _ _ | LockStream _ | UnlockStream _ | NextUni _ => fun _ => False
      | _ => fun _ => True
      end x
  end.

Definition write_succeeds (v : event ev) : Prop :=
  match v with
  | Ev e x =>
      match e in ev T return T -> Prop with
      | WriteAll _ _ => fun a => a = Ok tt
      | _ => fun _ => True
      end x
  end.

(** ** The parts of a round *)

(** An event that does not read the served stream or report an item. *)
Definition event_harmless (v : event ev) : Prop :=
  match v with
  | Ev e x =>
      match e in ev T return T -> Prop with
      | Read rs' _ => fun _ => rs' <> rs
      | ReadExact rs' _ => fun _ => rs' <> rs
      | SendMessage _ _ => fun _ => False
      | _ => fun _ => True
      end x
  end.

Lemma elsewhere_harmless t : Forall event_elsewhere t -> Forall event_harmless t.
Proof. apply Forall_impl. intros [T e x]. by destruct e. Qed.

Lemma harmless_silent t : Forall event_harmless t -> reported t = [].
Proof.
  induction 1 as [|[T e x] t He _ IH]; [done|].
  change (Ev e x :: t) with ([Ev e x] ++ t). rewrite reported_app, IH. by destruct e.
Qed.

Lemma harmless_keeps t n n' : Forall event_harmless t -> conforms n t n' -> n' rs = n rs.
Proof.
  intros Ht. revert n. induction Ht as [|[T e x] t He _ IH]; intros n Hc; [apply Hc|].
  destruct Hc as (n1 & Hv & Hc). rewrite (IH n1 Hc).
  destruct e; cbn in He, Hv |- *; first [done | apply Hv; by apply not_eq_sym | by apply Hv].
Qed.

Lemma read_from_stream_ensures rs' P Q :
  (forall len a, Q (Ev (Read rs' len) a)) -> (forall len a, Q (Ev (ReadExact rs' len) a)) ->
  ensures P Q (read_from_stream rs') (fun _ => True).
Proof.
  intros H1 H2. apply ensures_only. unfold read_from_stream, read_data, read_header_rest.
  repeat (only_step || done).
Qed.

Lemma write_to_stream_ensures m s' P Q :
  (forall data a, Q (Ev (WriteAll s' data) a)) ->
  ensures P Q (write_to_stream m s') (fun _ => True).
Proof.
  intros H1. apply ensures_only. unfold write_to_stream. repeat (only_step || done).
Qed.

(** [verify] connects, and then touches only the stream it opened. *)
Lemma verify_ensures addr (P Q : event ev -> Prop) :
  (forall x, Q (Ev (Connect endpoint addr SERVER_NAME) x)) ->
  (forall c x, Q (Ev (AwaitConnecting c) x)) ->
  (forall c x, P (Ev (OpenBi c) x) -> Q (Ev (OpenBi c) x)) ->
  (forall c s' rs', P (Ev (OpenBi c) (Ok (s', rs'))) ->
     (forall len a, Q (Ev (Read rs' len) a)) /\ (forall len a, Q (Ev (ReadExact rs' len) a))
     /\ (forall data a, Q (Ev (WriteAll s' data) a))) ->
  ensures P Q (verify endpoint addr) (fun _ => True).
Proof.
  intros HC HA HO HS. unfold verify. apply (ensures_bind _ _ _ _ (fun _ => True)); [by apply ensures_call|].
  intros c _. apply (ensures_try _ _ _ _ (fun _ => True)); [by apply ensures_ret; destruct c|].
  intros connecting _. apply (ensures_try _ _ _ _ (fun _ => True)).
  { apply ensures_call. by intros []. }
  intros nc _. apply (ensures_try _ _ _ _ (fun p => exists c, P (Ev (OpenBi c) (Ok p)))).
  { apply ensures_call. intros [p|e] Hp; (split; [by apply HO|]); [by eexists|done]. }
  intros [s' rs'] [c' Hp]. destruct (HS _ _ _ Hp) as (H1 & H2 & H3).
  apply (ensures_try _ _ _ _ (fun _ => True)).
  { eapply ensures_weaken; [by apply write_to_stream_ensures|]. by intros []. }
  intros _ _. apply (ensures_try _ _ _ _ (fun _ => True)).
  { eapply ensures_weaken; [by apply read_from_stream_ensures|]. by intros []. }
  intros [[]|] _; rewrite ?unexpected_total; by apply ensures_ret.
Qed.

Lemma verify_elsewhere addr :
  ensures event_fresh event_elsewhere (verify endpoint addr) (fun _ => True).
Proof. apply verify_ensures; try done. by intros c' s' rs' [Hs Hrs]. Qed.

Lemma write_harmless m s' : only event_harmless (write_to_stream m s').
Proof. unfold write_to_stream. repeat (only_step || done). Qed.

Lemma verification_harmless addr tr o :
  runs (handle_endpoint_verification endpoint s addr) tr o ->
  Forall event_fresh tr -> Forall event_harmless tr.
Proof.
  intros Hr Hf. revert tr o Hr Hf. unfold handle_endpoint_verification, timeout.
  assert (forall p, ensures event_fresh event_harmless p (fun _ : Result unit SendError => True) ->
    forall tr o, runs p tr o -> Forall event_fresh tr -> Forall event_harmless tr) as Hp
    by (intros p Hp tr o Hr Hf; by apply (Hp tr o)).
  apply Hp. apply (ensures_bind _ _ _ _ (fun _ => True)).
  - apply (ensures_bind _ _ _ _ (fun _ => True)); [|intros; by apply ensures_ret].
    intros tr o Hr%runs_within Hf.
    destruct o as [[b|]|h]; [|destruct Hr as [Hr _]|];
      destruct (verify_elsewhere _ _ _ Hr Hf) as [He _];
      (split; [by apply elsewhere_harmless|done]).
  - intros v _. apply (ensures_try _ _ _ _ (fun _ => True)); [|intros; by apply ensures_ret].
    eapply ensures_weaken; [apply ensures_only, write_harmless|]. by intros [].
Qed.

Section Written.
Context `{!EqDecision q_SendStream}.

Lemma elsewhere_written t : Forall event_elsewhere t -> written s t = [].
Proof.
  induction 1 as [|[T e x] t He _ IH]; [done|].
  change (Ev e x :: t) with ([Ev e x] ++ t). rewrite written_app, IH, app_nil_r.
  destruct e; try done. by apply written_write_other.
Qed.

Lemma write_all_written m t r :
  runs (write_to_stream m s) t (Done r) -> Forall write_succeeds t ->
  written s t = frame_or_nothing m.
Proof.
  intros Hr Hs. unfold frame_or_nothing.
  apply write_to_stream_runs in Hr as [(-> & e & -> & ->)|(p & flag & Hp & Hlen & H)]; [done|].
  assert (frame m = Some (to_bytes (header_of p flag) ++ p)) as ->.
  { unfold frame. rewrite Hp, MsgHeader_new_spec. by destruct (Z.leb_spec (zlen p) u32_MAX); [|lia]. }
  cbn zeta in H. destruct H as [(e & -> & ->)|[(e & -> & ->)|(-> & ->)]].
  - inversion_clear Hs as [|? ? H _]. done.
  - inversion_clear Hs as [|? ? _ H]. inversion_clear H as [|? ? H' _]. done.
  - by rewrite !written_write_ok, written_nil, app_nil_r.
Qed.

(** ** One round *)

(** A reply under the lock. *)
Lemma reply_done (p : io (Result unit SendError)) t (res : unit + unit) :
  runs (let* _ := call (LockStream s) in let* _ := p in
        let* _ := call (UnlockStream s) in Ret (inl tt)) t (Done res) ->
  exists r t', t = [Ev (LockStream s) tt] ++ t' ++ [Ev (UnlockStream s) tt]
    /\ runs p t' (Done r) /\ res = inl tt.
Proof.
  intros H. run_inv. do 2 eexists. split_and!; [|done..].
  repeat match goal with x : unit |- _ => destruct x end. done.
Qed.

(** What a finished reaction to a message did. *)
Definition reacted r t (res : unit + unit) : Prop :=
  reported t = bi_report r
  /\ (forall n n', conforms n t n' -> n' rs = n rs)
  /\ (Forall write_succeeds t -> answers r (written s t))
  /\ match res with
     | inl _ => bi_last r = false
     | inr _ => bi_last r = true \/ Exists event_refused t
     end.

Lemma reacted_reply r t' :
  Forall event_harmless t' -> bi_report r = [] -> bi_last r = false ->
  (Forall write_succeeds t' -> answers r (written s t')) ->
  reacted r ([Ev (LockStream s) tt] ++ t' ++ [Ev (UnlockStream s) tt]) (inl tt).
Proof.
  intros Ht Hr Hl Ha.
  assert (Forall event_harmless ([Ev (LockStream s) tt] ++ t' ++ [Ev (UnlockStream s) tt])) as Hh
    by (repeat (apply Forall_app; split); by repeat constructor).
  split_and!; [by rewrite harmless_silent|intros n n'; by apply harmless_keeps| |done].
  rewrite !written_app. cbn [written map concat event_written app]. rewrite app_nil_r.
  intros Hs. apply Ha. inversion_clear Hs as [|? ? _ Hs']. by apply Forall_app in Hs' as [Hs _].
Qed.

Lemma reacted_report r item a :
  bi_report r = [item] -> answers r [] ->
  reacted r [Ev (SendMessage tx item) a]
    (if bi_last r || negb (is_ok a) then inr tt else inl tt).
Proof.
  intros Hr Ha. split_and!; [done|by intros n n' (n1 & H1 & H2); rewrite (H2 rs)|done|].
  destruct (bi_last r) eqn:El; cbn [orb]; [by left|].
  destruct a as [u|e]; [done|]. right. by constructor.
Qed.

Lemma reacted_nothing r res :
  bi_report r = [] -> answers r [] -> (match res with inl _ => bi_last r = false | inr _ => bi_last r = true end) ->
  reacted r [] res.
Proof.
  intros Hr Ha Hl. split_and!; [done|by intros n n' H; apply H|done|]. destruct res; auto.
Qed.

Lemma dispatch_done r t res :
  runs (dispatch r) t (Done res) -> Forall event_fresh t -> reacted r t res.
Proof.
  intros Hr Hf. destruct r as [[m|]|e]; [destruct m as [|a|a|b|m]| |]; cbn [bi_dispatch] in Hr.
  - apply reply_done in Hr as (r & t' & -> & Hr & ->). apply reacted_reply; [|done..|].
    + by eapply write_harmless.
    + intros Hs. by eapply write_all_written.
  - apply runs_ret_done in Hr as [-> ->]. by apply reacted_nothing.
  - apply reply_done in Hr as (r & t' & -> & Hr & ->).
    apply Forall_app in Hf as [_ Hf]. apply Forall_app in Hf as [Hf _].
    apply reacted_reply; [by eapply verification_harmless|done..|]. intros Hs.
    unfold handle_endpoint_verification, timeout in Hr.
    apply runs_bind_done in Hr as (v & t1 & t2 & -> & H1 & H2).
    apply runs_bind_done in H1 as (w & t3 & t4 & -> & H1 & H3).
    apply runs_ret_done in H3 as [-> _]. rewrite app_nil_r in *.
    apply runs_within_done in H1. apply Forall_app in Hf as [Hf _]. apply Forall_app in Hs as [_ Hs].
    assert (Forall event_elsewhere t3) as He
      by (destruct w as [b|]; by destruct (verify_elsewhere _ _ _ H1 Hf)).
    rewrite written_app, (elsewhere_written _ He). eexists. cbn [app].
    apply runs_try_done in H2 as [(u & t5 & t6 & -> & H2 & H3)|(e & H2 & _)].
    + apply runs_ret_done in H3 as [-> _]. rewrite app_nil_r in *. by eapply write_all_written.
    + by eapply write_all_written.
  - apply runs_ret_done in Hr as [-> ->]. by apply reacted_nothing.
  - apply runs_bind_done in Hr as (a & t1 & t2 & -> & H1 & H2). apply runs_call_done in H1 as ->.
    replace res with (if bi_last (Ok (Some (UserMsg m))) || negb (is_ok a) then inr tt else inl tt : unit + unit)
      by (destruct a; cbn in H2; destruct H2 as [-> Ho]; destruct Ho; by simplify_eq).
    assert (t2 = []) as -> by (destruct a; by destruct H2). by apply reacted_report.
  - apply runs_ret_done in Hr as [-> ->]. by apply reacted_nothing.
  - apply runs_bind_done in Hr as (a & t1 & t2 & -> & H1 & H2). apply runs_call_done in H1 as ->.
    assert (is_connection_lost (T := unit) (Err e) = bi_last (Err e)) as El by (by destruct e).
    rewrite El in H2.
    assert (t2 = [] /\ res = if bi_last (Err e) || negb (is_ok a) then inr tt else inl tt) as [-> ->]
      by (destruct (_ || _); by apply runs_ret_done in H2). by apply reacted_report.
Qed.

(** A reaction that is still going on has reported its item or nothing. *)
Lemma reply_harmless (p : io (Result unit SendError)) t o :
  (forall t o, runs p t o -> Forall event_fresh t -> Forall event_harmless t) ->
  runs (let* _ := call (LockStream s) in let* _ := p in
        let* _ := call (UnlockStream s) in Ret (inl tt : unit + unit)) t o ->
  Forall event_fresh t -> Forall event_harmless t.
Proof.
  intros Hp Hr Hf. revert t o Hr Hf.
  assert (ensures event_fresh event_harmless (let* _ := call (LockStream s) in let* _ := p in
        let* _ := call (UnlockStream s) in Ret (inl tt : unit + unit)) (fun _ => True)) as He.
  { apply (ensures_bind _ _ _ _ (fun _ => True)); [by apply ensures_call|]. intros _ _.
    apply (ensures_bind _ _ _ _ (fun _ => True)); [|intros _ _].
    { intros t o Hr Hf. split; [by eapply Hp|by destruct o]. }
    apply (ensures_bind _ _ _ _ (fun _ => True)); [by apply ensures_call|]. intros _ _.
    by apply ensures_ret. }
  intros t o Hr Hf. by apply (He t o).
Qed.

Lemma report_halted item (k : Result unit MessageItem -> io (unit + unit)) t h :
  (forall a t h, runs (k a) t (Halt h) -> t = []) ->
  runs (let* sent := call (SendMessage tx item) in k sent) t (Halt h) ->
  reported t = [] \/ reported t = [item].
Proof.
  intros Hk [(a & t1 & t2 & -> & H1 & H2)|(h' & _ & H1)]%runs_bind.
  - apply runs_call_done in H1 as ->. apply Hk in H2 as ->. by right.
  - apply runs_call in H1 as [[-> _]|(a & -> & _)]; [by left|by right].
Qed.

Lemma dispatch_halted r t h :
  runs (dispatch r) t (Halt h) -> Forall event_fresh t ->
  reported t = [] \/ reported t = bi_report r.
Proof.
  intros Hr Hf. destruct r as [[m|]|e]; [destruct m as [|a|a|b|m]| |]; cbn [bi_dispatch] in Hr.
  1: left; eapply harmless_silent, reply_harmless; [|done..]; intros t' o' H' _; by eapply write_harmless.
  2: left; eapply harmless_silent, reply_harmless; [|done..]; by apply verification_harmless.
  1,2,4: left; by destruct Hr as [-> _].
  - eapply report_halted, Hr. intros [] t' h' H'; cbn in H'; by destruct H' as [-> _].
  - eapply report_halted, Hr. intros a t' h' H'. cbv beta in H'.
    destruct (is_connection_lost (Err e) || negb (is_ok a)); by destruct H' as [-> _].
Qed.

(** ** The handler *)

Definition handled n tr n' (o : outcome unit) : Prop :=
  exists k, reported tr = bi_items k (n rs) /\
  match o with
  | Done _ =>
      n' rs = bi_left k (n rs)
      /\ (Forall write_succeeds tr ->
       exists bss, Forall2 answers (bi_reads k (n rs)) bss /\ written s tr = concat bss)
      /\ (Forall (fun v => ~ event_refused v) tr -> bi_complete k (n rs))
  | Halt _ => True
  end.

Lemma read_not_written t o : runs (read_from_stream rs) t o -> written s t = [].
Proof.
  intros Hr. assert (Forall (fun v => event_written s v = []) t) as Ht.
  { revert t o Hr. change (only (fun v => event_written s v = []) (read_from_stream rs)).
    unfold read_from_stream, read_data, read_header_rest. repeat (only_step || done). }
  unfold written. clear Hr. induction Ht as [|v t Hv _ IH]; [done|]. cbn. by rewrite Hv, IH.
Qed.

Lemma bi_round t1 r t2 n n1 n2 :
  runs (read_from_stream rs) t1 (Done r) -> conforms n t1 n1 -> conforms n1 t2 n2 ->
  (forall n n', conforms n t2 n' -> n' rs = n rs) ->
  r = (decode (n rs)).1 /\ n2 rs = (decode (n rs)).2 /\ reported t1 = [] /\ written s t1 = [].
Proof.
  intros Hr Hc1 Hc2 Hk. destruct (next_read_step _ _ _ _ _ Hr Hc1) as (_ & Hrep & -> & Hn & _).
  rewrite (Hk _ _ Hc2). split_and!; [done..|by eapply read_not_written].
Qed.

Lemma complete_last k st : bi_last (decode st).1 = true -> bi_complete (S k) st.
Proof. intros H [|k'] Hk; [lia|]. cbn. by rewrite H. Qed.

Lemma complete_next k st : bi_complete k (decode st).2 -> bi_complete (S k) st.
Proof. intros H [|k'] Hk; [lia|]. cbn. by rewrite (H k') by lia. Qed.

Lemma handled_round n n2 n' r t1 t2 t3 o :
  reacted r t2 (inl tt) -> r = (decode (n rs)).1 -> n2 rs = (decode (n rs)).2 ->
  reported t1 = [] -> written s t1 = [] -> handled n2 t3 n' o -> handled n ((t1 ++ t2) ++ t3) n' o.
Proof.
  intros (Hrep & _ & Ha & Hl) -> Hn Hr1 Hw1 (k & Hk & Ho). exists (S k).
  unfold bi_items. cbn [bi_reads map concat]. rewrite Hl. rewrite Hn in *.
  split; [by rewrite !reported_app, Hr1, Hrep, Hk|]. destruct o as [[]|h]; [|done].
  destruct Ho as (Hn' & Hw & Hc). rewrite !Forall_app. split_and!.
  - cbn [bi_left]. by rewrite Hl.
  - intros [[_ H2] H3]. destruct (Hw H3) as (bss & Hb & Hwr). exists (written s t2 :: bss).
    split; [by constructor; [apply Ha|]|]. by rewrite !written_app, Hw1, Hwr.
  - intros [_ H3]. by apply complete_next, Hc.
Qed.

Lemma handled_last n n' r t1 t2 :
  reacted r t2 (inr tt) -> r = (decode (n rs)).1 -> n' rs = (decode (n rs)).2 ->
  reported t1 = [] -> written s t1 = [] -> handled n (t1 ++ t2) n' (Done tt).
Proof.
  intros (Hrep & _ & Ha & Hl) -> Hn Hr1 Hw1. exists 1. unfold bi_items. cbn [bi_reads map concat].
  assert (forall b : bool, (if b then [] else []) = @nil (Result (option WireMsg) RecvError)) as Hif
    by (by intros []). rewrite Hif. cbn [map concat].
  split; [by rewrite reported_app, Hr1, Hrep, app_nil_r|]. rewrite !Forall_app. split_and!.
  - cbn [bi_left]. by destruct (bi_last _).
  - intros [_ H2]. exists [written s t2]. split; [by constructor; [apply Ha|]|].
    cbn. by rewrite written_app, Hw1, app_nil_r.
  - intros [_ H2]. destruct Hl as [Hl|Hl]; [by apply complete_last|].
    apply list.Exists_exists in Hl as (v & Hv & Hs). rewrite list.Forall_forall in H2. by destruct (H2 v Hv).
Qed.

Lemma bi_handler_ok tr o n n' :
  runs handler_loop tr o -> conforms n tr n' -> Forall event_fresh tr -> handled n tr n' o.
Proof.
  intros Hr%runs_loop. revert n. set (u := tt) in Hr at 1. clearbody u.
  induction Hr as [u u' t1 t2 o H1 _ IH|u b t H1|u h t H1]; intros n Hc Hf.
  - apply conforms_app in Hc as (n2 & Hc & Hc2). apply Forall_app in Hf as [Hf1 Hf2].
    apply runs_bind_done in H1 as (r & t3 & t4 & -> & H3 & H4).
    apply conforms_app in Hc as (n1 & Hc3 & Hc4). apply Forall_app in Hf1 as [_ Hf4].
    destruct u'. pose proof (dispatch_done _ _ _ H4 Hf4) as Hre.
    destruct (bi_round _ _ _ _ _ _ H3 Hc3 Hc4 (proj1 (proj2 Hre))) as (Hd & Hn & Hrep & Hw).
    eapply handled_round; eauto.
  - apply runs_bind_done in H1 as (r & t3 & t4 & -> & H3 & H4).
    apply conforms_app in Hc as (n1 & Hc3 & Hc4). apply Forall_app in Hf as [_ Hf4].
    destruct b. pose proof (dispatch_done _ _ _ H4 Hf4) as Hre.
    destruct (bi_round _ _ _ _ _ _ H3 Hc3 Hc4 (proj1 (proj2 Hre))) as (Hd & Hn & Hrep & Hw).
    by eapply handled_last.
  - apply runs_bind in H1 as [(r & t3 & t4 & -> & H3 & H4)|(h' & _ & H3)].
    + apply conforms_app in Hc as (n1 & Hc3 & Hc4). apply Forall_app in Hf as [_ Hf4].
      destruct (next_read_step _ _ _ _ _ H3 Hc3) as (_ & Hrep & -> & _).
      unfold handled. rewrite reported_app, Hrep.
      destruct (dispatch_halted _ _ _ H4 Hf4) as [->| ->]; [by exists 0|]. exists 1. split; [|done].
      unfold bi_items. cbn. destruct (bi_last _); cbn; by rewrite app_nil_r.
    + exists 0. split; [|done]. by apply read_quiet in H3 as [_ ->].
Qed.

(** C14: the handler of a bidirectional stream puts on the message channel, in order,
    the user messages of the stream, each with the stream to reply on, and the
    errors of reading it, and nothing else. When it has returned and the channel
    took every item, nothing of the stream is missing. *)
Theorem bi_handler_reports tr o n n' :
  runs handler_loop tr o -> conforms n tr n' -> Forall event_fresh tr ->
  exists k, reported tr = bi_items k (n rs)
    /\ (o = Done tt -> Forall (fun v => ~ event_refused v) tr -> bi_complete k (n rs)).
Proof.
  intros Hr Hc Hf. destruct (bi_handler_ok _ _ _ _ Hr Hc Hf) as (k & Hk & Ho).
  exists k. split; [done|]. intros ->. apply Ho.
Qed.

(** C15: when the handler has returned and its writes succeeded, the bytes on its
    sending stream are the answers to the requests it read, in the order of the
    requests and each a complete frame: an echo response with the peer's address to
    an echo request, a verification response to a verification request, and nothing
    to any other message. The reads are those that lead from what the stream held to what
    is left of it, and all there are to make unless the channel refused an item. *)
Theorem bi_handler_answers tr n n' :
  runs handler_loop tr (Done tt) -> conforms n tr n' -> Forall event_fresh tr ->
  Forall write_succeeds tr ->
  exists k bss, Forall2 answers (bi_reads k (n rs)) bss /\ written s tr = concat bss
    /\ reported tr = bi_items k (n rs) /\ n' rs = bi_left k (n rs)
    /\ (Forall (fun v => ~ event_refused v) tr -> bi_complete k (n rs)).
Proof.
  intros Hr Hc Hf Hs. destruct (bi_handler_ok _ _ _ _ Hr Hc Hf) as (k & Hk & Hn & Ho & Hcm).
  destruct (Ho Hs) as (bss & Hb & Hw). by exists k, bss.
Qed.

End Written.

(** ** The end of the handler *)

Lemma harmless_not_stopping t : Forall event_harmless t -> Forall (fun v => ~ event_stops v) t.
Proof. intros H. by apply silent_not_stopping, harmless_silent. Qed.

Lemma reply_not_stopping (p : io (Result unit SendError)) t o :
  only (fun v => ~ event_stops v) p ->
  runs (let* _ := call (LockStream s) in let* _ := p in
        let* _ := call (UnlockStream s) in Ret (inl tt : unit + unit)) t o ->
  Forall (fun v => ~ event_stops v) t.
Proof.
  intros Hp. revert t o. fold (only (fun v => ~ event_stops v)
    (let* _ := call (LockStream s) in let* _ := p in
        let* _ := call (UnlockStream s) in Ret (inl tt : unit + unit))).
  repeat (only_step || done || tauto).
Qed.

Lemma write_not_stopping m s' : only (fun v => ~ event_stops v) (write_to_stream m s').
Proof. unfold write_to_stream. repeat (only_step || tauto). Qed.

Lemma read_not_stopping rs' : only (fun v => ~ event_stops v) (read_from_stream rs').
Proof. unfold read_from_stream, read_data, read_header_rest. repeat (only_step || tauto). Qed.

Lemma verification_not_stopping addr :
  only (fun v => ~ event_stops v) (handle_endpoint_verification endpoint s addr).
Proof.
  unfold handle_endpoint_verification, timeout, verify.
  repeat (only_step || apply write_not_stopping || apply read_not_stopping || tauto).
Qed.

Lemma report_final item (f : Result unit MessageItem -> io (unit + unit)) g t o :
  runs (let* sent := call (SendMessage tx item) in f sent) t o ->
  (forall a, f a = Ret (g a)) ->
  t = [] /\ o = Halt Running
  \/ exists a, t = [Ev (SendMessage tx item) a] /\ (o = Halt Running \/ o = Done (g a)).
Proof.
  intros [(a & t1 & t2 & -> & H1 & H2)|(h & -> & H1)]%runs_bind Hf.
  - apply runs_call_done in H1 as ->. right. exists a. rewrite Hf in H2.
    destruct H2 as [-> Ho]. split; [done|tauto].
  - apply runs_call in H1 as [[-> Ho]|(a & -> & Ho)]; [simplify_eq; by left|].
    right. exists a. destruct Ho as [?|Ho]; simplify_eq. auto.
Qed.

(** A reaction ends with the event that stops the handler, if there is one. *)
Lemma dispatch_stops r t o :
  runs (dispatch r) t o ->
  Forall (fun v => ~ event_stops v) t \/ exists v, t = [v] /\ forall u, o <> Done (inl u).
Proof.
  intros Hr. destruct r as [[m|]|e]; [destruct m as [|a|a|b|m]| |]; cbn [bi_dispatch] in Hr.
  1: left; eapply reply_not_stopping, Hr; apply write_not_stopping.
  2: left; eapply reply_not_stopping, Hr; apply verification_not_stopping.
  1,2,4: left; by destruct Hr as [-> _].
  - apply (report_final _ _ (fun a => if is_ok a then inl tt else inr tt)) in Hr as Hs;
      [|by intros []].
    destruct Hs as [[-> _]|(a & -> & Ho)]; [by left|]. destruct a as [u|x].
    + left. repeat constructor. cbn. congruence.
    + right. eexists. split; [done|]. intros u ->. by destruct Ho.
  - apply (report_final _ _
      (fun a => if is_connection_lost (T := unit) (Err e) || negb (is_ok a) then inr tt else inl tt))
      in Hr; [|intros a; by destruct (is_connection_lost _ || negb (is_ok a))].
    destruct Hr as [[-> _]|(a & -> & Ho)]; [by left|].
    destruct (is_connection_lost (T := unit) (Err e) || negb (is_ok a)) eqn:El.
    + right. eexists. split; [done|]. intros u ->. by destruct Ho.
    + left. repeat constructor. cbn. by destruct e; cbn in El |- *; rewrite ?El.
Qed.

(** C39: the handler performs no further event after it reported the loss of the
    connection or after a report that the channel did not take. *)
Theorem bi_handler_stops tr o tr1 v tr2 :
  runs handler_loop tr o -> tr = tr1 ++ v :: tr2 -> event_stops v -> tr2 = [].
Proof.
  intros Hr. revert tr1 v tr2. change (final event_stops tr). eapply loop_final, Hr; clear.
  - intros u u' t Hr. apply runs_bind_done in Hr as (r & t1 & t2 & -> & H1 & H2).
    apply Forall_app. split; [by eapply read_not_stopping|].
    apply dispatch_stops in H2 as [?|(v & -> & Ho)]; [done|by destruct (Ho u')].
  - intros u t o Hr. apply runs_bind in Hr as [(r & t1 & t2 & -> & H1 & H2)|(h & -> & H1)].
    + apply final_app; [by eapply read_not_stopping|].
      apply dispatch_stops in H2 as [?|(v & -> & Ho)]; [by apply final_none|apply final_one].
    + by eapply final_none, read_not_stopping.
Qed.

(** ** The lock of the sending stream *)

Section Lock.
Context `{!EqDecision q_SendStream}.

Definition event_lock (held : bool) (v : event ev) : option bool :=
  match v with
  | Ev e x =>
      match e in ev T return T -> option bool with
      | WriteAll s' _ => fun _ => if decide (s' = s) then (if held then Some held else None) else Some held
      | Finish s' => fun _ => if decide (s' = s) then (if held then Some held else None) else Some held
      | LockStream s' => fun _ => if decide (s' = s) then (if held then None else Some true) else Some held
      | UnlockStream s' => fun _ => if decide (s' = s) then (if held then Some false else None) else Some held
      | _ => fun _ => Some held
      end x
  end.

(** The state of the lock after a trace; [None] when the stream was written or
    unlocked without the lock, or locked twice. *)
Fixpoint lock_after (held : bool) (tr : list (event ev)) : option bool :=
  match tr with
  | [] => Some held
  | v :: tr => match event_lock held v with Some held => lock_after held tr | None => None end
  end.

Lemma lock_after_app held t1 t2 held' :
  lock_after held t1 = Some held' -> lock_after held (t1 ++ t2) = lock_after held' t2.
Proof.
  revert held. induction t1 as [|v t1 IH]; intros held Ht; cbn in *; [by simplify_eq|].
  destruct (event_lock held v); [by apply IH|done].
Qed.

Lemma lock_after_still held t :
  Forall (fun v => event_lock held v = Some held) t -> lock_after held t = Some held.
Proof. induction 1 as [|v t Hv _ IH]; [done|]. cbn. by rewrite Hv. Qed.

(** Programs that leave a held lock alone, and programs that do not need it. *)
Definition keeps {A} (held : bool) (p : io A) : Prop :=
  only (fun v => event_lock held v = Some held) p.

Lemma read_keeps rs' held : keeps held (read_from_stream rs').
Proof. unfold keeps, read_from_stream, read_data, read_header_rest. repeat (only_step || done). Qed.

Lemma write_keeps m s' : keeps true (write_to_stream m s').
Proof. unfold keeps, write_to_stream. repeat (only_step || done); cbn; by case_decide. Qed.

Lemma verification_keeps addr : keeps true (handle_endpoint_verification endpoint s addr).
Proof.
  unfold keeps, handle_endpoint_verification, timeout, verify.
  repeat (only_step || apply write_keeps || apply read_keeps || done).
Qed.

Lemma reply_locked (p : io (Result unit SendError)) t o :
  keeps true p ->
  runs (let* _ := call (LockStream s) in let* _ := p in
        let* _ := call (UnlockStream s) in Ret (inl tt : unit + unit)) t o ->
  is_Some (lock_after false t) /\ forall r, o = Done r -> lock_after false t = Some false.
Proof.
  intros Hp [([] & t1 & t2 & -> & H1 & H2)|(h & -> & H1)]%runs_bind.
  2: { apply runs_call in H1 as [[-> _]|(x & -> & _)]; cbn; [by eauto|].
       rewrite decide_True by done. by eauto. }
  apply runs_call_done in H1 as ->. cbn [lock_after event_lock app]. rewrite decide_True by done.
  apply runs_bind in H2 as [(r & t3 & t4 & -> & H3 & H4)|(h & -> & H3)];
    apply Hp, lock_after_still in H3; [|by rewrite H3; eauto].
  rewrite (lock_after_app _ _ _ _ H3).
  apply runs_bind in H4 as [([] & t5 & t6 & -> & H5 & H6)|(h & -> & H5)].
  - apply runs_call_done in H5 as ->. destruct H6 as [-> _]. cbn. rewrite decide_True by done. eauto.
  - apply runs_call in H5 as [[-> _]|(x & -> & _)]; cbn; [by eauto|].
    rewrite decide_True by done. by eauto.
Qed.

Lemma quiet_locked {A} (p : io A) t o :
  keeps false p -> runs p t o ->
  is_Some (lock_after false t) /\ forall r, o = Done r -> lock_after false t = Some false.
Proof. intros Hp Hr%Hp%lock_after_still. rewrite Hr. eauto. Qed.

Lemma dispatch_locked r t o :
  runs (dispatch r) t o ->
  is_Some (lock_after false t) /\ forall r, o = Done r -> lock_after false t = Some false.
Proof.
  destruct r as [[m|]|e]; [destruct m as [|a|a|b|m]| |]; cbn [bi_dispatch].
  1: apply reply_locked, write_keeps.
  2: apply reply_locked, verification_keeps.
  all: apply quiet_locked; unfold keeps; repeat (only_step || done).
Qed.

(** C26: at every moment of every run, the handler writes to its sending stream only
    while it holds the stream's lock, takes the lock only when it does not hold it
    and gives back only what it holds; when it has returned it does not hold it. *)
Theorem bi_handler_locked tr o :
  runs handler_loop tr o ->
  is_Some (lock_after false tr) /\ (o = Done tt -> lock_after false tr = Some false).
Proof.
  intros Hr%runs_loop. set (u := tt) in Hr at 1. clearbody u.
  assert (forall (u : unit) t o, runs (let* r := read_from_stream rs in dispatch r) t o ->
    is_Some (lock_after false t) /\ forall r, o = Done r -> lock_after false t = Some false) as Hb.
  { intros _ t o' [(r & t1 & t2 & -> & H1 & H2)|(h & -> & H1)]%runs_bind;
      apply (read_keeps _ false), lock_after_still in H1; [|by rewrite H1; eauto].
    rewrite (lock_after_app _ _ _ _ H1). by eapply dispatch_locked. }
  induction Hr as [u u' t1 t2 o H1 _ IH|u b t H1|u h t H1]; apply (Hb u) in H1 as [H1 Hd].
  - by rewrite (lock_after_app _ _ _ _ (Hd _ eq_refl)).
  - eauto.
  - by split.
Qed.

End Lock.
End BiListener.
