(* ===== verification/BiStreams.v ===== *)
(** * The listener for bidirectional streams

    The handlers of the accepted streams run concurrently. Streams that quinn hands
    out are distinct, so what one handler reads is not touched by another
    ([conforms_parts]), and the theorem on one handler carries over: the items the
    listener reports are an interleaving of the items of the accepted streams. *)

From Stdlib Require Import Strings.Byte.
From S2P Require Import Prelude Std Foreign WireTypes Errors ConfigTypes Prog ProgFacts Effects.
From S2P Require Import Wire StreamSpec WireFacts Framing Config Connection Incoming.
From S2P Require Import UniListener Verification BiListener.

Local Open Scope prog_scope.

Section BiStreams.
Context {F : Foreign} {Bc : Bincode} `{!EqDecision q_SendStream, !EqDecision q_RecvStream}.

(** ** What a part of a trace reads *)

Definition event_reads (v : event ev) : list q_RecvStream :=
  match v with
  | Ev e _ => match e with Read rs _ => [rs] | ReadExact rs _ => [rs] | _ => [] end
  end.

Definition reads (tr : list (event ev)) : list q_RecvStream := concat (map event_reads tr).

Lemma reads_cons v t rs : rs ∈ reads (v :: t) <-> rs ∈ event_reads v \/ rs ∈ reads t.
Proof. unfold reads. cbn [map concat]. apply elem_of_app. Qed.

(** An event changes only what it reads. *)
Lemma event_conforms_elsewhere n v n' rs :
  event_conforms n v n' -> rs ∉ event_reads v -> n' rs = n rs.
Proof.
  destruct v as [T e x].
  destruct e; cbn; intros H Hrs; apply H; by rewrite list_elem_of_singleton in Hrs.
Qed.

(** Conformance depends only on the streams that are read. *)
Lemma event_conforms_frame n1 v n2 n :
  event_conforms n1 v n2 -> (forall rs, rs ∈ event_reads v -> n rs = n1 rs) ->
  event_conforms n v (fun rs => if decide (rs ∈ event_reads v) then n2 rs else n rs).
Proof.
  assert (forall rs : q_RecvStream, rs ∉ []) as Hnil by apply not_elem_of_nil.
  destruct v as [T e x]. destruct e; cbn [event_conforms event_reads]; intros H Hn;
    try (intros u; cbv beta; by rewrite decide_False);
    (destruct H as [H _]; cbv beta; rewrite decide_True by (by left); rewrite Hn by (by left);
     split; [done|]; intros u Hu; cbv beta; by rewrite decide_False by (by intros ?%list_elem_of_singleton)).
Qed.

Lemma conforms_frame t n1 m n :
  conforms n1 t m -> (forall rs, rs ∈ reads t -> n rs = n1 rs) -> exists m', conforms n t m'.
Proof.
  revert n1 n. induction t as [|v t IH]; intros n1 n Hc Hn; [by exists n|].
  destruct Hc as (n2 & Hv & Hc).
  pose proof (event_conforms_frame _ _ _ n Hv) as Hv'.
  destruct (IH n2 (fun rs => if decide (rs ∈ event_reads v) then n2 rs else n rs) Hc) as [m' Hm'].
  - intros rs Hrs. destruct (decide (rs ∈ event_reads v)); [done|].
    rewrite (event_conforms_elsewhere _ _ _ _ Hv) by done. apply Hn, reads_cons. by right.
  - exists m'. eexists. split; [|exact Hm']. apply Hv'. intros rs Hrs. apply Hn, reads_cons. by left.
Qed.

(** No stream is read by two of the parts. *)
Definition apart (ls : list (list (event ev))) : Prop :=
  forall i j t u rs, ls !! i = Some t -> ls !! j = Some u -> rs ∈ reads t -> rs ∈ reads u -> i = j.

Lemma lookup_middle_ne {A} (k1 k2 : list A) x y j :
  j <> length k1 -> (k1 ++ x :: k2) !! j = (k1 ++ y :: k2) !! j.
Proof.
  intros Hj. destruct (decide (j < length k1)).
  - by rewrite !lookup_app_l.
  - rewrite !lookup_app_r by lia. destruct (j - length k1) as [|d] eqn:Ed; [lia|done].
Qed.

Lemma apart_tail k1 x t k2 : apart (k1 ++ (x :: t) :: k2) -> apart (k1 ++ t :: k2).
Proof.
  assert (forall i u rs, (k1 ++ t :: k2) !! i = Some u -> rs ∈ reads u ->
    exists u', (k1 ++ (x :: t) :: k2) !! i = Some u' /\ rs ∈ reads u') as Hl.
  { intros i u rs Hu Hrs. destruct (decide (i = length k1)) as [->|Hi].
    - rewrite list_lookup_middle in Hu by done. simplify_eq. exists (x :: u).
      split; [by apply list_lookup_middle|]. apply reads_cons. by right.
    - exists u. by rewrite (lookup_middle_ne _ _ _ t). }
  intros Ha i j u w rs Hu Hw Hru Hrw.
  destruct (Hl _ _ _ Hu Hru) as (u' & Hu' & Hru'). destruct (Hl _ _ _ Hw Hrw) as (w' & Hw' & Hrw').
  by eapply Ha.
Qed.

Lemma conforms_parts ls tr n n' :
  merges ls tr -> conforms n tr n' -> apart ls ->
  forall i t, ls !! i = Some t -> exists m, conforms n t m.
Proof.
  intros Hm. revert n. induction Hm as [ls Hls|k1 x t k2 l _ IH]; intros n Hc Ho i u Hu.
  - exists n. rewrite list.Forall_forall in Hls. by rewrite (Hls u) by (by eapply list_elem_of_lookup_2).
  - destruct Hc as (n1 & Hx & Hc). specialize (IH n1 Hc (apart_tail _ _ _ _ Ho)).
    destruct (decide (i = length k1)) as [->|Hi].
    + rewrite list_lookup_middle in Hu by done. simplify_eq.
      destruct (IH (length k1) t) as [m Hm]; [by apply list_lookup_middle|]. by exists m, n1.
    + destruct (IH i u) as [m Hm]; [by rewrite (lookup_middle_ne _ _ _ (x :: t))|].
      eapply conforms_frame; [exact Hm|]. intros rs Hrs.
      symmetry. apply (event_conforms_elsewhere _ _ _ _ Hx). intros Hx'. apply Hi.
      apply (Ho i (length k1) u (x :: t) rs Hu); [by apply list_lookup_middle|done|].
      apply reads_cons. by left.
Qed.

(** ** The streams that are accepted and opened *)

Definition event_bi_accepted (v : event ev) : list (q_SendStream * q_RecvStream) :=
  match v with
  | Ev e x =>
      match e in ev T return T -> _ with
      | NextBi _ => fun a => match a with Some (Ok p) => [p] | _ => [] end
      | _ => fun _ => []
      end x
  end.

Definition bi_accepted (tr : list (event ev)) := concat (map event_bi_accepted tr).

Definition event_opened (v : event ev) : list (q_SendStream * q_RecvStream) :=
  match v with
  | Ev e x =>
      match e in ev T return T -> _ with
      | OpenBi _ => fun a => match a with Ok p => [p] | Err _ => [] end
      | _ => fun _ => []
      end x
  end.

Definition bi_opened (tr : list (event ev)) := concat (map event_opened tr).

Lemma flat_nil {A B} (f : A -> list B) l : Forall (fun v => f v = []) l -> concat (map f l) = [].
Proof. induction 1 as [|v l Hv _ IH]; [done|]. cbn. by rewrite Hv, IH. Qed.

Lemma elem_of_flat {A B} (f : A -> list B) l y :
  y ∈ concat (map f l) <-> exists v, v ∈ l /\ y ∈ f v.
Proof.
  rewrite <- flat_map_concat_map, list_elem_of_In, in_flat_map.
  by setoid_rewrite <- list_elem_of_In.
Qed.

Lemma flat_app {A B} (f : A -> list B) l1 l2 :
  concat (map f (l1 ++ l2)) = concat (map f l1) ++ concat (map f l2).
Proof. by rewrite map_app, concat_app. Qed.

(** The outer loop accepts streams and does nothing else. At the moment the last one
    is accepted its handler may not have started. *)
Lemma bi_next_runs bs tr o :
  runs (bi_streams_next bs) tr o ->
  (tr = [] /\ o = Halt Running)
  \/ exists a, tr = [Ev (NextBi bs) a] /\ (o = Done (filter_benign_close a) \/ o = Halt Running).
Proof.
  intros [(a & t1 & t2 & -> & H1 & H2)|(h & -> & H1)]%runs_bind.
  - apply runs_call_done in H1 as ->. destruct H2 as [-> Ho]. right. by exists a.
  - apply runs_call in H1 as [[-> Ho]|(a & -> & Ho)]; [simplify_eq; by left|].
    right. exists a. destruct Ho as [?|Ho]; simplify_eq. auto.
Qed.

Lemma filter_accepted (a : option (Result (q_SendStream * q_RecvStream) q_ConnectionError)) :
  match a with Some (Ok p) => [p] | _ => [] end
  = match filter_benign_close a with Some (Ok p) => [p] | _ => [] end.
Proof. destruct a as [[p|e]|]; cbn; [done| |done]. by destruct (is_benign _). Qed.

Lemma accepts_shape bs tr ps o :
  accepts bs tr ps o ->
  (reported tr = [] /\ bi_opened tr = [] /\ reads tr = [])
  /\ (bi_accepted tr = ps \/ exists p h, bi_accepted tr = ps ++ [p] /\ o = Halt h).
Proof.
  assert (forall t o, runs (bi_streams_next bs) t o ->
    reported t = [] /\ bi_opened t = [] /\ reads t = []) as Hq.
  { intros t o' [[-> _]|(a & -> & _)]%bi_next_runs; done. }
  assert (forall t r, runs (bi_streams_next bs) t (Done r) ->
    bi_accepted t = match r with Some (Ok p) => [p] | _ => [] end) as Hacc.
  { intros t r [[_ ?]|(a & -> & [Ha|?])]%bi_next_runs; [done| |done]. injection Ha as ->.
    cbn. by rewrite app_nil_r, filter_accepted. }
  induction 1 as [t t' p ps o H1 _ [(IH1 & IH2 & IH3) IH]|t H1|t e H1|t h H1];
    destruct (Hq _ _ H1) as (Hq1 & Hq2 & Hq3).
  - split.
    + rewrite reported_app, Hq1, IH1. unfold bi_opened, reads in *. rewrite !flat_app, Hq2, IH2, Hq3, IH3. done.
    + apply Hacc in H1. unfold bi_accepted in *. rewrite flat_app, H1.
      destruct IH as [->|(p' & h & -> & Ho)]; [by left|]. right. by exists p', h.
  - split; [done|]. left. by apply Hacc in H1.
  - split; [done|]. left. by apply Hacc in H1.
  - split; [done|]. apply bi_next_runs in H1 as [[-> _]|(a & -> & _)]; [by left|].
    unfold bi_accepted. cbn. rewrite app_nil_r. destruct a as [[p|e]|]; [|by left|by left].
    right. by exists p, h.
Qed.

(** ** The parts of the listener *)

Section Handler.
Context (endpoint : q_Endpoint) (peer_addr : SocketAddr) (tx : MessageTx).
Context (s : q_SendStream) (rs : q_RecvStream).

Lemma handler_ensures (P Q : event ev -> Prop) :
  (forall addr, ensures P Q (verify endpoint addr) (fun _ => True)) ->
  (forall len a, Q (Ev (Read rs len) a)) -> (forall len a, Q (Ev (ReadExact rs len) a)) ->
  (forall data a, Q (Ev (WriteAll s data) a)) ->
  (forall x, Q (Ev (LockStream s) x)) -> (forall x, Q (Ev (UnlockStream s) x)) ->
  (forall item a, Q (Ev (SendMessage tx item) a)) ->
  ensures P Q (handle_bi_stream endpoint peer_addr tx s rs) (fun _ => True).
Proof.
  intros Hv H1 H2 H3 H4 H5 H6. apply ensures_loop. intros _.
  assert (forall m, ensures P Q (write_to_stream m s) (fun _ => True)) as Hw
    by (intros m; by apply write_to_stream_ensures).
  assert (forall addr, ensures P Q (handle_endpoint_verification endpoint s addr) (fun _ => True)) as Hh.
  { intros addr. unfold handle_endpoint_verification, timeout.
    apply (ensures_bind _ _ _ _ (fun _ => True)).
    - apply (ensures_bind _ _ _ _ (fun _ => True)); [|intros; by apply ensures_ret].
      eapply ensures_weaken; [apply ensures_within, Hv|]. done.
    - intros v _. apply (ensures_try _ _ _ _ (fun _ => True)); [|intros; by apply ensures_ret].
      eapply ensures_weaken; [apply Hw|]. by intros []. }
  apply (ensures_bind _ _ _ _ (fun _ => True)); [by apply read_from_stream_ensures|].
  intros r _. destruct r as [[m|]|e]; [destruct m as [|a|a|b|m]| |]; cbn [bi_dispatch];
    try (by apply ensures_ret);
    (apply (ensures_bind _ _ _ _ (fun _ => True)); [by apply ensures_call|intros ? _]).
  - apply (ensures_bind _ _ _ _ (fun _ => True)); [apply Hw|intros ? _].
    apply (ensures_bind _ _ _ _ (fun _ => True)); [by apply ensures_call|intros ? _]. by apply ensures_ret.
  - apply (ensures_bind _ _ _ _ (fun _ => True)); [apply Hh|intros ? _].
    apply (ensures_bind _ _ _ _ (fun _ => True)); [by apply ensures_call|intros ? _]. by apply ensures_ret.
  - case_match; by apply ensures_ret.
  - case_match; by apply ensures_ret.
Qed.

(** It reads its own stream and those it opened, and accepts none. *)
Lemma handler_parts tr o :
  runs (handle_bi_stream endpoint peer_addr tx s rs) tr o ->
  bi_accepted tr = [] /\ forall r, r ∈ reads tr -> r ∈ rs :: map snd (bi_opened tr).
Proof.
  intros Hr. set (O := map snd (bi_opened tr)).
  assert (Forall (fun v => forall p, p ∈ event_opened v -> p.2 ∈ O) tr) as HP.
  { apply list.Forall_forall. intros v Hv p Hp. apply list_elem_of_fmap. exists p. split; [done|].
    apply elem_of_flat. eauto. }
  assert (ensures (fun v => forall p, p ∈ event_opened v -> p.2 ∈ O)
    (fun v => event_bi_accepted v = [] /\ forall r, r ∈ event_reads v -> r ∈ rs :: O)
    (handle_bi_stream endpoint peer_addr tx s rs) (fun _ => True)) as He.
  { apply handler_ensures; try (by intros; split; [|intros r ?%not_elem_of_nil]);
      try (by intros; split; [|intros r ->%list_elem_of_singleton; left]).
    intros addr. apply verify_ensures; try (by intros; split; [|intros r ?%not_elem_of_nil]).
    intros c s' rs' Hp. assert (rs' ∈ rs :: O) as Hin by (right; by apply (Hp (s', rs')); left).
    split_and!; intros; (split; [done|]); intros r Hr'; cbn in Hr';
      first [by apply list_elem_of_singleton in Hr' as -> | by apply not_elem_of_nil in Hr']. }
  destruct (He _ _ Hr HP) as [HQ _]. split.
  - apply flat_nil. revert HQ. apply Forall_impl. by intros v [H _].
  - intros r Hin. apply elem_of_flat in Hin as (v & Hv & Hin). rewrite list.Forall_forall in HQ.
    by apply (HQ v Hv).
Qed.

End Handler.

(** ** Distinct streams *)

Lemma nodup_concat_unique {A} (ls : list (list A)) i j a b x :
  NoDup (concat ls) -> ls !! i = Some a -> ls !! j = Some b -> x ∈ a -> x ∈ b -> i = j.
Proof.
  assert (forall (ls : list (list A)) j b, ls !! j = Some b -> x ∈ b -> x ∈ concat ls) as Hin.
  { intros l0 j0 b0 Hj Hx. rewrite <- (map_id l0). apply elem_of_flat. exists b0.
    split; [by eapply list_elem_of_lookup_2|done]. }
  revert i j. induction ls as [|l ls IH]; intros i j Hnd Ha Hb Hxa Hxb; [done|].
  cbn in Hnd. apply list.NoDup_app in Hnd as (_ & Hd & Hnd).
  destruct i as [|i], j as [|j]; simplify_eq/=; [done| | |f_equal; by eapply IH].
  - by destruct (Hd x Hxa); eapply Hin.
  - by destruct (Hd x Hxb); eapply Hin.
Qed.

Section Owner.
Context {A : Type} (f : q_SendStream * q_RecvStream -> A).
Context (ps : list (q_SendStream * q_RecvStream)) (os : list (list (q_SendStream * q_RecvStream))).
Context (Hnd : NoDup (map f ps ++ map f (concat os))).

Lemma opened_not_accepted i p o q : ps !! i = Some p -> o ∈ os -> q ∈ o -> f q <> f p.
Proof.
  intros Hp Ho Hq Heq. apply list.NoDup_app in Hnd as (_ & Hd & _).
  apply (Hd (f p)); [apply list_elem_of_fmap; exists p; split; [done|by eapply list_elem_of_lookup_2]|].
  rewrite <- Heq. apply list_elem_of_fmap. exists q. split; [done|].
  rewrite <- (map_id os). apply elem_of_flat. eauto.
Qed.

Lemma stream_owner i j p q o o' x :
  ps !! i = Some p -> os !! i = Some o -> ps !! j = Some q -> os !! j = Some o' ->
  x ∈ f p :: map f o -> x ∈ f q :: map f o' -> i = j.
Proof.
  intros Hp Ho Hq Ho' Hx Hx'. apply elem_of_cons in Hx as [->|Hx], Hx' as [Hx'|Hx'].
  - apply list.NoDup_app in Hnd as (Hn & _ & _). eapply (NoDup_lookup _ i j (f p) Hn).
    + by rewrite list_lookup_fmap, Hp.
    + by rewrite list_lookup_fmap, Hq, Hx'.
  - apply list_elem_of_fmap in Hx' as (q' & Hx' & Hin). symmetry in Hx'.
    destruct (opened_not_accepted i p o' q'); [done|by eapply list_elem_of_lookup_2|done..].
  - subst x. apply list_elem_of_fmap in Hx as (p' & Hx & Hin). symmetry in Hx.
    destruct (opened_not_accepted j q o p'); [done|by eapply list_elem_of_lookup_2|done..].
  - apply list.NoDup_app in Hnd as (_ & _ & Hn). rewrite concat_map in Hn.
    eapply nodup_concat_unique; [exact Hn| | |exact Hx|exact Hx']; by rewrite list_lookup_fmap, ?Ho, ?Ho'.
Qed.

End Owner.

(** ** The listener *)

Section Listener.
Context (endpoint : q_Endpoint) (peer_addr : SocketAddr) (tx : MessageTx).
Context (tr0 tr : list (event ev)) (ps : list (q_SendStream * q_RecvStream)).
Context (hs : list (list (event ev) * outcome unit)).
Context (Hh : Forall2 (fun p h => runs (handle_bi_stream endpoint peer_addr tx p.1 p.2) h.1 h.2) ps hs).
Context (Hm : merges (tr0 :: map fst hs) tr).
Context (Hr0 : reads tr0 = []) (Ho0 : bi_opened tr0 = []).

Let opened := map bi_opened (map fst hs).

Lemma handler_at i h :
  hs !! i = Some h -> exists p, ps !! i = Some p
    /\ runs (handle_bi_stream endpoint peer_addr tx p.1 p.2) h.1 h.2.
Proof. intros Hi. by apply (Forall2_lookup_r _ _ _ _ _ Hh). Qed.

Lemma accepted_merge : bi_accepted tr = bi_accepted tr0.
Proof.
  apply (merges_flat_map event_bi_accepted) in Hm as Hma. cbn [map] in Hma.
  eapply merges_only_first; [exact Hma|]. apply Forall_map, Forall_map, Forall_lookup. intros i h Hi.
  destruct (handler_at i h Hi) as (p & _ & Hrun). by apply handler_parts in Hrun as [? _].
Qed.

Lemma opened_merge : bi_opened tr ≡ₚ concat opened.
Proof.
  apply (merges_flat_map event_opened) in Hm as Hmo. apply merges_permutation in Hmo.
  cbn [map concat] in Hmo. unfold bi_opened in Ho0. rewrite Ho0 in Hmo. exact Hmo.
Qed.

Lemma parts_apart : NoDup (map snd ps ++ map snd (bi_opened tr)) -> apart (tr0 :: map fst hs).
Proof.
  rewrite opened_merge. intros Hnd.
  assert (forall i t r, (tr0 :: map fst hs) !! i = Some t -> r ∈ reads t ->
    exists i' p, i = S i' /\ ps !! i' = Some p /\ opened !! i' = Some (bi_opened t)
      /\ r ∈ p.2 :: map snd (bi_opened t)) as Hown.
  { intros [|i] t r Ht Hr; simplify_eq/=; [rewrite Hr0 in Hr; by apply not_elem_of_nil in Hr|].
    rewrite list_lookup_fmap in Ht. destruct (hs !! i) as [h|] eqn:Ei; simplify_eq/=.
    destruct (handler_at i h Ei) as (p & Hp & Hrun). apply handler_parts in Hrun as [_ Hrun].
    exists i, p. split_and!; [done..| |by apply Hrun].
    unfold opened. by rewrite !list_lookup_fmap, Ei. }
  intros i j t u r Ht Hu Hrt Hru.
  destruct (Hown _ _ _ Ht Hrt) as (i' & p & -> & Hp & Hop & Hx).
  destruct (Hown _ _ _ Hu Hru) as (j' & q & -> & Hq & Hoq & Hy).
  f_equal. by eapply (stream_owner snd ps opened Hnd).
Qed.

Lemma handlers_fresh i p h :
  NoDup (map fst ps ++ map fst (bi_opened tr)) -> NoDup (map snd ps ++ map snd (bi_opened tr)) ->
  ps !! i = Some p -> hs !! i = Some h -> Forall (event_fresh p.1 p.2) h.1.
Proof.
  rewrite !opened_merge. intros Hn1 Hn2 Hp Hi. apply list.Forall_forall. intros [T e x] Hv.
  destruct e; try done. cbn. destruct x as [[s' rs']|e]; [|done].
  assert ((s', rs') ∈ bi_opened h.1) as Hin by (apply elem_of_flat; eexists; split; [exact Hv|by left]).
  assert (bi_opened h.1 ∈ opened) as Hop.
  { unfold opened. rewrite <- list_fmap_compose. apply list_elem_of_fmap. exists h.
    split; [done|by eapply list_elem_of_lookup_2]. }
  split.
  - by apply (opened_not_accepted fst ps opened Hn1 i p (bi_opened h.1) (s', rs')).
  - by apply (opened_not_accepted snd ps opened Hn2 i p (bi_opened h.1) (s', rs')).
Qed.

Lemma handlers_ok n n' i p h :
  conforms n tr n' ->
  NoDup (map fst ps ++ map fst (bi_opened tr)) -> NoDup (map snd ps ++ map snd (bi_opened tr)) ->
  ps !! i = Some p -> hs !! i = Some h -> exists m, handled peer_addr p.1 p.2 n h.1 m h.2.
Proof.
  intros Hc Hn1 Hn2 Hp Hi.
  destruct (handler_at i h Hi) as (p' & Hp' & Hrun). simplify_eq.
  destruct (conforms_parts _ _ _ _ Hm Hc (parts_apart Hn2) (S i) h.1) as [m Hcm].
  { change ((fst <$> hs) !! i = Some h.1). by rewrite list_lookup_fmap, Hi. }
  exists m. eapply bi_handler_ok; [exact Hrun|exact Hcm|by eapply handlers_fresh].
Qed.

End Listener.

(** What the listener owes an accepted stream: the items of the messages read so
    far; all of them when the listener has ended and the channel took every item. *)
Definition served n tr (st : bi_status) (p : q_SendStream * q_RecvStream)
    (items : list MessageItem) : Prop :=
  exists k, items = bi_items p.1 k (n p.2)
    /\ (st = BiStreamEnded -> Forall (fun v => ~ event_refused v) tr -> bi_complete k (n p.2)).

Lemma handled_served peer_addr n tr st (p : q_SendStream * q_RecvStream)
    (h : list (event ev) * outcome unit) :
  (exists m, handled peer_addr p.1 p.2 n h.1 m h.2) -> h.1 `sublist_of` tr -> (st = BiStreamEnded -> h.2 = Done tt) ->
  served n tr st p (reported h.1).
Proof.
  intros (m & k & Hk & Ho) Hsub Hst. exists k. split; [done|]. intros He Hf. rewrite (Hst He) in Ho.
  apply Ho. apply list.Forall_forall. intros v Hv. rewrite list.Forall_forall in Hf.
  by apply Hf, (sublist_subseteq _ _ Hsub).
Qed.

Lemma merges_snoc_nil {A} (ls : list (list A)) l : merges ls l -> merges (ls ++ [[]]) l.
Proof.
  induction 1 as [ls Hls|k1 x t k2 l _ IH].
  - constructor. apply Forall_app. split; [done|by constructor].
  - rewrite <- app_assoc in *. by apply (merges_cons k1 x t (k2 ++ [[]])).
Qed.

(** C4: the items that the listener for bidirectional streams reports are an
    interleaving of one sequence per accepted stream; the sequence of a stream
    consists of its messages and errors in order, whatever the other handlers do
    meanwhile, and is complete when the listener has come to the end of the streams
    and the channel took every item. *)
Theorem bi_listener_reports endpoint peer_addr bs tx tr st n n' :
  bi_listener endpoint peer_addr bs tx tr st -> conforms n tr n' ->
  NoDup (map fst (bi_accepted tr) ++ map fst (bi_opened tr)) ->
  NoDup (map snd (bi_accepted tr) ++ map snd (bi_opened tr)) ->
  exists items, merges items (reported tr)
    /\ Forall2 (served n tr st) (bi_accepted tr) items.
Proof.
  intros (tr0 & ps & o & hs & Ha & Hh & Hm%spawns_merges & Hst) Hc Hn1 Hn2. cbn [app] in Hm.
  apply accepts_shape in Ha as [(Hrep & Hop & Hrd) Hacc].
  rewrite (accepted_merge _ _ _ _ _ _ _ Hh Hm) in *.
  assert (ps `prefix_of` bi_accepted tr0) as Hpre
    by (destruct Hacc as [->|(p & h & -> & _)]; [done|by apply prefix_app_r]).
  assert (forall A (f : q_SendStream * q_RecvStream -> A),
    NoDup (map f (bi_accepted tr0) ++ map f (bi_opened tr)) ->
    NoDup (map f ps ++ map f (bi_opened tr))) as Hnd.
  { intros A f Hnd. eapply sublist_NoDup; [exact Hnd|]. apply sublist_app; [|done].
    destruct Hpre as [k ->]. rewrite map_app. by apply sublist_inserts_r. }
  assert (Forall2 (served n tr st) ps (map (fun h => reported h.1) hs)) as Hs.
  { apply Forall2_fmap_r, Forall2_same_length_lookup. split; [by eapply Forall2_length|].
    intros i p h Hp Hi. apply (handled_served peer_addr).
    - eapply handlers_ok; eauto.
    - eapply merges_sublist; [exact Hm|]. right. apply list_elem_of_fmap. exists h.
      split; [done|by eapply list_elem_of_lookup_2].
    - intros ->. destruct Hst as [_ Hst]. rewrite list.Forall_forall in Hst.
      apply Hst. by eapply list_elem_of_lookup_2. }
  assert (merges (map (fun h => reported h.1) hs) (reported tr)) as Hmi.
  { apply (merges_flat_map event_reported) in Hm. cbn [map] in Hm. unfold reported in Hrep.
    rewrite Hrep, map_map in Hm. by apply merges_skip_nil. }
  destruct Hacc as [->|(p & h & Hp & ->)]; [by eexists|].
  exists (map (fun h => reported h.1) hs ++ [[]]). split; [by apply merges_snoc_nil|].
  rewrite Hp. apply Forall2_app; [done|]. constructor; [|constructor]. exists 0. split; [done|].
  intros ->. by destruct Hst as [? _].
Qed.

End BiStreams.
