(* ===== verification/EndpointFacts.v ===== *)
(** * Connecting, and the public address of an endpoint

    What a successful connection has set up, what [connect_to_any] returns, and how
    the public address is chosen. *)

From Stdlib Require Import Strings.Byte.
From S2P Require Import Prelude Std Foreign WireTypes Errors ConfigTypes Prog ProgFacts Effects.
From S2P Require Import Wire Config Connection Igd Endpoint.

Local Open Scope Z_scope.
Local Open Scope prog_scope.

Section EndpointFacts.
Context {F : Foreign} {Bc : Bincode} {Bo : Backoff}.

(** ** The public address *)

(** The public address takes its IP from the configuration, else from what the
    contact sees, else from the local address; and its port likewise,
    independently. *)
Lemma choose_public_addr_spec local ip port visible :
  sa_ip (choose_public_addr local ip port visible)
  = unwrap_or ip (unwrap_or (option_map sa_ip visible) (sa_ip local))
  /\ sa_port (choose_public_addr local ip port visible)
     = unwrap_or port (unwrap_or (option_map sa_port visible) (sa_port local)).
Proof.
  unfold choose_public_addr.
  destruct ip, port, visible; cbn [unwrap_or option_map]; by autorewrite with sockaddr.
Qed.

(** With nothing known the local address is kept, whole. *)
Lemma choose_public_addr_local local : choose_public_addr local None None None = local.
Proof. done. Qed.

(** ** Establishing a connection *)

(** The trace of setting up the two halves of a connection: the listeners share one
    channel, whose other end the incoming half holds. *)
Definition set_up (ep : q_Endpoint) (nc : q_NewConnection) (peer : SocketAddr)
    (alive : AliveTx * AliveRx) (chan : MessageTx * MessageRx) : list (event ev) :=
  [Ev NewAliveChannel alive; Ev (RemoteAddress (nc_connection nc)) peer;
   Ev (NewMessageChannel INCOMING_MESSAGE_BUFFER_LEN) chan;
   Ev (Spawn (ListenOnUniStreams peer (nc_uni_streams nc) alive.2 chan.1)) tt;
   Ev (Spawn (ListenOnBiStreams ep peer (nc_bi_streams nc) alive.2 chan.1)) tt].

Lemma Connection_new_runs ep cfg nc tr c i :
  runs (Connection_new ep cfg nc) tr (Done (c, i)) ->
  exists peer alive chan, tr = set_up ep nc peer alive chan
    /\ c = mkConnection (nc_connection nc) cfg alive.1
    /\ i = mkConnectionIncoming chan.2 alive.1.
Proof.
  unfold Connection_new, ConnectionIncoming_new, start_message_listeners. intros H.
  apply runs_bind_done in H as ([atx arx] & t1 & t2 & -> & H1 & H). apply runs_call_done in H1 as ->.
  apply runs_bind_done in H as (peer & t1 & t3 & -> & H1 & H). apply runs_call_done in H1 as ->.
  apply runs_bind_done in H as (i' & t4 & t5 & -> & H1 & H). apply runs_ret_done in H as [-> Hi].
  apply runs_bind_done in H1 as ([mtx mrx] & t1 & t6 & -> & H2 & H1). apply runs_call_done in H2 as ->.
  run_inv. repeat match goal with x : unit |- _ => destruct x end.
  exists peer, (atx, arx), (mtx, mrx). by split_and!.
Qed.

(** The trace of a successful attempt. *)
Definition connected (e : Endpoint) (addr : SocketAddr) connecting nc peer alive chan :
    list (event ev) :=
  [Ev (Connect (quinn_endpoint e) addr SERVER_NAME) (Ok connecting);
   Ev (AwaitConnecting connecting) (Ok nc)] ++ set_up (quinn_endpoint e) nc peer alive chan.

(** A failed attempt got no further than the handshake, and may be retried. *)
Definition attempt_failed (e : Endpoint) (addr : SocketAddr) (tr : list (event ev))
    (error : ConnectionError) : Prop :=
  (exists ce, tr = [Ev (Connect (quinn_endpoint e) addr SERVER_NAME) (Err ce)] /\ error = from ce)
  \/ (exists c qe, tr = [Ev (Connect (quinn_endpoint e) addr SERVER_NAME) (Ok c);
                         Ev (AwaitConnecting c) (Err qe)] /\ error = from qe).

Lemma connect_attempt_runs e addr tr r :
  runs (connect_attempt e addr) tr (Done r) ->
  match r with
  | Ok (c, i) =>
      exists connecting nc peer alive chan, tr = connected e addr connecting nc peer alive chan
        /\ c = mkConnection (nc_connection nc) (Some (ep_retry_config e)) alive.1
        /\ i = mkConnectionIncoming chan.2 alive.1
  | Err error => exists error', error = Transient error' /\ attempt_failed e addr tr error'
  end.
Proof.
  unfold connect_attempt. intros H.
  apply runs_bind_done in H as ([connecting|ce] & t1 & t2 & -> & H1 & H);
    apply runs_call_done in H1 as ->; cbn [map_err] in H.
  2: { run_inv. eexists. split; [done|]. left. eauto. }
  apply runs_try_done in H as [(c & t1 & t3 & -> & H1 & H)|(e' & H1 & ->)];
    apply runs_ret_done in H1 as [-> Hc]; [|done]. injection Hc as ->.
  apply runs_bind_done in H as ([nc|qe] & t1 & t4 & -> & H1 & H); apply runs_call_done in H1 as ->.
  2: { run_inv. eexists. split; [done|]. right. eauto. }
  apply runs_try_done in H as [([c i] & t1 & t5 & -> & H1 & H)|(e' & H1 & ->)]; [|by run_inv].
  apply runs_ret_done in H as [-> ->].
  apply runs_bind_done in H1 as ([c' i'] & t6 & t7 & -> & H1 & H2).
  apply runs_ret_done in H2 as [-> Hc]. injection Hc as -> ->.
  apply Connection_new_runs in H1 as (peer & alive & chan & -> & -> & ->).
  exists connecting, nc, peer, alive, chan. by rewrite !app_nil_r.
Qed.

Lemma new_connection_runs `{!BackoffLaws} e addr tr r :
  runs (new_connection e addr) tr (Done r) ->
  exists trs tr', tr = concat trs ++ tr'
    /\ Forall (fun t => exists error, attempt_failed e addr t error) trs
    /\ match r with
       | Ok (c, i) =>
           exists connecting nc peer alive chan, tr' = connected e addr connecting nc peer alive chan
             /\ c = mkConnection (nc_connection nc) (Some (ep_retry_config e)) alive.1
             /\ i = mkConnectionIncoming chan.2 alive.1
       | Err error => attempt_failed e addr tr' error
       end.
Proof.
  unfold new_connection, RetryConfig_retry. intros Hr%retry_runs.
  remember (Done r) as o eqn:Ho. revert r Ho.
  induction Hr as [t v H1|t e1 H1|t e1 H1|t1 t2 e1 o H1 _ IH|t h H1]; intros r Ho; simplify_eq.
  - exists [], t. apply connect_attempt_runs in H1. by split_and!.
  - exists [], t. apply connect_attempt_runs in H1 as (e' & H1 & H2). simplify_eq.
  - exists [], t. apply connect_attempt_runs in H1 as (e' & H1 & H2). simplify_eq. by split_and!.
  - apply connect_attempt_runs in H1 as (e' & H1 & H2). simplify_eq.
    destruct (IH r eq_refl) as (trs & tr' & -> & Hf & Hl). exists (t1 :: trs), tr'.
    cbn [concat]. rewrite app_assoc. split_and!; [done| |done]. constructor; [eauto|done].
Qed.

(** C22: a connection returned by [connect_to] is the one the last attempt established
    with the requested address; before it is returned, both listeners of the
    connection run on the channel its incoming half reads. All earlier attempts, and
    the last one when an error is returned, failed before or in the handshake. *)
Theorem connect_to_correct `{!BackoffLaws} e addr tr r :
  runs (connect_to e addr) tr (Done r) ->
  exists trs tr', tr = concat trs ++ tr'
    /\ Forall (fun t => exists error, attempt_failed e addr t error) trs
    /\ match r with
       | Ok (c, i) =>
           exists connecting nc peer alive chan, tr' = connected e addr connecting nc peer alive chan
             /\ c = mkConnection (nc_connection nc) (Some (ep_retry_config e)) alive.1
             /\ i = mkConnectionIncoming chan.2 alive.1
       | Err error => attempt_failed e addr tr' error
       end.
Proof. apply new_connection_runs. Qed.

(** ** [connect_to_any] *)

(** C23: a run of [connect_to_any] is an interleaving of one run of [new_connection] for
    each of the given addresses. It returns the connection that one of them made while the
    others had failed or were still under way; it returns none only when each of them, in
    this run, has failed. Without addresses it returns none and does nothing. *)
Theorem connect_to_any_correct e addrs tr r :
  runs (connect_to_any e addrs) tr (Done r) ->
  exists attempts,
    Forall2 (fun addr a => runs (new_connection e addr) a.1 a.2) addrs attempts
    /\ merges (map fst attempts) tr
    /\ match r with
       | Some c => exists l t l', attempts = l ++ (t, Done (Ok c)) :: l'
                     /\ Forall (fun a => behind a.2) (l ++ l')
       | None => Forall (fun a => exists error, a.2 = Done (Err error)) attempts
       end.
Proof.
  unfold connect_to_any. intros Hr. destruct addrs as [|a addrs0].
  { apply runs_ret_done in Hr as [-> ->]. exists []. by repeat constructor. }
  remember (a :: addrs0) as addrs eqn:Ea.
  apply runs_bind_done in Hr as (r' & t1 & t2 & -> & Hr & H2). apply runs_race_done in Hr as (rs & HF & Hm & Ho).
  assert (t2 = [] /\ r = match r' with Ok c => Some c | Err _ => None end) as [-> ->]
    by (destruct r'; by apply runs_ret_done in H2). clear H2. rewrite app_nil_r.
  rewrite map_map in HF. apply Forall2_fmap_l in HF. exists rs. split_and!; [done..|].
  destruct r' as [c|error].
  - destruct Ho as (l & r & Hs & Hb). apply map_eq_app in Hs as (l1 & l2 & -> & <- & Hs).
    apply map_eq_cons in Hs as ([t o] & l' & -> & Hc & <-). cbn in Hc. subst o.
    exists l1, t, l'. split; [done|]. rewrite <- map_app in Hb.
    by apply (Forall_map snd) in Hb.
  - destruct Ho as [_ Hall]. apply (Forall_map snd) in Hall. revert Hall. apply Forall_impl.
    intros [t [[c|e']|h]] Hf; [done| |done]. by exists e'.
Qed.

(** ** No panic *)

Definition panic_free {A} (p : io A) : Prop := forall tr, ~ runs p tr (Halt Faulted).

Lemma panic_free_ret {A} (a : A) : panic_free (Ret a).
Proof. by intros tr [_ [?|?]]. Qed.

Lemma panic_free_call {T} (e : ev T) : panic_free (call e).
Proof. by intros tr [[_ ?]|(x & _ & [?|?])]%runs_call. Qed.

Lemma panic_free_bind {A B} (p : io A) (f : A -> io B) :
  panic_free p -> (forall a, panic_free (f a)) -> panic_free (bind p f).
Proof.
  intros Hp Hf tr [(a & t1 & t2 & -> & H1 & H2)|(h & Hh & H1)]%runs_bind.
  - by apply (Hf a) in H2.
  - injection Hh as <-. by apply Hp in H1.
Qed.

Ltac panic_step :=
  match goal with
  | |- panic_free (bind _ _) => apply panic_free_bind; [|intros]
  | |- panic_free (call _) => apply panic_free_call
  | |- panic_free (Ret _) => apply panic_free_ret
  | |- panic_free (match ?x with _ => _ end) => destruct x
  end.

Lemma panic_free_connection_new ep cfg nc : panic_free (Connection_new ep cfg nc).
Proof.
  unfold Connection_new, ConnectionIncoming_new, start_message_listeners. repeat panic_step.
Qed.

Lemma panic_free_attempt e addr : panic_free (connect_attempt e addr).
Proof.
  unfold connect_attempt, try_bind. repeat (apply panic_free_connection_new || panic_step).
Qed.

Lemma panic_free_new_connection `{!BackoffLaws} e addr : panic_free (new_connection e addr).
Proof.
  intros tr Hr%retry_runs. remember (Halt Faulted) as o eqn:Ho.
  induction Hr as [t v H1|t e1 H1|t e1 H1|t1 t2 e1 o H1 _ IH|t h H1]; try done; auto. injection Ho as ->.
  by apply panic_free_attempt in H1.
Qed.

(** [connect_to_any] never panics: [select_ok], which panics on an empty list, is
    not called without addresses. *)
Lemma connect_to_any_no_panic `{!BackoffLaws} e addrs tr :
  ~ runs (connect_to_any e addrs) tr (Halt Faulted).
Proof.
  unfold connect_to_any. destruct addrs as [|a addrs]; [apply panic_free_ret|].
  apply panic_free_bind; [|intros []; apply panic_free_ret]. clear tr. intros tr Hr.
  destruct Hr as [(r & t1 & t2 & -> & _ & H2)|(h & Hh & rs & HF & _ & Ho)].
  { by apply panic_free_ret in H2. }
  injection Hh as <-. destruct Ho as [Ho|Ho].
  - rewrite map_map in HF. apply Forall2_length in HF. by destruct rs.
  - rewrite map_map in HF. apply Forall2_fmap_l in HF. apply list_elem_of_In, list_elem_of_fmap in Ho as ([t o] & Ho & Hin).
    destruct (Forall2_elem_r _ _ _ _ HF Hin) as (addr & _ & Hrun). cbn in Ho, Hrun. subst o.
    by apply panic_free_new_connection in Hrun.
Qed.

End EndpointFacts.
