(* ===== verification/Panics.v ===== *)
(** * Where the library can panic

    The crate's own code can panic where it indexes or slices ([utils.rs], the header in
    [wire_msg.rs]), allocates the buffer of a message, unwraps the serialized certificate,
    makes an interval timer, and in [select_ok] on no futures. The theorems: in the public
    functions and in the background tasks only the certificate and the timer do, whatever
    the environment answers. *)

From S2P Require Import Prelude Std Foreign WireTypes Errors ConfigTypes Prog ProgFacts Effects.
From S2P Require Import Wire StreamSpec WireFacts Config ConfigFacts Connection Incoming Igd Endpoint EndpointFacts.

Local Open Scope prog_scope.

Section Rules.
Context {F : Foreign} {Bc : Bincode} {Bo : Backoff} {BL : BackoffLaws}.

(** ** Rules *)

Lemma panic_free_try {A B X Y} `{From X Y} (p : io (Result A X)) (f : A -> io (Result B Y)) :
  panic_free p -> (forall a, panic_free (f a)) -> panic_free (try_bind p f).
Proof. intros Hp Hf. apply panic_free_bind; [done|]. intros [a|e]; [done|apply panic_free_ret]. Qed.

Lemma panic_free_within {A} c (p : io A) : panic_free p -> panic_free (within c p).
Proof. intros Hp tr Hr%runs_within. by apply Hp in Hr. Qed.

Lemma panic_free_loop {S B} (body : S -> io (S + B)) s :
  (forall s, panic_free (body s)) -> panic_free (loop body s).
Proof.
  intros Hb tr Hr%runs_loop. remember (Halt Faulted) as o eqn:Ho.
  induction Hr as [s s' t1 t2 o _ _ IH|s b t _|s h t H1]; [by apply IH|done|].
  injection Ho as ->. by apply Hb in H1.
Qed.

Lemma panic_free_retry {R X} c (op : io (Result R (backoff_Error X))) :
  panic_free op -> panic_free (RetryConfig_retry c op).
Proof.
  intros Hop tr Hr%retry_runs. remember (Halt Faulted) as o eqn:Ho.
  induction Hr as [t v H1|t e H1|t e H1|t1 t2 e o H1 _ IH|t h H1]; try done; auto.
  injection Ho as ->. by apply Hop in H1.
Qed.

Lemma panic_free_or_panic {A} (o : option A) a : o = Some a -> panic_free (or_panic o).
Proof. intros ->. apply panic_free_ret. Qed.

Lemma panic_free_unexpected msg : panic_free (or_panic (SerializationError_unexpected msg)).
Proof. by eapply panic_free_or_panic, unexpected_total. Qed.

End Rules.

Create HintDb panics discriminated.
#[export] Hint Resolve panic_free_new_connection panic_free_connection_new
  panic_free_unexpected : panics.

Ltac panic :=
  repeat first
    [ solve [eauto 1 with panics nocore]
    | apply panic_free_ret | apply panic_free_call | apply panic_free_try; [|intros ?]
    | apply panic_free_bind; [|intros ?] | apply panic_free_within
    | apply panic_free_loop; intros ? | apply panic_free_retry
    | match goal with |- panic_free (match ?x with _ => _ end) => destruct x end ].

Section Panics.
Context {F : Foreign} {Bc : Bincode} {Bo : Backoff} {BL : BackoffLaws}.

(** ** Connections *)

Lemma panic_free_read s : panic_free (read_from_stream s).
Proof.
  assert (forall hb, panic_free (read_data s hb)) as Hd.
  { intros hb. unfold read_data. apply panic_free_bind; [|intros ?; panic].
    eapply panic_free_or_panic, vec_zeroed_data. }
  assert (forall hb len, panic_free (read_header_rest s hb len)) as Hh.
  { intros hb len. unfold read_header_rest. destruct (Nat.ltb_spec len MSG_HEADER_LEN); [|panic].
    apply panic_free_bind; [|intros ?; panic]. by eapply panic_free_or_panic, slice_from_header. }
  unfold read_from_stream. panic.
Qed.

Lemma panic_free_write m s : panic_free (write_to_stream m s).
Proof. unfold write_to_stream. panic. Qed.

#[local] Hint Resolve panic_free_read panic_free_write : panics.

Lemma panic_free_send_uni c msg priority : panic_free (send_uni c msg priority).
Proof.
  unfold send_uni, open_uni, SendStream_set_priority, send_user_msg, SendStream_finish.
  panic.
Qed.

#[local] Hint Resolve panic_free_send_uni : panics.

Lemma panic_free_send c msg priority cfg : panic_free (send_with c msg priority cfg).
Proof. unfold send_with, send_attempt. panic. Qed.

Lemma panic_free_verification ep s a : panic_free (handle_endpoint_verification ep s a).
Proof.
  unfold handle_endpoint_verification, timeout, verify.
  panic.
Qed.

#[local] Hint Resolve panic_free_verification : panics.

(** ** Background tasks *)

(** A run of a background task in which it panics. *)
Definition task_panics (t : task) (tr : list (event ev)) : Prop :=
  match t with
  | ListenOnUniStreams _ s _ tx => runs (listen_on_uni_streams s tx) tr (Halt Faulted)
  | ListenOnBiStreams ep peer s _ tx => bi_listener ep peer s tx tr BiPanicked
  | ListenForIncomingConnections inc tx ep cfg =>
      runs (accept_connections inc tx ep cfg) tr (Halt Faulted)
  | RenewPortPeriodically port a d d32 rx =>
      runs (renew_port_periodically port a d d32 rx) tr (Halt Faulted)
  end.

Lemma panic_free_uni s tx : panic_free (listen_on_uni_streams s tx).
Proof.
  unfold listen_on_uni_streams, uni_step, uni_messages_next, uni_next_step, uni_report,
    user_msg_or_end. panic.
Qed.

Lemma panic_free_handler ep peer tx s rs : panic_free (handle_bi_stream ep peer tx s rs).
Proof.
  unfold handle_bi_stream, bi_dispatch, handle_endpoint_echo. panic.
Qed.

Lemma panic_free_accepts s tr ps : ~ accepts s tr ps (Halt Faulted).
Proof.
  intros Ha. remember (Halt Faulted) as o eqn:Ho. induction Ha as [tr tr' p ps o _ _ IH|tr _|tr e _|tr h Hr];
    [by apply IH|done|done|]. injection Ho as ->. revert Hr. unfold bi_streams_next.
  assert (panic_free (let* next := call (NextBi s) in
    Ret (filter_benign_close next : option (Result (q_SendStream * q_RecvStream) ConnectionError)))) as Hp by panic.
  apply Hp.
Qed.

Lemma panic_free_bi ep peer s tx tr : ~ bi_listener ep peer s tx tr BiPanicked.
Proof.
  intros (tr0 & ps & o & hs & Ha & Hh & _ & [->|He]); [by apply panic_free_accepts in Ha|].
  apply list.Exists_exists in He as (h & Hin & Hf).
  destruct (Forall2_elem_r _ _ _ _ Hh Hin) as (p & _ & Hr). rewrite Hf in Hr.
  by apply panic_free_handler in Hr.
Qed.

Lemma panic_free_renew port a d d32 rx tr :
  runs (renew_port_periodically port a d d32 rx) tr (Halt Faulted) -> Duration_zero d = true.
Proof.
  unfold renew_port_periodically. destruct (Duration_zero d); [done|]. intros Hr. exfalso. revert Hr.
  match goal with |- runs ?p _ _ -> _ => assert (panic_free p) as Hp; [|apply Hp] end.
  unfold renew_step, renew_port. panic.
Qed.

(** C31: no background task panics, whatever its environment answers, but the renewal of a
    port mapping with a lease of zero length. The listeners' slices, buffers and error texts
    stay in bounds for any bytes a peer sends. *)
Theorem tasks_panic_only_on_zero_lease t tr :
  task_panics t tr ->
  exists port a d d32 rx, t = RenewPortPeriodically port a d d32 rx /\ Duration_zero d = true.
Proof.
  destruct t as [peer s alive tx|ep peer s alive tx|inc tx ep cfg|port a d d32 rx]; cbn [task_panics].
  - by intros ?%panic_free_uni.
  - by intros ?%panic_free_bi.
  - intros Hr. exfalso. revert Hr. unfold accept_connections.
    match goal with |- runs ?p _ _ -> _ => assert (panic_free p) as Hp; [|apply Hp] end.
    unfold accept_step. panic.
  - intros Hr%panic_free_renew. eauto 8.
Qed.

(** ** Endpoints *)

(** A panic while the configuration is processed: the certificate that was generated
    could not be serialized. *)
Definition certificate_broken (tr : list (event ev)) : Prop :=
  exists c e, tr = [Ev (GenerateSimpleSelfSigned [SERVER_NAME]) (Ok c)] /\ serialize_der c = Err e.

Lemma faulted_bind {A B} (p : io A) (f : A -> io B) tr :
  runs (bind p f) tr (Halt Faulted) ->
  runs p tr (Halt Faulted)
  \/ exists a t1 t2, tr = t1 ++ t2 /\ runs p t1 (Done a) /\ runs (f a) t2 (Halt Faulted).
Proof.
  intros [(a & t1 & t2 & -> & H1 & H2)|(h & Hh & H1)]%runs_bind; [right; eauto 6|].
  injection Hh as <-. by left.
Qed.

Lemma generate_cert_panics tr : runs generate_cert tr (Halt Faulted) -> certificate_broken tr.
Proof.
  unfold generate_cert, try_bind.
  intros [Hc|([c|e] & t1 & t2 & -> & ->%runs_call_done & H)]%faulted_bind;
    [by apply panic_free_call in Hc| |by apply panic_free_ret in H].
  destruct (serialize_der c) as [der|e] eqn:Ed; [by apply panic_free_ret in H|].
  destruct H as [-> _]. by exists c, e.
Qed.

Lemma try_from_config_panics config tr :
  runs (try_from_config config) tr (Halt Faulted) -> certificate_broken tr.
Proof.
  unfold try_from_config, try_bind.
  intros [H|([d|e] & t1 & t2 & -> & [-> _]%runs_ret_done & H)]%faulted_bind;
    [by apply panic_free_ret in H| |by apply panic_free_ret in H].
  apply faulted_bind in H as [H|([i|e] & t1 & t3 & -> & [-> _]%runs_ret_done & H)];
    [by apply panic_free_ret in H| |by apply panic_free_ret in H].
  apply faulted_bind in H as [H|([[cert key]|e] & t1 & t4 & -> & _ & H)];
    [by apply generate_cert_panics| |by apply panic_free_ret in H].
  exfalso. revert H.
  match goal with |- runs ?p _ _ -> _ => assert (panic_free p) as Hp; [|apply Hp] end. panic.
Qed.

#[local] Hint Resolve connect_to_any_no_panic : panics.

Lemma panic_free_connect_to_any e addrs : panic_free (connect_to_any e addrs).
Proof. intros tr. apply connect_to_any_no_panic. Qed.

#[local] Hint Resolve panic_free_connect_to_any : panics.

Lemma new_peer_panics la contacts config tr :
  runs (new_peer la contacts config) tr (Halt Faulted) -> certificate_broken tr.
Proof.
  unfold new_peer. unfold try_bind at 1.
  intros [H|([ic|e] & t1 & t2 & -> & _ & H)]%faulted_bind;
    [by apply try_from_config_panics in H| |by apply panic_free_ret in H].
  exfalso. revert H.
  match goal with |- runs ?p _ _ -> _ => assert (panic_free p) as Hp; [|apply Hp] end.
  unfold resolve_public_addr, visible_addr, forward_if_configured, igd_forward_port, add_port,
    listen_for_incoming_connections, check_reachable, endpoint_echo, endpoint_verification, open_bi,
    send_wire_msg, next_wire_msg, remote_address, timeout. panic.
Qed.

Lemma new_client_panics la config tr :
  runs (new_client la config) tr (Halt Faulted) -> certificate_broken tr.
Proof.
  unfold new_client. unfold try_bind at 1.
  intros [H|([ic|e] & t1 & t2 & -> & _ & H)]%faulted_bind;
    [by apply try_from_config_panics in H| |by apply panic_free_ret in H].
  exfalso. revert H.
  match goal with |- runs ?p _ _ -> _ => assert (panic_free p) as Hp; [|apply Hp] end. panic.
Qed.

(** The public functions of the crate, with their arguments. *)
Inductive api : Type -> Type :=
| Api_new_peer (local_addr : SocketAddr) (contacts : list SocketAddr) (config : Config) :
    api (Result (Endpoint * IncomingConnections * option (Connection * ConnectionIncoming)) EndpointError)
| Api_new_client (local_addr : SocketAddr) (config : Config) :
    api (Result Endpoint ClientEndpointError)
| Api_connect_to (e : Endpoint) (addr : SocketAddr) :
    api (Result (Connection * ConnectionIncoming) ConnectionError)
| Api_connect_to_any (e : Endpoint) (addrs : list SocketAddr) :
    api (option (Connection * ConnectionIncoming))
| Api_is_reachable (e : Endpoint) (addr : SocketAddr) : api (Result unit RpcError)
| Api_endpoint_close (e : Endpoint) : api unit
| Api_connections_next (i : IncomingConnections) : api (option (Connection * ConnectionIncoming))
| Api_connections_try_recv (i : IncomingConnections) :
    api (Result (Connection * ConnectionIncoming) mpsc_TryRecvError)
| Api_id (c : Connection) : api Z
| Api_remote_address (c : Connection) : api SocketAddr
| Api_connection_debug (c : Connection) : api string
| Api_send (c : Connection) (msg : Bytes) : api (Result unit SendError)
| Api_send_with (c : Connection) (msg : Bytes) (priority : Z) (cfg : option RetryConfig) :
    api (Result unit SendError)
| Api_open_uni (c : Connection) : api (Result SendStream ConnectionError)
| Api_open_bi (c : Connection) : api (Result (SendStream * RecvStream) ConnectionError)
| Api_connection_close (c : Connection) (reason : option string) : api unit
| Api_set_priority (s : SendStream) (priority : Z) : api unit
| Api_send_user_msg (s : SendStream) (msg : Bytes) : api (Result unit SendError)
| Api_finish (s : SendStream) : api (Result unit SendError)
| Api_stream_next (s : RecvStream) : api (Result Bytes RecvError)
| Api_next (i : ConnectionIncoming) : api (Result (option Bytes) RecvError)
| Api_next_with_stream (i : ConnectionIncoming) :
    api (Result (option (Bytes * option SendStream)) RecvError).

Definition api_run {A} (c : api A) : io A :=
  match c with
  | Api_new_peer la contacts config => new_peer la contacts config
  | Api_new_client la config => new_client la config
  | Api_connect_to e addr => connect_to e addr
  | Api_connect_to_any e addrs => connect_to_any e addrs
  | Api_is_reachable e addr => is_reachable e addr
  | Api_endpoint_close e => Endpoint_close e
  | Api_connections_next i => IncomingConnections_next i
  | Api_connections_try_recv i => IncomingConnections_try_recv i
  | Api_id c => Connection_id c
  | Api_remote_address c => remote_address c
  | Api_connection_debug c => Connection_debug c
  | Api_send c msg => send c msg
  | Api_send_with c msg priority cfg => send_with c msg priority cfg
  | Api_open_uni c => open_uni c
  | Api_open_bi c => open_bi c
  | Api_connection_close c reason => Connection_close c reason
  | Api_set_priority s priority => SendStream_set_priority s priority
  | Api_send_user_msg s msg => send_user_msg s msg
  | Api_finish s => SendStream_finish s
  | Api_stream_next s => RecvStream_next s
  | Api_next i => ConnectionIncoming_next i
  | Api_next_with_stream i => next_with_stream i
  end.

Definition makes_endpoint {A} (c : api A) : bool :=
  match c with Api_new_peer _ _ _ | Api_new_client _ _ => true | _ => false end.

Lemma panic_free_api {A} (c : api A) : makes_endpoint c = false -> panic_free (api_run c).
Proof.
  intros Hc. destruct c; try done; cbn [api_run];
    unfold connect_to, is_reachable, Endpoint_close, IncomingConnections_next,
      IncomingConnections_try_recv, Connection_id, remote_address, Connection_debug, send, open_uni,
      open_bi, Connection_close, SendStream_set_priority, send_user_msg, SendStream_finish,
      RecvStream_next, next_wire_msg, ConnectionIncoming_next, next_with_stream, send_wire_msg, timeout;
    try apply panic_free_send; panic.
Qed.

(** C32: every public function of the crate that makes calls, with any arguments, panics
    in no environment, with one exception: making an endpoint can panic, but only when the
    certificate that rcgen generated for it cannot be serialized. *)
Theorem api_panics_only_on_broken_certificate A (c : api A) :
  if makes_endpoint c then forall tr, runs (api_run c) tr (Halt Faulted) -> certificate_broken tr
  else panic_free (api_run c).
Proof.
  destruct (makes_endpoint c) eqn:Hc; [|by apply panic_free_api].
  destruct c; try done; intros tr; [apply new_peer_panics|apply new_client_panics].
Qed.

End Panics.

#[export] Hint Resolve panic_free_read panic_free_write panic_free_send_uni panic_free_send
  panic_free_verification panic_free_connect_to_any : panics.
