(* ===== verification/Rpc.v ===== *)
(** * The echo and verification RPCs, end to end

    [rpc_done] is the shape of every run of the three client sides. The theorems
    join a client's run to the run of the peer's handler: the client reads the bytes
    the handler wrote. *)

From Stdlib Require Import Strings.Byte.
From S2P Require Import Prelude Std Foreign WireTypes Errors ConfigTypes Prog ProgFacts Effects.
From S2P Require Import Wire StreamSpec WireFacts Framing Config Connection Incoming.
From S2P Require Import UniListener Verification BiListener Igd Endpoint EndpointFacts.

Local Open Scope prog_scope.

Section Rpc.
Context {F : Foreign} {Bc : Bincode} {Bo : Backoff}.

(** ** The client side *)

(** A request [m] was sent on the new stream [(s, rs)]. *)
Definition asked (c : Connection) (m : WireMsg) s rs (tr : list (event ev)) : Prop :=
  exists tw, tr = Ev (OpenBi (conn_inner c)) (Ok (s, rs)) :: tw
    /\ runs (write_to_stream m s) tw (Done (Ok tt)).

(** The request could not be sent. *)
Definition not_asked (c : Connection) (m : WireMsg) (tr : list (event ev)) (e : RpcError) : Prop :=
  (exists qe, tr = [Ev (OpenBi (conn_inner c)) (Err qe)] /\ e = from (from qe : ConnectionError))
  \/ (exists s rs tw se, tr = Ev (OpenBi (conn_inner c)) (Ok (s, rs)) :: tw
        /\ runs (write_to_stream m s) tw (Done (Err se)) /\ e = from se).

Section Client.
Context {A : Type} (contact : Connection) (m : WireMsg).
Context (f : option WireMsg -> io (Result A RpcError)) (g : option WireMsg -> Result A RpcError).
Context (Hf : forall msg, f msg = Ret (g msg)).

Lemma rpc_done tr r :
  runs (let? (send, recv) := open_bi contact in
        let? _ := send_wire_msg send m in
        let? r := timeout ECHO_SERVICE_QUERY_TIMEOUT (next_wire_msg recv) in
        let? msg := Ret r in f msg) tr (Done r) ->
  (exists e, not_asked contact m tr e /\ r = Err e)
  \/ exists s rs t1 t2, tr = t1 ++ t2 /\ asked contact m s rs t1 /\
     ((runs (read_from_stream rs) t2 (Halt Running) /\ r = Err RpcError_TimedOut)
      \/ (exists e, runs (read_from_stream rs) t2 (Done (Err e)) /\ r = Err (RpcError_Recv e))
      \/ (exists msg, runs (read_from_stream rs) t2 (Done (Ok msg)) /\ r = g msg)).
Proof.
  intros H. apply runs_try_done in H as [([send recv] & t1 & t2 & -> & H1 & H)|(e & H1 & ->)].
  2: { left. eexists. split; [|done]. left.
       unfold open_bi in H1. apply runs_try_done in H1 as [([s rs] & t1 & t2 & -> & H1 & H2)|(qe & H1 & He)].
       - by apply runs_ret_done in H2 as [_ ?].
       - apply runs_call_done in H1 as ->. simplify_eq. eauto. }
  unfold open_bi in H1. apply runs_try_done in H1 as [([s rs] & t3 & t4 & -> & H1 & H2)|(qe & H1 & He)]; [|done].
  apply runs_call_done in H1 as ->. apply runs_ret_done in H2 as [-> Hsr]. injection Hsr as -> ->.
  apply runs_try_done in H as [([] & tw & t5 & -> & H1 & H)|(e & H1 & ->)].
  2: { left. eexists. split; [|done]. right. by exists s, rs, t2, e. }
  right. exists s, rs, (Ev (OpenBi (conn_inner contact)) (Ok (s, rs)) :: tw), t5.
  split; [done|]. split; [by exists tw|].
  apply runs_try_done in H as [(r' & t6 & t7 & -> & H2 & H)|(e & H2 & ->)].
  - unfold timeout in H2. apply runs_bind_done in H2 as (w & t8 & t9 & -> & H2 & H3).
    apply runs_ret_done in H3 as [-> Hw]. apply runs_within_done in H2.
    destruct w as [w|]; [|done]. injection Hw as ->. rewrite app_nil_r in *.
    apply runs_try_done in H as [(msg & t9 & t10 & -> & H3 & H)|(e & H3 & ->)];
      apply runs_ret_done in H3 as [-> <-].
    + rewrite Hf in H. apply runs_ret_done in H as [-> ->]. rewrite app_nil_r. right. right. eauto.
    + rewrite app_nil_r. right. left. eauto.
  - unfold timeout in H2. apply runs_bind_done in H2 as (w & t8 & t9 & -> & H2 & H3).
    apply runs_ret_done in H3 as [-> Hw]. apply runs_within_done in H2.
    destruct w as [w|]; [done|]. rewrite app_nil_r. by left.
Qed.

End Client.

(** ** Client and server together *)

(** The stream the client reads from starts with the bytes [bs]. *)
Definition receives (c : Connection) (bs : Bytes) (n : q_RecvStream -> stream) (tr : list (event ev)) : Prop :=
  forall s rs, Ev (OpenBi (conn_inner c)) (Ok (s, rs)) ∈ tr ->
    exists rest, content (n rs) = bs ++ rest.

Definition not_a_read (v : event ev) : Prop :=
  match v with
  | Ev e x => match e with Read _ _ | ReadExact _ _ => False | _ => True end
  end.

Lemma write_conforms m s tr o n n' :
  runs (write_to_stream m s) tr o -> conforms n tr n' -> unchanged n n'.
Proof.
  intros Hr. assert (Forall not_a_read tr) as Ht.
  { revert tr o Hr. change (only not_a_read (write_to_stream m s)).
    unfold write_to_stream. repeat (only_step || done). }
  clear Hr. revert n. induction Ht as [|[T e x] tr He _ IH]; intros n Hc; [done|].
  destruct Hc as (n1 & Hv & Hc). transitivity n1; [|by apply IH]. by destruct e.
Qed.

(** A client that was answered with the frame of [reply] reads [reply]. *)
Lemma rpc_answered `{!BincodeLaws} contact m s rs t1 t2 msg reply bs n n' :
  asked contact m s rs t1 -> runs (read_from_stream rs) t2 (Done msg) ->
  conforms n (t1 ++ t2) n' -> receives contact bs n (t1 ++ t2) ->
  frame reply = Some bs -> reply <> UserMsg [] -> msg = Ok (Some reply).
Proof.
  intros (tw & -> & Hw) Hr Hc Hb Hfr Hne.
  destruct (Hb s rs) as [rest Hrest]; [by left|].
  apply conforms_app in Hc as (n1 & (n0 & Hu & Hc1) & Hc2).
  pose proof (write_conforms _ _ _ _ _ _ Hw Hc1) as Hu1.
  destruct (read_decodes _ _ _ _ _ Hr Hc2) as [Hd _].
  rewrite (Hu1 rs), (Hu rs) in Hd. destruct (n rs) as [c e]. cbn in Hrest. subst c.
  rewrite (decode_of_frame reply) in Hd by done. by simplify_eq.
Qed.

Section EndToEnd.
Context `{!EqDecision q_SendStream, !BincodeLaws}.

(** C19: when the stream of an echo request carries what the peer's handler wrote, the
    client's [endpoint_echo] returns the address the handler was given, unless it
    runs out of time or cannot send; it never returns another address. *)
Theorem echo_rpc contact tr r n n' s' peer trs :
  runs (handle_endpoint_echo s' peer) trs (Done (Ok tt)) ->
  runs (endpoint_echo contact) tr (Done r) -> conforms n tr n' ->
  receives contact (written s' trs) n tr ->
  r = Ok peer \/ r = Err RpcError_TimedOut \/ exists e, r = Err (RpcError_Send e).
Proof.
  intros Hs Hr Hc Hb. apply write_ok_frame in Hs as (bs & Hfr & Hwr). rewrite Hwr in Hb.
  apply (rpc_done contact EndpointEchoReq _ (fun msg => match msg with
    | Some (EndpointEchoResp addr) => Ok addr
    | msg => Err (from (RecvError_Serialization (unexpected_error msg))) end))
    in Hr; [|by intros [[]|]; rewrite ?unexpected_total].
  destruct Hr as [(e & Hn & ->)|(s & rs & t1 & t2 & -> & Ha & [[H1 ->]|[(e & H1 & ->)|(msg & H1 & ->)]])].
  - right. right. destruct Hn as [(qe & _ & ->)|(s & rs & tw & se & _ & _ & ->)]; eauto.
  - auto.
  - pose proof (rpc_answered _ _ _ _ _ _ _ _ _ _ _ Ha H1 Hc Hb Hfr) as Hm.
    by specialize (Hm ltac:(done)).
  - pose proof (rpc_answered _ _ _ _ _ _ _ _ _ _ _ Ha H1 Hc Hb Hfr) as Hm.
    specialize (Hm ltac:(done)). simplify_eq. by left.
Qed.

(** C18: the verdict a client's [endpoint_verification] returns is the one the peer's
    handler wrote after its check: [true] only when the handler connected back to the
    address and got an echo, [false] only when the check returned an error or, begun, had
    not returned within the time limit. *)
Theorem verification_rpc contact addr tr b n n' endpoint s' rs' trs :
  runs (handle_endpoint_verification endpoint s' addr) trs (Done (Ok tt)) ->
  runs (endpoint_verification contact addr) tr (Done (Ok b)) -> conforms n tr n' ->
  Forall (event_fresh s' rs') trs -> receives contact (written s' trs) n tr ->
  exists tr1 tr2, trs = tr1 ++ tr2 /\ verdict endpoint addr tr1 b
    /\ runs (write_to_stream (EndpointVerificationResp b) s') tr2 (Done (Ok tt)).
Proof.
  intros Hs Hr Hc Hf Hb. apply verification_shape in Hs as (tr1 & tr2 & v & o & -> & Ho & Hv & Hs).
  apply Forall_app in Hf as [Hf _]. destruct (verify_elsewhere _ _ _ _ _ _ Ho Hf) as [He _].
  rewrite written_app, (elsewhere_written _ _ _ He) in Hb. cbn [app] in Hb.
  exists tr1, tr2. split; [done|]. pose proof Hs as Hs'. apply write_ok_frame in Hs as (bs & Hfr & Hwr). rewrite Hwr in Hb.
  apply (rpc_done contact (EndpointVerificationReq addr) _ (fun msg => match msg with
    | Some (EndpointVerificationResp valid) => Ok valid
    | msg => Err (from (RecvError_Serialization (unexpected_error msg))) end))
    in Hr; [|by intros [[]|]; rewrite ?unexpected_total].
  destruct Hr as [(e & _ & ?)|(s & rs & t1 & t2 & -> & Ha & [[H1 ?]|[(e & H1 & ?)|(msg & H1 & Hg)]])]; [done..|].
  pose proof (rpc_answered _ _ _ _ _ _ _ _ _ _ _ Ha H1 Hc Hb Hfr) as Hm.
  specialize (Hm ltac:(done)). simplify_eq/=. done.
Qed.

End EndToEnd.

(** ** [is_reachable] *)

(** C38: [is_reachable] accepts any answer: once the peer was connected and asked, an
    unexpected message and the end of the stream without an answer are successes as
    much as an echo response. *)
Theorem is_reachable_any_answer e addr t1 t2 t3 c i s rs msg :
  runs (new_connection e addr) t1 (Done (Ok (c, i))) ->
  asked c EndpointEchoReq s rs t2 ->
  runs (read_from_stream rs) t3 (Done (Ok msg)) ->
  runs (is_reachable e addr) (t1 ++ t2 ++ t3) (Done (Ok tt)).
Proof.
  intros H1 (tw & -> & H2) H3. unfold is_reachable.
  apply runs_try_done. left. eexists (c, i), t1, _. split_and!; [done..|].
  apply runs_try_done. left. exists (mkSendStream s, mkRecvStream rs), [Ev (OpenBi (conn_inner c)) (Ok (s, rs))], (tw ++ t3).
  split_and!; [done| |].
  { unfold open_bi. apply runs_try_done. left. exists (s, rs). eexists [_], [].
    split_and!; [done|by apply runs_call_done|by apply runs_ret_done]. }
  apply runs_try_done. left. exists tt, tw, t3. split_and!; [done..|].
  apply runs_try_done. left. exists (Ok msg), t3, []. rewrite app_nil_r. split_and!; [done| |].
  { unfold timeout. apply runs_bind_done. exists (Some (Ok msg)), t3, []. rewrite app_nil_r.
    split_and!; [done|by apply runs_within_iff|by apply runs_ret_done]. }
  apply runs_try_done. left. exists msg, [], []. split_and!; [done|by apply runs_ret_done|].
  destruct msg as [[]|]; by apply runs_ret_done.
Qed.

End Rpc.
