(* ===== verification/NewPeer.v ===== *)
(** * Bringing up an endpoint, and accepting connections

    [started] is what a successful [new_peer] has done, in order: its contact was
    asked for our address, the port was forwarded if configured, the endpoint was
    accepting connections, and only then the contact verified the public address. *)

From Stdlib Require Import Strings.Byte.
From S2P Require Import Prelude Std Foreign WireTypes Errors ConfigTypes Prog ProgFacts Effects.
From S2P Require Import Wire Config ConfigFacts Connection Igd Endpoint EndpointFacts.

Local Open Scope prog_scope.

Section NewPeer.
Context {F : Foreign} {Bc : Bincode} {Bo : Backoff}.

(** ** Bringing up a peer *)

(** The conversation that found the address the contact sees. *)
Definition seen_by (contact : option Connection) (visible : option SocketAddr)
    (tr : list (event ev)) : Prop :=
  match contact with
  | None => visible = None /\ tr = []
  | Some c => exists addr, visible = Some addr /\ runs (endpoint_echo c) tr (Done (Ok addr))
  end.

Lemma visible_addr_runs contact tr visible :
  runs (visible_addr contact) tr (Done (Ok visible)) -> seen_by contact visible tr.
Proof.
  destruct contact as [c|]; cbn [visible_addr seen_by]; intros H.
  - apply runs_bind_done in H as ([a|e] & t1 & t2 & -> & H1 & H).
    + apply runs_ret_done in H as [-> ?]. simplify_eq. rewrite app_nil_r. eauto.
    + run_inv.
  - apply runs_ret_done in H as [-> ?]. by simplify_eq.
Qed.

Lemma resolve_runs e ip port contact tr a e' :
  runs (resolve_public_addr e ip port contact) tr (Done (Ok (a, e'))) ->
  exists visible, seen_by contact visible tr
    /\ a = choose_public_addr (ep_local_addr e) ip port visible /\ e' = set_public_addr e a.
Proof.
  unfold resolve_public_addr. intros H.
  apply runs_try_done in H as [(v & t1 & t2 & -> & H1 & H)|(x & H1 & He)]; [|done].
  apply runs_ret_done in H as [-> H]. injection H as -> ->. rewrite app_nil_r.
  apply visible_addr_runs in H1. eauto.
Qed.

(** The port was forwarded, if that is configured. *)
Definition forwarded (config : Config) (public local : SocketAddr) (tr : list (event ev)) : Prop :=
  if forward_port config then
    exists rx, runs (igd_forward_port (sa_port public) local (effective_lease config) rx) tr (Done (Ok tt))
  else tr = [].

Lemma forward_runs config cert key ic public local rx tr :
  configures config cert key ic ->
  runs (forward_if_configured ic public local rx) tr (Done (Ok tt)) ->
  forwarded config public local tr.
Proof.
  intros (idle & roots & server & _ & _ & _ & ->). unfold forward_if_configured, forwarded.
  cbn [ic_forward_port ic_upnp_lease_duration]. destruct (forward_port config); intros H.
  - exists rx. unfold timeout in H. apply runs_bind_done in H as (r & t1 & t2 & -> & H1 & H).
    apply runs_bind_done in H1 as (w & t3 & t4 & -> & H1 & H2). apply runs_ret_done in H2 as [-> ->].
    apply runs_within_done in H1. destruct w as [[[]|e]|]; cbn [map_err] in H; [|by run_inv..].
    run_inv. by rewrite ?app_nil_r.
  - by apply runs_ret_done in H as [-> _].
Qed.

(** The contact, if there is one, verified the address. *)
Definition verified_by (contact : option Connection) (public : SocketAddr) (tr : list (event ev)) :
    Prop :=
  match contact with
  | None => tr = []
  | Some c => runs (endpoint_verification c public) tr (Done (Ok true))
  end.

Lemma check_runs contact public tr r :
  runs (check_reachable contact public) tr (Done r) ->
  match r with
  | Ok _ => verified_by (option_map fst contact) public tr
  | Err (EndpointError_EndpointVerification peer error) =>
      exists c i t, contact = Some (c, i)
        /\ runs (endpoint_verification c public) t (Done (Err error))
        /\ tr = t ++ [Ev (RemoteAddress (conn_inner c)) peer]
  | Err e =>
      exists c i, e = EndpointError_Unreachable public /\ contact = Some (c, i)
        /\ runs (endpoint_verification c public) tr (Done (Ok false))
  end.
Proof.
  destruct contact as [[c i]|]; cbn [check_reachable option_map fst verified_by]; intros H.
  - apply runs_bind_done in H as ([[]|e] & t1 & t2 & -> & H1 & H); cbn [negb] in H.
    + apply runs_ret_done in H as [-> ->]. by rewrite app_nil_r.
    + apply runs_ret_done in H as [-> ->]. rewrite app_nil_r. by exists c, i.
    + apply runs_bind_done in H as (peer & t3 & t4 & -> & H2 & H). apply runs_call_done in H2 as ->.
      apply runs_ret_done in H as [-> ->]. by exists c, i, t1.
  - by apply runs_ret_done in H as [-> ->].
Qed.

(** What an endpoint does for itself while it is brought up. *)
Definition bring_up (v : event ev) : Prop :=
  match v with
  | Ev e _ =>
      match e with
      | GenerateSimpleSelfSigned _ | NewTerminationChannel _ | EndpointServer _ _
      | EndpointLocalAddr _ | SetDefaultClientConfig _ _ => True
      | _ => False
      end
  end.

(** A peer that was brought up. *)
Definition started (contacts : list SocketAddr) (config : Config) (ep : Endpoint)
    (inc : IncomingConnections) (contact : option Connection) (tr : list (event ev)) : Prop :=
  exists t0 te tf tv visible quinn_incoming tx,
    tr = t0 ++ te ++ tf
         ++ [Ev (NewConnectionChannel STANDARD_CHANNEL_SIZE) (tx, ic_rx inc);
             Ev (Spawn (ListenForIncomingConnections quinn_incoming tx (quinn_endpoint ep)
                          (ep_retry_config ep))) tt]
         ++ tv
    /\ Ev (EndpointLocalAddr (quinn_endpoint ep)) (Ok (local_addr ep)) ∈ t0
    /\ seen_by contact visible te
    /\ ep_public_addr ep =
         Some (choose_public_addr (local_addr ep) (external_ip config) (external_port config) visible)
    /\ forwarded config (public_addr ep) (local_addr ep) tf
    /\ verified_by contact (public_addr ep) tv
    /\ ep_retry_config ep = retry_config config
    /\ (contacts = [] -> contact = None /\ Forall bring_up t0).

Lemma new_peer_started la contacts config tr ep inc contact :
  runs (new_peer la contacts config) tr (Done (Ok (ep, inc, contact))) ->
  started contacts config ep inc (option_map fst contact) tr.
Proof.
  unfold new_peer. intros H.
  apply runs_try_done in H as [(ic & t1 & t2 & -> & Hcfg & H)|(x & H1 & He)]; [|done].
  apply try_from_config_runs in Hcfg as (crt & cert & -> & _ & Hcfg).
  apply runs_bind_done in H as ([ttx trx] & t3 & t4 & -> & H1 & H). apply runs_call_done in H1 as ->.
  apply runs_try_done in H as [([qe qi] & t5 & t6 & -> & H1 & H)|(x & H1 & He)]; [|done].
  apply runs_call_done in H1 as ->.
  apply runs_try_done in H as [(local & t7 & t8 & -> & H1 & H)|(x & H1 & He)]; [|done].
  apply runs_call_done in H1 as ->.
  apply runs_bind_done in H as ([] & t9 & t10 & -> & H1 & H). apply runs_call_done in H1 as ->.
  apply runs_bind_done in H as (contact' & tc & t11 & -> & Hany & H).
  apply runs_try_done in H as [([a e'] & te & t12 & -> & H1 & H)|(x & H1 & He)]; [|done].
  apply resolve_runs in H1 as (visible & Hseen & Ha & ->). cbn [ep_local_addr set_public_addr] in *.
  apply runs_try_done in H as [([] & tf & t13 & -> & H1 & H)|(x & H1 & He)]; [|done].
  apply (forward_runs _ _ _ _ _ _ _ _ Hcfg) in H1.
  apply runs_bind_done in H as ([ctx crx] & t14 & t15 & -> & H2 & H). apply runs_call_done in H2 as ->.
  apply runs_bind_done in H as ([] & t16 & t17 & -> & H2 & H). apply runs_call_done in H2 as ->.
  apply runs_try_done in H as [([] & tv & t18 & -> & H2 & H)|(x & H2 & He)]; [|done].
  apply check_runs in H2. apply runs_ret_done in H as [-> H]. injection H as -> -> ->.
  rewrite app_nil_r. destruct Hcfg as (idle & roots & server & _ & _ & _ & ->).
  unfold started. cbn [ic_rx ep_public_addr quinn_endpoint ep_retry_config local_addr public_addr
    unwrap_or ep_local_addr ic_retry_config ic_external_ip ic_external_port set_public_addr] in *.
  eexists ([_] ++ [_] ++ [_] ++ [_] ++ [_] ++ tc), te, tf, tv, visible, qi, ctx.
  split_and!; [by rewrite <- !app_assoc|set_solver|done|by rewrite Ha|done..|].
  intros ->. cbn in Hany. destruct Hany as [-> Hany]. destruct Hany; simplify_eq.
  split; [done|by repeat constructor].
Qed.

(** C16: the steps of a successful [new_peer] in their order: the public address is
    chosen from the configuration, what the contact sees and the local address; the
    port of that address is forwarded if configured; the endpoint accepts incoming
    connections before the contact verifies the address; and with a contact the
    endpoint is returned only after the contact confirmed the public address. *)
Theorem new_peer_ok la contacts config tr ep inc contact :
  runs (new_peer la contacts config) tr (Done (Ok (ep, inc, contact))) ->
  started contacts config ep inc (option_map fst contact) tr.
Proof. apply new_peer_started. Qed.

(** ** The errors of [new_peer] *)

Definition ends_with (tr : list (event ev)) (P : list (event ev) -> Prop) : Prop :=
  exists t0 t, tr = t0 ++ t /\ P t.

Lemma ends_with_app t1 t2 P : ends_with t2 P -> ends_with (t1 ++ t2) P.
Proof. intros (t0 & t & -> & HP). exists (t1 ++ t0), t. by rewrite app_assoc. Qed.

(** Where an error of [new_peer] comes from. *)
Definition error_origin (config : Config) (tr : list (event ev)) (e : EndpointError) : Prop :=
  match e with
  | EndpointError_Config _ | EndpointError_IoError _ => True
  | EndpointError_Socket _ => False
  | EndpointError_Upnp _ => forward_port config = true
  | EndpointError_EndpointEcho peer error =>
      exists c, ends_with tr (fun t => exists t', t = t' ++ [Ev (RemoteAddress (conn_inner c)) peer]
        /\ runs (endpoint_echo c) t' (Done (Err error)))
  | EndpointError_EndpointVerification peer error =>
      exists c public, ends_with tr (fun t => exists t',
        t = t' ++ [Ev (RemoteAddress (conn_inner c)) peer]
        /\ runs (endpoint_verification c public) t' (Done (Err error)))
  | EndpointError_Unreachable public =>
      exists c, ends_with tr (fun t => runs (endpoint_verification c public) t (Done (Ok false)))
  end.

Lemma error_origin_app config t1 t2 e :
  error_origin config t2 e -> error_origin config (t1 ++ t2) e.
Proof.
  destruct e; cbn; try done.
  - intros [c H]. exists c. by apply ends_with_app.
  - intros (c & public & H). exists c, public. by apply ends_with_app.
  - intros [c H]. exists c. by apply ends_with_app.
Qed.

Lemma resolve_error e ip port contact config tr error :
  runs (resolve_public_addr e ip port contact) tr (Done (Err error)) ->
  error_origin config tr error.
Proof.
  unfold resolve_public_addr. intros H.
  apply runs_try_done in H as [(v & t1 & t2 & -> & H1 & H)|(x & H1 & He)];
    [by apply runs_ret_done in H as [_ ?]|]. injection He as ->.
  destruct contact as [c|]; cbn [visible_addr] in H1; [|by apply runs_ret_done in H1 as [_ ?]].
  apply runs_bind_done in H1 as ([a|e'] & t1 & t2 & -> & H1 & H); [by apply runs_ret_done in H as [_ ?]|].
  apply runs_bind_done in H as (peer & t3 & t4 & -> & H2 & H). apply runs_call_done in H2 as ->.
  apply runs_ret_done in H as [-> H]. injection H as ->.
  exists c, [], (t1 ++ [Ev (RemoteAddress (conn_inner c)) peer]). split; [done|]. by exists t1.
Qed.

Lemma forward_error config cert key ic public local rx tr error :
  configures config cert key ic ->
  runs (forward_if_configured ic public local rx) tr (Done (Err error)) ->
  error_origin config tr error.
Proof.
  intros (idle & roots & server & _ & _ & _ & ->). unfold forward_if_configured.
  cbn [ic_forward_port]. destruct (forward_port config) eqn:Ef; intros H.
  - apply runs_bind_done in H as (r & t1 & t2 & -> & _ & H).
    apply runs_try_done in H as [(r' & t3 & t4 & -> & _ & H)|(x & _ & He)].
    + apply runs_try_done in H as [([] & t5 & t6 & -> & _ & H)|(x & _ & He)];
        [by apply runs_ret_done in H as [_ ?]|]. injection He as ->. done.
    + injection He as ->. done.
  - by apply runs_ret_done in H as [_ ?].
Qed.

Lemma check_error contact public config tr error :
  runs (check_reachable contact public) tr (Done (Err error)) -> error_origin config tr error.
Proof.
  intros H%check_runs. destruct error; try (by destruct H as (c & i & ? & _)).
  - destruct H as (c & i & t & _ & H & ->). exists c, public. exists [].
    eexists. split; [done|]. by exists t.
  - destruct H as (c & i & He & _ & H). injection He as ->. exists c, [], tr. by split.
Qed.

(** C28: the errors of [new_peer]: [Unreachable] is reported only when the contact
    answered that it could not reach the address, the two RPC errors only when that
    RPC with a contact failed, [Upnp] only when port forwarding is configured; and
    [Socket] is never reported. *)
Theorem new_peer_error la contacts config tr error :
  runs (new_peer la contacts config) tr (Done (Err error)) -> error_origin config tr error.
Proof.
  unfold new_peer. intros H.
  apply runs_try_done in H as [(ic & t1 & t2 & -> & Hcfg & H)|(x & H1 & He)]; [|by injection He as ->].
  apply try_from_config_runs in Hcfg as (crt & cert & -> & _ & Hcfg). apply error_origin_app.
  apply runs_bind_done in H as ([ttx trx] & t3 & t4 & -> & H1 & H). apply error_origin_app.
  apply runs_try_done in H as [([qe qi] & t5 & t6 & -> & H1' & H)|(x & H1' & He)]; [|by injection He as ->].
  apply error_origin_app.
  apply runs_try_done in H as [(local & t7 & t8 & -> & H2 & H)|(x & H2 & He)]; [|by injection He as ->].
  apply error_origin_app.
  apply runs_bind_done in H as ([] & t9 & t10 & -> & _ & H). apply error_origin_app.
  apply runs_bind_done in H as (contact' & tc & t11 & -> & _ & H). apply error_origin_app.
  apply runs_try_done in H as [([a e'] & te & t12 & -> & _ & H)|(x & H3 & He)];
    [|injection He as ->; by eapply resolve_error]. apply error_origin_app.
  apply runs_try_done in H as [([] & tf & t13 & -> & _ & H)|(x & H3 & He)];
    [|injection He as ->; by eapply forward_error]. apply error_origin_app.
  apply runs_bind_done in H as ([ctx crx] & t14 & t15 & -> & _ & H). apply error_origin_app.
  apply runs_bind_done in H as ([] & t16 & t17 & -> & _ & H). apply error_origin_app.
  apply runs_try_done in H as [([] & tv & t18 & -> & _ & H)|(x & H3 & He)];
    [by apply runs_ret_done in H as [_ ?]|injection He as ->; by eapply check_error].
Qed.

(** ** Accepting connections *)

Definition event_arrival (v : event ev) : list q_Connection :=
  match v with
  | Ev e x =>
      match e in ev T return T -> list q_Connection with
      | AwaitConnecting _ => fun a => match a with Ok nc => [nc_connection nc] | Err _ => [] end
      | _ => fun _ => []
      end x
  end.

(** The connections established along a trace, and those handed to the user. *)
Definition arrivals (tr : list (event ev)) : list q_Connection := concat (map event_arrival tr).

Definition event_handed (v : event ev) : list q_Connection :=
  match v with
  | Ev e x =>
      match e in ev T return T -> list q_Connection with
      | SendConnection _ c => fun _ => [conn_inner c.1]
      | _ => fun _ => []
      end x
  end.

Definition handed (tr : list (event ev)) : list q_Connection := concat (map event_handed tr).

Lemma arrivals_app t1 t2 : arrivals (t1 ++ t2) = arrivals t1 ++ arrivals t2.
Proof. unfold arrivals. by rewrite map_app, concat_app. Qed.

Lemma handed_app t1 t2 : handed (t1 ++ t2) = handed t1 ++ handed t2.
Proof. unfold handed. by rewrite map_app, concat_app. Qed.

Lemma Connection_new_quiet ep cfg nc tr o :
  runs (Connection_new ep cfg nc) tr o -> arrivals tr = [] /\ handed tr = [].
Proof.
  intros Hr. assert (Forall (fun v => event_arrival v = [] /\ event_handed v = []) tr) as Ht.
  { revert tr o Hr.
    change (only (fun v => event_arrival v = [] /\ event_handed v = []) (Connection_new ep cfg nc)).
    unfold Connection_new, ConnectionIncoming_new, start_message_listeners.
    repeat (only_step || done). }
  clear Hr. induction Ht as [|v tr [H1 H2] _ [IH1 IH2]]; [done|]. unfold arrivals, handed in *. cbn.
  by rewrite H1, H2, IH1, IH2.
Qed.

(** One round hands over what it established. *)
Lemma accept_step_ok inc tx ep cfg t o :
  runs (accept_step inc tx ep cfg) t o ->
  handed t `prefix_of` arrivals t
  /\ (forall r, o = Done r -> handed t = arrivals t)
  /\ (forall u, o = Done (inr u) -> t = [Ev (NextIncoming inc) None]).
Proof.
  intros [(a & t1 & t2 & -> & H1 & H2)|(h & -> & H1)]%runs_bind.
  2: { apply runs_call in H1 as [[-> _]|(a & -> & _)]; by split_and!. }
  apply runs_call_done in H1 as ->. destruct a as [qc|].
  2: { destruct H2 as [-> _]. by split_and!. }
  apply runs_bind in H2 as [(r & t3 & t4 & -> & H3 & H4)|(h & -> & H3)].
  2: { apply runs_call in H3 as [[-> _]|(r & -> & _)]; split_and!; try done. apply prefix_nil. }
  apply runs_call_done in H3 as ->. destruct r as [nc|e].
  2: { destruct H4 as [-> Ho]. split_and!; [done..|]. intros u ->. by destruct Ho. }
  apply runs_bind in H4 as [([c i] & t5 & t6 & -> & H5 & H6)|(h & -> & H5)];
    destruct (Connection_new_quiet _ _ _ _ _ H5) as [Ha Hh].
  2: { rewrite !handed_app, !arrivals_app, Ha, Hh. split_and!; [apply prefix_nil|done..]. }
  assert (conn_inner c = nc_connection nc) as Hc
    by (by apply Connection_new_runs in H5 as (peer & alive & chan & _ & -> & _)).
  rewrite !handed_app, !arrivals_app, Ha, Hh. cbn [handed arrivals map concat event_handed event_arrival app].
  apply runs_bind in H6 as [(b & t7 & t8 & -> & H7 & H8)|(h & -> & H7)].
  - apply runs_call_done in H7 as ->. destruct H8 as [-> Ho]. cbn. rewrite Hc.
    split_and!; [done..|]. intros u ->. by destruct Ho.
  - apply runs_call in H7 as [[-> _]|(b & -> & _)]; cbn; rewrite ?Hc; split_and!; try done.
    apply prefix_nil.
Qed.

Lemma accept_loop_ok inc tx ep cfg tr o :
  runs (accept_connections inc tx ep cfg) tr o ->
  handed tr `prefix_of` arrivals tr
  /\ (o = Done tt ->
      handed tr = arrivals tr /\ exists tr', tr = tr' ++ [Ev (NextIncoming inc) None]).
Proof.
  intros Hr%runs_loop. set (u := tt) in Hr at 1. clearbody u.
  induction Hr as [u u' t1 t2 o H1 _ [IH1 IH2]|u b t H1|u h t H1];
    destruct (accept_step_ok _ _ _ _ _ _ H1) as (Hp & Hd & Hl).
  - rewrite handed_app, arrivals_app, (Hd _ eq_refl). split; [by apply prefix_app|].
    intros Ho. destruct (IH2 Ho) as [-> (tr' & ->)]. split; [done|].
    exists (t1 ++ tr'). by rewrite app_assoc.
  - split; [done|]. intros _. split; [by eapply Hd|]. exists []. by rewrite (Hl b eq_refl).
  - by split.
Qed.

(** C27: the accept loop hands every established incoming connection to the user once,
    in the order they were established; a failed handshake neither ends it nor loses
    a later connection, and it returns only when there are no more incoming
    connections. *)
Theorem accept_connections_ok inc tx ep cfg tr o :
  runs (accept_connections inc tx ep cfg) tr o ->
  handed tr `prefix_of` arrivals tr
  /\ (o = Done tt ->
      handed tr = arrivals tr /\ exists tr', tr = tr' ++ [Ev (NextIncoming inc) None]).
Proof. apply accept_loop_ok. Qed.

Definition awaits_only (k : q_Connecting) (v : event ev) : Prop :=
  match v with Ev e _ => match e with AwaitConnecting k' => k' = k | _ => True end end.

(** An event of the loop is one of a round. *)
Lemma accept_round inc tx ep cfg tr o v :
  runs (accept_connections inc tx ep cfg) tr o -> v ∈ tr ->
  exists t o', runs (accept_step inc tx ep cfg) t o' /\ v ∈ t /\ forall w, w ∈ t -> w ∈ tr.
Proof.
  intros Hr%runs_loop. set (u := tt) in Hr at 1. clearbody u.
  induction Hr as [u u' t1 t2 o H1 _ IH|u b t H1|u h t H1]; intros Hv; [|by eauto 6..].
  apply elem_of_app in Hv as [Hv|Hv].
  - exists t1, (Done (inl u')). split_and!; [done..|]. intros w Hw. apply elem_of_app. by left.
  - destruct (IH Hv) as (t & o' & Hr & Hvt & Hsub). exists t, o'. split_and!; [done..|].
    intros w Hw. apply elem_of_app. right. auto.
Qed.

(** What a round does with a connection that came in. *)
Definition accept_one (tx : ConnectionTx) (ep : q_Endpoint) (cfg : RetryConfig) (k : q_Connecting) :
    io (unit + unit) :=
  let* r := call (AwaitConnecting k) in
  match r with
  | Ok nc =>
      let* c := Connection_new ep (Some cfg) nc in
      let* _ := call (SendConnection tx c) in
      Ret (inl tt)
  | Err _ => Ret (inl tt)
  end.

Lemma accept_step_runs inc tx ep cfg t o :
  runs (accept_step inc tx ep cfg) t o ->
  t = [] \/ t = [Ev (NextIncoming inc) None]
  \/ exists k t', t = Ev (NextIncoming inc) (Some k) :: t' /\ runs (accept_one tx ep cfg k) t' o.
Proof.
  intros [[-> _]|([k|] & t1 & -> & H)]%runs_call_bind; [by left|right; right; by eauto|right; left].
  by destruct H as [-> _].
Qed.

(** A handshake the loop waits for is that of a connection that came in. *)
Lemma accept_awaits inc tx ep cfg tr o k a :
  runs (accept_connections inc tx ep cfg) tr o -> Ev (AwaitConnecting k) a ∈ tr ->
  Ev (NextIncoming inc) (Some k) ∈ tr.
Proof.
  intros Hr (t & o' & Ht & Hv & Hsub)%(accept_round _ _ _ _ _ _ _ Hr). apply Hsub.
  apply accept_step_runs in Ht as [->|[->|(k' & t' & -> & H)]];
    [by apply not_elem_of_nil in Hv|by apply list_elem_of_singleton in Hv|].
  apply elem_of_cons in Hv as [?|Hv]; [done|].
  assert (only (awaits_only k') (accept_one tx ep cfg k')) as Hone.
  { unfold accept_one, Connection_new, ConnectionIncoming_new, start_message_listeners.
    repeat (only_step || done). }
  apply Hone in H. rewrite list.Forall_forall in H. specialize (H _ Hv). cbn in H. subst k'. by left.
Qed.

(** The channel that a listener was given, with it in any part of a trace. *)
Definition given_channel (t : list (event ev)) : Prop :=
  forall peer us alive tx a, Ev (Spawn (ListenOnUniStreams peer us alive tx)) a ∈ t ->
    exists cap rx, Ev (NewMessageChannel cap) (tx, rx) ∈ t.

Definition feeds_channel (tx : MessageTx) (v : event ev) : Prop :=
  match v with
  | Ev e _ => match e with Spawn (ListenOnUniStreams _ _ _ tx') => tx' = tx | _ => True end
  end.

Lemma Connection_new_channel ep cfg nc t o : runs (Connection_new ep cfg nc) t o -> given_channel t.
Proof.
  unfold Connection_new, ConnectionIncoming_new, start_message_listeners.
  intros [[-> _]|([atx arx] & t1 & -> & H)]; [by intros ? ? ? ? ? ?%not_elem_of_nil|].
  destruct H as [[-> _]|(addr & t2 & -> & H)]; [by intros ? ? ? ? ? ?%list_elem_of_singleton|].
  cbn [bind] in H. destruct H as [[-> _]|([mtx mrx] & t3 & -> & H)].
  { intros ? ? ? ? ? Hv. by repeat (apply elem_of_cons in Hv as [?|Hv]; [done|]); apply not_elem_of_nil in Hv. }
  intros peer us alive tx a Hv. exists INCOMING_MESSAGE_BUFFER_LEN, mrx.
  assert (tx = mtx) as ->; [|right; right; by left].
  assert (Forall (feeds_channel mtx) t3) as Hall.
  { cbn in H. destruct H as [[-> _]|([] & t4 & -> & H)]; [constructor|].
    destruct H as [[-> _]|([] & t5 & -> & [-> _])]; by repeat constructor. }
  repeat (apply elem_of_cons in Hv as [?|Hv]; [done|]).
  rewrite list.Forall_forall in Hall. apply (Hall _ Hv).
Qed.

Lemma accept_channel inc tx ep cfg tr o :
  runs (accept_connections inc tx ep cfg) tr o -> given_channel tr.
Proof.
  intros Hr peer us alive tx' a (t & o' & Ht & Hv & Hsub)%(accept_round _ _ _ _ _ _ _ Hr).
  apply accept_step_runs in Ht as [->|[->|(k & t' & -> & H)]];
    [by apply not_elem_of_nil in Hv|by apply list_elem_of_singleton in Hv|].
  apply elem_of_cons in Hv as [?|Hv]; [done|].
  assert (given_channel t') as Hg.
  { apply runs_call_bind in H as [[-> _]|([nc|e] & t1 & -> & H)]; [by intros ? ? ? ? ? ?%not_elem_of_nil| |].
    2: { destruct H as [-> _]. by intros ? ? ? ? ? ?%list_elem_of_singleton. }
    cbn [bind] in H.
    apply runs_bind in H as [(c & t2 & t3 & -> & H1 & H)|(h & -> & H1)]; apply Connection_new_channel in H1.
    - intros ? ? ? ? ? [?|[Hin|Hin]%elem_of_app]%elem_of_cons; [done| |].
      + destruct (H1 _ _ _ _ _ Hin) as (cap & rx & ?). exists cap, rx. right. apply elem_of_app. by left.
      + exfalso. by apply runs_call_bind in H as [[-> _]|(b & t4 & -> & [-> _])];
          [apply not_elem_of_nil in Hin|apply list_elem_of_singleton in Hin].
    - intros ? ? ? ? ? [?|Hin]%elem_of_cons; [done|]. destruct (H1 _ _ _ _ _ Hin) as (cap & rx & ?).
      exists cap, rx. by right. }
  destruct (Hg _ _ _ _ _ Hv) as (cap & rx & Hch). exists cap, rx. apply Hsub. by right.
Qed.

End NewPeer.
