(* ===== verification/Delivery.v ===== *)
(** * From one user to the other

    The sending side of a connection joined with the receiving side of its peer. Sends
    may run concurrently and be retried; every attempt uses a stream of its own, on
    which it leaves a prefix of the frame of its message. The peer's listener accepts
    such streams and puts messages on a channel, from which the user takes them. *)

From Stdlib Require Import Strings.Byte.
From S2P Require Import Prelude Std Foreign WireTypes Errors ConfigTypes Prog ProgFacts Effects.
From S2P Require Import Wire StreamSpec WireFacts Framing Config ConfigFacts Connection Incoming.
From S2P Require Import Channel SendFacts UniListener BiStreams.

Local Open Scope Z_scope.

Section Delivery.
Context {F : Foreign} {Bc : Bincode} {Bo : Backoff} {BL : BackoffLaws}.
Context `{!EqDecision q_SendStream}.

(** ** The sending side *)

Definition event_opened_uni (v : event ev) : list q_SendStream :=
  match v with
  | Ev e x =>
      match e in ev T return T -> list q_SendStream with
      | OpenUni _ => fun a => match a with Ok s => [s] | Err _ => [] end
      | _ => fun _ => []
      end x
  end.

(** The unidirectional streams opened along a trace. *)
Definition opened_uni (tr : list (event ev)) := concat (map event_opened_uni tr).

(** The frame of a user message; empty when it is too long to be sent. *)
Definition frame_bytes (msg : Bytes) : Bytes := unwrap_or (frame (UserMsg msg)) [].

(** The streams opened along [tr] hold parts of the frame of [msg], others nothing. *)
Definition carries (msg : Bytes) (tr : list (event ev)) : Prop :=
  (forall s, s ∉ opened_uni tr -> written s tr = [])
  /\ (forall s, s ∈ opened_uni tr -> written s tr `prefix_of` frame_bytes msg).

Lemma opened_uni_app t1 t2 : opened_uni (t1 ++ t2) = opened_uni t1 ++ opened_uni t2.
Proof. apply flat_app. Qed.

Lemma opened_uni_concat ts : opened_uni (concat ts) = concat (map opened_uni ts).
Proof. induction ts as [|t ts IH]; [done|]. cbn [concat map]. by rewrite opened_uni_app, IH. Qed.

Lemma frame_bytes_eq msg :
  frame_bytes msg =
    if zlen msg <=? u32_MAX then to_bytes (header_of msg USER_MSG_FLAG) ++ msg else [].
Proof. unfold frame_bytes. rewrite frame_user_msg. by destruct (zlen msg <=? u32_MAX). Qed.

(** Writing a message, in any outcome. *)
Lemma write_any msg s tr o :
  runs (write_to_stream (UserMsg msg) s) tr o ->
  opened_uni tr = [] /\ (forall s', s' <> s -> written s' tr = [])
  /\ written s tr `prefix_of` frame_bytes msg.
Proof.
  rewrite frame_bytes_eq. unfold write_to_stream. cbn [payload]. unfold try_bind. cbn [bind].
  rewrite MsgHeader_new_spec. destruct (zlen msg <=? u32_MAX).
  2: { cbn. intros [-> _]. split_and!; [done..|apply prefix_nil]. }
  assert (forall v : event ev, event_opened_uni v = [] -> opened_uni [v] = []) as Ho.
  { intros v Hv. unfold opened_uni. cbn. by rewrite Hv. }
  cbn [bind]. intros [[-> _]|([[]|e] & t & -> & H)]%runs_call_bind; [split_and!; [done..|apply prefix_nil]| |].
  2: { destruct H as [-> _]. split_and!; [done| |apply prefix_nil].
       intros s' Hs. by rewrite written_write_other. }
  apply runs_call_bind in H as [[-> _]|([[]|e] & t' & -> & [-> _])].
  - split_and!; [done|intros s' Hs; by rewrite written_write_other|].
    rewrite written_write_ok, written_nil, app_nil_r. by apply prefix_app_r.
  - split_and!; [done|intros s' Hs; by rewrite !written_write_other|].
    by rewrite !written_write_ok, written_nil, app_nil_r.
  - split_and!; [done|intros s' Hs; by rewrite !written_write_other|].
    rewrite written_write_ok, written_write_err, written_nil, app_nil_r. by apply prefix_app_r.
Qed.

Lemma carries_nil msg : carries msg [].
Proof. split; intros s Hs; [done|]. by apply not_elem_of_nil in Hs. Qed.

(** An event that opens and writes nothing. *)
Definition mute (v : event ev) : Prop :=
  event_opened_uni v = [] /\ forall s, event_written s v = [].

Lemma mute_trace tr : Forall mute tr -> opened_uni tr = [] /\ forall s, written s tr = [].
Proof.
  intros Hm. split; [|intros s]; apply flat_nil; revert Hm; apply Forall_impl; intros v [? ?]; auto.
Qed.

(** A program that writes between two mute ones. *)
Lemma writes_between {A B C} (p : io A) (q : io B) (k : B -> io C) tr o :
  only mute p -> (forall b, only mute (k b)) -> runs (bind p (fun _ => bind q k)) tr o ->
  exists t1 t2 t3, tr = t1 ++ t2 ++ t3 /\ Forall mute t1 /\ Forall mute t3
    /\ (t2 = [] \/ exists o', runs q t2 o').
Proof.
  intros Hp Hk [(a & t1 & t2 & -> & H1%Hp & H2)|(h & -> & H1%Hp)]%runs_bind.
  - apply runs_bind in H2 as [(b & t3 & t4 & -> & H2 & H3%Hk)|(h & -> & H2)].
    + exists t1, t3, t4. eauto 6.
    + exists t1, t2, []. rewrite app_nil_r. eauto 6.
  - exists tr, [], []. rewrite app_nil_r. eauto 6.
Qed.

Lemma send_uni_carries c msg priority tr o :
  runs (send_uni c msg priority) tr o -> carries msg tr.
Proof.
  unfold send_uni, open_uni, SendStream_set_priority. unfold try_bind at 4. cbn [bind].
  intros [[-> _]|([s|e] & t & -> & H)]%runs_call_bind; [apply carries_nil| |].
  2: { destruct H as [-> _]. split; intros s Hs; [done|]. by apply not_elem_of_nil in Hs. }
  assert (forall t, (forall s', s' <> s -> written s' t = []) -> opened_uni t = [] ->
    written s t `prefix_of` frame_bytes msg -> carries msg (Ev (OpenUni (conn_inner c)) (Ok s) :: t)) as Hc.
  { intros t' Hw Ho Hp.
    assert (opened_uni (Ev (OpenUni (conn_inner c)) (Ok s) :: t') = [s]) as Hs
      by (unfold opened_uni in *; cbn; by rewrite Ho).
    split; rewrite Hs; intros s' Hs'.
    - apply Hw. intros ->. apply Hs'. by left.
    - apply list_elem_of_singleton in Hs' as ->. done. }
  assert (exists t1 t2 t3, t = t1 ++ t2 ++ t3 /\ Forall mute t1 /\ Forall mute t3
    /\ (t2 = [] \/ exists o', runs (write_to_stream (UserMsg msg) s) t2 o'))
    as (t1 & t2 & t3 & -> & [Ho1 Hw1]%mute_trace & [Ho3 Hw3]%mute_trace & Ht2).
  { revert H. cbn [bind map_err]. unfold try_bind at 1. cbn [bind]. unfold try_bind at 1.
    apply writes_between; [repeat (only_step || done)|].
    intros [[]|e]; unfold SendStream_finish; repeat (only_step || done). }
  assert (opened_uni t2 = [] /\ (forall s', s' <> s -> written s' t2 = [])
    /\ written s t2 `prefix_of` frame_bytes msg) as (Ho2 & Hw2 & Hp).
  { destruct Ht2 as [->|[o' Ht2]]; [split_and!; [done..|apply prefix_nil]|by apply write_any in Ht2]. }
  apply Hc.
  - intros s' Hs'. by rewrite !written_app, Hw1, Hw2, Hw3.
  - by rewrite !opened_uni_app, Ho1, Ho2, Ho3.
  - by rewrite !written_app, Hw1, Hw3, app_nil_r.
Qed.

(** Attempts on different streams. *)
Lemma carries_app msg t1 t2 :
  NoDup (opened_uni (t1 ++ t2)) -> carries msg t1 -> carries msg t2 -> carries msg (t1 ++ t2).
Proof.
  rewrite opened_uni_app. intros (_ & Hd & _)%list.NoDup_app [Hn1 Hp1] [Hn2 Hp2].
  split; intros s Hs; rewrite opened_uni_app in Hs; rewrite written_app.
  - apply not_elem_of_app in Hs as [? ?]. by rewrite Hn1, Hn2.
  - apply elem_of_app in Hs as [Hs|Hs].
    + rewrite (Hn2 s), app_nil_r by auto. by apply Hp1.
    + rewrite (Hn1 s) by (intros Hs1; by apply (Hd s)). by apply Hp2.
Qed.

Lemma send_attempt_any c msg priority tr o :
  runs (send_attempt c msg priority) tr o -> exists o', runs (send_uni c msg priority) tr o'.
Proof.
  unfold send_attempt. intros [(r & t1 & t2 & -> & H & [-> _])|(h & -> & H)]%runs_bind; [|by eauto].
  rewrite app_nil_r. eauto.
Qed.

(** The attempts of one [send], in any outcome. *)
Lemma send_carries c msg tr o :
  runs (send c msg) tr o -> NoDup (opened_uni tr) -> carries msg tr.
Proof.
  unfold send, send_with. destruct (default_retry_config c) as [cfg|]; unfold try_bind; intros Hr.
  - assert (exists o', runs (RetryConfig_retry cfg (send_attempt c msg 0)) tr o') as [o' Hr'].
    { apply runs_bind in Hr as [(r & t1 & t2 & -> & H & H2)|(h & -> & H)]; [|by eauto].
      assert (t2 = []) as -> by (destruct r; by destruct H2). rewrite app_nil_r. eauto. }
    apply retry_runs in Hr'. clear Hr.
    induction Hr' as [t v H|t e H|t e H|t1 t2 e o' H _ IH|t h H];
      apply send_attempt_any in H as [o1 H%send_uni_carries]; intros Hnd; [done..| |done].
    apply carries_app; [done..|]. apply IH.
    rewrite opened_uni_app in Hnd. by apply list.NoDup_app in Hnd as (_ & _ & ?).
  - intros _. apply runs_bind in Hr as [(r & t1 & t2 & -> & H%send_uni_carries & H2)|(h & -> & H)].
    + assert (t2 = []) as -> by (destruct r; by destruct H2). by rewrite app_nil_r.
    + by eapply send_uni_carries.
Qed.

(** ** Concurrent sends *)

(** [msgs] are being sent over [c], each by a call of its own; the calls run concurrently
    and may have finished, failed or be still running. *)
Definition sending (c : Connection) (msgs : list Bytes) (ts : list (list (event ev)))
    (tr : list (event ev)) : Prop :=
  Forall2 (fun msg t => exists o, runs (send c msg) t o) msgs ts
  /\ merges ts tr /\ NoDup (opened_uni tr).

Lemma sending_nodup c msgs ts tr t :
  sending c msgs ts tr -> t ∈ ts -> NoDup (opened_uni t).
Proof.
  intros (_ & Hm & Hnd) Ht. eapply sublist_NoDup; [exact Hnd|]. unfold opened_uni.
  eapply merges_sublist; [by apply merges_flat_map|]. apply list_elem_of_fmap. eauto.
Qed.

Lemma sending_carries c msgs ts tr i msg t :
  sending c msgs ts tr -> msgs !! i = Some msg -> ts !! i = Some t -> carries msg t.
Proof.
  intros Hs Hm Ht. pose proof Hs as (Hf & _ & _).
  destruct (Forall2_lookup_lr _ _ _ _ _ _ Hf Hm Ht) as [o Hr].
  eapply send_carries; [done|]. eapply sending_nodup; [done|]. by eapply list_elem_of_lookup_2.
Qed.

(** A stream belongs to the call that opened it. *)
Lemma sending_owner c msgs ts tr i j t u s :
  sending c msgs ts tr -> ts !! i = Some t -> ts !! j = Some u ->
  s ∈ opened_uni t -> s ∈ opened_uni u -> i = j.
Proof.
  intros (_ & Hm & Hnd) Ht Hu Hst Hsu.
  assert (NoDup (concat (map opened_uni ts))) as Hc.
  { rewrite <- (merges_permutation _ _ (merges_flat_map event_opened_uni _ _ Hm)). exact Hnd. }
  eapply (nodup_concat_unique _ _ _ _ _ _ Hc); [rewrite list_lookup_fmap, Ht; done
    |rewrite list_lookup_fmap, Hu; done|done|done].
Qed.

(** What is written on a stream was written by the call that opened it. *)
Lemma sending_written c msgs ts tr i t s :
  sending c msgs ts tr -> ts !! i = Some t -> s ∈ opened_uni t -> written s tr = written s t.
Proof.
  intros Hs Ht Hst. pose proof Hs as (Hf & Hm & _).
  apply (merges_single _ _ i _ (merges_flat_map (event_written s) _ _ Hm)).
  - by rewrite list_lookup_fmap, Ht.
  - intros j u Hj Hu. rewrite list_lookup_fmap in Hu.
    destruct (ts !! j) as [t'|] eqn:Ht'; [|done]. injection Hu as <-.
    destruct (Forall2_lookup_r _ _ _ _ _ Hf Ht') as (msg & Hmsg & _).
    apply (sending_carries _ _ _ _ _ _ _ Hs Hmsg Ht'). intros Hs'.
    apply Hj. by eapply (sending_owner c msgs ts tr).
Qed.

Lemma sending_opened c msgs ts tr s :
  sending c msgs ts tr -> s ∈ opened_uni tr ->
  exists i msg t, msgs !! i = Some msg /\ ts !! i = Some t /\ s ∈ opened_uni t.
Proof.
  intros (Hf & Hm & _) Hs.
  destruct (merges_elem _ _ _ (merges_flat_map event_opened_uni _ _ Hm) Hs) as (l & Hl & Hsl).
  apply list_elem_of_fmap in Hl as (t & -> & Ht). apply list_elem_of_lookup in Ht as [i Ht].
  destruct (Forall2_lookup_r _ _ _ _ _ Hf Ht) as (msg & Hmsg & _). eauto 6.
Qed.

(** Every stream of the connection holds part of the frame of one of the messages. *)
Lemma sending_frames c msgs ts tr s :
  sending c msgs ts tr -> s ∈ opened_uni tr ->
  exists msg, msg ∈ msgs /\ written s tr `prefix_of` frame_bytes msg.
Proof.
  intros Hs Hst. destruct (sending_opened _ _ _ _ _ Hs Hst) as (i & msg & t & Hm & Ht & Ho).
  exists msg. split; [by eapply list_elem_of_lookup_2|].
  rewrite (sending_written _ _ _ _ _ _ _ Hs Ht Ho). by eapply sending_carries.
Qed.

(** ** The receiving side *)

Lemma items_end e m : Ok m ∉ items (mkStream [] e).
Proof.
  rewrite items_unfold. unfold decode. cbn [content ends fst]. rewrite bool_decide_eq_true_2 by done.
  cbn [fst]. assert (forall w, at_end e <> Ok (Some w)) as Ha.
  { intros w. unfold at_end. destruct e as [|e]; [done|].
    destruct (from e : RecvError); try done. by destruct (is_benign _). }
  destruct (at_end e) as [[w|]|e']; [by destruct (Ha w)| |]; cbn.
  - apply not_elem_of_nil.
  - by intros [=]%list_elem_of_singleton.
Qed.

Lemma items_error e st : (decode st).1 = Err e -> items st = [Err e].
Proof. intros Hd. rewrite items_unfold, Hd. done. Qed.

(** No message but [msg] comes out of a part of its frame. *)
Lemma items_of_part msg st m :
  content st `prefix_of` frame_bytes msg -> Ok m ∈ items st -> m = msg.
Proof.
  destruct st as [c e]. cbn [content]. rewrite frame_bytes_eq.
  assert (forall e' : RecvError, Ok m ∈ [Err e'] -> m = msg) as Herr
    by (by intros e' [=]%list_elem_of_singleton).
  destruct (Z.leb_spec (zlen msg) u32_MAX).
  2: { intros ->%prefix_nil_inv Hi. by apply items_end in Hi. }
  destruct (decide (c = [])) as [->|Hc]; [intros _ Hi; by apply items_end in Hi|].
  destruct (decide (length c < MSG_HEADER_LEN)%nat) as [Hl|Hl].
  { intros _. rewrite (items_error (cut_short e)) by (by rewrite decode_short). apply Herr. }
  set (hd := to_bytes (header_of msg USER_MSG_FLAG)). intros [k Hk].
  assert (length hd = MSG_HEADER_LEN) as Hhd by apply length_to_bytes.
  assert (exists c', c = hd ++ c' /\ msg = c' ++ k) as (c' & -> & Hmsg).
  { exists (drop MSG_HEADER_LEN c). rewrite <- (take_drop MSG_HEADER_LEN c), <- app_assoc in Hk.
    apply app_inj_1 in Hk as [Hk1 Hk2]; [|rewrite length_take; lia].
    split; [by rewrite Hk1, take_drop|done]. }
  destruct (decide (k = [])) as [->|Hne].
  - rewrite app_nil_r in Hmsg. subst c'. rewrite items_unfold.
    assert (decode (mkStream (hd ++ msg) e) = (interpret USER_MSG_FLAG msg, mkStream [] e)) as ->.
    { rewrite <- (decode_frame_bytes msg USER_MSG_FLAG [] e) by done. by rewrite app_nil_r. }
    cbn [fst snd]. unfold interpret. case_bool_decide; [apply Herr|].
    rewrite bool_decide_eq_true_2 by done. cbn.
    intros [[=]|Hi]%elem_of_cons; [done|]. by apply items_end in Hi.
  - rewrite (items_error (cut_short e)); [apply Herr|]. rewrite decode_header by done.
    unfold hd. rewrite from_to_bytes by (by apply header_of_wf). cbn [header_of data_len]. unfold zlen.
    rewrite Nat2Z.id, Hmsg, length_app.
    destruct k; [done|]. cbn [length].
    by destruct (Nat.ltb_spec (length c') (length c' + S (length k))); [|lia].
Qed.

(** A message of the specification comes from one of the accepted streams. *)
Lemma uni_spec_origin n l m :
  Ok m ∈ uni_spec n l -> exists r, r ∈ streams_of l /\ Ok m ∈ items (n r).
Proof.
  induction l as [|a l IH]; cbn [uni_spec]; [by intros ?%not_elem_of_nil|].
  destruct a as [[r|qe]|]; cbn.
  - unfold unless_lost. rewrite elem_of_app. intros [Hi|Hi].
    + exists r. split; [left|done].
    + destruct (existsb _ _); [by apply not_elem_of_nil in Hi|].
      destruct (IH Hi) as (r' & Hr' & Hi'). exists r'. split; [by right|done].
  - destruct (is_benign _); [by intros ?%not_elem_of_nil|]. by intros [=]%list_elem_of_singleton.
  - by intros ?%not_elem_of_nil.
Qed.

(** What arrives on a receiving stream is a part of what was written on a stream that the
    sender opened. *)
Definition arrives (n : q_RecvStream -> stream) (tr : list (event ev)) (r : q_RecvStream) : Prop :=
  exists s, s ∈ opened_uni tr /\ content (n r) `prefix_of` written s tr.

(** C6: every message that the listener reports was passed to [send] by the peer, as it
    is: however the sends interleave, fail, are retried or cut off, and however much of
    each stream arrives, no message is made up, altered or mixed with another. *)
Theorem received_was_sent c msgs ts tr uni tx trl o n n' :
  sending c msgs ts tr ->
  runs (listen_on_uni_streams uni tx) trl o -> conforms n trl n' ->
  NoDup (streams_of (accepted trl)) -> Forall (arrives n tr) (streams_of (accepted trl)) ->
  forall m st, Ok (m, st) ∈ reported trl -> m ∈ msgs /\ st = None.
Proof.
  intros Hs Hl%runs_loop Hc Hnd Ha m st Hm.
  destruct (uni_listener_from _ _ None _ _ _ _ Hl Hc Hnd) as [[k Hp] _].
  assert (Ok (m, st) ∈ map uni_item (uni_spec n (accepted trl))) as Hi
    by (cbn [uni_spec_from] in Hp; rewrite Hp; apply elem_of_app; by left).
  apply list_elem_of_fmap in Hi as ([m'|e] & Hu & Hi); cbn in Hu; simplify_eq. split; [|done].
  apply uni_spec_origin in Hi as (r & Hr & Hi). rewrite list.Forall_forall in Ha.
  destruct (Ha r Hr) as (s & Hst & Hpre).
  destruct (sending_frames _ _ _ _ _ Hs Hst) as (msg & Hmsg & Hw).
  rewrite (items_of_part msg (n r) m'); [done| |done]. by etrans.
Qed.

(** ** Complete delivery *)

Lemma frame_bytes_inj m1 m2 :
  zlen m1 <= u32_MAX -> zlen m2 <= u32_MAX -> frame_bytes m1 = frame_bytes m2 -> m1 = m2.
Proof.
  rewrite !frame_bytes_eq. intros H1%Z.leb_le H2%Z.leb_le. rewrite H1, H2.
  intros He. apply app_inj_1 in He as [_ He]; [done|]. by rewrite !length_to_bytes.
Qed.

Lemma items_of_frame msg :
  msg <> [] -> zlen msg <= u32_MAX -> items (mkStream (frame_bytes msg) Finished) = [Ok msg].
Proof.
  intros Hne Hl. rewrite frame_bytes_eq, (proj2 (Z.leb_le _ _) Hl), items_unfold.
  rewrite <- (app_nil_r (_ ++ msg)), decode_frame_bytes by done. cbn [fst snd]. unfold interpret.
  rewrite bool_decide_eq_false_2 by done. rewrite bool_decide_eq_true_2 by done. done.
Qed.

(** All of the streams, each with its message, and then the graceful end. *)
Lemma uni_spec_frames n msgs rs last :
  Forall2 (fun m r => m <> [] /\ zlen m <= u32_MAX /\ n r = mkStream (frame_bytes m) Finished) msgs rs ->
  filter_benign_close last = None ->
  uni_spec n (map (fun r => Some (Ok r)) rs ++ [last]) = map Ok msgs.
Proof.
  intros Hf Hl. induction Hf as [|m r msgs rs (Hm & Hlen & Hr) _ IH]; cbn [map app uni_spec].
  - by rewrite Hl.
  - cbn [filter_benign_close transpose option_map]. by rewrite Hr, items_of_frame, IH by done.
Qed.

Lemma failed_attempts_silent c msg trs :
  Forall (failed_attempt c msg 0) trs -> opened_uni (concat trs) = [] ->
  forall s, written s (concat trs) = [].
Proof.
  intros Hf Ho s. induction Hf as [|t trs (e & Hr & _) _ IH]; [done|]. cbn [concat] in *.
  rewrite opened_uni_app in Ho. apply app_nil in Ho as [Ho1 Ho2]. rewrite written_app, IH by done.
  apply send_uni_carries in Hr as [Hr _]. rewrite Hr; [done|]. rewrite Ho1. apply not_elem_of_nil.
Qed.

(** A finished [send] that needed no retry opened one stream and wrote the frame on it. *)
Lemma send_once c msg t :
  runs (send c msg) t (Done (Ok tt)) -> (length (opened_uni t) <= 1)%nat ->
  exists s, opened_uni t = [s] /\ written s t = frame_bytes msg /\ zlen msg <= u32_MAX.
Proof.
  unfold send. intros (trs & t' & -> & Hf & Hu & _)%send_with_runs.
  apply send_uni_success in Hu as (s & known & fin & -> & _ & Hlen).
  rewrite opened_uni_app, length_app. cbn. intros Ho.
  assert (opened_uni (concat trs) = []) as Hn by (apply nil_length_inv; lia). exists s.
  rewrite Hn, written_app, (failed_attempts_silent _ _ _ Hf Hn), frame_bytes_eq,
    (proj2 (Z.leb_le _ _) Hlen). split_and!; [done| |done].
  unfold delivery, written. cbn. by rewrite !decide_True, app_nil_r by done.
Qed.

(** [msgs] were all sent successfully, concurrently, and no attempt had to be repeated. *)
Definition sent (c : Connection) (msgs : list Bytes) (ts : list (list (event ev)))
    (tr : list (event ev)) : Prop :=
  Forall2 (fun msg t => runs (send c msg) t (Done (Ok tt))) msgs ts
  /\ Forall (fun t => (length (opened_uni t) <= 1)%nat) ts
  /\ merges ts tr /\ NoDup (opened_uni tr).

Lemma sent_sending c msgs ts tr : sent c msgs ts tr -> sending c msgs ts tr.
Proof.
  intros (Hf & _ & Hm & Hnd). split_and!; [|done..]. revert Hf. apply Forall2_impl. eauto.
Qed.

(** The stream holds the frame of the message. *)
Definition holds (tr : list (event ev)) (s : q_SendStream) (m : Bytes) : Prop :=
  written s tr = frame_bytes m /\ zlen m <= u32_MAX.

Lemma sent_holds c msgs ts tr :
  sent c msgs ts tr -> Forall2 (holds tr) (concat (map opened_uni ts)) msgs.
Proof.
  intros Hs. pose proof Hs as (Hf & Hd & _).
  assert (forall i t s, ts !! i = Some t -> s ∈ opened_uni t -> written s tr = written s t) as Hw
    by (intros i t s; apply (sending_written c msgs ts tr), sent_sending, Hs).
  clear Hs. assert (forall t s, t ∈ ts -> s ∈ opened_uni t -> written s tr = written s t) as Hw'
    by (intros t s [i Hi]%list_elem_of_lookup; by eapply Hw). clear Hw.
  induction Hf as [|msg t msgs ts Hr _ IH]; cbn [map concat]; [constructor|].
  apply Forall_cons_1 in Hd as [Hd1 Hd].
  destruct (send_once c msg t Hr Hd1) as (s & Ho & Hs & Hl). rewrite Ho. constructor.
  - split; [|done]. rewrite (Hw' t); [done|left|rewrite Ho; by left].
  - apply IH; [done|]. intros t' s' Ht'. apply Hw'. by right.
Qed.

Lemma holds_functional tr ss msgs msgs' :
  Forall2 (holds tr) ss msgs -> Forall2 (holds tr) ss msgs' -> msgs = msgs'.
Proof.
  intros H. revert msgs'. induction H as [|s m ss msgs [Hw Hl] _ IH]; intros msgs' H'.
  - by inversion_clear H'.
  - inversion_clear H' as [|? m' ? k [Hw' Hl'] H0]. f_equal; [|by apply IH].
    apply frame_bytes_inj; congruence.
Qed.

(** The peer's listener accepted all of these streams in the order in which they were
    opened, each arrived completely, and then the connection ended gracefully. *)
Definition transported (n : q_RecvStream -> stream) (tr trl : list (event ev)) : Prop :=
  exists rs last, accepted trl = map (fun r => Some (Ok r)) rs ++ [last]
    /\ filter_benign_close last = None /\ NoDup rs
    /\ Forall2 (fun s r => n r = mkStream (written s tr) Finished) (opened_uni tr) rs.

Lemma streams_of_all rs last :
  filter_benign_close (A := q_RecvStream) last = None ->
  streams_of (map (fun r => Some (Ok r)) rs ++ [last]) = rs.
Proof.
  intros Hl. induction rs as [|r rs IH]; cbn.
  - destruct last as [[r|e]|]; done.
  - unfold streams_of in IH. cbn in IH. by rewrite IH.
Qed.

(** The calls of [next] took the items of the channel in the order in which the
    listener put them there; [None] once the channel is closed and empty. *)
Definition fifo (trl tru : list (event ev)) : Prop :=
  exists k, taken tru `prefix_of` map Some (reported trl) ++ replicate k None.

Lemma sent_reported c msgs ts tr uni tx trl o n n' :
  sent c msgs ts tr -> Forall (fun m => m <> []) msgs ->
  runs (listen_on_uni_streams uni tx) trl o -> conforms n trl n' -> transported n tr trl ->
  exists msgs', msgs ≡ₚ msgs' /\ Forall2 (holds tr) (opened_uni tr) msgs'
    /\ reported trl = map (fun m => Ok (m, None)) msgs'.
Proof.
  intros Hs Hne Hl%runs_loop Hc (rs & last & Hacc & Hlast & Hnd & Hrs).
  assert (concat (map opened_uni ts) ≡ₚ opened_uni tr) as Hperm
    by (symmetry; apply (merges_permutation _ _ (merges_flat_map event_opened_uni _ _ (proj1 (proj2 (proj2 Hs)))))).
  destruct (Permutation_Forall2 _ _ _ _ Hperm (sent_holds _ _ _ _ Hs)) as (msgs' & Hp & Hh).
  exists msgs'. split_and!; [done..|].
  destruct (uni_listener_from _ _ None _ _ _ _ Hl Hc) as [_ He].
  { cbn [option_list app]. by rewrite Hacc, streams_of_all. }
  rewrite He, Hacc.
  - cbn [uni_spec_from]. rewrite (uni_spec_frames n msgs'), map_map; [done| |done].
    assert (Forall (fun m => m <> []) msgs') as Hne' by (by rewrite <- Hp).
    clear -Hrs Hh Hne'. revert msgs' Hh Hne'. induction Hrs as [|s r ss rs Hr _ IH]; intros msgs' Hh Hne'.
    + inversion_clear Hh. constructor.
    + apply Forall2_cons_inv_l in Hh as (m & k & [Hw Hlen] & Hk & ->).
      apply Forall_cons_1 in Hne' as [Hm Hne]. constructor; [|by apply IH]. by rewrite Hr, Hw.
  - rewrite Hacc. apply ended_app. right. by constructor.
Qed.

(** C5: non-empty messages that were sent successfully, without a retry, and whose streams
    arrive are what the peer's user gets, each exactly once and unchanged, in the order in
    which their streams were opened: the first message received is the one whose frame was
    written to the first stream opened, and so on. When the sends followed one another it
    is the order of the sends. *)
Theorem sent_is_received c msgs ts tr uni tx trl o n n' i results tus :
  sent c msgs ts tr -> Forall (fun m => m <> []) msgs ->
  runs (listen_on_uni_streams uni tx) trl o -> conforms n trl n' -> transported n tr trl ->
  Forall2 (fun r t => runs (ConnectionIncoming_next i) t (Done r)) results tus ->
  fifo trl (concat tus) ->
  exists msgs' k, msgs ≡ₚ msgs' /\ Forall2 (holds tr) (opened_uni tr) msgs'
    /\ results `prefix_of` map (fun m => Ok (Some m)) msgs' ++ replicate k (Ok None)
    /\ (tr = concat ts -> msgs' = msgs).
Proof.
  intros Hs Hne Hl Hc Ht Hn [k Hk].
  destruct (sent_reported _ _ _ _ _ _ _ _ _ _ Hs Hne Hl Hc Ht) as (msgs' & Hp & Hh & Hr).
  exists msgs', k. split_and!; [done..| |].
  - apply next_all in Hn as ->. rewrite Hr in Hk. destruct Hk as [l Hk].
    exists (map next_result l). rewrite <- map_app, <- Hk, map_app, !map_map.
    f_equal. clear. induction k as [|k IH]; cbn; [done|]. by rewrite IH.
  - intros ->. eapply holds_functional; [done|]. pose proof (sent_holds _ _ _ _ Hs) as Hh'.
    by rewrite opened_uni_concat.
Qed.

End Delivery.
