(* ===== verification/Locking.v ===== *)
(** * The stream of a delivered message, shared under its lock

    The handler of a bidirectional stream hands its sending half, in an [Arc<Mutex<_>>],
    to the user with every message and keeps it for its own replies. Whoever writes holds
    the lock; the type of the stream enforces it for the user. What follows from the
    exclusion of the lock: the critical sections of all parties come one after the
    other, so that the frames on the stream are whole. *)

From Stdlib Require Import Strings.Byte.
From S2P Require Import Prelude Std Foreign WireTypes Errors ConfigTypes Prog ProgFacts Effects.
From S2P Require Import Wire StreamSpec WireFacts Framing Config Connection Incoming.
From S2P Require Import UniListener BiListener BiStreams.

Local Open Scope prog_scope.

(** An interleaving of images is the image of an interleaving. *)
Lemma merges_map_inv {A B} (f : A -> B) (ls : list (list A)) l :
  merges (map (map f) ls) l -> exists k, merges ls k /\ l = map f k.
Proof.
  intros Hm. remember (map (map f) ls) as ls' eqn:E0. revert ls E0.
  induction Hm as [ls' Hn|k1 x t k2 l _ IH]; intros ls E0.
  - exists []. split; [|done]. constructor. subst. apply Forall_map in Hn. revert Hn.
    apply Forall_impl. intros [|]; done.
  - symmetry in E0. apply fmap_app_inv in E0 as (l1 & l2' & -> & E1 & ->).
    symmetry in E1. apply fmap_cons_inv in E1 as ([|y u] & l2 & E2 & -> & ->); [done|].
    injection E2 as -> ->. destruct (IH (l1 ++ u :: l2)) as (k & Hk & ->); [by rewrite map_app|].
    exists (y :: k). split; [by constructor|done].
Qed.

Lemma merges_forall {A} (P : A -> Prop) (ls : list (list A)) l :
  merges ls l -> Forall (Forall P) ls -> Forall P l.
Proof.
  intros Hm Hls. apply list.Forall_forall. intros x Hx.
  destruct (merges_elem _ _ _ Hm Hx) as (t & Ht & Hxt).
  rewrite list.Forall_forall in Hls. specialize (Hls t Ht). rewrite list.Forall_forall in Hls. auto.
Qed.

Section Locking.
Context {F : Foreign} {Bc : Bincode} `{!EqDecision q_SendStream} (s : q_SendStream).

(** ** Critical sections *)

(** The state of a party: outside, or inside with the bytes written so far. An event
    yields the new state and the section it completes; [None] when it needs the lock and
    the party does not hold it, or the other way round. *)
Definition event_section (st : option Bytes) (v : event ev) : option (option Bytes * list Bytes) :=
  match event_lock s (bool_decide (is_Some st)) v with
  | None => None
  | Some held =>
      match st, held with
      | None, false => Some (None, [])
      | None, true => Some (Some [], [])
      | Some b, true => Some (Some (b ++ event_written s v), [])
      | Some b, false => Some (None, [b])
      end
  end.

Fixpoint sections (st : option Bytes) (tr : list (event ev)) : option (option Bytes * list Bytes) :=
  match tr with
  | [] => Some (st, [])
  | v :: tr =>
      match event_section st v with
      | None => None
      | Some (st, out) =>
          match sections st tr with
          | None => None
          | Some (st', secs) => Some (st', out ++ secs)
          end
      end
  end.

(** The mutex: [lock] completes only while nobody holds it. *)
Fixpoint mutex (held : bool) (tr : list (event ev)) : Prop :=
  match tr with
  | [] => True
  | Ev e _ :: tr =>
      match e with
      | LockStream s' =>
          if decide (s' = s) then held = false /\ mutex true tr else mutex held tr
      | UnlockStream s' => if decide (s' = s) then mutex false tr else mutex held tr
      | _ => mutex held tr
      end
  end.

(** Whether an event concerns the stream. *)
Definition concerns (v : event ev) : Prop :=
  match v with
  | Ev e _ =>
      match e with
      | WriteAll s' _ | Finish s' | LockStream s' | UnlockStream s' => s' = s
      | _ => False
      end
  end.

#[export] Instance concerns_dec v : Decision (concerns v).
Proof. destruct v as [T e x]. destruct e; cbn; apply _. Defined.

Lemma unconcerned_section v st : ~ concerns v -> event_section st v = Some (st, []).
Proof.
  intros Hv. destruct v as [T e x]. unfold event_section.
  assert (event_lock s (bool_decide (is_Some st)) (Ev e x) = Some (bool_decide (is_Some st))) as ->
    by (destruct e; cbn in *; try done; by rewrite decide_False).
  assert (event_written s (Ev e x) = []) as ->
    by (destruct e; cbn in *; try done; destruct x; [by rewrite decide_False|done]).
  destruct st; cbn; by rewrite ?app_nil_r.
Qed.

Lemma unconcerned_mutex v held tr : ~ concerns v -> mutex held (v :: tr) <-> mutex held tr.
Proof. destruct v as [T e x]. destruct e; cbn; try done; intros ?; by rewrite decide_False. Qed.

(** An event on the stream: the party takes the free lock, or holds it already. *)
Lemma concerned_section v st m st' out tr :
  concerns v -> event_section st v = Some (st', out) ->
  mutex (bool_decide (is_Some m)) (v :: tr) -> (is_Some st -> m = st) ->
  m = st /\ mutex (bool_decide (is_Some st')) tr.
Proof.
  destruct v as [T e x]. intros Hv Hs Hm Hst.
  destruct e; cbn in Hv; try done; subst; unfold event_section in Hs; cbn in Hs, Hm;
    rewrite decide_True in Hs by done; rewrite ?decide_True in Hm by done;
    destruct st as [b|]; cbn in Hs; simplify_eq;
    try (specialize (Hst ltac:(eauto)); subst m); cbn in Hm |- *; try done.
  destruct m; [by destruct Hm|]. by destruct Hm.
Qed.

(** At most one party is inside. *)
Definition joined (sts : list (option Bytes)) (m : option Bytes) : Prop :=
  omap id sts = option_list m.

Lemma omap_middle (l1 l2 : list (option Bytes)) st :
  omap id (l1 ++ st :: l2) = omap id l1 ++ option_list st ++ omap id l2.
Proof. rewrite omap_app. f_equal. by destruct st. Qed.

Lemma joined_inside l1 st l2 m :
  joined (l1 ++ st :: l2) m -> is_Some st -> m = st.
Proof.
  unfold joined. rewrite omap_middle. intros Hj [b ->]. destruct m as [c|]; cbn in Hj.
  - destruct (omap id l1) as [|? [|]]; by simplify_eq/=.
  - by destruct (omap id l1).
Qed.

Lemma joined_moves l1 st l2 st' : joined (l1 ++ st :: l2) st -> joined (l1 ++ st' :: l2) st'.
Proof.
  unfold joined. rewrite !omap_middle. intros Hj.
  assert (length (omap id l1) = 0 /\ length (omap id l2) = 0) as [H1%nil_length_inv H2%nil_length_inv].
  { apply (f_equal length) in Hj. rewrite !length_app in Hj. lia. }
  rewrite H1, H2. by rewrite app_nil_r.
Qed.

Lemma merges_middle {A} (l1 l2 : list (list A)) out t l :
  merges (l1 ++ t :: l2) l -> merges (l1 ++ (out ++ t) :: l2) (out ++ l).
Proof. intros H. induction out as [|x out IH]; cbn; [done|]. by apply merges_cons. Qed.

(** ** Exclusion *)

(** Disciplined parties, interleaved under the mutex: together they are disciplined, and
    their critical sections are completed one after the other, those of a party in its
    own order. *)
Lemma sections_merge (ps : list (option Bytes * list (event ev))) rs tr m :
  Forall2 (fun p r => sections p.1 p.2 = Some r) ps rs ->
  merges (map snd ps) tr -> joined (map fst ps) m -> mutex (bool_decide (is_Some m)) tr ->
  exists m' secs, sections m tr = Some (m', secs)
    /\ merges (map snd rs) secs /\ joined (map fst rs) m'.
Proof.
  intros Hf Hm. remember (map snd ps) as ls eqn:Hls. revert ps rs m Hls Hf.
  induction Hm as [ls Hls0|k1 v t k2 tr _ IH]; intros ps rs m Hls Hf Hj Hmu.
  - exists m, []. split; [done|]. subst ls.
    assert (map fst rs = map fst ps /\ Forall (fun l => l = []) (map snd rs)) as [-> Hn].
    { clear -Hf Hls0. induction Hf as [|[st t] [st' secs] ps rs Hr _ IH]; [done|].
      apply Forall_cons_1 in Hls0 as [Ht Hls0]. cbn in Ht, Hr. subst t. cbn in Hr. simplify_eq.
      destruct (IH Hls0) as [H1 H2]. cbn. rewrite H1. auto. }
    split; [by constructor|done].
  - symmetry in Hls. apply fmap_app_inv in Hls as (p1 & p2' & Hk1 & Hp2 & ->).
    symmetry in Hp2. apply fmap_cons_inv in Hp2 as ([st t'] & p2 & Ht & Hk2 & ->).
    cbn in Ht. subst t' k1 k2.
    apply Forall2_app_inv_l in Hf as (r1 & r2' & Hf1 & Hf2 & ->).
    apply Forall2_cons_inv_l in Hf2 as ([st' secs] & r2 & Hr & Hf2 & ->). cbn in Hr.
    destruct (event_section st v) as [[st1 out]|] eqn:Ev1; [|done].
    destruct (sections st1 t) as [[st2 secs2]|] eqn:Et; [|done]. simplify_eq.
    rewrite map_app in Hj. cbn in Hj.
    assert (exists m1, event_section m v = Some (m1, out)
      /\ joined (map fst (p1 ++ (st1, t) :: p2)) m1 /\ mutex (bool_decide (is_Some m1)) tr)
      as (m1 & Hm1 & Hj1 & Hmu1).
    { rewrite map_app. cbn. destruct (decide (concerns v)) as [Hv|Hv].
      - destruct (concerned_section _ _ _ _ _ _ Hv Ev1 Hmu) as [-> Hmu1];
          [by eapply joined_inside|].
        exists st1. split_and!; [done|by eapply joined_moves|done].
      - rewrite unconcerned_section in Ev1 by done. simplify_eq. exists m.
        rewrite unconcerned_section by done. apply unconcerned_mutex in Hmu; [|done]. by split_and!. }
    destruct (IH (p1 ++ (st1, t) :: p2) (r1 ++ (st', secs2) :: r2) m1) as (m' & secs & Hs & Hmm & Hj').
    { by rewrite map_app. }
    { apply Forall2_app; [done|]. by constructor. }
    { done. }
    { done. }
    exists m', (out ++ secs). rewrite !map_app in *. cbn in *. rewrite Hm1, Hs.
    split_and!; [done|by apply merges_middle|done].
Qed.

(** ** Sections and what is written *)

Lemma event_section_written st v st' out :
  event_section st v = Some (st', out) ->
  unwrap_or st [] ++ event_written s v = concat out ++ unwrap_or st' [].
Proof.
  destruct v as [T e x]. unfold event_section.
  destruct st as [b|], (event_lock s _ (Ev e x)) as [[]|] eqn:El; intros ?; simplify_eq/=; try done;
    destruct e; cbn in El |- *; try done; try by rewrite !app_nil_r.
  all: destruct (decide (s0 = s)); simplify_eq; try by rewrite !app_nil_r.
  all: by destruct x.
Qed.

(** Everything written is in the completed sections and the open one. *)
Lemma sections_written st tr st' secs :
  sections st tr = Some (st', secs) ->
  unwrap_or st [] ++ written s tr = concat secs ++ unwrap_or st' [].
Proof.
  revert st secs. induction tr as [|v tr IH]; intros st secs; cbn [sections].
  - intros [= <- <-]. by rewrite app_nil_r.
  - destruct (event_section st v) as [[st1 out]|] eqn:Ev1; [|done].
    destruct (sections st1 tr) as [[st2 secs2]|] eqn:Et; [|done]. intros [= -> <-].
    apply event_section_written in Ev1. apply IH in Et.
    change (written s (v :: tr)) with (event_written s v ++ written s tr).
    rewrite app_assoc, Ev1, <- app_assoc, Et, concat_app. by rewrite app_assoc.
Qed.

Lemma sections_app st t1 st1 secs1 t2 st2 secs2 :
  sections st t1 = Some (st1, secs1) -> sections st1 t2 = Some (st2, secs2) ->
  sections st (t1 ++ t2) = Some (st2, secs1 ++ secs2).
Proof.
  revert st secs1. induction t1 as [|v t1 IH]; intros st secs1 H1 H2; cbn in *; [by simplify_eq|].
  destruct (event_section st v) as [[st0 out]|]; [|done].
  destruct (sections st0 t1) as [[st3 secs3]|] eqn:Et; [|done]. simplify_eq.
  by rewrite (IH _ _ Et H2), app_assoc.
Qed.

Lemma sections_outside t :
  Forall (fun v => event_lock s false v = Some false) t -> sections None t = Some (None, []).
Proof.
  induction 1 as [|v t Hv _ IH]; [done|]. cbn [sections]. unfold event_section. cbn.
  by rewrite Hv, IH.
Qed.

Lemma sections_inside b t :
  Forall (fun v => event_lock s true v = Some true) t ->
  sections (Some b) t = Some (Some (b ++ written s t), []).
Proof.
  intros Ht. revert b. induction Ht as [|v t Hv _ IH]; intros b; cbn [sections].
  - by rewrite app_nil_r.
  - unfold event_section. cbn. rewrite Hv, IH.
    change (written s (v :: t)) with (event_written s v ++ written s t). by rewrite app_assoc.
Qed.

(** A reply under the lock is one section. *)
Lemma sections_reply t :
  Forall (fun v => event_lock s true v = Some true) t ->
  sections None ([Ev (LockStream s) tt] ++ t ++ [Ev (UnlockStream s) tt]) = Some (None, [written s t]).
Proof.
  intros Ht. apply (sections_app _ _ (Some []) []).
  - cbn. unfold event_section. cbn. by rewrite decide_True.
  - change [written s t] with ([] ++ [written s t]).
    apply (sections_app _ _ (Some (written s t))); [by apply sections_inside|].
    cbn. unfold event_section. cbn. by rewrite decide_True.
Qed.

(** ** The handler's sections *)

Section Handler.
Context (endpoint : q_Endpoint) (peer_addr : SocketAddr) (tx : MessageTx) (rs : q_RecvStream).

(** The replies to what was read. *)
Definition reply_of (r : Result (option WireMsg) RecvError) (ms : list WireMsg) : Prop :=
  match r with
  | Ok (Some EndpointEchoReq) => ms = [EndpointEchoResp peer_addr]
  | Ok (Some (EndpointVerificationReq _)) => exists b, ms = [EndpointVerificationResp b]
  | _ => ms = []
  end.

Lemma written_under_lock t :
  written s ([Ev (LockStream s) tt] ++ t ++ [Ev (UnlockStream s) tt]) = written s t.
Proof. rewrite !written_app. cbn. by rewrite app_nil_r. Qed.

Lemma dispatch_sections r t res :
  runs (bi_dispatch endpoint peer_addr tx s r) t (Done res) ->
  Forall (event_fresh s rs) t -> Forall write_succeeds t ->
  exists ms, reply_of r ms /\ sections None t = Some (None, map frame_or_nothing ms).
Proof.
  intros Hr Hf Hw. destruct (dispatch_done _ _ _ _ rs _ _ _ Hr Hf) as (_ & _ & Ha & _).
  specialize (Ha Hw).
  destruct r as [[m|]|e]; [destruct m as [|a|a|b|m]| |]; cbn [bi_dispatch] in Hr.
  - apply reply_done in Hr as (r & t' & -> & Hr & _). exists [EndpointEchoResp peer_addr].
    split; [done|]. rewrite written_under_lock in Ha. cbn in Ha |- *. rewrite <- Ha.
    apply sections_reply. by eapply write_keeps.
  - exists []. split; [done|]. apply runs_ret_done in Hr as [-> _]. done.
  - apply reply_done in Hr as (r & t' & -> & Hr & _). rewrite written_under_lock in Ha.
    destruct Ha as [b Ha]. exists [EndpointVerificationResp b]. split; [by exists b|].
    cbn [map]. rewrite <- Ha. apply sections_reply. by eapply verification_keeps.
  - exists []. split; [done|]. apply runs_ret_done in Hr as [-> _]. done.
  - exists []. split; [done|]. eapply sections_outside.
    revert Hr. apply (only_bind (fun v => event_lock s false v = Some false)); [by apply only_call|].
    intros [|]; apply only_ret.
  - exists []. split; [done|]. apply runs_ret_done in Hr as [-> _]. done.
  - exists []. split; [done|]. eapply sections_outside.
    revert Hr. apply (only_bind (fun v => event_lock s false v = Some false)); [by apply only_call|].
    intros a. destruct (_ || _); apply only_ret.
Qed.

(** The handler's sections are its replies, one each, in the order of the requests. *)
Lemma handler_sections tr n n' :
  runs (handle_bi_stream endpoint peer_addr tx s rs) tr (Done tt) -> conforms n tr n' ->
  Forall (event_fresh s rs) tr -> Forall write_succeeds tr ->
  exists k mss, Forall2 reply_of (bi_reads k (n rs)) mss
    /\ sections None tr = Some (None, map frame_or_nothing (concat mss))
    /\ n' rs = bi_left k (n rs)
    /\ (Forall (fun v => ~ event_refused v) tr -> bi_complete k (n rs)).
Proof.
  intros Hr%runs_loop. remember (Done tt) as o eqn:Ho. revert n. set (u := tt) in Hr at 1. clearbody u.
  induction Hr as [u u' t1 t2 o H1 _ IH|u b t H1|u h t H1]; intros n Hc Hf Hw; [| |done].
  - apply runs_bind_done in H1 as (r & t3 & t4 & -> & H3 & H4).
    apply conforms_app in Hc as (n2 & Hc & Hc2). apply conforms_app in Hc as (n1 & Hc3 & Hc4).
    apply Forall_app in Hf as [[_ Hf4]%Forall_app Hf2]. apply Forall_app in Hw as [[_ Hw4]%Forall_app Hw2].
    destruct (dispatch_done _ _ _ _ rs _ _ _ H4 Hf4) as (_ & Hk & _ & Hl). destruct u'.
    destruct (bi_round s _ _ _ _ _ _ _ H3 Hc3 Hc4 Hk) as (-> & Hn & _ & _).
    destruct (dispatch_sections _ _ _ H4 Hf4 Hw4) as (ms & Hms & Hs).
    destruct (IH Ho n2 Hc2 Hf2 Hw2) as (k & mss & Hr & Hss & Hlf & Hcm). rewrite Hn in *.
    exists (S k), (ms :: mss). cbn [bi_reads bi_left]. rewrite Hl. split_and!; [by constructor| |done|].
    2: { intros [_ Hrf]%Forall_app. by apply complete_next, Hcm. }
    cbn [concat]. rewrite map_app. eapply sections_app; [|done].
    change (map frame_or_nothing ms) with ([] ++ map frame_or_nothing ms).
    eapply sections_app; [|done]. apply sections_outside. by eapply (read_keeps s rs false).
  - apply runs_bind_done in H1 as (r & t3 & t4 & -> & H3 & H4).
    apply conforms_app in Hc as (n1 & Hc3 & Hc4).
    apply Forall_app in Hf as [_ Hf4]. apply Forall_app in Hw as [_ Hw4].
    destruct (dispatch_done _ _ _ _ rs _ _ _ H4 Hf4) as (_ & Hk & _ & Hl). destruct b.
    destruct (bi_round s _ _ _ _ _ _ _ H3 Hc3 Hc4 Hk) as (-> & Hn & _ & _).
    destruct (dispatch_sections _ _ _ H4 Hf4 Hw4) as (ms & Hms & Hs).
    exists 1, [ms]. cbn [bi_reads bi_left concat]. rewrite app_nil_r.
    assert (forall b : bool, (if b then [] else []) = @nil (Result (option WireMsg) RecvError)) as Hif
      by (by intros []). rewrite Hif. split_and!; [by repeat constructor| |by destruct (bi_last _)|].
    2: { intros [_ Hrf]%Forall_app. destruct Hl as [Hl|Hl]; [by apply complete_last|].
         apply list.Exists_exists in Hl as (v & Hv & Hr). rewrite list.Forall_forall in Hrf.
         by destruct (Hrf v Hv). }
    change (map frame_or_nothing ms) with ([] ++ map frame_or_nothing ms).
    eapply sections_app; [|done]. apply sections_outside. by eapply (read_keeps s rs false).
Qed.

(** A message that can be sent and is received as such. *)
Definition sendable (m : WireMsg) : Prop := is_Some (frame m) /\ m <> UserMsg [].

(** The bytes of messages sent one after the other. *)
Definition frames_of (ms : list WireMsg) : Bytes := concat (map frame_or_nothing ms).

(** What a party wrote, section by section, as messages. *)
Definition speaks (t : list (event ev)) (turns : list (list WireMsg)) : Prop :=
  sections None t = Some (None, map frames_of turns) /\ Forall (Forall sendable) turns.

(** Parties that speak in whole messages, under the mutex. *)
Lemma turns_merge ts turnss tr :
  Forall2 speaks ts turnss -> merges ts tr -> mutex false tr ->
  exists order, merges turnss order /\ written s tr = frames_of (concat order)
    /\ Forall sendable (concat order).
Proof.
  intros Hf Hm Hmu.
  destruct (sections_merge (map (pair None) ts) (map (fun l => (None, map frames_of l)) turnss) tr None)
    as (m' & secs & Hs & Hmm & Hj).
  { clear -Hf. induction Hf as [|t turns ts turnss [Ht _] _ IH]; constructor; [done|exact IH]. }
  { by rewrite map_map, map_id. }
  { rewrite map_map. unfold joined. cbn. clear. by induction ts. }
  { done. }
  rewrite map_map in Hmm. cbn in Hmm. apply (merges_map_inv frames_of) in Hmm as (order & Ho & ->).
  assert (m' = None) as ->.
  { revert Hj. rewrite map_map. cbn. unfold joined. clear. destruct m'; [|done].
    induction turnss as [|l0 turnss IH]; [done|]. exact IH. }
  apply sections_written in Hs. cbn in Hs. rewrite app_nil_r in Hs.
  exists order. split_and!; [done| |].
  - rewrite Hs. unfold frames_of. clear. induction order as [|ms order IH]; [done|].
    cbn [map concat]. by rewrite map_app, concat_app, IH.
  - apply Forall_concat. eapply merges_forall; [done|].
    clear -Hf. induction Hf as [|t turns ts turnss [_ Ht] _ IH]; by constructor.
Qed.

Lemma frames_decoded `{!BincodeLaws} ms :
  Forall sendable ms ->
  decode_all (S (length ms)) (mkStream (frames_of ms) Finished) = Some (ms, Ok tt).
Proof.
  intros Hs. apply decode_all_frames; [| |lia].
  - induction Hs as [|m ms [[bs Hb] _] _ IH]; cbn; [constructor|]. constructor; [|done].
    unfold frame_or_nothing. by rewrite Hb.
  - revert Hs. apply Forall_impl. by intros m [_ ?].
Qed.

(** ** The users *)

(** A user who got the stream with a message: from time to time it locks the stream, sends
    the messages of one of [turns] with [send_user_msg], all successfully, and unlocks it;
    what it does besides does not concern the stream. *)
Definition user_sends (msg : Bytes) (t : list (event ev)) : Prop :=
  exists u w, t = u ++ w /\ Forall (fun v => ~ concerns v) u
    /\ runs (send_user_msg (mkSendStream s) msg) w (Done (Ok tt)).

Inductive user_runs : list (list Bytes) -> list (event ev) -> Prop :=
| user_idle t : Forall (fun v => ~ concerns v) t -> user_runs [] t
| user_turn t msgs ts turns t' :
    Forall (fun v => ~ concerns v) t -> Forall2 user_sends msgs ts -> user_runs turns t' ->
    user_runs (msgs :: turns)
      (t ++ ([Ev (LockStream s) tt] ++ concat ts ++ [Ev (UnlockStream s) tt]) ++ t').

Lemma unconcerned_lock v held : ~ concerns v -> event_lock s held v = Some held.
Proof. destruct v as [T e x]. destruct e; cbn; try done; intros ?; by rewrite decide_False. Qed.

Lemma unconcerned_written t : Forall (fun v => ~ concerns v) t -> written s t = [].
Proof.
  induction 1 as [|[T e x] t Hv _ IH]; [done|].
  change (Ev e x :: t) with ([Ev e x] ++ t). rewrite written_app, IH, app_nil_r.
  destruct e; try done. by apply written_write_other.
Qed.

Lemma user_sends_ok msgs ts :
  Forall2 user_sends msgs ts ->
  Forall (fun v => event_lock s true v = Some true) (concat ts)
  /\ written s (concat ts) = frames_of (map UserMsg msgs)
  /\ Forall (fun m => is_Some (frame m)) (map UserMsg msgs).
Proof.
  induction 1 as [|m t msgs ts (u & w & -> & Hu & Hr) _ (IH1 & IH2 & IH3)]; [by repeat constructor|].
  cbn [concat]. unfold send_user_msg in Hr. cbn [ss_inner] in Hr. split_and!.
  - apply Forall_app. split; [|done]. apply Forall_app. split; [|by eapply write_keeps].
    revert Hu. apply Forall_impl. intros v. apply unconcerned_lock.
  - rewrite !written_app, (unconcerned_written _ Hu), IH2.
    apply write_frames in Hr as [_ Hr]. unfold frames_of. cbn [map concat]. unfold frame_or_nothing at 2.
    destruct (frame (UserMsg m)); [|by destruct Hr as [_ [? ?]]]. destruct Hr as (_ & Hr & _).
    by rewrite Hr.
  - constructor; [|done]. apply write_frames in Hr as [_ Hr].
    destruct (frame (UserMsg m)); [done|by destruct Hr as [_ [? ?]]].
Qed.

(** A user speaks in whole messages. *)
Lemma user_speaks turns t :
  user_runs turns t -> Forall (Forall (fun m => m <> [])) turns ->
  speaks t (map (map UserMsg) turns).
Proof.
  assert (forall t, Forall (fun v => ~ concerns v) t -> sections None t = Some (None, [])) as Hout.
  { intros t' Ht. apply sections_outside. revert Ht. apply Forall_impl.
    intros v. apply unconcerned_lock. }
  induction 1 as [t Ht|t msgs ts turns t' Ht Hs _ IH]; intros Hne; [by split; [apply Hout|]|].
  apply Forall_cons_1 in Hne as [Hm Hne]. destruct (IH Hne) as [IHs IHf].
  destruct (user_sends_ok _ _ Hs) as (Hk & Hw & Hf). split.
  - apply (sections_app _ _ None []); [by apply Hout|].
    apply (sections_app _ _ None [frames_of (map UserMsg msgs)] t' None _); [|exact IHs].
    rewrite <- Hw. by apply sections_reply.
  - constructor; [|done]. apply Forall_map. apply (Forall_map UserMsg) in Hf.
    rewrite list.Forall_forall in *. intros m Hin. split; [by apply Hf|].
    intros [= ->]. by apply (Hm []).
Qed.

(** C7: the handler of a stream, which has returned, and the users to whom it gave the
    stream, who lock it and send non-empty messages on it, interleave in any way the lock
    allows, and all writes succeed. On the stream there are whole frames: a peer that reads
    it gets the handler's replies to the requests it read, in the order of the requests,
    and the messages of the users, each user's in its order and those of one turn of the
    lock together. The requests are those that lead from what the stream held to what the
    handler left of it, and all there are unless the channel refused an item. *)
Theorem shared_stream_whole `{!BincodeLaws} th n n' ts turnss tr :
  runs (handle_bi_stream endpoint peer_addr tx s rs) th (Done tt) -> conforms n th n' ->
  Forall (event_fresh s rs) th -> Forall write_succeeds th ->
  sendable (EndpointEchoResp peer_addr) -> (forall b, sendable (EndpointVerificationResp b)) ->
  Forall2 user_runs turnss ts -> Forall (Forall (Forall (fun m => m <> []))) turnss ->
  merges (th :: ts) tr -> mutex false tr ->
  exists k replies order,
    n' rs = bi_left k (n rs)
    /\ (Forall (fun v => ~ event_refused v) th -> bi_complete k (n rs))
    /\ Forall2 reply_of (bi_reads k (n rs)) replies
    /\ merges (map (fun m => [m]) (concat replies) :: map (map (map UserMsg)) turnss) order
    /\ decode_all (S (length (concat order))) (mkStream (written s tr) Finished)
       = Some (concat order, Ok tt).
Proof.
  intros Hr Hc Hf Hw He Hv Hus Hne Hm Hmu.
  destruct (handler_sections _ _ _ Hr Hc Hf Hw) as (k & replies & Hrep & Hs & Hlf & Hcm).
  assert (Forall2 speaks ts (map (map (map UserMsg)) turnss)) as Hts.
  { clear -Hus Hne. induction Hus as [|turns t turnss ts Hu _ IH]; [constructor|].
    apply Forall_cons_1 in Hne as [Hn Hne]. constructor; [by apply user_speaks|by apply IH]. }
  assert (speaks th (map (fun m => [m]) (concat replies))) as Hth.
  { split.
    - rewrite Hs, map_map. do 2 f_equal. apply map_ext. intros m. unfold frames_of. cbn.
      by rewrite app_nil_r.
    - apply Forall_map, Forall_concat. clear -Hrep He Hv.
      induction Hrep as [|r ms l mss Hr _ IH]; constructor; [|done].
      destruct r as [[[]|]|]; cbn in Hr; subst; try (destruct Hr as [b ->]); repeat constructor; auto;
        apply Hv || apply He. }
  destruct (turns_merge (th :: ts) _ tr (List.Forall2_cons _ _ Hth Hts) Hm Hmu)
    as (order & Ho & Hwr & Hsend).
  exists k, replies, order. split_and!; [done..|]. rewrite Hwr. by apply frames_decoded.
Qed.

End Handler.
End Locking.
