(* ===== verification/System.v ===== *)
(** * The crate at work: threads, background tasks and the network between them

    A process runs its users' programs and the tasks they spawn, which spawn further
    tasks. [system] is the meaning of such a process, or of several that communicate: its
    events are those of all threads, and a task begins after the event that spawned it.
    [network] states what quinn and tokio promise of such a trace: channels deliver what
    was sent, a stream delivers a part of what was written at its other end, and handles
    are distinct. *)

From Stdlib Require Import Strings.Byte.
From S2P Require Import Prelude Std Foreign WireTypes Errors ConfigTypes Prog Effects.
From S2P Require Import Wire StreamSpec Config Connection Incoming Igd Endpoint.

Section System.
Context {F : Foreign} {Bc : Bincode} {Bo : Backoff} `{!EqDecision q_SendStream}.

(** ** Threads *)

Definition event_spawned (v : event ev) : list task :=
  match v with
  | Ev e _ => match e with Spawn t => [t] | _ => [] end
  end.

Definition spawned (tr : list (event ev)) : list task := concat (map event_spawned tr).

(** The traces of a background task, at any moment and in any state. *)
Definition task_runs_to (t : task) (tr : list (event ev)) : Prop :=
  match t with
  | ListenOnUniStreams _ s _ tx => exists o, runs (listen_on_uni_streams s tx) tr o
  | ListenOnBiStreams ep peer s _ tx => exists st, bi_listener ep peer s tx tr st
  | ListenForIncomingConnections inc tx ep cfg =>
      exists o, runs (accept_connections inc tx ep cfg) tr o
  | RenewPortPeriodically port a d d32 rx =>
      exists o, runs (renew_port_periodically port a d d32 rx) tr o
  end.

Context (n : q_RecvStream -> stream).

(** A thread reads from its streams what they hold. *)
Definition reads_truly (tr : list (event ev)) : Prop := exists n', conforms n tr n'.

Definition task_trace (t : task) (tr : list (event ev)) : Prop :=
  task_runs_to t tr /\ reads_truly tr.

(** [system ts g]: threads that are still to perform [ts], with the tasks that they
    spawn, perform [g] together. *)
Inductive system : list (list (event ev)) -> list (event ev) -> Prop :=
| system_end ts : Forall (fun t => t = []) ts -> system ts []
| system_step ts1 v t ts2 new g :
    Forall2 task_trace (event_spawned v) new ->
    system (ts1 ++ t :: ts2 ++ new) g -> system (ts1 ++ (v :: t) :: ts2) (v :: g).

(** ** What the network and the channels promise *)

Definition event_channels (v : event ev) : list (MessageTx * MessageRx) :=
  match v with
  | Ev e x =>
      match e in ev T return T -> _ with
      | NewMessageChannel _ => fun a => [a]
      | _ => fun _ => []
      end x
  end.

Definition channels (tr : list (event ev)) := concat (map event_channels tr).

(** The sending halves of streams that are handed out. *)
Definition event_send_streams (v : event ev) : list q_SendStream :=
  match v with
  | Ev e x =>
      match e in ev T return T -> list q_SendStream with
      | OpenUni _ => fun a => match a with Ok s => [s] | Err _ => [] end
      | OpenBi _ => fun a => match a with Ok p => [p.1] | Err _ => [] end
      | NextBi _ => fun a => match a with Some (Ok p) => [p.1] | _ => [] end
      | _ => fun _ => []
      end x
  end.

Definition send_streams (tr : list (event ev)) := concat (map event_send_streams tr).

(** The receiving halves. *)
Definition event_recv_streams (v : event ev) : list q_RecvStream :=
  match v with
  | Ev e x =>
      match e in ev T return T -> list q_RecvStream with
      | OpenBi _ => fun a => match a with Ok p => [p.2] | Err _ => [] end
      | NextBi _ => fun a => match a with Some (Ok p) => [p.2] | _ => [] end
      | NextUni _ => fun a => match a with Some (Ok r) => [r] | _ => [] end
      | _ => fun _ => []
      end x
  end.

Definition recv_streams (tr : list (event ev)) := concat (map event_recv_streams tr).

(** The connection that was established with these handles is [c]. *)
Definition own_uni (g : list (event ev)) (c : q_Connection) (us : q_IncomingUniStreams) : Prop :=
  exists k nc, Ev (AwaitConnecting k) (Ok nc) ∈ g /\ nc_connection nc = c /\ nc_uni_streams nc = us.

Definition own_bi (g : list (event ev)) (c : q_Connection) (bs : q_IncomingBiStreams) : Prop :=
  exists k nc, Ev (AwaitConnecting k) (Ok nc) ∈ g /\ nc_connection nc = c /\ nc_bi_streams nc = bs.

(** The receiver [r] gets a part of what is written on [s]. *)
Definition feeds (g : list (event ev)) (s : q_SendStream) (r : q_RecvStream) : Prop :=
  content (n r) `prefix_of` written s g.

Record network (g : list (event ev)) : Prop := mkNetwork
  { (** An item that is taken from a channel was put there before. *)
    net_channel : forall g1 rx item g2, g = g1 ++ Ev (RecvMessage rx) (Some item) :: g2 ->
      exists cap tx, Ev (NewMessageChannel cap) (tx, rx) ∈ g1
        /\ Ev (SendMessage tx item) (Ok tt) ∈ g1;
    net_senders : NoDup (map fst (channels g));
    net_receivers : NoDup (map snd (channels g));
    (** A unidirectional stream is accepted at the end where it was not opened. *)
    net_uni : forall us r, Ev (NextUni us) (Some (Ok r)) ∈ g ->
      exists c s, Ev (OpenUni c) (Ok s) ∈ g /\ ~ own_uni g c us /\ feeds g s r;
    (** So is a bidirectional one, after it was opened; *)
    net_bi : forall g1 bs s' r' g2, g = g1 ++ Ev (NextBi bs) (Some (Ok (s', r'))) :: g2 ->
      exists c s r, Ev (OpenBi c) (Ok (s, r)) ∈ g1 /\ feeds g s r';
    (** what is read where it was opened was written where it was accepted. *)
    net_answer : forall c s r, Ev (OpenBi c) (Ok (s, r)) ∈ g ->
      content (n r) = []
      \/ exists bs s' r', Ev (NextBi bs) (Some (Ok (s', r'))) ∈ g /\ ~ own_bi g c bs
           /\ feeds g s' r;
    net_send_streams : NoDup (send_streams g);
    net_recv_streams : NoDup (recv_streams g) }.

(** No address is translated on the way: the remote address of an incoming connection is
    the local address of an endpoint that connects. *)
Definition direct (g : list (event ev)) : Prop :=
  forall inc k nc a, Ev (NextIncoming inc) (Some k) ∈ g -> Ev (AwaitConnecting k) (Ok nc) ∈ g ->
    Ev (RemoteAddress (nc_connection nc)) a ∈ g ->
    exists ep dst name k', Ev (Connect ep dst name) (Ok k') ∈ g
      /\ forall a', Ev (EndpointLocalAddr ep) (Ok a') ∈ g -> a' = a.

(** A connection that is taken from an endpoint's channel was put there before. *)
Definition handed_over (g : list (event ev)) : Prop :=
  forall g1 rx c g2, g = g1 ++ Ev (RecvConnection rx) (Some c) :: g2 ->
    exists cap tx, Ev (NewConnectionChannel cap) (tx, rx) ∈ g1
      /\ Ev (SendConnection tx c) true ∈ g1.

(** No channel of messages comes to its end: its connection lasts. *)
Definition event_lasting (v : event ev) : Prop :=
  match v with
  | Ev e x =>
      match e in ev T return T -> Prop with
      | RecvMessage _ => fun a => is_Some a
      | _ => fun _ => True
      end x
  end.

(** The certificates that are generated can be serialized. *)
Definition event_certified (v : event ev) : Prop :=
  match v with
  | Ev e x =>
      match e in ev T return T -> Prop with
      | GenerateSimpleSelfSigned _ => fun a =>
          match a with Ok c => is_ok (serialize_der c) = true | Err _ => True end
      | _ => fun _ => True
      end x
  end.

(** Every connection is lost to an idle timeout before anything is done with it. *)
Definition event_idle (v : event ev) : Prop :=
  match v with
  | Ev e x =>
      match e in ev T return T -> Prop with
      | OpenUni _ => fun a => a = Err q_TimedOut
      | OpenBi _ => fun a => a = Err q_TimedOut
      | NextUni _ => fun a => a = Some (Err q_TimedOut)
      | NextBi _ => fun a => a = Some (Err q_TimedOut)
      | _ => fun _ => True
      end x
  end.

End System.
