(* ===== verification/SystemFacts.v ===== *)
(** * Reasoning about systems

    The threads of a system are found again in its trace ([system_threads]); a stream is
    written only by the thread that got it ([written_owner]); and what the listeners of a
    connection do as threads. *)

From Stdlib Require Import Strings.Byte.
From S2P Require Import Prelude Std Foreign WireTypes Errors ConfigTypes Prog ProgFacts Effects.
From S2P Require Import Wire StreamSpec WireFacts Framing Config Connection Incoming Igd Endpoint.
From S2P Require Import UniListener Verification BiListener BiStreams Delivery System.

Section SystemFacts.
Context {F : Foreign} {Bc : Bincode} {Bo : Backoff}.
Context `{!EqDecision q_SendStream, !EqDecision q_RecvStream}.

(** ** Threads *)

Lemma zip_tasks (R : task -> list (event ev) -> Prop) (K : task -> Prop) l k :
  Forall2 R l k -> Forall K l ->
  Forall (fun x => K x.1 /\ R x.1 x.2) (zip l k) /\ map snd (zip l k) = k.
Proof.
  induction 1 as [|a b l k Hab _ IH]; intros Hl; [by repeat constructor|].
  apply Forall_cons_1 in Hl as [Ha Hl]. destruct (IH Hl) as [H1 H2].
  split; [by constructor|]. cbn. by f_equal.
Qed.

(** The tasks of a system: those that the initial threads spawn and, as far as [K] allows
    them, what these spawn. *)
Lemma system_threads n (K : task -> Prop) ts g :
  (forall t tr, K t -> task_trace n t tr -> Forall K (spawned tr)) ->
  system n ts g -> Forall (fun t => Forall K (spawned t)) ts ->
  exists sp, merges (ts ++ map snd sp) g
    /\ Forall (fun x => (K x.1 /\ x.1 ∈ spawned g) /\ task_trace n x.1 x.2) sp.
Proof.
  intros HK. induction 1 as [ts Hts|ts1 v t ts2 new g Hnew _ IH]; intros Hs.
  - exists []. rewrite app_nil_r. split; [by constructor|constructor].
  - assert (Forall (fun x => K x.1 /\ task_trace n x.1 x.2) (zip (event_spawned v) new)
      /\ map snd (zip (event_spawned v) new) = new) as [Hz Hnz].
    { apply Forall_app in Hs as [_ Hs]. apply Forall_cons_1 in Hs as [Hs _].
      assert (Forall K (event_spawned v)) as Hv.
      { unfold spawned in Hs. cbn in Hs. by apply Forall_app in Hs as [? _]. }
      by apply zip_tasks. }
    destruct IH as (sp & Hm & Hsp).
    { apply Forall_app in Hs as [Hs1 Hs]. apply Forall_cons_1 in Hs as [Ht Hs2].
      apply Forall_app. split; [done|]. constructor.
      - unfold spawned in *. cbn in Ht. by apply Forall_app in Ht as [_ ?].
      - apply Forall_app. split; [done|]. rewrite <- Hnz. apply Forall_map. revert Hz.
        apply Forall_impl. intros [u tr] [Hk Htr]. by eapply HK. }
    exists (zip (event_spawned v) new ++ sp). split.
    2: { apply Forall_app. split.
         - apply list.Forall_forall. intros [u tr] Hx. pose proof (elem_of_zip_l _ _ _ _ Hx) as Hu.
           rewrite list.Forall_forall in Hz. destruct (Hz _ Hx). split_and!; [done| |done].
           apply elem_of_app. by left.
         - revert Hsp. apply Forall_impl. intros y [[? ?] ?]. split_and!; [done| |done].
           apply elem_of_app. by right. }
    rewrite map_app, Hnz. rewrite <- !app_assoc in *. cbn [app] in *. rewrite <- app_assoc in *.
    by apply (merges_cons ts1 v t (ts2 ++ new ++ map snd sp)).
Qed.

(** An event of an interleaving, in its thread. *)
Lemma merges_split {A} (ls : list (list A)) l l1 v l2 :
  merges ls l -> l = l1 ++ v :: l2 ->
  exists i t1 t2, ls !! i = Some (t1 ++ v :: t2) /\ t1 ⊆ l1.
Proof.
  intros Hm. revert l1. induction Hm as [ls Hls|k1 x t k2 l _ IH]; intros l1 Hl; [by destruct l1|].
  destruct l1 as [|y l1]; simplify_list_eq.
  - exists (length k1), [], t. split; [by apply list_lookup_middle|set_solver].
  - destruct (IH l1 eq_refl) as (i & t1 & t2 & Hi & Hsub). destruct (decide (i = length k1)) as [->|Hne].
    + rewrite list_lookup_middle in Hi by done. injection Hi as ->.
      exists (length k1), (y :: t1), t2. split; [by apply list_lookup_middle|set_solver].
    + exists i, t1, t2. rewrite (lookup_middle_ne _ _ _ t) by done. split; [done|set_solver].
Qed.

Lemma event_thread {A} (ls : list (list A)) l t v : merges ls l -> t ∈ ls -> v ∈ t -> v ∈ l.
Proof. intros Hm Ht Hv. eapply sublist_subseteq; [by eapply merges_sublist|done]. Qed.

(** The events of a thread are events of the system. *)
Lemma system_user n t ts g v : system n ts g -> t ∈ ts -> v ∈ t -> v ∈ g.
Proof.
  intros Hs Ht. destruct (system_threads n (fun _ => True) ts g) as (sp & Hm & _).
  - intros. by apply Forall_true.
  - done.
  - apply Forall_true. intros. by apply Forall_true.
  - eapply event_thread; [exact Hm|]. apply elem_of_app. by left.
Qed.

(** ** The owner of a stream *)

(** A thread that writes only on streams it got. *)
Definition writes_own (tr : list (event ev)) : Prop :=
  forall s, s ∉ send_streams tr -> written s tr = [].

(** What is written on a stream that only one thread writes. *)
Lemma written_single ts g i t s :
  merges ts g -> ts !! i = Some t ->
  (forall j u, j <> i -> ts !! j = Some u -> written s u = []) -> written s g = written s t.
Proof.
  intros Hm Ht Ho. apply (merges_single _ _ i _ (merges_flat_map (event_written s) _ _ Hm)).
  - by rewrite list_lookup_fmap, Ht.
  - intros j u Hj Hu. rewrite list_lookup_fmap in Hu. destruct (ts !! j) as [t'|] eqn:Ht'; [|done].
    injection Hu as <-. by eapply Ho.
Qed.

Lemma written_owner ts g i t s :
  merges ts g -> NoDup (send_streams g) -> Forall writes_own ts ->
  ts !! i = Some t -> s ∈ send_streams t -> written s g = written s t.
Proof.
  intros Hm Hnd Hw Ht Hs. eapply written_single; [done..|]. intros j u Hj Hu.
  rewrite Forall_lookup in Hw. apply (Hw _ _ Hu). intros Hs'. apply Hj.
  assert (NoDup (concat (map send_streams ts))) as Hc.
  { rewrite <- (merges_permutation _ _ (merges_flat_map event_send_streams _ _ Hm)). exact Hnd. }
  eapply (nodup_concat_unique _ _ _ _ _ _ Hc); [rewrite list_lookup_fmap, Hu; done
    |rewrite list_lookup_fmap, Ht; done|done|done].
Qed.

Lemma nodup_thread {B} (f : event ev -> list B) ts g t :
  merges ts g -> NoDup (concat (map f g)) -> t ∈ ts -> NoDup (concat (map f t)).
Proof.
  intros Hm Hnd Ht. eapply sublist_NoDup; [exact Hnd|].
  eapply merges_sublist; [by apply merges_flat_map|]. apply list_elem_of_fmap. eauto.
Qed.

(** ** The accept loop as a thread *)

Definition is_listener (x : task) : Prop :=
  match x with ListenOnUniStreams _ _ _ _ | ListenOnBiStreams _ _ _ _ _ => True | _ => False end.

Definition accept_event (inc : q_Incoming) (tx : ConnectionTx) (v : event ev) : Prop :=
  match v with
  | Ev e x =>
      match e with
      | NextIncoming inc' => inc' = inc
      | AwaitConnecting _ | NewAliveChannel | RemoteAddress _ | NewMessageChannel _ => True
      | Spawn t => is_listener t
      | SendConnection tx' _ => tx' = tx
      | _ => False
      end
  end.

Lemma accept_thread inc tx ep cfg : only (accept_event inc tx) (accept_connections inc tx ep cfg).
Proof.
  unfold accept_connections, accept_step, Connection_new, ConnectionIncoming_new,
    start_message_listeners.
  repeat (only_step || done).
Qed.

(** ** The listener for unidirectional streams as a thread *)

Definition uni_event (us : q_IncomingUniStreams) (tx : MessageTx) (v : event ev) : Prop :=
  match v with
  | Ev e x =>
      match e with
      | NextUni us' => us' = us
      | SendMessage tx' _ => tx' = tx
      | Read _ _ | ReadExact _ _ => True
      | _ => False
      end
  end.

Lemma uni_thread us tx : only (uni_event us tx) (listen_on_uni_streams us tx).
Proof.
  unfold listen_on_uni_streams, uni_step, uni_messages_next, uni_next_step, uni_report, user_msg_or_end,
    read_from_stream, read_data, read_header_rest.
  repeat (only_step || done).
Qed.

Lemma sent_is_reported tx item a tr : Ev (SendMessage tx item) a ∈ tr -> item ∈ reported tr.
Proof. intros Hv. apply elem_of_flat. eexists. split; [exact Hv|by left]. Qed.

(** A message it puts on the channel comes out of a stream it accepted. *)
Lemma uni_thread_message n us tx tr o m st a tx' :
  runs (listen_on_uni_streams us tx) tr o -> reads_truly n tr -> NoDup (recv_streams tr) ->
  Ev (SendMessage tx' (Ok (m, st))) a ∈ tr ->
  tx' = tx /\ exists r, Ev (NextUni us) (Some (Ok r)) ∈ tr /\ Ok m ∈ items (n r).
Proof.
  intros Hr [n' Hc] Hnd Hv. pose proof (uni_thread _ _ _ _ Hr) as Ho. rewrite list.Forall_forall in Ho.
  split; [apply (Ho _ Hv)|]. apply sent_is_reported in Hv. apply runs_loop in Hr.
  assert (forall r, r ∈ streams_of (accepted tr) -> Ev (NextUni us) (Some (Ok r)) ∈ tr) as Hacc.
  { intros r Hin. apply elem_of_flat in Hin as (x & Hx & Hin).
    apply elem_of_flat in Hx as ([T e y] & Hv' & Hx). specialize (Ho _ Hv').
    destruct e; try done; try (by apply not_elem_of_nil in Hx). cbn in Ho, Hx. apply list_elem_of_singleton in Hx as ->. subst.
    destruct y as [[r'|]|]; cbn in Hin; [|by apply not_elem_of_nil in Hin..].
    by apply list_elem_of_singleton in Hin as ->. }
  destruct (uni_listener_from _ _ None _ _ _ _ Hr Hc) as [[k Hp] _].
  { cbn [option_list app]. revert Hnd. clear -Ho. intros Hnd.
    assert (streams_of (accepted tr) = recv_streams tr) as ->; [|done]. clear Hnd.
    induction tr as [|[T e x] tr IH]; [done|].
    assert (streams_of (accepted tr) = recv_streams tr) as IH'.
    { apply IH. intros v Hv. apply Ho. by right. }
    specialize (Ho (Ev e x) (list_elem_of_here _ _)). change (Ev e x :: tr) with ([Ev e x] ++ tr).
    rewrite accepted_app, streams_of_app, IH'. unfold recv_streams. rewrite flat_app.
    f_equal. by destruct e; try done; destruct x as [[r|]|]. }
  cbn [uni_spec_from] in Hp.
  assert (Ok (m, st) ∈ map uni_item (uni_spec n (accepted tr))) as Hi
    by (rewrite Hp; apply elem_of_app; by left).
  apply list_elem_of_fmap in Hi as ([m'|e] & Hu & Hi); cbn in Hu; simplify_eq.
  apply uni_spec_origin in Hi as (r & Hr' & Hi). eauto.
Qed.

(** ** The listener for bidirectional streams as a thread *)

Definition bi_event (bs : q_IncomingBiStreams) (tx : MessageTx) (v : event ev) : Prop :=
  match v with
  | Ev e x =>
      match e with
      | NextBi bs' => bs' = bs
      | SendMessage tx' _ => tx' = tx
      | Read _ _ | ReadExact _ _ | WriteAll _ _ | LockStream _ | UnlockStream _ => True
      | Connect _ _ _ | AwaitConnecting _ | OpenBi _ => True
      | _ => False
      end
  end.

(** Its accepting events, up to one whose handler has not started. *)
Lemma accepts_starts bs tr ps o :
  accepts bs tr ps o ->
  exists extra, List.filter accepts_stream tr = map (fun p => Ev (NextBi bs) (Some (Ok p))) ps ++ extra
    /\ Forall (fun v => exists a, v = Ev (NextBi bs) a) tr.
Proof.
  assert (forall t o, runs (bi_streams_next bs) t o ->
    Forall (fun v => exists a, v = Ev (NextBi bs) a) t) as Hn.
  { intros t o' [[-> _]|(a & -> & _)]%bi_next_runs; repeat constructor. by exists a. }
  induction 1 as [t t' p ps o H1 _ (extra & IH & IHn)|t H1|t e H1|t h H1].
  - pose proof (Hn _ _ H1) as Ht. apply bi_next_runs in H1 as [[_ ?]|(a & -> & [Ha|?])]; [done| |done].
    injection Ha as Ha. exists extra. split; [|by apply Forall_app].
    assert (a = Some (Ok p)) as ->; [|by cbn; rewrite IH].
    destruct a as [[q|e]|]; cbn in Ha; [by simplify_eq| |done]. by destruct (is_benign _).
  - exists (List.filter accepts_stream t). split; [done|by eapply Hn].
  - exists (List.filter accepts_stream t). split; [done|by eapply Hn].
  - exists (List.filter accepts_stream t). split; [done|by eapply Hn].
Qed.

(** A handler of the stream [p], reading truly and opening other streams. *)
Definition handler_trace n ep peer tx (p : q_SendStream * q_RecvStream) (h : list (event ev)) : Prop :=
  (exists o, runs (handle_bi_stream ep peer tx p.1 p.2) h o)
  /\ reads_truly n h /\ Forall (event_fresh p.1 p.2) h.

Section BiThread.
Context (n : q_RecvStream -> stream) (ep : q_Endpoint) (peer : SocketAddr).
Context (bs : q_IncomingBiStreams) (tx : MessageTx).

Lemma handler_events s rs : only (bi_event bs tx) (handle_bi_stream ep peer tx s rs).
Proof.
  assert (ensures (fun _ => True) (bi_event bs tx) (handle_bi_stream ep peer tx s rs) (fun _ => True)) as He.
  { apply handler_ensures; try done. intros addr. by apply verify_ensures. }
  intros tr o Hr. apply (He tr o Hr). by apply list.Forall_forall.
Qed.

(** It writes on its own stream and on those it opened. *)
Lemma handler_writes s rs tr o s' :
  runs (handle_bi_stream ep peer tx s rs) tr o ->
  s' ∉ s :: map fst (bi_opened tr) -> written s' tr = [].
Proof.
  intros Hr Hs. set (O := map fst (bi_opened tr)) in Hs.
  assert (Forall (fun v => forall p, p ∈ event_opened v -> p.1 ∈ O) tr) as HP.
  { apply list.Forall_forall. intros v Hv p Hp. apply list_elem_of_fmap. exists p. split; [done|].
    apply elem_of_flat. eauto. }
  assert (ensures (fun v => forall p, p ∈ event_opened v -> p.1 ∈ O)
    (fun v => event_written s' v = []) (handle_bi_stream ep peer tx s rs) (fun _ => True)) as He.
  { apply handler_ensures; try done.
    - intros addr. apply verify_ensures; try done. intros c s1 rs1 Hp.
      assert (s1 <> s') as Hne by (intros ->; apply Hs; right; by apply (Hp (s', rs1)); left).
      split_and!; try done. intros data [u|e]; cbn; [by rewrite decide_False|done].
    - intros data [u|e]; cbn; [|done]. rewrite decide_False; [done|]. intros ->. apply Hs. by left. }
  apply flat_nil. by apply (He tr o Hr).
Qed.

Lemma bi_streams_of tr :
  Forall (bi_event bs tx) tr ->
  send_streams tr ≡ₚ map fst (bi_accepted tr) ++ map fst (bi_opened tr)
  /\ recv_streams tr ≡ₚ map snd (bi_accepted tr) ++ map snd (bi_opened tr).
Proof.
  induction 1 as [|v tr Hv _ [IH1 IH2]]; [done|].
  unfold send_streams, recv_streams, bi_accepted, bi_opened in *. cbn [map concat].
  rewrite !map_app, IH1, IH2. clear IH1 IH2. destruct v as [T e x].
  destruct e; try done; cbn.
  - destruct x as [p|]; cbn; [|done]. by rewrite <- !Permutation_middle.
  - destruct x as [[p|]|]; done.
Qed.

(** The parts of a run of the listener. *)
Record parts tr tr0 (ps : list (q_SendStream * q_RecvStream)) (hs : list (list (event ev))) := mkParts
  { part_nodup : NoDup (map fst (bi_accepted tr) ++ map fst (bi_opened tr));
    part_accepted : ps `prefix_of` bi_accepted tr;
    part_handlers : Forall2 (handler_trace n ep peer tx) ps hs;
    part_starts : exists extra,
      List.filter accepts_stream tr0 = map (fun p => Ev (NextBi bs) (Some (Ok p))) ps ++ extra;
    part_outer : Forall (fun v => exists a, v = Ev (NextBi bs) a) tr0;
    part_merge : spawns accepts_stream tr0 hs [] tr }.

Lemma bi_thread_events tr st : bi_listener ep peer bs tx tr st -> Forall (bi_event bs tx) tr.
Proof.
  intros (tr0 & ps & o & hs & Ha & Hh & Hm%spawns_merges & _). cbn [app] in Hm.
  apply list.Forall_forall. intros v Hv.
  destruct (merges_elem _ _ _ Hm Hv) as (t & [->|Ht]%elem_of_cons & Hvt).
  - apply accepts_starts in Ha as (_ & _ & Ha). rewrite list.Forall_forall in Ha.
    by destruct (Ha v Hvt) as [a ->].
  - apply list_elem_of_fmap in Ht as (h & -> & Hin).
    destruct (Forall2_elem_r _ _ _ _ Hh Hin) as (p & _ & Hr).
    apply handler_events in Hr. rewrite list.Forall_forall in Hr. by apply Hr.
Qed.

Lemma bi_thread_parts tr st :
  bi_listener ep peer bs tx tr st -> reads_truly n tr ->
  NoDup (send_streams tr) -> NoDup (recv_streams tr) -> exists tr0 ps hs, parts tr tr0 ps hs.
Proof.
  intros Hb [n' Hc] Hn1 Hn2. pose proof (bi_thread_events _ _ Hb) as He.
  destruct Hb as (tr0 & ps & o & hs & Ha & Hh & Hsp & _).
  pose proof (spawns_merges _ _ _ _ _ Hsp) as Hm. cbn [app] in Hm.
  destruct (bi_streams_of tr He) as [Hp1 Hp2]. rewrite Hp1 in Hn1. rewrite Hp2 in Hn2.
  destruct (accepts_starts _ _ _ _ Ha) as (extra & Hex & Hout).
  apply accepts_shape in Ha as [(_ & Hop & Hrd) Hacc].
  rewrite (accepted_merge _ _ _ _ _ _ _ Hh Hm) in *.
  assert (ps `prefix_of` bi_accepted tr0) as Hpre
    by (destruct Hacc as [->|(p & h & -> & _)]; [done|by apply prefix_app_r]).
  assert (forall A (f : q_SendStream * q_RecvStream -> A),
    NoDup (map f (bi_accepted tr0) ++ map f (bi_opened tr)) ->
    NoDup (map f ps ++ map f (bi_opened tr))) as Hnd.
  { intros A f Hnd. eapply sublist_NoDup; [exact Hnd|]. apply sublist_app; [|done].
    destruct Hpre as [k ->]. rewrite map_app. by apply sublist_inserts_r. }
  exists tr0, ps, (map fst hs).
  split; rewrite ?(accepted_merge _ _ _ _ _ _ _ Hh Hm); [done|done| |by exists extra|done|done].
  apply Forall2_fmap_r, Forall2_same_length_lookup. split; [by eapply Forall2_length|].
  intros i p h Hp Hi. split_and!.
  - exists h.2. by apply (Forall2_lookup_lr _ _ _ _ _ _ Hh Hp Hi).
  - eapply conforms_parts with (i := S i); [exact Hm|exact Hc| |].
    + by apply (parts_apart _ _ _ _ _ _ _ Hh Hm Hrd Hop), Hnd.
    + change ((fst <$> hs) !! i = Some h.1). by rewrite list_lookup_fmap, Hi.
  - eapply handlers_fresh; [exact Hm|exact Hop|by apply Hnd|by apply Hnd|exact Hp|exact Hi].
Qed.

(** An event of a handler follows the event that accepted its stream. *)
Lemma handler_after_accept tr tr0 ps hs t1 v t2 :
  parts tr tr0 ps hs -> tr = t1 ++ v :: t2 ->
  (exists a, v = Ev (NextBi bs) a)
  \/ exists p h, Ev (NextBi bs) (Some (Ok p)) ∈ t1 /\ handler_trace n ep peer tx p h /\ v ∈ h.
Proof.
  intros [_ _ Hh [extra Hex] Hout Hsp] Ht.
  destruct (spawns_origin _ _ _ _ _ _ _ _ Hsp Ht)
    as [Hv|[(t & Hn & _)|(j & x & h & Hj & Hhj & Hv & Hx)]].
  - left. rewrite list.Forall_forall in Hout. by apply Hout.
  - by apply not_elem_of_nil in Hn.
  - right. destruct (Forall2_lookup_r _ _ _ _ _ Hh Hhj) as (p & Hp & Hht).
    exists p, h. split_and!; [|done..].
    assert (x = Ev (NextBi bs) (Some (Ok p))) as <-; [|done].
    rewrite Hex, lookup_app_l in Hj by (rewrite length_map; by eapply lookup_lt_Some).
    rewrite list_lookup_fmap, Hp in Hj. by injection Hj.
Qed.

(** A handler leaves the streams of the others alone. *)
Lemma handler_silent tr tr0 ps hs i q h s :
  parts tr tr0 ps hs -> ps !! i = Some q -> hs !! i = Some h ->
  q.1 <> s -> s ∉ map fst (bi_opened tr) -> written s h = [].
Proof.
  intros [_ _ Hh _ _ Hsp%spawns_merges] Hq Hi Hne Ho. cbn [app] in Hsp.
  destruct (Forall2_lookup_lr _ _ _ _ _ _ Hh Hq Hi) as ([o Hr] & _).
  eapply handler_writes; [exact Hr|]. intros [->|Hin]%elem_of_cons; [done|]. apply Ho.
  apply list_elem_of_fmap in Hin as (p & -> & Hp). apply list_elem_of_fmap. exists p. split; [done|].
  apply elem_of_flat in Hp as (v & Hv & Hp). apply elem_of_flat. exists v. split; [|done].
  eapply event_thread; [exact Hsp|right; by eapply list_elem_of_lookup_2|done].
Qed.

Lemma outer_silent tr0 s :
  Forall (fun v => exists a, v = Ev (NextBi bs) a) tr0 -> written s tr0 = [].
Proof. intros Ho. apply flat_nil. revert Ho. apply Forall_impl. by intros v [a ->]. Qed.

Lemma part_send_stream tr tr0 ps hs q :
  parts tr tr0 ps hs -> Forall (bi_event bs tx) tr -> q ∈ ps -> q.1 ∈ send_streams tr.
Proof.
  intros [_ [k Hp] _ _ _ _] He Hq. destruct (bi_streams_of tr He) as [-> _].
  apply elem_of_app. left. rewrite Hp. apply list_elem_of_fmap. exists q.
  split; [done|]. apply elem_of_app. by left.
Qed.

Lemma bi_thread_writes_own tr tr0 ps hs :
  parts tr tr0 ps hs -> Forall (bi_event bs tx) tr -> writes_own tr.
Proof.
  intros Hp He s Hs. pose proof Hp as [_ _ Hh _ Hout Hsp%spawns_merges]. cbn [app] in Hsp.
  rewrite <- (outer_silent tr0 s Hout). apply (written_single _ _ 0 _ _ Hsp); [done|].
  intros [|i] h Hi Eh; [done|].
  destruct (Forall2_lookup_r _ _ _ _ _ Hh Eh) as (q & Hq & _).
  eapply handler_silent; [exact Hp|exact Hq|exact Eh| |].
  - intros <-. apply Hs. eapply part_send_stream; [done..|]. by eapply list_elem_of_lookup_2.
  - intros Hin. apply Hs. destruct (bi_streams_of tr He) as [-> _]. apply elem_of_app. by right.
Qed.

(** What is written on an accepted stream was written by its handler. *)
Lemma bi_thread_written tr tr0 ps hs p :
  parts tr tr0 ps hs -> Ev (NextBi bs) (Some (Ok p)) ∈ tr ->
  written p.1 tr = [] \/ exists h, handler_trace n ep peer tx p h /\ written p.1 tr = written p.1 h.
Proof.
  intros Hp Hv. pose proof Hp as [Hnd [k Hacc] Hh _ Hout Hsp%spawns_merges]. cbn [app] in Hsp.
  assert (p ∈ bi_accepted tr) as Hin by (apply elem_of_flat; eexists; split; [exact Hv|by left]).
  pose proof Hnd as (Hn1 & Hn2 & _)%list.NoDup_app.
  assert (p.1 ∉ map fst (bi_opened tr)) as Ho.
  { apply Hn2. apply list_elem_of_fmap. eauto. }
  assert (forall i q, ps !! i = Some q -> q.1 = p.1 -> q = p) as Huniq.
  { intros i q Hq Heq. apply list_elem_of_lookup in Hin as [j Hj].
    assert (bi_accepted tr !! i = Some q) as Hi
      by (rewrite Hacc; by apply lookup_app_l_Some).
    assert (i = j) as ->; [|congruence]. apply (NoDup_lookup _ i j p.1 Hn1);
      rewrite list_lookup_fmap; [by rewrite Hi; cbn; rewrite Heq|by rewrite Hj]. }
  destruct (decide (p ∈ ps)) as [Hps|Hps].
  - apply list_elem_of_lookup in Hps as [i Hi].
    destruct (Forall2_lookup_l _ _ _ _ _ Hh Hi) as (h & Eh & Hht). right. exists h. split; [done|].
    apply (written_single _ _ (S i) _ _ Hsp); [done|].
    intros [|j] h' Hj Eh'; [injection Eh' as <-; by apply outer_silent|].
    destruct (Forall2_lookup_r _ _ _ _ _ Hh Eh') as (q & Hq & _).
    eapply handler_silent; [exact Hp|exact Hq|exact Eh'| |done]. intros Heq. apply Hj.
    f_equal. apply (NoDup_lookup (map fst ps) j i p.1);
      [|by rewrite list_lookup_fmap, Hq; cbn; rewrite Heq|by rewrite list_lookup_fmap, Hi].
    rewrite Hacc, map_app in Hn1. by apply list.NoDup_app in Hn1 as (? & _).
  - left. rewrite <- (outer_silent tr0 p.1 Hout). apply (written_single _ _ 0 _ _ Hsp); [done|].
    intros [|i] h Hi Eh; [done|].
    destruct (Forall2_lookup_r _ _ _ _ _ Hh Eh) as (q & Hq & _).
    eapply handler_silent; [exact Hp|exact Hq|exact Eh| |done]. intros Heq. apply Hps.
    rewrite <- (Huniq _ _ Hq Heq). by eapply list_elem_of_lookup_2.
Qed.

End BiThread.
End SystemFacts.
