(* ===== verification/EchoStreams.v ===== *)
(** * A bidirectional stream that carries an echo request

    On the stream is a part of the frame of one message, or nothing. Whoever reads it gets
    that message or none ([decode_part]); when the message is an echo request, the handler
    of the stream answers with the peer's address, reports no message and does not
    connect anywhere ([echo_handler]). *)

From Stdlib Require Import Strings.Byte.
From S2P Require Import Prelude Std Foreign WireTypes Errors ConfigTypes Prog ProgFacts Effects.
From S2P Require Import Wire StreamSpec WireFacts Framing Config Connection Incoming.
From S2P Require Import UniListener Verification BiListener BiStreams System SystemFacts.

Local Open Scope Z_scope.
Local Open Scope prog_scope.

Section EchoStreams.
Context {F : Foreign} {Bc : Bincode} {BcL : BincodeLaws}.
Context `{!EqDecision q_SendStream, !EqDecision q_RecvStream}.

(** ** Parts of a frame *)

Lemma decode_empty e : decode (mkStream [] e) = (at_end e, mkStream [] (after e)).
Proof. done. Qed.

Lemma at_end_no_message e m : at_end e <> Ok (Some m).
Proof.
  unfold at_end. destruct e as [|e]; [done|]. destruct (from e : RecvError); try done.
  by destruct (is_benign _).
Qed.

(** Of a part of the frame of [m] nothing but [m] can be read, and nothing is left. *)
Lemma decode_part m st :
  content st `prefix_of` frame_or_nothing m -> m <> UserMsg [] ->
  content (decode st).2 = [] /\ forall m', (decode st).1 = Ok (Some m') -> m' = m.
Proof.
  destruct st as [c e]. cbn [content]. unfold frame_or_nothing. intros Hp Hm.
  destruct (decide (c = [])) as [->|Hc].
  { rewrite decode_empty. split; [done|]. by intros m' ?%at_end_no_message. }
  destruct (frame m) as [bs|] eqn:Ef; cbn [unwrap_or] in Hp; [|by apply prefix_nil_inv in Hp].
  destruct (decide (length c < MSG_HEADER_LEN)%nat) as [Hl|Hl]; [by rewrite decode_short|].
  destruct Hp as [k Hk]. destruct (decide (k = [])) as [->|Hne].
  { rewrite app_nil_r in Hk. subst c. rewrite <- (app_nil_r bs).
    rewrite (decode_of_frame m bs [] e Ef Hm). split; [done|]. by intros m' [=]. }
  apply frame_inv in Ef as (p & flag & _ & Hlen & ->).
  set (hd := to_bytes (header_of p flag)) in *.
  assert (length hd = MSG_HEADER_LEN) as Hhd by apply length_to_bytes.
  assert (exists c', c = hd ++ c' /\ p = c' ++ k) as (c' & -> & Hc').
  { exists (drop MSG_HEADER_LEN c). rewrite <- (take_drop MSG_HEADER_LEN c), <- app_assoc in Hk.
    apply app_inj_1 in Hk as [Hk1 Hk2]; [|rewrite length_take; lia].
    split; [by rewrite Hk1, take_drop|done]. }
  rewrite decode_header by done. unfold hd. rewrite from_to_bytes by (by apply header_of_wf).
  cbn [header_of data_len]. unfold zlen. rewrite Nat2Z.id, Hc', length_app.
  destruct k; [done|]. cbn [length].
  by destruct (Nat.ltb_spec (length c') (length c' + S (length k))); [|lia].
Qed.

(** Writing a message, in any outcome. *)
Lemma write_part m s tr o :
  runs (write_to_stream m s) tr o -> written s tr `prefix_of` frame_or_nothing m.
Proof.
  unfold write_to_stream, frame_or_nothing, frame, try_bind. cbn [bind].
  destruct (payload m) as [[p flag]|e]; [|cbn; intros [-> _]; apply prefix_nil]. cbn [bind].
  destruct (MsgHeader_new p flag) as [h|e]; [|cbn; intros [-> _]; apply prefix_nil].
  cbn [unwrap_or bind]. intros [[-> _]|([[]|e] & t & -> & H)]%runs_call_bind; [apply prefix_nil| |].
  2: { destruct H as [-> _]. apply prefix_nil. }
  apply runs_call_bind in H as [[-> _]|([[]|e] & t' & -> & [-> _])];
    rewrite !written_write_ok, ?written_write_err, ?written_nil, ?app_nil_r; [|done|];
    by apply prefix_app_r.
Qed.

(** ** The handler of an echo request *)

Section Handler.
Context (ep : q_Endpoint) (peer : SocketAddr) (tx : MessageTx) (s : q_SendStream) (rs : q_RecvStream).

(** An event that does not reach out to another peer. *)
Definition event_stays (v : event ev) : Prop :=
  match v with
  | Ev e _ => match e with Connect _ _ _ | OpenBi _ => False | _ => True end
  end.

(** What the handler does with a result that is not a request or a message. *)
Lemma dispatch_nothing r t o :
  (forall m, r <> Ok (Some m)) -> runs (bi_dispatch ep peer tx s r) t o ->
  Forall event_stays t /\ written s t = [] /\ forall m, Ok m ∉ reported t.
Proof.
  intros Hne. destruct r as [[m|]|e]; [by destruct (Hne m)| |]; cbn [bi_dispatch].
  - intros [-> _]. split_and!; [constructor|done|]. intros m. apply not_elem_of_nil.
  - assert (forall b : bool, (if b then Ret (inr tt) else Ret (inl tt))
      = Ret (E := ev) (if b then inr tt else inl tt : unit + unit)) as Hb by (by intros []).
    intros Hr. apply (report_final _ _ _ (fun a =>
      if is_connection_lost (T := unit) (Err e) || negb (is_ok a) then inr tt else inl tt)) in Hr;
      [|intros a; apply Hb].
    destruct Hr as [[-> _]|(a & -> & _)]; split_and!; try done; try by repeat constructor.
    + intros m. apply not_elem_of_nil.
    + by intros m [=]%list_elem_of_singleton.
Qed.

(** Its answer to an echo request, as far as it got. *)
Lemma dispatch_echo t o :
  runs (bi_dispatch ep peer tx s (Ok (Some EndpointEchoReq))) t o ->
  Forall event_stays t /\ written s t `prefix_of` frame_or_nothing (EndpointEchoResp peer)
  /\ reported t = [].
Proof.
  cbn [bi_dispatch]. intros Hr.
  assert (only (fun v => event_stays v /\ event_reported v = []) (
    let* _ := call (LockStream s) in let* _ := handle_endpoint_echo s peer in
    let* _ := call (UnlockStream s) in Ret (inl tt : unit + unit))) as Ho.
  { unfold handle_endpoint_echo, write_to_stream. repeat (only_step || done). }
  apply Ho in Hr as Ht. split; [revert Ht; apply Forall_impl; by intros v [? _]|].
  split; [|apply flat_nil; revert Ht; apply Forall_impl; by intros v [_ ?]]. clear Ho Ht.
  apply runs_bind in Hr as [([] & t1 & t2 & -> & ->%runs_call_done & H2)|(h & -> & H1)].
  2: { apply runs_call in H1 as [[-> _]|(x & -> & _)]; apply prefix_nil. }
  rewrite written_app. cbn [written map concat event_written app].
  apply runs_bind in H2 as [(r & t3 & t4 & -> & H3 & H4)|(h & -> & H3)];
    apply write_part in H3; [|done]. rewrite written_app.
  assert (written s t4 = []) as ->; [|by rewrite app_nil_r].
  apply runs_bind in H4 as [([] & t5 & t6 & -> & ->%runs_call_done & [-> _])|(h & -> & H5)]; [done|].
  by apply runs_call in H5 as [[-> _]|(x & -> & _)].
Qed.

(** The events of a handler that has answered at most one echo request. *)
Definition echoed (bs : Bytes) (t : list (event ev)) : Prop :=
  Forall event_stays t /\ written s t `prefix_of` bs /\ forall m, Ok m ∉ reported t.

Lemma echoed_app bs t1 t2 : echoed bs t1 -> echoed [] t2 -> echoed bs (t1 ++ t2).
Proof.
  intros (H1 & H2 & H3) (K1 & K2%prefix_nil_inv & K3). split_and!; [by apply Forall_app| |].
  - by rewrite written_app, K2, app_nil_r.
  - intros m. rewrite reported_app. by intros [?%H3|?%K3]%elem_of_app.
Qed.

Lemma echoed_after bs t1 t2 : echoed [] t1 -> echoed bs t2 -> echoed bs (t1 ++ t2).
Proof.
  intros (H1 & H2%prefix_nil_inv & H3) (K1 & K2 & K3). split_and!; [by apply Forall_app| |].
  - by rewrite written_app, H2.
  - intros m. rewrite reported_app. by intros [?%H3|?%K3]%elem_of_app.
Qed.

Lemma echoed_weaken bs t : echoed [] t -> echoed bs t.
Proof. intros (H1 & H2%prefix_nil_inv & H3). split_and!; [done| |done]. rewrite H2. apply prefix_nil. Qed.

Lemma read_echoed t o : runs (read_from_stream rs) t o -> echoed [] t.
Proof.
  intros Hr. split_and!.
  - revert t o Hr. change (only event_stays (read_from_stream rs)).
    unfold read_from_stream, read_data, read_header_rest. repeat (only_step || done).
  - by rewrite (read_not_written s rs _ _ Hr).
  - apply read_quiet in Hr as [_ ->]. intros m. apply not_elem_of_nil.
Qed.

(** The answer owed to what a stream holds. *)
Definition echo_owed (st : stream) : Bytes :=
  if bool_decide (content st = []) then [] else frame_or_nothing (EndpointEchoResp peer).

(** The reaction to a message of such a stream. *)
Lemma dispatch_echoed st t o :
  content st `prefix_of` frame_or_nothing EndpointEchoReq ->
  runs (bi_dispatch ep peer tx s (decode st).1) t o -> echoed (echo_owed st) t.
Proof.
  intros Hc Hr. destruct (decode_part EndpointEchoReq st Hc) as [_ Hd]; [done|].
  destruct ((decode st).1) as [[m|]|e] eqn:Ed.
  - rewrite (Hd m eq_refl) in Hr. apply dispatch_echo in Hr as (H1 & H2 & H3). split_and!; [done| |].
    + unfold echo_owed. case_bool_decide as Hc0; [|done].
      destruct st as [c e]. cbn in Hc0. subst c. rewrite decode_empty in Ed.
      by apply at_end_no_message in Ed.
    + intros m'. rewrite H3. apply not_elem_of_nil.
  - apply dispatch_nothing in Hr as (H1 & H2 & H3); [|done]. apply echoed_weaken. split_and!; [done| |done].
    by rewrite H2.
  - apply dispatch_nothing in Hr as (H1 & H2 & H3); [|done]. apply echoed_weaken. split_and!; [done| |done].
    by rewrite H2.
Qed.

(** One round, at any moment of it. *)
Lemma round_echoed n t o :
  reads_truly n t -> content (n rs) `prefix_of` frame_or_nothing EndpointEchoReq ->
  runs (let* r := read_from_stream rs in bi_dispatch ep peer tx s r) t o ->
  echoed (echo_owed (n rs)) t.
Proof.
  intros [n' Hc] Hp [(r & t1 & t2 & -> & H1 & H2)|(h & -> & H1)]%runs_bind;
    [|by eapply echoed_weaken, read_echoed].
  apply conforms_app in Hc as (n1 & Hc1 & _).
  destruct (next_read_step _ _ _ _ _ H1 Hc1) as (_ & _ & -> & _).
  apply echoed_after; [by eapply read_echoed|]. by apply (dispatch_echoed _ _ o).
Qed.

(** The handler of a stream with at most an echo request connects nowhere, writes at most
    the answer and reports no message. *)
Lemma echo_handler n t o :
  runs (handle_bi_stream ep peer tx s rs) t o -> reads_truly n t -> Forall (event_fresh s rs) t ->
  content (n rs) `prefix_of` frame_or_nothing EndpointEchoReq -> echoed (echo_owed (n rs)) t.
Proof.
  intros Hr%runs_loop. revert n. set (u := tt) in Hr at 1. clearbody u.
  induction Hr as [u u' t1 t2 o H1 _ IH|u b t H1|u h t H1]; intros n [n' Hc] Hf Hp;
    [|by eapply round_echoed; [by exists n'| |]..].
  apply conforms_app in Hc as (n2 & Hc1 & Hc2). apply Forall_app in Hf as [Hf1 Hf2].
  apply echoed_app; [by eapply round_echoed; [by exists n2| |]|].
  apply runs_bind_done in H1 as (r & t3 & t4 & -> & H3 & H4).
  apply conforms_app in Hc1 as (n1 & Hc3 & Hc4). apply Forall_app in Hf1 as [_ Hf4].
  pose proof (dispatch_done _ _ _ _ _ _ _ _ H4 Hf4) as (_ & Hk & _).
  destruct (bi_round s rs _ _ _ _ _ _ H3 Hc3 Hc4 Hk) as (_ & Hn & _).
  destruct (decode_part EndpointEchoReq (n rs) Hp) as [He _]; [done|]. rewrite <- Hn in He.
  assert (echo_owed (n2 rs) = []) as Ho by (unfold echo_owed; by rewrite bool_decide_eq_true_2).
  rewrite <- Ho. apply IH; [by exists n'|done|]. rewrite He. apply prefix_nil.
Qed.

End Handler.
End EchoStreams.
