(* ===== verification/Peers.v ===== *)
(** * A user, the user's endpoints and the listeners of their connections

    The system that a user makes who brings up endpoints, opens connections and talks over
    them: the user's thread, the accept loops of the endpoints and the two listeners of each
    connection. When the user opens bidirectional streams only for echo requests, the tasks
    stay passive: they open nothing themselves, and a message the user receives was written
    by the user on a unidirectional stream. *)

From Stdlib Require Import Strings.Byte.
From S2P Require Import Prelude Std Foreign WireTypes Errors ConfigTypes Prog ProgFacts Effects.
From S2P Require Import Wire StreamSpec WireFacts Framing Config Connection Incoming Igd Endpoint.
From S2P Require Import UniListener Verification BiListener BiStreams Delivery System SystemFacts.
From S2P Require Import EchoStreams.

Local Open Scope prog_scope.

Section Peers.
Context {F : Foreign} {Bc : Bincode} {BcL : BincodeLaws} {Bo : Backoff}.
Context `{!EqDecision q_SendStream, !EqDecision q_RecvStream}.
Context (n : q_RecvStream -> stream).

(** A task that only listens: everything but the renewal of a port mapping. *)
Definition background (x : task) : Prop :=
  match x with RenewPortPeriodically _ _ _ _ _ => False | _ => True end.

(** A listener that the user started; a task of a user who starts endpoints too. *)
Definition listener_of (t : list (event ev)) (x : task) : Prop := is_listener x /\ x ∈ spawned t.
Definition running_in (g : list (event ev)) (x : task) : Prop := background x /\ x ∈ spawned g.

Lemma running_background g x : running_in g x -> background x.
Proof. by intros [? _]. Qed.

Lemma listener_background t x : listener_of t x -> background x.
Proof. intros [Hx _]. by destruct x. Qed.

(** ** The listeners as threads *)

Lemma listener_spawns x tr : is_listener x -> task_trace n x tr -> spawned tr = [].
Proof.
  intros Hx [Hr _]. apply flat_nil. destruct x; [| |done..]; cbn in Hr.
  - destruct Hr as [o Hr%uni_thread]. revert Hr. apply Forall_impl. intros [T e x']. by destruct e.
  - destruct Hr as [st Hr%bi_thread_events]. revert Hr. apply Forall_impl. intros [T e x']. by destruct e.
Qed.

(** The listeners that the user starts are all the tasks there are. *)
Lemma listeners_threads t g :
  system n [t] g -> Forall is_listener (spawned t) ->
  exists sp, merges (t :: map snd sp) g
    /\ Forall (fun x => listener_of t x.1 /\ task_trace n x.1 x.2) sp.
Proof.
  intros Hs Hl. apply (system_threads n (listener_of t)) in Hs.
  - destruct Hs as (sp & Hm & Hsp). exists sp. split; [done|]. revert Hsp. apply Forall_impl.
    by intros x [[? _] ?].
  - intros x tr [Hx _] Ht. rewrite (listener_spawns _ _ Hx Ht). constructor.
  - constructor; [|constructor]. apply list.Forall_forall. intros x Hx. split; [|done].
    rewrite list.Forall_forall in Hl. by apply Hl.
Qed.

Lemma background_spawns x tr :
  background x -> task_trace n x tr -> Forall background (spawned tr).
Proof.
  intros Hx Ht. destruct x as [peer us alive tx|ep peer bs alive tx|inc tx ep cfg|]; [| | |done].
  1,2: erewrite listener_spawns; [constructor| |exact Ht]; done.
  destruct Ht as [[o Hr%accept_thread] _]. apply list.Forall_forall. intros x ([T e y] & Hv & Hi)%elem_of_flat.
  rewrite list.Forall_forall in Hr. specialize (Hr _ Hv). destruct e; try by apply not_elem_of_nil in Hi.
  apply list_elem_of_singleton in Hi as ->. cbn in Hr. by destruct t.
Qed.

(** A user who starts endpoints and connections: the tasks are accept loops and listeners. *)
Lemma background_threads t g :
  system n [t] g -> Forall background (spawned t) ->
  exists sp, merges (t :: map snd sp) g
    /\ Forall (fun x => running_in g x.1 /\ task_trace n x.1 x.2) sp.
Proof.
  intros Hs Hl. apply (system_threads n background) in Hs; [done|apply background_spawns|].
  by repeat constructor.
Qed.

Section Threads.
Context (t g : list (event ev)) (sp : list (task * list (event ev))) (K : task -> Prop).
Context (Hm : merges (t :: map snd sp) g) (HK : forall x, K x -> background x).
Context (Hsp : Forall (fun x => K x.1 /\ task_trace n x.1 x.2) sp).
Context (Hnet : network n g).
Context (Hown : writes_own t) (Hmute : forall tx item a, Ev (SendMessage tx item) a ∉ t).

Lemma user_event v : v ∈ t -> v ∈ g.
Proof. intros Hv. eapply event_thread; [exact Hm|by left|done]. Qed.

(** An event of the system is the user's, one of a listener's or of an accept loop's. *)
Lemma event_cases v :
  v ∈ g -> v ∈ t
  \/ (exists peer us alive tx tr, K (ListenOnUniStreams peer us alive tx)
        /\ task_trace n (ListenOnUniStreams peer us alive tx) tr /\ v ∈ tr /\ tr ∈ map snd sp)
  \/ (exists ep peer bs alive tx tr, K (ListenOnBiStreams ep peer bs alive tx)
        /\ task_trace n (ListenOnBiStreams ep peer bs alive tx) tr /\ v ∈ tr /\ tr ∈ map snd sp)
  \/ (exists inc tx ep cfg tr, K (ListenForIncomingConnections inc tx ep cfg)
        /\ Forall (accept_event inc tx) tr
        /\ task_trace n (ListenForIncomingConnections inc tx ep cfg) tr /\ v ∈ tr
        /\ tr ∈ map snd sp).
Proof.
  intros Hv. destruct (merges_elem _ _ _ Hm Hv) as (u & [->|Hu]%elem_of_cons & Hvu); [by left|right].
  pose proof Hu as Hu'. apply list_elem_of_fmap in Hu' as ([x tr] & -> & Hin).
  pose proof (proj1 (list.Forall_forall _ _) Hsp _ Hin) as [Hx Ht]. cbn [fst snd] in *.
  destruct x as [| |inc tx ep cfg|]; [left|right; left|right; right|by destruct (HK _ Hx)]; [by eauto 12..|].
  exists inc, tx, ep, cfg, tr. split_and!; [done| |done..]. destruct Ht as [[o Hr] _].
  by apply accept_thread in Hr.
Qed.

Lemma nodup_send tr : tr ∈ map snd sp -> NoDup (send_streams tr).
Proof. intros Htr. eapply nodup_thread; [exact Hm|apply (net_send_streams _ _ Hnet)|by right]. Qed.

Lemma nodup_recv tr : tr ∈ map snd sp -> NoDup (recv_streams tr).
Proof. intros Htr. eapply nodup_thread; [exact Hm|apply (net_recv_streams _ _ Hnet)|by right]. Qed.

(** The parts of a listener for bidirectional streams. *)
Lemma listener_parts ep peer bs alive tx tr :
  task_trace n (ListenOnBiStreams ep peer bs alive tx) tr -> tr ∈ map snd sp ->
  Forall (bi_event bs tx) tr /\ exists tr0 ps hs, parts n ep peer bs tx tr tr0 ps hs.
Proof.
  intros [[st Hr] Hc] Htr. split; [by eapply bi_thread_events|].
  by eapply bi_thread_parts; [exact Hr|exact Hc|apply nodup_send|apply nodup_recv].
Qed.

Lemma all_write_own : Forall writes_own (t :: map snd sp).
Proof.
  constructor; [done|]. apply Forall_forall. intros tr Htr%list_elem_of_In.
  pose proof Htr as Hin. apply list_elem_of_fmap in Hin as ([x u] & -> & Hin).
  pose proof (proj1 (list.Forall_forall _ _) Hsp _ Hin) as [Hx Ht]. cbn [fst snd] in *.
  destruct x as [| |inc tx ep cfg|]; [| | |by destruct (HK _ Hx)].
  - destruct Ht as [[o Hr%uni_thread] _]. intros s' _. apply flat_nil. revert Hr.
    apply Forall_impl. intros [T e x']. by destruct e.
  - destruct (listener_parts _ _ _ _ _ _ Ht Htr) as (He & tr0 & ps & hs & Hp).
    by eapply bi_thread_writes_own.
  - destruct Ht as [[o Hr%accept_thread] _]. intros s' _. apply flat_nil. revert Hr.
    apply Forall_impl. intros [T e x']. by destruct e.
Qed.

Lemma written_user s : s ∈ send_streams t -> written s g = written s t.
Proof.
  apply (written_owner (t :: map snd sp) g 0 t s Hm); [apply (net_send_streams _ _ Hnet)
    |apply all_write_own|done].
Qed.

(** Only the user opens unidirectional streams. *)
Lemma opened_by_user c a : Ev (OpenUni c) a ∈ g -> Ev (OpenUni c) a ∈ t.
Proof.
  intros [?|[(peer & us & alive & tx & tr & _ & [[o Hr%uni_thread] _] & Hv & _)
    |[(ep & peer & bs & alive & tx & tr & _ & [[st Hr%bi_thread_events] _] & Hv & _)
    |(inc & tx & ep & cfg & tr & _ & Hr & _ & Hv & _)]]]%event_cases; [done|..];
    rewrite list.Forall_forall in Hr; by destruct (Hr _ Hv).
Qed.

(** ** Echo requests only *)

Context (Hecho : forall c s r, Ev (OpenBi c) (Ok (s, r)) ∈ t ->
  written s t `prefix_of` frame_or_nothing EndpointEchoReq).

(** A stream that is accepted carries an echo request, if those opened before it by the
    user are all there are. *)
Lemma accepted_echo g1 bs p g2 :
  g = g1 ++ Ev (NextBi bs) (Some (Ok p)) :: g2 ->
  (forall v, v ∈ g1 -> ~ event_stays v -> v ∈ t) ->
  content (n p.2) `prefix_of` frame_or_nothing EndpointEchoReq.
Proof.
  destruct p as [s' r']. intros Hg Hstay.
  destruct (net_bi _ _ Hnet _ _ _ _ _ Hg) as (c & s & r & Hopen & Hf).
  specialize (Hstay _ Hopen (fun H => H)). etrans; [exact Hf|]. rewrite written_user; [by eapply Hecho|].
  apply elem_of_flat. eexists. split; [exact Hstay|by left].
Qed.

(** The listeners never reach out. *)
Lemma only_user_reaches g1 : forall v g2, g = g1 ++ v :: g2 -> ~ event_stays v -> v ∈ t.
Proof.
  induction g1 as [g1 IH] using (induction_ltof1 _ (@length _)). unfold ltof in IH. intros v g2 Hg Hv.
  assert (v ∈ g) as Hin by (rewrite Hg; apply elem_of_app; right; by left).
  destruct (merges_split _ _ _ _ _ Hm Hg) as (i & t1 & t2 & Hi & Hsub).
  apply list_elem_of_lookup_2, elem_of_cons in Hi as [<-|Htr]; [apply elem_of_app; right; by left|].
  pose proof Htr as Hin'. apply list_elem_of_fmap in Hin' as ([x u] & Hu & Hx). cbn in Hu. subst u.
  pose proof (proj1 (list.Forall_forall _ _) Hsp _ Hx) as [Hl Ht]. cbn [fst snd] in *.
  exfalso. destruct x as [peer us alive tx|ep peer bs alive tx|inc tx ep cfg|]; [| | |by destruct (HK _ Hl)].
  - destruct Ht as [[o Hr%uni_thread] _]. apply Forall_app in Hr as [_ Hr].
    inversion_clear Hr as [|? ? Hv' _]. destruct v as [T e x]. by destruct e.
  - destruct (listener_parts _ _ _ _ _ _ Ht Htr) as (_ & tr0 & ps & hs & Hp).
    destruct (handler_after_accept _ _ _ _ _ _ _ _ _ _ _ _ Hp eq_refl)
      as [[a ->]|(p & h & Hacc & ([o Hr] & Hc & Hf) & Hvh)]; [done|].
    apply Hsub in Hacc. apply list_elem_of_split in Hacc as (k1 & k2 & ->).
    assert (content (n p.2) `prefix_of` frame_or_nothing EndpointEchoReq) as Hpre.
    { apply (accepted_echo k1 bs p (k2 ++ v :: g2)); [rewrite Hg; by rewrite <- app_assoc|].
      intros w Hw Hs. apply list_elem_of_split in Hw as (j1 & j2 & ->).
      eapply (IH j1); [|rewrite Hg; by rewrite <- !app_assoc|done].
      rewrite !length_app. cbn. lia. }
    destruct (echo_handler _ _ _ _ _ _ _ _ Hr Hc Hf Hpre) as (Hs & _).
    rewrite list.Forall_forall in Hs. by apply Hv, Hs.
  - destruct Ht as [[o Hr%accept_thread] _]. apply Forall_app in Hr as [_ Hr].
    inversion_clear Hr as [|? ? Hv' _]. destruct v as [T e x]. by destruct e.
Qed.

Lemma reached_by_user v : v ∈ g -> ~ event_stays v -> v ∈ t.
Proof. intros (g1 & g2 & Hg)%list_elem_of_split. by apply (only_user_reaches g1 v g2). Qed.

Lemma bi_stream_echo bs p :
  Ev (NextBi bs) (Some (Ok p)) ∈ g -> content (n p.2) `prefix_of` frame_or_nothing EndpointEchoReq.
Proof.
  intros (g1 & g2 & Hg)%list_elem_of_split. apply (accepted_echo g1 bs p g2 Hg).
  intros v Hv. apply reached_by_user. rewrite Hg. apply elem_of_app. by left.
Qed.

(** ** What the user receives *)

(** A message taken from a channel was read from a unidirectional stream. *)
Lemma message_origin rx m st :
  Ev (RecvMessage rx) (Some (Ok (m, st))) ∈ g ->
  exists cap tx peer us alive r, Ev (NewMessageChannel cap) (tx, rx) ∈ g
    /\ K (ListenOnUniStreams peer us alive tx)
    /\ Ev (NextUni us) (Some (Ok r)) ∈ g /\ Ok m ∈ items (n r).
Proof.
  intros (g1 & g2 & Hg)%list_elem_of_split.
  destruct (net_channel _ _ Hnet _ _ _ _ Hg) as (cap & tx & Hch & Hsent).
  assert (forall v, v ∈ g1 -> v ∈ g) as Hsub by (intros v Hv; rewrite Hg; apply elem_of_app; by left).
  apply Hsub in Hch, Hsent. exists cap, tx.
  destruct (event_cases _ Hsent) as [Hv|[(peer & us & alive & tx' & tr & Hx & [[o Hr] Hc] & Hv & Htr)
    |[(ep & peer & bs & alive & tx' & tr & Hx & Ht & Hv & Htr)
    |(inc & tx' & ep & cfg & tr & _ & Hr & _ & Hv & _)]]].
  - by destruct (Hmute _ _ _ Hv).
  - destruct (uni_thread_message _ _ _ _ _ _ _ _ _ Hr Hc (nodup_recv _ Htr) Hv) as (-> & r & Hnext & Hi).
    exists peer, us, alive, r. split_and!; [done..| |done].
    eapply event_thread; [exact Hm|by right|done].
  - exfalso. destruct (listener_parts _ _ _ _ _ _ Ht Htr) as (_ & tr0 & ps & hs & Hp).
    apply list_elem_of_split in Hv as (t1 & t2 & Hsplit).
    destruct (handler_after_accept _ _ _ _ _ _ _ _ _ _ _ _ Hp Hsplit)
      as [[a ?]|(p & h & Hacc & ([o Hr] & Hc & Hf) & Hvh)]; [done|].
    assert (content (n p.2) `prefix_of` frame_or_nothing EndpointEchoReq) as Hpre.
    { apply (bi_stream_echo bs). eapply event_thread; [exact Hm|by right|].
      rewrite Hsplit. apply elem_of_app. by left. }
    destruct (echo_handler _ _ _ _ _ _ _ _ Hr Hc Hf Hpre) as (_ & _ & Hno).
    by apply (Hno (m, st)), (sent_is_reported tx _ (Ok tt)).
  - rewrite list.Forall_forall in Hr. by destruct (Hr _ Hv).
Qed.

(** Without accept loops, only the user makes channels. *)
Lemma made_by_user cap a :
  (forall x, K x -> is_listener x) ->
  Ev (NewMessageChannel cap) a ∈ g -> Ev (NewMessageChannel cap) a ∈ t.
Proof.
  intros Hl [?|[(peer & us & alive & tx & tr & _ & [[o Hr%uni_thread] _] & Hv & _)
    |[(ep & peer & bs & alive & tx & tr & _ & [[st Hr%bi_thread_events] _] & Hv & _)
    |(inc & tx & ep & cfg & tr & Hk%Hl & _)]]]%event_cases; [done| | |done];
    rewrite list.Forall_forall in Hr; by destruct (Hr _ Hv).
Qed.

End Threads.
End Peers.
