(* ===== verification/Tests.v ===== *)
(** * connection.rs, endpoint.rs, tests/: the tests of the crate

    The tests in the two files, and those of tests/common.rs in which one peer connects to
    another and sends it a message, as programs over the same calls as the library: the
    functions they test run unchanged, [assert_eq!] is [Fault] when it fails, and
    [bail!] and [?] return a [Report]. Dropping the connections at the end of a block is
    not an event. *)

From Stdlib Require Import Strings.Byte.
From S2P Require Import Prelude Std Parse Foreign WireTypes Errors ErrorText ConfigTypes Prog Eyre.
From S2P Require Import Effects Wire Config Connection Incoming Igd Endpoint.

Local Open Scope Z_scope.
Local Open Scope prog_scope.

Section Tests.
Context {F : Foreign} {Bc : Bincode} {Bo : Backoff}.

(** ** What the tests share *)

Definition tests_local_addr : SocketAddr := sa_new (IpV4 LOCALHOST) 0.

Definition bail {A} (message : string) (arg : bail_arg) : io (Result A Report) :=
  Ret (Err (Report_bail message arg)).

(** [assert_eq!], with what follows it. *)
Definition assert_eq {A B} `{!EqDecision A} (left right : A) (k : io B) : io B :=
  if bool_decide (left = right) then k else Fault.

Definition tests_timeout {A} (f : io A) : io (Result A Elapsed) := timeout (from_millis 500) f.

(** The first lines of every test of connection.rs: two endpoints, the first of which
    can connect. *)
Definition two_peers (config : InternalConfig) :
    io (Result (q_Endpoint * q_Incoming * (q_Endpoint * q_Incoming)) Report) :=
  let? (peer1, peer1_incoming) := call (EndpointServer (ic_server config) tests_local_addr) in
  let* _ := call (SetDefaultClientConfig peer1 (ic_client config)) in
  let? (peer2, peer2_incoming) := call (EndpointServer (ic_server config) tests_local_addr) in
  Ret (Ok (peer1, peer1_incoming, (peer2, peer2_incoming))).

(** [Connection::new(peer1.clone(), None, peer1.connect(peer2.local_addr()?, ..)?.await?)]. *)
Definition open_connection (peer1 peer2 : q_Endpoint) :
    io (Result (Connection * ConnectionIncoming) Report) :=
  let? addr := call (EndpointLocalAddr peer2) in
  let? connecting := call (Connect peer1 addr SERVER_NAME) in
  let? connection := call (AwaitConnecting connecting) in
  let* c := Connection_new peer1 None connection in
  Ret (Ok c).

(** [incoming.then(|c| c).try_next()]. *)
Definition try_next_incoming (incoming : q_Incoming) :
    io (Result (option q_NewConnection) q_ConnectionError) :=
  let* next := call (NextIncoming incoming) in
  match next with
  | None => Ret (Ok None)
  | Some connecting =>
      let? connection := call (AwaitConnecting connecting) in
      Ret (Ok (Some connection))
  end.

(** The [if let] that accepts a connection. *)
Definition accept_connection (peer : q_Endpoint) (incoming : q_Incoming) :
    io (Result (Connection * ConnectionIncoming) Report) :=
  let? r := tests_timeout (try_next_incoming incoming) in
  let? next := Ret r in
  match next with
  | Some connection =>
      let* c := Connection_new peer None connection in
      Ret (Ok c)
  | None => bail "did not receive incoming connection when one was expected" Bail_nothing
  end.

(** The [if let] that expects a message, with what follows it. *)
Definition expect_message {A} (rx : ConnectionIncoming) (expected : Bytes)
    (k : io (Result A Report)) : io (Result A Report) :=
  let? r := tests_timeout (ConnectionIncoming_next rx) in
  let? next := Ret r in
  match next with
  | Some msg => assert_eq msg expected k
  | None => bail "did not receive message when one was expected" Bail_nothing
  end.

(** The check at the end of a test that the connections were shut down. *)
Definition wait_both_idle (peer1 peer2 : q_Endpoint) : io (Result unit Report) :=
  let? _ := tests_timeout (call (WaitIdle peer1)) in
  let? _ := tests_timeout (call (WaitIdle peer2)) in
  Ret (Ok tt).

(** ** The tests of connection.rs *)

Definition HELLO : Bytes := String.list_byte_of_string "hello".
Definition WORLD : Bytes := String.list_byte_of_string "world".

Definition test_basic_usage : io (Result unit Report) :=
  let? config := try_from_config Config_default in
  let? (peer1, _, (peer2, peer2_incoming)) := two_peers config in
  let? (p1_tx, p1_rx) := open_connection peer1 peer2 in
  let? (p2_tx, p2_rx) := accept_connection peer2 peer2_incoming in
  let? stream := open_uni p1_tx in
  let? _ := send_user_msg stream HELLO in
  expect_message p2_rx HELLO (
    let? stream := open_uni p2_tx in
    let? _ := send_user_msg stream WORLD in
    expect_message p1_rx WORLD (wait_both_idle peer1 peer2)).

Definition low_idle_timeout : Config :=
  {| forward_port := forward_port Config_default;
     external_port := external_port Config_default;
     external_ip := external_ip Config_default;
     idle_timeout := Some (from_secs 1);
     keep_alive_interval := keep_alive_interval Config_default;
     upnp_lease_duration := upnp_lease_duration Config_default;
     retry_config := retry_config Config_default |}.

Definition test_benign_connection_loss : io (Result unit Report) :=
  let? config := try_from_config low_idle_timeout in
  let? (peer1, _, (peer2, peer2_incoming)) := two_peers config in
  let? (p1_tx, _) := open_connection peer1 peer2 in
  let? (_, p2_rx) := accept_connection peer2 peer2_incoming in
  let* _ := call (Sleep (from_secs 2)) in
  let* sent := send p1_tx HELLO in
  match sent with
  | Err (SendError_ConnectionLost ConnectionError_TimedOut) =>
      let* received := ConnectionIncoming_next p2_rx in
      match received with
      | Ok None => Ret (Ok tt)
      | res => bail "unexpected recv result: {:?}" (Bail_received res)
      end
  | res => bail "unexpected send result: {:?}" (Bail_sent res)
  end.

Definition test_endpoint_echo : io (Result unit Report) :=
  let? config := try_from_config Config_default in
  let? (peer1, _, (peer2, peer2_incoming)) := two_peers config in
  let? (p1_tx, _) := open_connection peer1 peer2 in
  let? (_, _) := accept_connection peer2 peer2_incoming in
  let? (send_stream, recv_stream) := open_bi p1_tx in
  let? _ := send_wire_msg send_stream EndpointEchoReq in
  let? r := tests_timeout (next_wire_msg recv_stream) in
  let? next := Ret r in
  match next with
  | Some (EndpointEchoResp addr) =>
      let? local := call (EndpointLocalAddr peer1) in
      assert_eq addr local (wait_both_idle peer1 peer2)
  | Some msg =>
      bail "received unexpected message when EndpointEchoResp was expected: {:?}" (Bail_message msg)
  | None => bail "did not receive incoming message when one was expected" Bail_nothing
  end.

Definition unexpected_verdict (verdict : bool) : string :=
  if verdict
  then "received unexpected message when EndpointVerificationResp(true) was expected: {:?}"
  else "received unexpected message when EndpointVerificationResp(false) was expected: {:?}".

(** The [if let]s that expect an answer to a verification request. *)
Definition expect_verdict (verdict : bool) (msg : option WireMsg) (k : io (Result unit Report)) :
    io (Result unit Report) :=
  match msg with
  | Some (EndpointVerificationResp b) =>
      if Bool.eqb b verdict then k
      else bail (unexpected_verdict verdict) (Bail_message (EndpointVerificationResp b))
  | Some msg => bail (unexpected_verdict verdict) (Bail_message msg)
  | None => bail "did not receive incoming message when one was expected" Bail_nothing
  end.

Definition test_endpoint_verification : io (Result unit Report) :=
  let? config := try_from_config Config_default in
  let? (peer1, peer1_incoming, (peer2, peer2_incoming)) := two_peers config in
  let* _ := call (SetDefaultClientConfig peer2 (ic_client config)) in
  let? (p1_tx, _) := open_connection peer1 peer2 in
  let? (_, _) := accept_connection peer2 peer2_incoming in
  let? (send_stream, recv_stream) := open_bi p1_tx in
  let? local := call (EndpointLocalAddr peer1) in
  let? _ := send_wire_msg send_stream (EndpointVerificationReq local) in
  let? (_, _) := accept_connection peer1 peer1_incoming in
  let? r := tests_timeout (next_wire_msg recv_stream) in
  let? msg := Ret r in
  expect_verdict true msg (
    let? _ := send_wire_msg send_stream (EndpointVerificationReq tests_local_addr) in
    let? r := tests_timeout (next_wire_msg recv_stream) in
    let? msg := Ret r in
    expect_verdict false msg (wait_both_idle peer1 peer2)).

(** ** The tests of endpoint.rs *)

Definition external_config (ip : option IpAddr) (port : option Z) : Config :=
  {| forward_port := forward_port Config_default;
     external_port := port;
     external_ip := ip;
     idle_timeout := idle_timeout Config_default;
     keep_alive_interval := keep_alive_interval Config_default;
     upnp_lease_duration := upnp_lease_duration Config_default;
     retry_config := retry_config Config_default |}.

Definition EXTERNAL_IP : IpAddr := IpV4 (mkIpv4 x7b x7b x7b x7b).

Definition test_new_without_external_addr : io (Result unit Report) :=
  let? (endpoint, _, _) := new_peer tests_local_addr [] (external_config None None) in
  assert_eq (public_addr endpoint) (local_addr endpoint) (Ret (Ok tt)).

Definition test_new_with_external_ip : io (Result unit Report) :=
  let? (endpoint, _, _) := new_peer tests_local_addr [] (external_config (Some EXTERNAL_IP) None) in
  assert_eq (public_addr endpoint) (sa_new EXTERNAL_IP (sa_port (local_addr endpoint)))
    (Ret (Ok tt)).

Definition test_new_with_external_port : io (Result unit Report) :=
  let? (endpoint, _, _) := new_peer tests_local_addr [] (external_config None (Some 123)) in
  assert_eq (public_addr endpoint) (sa_new (sa_ip (local_addr endpoint)) 123) (Ret (Ok tt)).

Definition test_new_with_external_addr : io (Result unit Report) :=
  let? (endpoint, _, _) :=
    new_peer tests_local_addr [] (external_config (Some EXTERNAL_IP) (Some 123)) in
  match SocketAddr_from_str "123.123.123.123:123" with
  | None => Ret (Err Report_addr_parse)
  | Some expected => assert_eq (public_addr endpoint) expected (Ret (Ok tt))
  end.

(** ** The tests of tests/common.rs *)

(** A retry policy that gives up after half a second. *)
Definition impatient : RetryConfig :=
  {| initial_retry_interval := initial_retry_interval RetryConfig_default;
     max_retry_interval := max_retry_interval RetryConfig_default;
     retry_delay_multiplier := retry_delay_multiplier RetryConfig_default;
     retry_delay_rand_factor := retry_delay_rand_factor RetryConfig_default;
     retrying_max_elapsed_time := from_millis 500 |}.

Definition endpoint_config : Config :=
  {| forward_port := forward_port Config_default;
     external_port := external_port Config_default;
     external_ip := external_ip Config_default;
     idle_timeout := idle_timeout Config_default;
     keep_alive_interval := Some (from_secs 5);
     upnp_lease_duration := upnp_lease_duration Config_default;
     retry_config := impatient |}.

Definition new_endpoint :
    io (Result (Endpoint * IncomingConnections * option (Connection * ConnectionIncoming)) Report) :=
  let? peer := new_peer tests_local_addr [] endpoint_config in
  Ret (Ok peer).

Definition common_timeout {A} (f : io A) : io (Result A Elapsed) := timeout (from_secs 10) f.

(** The [if let] that expects a connection from an address, with what follows it. *)
Definition expect_connection (incoming : IncomingConnections) (addr : SocketAddr)
    (k : ConnectionIncoming -> io (Result unit Report)) : io (Result unit Report) :=
  let* next := common_timeout (IncomingConnections_next incoming) in
  match next with
  | Ok (Some (connection, incoming)) =>
      let* remote := remote_address connection in
      assert_eq remote addr (k incoming)
  | _ => bail "No incoming connection" Bail_nothing
  end.

Definition test_successful_connection : io (Result unit Report) :=
  let? (peer1, peer1_incoming_connections, _) := new_endpoint in
  let peer1_addr := public_addr peer1 in
  let? (peer2, _, _) := new_endpoint in
  let? _ := connect_to peer2 peer1_addr in
  let peer2_addr := public_addr peer2 in
  expect_connection peer1_incoming_connections peer2_addr (fun _ => Ret (Ok tt)).

(** The message is the random one the test made. *)
Definition test_single_message (msg_from_peer2 : Bytes) : io (Result unit Report) :=
  let? (peer1, peer1_incoming_connections, _) := new_endpoint in
  let peer1_addr := public_addr peer1 in
  let? (peer2, _, _) := new_endpoint in
  let peer2_addr := public_addr peer2 in
  let? (connection, _) := connect_to peer2 peer1_addr in
  let? _ := send connection msg_from_peer2 in
  expect_connection peer1_incoming_connections peer2_addr (fun peer1_incoming_messages =>
    let* next := common_timeout (ConnectionIncoming_next peer1_incoming_messages) in
    match next with
    | Ok message =>
        let? received := Ret message in
        assert_eq received (Some msg_from_peer2) (Ret (Ok tt))
    | Err _ => bail "No incoming message" Bail_nothing
    end).

(** [rx.next().timeout().await.ok().map(Result::transpose).flatten().ok_or_else(..)??] and
    the assertion on it, with what follows. *)
Definition expect_received (rx : ConnectionIncoming) (expected : Bytes)
    (k : io (Result unit Report)) : io (Result unit Report) :=
  let* next := common_timeout (ConnectionIncoming_next rx) in
  match next with
  | Ok (Ok (Some message)) => assert_eq message expected k
  | Ok (Err e) => Ret (Err (from e))
  | Ok (Ok None) | Err _ => bail "Did not receive expected message" Bail_nothing
  end.

Definition client_config : Config :=
  {| forward_port := forward_port Config_default;
     external_port := external_port Config_default;
     external_ip := external_ip Config_default;
     idle_timeout := idle_timeout Config_default;
     keep_alive_interval := keep_alive_interval Config_default;
     upnp_lease_duration := upnp_lease_duration Config_default;
     retry_config := impatient |}.

(** The end of the test, after the server dropped its connection. *)
Definition expect_loss (client : Endpoint) (client_to_server : Connection) (server_addr : SocketAddr) :
    io (Result unit Report) :=
  let* _ := call (Sleep (from_millis 100)) in
  let* result := send client_to_server WORLD in
  match result with
  | Err (SendError_ConnectionLost _) =>
      let? _ := connect_to client server_addr in
      Ret (Ok tt)
  | result =>
      bail "expected connection loss when sending message, but got: {:?}" (Bail_sent result)
  end.

Definition test_client : io (Result unit Report) :=
  let? (server, server_connections, _) := new_endpoint in
  let? client := new_client tests_local_addr client_config in
  let? (client_to_server, client_messages) := connect_to client (public_addr server) in
  let? _ := send client_to_server HELLO in
  let* next := IncomingConnections_next server_connections in
  match next with
  | Some (server_to_client, server_messages) =>
      let* remote := remote_address server_to_client in
      assert_eq remote (public_addr client) (
        expect_received server_messages HELLO (
          let? _ := send server_to_client WORLD in
          expect_received client_messages WORLD (
            expect_loss client client_to_server (public_addr server))))
  | None => bail "did not receive expected connection" Bail_nothing
  end.

End Tests.
