(* ===== verification/EndpointTests.v ===== *)
(** * The tests of endpoint.rs pass in every environment

    The assertions of the tests are about the public address of an endpoint without
    contacts; they hold whatever the environment answers, as long as an endpoint that was
    bound to an IPv4 address has one. *)

From Stdlib Require Import Strings.Byte.
From S2P Require Import Prelude Std Parse Foreign WireTypes Errors ErrorText ConfigTypes Prog Eyre.
From S2P Require Import ProgFacts Effects Wire Config ConfigFacts Connection Incoming Igd Endpoint.
From S2P Require Import EndpointFacts Panics NewPeer Tests.

Local Open Scope Z_scope.
Local Open Scope prog_scope.

Section EndpointTests.
Context {F : Foreign} {Bc : Bincode} {Bo : Backoff} {BL : BackoffLaws}.

(** A failed assertion: its two sides differ. *)
Lemma assert_faulted {A B} `{!EqDecision A} (l r : A) (k : io B) tr :
  runs (assert_eq l r k) tr (Halt Faulted) -> (l <> r /\ tr = []) \/ runs k tr (Halt Faulted).
Proof. unfold assert_eq. case_bool_decide; [by right|]. intros [-> _]. by left. Qed.

(** The local address of an endpoint is IPv4. *)
Definition event_local_v4 (v : event ev) : Prop :=
  match v with
  | Ev e x =>
      match e in ev T return T -> Prop with
      | EndpointLocalAddr _ => fun a => match a with Ok (V6 _) => False | _ => True end
      | _ => fun _ => True
      end x
  end.

(** The endpoint that a test without contacts works with. *)
Lemma test_endpoint config (k : Endpoint -> io (Result unit Report)) tr :
  runs (let? (ep, _, _) := new_peer tests_local_addr [] config in k ep) tr (Halt Faulted) ->
  Forall event_local_v4 tr ->
  certificate_broken tr
  \/ exists local ep t, local_addr ep = V4 local
       /\ public_addr ep
          = choose_public_addr (V4 local) (external_ip config) (external_port config) None
       /\ runs (k ep) t (Halt Faulted).
Proof.
  intros [H|([[[ep inc] contact]|e] & t1 & t2 & -> & H1 & H)]%faulted_bind Hl;
    [left; by eapply new_peer_panics|right|by apply panic_free_ret in H].
  apply new_peer_started in H1
    as (t0 & te & tf & tv & visible & qi & tx & -> & Hlocal & Hseen & Hp & _ & _ & _ & Hc).
  rewrite (proj1 (Hc eq_refl)) in Hseen. destruct Hseen as [-> _].
  assert (exists local, local_addr ep = V4 local) as [local Ha].
  { apply Forall_app in Hl as [Hl _]. apply Forall_app in Hl as [Hl _].
    rewrite list.Forall_forall in Hl. specialize (Hl _ Hlocal). cbn in Hl.
    destruct (local_addr ep) as [a|a]; [by exists a|done]. }
  exists local, ep, t2. split_and!; [done| |done]. unfold public_addr. by rewrite Hp, Ha.
Qed.

(** A test that panics only when the certificate of its endpoint is broken: no assertion
    of it fails. *)
Definition assertions_hold (test : io (Result unit Report)) : Prop :=
  forall tr, runs test tr (Halt Faulted) -> Forall event_local_v4 tr -> certificate_broken tr.

(** C13: the assertions of the tests of endpoint.rs never fail, whatever the environment
    answers, as long as an endpoint bound to an IPv4 address has one: without external address the public address is the local one, an external
    address or port replaces that part of it, and both replace it all. *)
Theorem endpoint_tests_pass :
  assertions_hold test_new_without_external_addr
  /\ assertions_hold test_new_with_external_ip
  /\ assertions_hold test_new_with_external_port
  /\ assertions_hold test_new_with_external_addr.
Proof.
  split_and!; intros tr H Hl; eapply test_endpoint in H as [?|(local & ep & t & Ha & Hp & H)];
    try done; exfalso; revert H; rewrite Hp, ?Ha; destruct local as [ip port];
    by intros [[Hne _]|[_ [?|?]]]%assert_faulted.
Qed.

End EndpointTests.
