(* ===== verification/ConnectionTests.v ===== *)
(** * The tests of connection.rs pass in every network

    A test runs with the listeners of its two connections in the background. Whatever
    they do and in whatever order, and however streams and messages are delivered: no
    assertion of a test fails, as long as the network keeps its promises. *)

From Stdlib Require Import Strings.Byte.
From S2P Require Import Prelude Std Parse Foreign WireTypes Errors ErrorText ConfigTypes Prog Eyre.
From S2P Require Import ProgFacts Effects Wire StreamSpec WireFacts Framing Config ConfigFacts.
From S2P Require Import Connection Incoming Channel Igd Endpoint UniListener BiListener BiStreams.
From S2P Require Import EndpointFacts Panics Delivery System SystemFacts EchoStreams Peers Tests.
From S2P Require Import EndpointTests.

Local Open Scope Z_scope.
Local Open Scope prog_scope.

Section ConnectionTests.
Context {F : Foreign} {Bc : Bincode} {BcL : BincodeLaws} {Bo : Backoff} {BL : BackoffLaws}.
Context `{!EqDecision q_SendStream, !EqDecision q_RecvStream}.

(** ** The parts of the tests *)

Lemma two_peers_runs ic t v :
  runs (two_peers ic) t (Done (Ok v)) ->
  let '(peer1, inc1, (peer2, inc2)) := v in
  t = [Ev (EndpointServer (ic_server ic) tests_local_addr) (Ok (peer1, inc1));
       Ev (SetDefaultClientConfig peer1 (ic_client ic)) tt;
       Ev (EndpointServer (ic_server ic) tests_local_addr) (Ok (peer2, inc2))].
Proof.
  unfold two_peers. intros H. apply runs_try_done in H as [([p1 i1] & t1 & t2 & -> & ->%runs_call_done & H)|(?&_&?)]; [|done].
  apply runs_bind_done in H as ([] & t3 & t4 & -> & ->%runs_call_done & H).
  apply runs_try_done in H as [([p2 i2] & t5 & t6 & -> & ->%runs_call_done & H)|(?&_&?)]; [|done].
  apply runs_ret_done in H as [-> [= ->]]. done.
Qed.

Lemma open_connection_runs peer1 peer2 t c i :
  runs (open_connection peer1 peer2) t (Done (Ok (c, i))) ->
  exists addr k nc a alive chan,
    t = [Ev (EndpointLocalAddr peer2) (Ok addr); Ev (Connect peer1 addr SERVER_NAME) (Ok k);
         Ev (AwaitConnecting k) (Ok nc)] ++ set_up peer1 nc a alive chan
    /\ c = mkConnection (nc_connection nc) None alive.1 /\ i = mkConnectionIncoming chan.2 alive.1.
Proof.
  unfold open_connection. intros H.
  apply runs_try_done in H as [(addr & t1 & t2 & -> & ->%runs_call_done & H)|(?&_&?)]; [|done].
  apply runs_try_done in H as [(k & t1 & t3 & -> & ->%runs_call_done & H)|(?&_&?)]; [|done].
  apply runs_try_done in H as [(nc & t1 & t4 & -> & ->%runs_call_done & H)|(?&_&?)]; [|done].
  apply runs_bind_done in H as ([c' i'] & t5 & t6 & -> & H1 & H).
  apply runs_ret_done in H as [-> [= -> ->]]. apply Connection_new_runs in H1 as (a & alive & chan & -> & -> & ->).
  exists addr, k, nc, a, alive, chan. by rewrite app_nil_r.
Qed.

(** A result of a call under the tests' timeout. *)
Lemma tests_timeout_runs {A} (p : io A) t r :
  runs (tests_timeout p) t (Done r) ->
  match r with Ok a => runs p t (Done a) | Err _ => runs p t (Halt Running) end.
Proof.
  unfold tests_timeout, timeout. intros H.
  apply runs_bind_done in H as (w & t1 & t2 & -> & H1 & H). apply runs_ret_done in H as [-> ->].
  rewrite app_nil_r. apply runs_within_done in H1. by destruct w.
Qed.

Lemma accept_connection_runs peer inc t c i :
  runs (accept_connection peer inc) t (Done (Ok (c, i))) ->
  exists k nc a alive chan,
    t = [Ev (NextIncoming inc) (Some k); Ev (AwaitConnecting k) (Ok nc)] ++ set_up peer nc a alive chan
    /\ c = mkConnection (nc_connection nc) None alive.1 /\ i = mkConnectionIncoming chan.2 alive.1.
Proof.
  unfold accept_connection. intros H.
  apply runs_try_done in H as [(r & t1 & t2 & -> & H1 & H)|(?&_&?)]; [|done].
  apply tests_timeout_runs in H1.
  apply runs_try_done in H as [(next & t3 & t4 & -> & [-> <-]%runs_ret_done & H)|(?&_&?)]; [|done].
  destruct next as [nc|]; [|by apply runs_ret_done in H as [_ ?]].
  apply runs_bind_done in H as ([c' i'] & t5 & t6 & -> & H2 & H).
  apply runs_ret_done in H as [-> [= -> ->]].
  apply Connection_new_runs in H2 as (a & alive & chan & -> & -> & ->).
  unfold try_next_incoming in H1. apply runs_bind_done in H1 as ([k|] & t7 & t8 & -> & ->%runs_call_done & H1);
    [|by apply runs_ret_done in H1 as [_ ?]].
  apply runs_try_done in H1 as [(nc' & t9 & t10 & -> & ->%runs_call_done & H1)|(?&_&?)]; [|done].
  apply runs_ret_done in H1 as [-> [= ->]]. exists k, nc', a, alive, chan.
  by rewrite !app_nil_r.
Qed.

Lemma panic_free_two_peers ic : panic_free (two_peers ic).
Proof. unfold two_peers. panic. Qed.

Lemma panic_free_open peer1 peer2 : panic_free (open_connection peer1 peer2).
Proof. unfold open_connection. panic. Qed.

Lemma panic_free_accept peer inc : panic_free (accept_connection peer inc).
Proof. unfold accept_connection, tests_timeout, timeout, try_next_incoming, bail. panic. Qed.

Lemma panic_free_idle peer1 peer2 : panic_free (wait_both_idle peer1 peer2).
Proof. unfold wait_both_idle, tests_timeout, timeout. panic. Qed.

(** A panic after a part that does not panic. *)
Lemma faulted_try {A B X Y} `{From X Y} (p : io (Result A X)) (f : A -> io (Result B Y)) t :
  panic_free p -> runs (try_bind p f) t (Halt Faulted) ->
  exists a t1 t2, t = t1 ++ t2 /\ runs p t1 (Done (Ok a)) /\ runs (f a) t2 (Halt Faulted).
Proof.
  intros Hp [?%Hp|([a|e] & t1 & t2 & -> & H1 & H2)]%faulted_bind; [done|by eauto 6|].
  by apply panic_free_ret in H2.
Qed.

(** ** Two connected peers *)

Record meeting := mkMeeting
  { mt_config : InternalConfig; mt_cert : rcgen_Certificate;
    mt_peer1 : q_Endpoint; mt_incoming1 : q_Incoming;
    mt_peer2 : q_Endpoint; mt_incoming2 : q_Incoming;
    mt_addr : SocketAddr;
    mt_connecting1 : q_Connecting; mt_nc1 : q_NewConnection; mt_remote1 : SocketAddr;
    mt_alive1 : AliveTx * AliveRx; mt_chan1 : MessageTx * MessageRx;
    mt_connecting2 : q_Connecting; mt_nc2 : q_NewConnection; mt_remote2 : SocketAddr;
    mt_alive2 : AliveTx * AliveRx; mt_chan2 : MessageTx * MessageRx }.

Definition mt_conn1 (x : meeting) : Connection :=
  mkConnection (nc_connection (mt_nc1 x)) None (mt_alive1 x).1.
Definition mt_conn2 (x : meeting) : Connection :=
  mkConnection (nc_connection (mt_nc2 x)) None (mt_alive2 x).1.
Definition mt_rx1 (x : meeting) : ConnectionIncoming :=
  mkConnectionIncoming (mt_chan1 x).2 (mt_alive1 x).1.
Definition mt_rx2 (x : meeting) : ConnectionIncoming :=
  mkConnectionIncoming (mt_chan2 x).2 (mt_alive2 x).1.

(** The events of a test up to the point where its peers are connected. *)
Definition met (x : meeting) : list (event ev) :=
  [Ev (GenerateSimpleSelfSigned [SERVER_NAME]) (Ok (mt_cert x));
   Ev (EndpointServer (ic_server (mt_config x)) tests_local_addr) (Ok (mt_peer1 x, mt_incoming1 x));
   Ev (SetDefaultClientConfig (mt_peer1 x) (ic_client (mt_config x))) tt;
   Ev (EndpointServer (ic_server (mt_config x)) tests_local_addr) (Ok (mt_peer2 x, mt_incoming2 x));
   Ev (EndpointLocalAddr (mt_peer2 x)) (Ok (mt_addr x));
   Ev (Connect (mt_peer1 x) (mt_addr x) SERVER_NAME) (Ok (mt_connecting1 x));
   Ev (AwaitConnecting (mt_connecting1 x)) (Ok (mt_nc1 x))]
  ++ set_up (mt_peer1 x) (mt_nc1 x) (mt_remote1 x) (mt_alive1 x) (mt_chan1 x)
  ++ [Ev (NextIncoming (mt_incoming2 x)) (Some (mt_connecting2 x));
      Ev (AwaitConnecting (mt_connecting2 x)) (Ok (mt_nc2 x))]
  ++ set_up (mt_peer2 x) (mt_nc2 x) (mt_remote2 x) (mt_alive2 x) (mt_chan2 x).

(** The tests' first four steps. *)
Lemma meeting_of config ic t0 peer1 inc1 peer2 inc2 t1 c1 i1 t2 c2 i2 t3 :
  runs (try_from_config config) t0 (Done (Ok ic)) ->
  runs (two_peers ic) t1 (Done (Ok (peer1, inc1, (peer2, inc2)))) ->
  runs (open_connection peer1 peer2) t2 (Done (Ok (c1, i1))) ->
  runs (accept_connection peer2 inc2) t3 (Done (Ok (c2, i2))) ->
  exists x, t0 ++ t1 ++ t2 ++ t3 = met x
    /\ peer1 = mt_peer1 x /\ peer2 = mt_peer2 x
    /\ c1 = mt_conn1 x /\ i1 = mt_rx1 x /\ c2 = mt_conn2 x /\ i2 = mt_rx2 x.
Proof.
  intros (cert & der & -> & _)%try_from_config_runs ->%two_peers_runs
    (addr & k1 & nc1 & a1 & al1 & ch1 & -> & -> & ->)%open_connection_runs
    (k2 & nc2 & a2 & al2 & ch2 & -> & -> & ->)%accept_connection_runs.
  by exists (mkMeeting ic cert peer1 inc1 peer2 inc2 addr k1 nc1 a1 al1 ch1 k2 nc2 a2 al2 ch2).
Qed.

(** A test panics in its first steps only when the certificate is broken. *)
Lemma meeting_faulted config t
    (k : InternalConfig -> q_Endpoint -> q_Incoming -> q_Endpoint -> q_Incoming -> Connection ->
         ConnectionIncoming -> Connection -> ConnectionIncoming -> io (Result unit Report)) :
  runs (let? ic := try_from_config config in
        let? (peer1, inc1, (peer2, inc2)) := two_peers ic in
        let? (p1_tx, p1_rx) := open_connection peer1 peer2 in
        let? (p2_tx, p2_rx) := accept_connection peer2 inc2 in
        k ic peer1 inc1 peer2 inc2 p1_tx p1_rx p2_tx p2_rx) t (Halt Faulted) ->
  certificate_broken t
  \/ exists x ic inc1 inc2 t', t = met x ++ t'
       /\ runs (k ic (mt_peer1 x) inc1 (mt_peer2 x) inc2 (mt_conn1 x) (mt_rx1 x) (mt_conn2 x)
                  (mt_rx2 x)) t' (Halt Faulted).
Proof.
  unfold try_bind at 1.
  intros [?%try_from_config_panics|([ic|e] & t0 & t' & -> & H0 & H)]%faulted_bind;
    [by left|right|by apply panic_free_ret in H].
  apply faulted_try in H as ([[p1 i1] [p2 i2]] & t1 & t'' & -> & H1 & H); [|apply panic_free_two_peers].
  apply faulted_try in H as ([c1 r1] & t2 & t''' & -> & H2 & H); [|apply panic_free_open].
  apply faulted_try in H as ([c2 r2] & t3 & t4 & -> & H3 & H); [|apply panic_free_accept].
  destruct (meeting_of _ _ _ _ _ _ _ _ _ _ _ _ _ _ H0 H1 H2 H3) as (x & Hx & -> & -> & -> & -> & -> & ->).
  exists x, ic, i1, i2, t4. split; [|done]. by rewrite <- Hx, <- !app_assoc.
Qed.

(** ** basic_usage *)

(** A message that was written as a frame. *)
Definition wrote (s : q_SendStream) (msg : Bytes) : list (event ev) :=
  [Ev (WriteAll s (to_bytes (header_of msg USER_MSG_FLAG))) (Ok tt); Ev (WriteAll s msg) (Ok tt)].

Lemma user_message_runs s msg t :
  runs (send_user_msg (SendStream_new s) msg) t (Done (Ok tt)) -> t = wrote s msg.
Proof.
  unfold send_user_msg. intros [(-> & e & ? & _)|(p & flag & Hp & _ & H)]%write_to_stream_runs; [done|].
  cbn [payload] in Hp. injection Hp as <- <-. cbn zeta in H.
  by destruct H as [(e & _ & ?)|[(e & _ & ?)|(-> & _)]].
Qed.

(** Sending in a test: open a stream and write. *)
Lemma sending_faulted c msg t (k : io (Result unit Report)) :
  runs (let? stream := open_uni c in let? _ := send_user_msg stream msg in k) t (Halt Faulted) ->
  exists s t', t = [Ev (OpenUni (conn_inner c)) (Ok s)] ++ wrote s msg ++ t'
    /\ runs k t' (Halt Faulted).
Proof.
  intros H. apply faulted_try in H as (stream & t1 & t2 & -> & H1 & H); [|unfold open_uni; panic].
  unfold open_uni in H1.
  apply runs_try_done in H1 as [(s & t3 & t4 & -> & ->%runs_call_done & H1)|(?&_&?)]; [|done].
  apply runs_ret_done in H1 as [-> [= ->]].
  apply faulted_try in H as ([] & t5 & t6 & -> & H2 & H); [|apply panic_free_write].
  apply user_message_runs in H2 as ->. exists s, t6. by rewrite app_nil_r.
Qed.

(** A failed expectation: another message was received, or the test went on. *)
Lemma expect_faulted rx expected t (k : io (Result unit Report)) :
  runs (expect_message rx expected k) t (Halt Faulted) ->
  exists msg st t', t = Ev (RecvMessage (message_rx rx)) (Some (Ok (msg, st))) :: t'
    /\ (msg <> expected /\ t' = [] \/ msg = expected /\ runs k t' (Halt Faulted)).
Proof.
  unfold expect_message. intros H.
  apply faulted_try in H as (r & t1 & t2 & -> & H1 & H);
    [|unfold tests_timeout, timeout, ConnectionIncoming_next, next_with_stream; panic].
  apply tests_timeout_runs, next_runs in H1 as (a & -> & Ha).
  apply faulted_try in H as (next & t3 & t4 & -> & [-> <-]%runs_ret_done & H); [|panic].
  destruct next as [msg|]; [|by apply panic_free_ret in H].
  destruct a as [[[m st]|e]|]; simplify_eq. exists m, st, t4. split; [done|].
  unfold assert_eq in H. case_bool_decide; [by right|]. left. by destruct H as [-> _].
Qed.

(** ** What a connected test receives *)

Definition event_opens (v : event ev) : list (q_Connection * q_SendStream) :=
  match v with
  | Ev e x =>
      match e in ev T return T -> _ with
      | OpenUni c => fun a => match a with Ok s => [(c, s)] | Err _ => [] end
      | _ => fun _ => []
      end x
  end.

(** The unidirectional streams that are opened, with their connections. *)
Definition opens (tr : list (event ev)) := concat (map event_opens tr).

Definition event_opens_bi (v : event ev) : list (q_Connection * q_SendStream * q_RecvStream) :=
  match v with
  | Ev e x =>
      match e in ev T return T -> _ with
      | OpenBi c => fun a => match a with Ok (s, r) => [(c, s, r)] | Err _ => [] end
      | _ => fun _ => []
      end x
  end.

Definition opens_bi (tr : list (event ev)) := concat (map event_opens_bi tr).

Lemma opens_bi_elem c s r tr : Ev (OpenBi c) (Ok (s, r)) ∈ tr -> (c, s, r) ∈ opens_bi tr.
Proof. intros Hv. apply elem_of_flat. eexists. split; [exact Hv|by left]. Qed.

(** What a test does over its connections: it writes only on its streams, and leaves
    channels and tasks alone. *)
Definition plain (v : event ev) : Prop :=
  match v with
  | Ev e _ =>
      match e with SendMessage _ _ | NewMessageChannel _ | Spawn _ => False | _ => True end
  end.

Definition event_owned (ss : list q_SendStream) (v : event ev) : Prop :=
  match v with
  | Ev e _ => match e with WriteAll s _ => s ∈ ss | _ => True end
  end.

Lemma owned_writes t : Forall (event_owned (send_streams t)) t -> writes_own t.
Proof.
  intros Ho s Hs. apply flat_nil. revert Ho. apply Forall_impl. intros [T e x] He.
  destruct e; try done. cbn in He |- *. destruct x; [|done]. rewrite decide_False; [done|by intros ->].
Qed.

Section Met.
Context (n : q_RecvStream -> stream) (x : meeting) (rest g : list (event ev)).
Context (Hs : system n [met x ++ rest] g) (Hnet : network n g) (Hplain : Forall plain rest).
Context (Hown : Forall (event_owned (send_streams (met x ++ rest))) rest).

Lemma met_spawned :
  spawned (met x ++ rest)
  = [ListenOnUniStreams (mt_remote1 x) (nc_uni_streams (mt_nc1 x)) (mt_alive1 x).2 (mt_chan1 x).1;
     ListenOnBiStreams (mt_peer1 x) (mt_remote1 x) (nc_bi_streams (mt_nc1 x)) (mt_alive1 x).2
       (mt_chan1 x).1;
     ListenOnUniStreams (mt_remote2 x) (nc_uni_streams (mt_nc2 x)) (mt_alive2 x).2 (mt_chan2 x).1;
     ListenOnBiStreams (mt_peer2 x) (mt_remote2 x) (nc_bi_streams (mt_nc2 x)) (mt_alive2 x).2
       (mt_chan2 x).1].
Proof.
  unfold spawned. rewrite flat_app.
  assert (concat (map event_spawned rest) = []) as ->; [|done].
  apply flat_nil. revert Hplain. apply Forall_impl. intros [T e y]. by destruct e.
Qed.

Lemma met_channels : channels (met x ++ rest) = [mt_chan1 x; mt_chan2 x].
Proof.
  unfold channels. rewrite flat_app.
  assert (concat (map event_channels rest) = []) as ->; [|done].
  apply flat_nil. revert Hplain. apply Forall_impl. intros [T e y]. by destruct e.
Qed.

Lemma met_threads :
  exists sp : list (task * list (event ev)), merges ((met x ++ rest) :: map snd sp) g
    /\ Forall (fun y => listener_of (met x ++ rest) y.1 /\ task_trace n y.1 y.2) sp
    /\ writes_own (met x ++ rest) /\ forall tx item a, Ev (SendMessage tx item) a ∉ met x ++ rest.
Proof.
  destruct (listeners_threads n _ _ Hs) as (sp & Hm & Hsp).
  { rewrite met_spawned. by repeat constructor. }
  exists sp. split_and!; [done..| |].
  - apply owned_writes. apply Forall_app. split; [by repeat constructor|done].
  - intros tx item a Hv.
    assert (Forall plain rest) as Hp by done. rewrite list.Forall_forall in Hp.
    apply elem_of_app in Hv as [Hv|Hv]; [|by apply (Hp _ Hv)]. cbn in Hv.
    repeat (apply elem_of_cons in Hv as [?|Hv]; [done|]). by apply not_elem_of_nil in Hv.
Qed.

(** The two ends of the connection. *)
Definition one_end (nc : q_NewConnection) (chan : MessageTx * MessageRx) : Prop :=
  nc = mt_nc1 x /\ chan = mt_chan1 x \/ nc = mt_nc2 x /\ chan = mt_chan2 x.

(** The listener that feeds the channel of an end reads the streams of that end. *)
Lemma met_listener (sp : list (task * list (event ev))) nc chan tx peer us alive :
  merges ((met x ++ rest) :: map snd sp) g -> one_end nc chan ->
  (tx, chan.2) ∈ channels (met x ++ rest) ->
  ListenOnUniStreams peer us alive tx ∈ spawned (met x ++ rest) -> us = nc_uni_streams nc.
Proof.
  intros Hm He Hch Hsp. rewrite met_spawned in Hsp.
  assert (forall B (f : MessageTx * MessageRx -> B), NoDup (map f (channels g)) ->
    f (mt_chan1 x) <> f (mt_chan2 x)) as Hne.
  { intros B f Hnd. assert (NoDup (map f (channels (met x ++ rest)))) as Hnd'.
    { pose proof (merges_permutation _ _ (merges_flat_map event_channels _ _ Hm)) as Hp.
      cbn [map concat] in Hp. unfold channels in Hnd. rewrite Hp, map_app in Hnd.
      by apply list.NoDup_app in Hnd as (? & _). }
    rewrite met_channels in Hnd'. cbn in Hnd'. apply list.NoDup_cons in Hnd' as [Hni _].
    intros Heq. apply Hni. rewrite Heq. by left. }
  pose proof (Hne _ _ (net_senders _ _ Hnet)) as Hn1. pose proof (Hne _ _ (net_receivers _ _ Hnet)) as Hn2.
  rewrite met_channels in Hch.
  assert (tx = chan.1) as ->.
  { apply elem_of_cons in Hch as [Hc|Hc%list_elem_of_singleton]; destruct He as [[_ ->]|[_ ->]];
      rewrite <- Hc in *; cbn in *; congruence. }
  repeat (apply elem_of_cons in Hsp as [Hl|Hsp]; [|]); try by apply not_elem_of_nil in Hsp.
  all: try done; injection Hl as -> -> -> Hl; destruct He as [[-> ->]|[-> ->]]; congruence.
Qed.

Lemma met_streams_differ s1 s2 : send_streams (met x ++ rest) = [s1; s2] -> s1 <> s2.
Proof.
  intros He. destruct met_threads as (sp & Hm & _).
  assert (NoDup (send_streams (met x ++ rest))) as Hnd.
  { eapply nodup_thread; [exact Hm|apply (net_send_streams _ _ Hnet)|by left]. }
  rewrite He in Hnd. apply list.NoDup_cons in Hnd as [Hni _]. intros ->. apply Hni. by left.
Qed.

(** No bidirectional stream was opened but for an echo request. *)
Context (Hecho : forall c s r, (c, s, r) ∈ opens_bi rest ->
  written s (met x ++ rest) `prefix_of` frame_or_nothing EndpointEchoReq).

Lemma met_echo c s r :
  Ev (OpenBi c) (Ok (s, r)) ∈ met x ++ rest ->
  written s (met x ++ rest) `prefix_of` frame_or_nothing EndpointEchoReq.
Proof. intros Hv%opens_bi_elem. apply (Hecho c s r). unfold opens_bi in *. by rewrite flat_app in Hv. Qed.

Lemma met_opens c s : Ev (OpenUni c) (Ok s) ∈ met x ++ rest -> (c, s) ∈ opens rest.
Proof.
  intros [Hv|Hv]%elem_of_app; [|apply elem_of_flat; eexists; split; [exact Hv|by left]]. cbn in Hv.
  repeat (apply elem_of_cons in Hv as [?|Hv]; [done|]). by apply not_elem_of_nil in Hv.
Qed.

Lemma met_awaits nc chan : one_end nc chan -> exists k, Ev (AwaitConnecting k) (Ok nc) ∈ met x ++ rest.
Proof.
  intros [[-> _]|[-> _]]; eexists; apply elem_of_app; left; cbn; repeat first [by left|right].
Qed.

(** A message received at one end was written on a stream opened at another connection. *)
Lemma met_received nc chan m st :
  one_end nc chan -> Ev (RecvMessage chan.2) (Some (Ok (m, st))) ∈ met x ++ rest ->
  exists c s, (c, s) ∈ opens rest /\ c <> nc_connection nc
    /\ forall msg, written s (met x ++ rest) `prefix_of` frame_bytes msg -> m = msg.
Proof.
  intros He Hv. destruct met_threads as (sp & Hm & Hsp & Hw & Hmute).
  apply (user_event _ _ _ Hm) in Hv.
  destruct (message_origin n _ _ _ _ Hm (listener_background _) Hsp Hnet Hw Hmute met_echo _ _ _ Hv)
    as (cap & tx & peer & us & alive & r & Hch & Hl & Hnext & Hi).
  apply (made_by_user n _ _ _ _ Hm (listener_background _) Hsp) in Hch; [|by intros y []].
  destruct Hl as [_ Hl].
  assert (us = nc_uni_streams nc) as ->.
  { eapply met_listener; [exact Hm|exact He| |exact Hl]. apply elem_of_flat.
    eexists. split; [exact Hch|by left]. }
  destruct (net_uni _ _ Hnet _ _ Hnext) as (c & s & Hopen & Hother & Hf).
  apply (opened_by_user n _ _ _ _ Hm (listener_background _) Hsp) in Hopen. exists c, s. split_and!.
  - by apply met_opens.
  - intros ->. apply Hother. destruct (met_awaits _ _ He) as [k Hk]. exists k, nc.
    split; [by apply (user_event _ _ _ Hm)|done].
  - intros msg Hmsg. eapply items_of_part; [|exact Hi]. etrans; [exact Hf|].
    rewrite (written_user n _ _ _ _ Hm (listener_background _) Hsp Hnet Hw); [done|]. apply elem_of_flat.
    eexists. split; [exact Hopen|by left].
Qed.

End Met.

(** ** basic_usage *)

(** The conversation of the test after the peers have met: "hello" on a stream, and what
    the second peer received. *)
Definition said_hello (x : meeting) s1 m st : list (event ev) :=
  [Ev (OpenUni (nc_connection (mt_nc1 x))) (Ok s1)] ++ wrote s1 HELLO
  ++ [Ev (RecvMessage (mt_chan2 x).2) (Some (Ok (m, st)))].

(** And "world" back. *)
Definition said_world (x : meeting) s2 m st : list (event ev) :=
  [Ev (OpenUni (nc_connection (mt_nc2 x))) (Ok s2)] ++ wrote s2 WORLD
  ++ [Ev (RecvMessage (mt_chan1 x).2) (Some (Ok (m, st)))].

Lemma basic_usage_faulted t :
  runs test_basic_usage t (Halt Faulted) ->
  certificate_broken t
  \/ exists x s1 m st, t = met x ++ said_hello x s1 m st /\ m <> HELLO
     \/ exists s2 m' st', t = met x ++ said_hello x s1 HELLO st ++ said_world x s2 m' st' /\ m' <> WORLD.
Proof.
  intros H. eapply (meeting_faulted _ _ (fun _ peer1 _ peer2 _ p1_tx p1_rx p2_tx p2_rx =>
    let? stream := open_uni p1_tx in
    let? _ := send_user_msg stream HELLO in
    expect_message p2_rx HELLO (
      let? stream := open_uni p2_tx in
      let? _ := send_user_msg stream WORLD in
      expect_message p1_rx WORLD (wait_both_idle peer1 peer2)))) in H
    as [?|(x & ic & inc1 & inc2 & t' & -> & H)]; [by left|right].
  apply sending_faulted in H as (s1 & t1 & -> & H).
  apply expect_faulted in H as (m & st & t2 & -> & [[Hm ->]|[-> H]]).
  - exists x, s1, m, st. by left.
  - apply sending_faulted in H as (s2 & t3 & -> & H).
    apply expect_faulted in H as (m' & st' & t4 & -> & [[Hm ->]|[-> H]]).
    + exists x, s1, HELLO, st. right. exists s2, m', st'. split; [|done].
      unfold said_hello, said_world. by rewrite <- !app_assoc.
    + by apply panic_free_idle in H.
Qed.

Lemma written_frame s msg :
  zlen msg <= u32_MAX -> concat (map (event_written s) (wrote s msg)) = frame_bytes msg.
Proof.
  intros Hl%Z.leb_le. rewrite frame_bytes_eq, Hl. cbn. by rewrite !decide_True, app_nil_r by done.
Qed.

Lemma said_hello_written x s1 m st :
  written s1 (met x ++ said_hello x s1 m st) = concat (map (event_written s1) (wrote s1 HELLO)).
Proof. unfold written, said_hello. rewrite !flat_app. cbn. by rewrite !app_nil_r. Qed.

Lemma said_world_written x s1 m st s2 m' st' :
  s1 <> s2 ->
  written s2 (met x ++ said_hello x s1 m st ++ said_world x s2 m' st')
  = concat (map (event_written s2) (wrote s2 WORLD)).
Proof.
  intros Hne. unfold written, said_hello, said_world. rewrite !flat_app. cbn.
  by rewrite !(decide_False (P := s1 = s2)), !app_nil_r by done.
Qed.

(** C8: the test basic_usage of connection.rs, with the listeners of its two connections
    running beside it in any interleaving: what is received at the end of one connection
    is what was sent at the other, so that no assertion of the test fails. *)
Theorem basic_usage_passes n t o g :
  runs test_basic_usage t o -> system n [t] g -> network n g -> ~ certificate_broken t ->
  o <> Halt Faulted.
Proof.
  intros Hr Hs Hnet Hcert ->. apply basic_usage_faulted in Hr
    as [?|(x & s1 & m & st & [[-> Hm]|(s2 & m' & st' & -> & Hm)])]; [done|..].
  - destruct (met_received n x _ g Hs Hnet) with (nc := mt_nc2 x) (chan := mt_chan2 x) (m := m) (st := st)
      as (c & s & Ho & _ & Hmsg).
    + by repeat constructor.
    + repeat constructor; apply list_elem_of_singleton; done.
    + by intros c s r ?%not_elem_of_nil.
    + by right.
    + apply elem_of_app. right. cbn. repeat first [by left|right].
    + apply list_elem_of_singleton in Ho as [= -> ->]. apply Hm, Hmsg.
      by rewrite <- (written_frame s1), said_hello_written by done.
  - destruct (met_received n x _ g Hs Hnet) with (nc := mt_nc1 x) (chan := mt_chan1 x) (m := m') (st := st')
      as (c & s & Ho & Hc & Hmsg).
    + by repeat constructor.
    + repeat constructor; cbn; set_solver.
    + by intros c s r ?%not_elem_of_nil.
    + by left.
    + apply elem_of_app. right. cbn. repeat first [by left|right].
    + assert (s1 <> s2) as Hne.
      { apply (met_streams_differ n x _ g Hs Hnet); [by repeat constructor
          |repeat constructor; cbn; set_solver|done]. }
      apply elem_of_cons in Ho as [[= -> _]|[= _ ->]%list_elem_of_singleton]; [done|]. apply Hm, Hmsg.
      by rewrite <- (written_frame s2), said_world_written by done.
Qed.

(** ** test_endpoint_echo *)

Definition event_connects (v : event ev) : list q_Endpoint :=
  match v with
  | Ev e _ => match e with Connect ep _ _ => [ep] | _ => [] end
  end.

(** The events of reading a message. *)
Definition reading (v : event ev) : Prop :=
  match v with
  | Ev e _ => match e with Read _ _ | ReadExact _ _ => True | _ => False end
  end.

Lemma read_reading rs : only reading (read_from_stream rs).
Proof. unfold read_from_stream, read_data, read_header_rest. repeat (only_step || done). Qed.

(** The echo request of the test, and the events up to its failure. *)
Lemma echo_faulted t :
  runs test_endpoint_echo t (Halt Faulted) ->
  certificate_broken t
  \/ exists x s r tw tr addr local,
       t = met x ++ [Ev (OpenBi (nc_connection (mt_nc1 x))) (Ok (s, r))] ++ tw ++ tr
           ++ [Ev (EndpointLocalAddr (mt_peer1 x)) (Ok local)]
       /\ runs (write_to_stream EndpointEchoReq s) tw (Done (Ok tt))
       /\ runs (read_from_stream r) tr (Done (Ok (Some (EndpointEchoResp addr))))
       /\ addr <> local.
Proof.
  intros H. eapply (meeting_faulted _ _ (fun _ peer1 _ peer2 _ p1_tx _ _ _ =>
    let? (send_stream, recv_stream) := open_bi p1_tx in
    let? _ := send_wire_msg send_stream EndpointEchoReq in
    let? r := tests_timeout (next_wire_msg recv_stream) in
    let? next := Ret r in
    match next with
    | Some (EndpointEchoResp addr) =>
        let? local := call (EndpointLocalAddr peer1) in
        assert_eq addr local (wait_both_idle peer1 peer2)
    | Some msg =>
        bail "received unexpected message when EndpointEchoResp was expected: {:?}" (Bail_message msg)
    | None => bail "did not receive incoming message when one was expected" Bail_nothing
    end)) in H as [?|(x & ic & inc1 & inc2 & t' & -> & H)]; [by left|right].
  apply faulted_try in H as ([ss rr] & t1 & t2 & -> & H1 & H); [|unfold open_bi; panic].
  unfold open_bi in H1.
  apply runs_try_done in H1 as [([s r] & t3 & t4 & -> & ->%runs_call_done & H1)|(?&_&?)]; [|done].
  apply runs_ret_done in H1 as [-> [= -> ->]].
  apply faulted_try in H as ([] & tw & t5 & -> & Hw & H); [|apply panic_free_write].
  apply faulted_try in H as (res & tr & t6 & -> & Hrd & H);
    [|unfold tests_timeout, timeout, next_wire_msg; panic].
  apply tests_timeout_runs in Hrd.
  apply faulted_try in H as (next & t7 & t8 & -> & [-> <-]%runs_ret_done & H); [|panic].
  destruct next as [[| addr | | |]|]; try (by apply panic_free_ret in H).
  apply faulted_try in H as (local & t9 & t10 & -> & ->%runs_call_done & H); [|panic].
  apply assert_faulted in H as [[Hne ->]|?%panic_free_idle]; [|done].
  exists x, s, r, tw, tr, addr, local. split_and!; [|done..]. by rewrite !app_nil_r.
Qed.

Section Echo.
Context (n : q_RecvStream -> stream) (x : meeting) (s : q_SendStream) (r : q_RecvStream).
Context (tw tr : list (event ev)) (local : SocketAddr).
Context (Hw : runs (write_to_stream EndpointEchoReq s) tw (Done (Ok tt))).
Context (Hr : exists res, runs (read_from_stream r) tr (Done res)).

Definition asked : list (event ev) :=
  [Ev (OpenBi (nc_connection (mt_nc1 x))) (Ok (s, r))] ++ tw ++ tr
  ++ [Ev (EndpointLocalAddr (mt_peer1 x)) (Ok local)].

Lemma asked_writes : Forall (fun v => exists data a, v = Ev (WriteAll s data) a) tw.
Proof.
  revert Hw. generalize (Done (Ok tt) : outcome (Result unit SendError)). intros o. revert tw o.
  change (only (fun v => exists data a, v = Ev (WriteAll s data) a) (write_to_stream EndpointEchoReq s)).
  unfold write_to_stream. repeat (only_step || by eauto).
Qed.

Lemma asked_reads : Forall reading tr.
Proof. destruct Hr as [res Hrd]. by apply read_reading in Hrd. Qed.

(** The events of the conversation. *)
Lemma asked_all (P : event ev -> Prop) :
  P (Ev (OpenBi (nc_connection (mt_nc1 x))) (Ok (s, r))) -> (forall data a, P (Ev (WriteAll s data) a)) ->
  (forall v, reading v -> P v) -> P (Ev (EndpointLocalAddr (mt_peer1 x)) (Ok local)) -> Forall P asked.
Proof.
  intros H1 H2 H3 H4. unfold asked. repeat (apply Forall_app; split); [by repeat constructor| | |by repeat constructor].
  - eapply Forall_impl; [|exact asked_writes]. by intros v (data & a & ->).
  - eapply Forall_impl; [|exact asked_reads]. done.
Qed.

Lemma asked_plain : Forall plain asked.
Proof. apply asked_all; try done. intros [T e y]. by destruct e. Qed.

(** What a function collects from the writes and reads, when it ignores them. *)
Lemma asked_collect {B} (f : event ev -> list B) :
  (forall data a, f (Ev (WriteAll s data) a) = []) -> (forall v, reading v -> f v = []) ->
  concat (map f asked)
  = f (Ev (OpenBi (nc_connection (mt_nc1 x))) (Ok (s, r)))
    ++ f (Ev (EndpointLocalAddr (mt_peer1 x)) (Ok local)).
Proof.
  intros H1 H2. unfold asked. rewrite !flat_app.
  assert (concat (map f tw) = []) as ->.
  { apply flat_nil. eapply Forall_impl; [|exact asked_writes]. by intros v (data & a & ->). }
  assert (concat (map f tr) = []) as ->.
  { apply flat_nil. eapply Forall_impl; [|exact asked_reads]. done. }
  cbn. by rewrite !app_nil_r.
Qed.

Lemma asked_streams : send_streams (met x ++ asked) = [s].
Proof.
  unfold send_streams. rewrite flat_app, asked_collect; [done|done|]. intros [T e y]. by destruct e.
Qed.

Lemma asked_owned : Forall (event_owned (send_streams (met x ++ asked))) asked.
Proof.
  rewrite asked_streams. apply asked_all; try done; [intros; cbn; by left|]. intros [T e y]. by destruct e.
Qed.

Lemma asked_echo c s' r' :
  (c, s', r') ∈ opens_bi asked ->
  written s' (met x ++ asked) `prefix_of` frame_or_nothing EndpointEchoReq.
Proof.
  unfold opens_bi. rewrite asked_collect; [|done|intros [T e y]; by destruct e].
  intros [= _ -> _]%list_elem_of_singleton. rewrite written_app.
  assert (written s (met x) = []) as -> by done. unfold asked. rewrite !written_app.
  assert (written s tr = []) as ->.
  { apply flat_nil. eapply Forall_impl; [|exact asked_reads]. intros [T e y]. by destruct e. }
  cbn. rewrite app_nil_r. by eapply write_part.
Qed.

(** The message at the end of an honest reader's stream. *)
Lemma asked_read addr :
  runs (read_from_stream r) tr (Done (Ok (Some (EndpointEchoResp addr)))) ->
  reads_truly n (met x ++ asked) -> (decode (n r)).1 = Ok (Some (EndpointEchoResp addr)).
Proof.
  intros Hrd [n' Hc]. unfold asked in Hc. rewrite !app_assoc in Hc.
  apply conforms_app in Hc as (n2 & Hc & _). apply conforms_app in Hc as (n1 & Hc1 & Hc2).
  destruct (read_decodes _ _ _ _ _ Hrd Hc2) as [Hd _].
  assert (n1 r = n r) as <-; [|by rewrite <- Hd].
  apply (harmless_keeps r _ _ _) with (2 := Hc1). repeat (apply Forall_app; split); [by repeat constructor..|].
  eapply Forall_impl; [|exact asked_writes]. by intros v (data & a & ->).
Qed.

Context (g : list (event ev)) (Hs : system n [met x ++ asked] g) (Hnet : network n g).

(** A stream is accepted by a listener; one that is not accepted at the end of the first
    connection, by that of the second. *)
Lemma accepted_at_second (sp : list (task * list (event ev))) bs p :
  merges ((met x ++ asked) :: map snd sp) g ->
  Forall (fun y => listener_of (met x ++ asked) y.1 /\ task_trace n y.1 y.2) sp ->
  Ev (NextBi bs) (Some (Ok p)) ∈ g -> ~ own_bi g (nc_connection (mt_nc1 x)) bs ->
  exists ep alive tx tr', task_trace n (ListenOnBiStreams ep (mt_remote2 x) bs alive tx) tr'
    /\ Ev (NextBi bs) (Some (Ok p)) ∈ tr' /\ tr' ∈ map snd sp.
Proof.
  intros Hm Hsp Hacc Hother.
  destruct (event_cases n _ _ _ _ Hm (listener_background _) Hsp _ Hacc) as [Hv|[(peer & us & alive & tx & tr' & _ & [[o Hu%uni_thread] _] & Hv & _)
    |[(ep & peer & bs' & alive & tx & tr' & [_ Hx] & Ht & Hv & Htr)|(? & ? & ? & ? & ? & [[] _] & _)]]].
  - exfalso. apply elem_of_app in Hv as [Hv|Hv].
    + cbn in Hv. repeat (apply elem_of_cons in Hv as [?|Hv]; [done|]). by apply not_elem_of_nil in Hv.
    + assert (Forall (fun v => event_bi_accepted v = []) asked) as Hno.
      { apply asked_all; try done. intros [T e y]. by destruct e. }
      rewrite list.Forall_forall in Hno. by specialize (Hno _ Hv).
  - rewrite list.Forall_forall in Hu. by destruct (Hu _ Hv).
  - assert (bs = bs') as <-.
    { destruct Ht as [[st He%bi_thread_events] _]. rewrite list.Forall_forall in He. apply (He _ Hv). }
    exists ep, alive, tx, tr'. assert (peer = mt_remote2 x) as ->; [|done].
    rewrite (met_spawned x asked asked_plain) in Hx.
    repeat (apply elem_of_cons in Hx as [Hl|Hx]; [|]); [done| |done|by injection Hl|by apply not_elem_of_nil in Hx].
    injection Hl as -> -> -> _. exfalso. apply Hother. exists (mt_connecting1 x), (mt_nc1 x).
    split; [|done]. apply (user_event _ _ _ Hm), elem_of_app. left. cbn. repeat first [by left|right].
Qed.

(** What arrives for the test is part of the answer that its peer's address is owed. *)
Lemma asked_answered : content (n r) `prefix_of` frame_or_nothing (EndpointEchoResp (mt_remote2 x)).
Proof.
  destruct (met_threads n x asked g Hs asked_plain asked_owned) as (sp & Hm & Hsp & Hwo & Hmute).
  pose proof (met_echo x asked asked_echo) as Hecho.
  assert (Ev (OpenBi (nc_connection (mt_nc1 x))) (Ok (s, r)) ∈ g) as Hopen.
  { apply (user_event _ _ _ Hm). apply elem_of_app. right. by left. }
  destruct (net_answer _ _ Hnet _ _ _ Hopen) as [->|(bs & s' & r' & Hacc & Hother & Hf)]; [apply prefix_nil|].
  destruct (accepted_at_second sp bs _ Hm Hsp Hacc Hother) as (ep & alive & tx & tr' & Ht & Hv & Htr).
  destruct (listener_parts n _ _ _ Hm Hnet _ _ _ _ _ _ Ht Htr) as (He & tr0 & ps & hs & Hp).
  assert (written s' g = written s' tr') as Hw'.
  { apply list_elem_of_lookup in Htr as [i Hi].
    eapply (written_owner ((met x ++ asked) :: map snd sp) g (S i)); [exact Hm
      |apply (net_send_streams _ _ Hnet)|by apply (all_write_own n _ g sp _ Hm (listener_background (met x ++ asked)))|exact Hi|].
    apply elem_of_flat. eexists. split; [exact Hv|by left]. }
  unfold feeds in Hf. rewrite Hw' in Hf.
  destruct (bi_thread_written _ _ _ _ _ _ _ _ _ _ Hp Hv) as [H0|(h & ([o Hrun] & Hrt & Hfr) & Hwh)].
  - cbn in H0. rewrite H0 in Hf. apply prefix_nil_inv in Hf as ->. apply prefix_nil.
  - cbn in Hwh. rewrite Hwh in Hf. etrans; [exact Hf|].
    assert (content (n r') `prefix_of` frame_or_nothing EndpointEchoReq) as Hpre
      by (by eapply (bi_stream_echo n _ g sp _ Hm (listener_background _) Hsp Hnet Hwo Hmute Hecho bs (s', r'))).
    destruct (echo_handler _ _ _ _ _ _ _ _ Hrun Hrt Hfr Hpre) as (_ & Hwr & _). etrans; [exact Hwr|].
    unfold echo_owed. case_bool_decide; [apply prefix_nil|done].
Qed.

(** That address is the local address of the connecting endpoint. *)
Lemma asked_direct : direct g -> mt_remote2 x = local.
Proof.
  intros Hd. destruct (met_threads n x asked g Hs asked_plain asked_owned) as (sp & Hm & Hsp & Hwo & Hmute).
  assert (forall v, v ∈ met x -> v ∈ g) as Hmet
    by (intros v Hv; apply (user_event _ _ _ Hm), elem_of_app; by left).
  destruct (Hd (mt_incoming2 x) (mt_connecting2 x) (mt_nc2 x) (mt_remote2 x))
    as (ep & dst & name & k' & Hc & Ha); [apply Hmet; cbn; repeat first [by left|right]..|].
  apply (reached_by_user n _ g sp _ Hm (listener_background _) Hsp Hnet Hwo Hmute (met_echo x asked asked_echo)) in Hc; [|by intros []].
  assert (ep ∈ concat (map event_connects (met x ++ asked))) as Hep
    by (apply elem_of_flat; eexists; split; [exact Hc|by left]).
  rewrite flat_app, asked_collect in Hep; [|done|intros [T e y]; by destruct e].
  apply list_elem_of_singleton in Hep as ->. symmetry. apply Ha, (user_event _ _ _ Hm).
  unfold asked. rewrite !app_assoc. apply elem_of_app. right. by left.
Qed.

End Echo.

(** C9: the test test_endpoint_echo of connection.rs, with the listeners of its two
    connections beside it in any interleaving, in a network that does not translate
    addresses: the answer to the echo request, if one arrives, is the local address of the
    endpoint that asked, so that the assertion of the test does not fail. *)
Theorem endpoint_echo_passes n t o g :
  runs test_endpoint_echo t o -> reads_truly n t -> system n [t] g -> network n g -> direct g ->
  ~ certificate_broken t -> o <> Halt Faulted.
Proof.
  intros Hr Ht Hs Hnet Hd Hcert ->.
  apply echo_faulted in Hr as [?|(x & s & r & tw & tr & addr & local & -> & Hw & Hr & Hne)]; [done|].
  apply Hne.
  assert (exists res, runs (read_from_stream r) tr (Done res)) as Hrd by eauto.
  change (system n [met x ++ asked x s r tw tr local] g) in Hs.
  pose proof (asked_read n x s r tw tr local Hw _ Hr Ht) as Hdec.
  pose proof (asked_answered n x s r tw tr local Hw Hrd g Hs Hnet) as Hpre.
  destruct (decode_part _ _ Hpre) as [_ Hm]; [done|].
  specialize (Hm _ Hdec). injection Hm as ->.
  by apply (asked_direct n x s r tw tr local Hw Hrd g Hs Hnet).
Qed.

(** ** benign_connection_loss *)

(** A listener whose connection times out reports nothing. *)
Lemma idle_uni n us tx tr o :
  runs (listen_on_uni_streams us tx) tr o -> reads_truly n tr -> Forall event_idle tr ->
  reported tr = [].
Proof.
  intros Hr%runs_loop [n' Hc] Hi.
  assert (Forall (fun a => a = Some (Err q_TimedOut)) (accepted tr)) as Ha.
  { apply list.Forall_forall. intros a ([T e y] & Hv & Ha)%elem_of_flat.
    rewrite list.Forall_forall in Hi. specialize (Hi _ Hv).
    destruct e; try by apply not_elem_of_nil in Ha. apply list_elem_of_singleton in Ha as ->. exact Hi. }
  assert (streams_of (accepted tr) = []) as Hst.
  { apply flat_nil. revert Ha. apply Forall_impl. by intros a ->. }
  destruct (uni_listener_from _ _ None _ _ _ _ Hr Hc) as [[k Hp] _].
  { cbn [option_list app]. rewrite Hst. constructor. }
  assert (uni_spec n (accepted tr) = []) as Hu by (by destruct Ha as [|a l -> _]).
  cbn [uni_spec_from] in Hp. rewrite Hu in Hp. by destruct (reported tr).
Qed.

Lemma idle_bi ep peer bs tx tr st :
  bi_listener ep peer bs tx tr st -> Forall event_idle tr -> reported tr = [].
Proof.
  intros (tr0 & ps & o & hs & Ha & Hh & Hm%spawns_merges & _) Hi. cbn [app] in Hm.
  apply accepts_starts in Ha as (extra & Hex & Hout).
  assert (Forall event_idle tr0) as Hi0.
  { apply list.Forall_forall. intros v Hv. rewrite list.Forall_forall in Hi. apply Hi.
    eapply event_thread; [exact Hm|by left|done]. }
  assert (List.filter accepts_stream tr0 = []) as Hno.
  { clear -Hout Hi0. induction Hout as [|v tr0 [a ->] _ IH]; [done|].
    apply Forall_cons_1 in Hi0 as [Ha Hi0]. cbn in Ha. subst a. by apply IH. }
  rewrite Hno in Hex. destruct ps as [|p ps]; [|done]. inversion Hh; subst hs.
  apply merges_only_first in Hm as ->; [|constructor].
  apply flat_nil. revert Hout. apply Forall_impl. by intros v [a ->].
Qed.

(** An error before the peers are connected. *)
Definition set_up_error (e : Report) : Prop :=
  match e with
  | Report_bail message _ => message = "did not receive incoming connection when one was expected"%string
  | _ => True
  end.

Lemma two_peers_error ic t e : runs (two_peers ic) t (Done (Err e)) -> set_up_error e.
Proof.
  unfold two_peers. intros H.
  apply runs_try_done in H as [([p1 i1] & t1 & t2 & -> & _ & H)|(?&_&?)]; [|by simplify_eq].
  apply runs_bind_done in H as ([] & t3 & t4 & -> & _ & H).
  apply runs_try_done in H as [([p2 i2] & t5 & t6 & -> & _ & H)|(?&_&?)]; [|by simplify_eq].
  by apply runs_ret_done in H as [_ ?].
Qed.

Lemma open_connection_error peer1 peer2 t e :
  runs (open_connection peer1 peer2) t (Done (Err e)) -> set_up_error e.
Proof.
  unfold open_connection. intros H.
  apply runs_try_done in H as [(addr & t1 & t2 & -> & _ & H)|(?&_&?)]; [|by simplify_eq].
  apply runs_try_done in H as [(k & t3 & t4 & -> & _ & H)|(?&_&?)]; [|by simplify_eq].
  apply runs_try_done in H as [(nc & t5 & t6 & -> & _ & H)|(?&_&?)]; [|by simplify_eq].
  apply runs_bind_done in H as (c & t7 & t8 & -> & _ & H). by apply runs_ret_done in H as [_ ?].
Qed.

Lemma accept_connection_error peer inc t e :
  runs (accept_connection peer inc) t (Done (Err e)) -> set_up_error e.
Proof.
  unfold accept_connection. intros H.
  apply runs_try_done in H as [(r & t1 & t2 & -> & _ & H)|(?&_&?)]; [|by simplify_eq].
  apply runs_try_done in H as [(next & t3 & t4 & -> & _ & H)|(?&_&?)]; [|by simplify_eq].
  destruct next as [nc|].
  - apply runs_bind_done in H as (c & t5 & t6 & -> & _ & H). by apply runs_ret_done in H as [_ ?].
  - apply runs_ret_done in H as [_ [= ->]]. done.
Qed.

(** Sending on a connection that timed out, without retries. *)
Lemma send_idle c msg t r :
  default_retry_config c = None -> runs (send c msg) t (Done r) -> Forall event_idle t ->
  r = Err (SendError_ConnectionLost ConnectionError_TimedOut)
  /\ t = [Ev (OpenUni (conn_inner c)) (Err q_TimedOut)].
Proof.
  unfold send, send_with. intros -> H Hi.
  assert (forall t r, runs (open_uni c) t (Done r) -> Forall event_idle t ->
    r = Err ConnectionError_TimedOut /\ t = [Ev (OpenUni (conn_inner c)) (Err q_TimedOut)]) as Hopen.
  { unfold open_uni. clear. intros t r H Hi.
    apply runs_try_done in H as [(s & t1 & t2 & -> & ->%runs_call_done & H)|(e & ->%runs_call_done & ->)];
      apply Forall_cons_1 in Hi as [He _]; cbn in He; by simplify_eq. }
  assert (forall t r, runs (send_uni c msg 0) t (Done r) -> Forall event_idle t ->
    r = Err (SendError_ConnectionLost ConnectionError_TimedOut)
    /\ t = [Ev (OpenUni (conn_inner c)) (Err q_TimedOut)]) as Huni.
  { unfold send_uni. clear H Hi t r. intros t r H Hi.
    apply runs_bind_done in H as (a & t1 & t2 & -> & H1 & H). apply Forall_app in Hi as [Hi1 Hi2].
    destruct (Hopen _ _ H1 Hi1) as [-> ->]. cbn in H. apply runs_ret_done in H as [-> ->]. done. }
  apply runs_try_done in H as [([] & t1 & t2 & -> & H1 & _)|(e & H1 & ->)].
  - apply Forall_app in Hi as [Hi _]. by destruct (Huni _ _ H1 Hi).
  - by destruct (Huni _ _ H1 Hi) as [[= ->] ->].
Qed.

(** In an idle system nothing is delivered. *)
Lemma idle_silent n x rest g rx item :
  system n [met x ++ rest] g -> network n g -> Forall event_idle g -> Forall plain rest ->
  Forall (event_owned (send_streams (met x ++ rest))) rest ->
  Ev (RecvMessage rx) (Some item) ∉ g.
Proof.
  intros Hs Hnet Hi Hp Ho (g1 & g2 & Hg)%list_elem_of_split.
  destruct (met_threads n x rest g Hs Hp Ho) as (sp & Hm & Hsp & _ & Hmute).
  destruct (net_channel _ _ Hnet _ _ _ _ Hg) as (cap & tx & _ & Hsent).
  assert (Ev (SendMessage tx item) (Ok tt) ∈ g) as Hin by (rewrite Hg; apply elem_of_app; by left).
  assert (forall tr, tr ∈ map snd sp -> Forall event_idle tr) as Hidle.
  { intros tr Htr. apply list.Forall_forall. intros v Hv. rewrite list.Forall_forall in Hi.
    apply Hi. eapply event_thread; [exact Hm|by right|done]. }
  destruct (event_cases n _ _ _ _ Hm (listener_background _) Hsp _ Hin)
    as [Hv|[(peer & us & al & tx' & tr & _ & [[o Hr] Hc] & Hv & Htr)
      |[(ep & peer & bs & al & tx' & tr & _ & [[st Hr] _] & Hv & Htr)|(? & ? & ? & ? & ? & [[] _] & _)]]].
  - by apply Hmute in Hv.
  - apply sent_is_reported in Hv. rewrite (idle_uni _ _ _ _ _ Hr Hc (Hidle _ Htr)) in Hv.
    by apply not_elem_of_nil in Hv.
  - apply sent_is_reported in Hv. rewrite (idle_bi _ _ _ _ _ _ Hr (Hidle _ Htr)) in Hv.
    by apply not_elem_of_nil in Hv.
Qed.

(** A test whose first steps return an error, or bring the peers together. *)
Lemma meeting_done config t r
    (k : InternalConfig -> q_Endpoint -> q_Incoming -> q_Endpoint -> q_Incoming -> Connection ->
         ConnectionIncoming -> Connection -> ConnectionIncoming -> io (Result unit Report)) :
  runs (let? ic := try_from_config config in
        let? (peer1, inc1, (peer2, inc2)) := two_peers ic in
        let? (p1_tx, p1_rx) := open_connection peer1 peer2 in
        let? (p2_tx, p2_rx) := accept_connection peer2 inc2 in
        k ic peer1 inc1 peer2 inc2 p1_tx p1_rx p2_tx p2_rx) t (Done r) ->
  (exists e, r = Err e /\ set_up_error e)
  \/ exists x ic inc1 inc2 t', t = met x ++ t'
       /\ runs (k ic (mt_peer1 x) inc1 (mt_peer2 x) inc2 (mt_conn1 x) (mt_rx1 x) (mt_conn2 x)
                  (mt_rx2 x)) t' (Done r).
Proof.
  intros H.
  apply runs_try_done in H as [(ic & t0 & t' & -> & H0 & H)|(e & _ & ->)]; [|by left; eexists].
  apply runs_try_done in H as [([[p1 i1] [p2 i2]] & t1 & t'' & -> & H1 & H)|(e & H1%two_peers_error & ->)];
    [|by left; eexists].
  apply runs_try_done in H as [([c1 r1] & t2 & t3 & -> & H2 & H)|(e & H2%open_connection_error & ->)];
    [|by left; eexists].
  apply runs_try_done in H as [([c2 r2] & t4 & t5 & -> & H3 & H)|(e & H3%accept_connection_error & ->)];
    [|by left; eexists].
  destruct (meeting_of _ _ _ _ _ _ _ _ _ _ _ _ _ _ H0 H1 H2 H3) as (x & Hx & -> & -> & -> & -> & -> & ->).
  right. exists x, ic, i1, i2, t5. split; [|done]. by rewrite <- Hx, <- !app_assoc.
Qed.

(** C10: the test benign_connection_loss of connection.rs, with the listeners of its two
    connections beside it: when the connection is lost to an idle timeout at both ends,
    sending fails with the loss of the connection, while the receiver comes to a normal end
    and not to an error; the test passes, unless the peers could not be connected. *)
Theorem benign_loss_passes n t r g :
  runs test_benign_connection_loss t (Done r) -> system n [t] g -> network n g ->
  Forall event_idle g -> r = Ok tt \/ exists e, r = Err e /\ set_up_error e.
Proof.
  intros H Hs Hnet Hi. eapply (meeting_done _ _ _ (fun _ _ _ _ _ p1_tx _ _ p2_rx =>
    let* _ := call (Sleep (from_secs 2)) in
    let* sent := send p1_tx HELLO in
    match sent with
    | Err (SendError_ConnectionLost ConnectionError_TimedOut) =>
        let* received := ConnectionIncoming_next p2_rx in
        match received with
        | Ok None => Ret (Ok tt)
        | res => bail "unexpected recv result: {:?}" (Bail_received res)
        end
    | res => bail "unexpected send result: {:?}" (Bail_sent res)
    end)) in H as [?|(x & _ & _ & _ & t' & -> & H)]; [by right|left].
  apply runs_bind_done in H as ([] & t1 & t2 & -> & ->%runs_call_done & H).
  apply runs_bind_done in H as (sent & t3 & t4 & -> & Hsend & H).
  assert (Forall event_idle t3) as Hi3.
  { apply list.Forall_forall. intros v Hv. rewrite list.Forall_forall in Hi. apply Hi.
    by eapply system_user; [exact Hs|by left|rewrite !elem_of_app; auto]. }
  destruct (send_idle (mt_conn1 x) _ _ _ eq_refl Hsend Hi3) as [-> ->].
  apply runs_bind_done in H as (rcv & t5 & t6 & -> & (a & -> & Ha)%next_runs & H).
  destruct a as [item|]; [|by subst rcv; apply runs_ret_done in H as [_ ?]]. exfalso.
  assert (Ev (RecvMessage (mt_chan2 x).2) (Some item) ∈ g) as Hv.
  { eapply system_user; [exact Hs|by left|]. rewrite !elem_of_app. right; right; right; left. by left. }
  revert Hv. assert (t6 = []) as ->.
  { by destruct item as [[m st]|e]; subst rcv; apply runs_ret_done in H as [-> _]. }
  eapply idle_silent; [exact Hs|done..| |]; by repeat constructor.
Qed.

End ConnectionTests.
