(* ===== verification/CommonTests.v ===== *)
(** * tests/common.rs: one endpoint visits another

    Two whole endpoints: their accept loops run in the background, and every connection,
    accepted or opened, has its listeners. A user who only brings up endpoints, connects
    from one of them and sends one message ([visitor], [carries]) finds at the other end a
    connection from the address it connected from, and receives no other message. *)

From Stdlib Require Import Strings.Byte.
From S2P Require Import Prelude Std Parse Foreign WireTypes Errors ErrorText ConfigTypes Prog Eyre.
From S2P Require Import ProgFacts Effects Wire StreamSpec WireFacts Framing Config ConfigFacts.
From S2P Require Import Connection Incoming Channel Igd Endpoint EndpointFacts Panics NewPeer.
From S2P Require Import UniListener BiListener BiStreams Delivery System SystemFacts EchoStreams.
From S2P Require Import Peers Tests EndpointTests ConnectionTests.

Local Open Scope Z_scope.
Local Open Scope prog_scope.

Section CommonTests.
Context {F : Foreign} {Bc : Bincode} {BcL : BincodeLaws} {Bo : Backoff} {BL : BackoffLaws}.
Context `{!EqDecision q_SendStream, !EqDecision q_RecvStream}.

(** ** The accept loop *)

(** A connection that is handed over is one that came in. *)
Lemma accept_handed inc tx ep cfg tr o tx' c a :
  runs (accept_connections inc tx ep cfg) tr o -> Ev (SendConnection tx' c) a ∈ tr ->
  exists k nc, Ev (NextIncoming inc) (Some k) ∈ tr /\ Ev (AwaitConnecting k) (Ok nc) ∈ tr
    /\ conn_inner c.1 = nc_connection nc.
Proof.
  intros Hr Hv. destruct (accept_loop_ok _ _ _ _ _ _ Hr) as [[l Hp] _].
  assert (conn_inner c.1 ∈ arrivals tr) as Hin.
  { rewrite Hp. apply elem_of_app. left. apply elem_of_flat. eexists. split; [exact Hv|by left]. }
  apply elem_of_flat in Hin as ([T e x] & Ha & Hi). destruct e; try by apply not_elem_of_nil in Hi.
  cbn in Hi. destruct x as [nc|]; [|by apply not_elem_of_nil in Hi].
  apply list_elem_of_singleton in Hi. eexists _, nc. split_and!; [|exact Ha|done].
  by eapply accept_awaits.
Qed.


(** ** Visitors *)

Lemma nodup_map_inj {A B} (f : A -> B) l x y :
  NoDup (map f l) -> x ∈ l -> y ∈ l -> f x = f y -> x = y.
Proof.
  induction l as [|z l IH]; [by intros _ ?%not_elem_of_nil|]. cbn [map].
  intros [Hz Hn]%list.NoDup_cons [->|Hx]%elem_of_cons [->|Hy]%elem_of_cons Hf; [done| | |by apply IH].
  - destruct Hz. rewrite Hf. by apply list_elem_of_fmap_2.
  - destruct Hz. rewrite <- Hf. by apply list_elem_of_fmap_2.
Qed.

Lemma channel_elem cap ch t : Ev (NewMessageChannel cap) ch ∈ t -> ch ∈ channels t.
Proof. intros Hv. apply elem_of_flat. eexists. split; [exact Hv|by left]. Qed.

Lemma carries_own msg t : carries msg t -> writes_own t.
Proof.
  intros [Hc _] s Hni. apply Hc. intros Hin. apply Hni. apply elem_of_flat in Hin as ([T e y] & Hin & Hi).
  apply elem_of_flat. exists (Ev e y). split; [done|].
  destruct e; try (by apply not_elem_of_nil in Hi); exact Hi.
Qed.

(** What a user does who brings up endpoints and connects from [ep] only: the tasks are
    accept loops and listeners, requests are left alone, and so are the channels' sending
    halves. *)
Definition visitor (ep : q_Endpoint) (v : event ev) : Prop :=
  match v with
  | Ev e _ =>
      match e with
      | SendMessage _ _ | OpenBi _ | SendConnection _ _ => False
      | Connect ep' _ _ => ep' = ep
      | Spawn x => background x
      | _ => True
      end
  end.

Section Visit.
Context (n : q_RecvStream -> stream) (t g : list (event ev)) (ep : q_Endpoint).
Context (Hs : system n [t] g) (Hnet : network n g).
Context (Hv : Forall (visitor ep) t) (Hw : writes_own t).

Lemma visit_never v : ~ visitor ep v -> v ∉ t.
Proof. intros Hno Hin. assert (Forall (visitor ep) t) as Hall by done. rewrite list.Forall_forall in Hall. auto. Qed.

Lemma visit_mute tx item a : Ev (SendMessage tx item) a ∉ t.
Proof. apply visit_never. by intros []. Qed.

Lemma visit_threads :
  exists sp, merges (t :: map snd sp) g
    /\ Forall (fun x => running_in g x.1 /\ task_trace n x.1 x.2) sp.
Proof.
  apply background_threads; [done|]. apply list.Forall_forall.
  intros x ([T e y] & Hin & Hi)%elem_of_flat. assert (visitor ep (Ev e y)) as Ht.
  { assert (Forall (visitor ep) t) as Hall by done. rewrite list.Forall_forall in Hall. auto. }
  destruct e; try by apply not_elem_of_nil in Hi. by apply list_elem_of_singleton in Hi as ->.
Qed.

Lemma visit_echo c s r :
  Ev (OpenBi c) (Ok (s, r)) ∈ t -> written s t `prefix_of` frame_or_nothing EndpointEchoReq.
Proof. intros []%visit_never. by intros []. Qed.

(** A message that is received was written by the user, on a stream of another connection
    than the one whose listener feeds the channel. *)
Lemma visit_message rx m st :
  Ev (RecvMessage rx) (Some (Ok (m, st))) ∈ t ->
  exists cap tx peer us alive c s, Ev (NewMessageChannel cap) (tx, rx) ∈ g
    /\ ListenOnUniStreams peer us alive tx ∈ spawned g
    /\ Ev (OpenUni c) (Ok s) ∈ t /\ ~ own_uni g c us
    /\ forall msg, written s t `prefix_of` frame_bytes msg -> m = msg.
Proof.
  intros Hin. destruct visit_threads as (sp & Hm & Hsp). apply (user_event _ _ _ Hm) in Hin.
  destruct (message_origin n _ _ _ _ Hm (running_background _) Hsp Hnet Hw)
    with (2 := visit_echo) (3 := Hin) as (cap & tx & peer & us & alive & r & Hch & [_ Hl] & Hnext & Hi).
  { apply visit_mute. }
  destruct (net_uni _ _ Hnet _ _ Hnext) as (c & s & Hopen & Hother & Hf).
  apply (opened_by_user n _ _ _ _ Hm (running_background _) Hsp) in Hopen.
  exists cap, tx, peer, us, alive, c, s. split_and!; [done..|]. intros msg Hmsg.
  eapply items_of_part; [|exact Hi]. etrans; [exact Hf|].
  rewrite (written_user n _ _ _ _ Hm (running_background _) Hsp Hnet Hw); [done|].
  apply elem_of_flat. eexists. split; [exact Hopen|by left].
Qed.

(** The listener that feeds a channel of the user's is the one the user started. *)
Lemma visit_listener cap cap' chan tx peer us alive :
  Ev (NewMessageChannel cap') chan ∈ t -> Ev (NewMessageChannel cap) (tx, chan.2) ∈ g ->
  ListenOnUniStreams peer us alive tx ∈ spawned g ->
  ListenOnUniStreams peer us alive chan.1 ∈ spawned t.
Proof.
  intros Hch Hch' Hl. destruct visit_threads as (sp & Hm & Hsp).
  assert (tx = chan.1) as ->.
  { pose proof (user_event _ _ _ Hm _ Hch) as Hg.
    assert ((tx, chan.2) = chan) as Heq; [|by rewrite <- Heq].
    apply (nodup_map_inj snd (channels g)); [apply (net_receivers _ _ Hnet)|by eapply channel_elem..|done]. }
  apply elem_of_flat in Hl as ([T e x] & Hin & Hi). destruct e; try by apply not_elem_of_nil in Hi.
  apply list_elem_of_singleton in Hi as <-.
  destruct (event_cases n _ _ _ _ Hm (running_background _) Hsp _ Hin)
    as [Hu|[(? & ? & ? & ? & tr & _ & [[o Hr%uni_thread] _] & Hx & _)
      |[(? & ? & ? & ? & ? & tr & _ & [[st Hr%bi_thread_events] _] & Hx & _)
      |(inc & tx' & ep' & cfg & tr & _ & _ & [[o Hr%accept_channel] _] & Hx & Htr)]]].
  { apply elem_of_flat. eexists. split; [exact Hu|by left]. }
  1,2: rewrite list.Forall_forall in Hr; by destruct (Hr _ Hx).
  exfalso. destruct (Hr _ _ _ _ _ Hx) as (cap2 & rx & Hch2).
  apply list_elem_of_lookup in Htr as [i Htr].
  assert (forall u, map fst (channels u) = concat (map (fun v => map fst (event_channels v)) u)) as Hflat.
  { clear. intros u. unfold channels. by rewrite concat_map, map_map. }
  pose proof (net_senders _ _ Hnet) as Hnd. rewrite Hflat in Hnd.
  rewrite (merges_permutation _ _ (merges_flat_map (fun v => map fst (event_channels v)) _ _ Hm)) in Hnd.
  assert (forall u ch, ch ∈ channels u -> ch.1 ∈ concat (map (fun v => map fst (event_channels v)) u)) as Hfst.
  { clear -Hflat. intros u ch Hch. rewrite <- Hflat. by apply list_elem_of_fmap_2. }
  assert ((t :: map snd sp) !! S i = Some tr) as Hi by exact Htr.
  assert (0 = S i)%nat; [|done].
  eapply (nodup_concat_unique _ _ _ _ _ _ Hnd); [by rewrite list_lookup_fmap|by rewrite list_lookup_fmap, Hi|..].
  - by apply Hfst, (channel_elem cap').
  - by apply (Hfst _ (chan.1, rx)), (channel_elem cap2).
Qed.

(** A connection that is accepted comes from the address of the endpoint that connects. *)
Lemma visit_remote rx c a local :
  direct g -> handed_over g -> Ev (RecvConnection rx) (Some c) ∈ t ->
  Ev (RemoteAddress (conn_inner c.1)) a ∈ t -> Ev (EndpointLocalAddr ep) (Ok local) ∈ t -> a = local.
Proof.
  intros Hd Hh Hrecv Hra Hl. destruct visit_threads as (sp & Hm & Hsp).
  apply (user_event _ _ _ Hm) in Hrecv, Hra, Hl.
  apply list_elem_of_split in Hrecv as (g1 & g2 & Hg).
  destruct (Hh _ _ _ _ Hg) as (cap & tx & _ & Hsend).
  assert (Ev (SendConnection tx c) true ∈ g) as Hin by (rewrite Hg; apply elem_of_app; by left).
  destruct (event_cases n _ _ _ _ Hm (running_background _) Hsp _ Hin)
    as [[]%visit_never|[(? & ? & ? & ? & ? & _ & [[o Hr%uni_thread] _] & Hx & _)
      |[(? & ? & ? & ? & ? & ? & _ & [[st Hr%bi_thread_events] _] & Hx & _)
      |(inc & tx' & ep' & cfg & tr & _ & _ & [[o Hr] _] & Hx & Htr)]]]; [by intros []|..].
  1,2: rewrite list.Forall_forall in Hr; by destruct (Hr _ Hx).
  destruct (accept_handed _ _ _ _ _ _ _ _ _ Hr Hx) as (k & nc & Hk & Hnc & Hcn).
  assert (forall v, v ∈ tr -> v ∈ g) as Hsub by (intros v Hvt; eapply event_thread; [exact Hm|by right|done]).
  rewrite Hcn in Hra.
  destruct (Hd _ _ _ _ (Hsub _ Hk) (Hsub _ Hnc) Hra) as (ep2 & dst & name & k' & Hconn & Ha).
  apply (reached_by_user n _ g sp _ Hm (running_background _) Hsp Hnet Hw) in Hconn;
    [|apply visit_mute|apply visit_echo|by intros []].
  assert (visitor ep (Ev (Connect ep2 dst name) (Ok k'))) as Heq.
  { assert (Forall (visitor ep) t) as Hall by done. rewrite list.Forall_forall in Hall. auto. }
  cbn in Heq. subst ep2. symmetry. apply Ha, Hl.
Qed.

End Visit.

(** A user who sends one message: it is the only one to be received. *)
Lemma visit_one_message n t g ep :
  system n [t] g -> network n g -> Forall (visitor ep) t ->
  forall msg, carries msg t -> forall rx m st, Ev (RecvMessage rx) (Some (Ok (m, st))) ∈ t -> m = msg.
Proof.
  intros Hs Hnet Hv msg Hc rx m st Hin.
  destruct (visit_message n t g ep Hs Hnet Hv (carries_own _ _ Hc) _ _ _ Hin)
    as (cap & tx & peer & us & alive & c & s & _ & _ & Hopen & _ & Hmsg).
  apply Hmsg, (proj2 Hc), elem_of_flat. eexists. split; [exact Hopen|by left].
Qed.

(** ** The steps of a visit *)

(** An endpoint without contacts, external address and port forwarding. *)
Lemma new_endpoint_runs ep t p inc c :
  runs new_endpoint t (Done (Ok (p, inc, c))) ->
  Forall (visitor ep) t /\ Forall mute t
  /\ Ev (EndpointLocalAddr (quinn_endpoint p)) (Ok (local_addr p)) ∈ t
  /\ public_addr p = local_addr p.
Proof.
  unfold new_endpoint. intros H.
  apply runs_try_done in H as [(peer & t1 & t2 & -> & H & [-> [= <-]]%runs_ret_done)|(e & _ & ?)]; [|done].
  rewrite app_nil_r. apply new_peer_started in H
    as (t0 & te & tf & tv & visible & qi & tx & -> & Hl & Hseen & Hp & Hf & Hver & _ & Hc).
  destruct (Hc eq_refl) as [Hn H0]. rewrite Hn in Hseen, Hver. destruct Hseen as [-> ->].
  cbn in Hf, Hver. subst tf tv. cbn [app]. split_and!.
  - apply Forall_app. split; [|by repeat constructor]. revert H0. apply Forall_impl.
    intros [T e x]. by destruct e.
  - apply Forall_app. split; [|by repeat constructor]. revert H0. apply Forall_impl.
    intros [T e x]. by destruct e.
  - apply elem_of_app. by left.
  - unfold public_addr. rewrite Hp. cbn. by destruct (local_addr p).
Qed.

Lemma new_endpoint_faulted t : runs new_endpoint t (Halt Faulted) -> ~ Forall event_certified t.
Proof.
  unfold new_endpoint. unfold try_bind.
  intros [H|([p|e] & t1 & t2 & -> & _ & H)]%faulted_bind; [|by apply panic_free_ret in H..].
  apply new_peer_panics in H as (c & e & -> & He). intros Hc. apply Forall_cons_1 in Hc as [Hc _].
  cbn in Hc. by rewrite He in Hc.
Qed.

Lemma connect_visits p addr t o :
  runs (connect_to p addr) t o -> Forall (visitor (quinn_endpoint p)) t /\ Forall mute t.
Proof.
  intros Hr. split; revert t o Hr;
    (match goal with |- forall t o, runs ?p _ _ -> Forall ?P _ => change (only P p) end);
    apply only_retry; unfold connect_attempt, Connection_new, ConnectionIncoming_new,
      start_message_listeners; repeat (only_step || done).
Qed.

Lemma send_visits ep c msg : only (visitor ep) (send c msg).
Proof.
  unfold send, send_with. destruct (default_retry_config c); only_step.
  1: apply only_retry; unfold send_attempt.
  all: unfold send_uni, open_uni, SendStream_set_priority, send_user_msg, SendStream_finish, write_to_stream;
    repeat (only_step || done).
Qed.

(** A failed expectation of a connection: it came from elsewhere, or the test went on. *)
Lemma expect_connection_faulted inc addr k t :
  runs (expect_connection inc addr k) t (Halt Faulted) ->
  exists c a t', t = [Ev (RecvConnection (ic_rx inc)) (Some c); Ev (RemoteAddress (conn_inner c.1)) a] ++ t'
    /\ (a <> addr /\ t' = [] \/ runs (k c.2) t' (Halt Faulted)).
Proof.
  unfold expect_connection, common_timeout, timeout, IncomingConnections_next.
  intros [H|(r & t1 & t2 & -> & H1 & H)]%faulted_bind.
  { exfalso. revert H. match goal with |- runs ?p _ _ -> _ => assert (panic_free p) as Hp; [panic|apply Hp] end. }
  apply runs_bind_done in H1 as (w & t3 & t4 & -> & H1 & [-> ->]%runs_ret_done).
  apply runs_within_done in H1. destruct w as [[c|]|]; try by apply panic_free_ret in H.
  apply runs_call_done in H1 as ->. destruct c as [c i]. unfold remote_address in H.
  apply faulted_bind in H as [H|(a & t5 & t6 & -> & ->%runs_call_done & H)]; [by apply panic_free_call in H|].
  exists (c, i), a, t6. split; [done|]. apply assert_faulted in H as [?|?]; [by left|by right].
Qed.

(** ** What a visitor sends *)

Lemma flat_sublist {A B} (f h : A -> list B) l :
  (forall x, f x `sublist_of` h x) -> concat (map f l) `sublist_of` concat (map h l).
Proof. intros Hs. induction l as [|x l IH]; cbn; [done|]. by apply sublist_app. Qed.

(** The streams that a thread opens are distinct. *)
Lemma opened_distinct n t g : system n [t] g -> network n g -> NoDup (opened_uni t).
Proof.
  intros Hs Hnet. destruct (system_threads n (fun _ => True) [t] g) as (sp & Hm & _).
  - intros. by apply Forall_true.
  - done.
  - constructor; [by apply Forall_true|constructor].
  - eapply sublist_NoDup; [eapply nodup_thread; [exact Hm|apply (net_send_streams _ _ Hnet)|by left]|].
    apply flat_sublist. intros [T e x]. destruct e; try done; apply sublist_nil_l.
Qed.

Lemma carries_between msg t1 t2 t3 :
  Forall mute t1 -> Forall mute t3 -> carries msg t2 -> carries msg (t1 ++ t2 ++ t3).
Proof.
  intros [Ho1 Hw1]%mute_trace [Ho3 Hw3]%mute_trace [H1 H2]. unfold carries.
  rewrite !opened_uni_app, Ho1, Ho3, app_nil_r. cbn [app].
  split; intros s Hs; rewrite !written_app, Hw1, Hw3, app_nil_r; cbn [app]; by auto.
Qed.

Lemma carries_mute msg t : Forall mute t -> carries msg t.
Proof.
  intros Ht. rewrite <- (app_nil_r t). apply (carries_between _ _ [] []); [done..|apply carries_nil].
Qed.

(** A user that connects and sends one message. *)
Lemma visit_carries n t1 c msg t2 o t3 g :
  system n [t1 ++ t2 ++ t3] g -> network n g -> Forall mute t1 -> Forall mute t3 ->
  runs (send c msg) t2 o -> carries msg (t1 ++ t2 ++ t3).
Proof.
  intros Hs Hnet H1 H3 Hr. apply carries_between; [done..|]. eapply send_carries; [exact Hr|].
  apply opened_distinct in Hs; [|done]. rewrite !opened_uni_app in Hs.
  apply list.NoDup_app in Hs as (_ & _ & Hs). by apply list.NoDup_app in Hs as (? & _).
Qed.

(** ** The tests *)

(** Two endpoints, of which the second connects to the first. *)
Lemma two_endpoints_faulted t (k : Endpoint -> IncomingConnections -> Endpoint -> io (Result unit Report)) :
  runs (let? (peer1, inc1, _) := new_endpoint in
        let? (peer2, _, _) := new_endpoint in k peer1 inc1 peer2) t (Halt Faulted) ->
  Forall event_certified t ->
  exists peer1 inc1 peer2 t1 t2, t = t1 ++ t2
    /\ Forall (visitor (quinn_endpoint peer2)) t1 /\ Forall mute t1
    /\ Ev (EndpointLocalAddr (quinn_endpoint peer2)) (Ok (public_addr peer2)) ∈ t1
    /\ runs (k peer1 inc1 peer2) t2 (Halt Faulted).
Proof.
  unfold try_bind at 1.
  intros [H%new_endpoint_faulted|([[[peer1 inc1] c1]|e] & t1 & t2 & -> & H1 & H)]%faulted_bind Hc;
    [done| |by apply panic_free_ret in H].
  apply Forall_app in Hc as [_ Hc]. unfold try_bind in H.
  apply faulted_bind in H as [H%new_endpoint_faulted|([[[peer2 inc2] c2]|e] & t3 & t4 & -> & H2 & H)];
    [done| |by apply panic_free_ret in H].
  destruct (new_endpoint_runs (quinn_endpoint peer2) _ _ _ _ H1) as (Hv1 & Hm1 & _).
  destruct (new_endpoint_runs (quinn_endpoint peer2) _ _ _ _ H2) as (Hv2 & Hm2 & Hl & Hp).
  exists peer1, inc1, peer2, (t1 ++ t3), t4. rewrite Hp. split_and!; [by rewrite app_assoc|by apply Forall_app..| |done].
  apply elem_of_app. by right.
Qed.

(** The test successful_connection of tests/common.rs, two endpoints with their accept
    loops and listeners in any interleaving: the connection that the first endpoint accepts
    comes from the public address of the second, so that the assertion does not fail. *)
Lemma successful_connection_passes n t o g :
  runs test_successful_connection t o -> system n [t] g -> network n g -> direct g ->
  handed_over g -> Forall event_certified t -> o <> Halt Faulted.
Proof.
  intros Hr Hs Hnet Hd Hh Hc ->.
  eapply (two_endpoints_faulted _ (fun peer1 inc1 peer2 =>
    let? _ := connect_to peer2 (public_addr peer1) in
    expect_connection inc1 (public_addr peer2) (fun _ => Ret (Ok tt)))) in Hr
    as (peer1 & inc1 & peer2 & t1 & t2 & -> & Hv1 & Hm1 & Hl & Hr); [|done].
  apply faulted_try in Hr as (ci & t3 & t4 & -> & [Hv3 Hm3]%connect_visits & Hr); [|unfold connect_to; panic].
  apply expect_connection_faulted in Hr as (c & a & t' & -> & [[Hne ->]|H]); [|by apply panic_free_ret in H].
  apply Hne.
  eapply (visit_remote n _ g (quinn_endpoint peer2)); [exact Hs|exact Hnet| | |exact Hd|exact Hh| | |].
  - repeat (apply Forall_app; split); try done; by repeat constructor.
  - apply (carries_own []), carries_mute. repeat (apply Forall_app; split); try done; by repeat constructor.
  - rewrite !elem_of_app. right; right; left. by left.
  - rewrite !elem_of_app. right; right; left. right. by left.
  - apply elem_of_app. by left.
Qed.

(** Waiting for a message, with the tests' time limit. *)
Lemma common_next_faulted {B} rx (f : Result (Result (option Bytes) RecvError) Elapsed -> io B) t :
  runs (let* next := common_timeout (ConnectionIncoming_next rx) in f next) t (Halt Faulted) ->
  (exists e t', runs (f (Err e)) t' (Halt Faulted))
  \/ exists a r t', t = Ev (RecvMessage (message_rx rx)) a :: t' /\ runs (f (Ok r)) t' (Halt Faulted)
       /\ match a with
          | Some (Ok (msg, _)) => r = Ok (Some msg) | Some (Err e) => r = Err e | None => r = Ok None
          end.
Proof.
  intros [H|(r & t1 & t2 & -> & H1 & H)]%faulted_bind.
  { exfalso. revert H. match goal with |- runs ?p _ _ -> _ => assert (panic_free p) as Hp; [|apply Hp] end.
    unfold common_timeout, timeout, ConnectionIncoming_next, next_with_stream. panic. }
  unfold common_timeout, timeout in H1.
  apply runs_bind_done in H1 as (w & t3 & t4 & -> & H1 & [-> ->]%runs_ret_done).
  apply runs_within_done in H1. destruct w as [message|].
  - apply next_runs in H1 as (a & -> & Ha). right. exists a, message, t2. by rewrite app_nil_r.
  - left. by eauto.
Qed.

(** A failed expectation of a message, while the connection lasts. *)
Lemma received_faulted incoming msg t :
  runs (let* next := common_timeout (ConnectionIncoming_next incoming) in
        match next with
        | Ok message => let? received := Ret message in assert_eq received (Some msg) (Ret (Ok tt))
        | Err _ => bail "No incoming message" Bail_nothing
        end : io (Result unit Report)) t (Halt Faulted) ->
  Forall event_lasting t ->
  exists m st, t = [Ev (RecvMessage (message_rx incoming)) (Some (Ok (m, st)))] /\ m <> msg.
Proof.
  intros [(e & t' & H%panic_free_ret)|(a & r & t' & -> & H & Ha)]%common_next_faulted Hl; [done|].
  apply Forall_cons_1 in Hl as [[item ->] _].
  apply faulted_try in H as (received & t5 & t6 & -> & [-> <-]%runs_ret_done & H); [|panic].
  apply assert_faulted in H as [[Hne ->]|[_ [?|?]]]; [|done..].
  destruct item as [[m st]|e]; simplify_eq. exists m, st. split; [done|]. by intros ->.
Qed.

(** C11: the test single_message of tests/common.rs, two endpoints with their accept loops and
    listeners in any interleaving: the connection that the first endpoint accepts comes from
    the public address of the second, and the message that it receives over it, while the
    connection lasts, is the one that was sent, so that no assertion fails. *)
Theorem single_message_passes n msg t o g :
  runs (test_single_message msg) t o -> system n [t] g -> network n g -> direct g ->
  handed_over g -> Forall event_certified t -> Forall event_lasting t -> o <> Halt Faulted.
Proof.
  intros Hr Hs Hnet Hd Hh Hc Hlast ->.
  eapply (two_endpoints_faulted _ (fun peer1 inc1 peer2 =>
    let? (connection, _) := connect_to peer2 (public_addr peer1) in
    let? _ := send connection msg in
    expect_connection inc1 (public_addr peer2) (fun incoming =>
      let* next := common_timeout (ConnectionIncoming_next incoming) in
      match next with
      | Ok message =>
          let? received := Ret message in assert_eq received (Some msg) (Ret (Ok tt))
      | Err _ => bail "No incoming message" Bail_nothing
      end))) in Hr as (peer1 & inc1 & peer2 & t1 & t2 & -> & Hv1 & Hm1 & Hl & Hr); [|done].
  apply faulted_try in Hr as ([conn ci] & t3 & t4 & -> & [Hv3 Hm3]%connect_visits & Hr); [|unfold connect_to; panic].
  apply faulted_try in Hr as ([] & ts & t5 & -> & Hsend & Hr); [|apply panic_free_send].
  pose proof (send_visits (quinn_endpoint peer2) _ _ _ _ Hsend) as Hvs.
  apply expect_connection_faulted in Hr as (c & a & t' & -> & H).
  assert (Forall (visitor (quinn_endpoint peer2)) t' /\ Forall mute t' /\ (a <> public_addr peer2
    \/ exists m st, t' = [Ev (RecvMessage (message_rx c.2)) (Some (Ok (m, st)))] /\ m <> msg))
    as (Hv' & Hm' & Hfail).
  { destruct H as [[Hne ->]|H]; [by eauto using Forall_nil|]. rewrite !Forall_app in Hlast.
    apply received_faulted in H as (m & st & -> & Hne); [|by apply Hlast].
    split_and!; [by repeat constructor..|]. eauto. }
  rewrite (app_assoc t1) in Hs.
  assert (Forall mute (t1 ++ t3)) as Hm13 by (by apply Forall_app).
  assert (Forall mute ([Ev (RecvConnection (ic_rx inc1)) (Some c); Ev (RemoteAddress (conn_inner c.1)) a] ++ t'))
    as Hm5 by (apply Forall_app; split; [by repeat constructor|done]).
  pose proof (visit_carries _ _ _ _ _ _ _ _ Hs Hnet Hm13 Hm5 Hsend) as Hcar.
  match type of Hs with system _ [?t] _ => assert (Forall (visitor (quinn_endpoint peer2)) t) as Hv end.
  { repeat (apply Forall_app; split); [done..|by repeat constructor|done]. }
  destruct Hfail as [Hne|(m & st & -> & Hne)]; apply Hne.
  - eapply (visit_remote n _ g (quinn_endpoint peer2) Hs Hnet Hv (carries_own _ _ Hcar) _ c _ _ Hd Hh);
      rewrite !elem_of_app.
    + right; right; left. by left.
    + right; right; left. right. by left.
    + by left; left.
  - eapply (visit_one_message n _ g (quinn_endpoint peer2) Hs Hnet Hv _ Hcar). rewrite !elem_of_app.
    right; right; right. by left.
Qed.

End CommonTests.
