(* ===== verification/ClientTest.v ===== *)
(** * tests/common.rs: a client and a server

    The test client: a client endpoint connects to a server and sends a message, the server
    answers over the connection that it accepted. Both directions are checked: what arrives
    at the client came over the server's end of the connection. *)

From Stdlib Require Import Strings.Byte.
From S2P Require Import Prelude Std Parse Foreign WireTypes Errors ErrorText ConfigTypes Prog Eyre.
From S2P Require Import ProgFacts Effects Wire StreamSpec WireFacts Framing Config ConfigFacts.
From S2P Require Import Connection Incoming Channel Igd Endpoint EndpointFacts Panics NewPeer.
From S2P Require Import UniListener BiListener BiStreams Delivery System SystemFacts EchoStreams.
From S2P Require Import Peers Tests EndpointTests ConnectionTests CommonTests.

Local Open Scope Z_scope.
Local Open Scope prog_scope.

Section ClientTest.
Context {F : Foreign} {Bc : Bincode} {BcL : BincodeLaws} {Bo : Backoff} {BL : BackoffLaws}.
Context `{!EqDecision q_SendStream, !EqDecision q_RecvStream}.

(** ** The steps of the test *)

(** An event that starts no listener. *)
Definition unheard (v : event ev) : Prop :=
  match v with
  | Ev e _ => match e with Spawn x => ~ is_listener x | _ => True end
  end.

Lemma new_client_runs ep la config t cl :
  runs (new_client la config) t (Done (Ok cl)) ->
  Forall (visitor ep) t /\ Forall mute t /\ Forall unheard t
  /\ Ev (EndpointLocalAddr (quinn_endpoint cl)) (Ok (public_addr cl)) ∈ t.
Proof.
  unfold new_client. intros H.
  apply runs_try_done in H as [(ic & t1 & t2 & -> & (c & cert & -> & _)%try_from_config_runs & H)|(e & _ & ?)]; [|done].
  apply runs_bind_done in H as ([tx rx] & t3 & t4 & -> & ->%runs_call_done & H).
  apply runs_try_done in H as [(qe & t5 & t6 & -> & ->%runs_call_done & H)|(e & _ & ?)]; [|done].
  apply runs_try_done in H as [(local & t7 & t8 & -> & ->%runs_call_done & H)|(e & _ & ?)]; [|done].
  apply runs_bind_done in H as ([] & t9 & t10 & -> & ->%runs_call_done & [-> [= ->]]%runs_ret_done).
  split_and!; [by repeat constructor..|]. cbn. right; right; right. by left.
Qed.

Lemma new_client_faulted la config t :
  runs (new_client la config) t (Halt Faulted) -> ~ Forall event_certified t.
Proof.
  intros (c & e & -> & He)%new_client_panics Hc. apply Forall_cons_1 in Hc as [Hc _].
  cbn in Hc. by rewrite He in Hc.
Qed.

Lemma new_endpoint_unheard t p inc c :
  runs new_endpoint t (Done (Ok (p, inc, c))) -> Forall unheard t.
Proof.
  unfold new_endpoint. intros H.
  apply runs_try_done in H as [(peer & t1 & t2 & -> & H & [-> [= <-]]%runs_ret_done)|(e & _ & ?)]; [|done].
  rewrite app_nil_r. apply new_peer_started in H
    as (t0 & te & tf & tv & visible & qi & tx & -> & _ & Hseen & _ & Hf & Hver & _ & Hc).
  destruct (Hc eq_refl) as [Hn H0]. rewrite Hn in Hseen, Hver. destruct Hseen as [_ ->].
  cbn in Hf, Hver. subst tf tv. apply Forall_app. split; [|repeat constructor; by intros []].
  revert H0. apply Forall_impl. intros [T e x]. by destruct e.
Qed.

(** A send opens its streams on its connection and starts nothing. *)
Definition sends_on (c : q_Connection) (v : event ev) : Prop :=
  match v with
  | Ev e _ => match e with OpenUni c' => c' = c | Spawn _ | NewMessageChannel _ => False | _ => True end
  end.

Lemma send_on c msg : only (sends_on (conn_inner c)) (send c msg).
Proof.
  unfold send, send_with. destruct (default_retry_config c); only_step.
  1: apply only_retry; unfold send_attempt.
  all: unfold send_uni, open_uni, SendStream_set_priority, send_user_msg, SendStream_finish, write_to_stream;
    repeat (only_step || done).
Qed.

(** The connection of the client, with the listener of its channel. *)
Lemma connected_by p addr t c i :
  runs (connect_to p addr) t (Done (Ok (c, i))) ->
  exists k nc cap chan, Ev (AwaitConnecting k) (Ok nc) ∈ t /\ Ev (NewMessageChannel cap) chan ∈ t
    /\ conn_inner c = nc_connection nc /\ message_rx i = chan.2
    /\ forall peer us alive tx, ListenOnUniStreams peer us alive tx ∈ spawned t -> us = nc_uni_streams nc.
Proof.
  intros (trs & t' & -> & Hf & k & nc & peer & alive & chan & -> & -> & ->)%new_connection_runs.
  exists k, nc, INCOMING_MESSAGE_BUFFER_LEN, chan.
  assert (forall v, v ∈ connected p addr k nc peer alive chan -> v ∈ concat trs ++ connected p addr k nc peer alive chan)
    as Hin by (intros v Hv; apply elem_of_app; by right).
  split_and!; [apply Hin; cbn; repeat first [by left|right]..|done|done|].
  intros peer' us alive' tx Hl. unfold spawned in Hl. rewrite flat_app in Hl.
  assert (concat (map event_spawned (concat trs)) = []) as Hno.
  { clear -Hf. induction Hf as [|u us' [e [(ce & -> & _)|(k & qe & -> & _)]] _ IH]; [done|..];
      cbn [concat]; by rewrite flat_app, IH. }
  rewrite Hno in Hl. cbn in Hl. apply elem_of_cons in Hl as [[= _ -> _ _]|Hl]; [done|].
  by apply list_elem_of_singleton in Hl.
Qed.

(** A failed expectation of a message. *)
Lemma expect_received_faulted rx expected k t :
  runs (expect_received rx expected k) t (Halt Faulted) ->
  exists m st t', t = Ev (RecvMessage (message_rx rx)) (Some (Ok (m, st))) :: t'
    /\ (m <> expected /\ t' = [] \/ runs k t' (Halt Faulted)).
Proof.
  intros [(e & t' & H%panic_free_ret)|(a & r & t' & -> & H & Ha)]%common_next_faulted; [done|].
  destruct r as [[message|]|e]; [|by apply panic_free_ret in H..].
  destruct a as [[[m st]|e]|]; simplify_eq. exists m, st, t'. split; [done|].
  apply assert_faulted in H as [?|?]; [by left|by right].
Qed.

Lemma panic_free_loss cl c addr : panic_free (expect_loss cl c addr).
Proof. unfold expect_loss, bail, connect_to, send. panic. apply panic_free_send. Qed.

(** ** The conversation *)

Lemma writes_own_app t1 t2 : writes_own t1 -> writes_own t2 -> writes_own (t1 ++ t2).
Proof.
  intros H1 H2 s Hs. unfold send_streams in Hs. rewrite flat_app, not_elem_of_app in Hs.
  rewrite written_app, H1, H2; tauto.
Qed.

Lemma mute_own t : Forall mute t -> writes_own t.
Proof. intros Ht. by apply (carries_own []), carries_mute. Qed.

Lemma unheard_spawned t x : Forall unheard t -> x ∈ spawned t -> ~ is_listener x.
Proof.
  intros Ht ([T e y] & Hv & Hi)%elem_of_flat. rewrite list.Forall_forall in Ht. specialize (Ht _ Hv).
  destruct e; try by apply not_elem_of_nil in Hi. by apply list_elem_of_singleton in Hi as ->.
Qed.

Section Reply.
Context (n : q_RecvStream -> stream) (g : list (event ev)) (ep : q_Endpoint).
Context (t0 tc ts1 t1 ts2 t2 : list (event ev)) (p : Endpoint) (addr : SocketAddr).
Context (c1 : Connection) (i1 : ConnectionIncoming) (c2 : Connection) (m1 m2 : Bytes).
Context (o1 o2 : outcome (Result unit SendError)).

(** A client connects, sends [m1] and, when the server has accepted the connection, the
    server sends [m2] over its end. *)
Definition talk : list (event ev) := t0 ++ tc ++ ts1 ++ t1 ++ ts2 ++ t2.

Context (Hs : system n [talk] g) (Hnet : network n g) (Hv : Forall (visitor ep) talk).
Context (H0 : Forall (fun v => mute v /\ unheard v) (t0 ++ t1 ++ t2)).
Context (Hmc : Forall mute tc) (Hc : runs (connect_to p addr) tc (Done (Ok (c1, i1)))).
Context (Hs1 : runs (send c1 m1) ts1 o1) (Hs2 : runs (send c2 m2) ts2 o2).

Lemma talk_mute : Forall mute t0 /\ Forall mute t1 /\ Forall mute t2.
Proof.
  assert (Forall mute (t0 ++ t1 ++ t2)) as H by (eapply Forall_impl; [|exact H0]; by intros v []).
  by apply Forall_app in H as [? [? ?]%Forall_app].
Qed.

Lemma talk_distinct :
  NoDup (opened_uni ts1) /\ NoDup (opened_uni ts2) /\ forall s, s ∈ opened_uni ts1 -> s ∉ opened_uni ts2.
Proof.
  pose proof (opened_distinct _ _ _ Hs Hnet) as Hnd. unfold talk in Hnd. rewrite !opened_uni_app in Hnd.
  apply list.NoDup_app in Hnd as (_ & _ & Hnd). apply list.NoDup_app in Hnd as (_ & _ & Hnd).
  apply list.NoDup_app in Hnd as (H1 & Hd & Hnd). apply list.NoDup_app in Hnd as (_ & _ & Hnd).
  apply list.NoDup_app in Hnd as (H2 & _). split_and!; [done..|]. intros s H1' H2'.
  apply (Hd s H1'). rewrite !elem_of_app. auto.
Qed.

Lemma talk_carries : carries m1 ts1 /\ carries m2 ts2.
Proof.
  destruct talk_distinct as (Hd1 & Hd2 & _).
  split; eapply send_carries; [exact Hs1|done|exact Hs2|done].
Qed.

Lemma talk_own : writes_own talk.
Proof.
  destruct talk_mute as (? & ? & ?). destruct talk_carries as [Hc1%carries_own Hc2%carries_own].
  by repeat apply writes_own_app; try done; apply mute_own.
Qed.

(** A stream that was opened at another connection than the client's was opened by the
    server, and carries its message. *)
Lemma talk_reply c s :
  Ev (OpenUni c) (Ok s) ∈ talk -> c <> conn_inner c1 -> written s talk `prefix_of` frame_bytes m2.
Proof.
  intros Hin Hne. destruct talk_mute as (Hm0 & Hm1 & Hm2).
  assert (forall t, Forall mute t -> Ev (OpenUni c) (Ok s) ∉ t) as Hmute.
  { intros t Ht Hin'. rewrite list.Forall_forall in Ht. by destruct (Ht _ Hin'). }
  assert (s ∈ opened_uni ts2) as Hs2'.
  { unfold talk in Hin. rewrite !elem_of_app in Hin.
    destruct Hin as [Hi|[Hi|[Hi|[Hi|[Hi|Hi]]]]]; try by apply Hmute in Hi.
    - apply send_on in Hs1 as Hall. rewrite list.Forall_forall in Hall. by specialize (Hall _ Hi).
    - apply elem_of_flat. eexists. split; [exact Hi|by left]. }
  destruct talk_distinct as (_ & _ & Hd). destruct talk_carries as [[Hn1 _] [_ Hp2]].
  apply mute_trace in Hm0 as [_ Hw0], Hm1 as [_ Hw1], Hm2 as [_ Hw2]. apply mute_trace in Hmc as [_ Hwc].
  unfold talk. rewrite !written_app, Hw0, Hwc, Hw1, Hw2, (Hn1 s); [|by intros ?%Hd].
  rewrite app_nil_r. by apply Hp2.
Qed.

(** The listeners of the conversation are those of the client's connection. *)
Lemma talk_listener peer us alive tx :
  ListenOnUniStreams peer us alive tx ∈ spawned talk -> ListenOnUniStreams peer us alive tx ∈ spawned tc.
Proof.
  assert (Forall unheard (t0 ++ t1 ++ t2)) as Hu by (eapply Forall_impl; [|exact H0]; by intros v []).
  apply Forall_app in Hu as [Hu0 [Hu1 Hu2]%Forall_app].
  assert (forall c msg t o, runs (send c msg) t o -> spawned t = []) as Hsend.
  { intros c msg t o Hr%send_on. apply flat_nil. revert Hr. apply Forall_impl. intros [T e y]. by destruct e. }
  unfold talk, spawned. rewrite !flat_app, !elem_of_app.
  fold (spawned t0) (spawned tc) (spawned ts1) (spawned t1) (spawned ts2) (spawned t2).
  rewrite (Hsend _ _ _ _ Hs1), (Hsend _ _ _ _ Hs2), !elem_of_nil.
  intros [Hx|[?|[[]|[Hx|[[]|Hx]]]]]; [|done|..]; by eapply unheard_spawned in Hx.
Qed.

(** What the client receives is the answer of the server. *)
Lemma talk_received m st : Ev (RecvMessage (message_rx i1)) (Some (Ok (m, st))) ∈ talk -> m = m2.
Proof.
  intros Hin.
  destruct (visit_message n talk g ep Hs Hnet Hv talk_own _ _ _ Hin)
    as (cap & tx & peer & us & alive & c & s & Hch & Hl & Hopen & Hother & Hmsg).
  destruct (connected_by _ _ _ _ _ Hc) as (k & nc & cap' & chan & Hnc & Hch' & Hc1 & Hi1 & Hus).
  assert (forall v, v ∈ tc -> v ∈ talk) as Hsub by (intros v Hvt; unfold talk; rewrite !elem_of_app; auto).
  rewrite Hi1 in Hch.
  pose proof (visit_listener n talk g ep Hs Hnet Hv _ _ _ _ _ _ _ (Hsub _ Hch') Hch Hl) as Hl'.
  apply talk_listener in Hl'. apply Hus in Hl' as ->.
  apply Hmsg, (talk_reply c); [done|]. intros ->. apply Hother. exists k, nc.
  split_and!; [|by rewrite Hc1|done]. eapply system_user; [exact Hs|by left|by apply Hsub].
Qed.

(** Before the server answers, every message is the client's. *)
Lemma talk_first rx m st :
  ts2 ++ t2 = [] -> Ev (RecvMessage rx) (Some (Ok (m, st))) ∈ talk -> m = m1.
Proof.
  intros Hno Hin. destruct talk_mute as (Hm0 & Hm1 & _). destruct talk_carries as [Hc1 _].
  assert (talk = (t0 ++ tc) ++ ts1 ++ t1) as Heq.
  { unfold talk. rewrite Hno, app_nil_r. by rewrite <- app_assoc. }
  eapply (visit_one_message n talk g ep Hs Hnet Hv m1); [|exact Hin].
  rewrite Heq. apply carries_between; [by apply Forall_app|done|done].
Qed.

End Reply.

(** ** The test *)

(** What the test does between the messages. *)
Definition quiet (ep : q_Endpoint) (v : event ev) : Prop := visitor ep v /\ mute v /\ unheard v.

Lemma quiet_parts ep t :
  Forall (quiet ep) t -> Forall (visitor ep) t /\ Forall (fun v => mute v /\ unheard v) t.
Proof. intros Ht. split; revert Ht; apply Forall_impl; intros v (? & ? & ?); auto. Qed.

(** How the test fails once the client has sent its message. *)
Lemma server_faulted ep server_addr client c1 i1 conns t :
  runs (let* next := IncomingConnections_next conns in
        match next with
        | Some (server_to_client, server_messages) =>
            let* remote := remote_address server_to_client in
            assert_eq remote (public_addr client) (
              expect_received server_messages HELLO (
                let? _ := send server_to_client WORLD in
                expect_received i1 WORLD (expect_loss client c1 server_addr)))
        | None => bail "did not receive expected connection" Bail_nothing
        end) t (Halt Faulted) ->
  exists c a t1 ts2 o2 t2,
    t = t1 ++ ts2 ++ t2 /\ Forall (quiet ep) t1 /\ Forall (quiet ep) t2 /\ runs (send c.1 WORLD) ts2 o2
    /\ Ev (RecvConnection (ic_rx conns)) (Some c) ∈ t1 /\ Ev (RemoteAddress (conn_inner c.1)) a ∈ t1
    /\ (a <> public_addr client
        \/ (exists rx m st, Ev (RecvMessage rx) (Some (Ok (m, st))) ∈ t1 /\ m <> HELLO /\ ts2 ++ t2 = [])
        \/ exists m st, Ev (RecvMessage (message_rx i1)) (Some (Ok (m, st))) ∈ t2 /\ m <> WORLD).
Proof.
  intros [H|([[c2 i2]|] & t1 & t' & -> & ->%runs_call_done & H)]%faulted_bind;
    [by apply panic_free_call in H| |by apply panic_free_ret in H].
  apply faulted_bind in H as [H|(a & t2 & t3 & -> & ->%runs_call_done & H)]; [by apply panic_free_call in H|].
  pose proof (runs_start _ (send c2 WORLD)) as Hstart. exists (c2, i2), a.
  set (came := [Ev (RecvConnection (ic_rx conns)) (Some (c2, i2)); Ev (RemoteAddress (conn_inner c2)) a]).
  apply assert_faulted in H as [[Hne ->]|H].
  { exists came, [], (Halt Running), []. split_and!; [done|by repeat constructor|constructor|done|by left|by right; left|by left]. }
  apply expect_received_faulted in H as (m & st & t4 & -> & [[Hne ->]|H]).
  { exists (came ++ [Ev (RecvMessage (message_rx i2)) (Some (Ok (m, st)))]), [], (Halt Running), [].
    split_and!; [done|by repeat constructor|constructor|done|by left|by right; left|].
    right; left. eexists _, m, st. split; [by right; right; left|done]. }
  apply faulted_try in H as ([] & ts2 & t5 & -> & Hs2 & H); [|apply panic_free_send].
  apply expect_received_faulted in H as (m' & st' & t6 & -> & [[Hne ->]|H]); [|by apply panic_free_loss in H].
  exists (came ++ [Ev (RecvMessage (message_rx i2)) (Some (Ok (m, st)))]), ts2, (Done (Ok tt)),
    [Ev (RecvMessage (message_rx i1)) (Some (Ok (m', st')))].
  split_and!; [done|by repeat constructor..|done|by left|by right; left|].
  right; right. exists m', st'. by split; [left|].
Qed.

(** C12: the test client of tests/common.rs, a client and a server with the accept loop of the
    server and all listeners in any interleaving: the connection that the server accepts
    comes from the client's address, the message it receives is the client's, and what the
    client receives is what the server sent over that connection, so that no assertion
    fails. *)
Theorem client_passes n t o g :
  runs test_client t o -> system n [t] g -> network n g -> direct g -> handed_over g ->
  Forall event_certified t -> o <> Halt Faulted.
Proof.
  intros Hr Hs Hnet Hd Hh Hcert ->. unfold test_client in Hr. unfold try_bind at 1 in Hr.
  apply faulted_bind in Hr as [H%new_endpoint_faulted|([[[server conns] x]|e] & ta & t' & -> & Ha & Hr)];
    [done| |by apply panic_free_ret in Hr]. apply Forall_app in Hcert as [_ Hcert].
  unfold try_bind at 1 in Hr.
  apply faulted_bind in Hr as [H%new_client_faulted|([client|e] & tb & t'' & -> & Hb & Hr)];
    [done| |by apply panic_free_ret in Hr].
  destruct (new_endpoint_runs (quinn_endpoint client) _ _ _ _ Ha) as (Hva & Hma & _).
  destruct (new_client_runs (quinn_endpoint client) _ _ _ _ Hb) as (Hvb & Hmb & Hub & Hl).
  apply new_endpoint_unheard in Ha as Hua.
  apply faulted_try in Hr as ([c1 i1] & tc & t3 & -> & Hc & Hr); [|unfold connect_to; panic].
  pose proof (connect_visits _ _ _ _ Hc) as [Hvc Hmc].
  apply faulted_try in Hr as ([] & ts1 & t4 & -> & Hs1 & Hr); [|apply panic_free_send].
  apply (server_faulted (quinn_endpoint client)) in Hr
    as (c & a & accept & ts2 & o2 & t2 & -> & [Hvx Hqx]%quiet_parts & [Hv2 Hq2]%quiet_parts & Hs2 & Hcin & Hrin & Hfail).
  rewrite (app_assoc ta) in Hs. change (system n [talk (ta ++ tb) tc ts1 accept ts2 t2] g) in Hs.
  assert (Forall (visitor (quinn_endpoint client)) (talk (ta ++ tb) tc ts1 accept ts2 t2)) as Hv.
  { pose proof (send_visits (quinn_endpoint client) _ _ _ _ Hs1).
    pose proof (send_visits (quinn_endpoint client) _ _ _ _ Hs2).
    repeat (apply Forall_app; split); done. }
  assert (Forall (fun v => mute v /\ unheard v) ((ta ++ tb) ++ accept ++ t2)) as Hq.
  { repeat (apply Forall_app; split); try done; apply list.Forall_and; done. }
  assert (forall v, v ∈ accept -> v ∈ talk (ta ++ tb) tc ts1 accept ts2 t2) as Hin
    by (intros v ?; unfold talk; rewrite !elem_of_app; tauto).
  destruct Hfail as [Hne|[(rx & m & st & Hm & Hne & Hno)|(m & st & Hm & Hne)]]; apply Hne.
  - eapply (visit_remote n _ g _ Hs Hnet Hv (talk_own n g _ _ _ _ _ _ _ _ _ _ _ _ Hs Hnet Hq Hmc Hs1 Hs2)
      _ c a _ Hd Hh); [by apply Hin..|]. unfold talk. rewrite !elem_of_app. left. right. exact Hl.
  - eapply (talk_first n g); [exact Hs|exact Hnet|exact Hv|exact Hq|exact Hmc|exact Hs1|exact Hs2|exact Hno|].
    by apply Hin.
  - eapply (talk_received n g); [exact Hs|exact Hnet|exact Hv|exact Hq|exact Hmc|exact Hc|exact Hs1|exact Hs2|].
    unfold talk. rewrite !elem_of_app. do 5 right. exact Hm.
Qed.

End ClientTest.
