(* ===== verification/NetworkCheck.v ===== *)
(** * A test for networks

    [network] and [direct] quantify over the events of a trace; [checked_network] and
    [checked_direct] say the same of the finitely many handles in it, are decidable, and
    imply them. A concrete trace is shown to come from a network by computing them. *)

From Stdlib Require Import Strings.Byte.
From S2P Require Import Prelude Std Foreign WireTypes Errors ConfigTypes Prog ProgFacts Effects.
From S2P Require Import Wire StreamSpec WireFacts Config Connection Incoming Igd Endpoint.
From S2P Require Import UniListener BiListener BiStreams Delivery System ConnectionTests.

(** A property of every element of a list and of those before it. *)
Fixpoint each {A} (P : list A -> A -> Prop) (before l : list A) : Prop :=
  match l with
  | [] => True
  | v :: l => P before v /\ each P (before ++ [v]) l
  end.

#[export] Instance each_dec {A} (P : list A -> A -> Prop) `{!forall l v, Decision (P l v)} l :
  forall before, Decision (each P before l).
Proof. induction l as [|v l IH]; intros before; cbn [each]; apply _. Defined.

Lemma each_split {A} (P : list A -> A -> Prop) l1 v l2 :
  each P [] (l1 ++ v :: l2) -> P l1 v.
Proof.
  assert (forall before, each P before (l1 ++ v :: l2) -> P (before ++ l1) v) as H; [|by apply H].
  induction l1 as [|x l1 IH]; intros before; cbn.
  - rewrite app_nil_r. by intros [? _].
  - intros [_ ?%IH]. by rewrite <- app_assoc in *.
Qed.

Section NetworkCheck.
Context {F : Foreign} `{!EqDecision q_SendStream, !EqDecision q_RecvStream}.
Context `{!EqDecision q_Connection, !EqDecision q_IncomingUniStreams}.
Context `{!EqDecision q_IncomingBiStreams, !EqDecision MessageTx, !EqDecision MessageRx}.
Context `{!EqDecision q_Connecting, !EqDecision q_Endpoint}.
Context (n : q_RecvStream -> stream).

(** ** The handles of a trace *)

(** A message without a stream to answer it; other items are not tested. *)
Definition plain_item (item : MessageItem) : option Bytes :=
  match item with Ok (m, None) => Some m | _ => None end.

Definition event_sent (v : event ev) : list (MessageTx * option Bytes) :=
  match v with
  | Ev e x =>
      match e in ev T return T -> _ with
      | SendMessage tx item => fun a =>
          match a, plain_item item with Ok _, Some m => [(tx, Some m)] | _, _ => [] end
      | _ => fun _ => []
      end x
  end.

Definition event_received (v : event ev) : list (MessageRx * option Bytes) :=
  match v with
  | Ev e x =>
      match e in ev T return T -> _ with
      | RecvMessage rx => fun a => match a with Some i => [(rx, plain_item i)] | None => [] end
      | _ => fun _ => []
      end x
  end.

Definition event_uni_taken (v : event ev) : list (q_IncomingUniStreams * q_RecvStream) :=
  match v with
  | Ev e x =>
      match e in ev T return T -> _ with
      | NextUni us => fun a => match a with Some (Ok r) => [(us, r)] | _ => [] end
      | _ => fun _ => []
      end x
  end.

Definition event_bi_taken (v : event ev) : list (q_IncomingBiStreams * (q_SendStream * q_RecvStream)) :=
  match v with
  | Ev e x =>
      match e in ev T return T -> _ with
      | NextBi bs => fun a => match a with Some (Ok p) => [(bs, p)] | _ => [] end
      | _ => fun _ => []
      end x
  end.

Definition event_established (v : event ev) : list (q_Connecting * q_NewConnection) :=
  match v with
  | Ev e x =>
      match e in ev T return T -> _ with
      | AwaitConnecting k => fun a => match a with Ok nc => [(k, nc)] | Err _ => [] end
      | _ => fun _ => []
      end x
  end.

Definition sent g := concat (map event_sent g).
Definition uni_taken g := concat (map event_uni_taken g).
Definition bi_taken g := concat (map event_bi_taken g).
Definition established g := concat (map event_established g).

(** ** The test *)

(** An item that is taken was sent before, on the channel of the receiver. *)
Definition delivered (before : list (event ev)) (v : event ev) : Prop :=
  Forall (fun p => Exists (fun ch => ch.2 = p.1 /\ (ch.1, p.2) ∈ sent before) (channels before))
    (event_received v).

(** A bidirectional stream that is accepted was opened before. *)
Definition bi_fed (g before : list (event ev)) (v : event ev) : Prop :=
  Forall (fun p => Exists (fun o => content (n p.2.2) `prefix_of` written o.1.2 g) (opens_bi before))
    (event_bi_taken v).

Definition checked_network (g : list (event ev)) : Prop :=
  each delivered [] g
  /\ NoDup (map fst (channels g)) /\ NoDup (map snd (channels g))
  /\ Forall (fun p => Exists (fun o =>
         Forall (fun e => ~ (nc_connection e.2 = o.1 /\ nc_uni_streams e.2 = p.1)) (established g)
         /\ content (n p.2) `prefix_of` written o.2 g) (opens g)) (uni_taken g)
  /\ each (bi_fed g) [] g
  /\ Forall (fun o => content (n o.2) = [] \/ Exists (fun p =>
         Forall (fun e => ~ (nc_connection e.2 = o.1.1 /\ nc_bi_streams e.2 = p.1)) (established g)
         /\ content (n o.2) `prefix_of` written p.2.1 g) (bi_taken g)) (opens_bi g)
  /\ NoDup (send_streams g) /\ NoDup (recv_streams g).

#[export] Instance checked_network_dec g : Decision (checked_network g).
Proof. unfold checked_network, delivered, bi_fed. apply _. Defined.

Lemma plain_item_eq item m : plain_item item = Some m -> item = Ok (m, None).
Proof. by destruct item as [[m' [st|]]|e]; intros [= ->]. Qed.

Lemma sent_event tx m g :
  (tx, Some m) ∈ sent g -> Ev (SendMessage tx (Ok (m, None))) (Ok tt) ∈ g.
Proof.
  intros ([T e x] & Hv & Hi)%elem_of_flat. destruct e; try by apply not_elem_of_nil in Hi.
  cbn in Hi. destruct x as [[]|], (plain_item item) as [m'|] eqn:Hp; try by apply not_elem_of_nil in Hi.
  apply list_elem_of_singleton in Hi as [= -> ->]. by rewrite <- (plain_item_eq _ _ Hp).
Qed.

Lemma sent_plain tx o g : (tx, o) ∈ sent g -> exists m, o = Some m.
Proof.
  intros ([T e x] & Hv & Hi)%elem_of_flat. destruct e; try by apply not_elem_of_nil in Hi.
  cbn in Hi. destruct x as [[]|], (plain_item item); try by apply not_elem_of_nil in Hi.
  apply list_elem_of_singleton in Hi as [= -> ->]. by eexists.
Qed.

Lemma opens_event c s g : (c, s) ∈ opens g -> Ev (OpenUni c) (Ok s) ∈ g.
Proof.
  intros ([T e x] & Hv & Hi)%elem_of_flat. destruct e; try by apply not_elem_of_nil in Hi.
  cbn in Hi. destruct x; [|by apply not_elem_of_nil in Hi]. by apply list_elem_of_singleton in Hi as [= -> ->].
Qed.

Lemma opens_bi_event c s r g : (c, s, r) ∈ opens_bi g -> Ev (OpenBi c) (Ok (s, r)) ∈ g.
Proof.
  intros ([T e x] & Hv & Hi)%elem_of_flat. destruct e; try by apply not_elem_of_nil in Hi.
  cbn in Hi. destruct x as [[]|]; [|by apply not_elem_of_nil in Hi].
  by apply list_elem_of_singleton in Hi as [= -> -> ->].
Qed.

Lemma bi_taken_event bs p g : (bs, p) ∈ bi_taken g -> Ev (NextBi bs) (Some (Ok p)) ∈ g.
Proof.
  intros ([T e x] & Hv & Hi)%elem_of_flat. destruct e; try by apply not_elem_of_nil in Hi.
  cbn in Hi. destruct x as [[|]|]; try by apply not_elem_of_nil in Hi.
  by apply list_elem_of_singleton in Hi as [= -> ->].
Qed.

Lemma channels_event tx rx g :
  (tx, rx) ∈ channels g -> exists cap, Ev (NewMessageChannel cap) (tx, rx) ∈ g.
Proof.
  intros ([T e x] & Hv & Hi)%elem_of_flat. destruct e; try by apply not_elem_of_nil in Hi.
  cbn in Hi. apply list_elem_of_singleton in Hi as <-. by eexists.
Qed.

(** What one event says, among what a trace says. *)
Lemma flat_elem {B} (f : event ev -> list B) (g : list (event ev)) v y :
  v ∈ g -> f v = [y] -> y ∈ concat (map f g).
Proof. intros Hv Hf. apply elem_of_flat. exists v. split; [done|]. rewrite Hf. by left. Qed.

(** The handles whose connection was established elsewhere. *)
Lemma elsewhere (P : q_NewConnection -> Prop) g :
  Forall (fun e => ~ P e.2) (established g) ->
  ~ exists k nc, Ev (AwaitConnecting k) (Ok nc) ∈ g /\ P nc.
Proof.
  rewrite list.Forall_forall. intros Hall (k & nc & Hv & Hp).
  by apply (Hall (k, nc)); [apply (flat_elem _ _ _ _ Hv eq_refl)|].
Qed.

Lemma checked_network_sound g : checked_network g -> network n g.
Proof.
  intros (Hd & Hn1 & Hn2 & Hu & Hb & Ha & Hn3 & Hn4). split; try done.
  - intros g1 rx item g2 ->. apply each_split, Forall_cons_1 in Hd as [Hd _].
    apply Exists_exists in Hd as ([tx rx'] & Hch%list_elem_of_In & Heq & Hs). cbn in Heq, Hs. subst rx'.
    destruct (sent_plain _ _ _ Hs) as [m Hm]. rewrite Hm in Hs. apply plain_item_eq in Hm as ->.
    apply channels_event in Hch as [cap Hch]. apply sent_event in Hs. by exists cap, tx.
  - intros us r Hv. rewrite list.Forall_forall in Hu.
    specialize (Hu (us, r) (flat_elem event_uni_taken _ _ _ Hv eq_refl)).
    apply Exists_exists in Hu as ([c s] & Ho%list_elem_of_In & He & Hf). exists c, s.
    split_and!; [by apply opens_event|by intros ?%(elsewhere _ _ He)|exact Hf].
  - intros g1 bs s' r' g2 Hg. rewrite Hg in Hb at 2. apply each_split, Forall_cons_1 in Hb as [Hb _].
    apply Exists_exists in Hb as ([[c s] r] & Ho%list_elem_of_In & Hf). exists c, s, r.
    split; [by apply opens_bi_event|exact Hf].
  - intros c s r Hv. rewrite list.Forall_forall in Ha.
    destruct (Ha (c, s, r) (flat_elem event_opens_bi _ _ _ Hv eq_refl)) as [He|He]; [by left|right].
    apply Exists_exists in He as ([bs [s' r']] & Ho%list_elem_of_In & He & Hf). exists bs, s', r'.
    split_and!; [by apply bi_taken_event|by intros ?%(elsewhere _ _ He)|exact Hf].
Qed.

(** ** Addresses *)

Definition event_knocks (v : event ev) : list q_Connecting :=
  match v with
  | Ev e x =>
      match e in ev T return T -> _ with
      | NextIncoming _ => fun a => match a with Some k => [k] | None => [] end
      | _ => fun _ => []
      end x
  end.

Definition event_remote (v : event ev) : list (q_Connection * SocketAddr) :=
  match v with
  | Ev e x =>
      match e in ev T return T -> _ with
      | RemoteAddress c => fun a => [(c, a)]
      | _ => fun _ => []
      end x
  end.

Definition event_dials (v : event ev) : list q_Endpoint :=
  match v with
  | Ev e x =>
      match e in ev T return T -> _ with
      | Connect ep _ _ => fun a => match a with Ok _ => [ep] | Err _ => [] end
      | _ => fun _ => []
      end x
  end.

Definition event_local (v : event ev) : list (q_Endpoint * SocketAddr) :=
  match v with
  | Ev e x =>
      match e in ev T return T -> _ with
      | EndpointLocalAddr ep => fun a => match a with Ok addr => [(ep, addr)] | Err _ => [] end
      | _ => fun _ => []
      end x
  end.

Definition checked_direct (g : list (event ev)) : Prop :=
  Forall (fun k => Forall (fun e => e.1 = k -> Forall (fun c => c.1 = nc_connection e.2 ->
      Exists (fun ep => Forall (fun l => l.1 = ep -> l.2 = c.2) (concat (map event_local g)))
        (concat (map event_dials g)))
      (concat (map event_remote g))) (established g)) (concat (map event_knocks g)).

#[export] Instance checked_direct_dec g : Decision (checked_direct g).
Proof. unfold checked_direct. apply _. Defined.

Lemma checked_direct_sound g : checked_direct g -> direct g.
Proof.
  unfold checked_direct. intros Hd inc k nc a H1 H2 H3.
  rewrite list.Forall_forall in Hd. specialize (Hd k (flat_elem event_knocks _ _ _ H1 eq_refl)).
  rewrite list.Forall_forall in Hd.
  specialize (Hd (k, nc) (flat_elem event_established _ _ _ H2 eq_refl) eq_refl).
  rewrite list.Forall_forall in Hd.
  specialize (Hd (nc_connection nc, a) (flat_elem event_remote _ _ _ H3 eq_refl) eq_refl).
  apply Exists_exists in Hd as (ep & Hep%list_elem_of_In & Hl).
  apply elem_of_flat in Hep as ([T e x] & Hv & Hi). destruct e; try by apply not_elem_of_nil in Hi.
  cbn in Hi. destruct x as [k'|]; [|by apply not_elem_of_nil in Hi].
  apply list_elem_of_singleton in Hi as ->. eexists _, _, _, k'. split; [exact Hv|].
  intros a' Ha. rewrite list.Forall_forall in Hl.
  by apply (Hl _ (flat_elem event_local _ _ _ Ha eq_refl)).
Qed.

End NetworkCheck.
