(* ===== verification/Node.v ===== *)
(** * examples/p2p_node.rs: the example node

    A node that greets the peers given on its command line with "marco" and answers
    every "marco" it receives with "polo". [main] is a program like those of the
    library, over the same calls; the panics of [expect], [env::args] and [println!] are
    [Fault]. How the crate bytes prints a message is the class [BytesDebug]. *)

From Stdlib Require Import Strings.Byte Ascii.
From S2P Require Import Prelude Std Parse Foreign WireTypes Errors ErrorText ConfigTypes Prog Eyre.
From S2P Require Import Effects Wire Config Connection Incoming Igd Endpoint.

Local Open Scope Z_scope.
Local Open Scope prog_scope.

(** [fmt::Debug] of [bytes::Bytes]. *)
Class BytesDebug := bytes_debug : Bytes -> string.

Definition MSG_MARCO : Bytes := String.list_byte_of_string "marco".
Definition MSG_POLO : Bytes := String.list_byte_of_string "polo".

Definition newline : string := String "010" EmptyString.

Section Node.
Context {F : Foreign} {Bc : Bincode} {Bo : Backoff} {BD : BytesDebug}.

Definition println (line : string) : io unit :=
  let* written := call (Println line) in
  if written : bool then Ret tt else Fault.

Definition node_config : Config :=
  {| forward_port := forward_port Config_default;
     external_port := external_port Config_default;
     external_ip := external_ip Config_default;
     idle_timeout := Some (from_secs (60 * 60));
     keep_alive_interval := keep_alive_interval Config_default;
     upnp_lease_duration := upnp_lease_duration Config_default;
     retry_config := retry_config Config_default |}.

(** ** Greeting the peers on the command line *)

Definition sending_line (peer : SocketAddr) : string :=
  "Sending to " +:+ fmt_SocketAddr peer +:+ " --> " +:+ bytes_debug MSG_MARCO +:+ newline.

(** The body of the [for] loop. The connection is dropped at its end. *)
Definition send_marco (node : Endpoint) (arg : string) : io (Result unit Report) :=
  match SocketAddr_from_str arg with
  | None => Fault
  | Some peer =>
      let msg := MSG_MARCO in
      let* _ := println (sending_line peer) in
      let? (connection, _) := connect_to node peer in
      let? _ := send connection msg in
      Ret (Ok tt)
  end.

Fixpoint send_marcos (node : Endpoint) (args : list string) : io (Result unit Report) :=
  match args with
  | [] => Ret (Ok tt)
  | arg :: args => let? _ := send_marco node arg in send_marcos node args
  end.

(** The [if args.len() > 1] block; the first argument is the program. *)
Definition greet (node : Endpoint) (args : list string) : io (Result unit Report) :=
  if (1 <? length args)%nat then
    let? _ := send_marcos node (drop 1 args) in
    let* _ := println "Done sending" in
    Ret (Ok tt)
  else Ret (Ok tt).

(** ** Answering messages *)

Definition received_line (src : SocketAddr) (bytes : Bytes) : string :=
  "Received from " +:+ fmt_SocketAddr src +:+ " --> " +:+ bytes_debug bytes.

Definition replied_line (src : SocketAddr) : string :=
  "Replied to " +:+ fmt_SocketAddr src +:+ " --> " +:+ bytes_debug MSG_POLO.

(** The [if bytes == *MSG_MARCO] block. *)
Definition reply_to (connection : Connection) (src : SocketAddr) (bytes : Bytes) :
    io (Result unit Report) :=
  if bool_decide (bytes = MSG_MARCO) then
    let reply := MSG_POLO in
    let? _ := send connection reply in
    let* _ := println (replied_line src) in
    Ret (Ok tt)
  else Ret (Ok tt).

(** One round of the loop over the messages of a connection. *)
Definition message_step (connection : Connection) (incoming_messages : ConnectionIncoming)
    (src : SocketAddr) : io (unit + Result unit Report) :=
  let* next := ConnectionIncoming_next incoming_messages in
  match next with
  | Err error => Ret (inr (Err (from error)))
  | Ok None => Ret (inr (Ok tt))
  | Ok (Some bytes) =>
      let* _ := println (received_line src bytes) in
      let* replied := reply_to connection src bytes in
      match replied with
      | Err error => Ret (inr (Err error))
      | Ok _ => let* _ := println "" in Ret (inl tt)
      end
  end.

Definition serve_messages (connection : Connection) (incoming_messages : ConnectionIncoming)
    (src : SocketAddr) : io (Result unit Report) :=
  loop (fun _ : unit => message_step connection incoming_messages src) tt.

(** One round of the loop over the incoming connections. *)
Definition connection_step (incoming_conns : IncomingConnections) :
    io (unit + Result unit Report) :=
  let* next := IncomingConnections_next incoming_conns in
  match next with
  | None => Ret (inr (Ok tt))
  | Some (connection, incoming_messages) =>
      let* src := remote_address connection in
      let* served := serve_messages connection incoming_messages src in
      match served with
      | Err error => Ret (inr (Err error))
      | Ok _ => Ret (inl tt)
      end
  end.

Definition serve_connections (incoming_conns : IncomingConnections) : io (Result unit Report) :=
  loop (fun _ : unit => connection_step incoming_conns) tt.

(** ** The whole *)

Definition main : io (Result unit Report) :=
  let? _ := call InstallColorEyre in
  let* args := call EnvArgs in
  match args with
  | None => Fault
  | Some args =>
      let? (node, incoming_conns, _) :=
        new_peer (sa_new (IpV4 LOCALHOST) 0) [] node_config in
      let? _ := greet node args in
      let* _ := println (newline +:+ "---") in
      let* _ := println ("Listening on: " +:+ fmt_SocketAddr (public_addr node)) in
      let* _ := println ("---" +:+ newline) in
      serve_connections incoming_conns
  end.

End Node.
