(* ===== verification/NodeFacts.v ===== *)
(** * What the example node does

    It greets the peers of its command line one after the other, answers every "marco"
    before it takes the next message, never looks at the answers to its own greetings,
    and ends with the first error of any connection. *)

From Stdlib Require Import Strings.Byte.
From S2P Require Import Prelude Std Parse Foreign WireTypes Errors ErrorText ConfigTypes Prog Eyre.
From S2P Require Import ProgFacts Effects Wire WireFacts Config ConfigFacts Connection Incoming Igd.
From S2P Require Import Channel Endpoint SendFacts EndpointFacts Node.

Local Open Scope Z_scope.
Local Open Scope prog_scope.

Section NodeFacts.
Context {F : Foreign} {Bc : Bincode} {Bo : Backoff} {BL : BackoffLaws} {BD : BytesDebug}.

(** ** Vocabulary *)

(** A complete delivery of [msg] over [c], after any failed attempts. *)
Definition delivered (c : Connection) (msg : Bytes) (tr : list (event ev)) : Prop :=
  exists trs s known fin, tr = concat trs ++ delivery (conn_inner c) s msg 0 known fin
    /\ Forall (failed_attempt c msg 0) trs /\ finished_or_stopped fin.

(** The node's reaction to a message: "polo" for "marco", nothing else for any other. *)
Definition reaction (c : Connection) (src : SocketAddr) (msg : Bytes) (tr : list (event ev)) : Prop :=
  if bool_decide (msg = MSG_MARCO)
  then exists t, delivered c MSG_POLO t /\ tr = t ++ [Ev (Println (replied_line src)) true]
  else tr = [].

(** [msgs] were received in this order, each printed and reacted to before the next. *)
Inductive dialogue (c : Connection) (rx : MessageRx) (src : SocketAddr) :
    list Bytes -> list (event ev) -> Prop :=
| dialogue_nil : dialogue c rx src [] []
| dialogue_cons msg stream msgs t tr :
    reaction c src msg t -> dialogue c rx src msgs tr ->
    dialogue c rx src (msg :: msgs)
      (Ev (RecvMessage rx) (Some (Ok (msg, stream)))
         :: Ev (Println (received_line src msg)) true :: t ++ Ev (Println "") true :: tr).

(** ** Parts *)

Lemma send_ok_delivered c msg tr : runs (send c msg) tr (Done (Ok tt)) -> delivered c msg tr.
Proof.
  unfold send. intros (trs & tr' & -> & Hf & Hl & _)%send_with_runs.
  apply send_uni_success in Hl as (s & known & fin & -> & Hfin & _). exists trs, s, known, fin. auto.
Qed.

Lemma println_runs line tr : runs (println line) tr (Done tt) -> tr = [Ev (Println line) true].
Proof.
  unfold println. intros ([] & t1 & t2 & -> & ->%runs_call_done & H)%runs_bind_done.
  - by apply runs_ret_done in H as [-> _].
  - by destruct H as [_ [?|?]].
Qed.

Lemma reply_runs c src msg tr :
  runs (reply_to c src msg) tr (Done (Ok tt)) -> reaction c src msg tr.
Proof.
  unfold reply_to, reaction. destruct (bool_decide _); [|by intros [-> _]%runs_ret_done].
  intros [([] & t1 & t2 & -> & H1 & H)|(e & _ & ?)]%runs_try_done; [|done].
  apply runs_bind_done in H as ([] & t3 & t4 & -> & ->%println_runs & [-> _]%runs_ret_done).
  eauto using send_ok_delivered.
Qed.

(** ** One connection *)

Lemma message_step_next c i src tr :
  runs (message_step c i src) tr (Done (inl tt)) ->
  exists msg stream t, reaction c src msg t
    /\ tr = Ev (RecvMessage (message_rx i)) (Some (Ok (msg, stream)))
              :: Ev (Println (received_line src msg)) true :: t ++ [Ev (Println "") true].
Proof.
  unfold message_step. intros (r & t1 & t2 & -> & (a & -> & Ha)%next_runs & H)%runs_bind_done.
  destruct a as [[[msg st]|e]|]; subst r; [|by run_inv..].
  apply runs_bind_done in H as ([] & t3 & t4 & -> & ->%println_runs & H).
  apply runs_bind_done in H as ([[]|e] & t5 & t6 & -> & H1 & H); [|by run_inv].
  apply runs_bind_done in H as ([] & t7 & t8 & -> & ->%println_runs & [-> _]%runs_ret_done).
  apply reply_runs in H1. exists msg, st, t5. by split.
Qed.

(** How the service of a connection ends, or what it is in the middle of. *)
Definition finale (c : Connection) (rx : MessageRx) (src : SocketAddr) (tr : list (event ev))
    (o : outcome (Result unit Report)) : Prop :=
  match o with
  | Done (Ok _) => tr = [Ev (RecvMessage rx) None]
  | Done (Err report) =>
      (exists e, tr = [Ev (RecvMessage rx) (Some (Err e))] /\ report = Report_of (D_Recv e))
      \/ (exists e stream t, report = Report_of (D_Send e)
           /\ tr = Ev (RecvMessage rx) (Some (Ok (MSG_MARCO, stream)))
                     :: Ev (Println (received_line src MSG_MARCO)) true :: t
           /\ runs (send c MSG_POLO) t (Done (Err e)))
  | Halt _ => (length (taken tr) <= 1)%nat
  end.

Lemma reply_fails c src msg tr report :
  runs (reply_to c src msg) tr (Done (Err report)) ->
  exists e, msg = MSG_MARCO /\ report = Report_of (D_Send e) /\ runs (send c MSG_POLO) tr (Done (Err e)).
Proof.
  unfold reply_to. case_bool_decide as Hm; [|by intros [_ ?]%runs_ret_done].
  intros [([] & t1 & t2 & -> & H1 & H2)|(e & H1 & He)]%runs_try_done; [by run_inv|].
  injection He as ->. eauto.
Qed.

Lemma message_step_end c i src tr r :
  runs (message_step c i src) tr (Done (inr r)) -> finale c (message_rx i) src tr (Done r).
Proof.
  unfold message_step. intros (x & t1 & t2 & -> & (a & -> & Ha)%next_runs & H)%runs_bind_done.
  destruct a as [[[msg st]|e]|]; subst x.
  - apply runs_bind_done in H as ([] & t3 & t4 & -> & ->%println_runs & H).
    apply runs_bind_done in H as ([[]|report] & t5 & t6 & -> & H1 & H); [by run_inv|].
    apply runs_ret_done in H as [-> [= ->]]. apply reply_fails in H1 as (e & -> & -> & H1).
    right. exists e, st, t5. by rewrite app_nil_r.
  - apply runs_ret_done in H as [-> [= ->]]. left. by exists e.
  - by apply runs_ret_done in H as [-> [= ->]].
Qed.

(** Nothing but [next] takes messages. *)
Definition takes_none (v : event ev) : Prop := event_taken v = [].

Lemma takes_none_taken tr : Forall takes_none tr -> taken tr = [].
Proof.
  unfold taken. induction 1 as [|v tr Hv _ IH]; [done|]. cbn. by rewrite Hv, IH.
Qed.

Lemma println_takes_none line : only takes_none (println line).
Proof. unfold println. repeat (only_step || apply only_fault || done). Qed.

Lemma write_takes_none m s : only takes_none (write_to_stream m s).
Proof. unfold write_to_stream. repeat (only_step || done). Qed.

Lemma send_takes_none c msg : only takes_none (send c msg).
Proof.
  assert (only takes_none (send_uni c msg 0)) as Hu.
  { unfold send_uni, open_uni, SendStream_set_priority, send_user_msg, SendStream_finish.
    repeat (only_step || apply write_takes_none || done). }
  unfold send, send_with. destruct (default_retry_config c).
  - only_step; [|only_step]. apply only_retry. unfold send_attempt. repeat (only_step || done).
  - only_step; [done|only_step].
Qed.

Lemma reply_takes_none c src msg : only takes_none (reply_to c src msg).
Proof.
  unfold reply_to. destruct (bool_decide _); [|only_step].
  repeat (only_step || apply send_takes_none || apply println_takes_none).
Qed.

Lemma message_step_taken c i src tr o :
  runs (message_step c i src) tr o -> (length (taken tr) <= 1)%nat.
Proof.
  unfold message_step. intros Hr.
  apply runs_bind in Hr as [(x & t1 & t2 & -> & Hn%next_taken & Hr)|(h & -> & Hr)];
    [|by eapply next_taken].
  rewrite taken_app, length_app.
  enough (taken t2 = []) as -> by (cbn; lia). apply takes_none_taken.
  destruct x as [[msg|]|e]; [|by destruct Hr as [-> _]..].
  revert Hr. match goal with |- runs ?p _ _ -> _ => enough (only takes_none p) as Hp by apply Hp end.
  repeat (only_step || apply println_takes_none || apply reply_takes_none || case_match).
Qed.

Lemma serve_messages_runs c i src tr o :
  runs (serve_messages c i src) tr o ->
  exists msgs tr1 tr2, tr = tr1 ++ tr2 /\ dialogue c (message_rx i) src msgs tr1
    /\ finale c (message_rx i) src tr2 o.
Proof.
  unfold serve_messages. intros Hr%runs_loop.
  induction Hr as [[] [] t1 t2 o H1 _ IH|[] r t H1|[] h t H1].
  - apply message_step_next in H1 as (msg & st & t & Hre & ->).
    destruct IH as (msgs & tr1 & tr2 & -> & Hd & Hf).
    eexists (msg :: msgs), _, tr2. split; [|split; [by apply dialogue_cons|done]].
    cbn. by rewrite <- !app_assoc.
  - exists [], [], t. split_and!; [done|constructor|by apply message_step_end].
  - exists [], [], t. split_and!; [done|constructor|]. by apply message_step_taken in H1.
Qed.

(** C20: at every moment of the service of a connection, all messages taken from it but
    the last have been dealt with completely and in their order: a "marco" was answered
    by a delivered "polo" on the same connection, nothing was sent for any other message.
    The service ends normally only when the connection has no more messages; with an
    error, it is the error that was received in place of a message, or that of the
    answer to a "marco". *)
Theorem node_answers_marco c i src tr o :
  runs (serve_messages c i src) tr o ->
  exists msgs tr1 tr2, tr = tr1 ++ tr2 /\ dialogue c (message_rx i) src msgs tr1
    /\ finale c (message_rx i) src tr2 o.
Proof. apply serve_messages_runs. Qed.

(** ** The greetings *)

(** The peer of a command line argument was connected to and sent "marco". *)
Definition greeted (node : Endpoint) (arg : string) (tr : list (event ev)) : Prop :=
  exists peer trs connecting nc addr alive chan td,
    let c := mkConnection (nc_connection nc) (Some (ep_retry_config node)) alive.1 in
    SocketAddr_from_str arg = Some peer
    /\ tr = [Ev (Println (sending_line peer)) true]
              ++ (concat trs ++ connected node peer connecting nc addr alive chan) ++ td
    /\ Forall (fun t => exists error, attempt_failed node peer t error) trs
    /\ delivered c MSG_MARCO td.

Lemma send_marco_runs node arg tr :
  runs (send_marco node arg) tr (Done (Ok tt)) -> greeted node arg tr.
Proof.
  unfold send_marco, greeted. destruct (SocketAddr_from_str arg) as [peer|]; [|by intros [_ [?|?]]].
  intros ([] & t1 & t2 & -> & ->%println_runs & H)%runs_bind_done.
  apply runs_try_done in H as [([c i] & t3 & t4 & -> & H1 & H)|(e & _ & ?)]; [|done].
  apply new_connection_runs in H1 as (trs & tr' & -> & Hf & connecting & nc & addr & alive & chan & -> & -> & ->).
  apply runs_try_done in H as [([] & t5 & t6 & -> & H1 & [-> _]%runs_ret_done)|(e & _ & ?)]; [|done].
  apply send_ok_delivered in H1. rewrite app_nil_r. eauto 15.
Qed.

(** C29: the node has finished its greetings only when every argument was the address of a
    peer, and then it has connected to the peers in the order of the arguments and
    delivered "marco" to each of them before it turned to the next one. *)
Theorem node_greets node args tr :
  runs (send_marcos node args) tr (Done (Ok tt)) ->
  exists trs, tr = concat trs /\ Forall2 (greeted node) args trs.
Proof.
  revert tr. induction args as [|arg args IH]; intros tr; cbn [send_marcos].
  - intros [-> _]%runs_ret_done. by exists [].
  - intros [([] & t1 & t2 & -> & H1 & (trs & -> & Hts)%IH)|(e & _ & ?)]%runs_try_done; [|done].
    exists (t1 :: trs). split; [done|]. constructor; [by apply send_marco_runs|done].
Qed.

(** An argument that the node itself would print as an IPv4 address is never refused. *)
Lemma printed_argument node peer port :
  u16_range port ->
  send_marco node (fmt_SocketAddr (V4 (mkV4 peer port)))
  = (let* _ := println (sending_line (V4 (mkV4 peer port))) in
     let? (connection, _) := connect_to node (V4 (mkV4 peer port)) in
     let? _ := send connection MSG_MARCO in
     Ret (Ok tt)).
Proof. intros Hp. unfold send_marco. by rewrite SocketAddr_v4_roundtrip. Qed.

(** ** The answers to the greetings *)

Lemma read_takes_none s : only takes_none (read_from_stream s).
Proof. unfold read_from_stream, read_data, read_header_rest. repeat (only_step || done). Qed.

Lemma attempt_takes_none e addr : only takes_none (connect_attempt e addr).
Proof.
  unfold connect_attempt, Connection_new, ConnectionIncoming_new, start_message_listeners.
  repeat (only_step || done).
Qed.

Lemma connect_takes_none e addr : only takes_none (new_connection e addr).
Proof. apply only_retry, attempt_takes_none. Qed.

Lemma greet_takes_none node args : only takes_none (greet node args).
Proof.
  assert (forall args0, only takes_none (send_marcos node args0)) as Hs.
  { induction args0 as [|arg args0 IH]; cbn [send_marcos]; [only_step|]. only_step; [|done].
    unfold send_marco, connect_to. destruct (SocketAddr_from_str arg); [|apply only_fault].
    repeat (only_step || apply println_takes_none || apply connect_takes_none || apply send_takes_none). }
  unfold greet. destruct (1 <? length args)%nat; [|only_step].
  repeat (only_step || apply println_takes_none || apply Hs).
Qed.

(** ** The whole node *)

Definition receive_error (v : event ev) : Prop := exists e, event_taken v = [Some (Err e)].

(** An error taken from a channel is the last thing that happens, and the result. *)
Definition ends_on_error (tr : list (event ev)) (o : outcome (Result unit Report)) : Prop :=
  Forall (fun v => ~ receive_error v) tr
  \/ exists tr' rx e, tr = tr' ++ [Ev (RecvMessage rx) (Some (Err e))]
       /\ Forall (fun v => ~ receive_error v) tr'
       /\ (o = Done (Err (Report_of (D_Recv e))) \/ exists h, o = Halt h).

Lemma takes_none_no_error tr : Forall takes_none tr -> Forall (fun v => ~ receive_error v) tr.
Proof. apply Forall_impl. intros v Hv [e He]. by rewrite Hv in He. Qed.

Lemma ends_on_error_app t1 t2 o :
  Forall (fun v => ~ receive_error v) t1 -> ends_on_error t2 o -> ends_on_error (t1 ++ t2) o.
Proof.
  intros H1 [H2|(t & rx & e & -> & H2 & Ho)]; [left; by apply Forall_app|].
  right. exists (t1 ++ t), rx, e. rewrite app_assoc. split_and!; [done|by apply Forall_app|done].
Qed.

Lemma ends_on_error_after {A} (p : io A) (f : A -> io (Result unit Report)) tr o :
  only takes_none p -> (forall a t o, runs (f a) t o -> ends_on_error t o) ->
  runs (bind p f) tr o -> ends_on_error tr o.
Proof.
  intros Hp Hf [(a & t1 & t2 & -> & H1%Hp%takes_none_no_error & H2%Hf)|(h & -> & H1%Hp)]%runs_bind.
  - by apply ends_on_error_app.
  - left. by apply takes_none_no_error.
Qed.

(** The round of the loop: if it goes on or ends well, there was no error. *)
Definition round_ends (tr : list (event ev)) (o : outcome (unit + Result unit Report)) : Prop :=
  match o with
  | Done (inl _) => Forall (fun v => ~ receive_error v) tr
  | Done (inr r) => ends_on_error tr (Done r)
  | Halt h => ends_on_error tr (Halt h)
  end.

Lemma loop_ends_on_error (body : io (unit + Result unit Report)) tr o :
  (forall t o, runs body t o -> round_ends t o) ->
  runs (loop (fun _ : unit => body) tt) tr o -> ends_on_error tr o.
Proof.
  intros Hb Hr%runs_loop. induction Hr as [[] [] t1 t2 o H1%Hb _ IH|[] r t H1%Hb|[] h t H1%Hb]; [|done..].
  by apply ends_on_error_app.
Qed.

Lemma one_ends_on_error rx a h : ends_on_error [Ev (RecvMessage rx) a] (Halt h).
Proof.
  destruct a as [[m|e]|].
  - left. repeat constructor. by intros [e He].
  - right. exists [], rx, e. eauto.
  - left. repeat constructor. by intros [e He].
Qed.

Lemma message_step_ends c i src tr o : runs (message_step c i src) tr o -> round_ends tr o.
Proof.
  unfold message_step. intros Hr.
  apply runs_bind in Hr as [(x & t1 & t2 & -> & (a & -> & Ha)%next_runs & Hr)|(h & -> & Hr)].
  2: { apply next_shape in Hr as [->|[a ->]]; [by left|apply one_ends_on_error]. }
  destruct a as [[[msg st]|e]|]; subst x.
  - assert (Forall (fun v => ~ receive_error v)
      ([Ev (RecvMessage (message_rx i)) (Some (Ok (msg, st)))] ++ t2)) as Hne.
    { apply Forall_app. split; [repeat constructor; by intros [e He]|]. apply takes_none_no_error.
      revert Hr. match goal with |- runs ?p _ _ -> _ => enough (only takes_none p) as Hp by apply Hp end.
      repeat (only_step || apply println_takes_none || apply reply_takes_none || case_match). }
    destruct o as [[]|]; [done|by left|by left].
  - destruct Hr as [-> [-> | ->]]; [|apply one_ends_on_error].
    right. exists [], (message_rx i), e. eauto.
  - destruct Hr as [-> [-> | ->]]; [|apply one_ends_on_error].
    left. repeat constructor. by intros [e He].
Qed.

Lemma connection_step_ends inc tr o : runs (connection_step inc) tr o -> round_ends tr o.
Proof.
  unfold connection_step, IncomingConnections_next, remote_address. intros Hr.
  apply runs_bind in Hr as [(x & t1 & t2 & -> & ->%runs_call_done & Hr)|(h & -> & Hr)].
  2: { apply runs_call in Hr as [[-> _]|(x & -> & _)]; left; repeat constructor. by intros [e He]. }
  assert (Forall (fun v => ~ receive_error v) [Ev (RecvConnection (ic_rx inc)) x]) as Hx.
  { repeat constructor. by intros [e He]. }
  destruct x as [[c i]|]; [|destruct Hr as [-> [-> | ->]]; by left].
  apply runs_bind in Hr as [(src & t3 & t4 & -> & ->%runs_call_done & Hr)|(h & -> & Hr)].
  2: { apply runs_call in Hr as [[-> _]|(a & -> & _)]; left; [done|].
       apply Forall_app. split; [done|]. repeat constructor. by intros [e He]. }
  assert (Forall (fun v => ~ receive_error v) [Ev (RemoteAddress (conn_inner c)) src]) as Hy.
  { repeat constructor. by intros [e He]. }
  apply runs_bind in Hr as [(r & t5 & t6 & -> & Hs & Hr)|(h & -> & Hs)];
    apply (loop_ends_on_error _ _ _ (message_step_ends c i src)) in Hs.
  - destruct r as [[]|report].
    + destruct Hr as [-> Ho]. rewrite app_nil_r.
      destruct Hs as [Hs|(t' & rx & e & -> & Hs & [Hr|[h Hr]])]; [|done..].
      assert (Forall (fun v => ~ receive_error v) ([Ev (RecvConnection (ic_rx inc)) (Some (c, i))]
        ++ [Ev (RemoteAddress (conn_inner c)) src] ++ t5)) as Hne by (by repeat apply Forall_app_2).
      destruct Ho as [-> | ->]; [done|by left].
    + destruct Hr as [-> Ho]. rewrite app_nil_r.
      assert (ends_on_error t5 (Halt Running)) as Hh by
        (destruct Hs as [Hs|(t' & rx & e & -> & Hs & _)]; [by left|right; exists t', rx, e; eauto]).
      destruct Ho as [-> | ->]; by repeat apply ends_on_error_app.
  - by repeat apply ends_on_error_app.
Qed.

Lemma new_peer_takes_none la contacts config : only takes_none (new_peer la contacts config).
Proof.
  unfold new_peer, try_from_config, generate_cert, connect_to_any, resolve_public_addr, visible_addr,
    forward_if_configured, igd_forward_port, add_port, listen_for_incoming_connections, check_reachable,
    endpoint_echo, endpoint_verification, open_bi, send_wire_msg, next_wire_msg, remote_address, timeout.
  repeat (only_step || apply write_takes_none || apply read_takes_none || done).
  apply only_race, Forall_map, list.Forall_forall. intros addr _. apply connect_takes_none.
Qed.

Ltac take_none :=
  apply ends_on_error_after;
  [first [apply println_takes_none | apply new_peer_takes_none | apply greet_takes_none
         | apply only_call; done]|].

(** C30: an error that the node receives from any of its peers in place of a message ends
    the node: nothing happens after it, and it is the result of [main]. *)
Theorem node_stops_on_error tr o tr1 rx e tr2 :
  runs main tr o -> tr = tr1 ++ Ev (RecvMessage rx) (Some (Err e)) :: tr2 ->
  tr2 = [] /\ (o = Done (Err (Report_of (D_Recv e))) \/ exists h, o = Halt h).
Proof.
  intros Hr ->.
  assert (forall tr o, runs main tr o -> ends_on_error tr o) as Hmain.
  { clear Hr. intros tr o0. unfold main, try_bind.
    take_none. intros [[]|e0] t1 o1; [|by intros [-> _]; left].
    take_none. intros [args|] t2 o2; [|by intros [-> _]; left].
    take_none. intros [[[node inc] contact]|e0] t3 o3; [|by intros [-> _]; left].
    take_none. intros [[]|e0] t4 o4; [|by intros [-> _]; left].
    take_none. intros [] t5 o5. take_none. intros [] t6 o6. take_none. intros [] t7 o7.
    apply loop_ends_on_error. apply connection_step_ends. }
  apply Hmain in Hr as [Hn|(t & rx' & e' & Ht & Hn & Ho)].
  - apply Forall_app in Hn as [_ Hn]. inversion_clear Hn as [|? ? Hv _]. destruct Hv. by exists e.
  - destruct tr2 as [|w tr2 _] using rev_ind.
    + apply app_inj_tail in Ht as [_ Ht]. apply (f_equal event_taken) in Ht. by injection Ht as ->.
    + rewrite app_comm_cons, app_assoc in Ht. apply app_inj_tail in Ht as [<- _].
      apply Forall_app in Hn as [_ Hn]. inversion_clear Hn as [|? ? Hv _]. destruct Hv. by exists e.
Qed.

(** The node never looks at the answers to its greetings: while it
    greets, it takes no message from any connection. *)
Lemma node_ignores_replies node args tr o :
  runs (greet node args) tr o -> taken tr = [].
Proof. intros Hr. by eapply takes_none_taken, greet_takes_none. Qed.

End NodeFacts.
