(* ===== verification/Demo.v ===== *)
(** * A concrete environment

    An instance of [Foreign] in which every handle is a number, a codec for bincode
    (IPv4 addresses only; it refuses the rest), a backoff that retries twice, and a
    scripted world (in which idle timeouts are whole seconds) with the handler that
    answers the calls of the crate in it. The parameters of the development are
    satisfied here, and executions in it are runs ([demo_runs]) whose reads conform to its streams ([demo_conforms]). *)

From Stdlib Require Import Strings.Byte.
From S2P Require Import Prelude Std Foreign WireTypes Errors ConfigTypes Prog ProgFacts Effects.
From S2P Require Import ErrorText Wire StreamSpec WireFacts Config.

Local Open Scope Z_scope.
Local Open Scope prog_scope.

(** ** The foreign types *)

#[export] Instance demo : Foreign := {|
  q_Endpoint := nat; q_Connection := nat; q_Connecting := nat; q_Incoming := nat;
  q_IncomingUniStreams := nat; q_IncomingBiStreams := nat; q_SendStream := nat;
  q_RecvStream := nat; 
  q_ClientConfig := option (ServerCertVerifier unit unit unit unit) * (option Duration * option Duration);
  q_ServerConfig := (list Bytes * Bytes) * (option Duration * option Duration);
  q_TransportConfig := option Duration * option Duration; q_IdleTimeout := Duration;
  q_TransportError := nat; q_TransportErrorCode := nat; VarIntBoundsExceeded := unit;
  bincode_OtherKind := unit; io_Error := unit; rcgen_Certificate := nat; rcgen_Error := unit;
  rustls_Error := unit; webpki_Error := unit; RootCertStore := list Bytes; other_error := unit; color_eyre_Error := unit; ClientCrypto := option (ServerCertVerifier unit unit unit unit);
  ServerName := unit; SystemTime := unit; ServerCertVerified := unit; igd_Gateway := nat; igd_AddPortError := unit;
  igd_SearchError := unit; MessageTx := nat; MessageRx := nat; ConnectionTx := nat;
  ConnectionRx := nat; AliveTx := nat; AliveRx := nat; TerminationTx := nat;
  TerminationRx := nat;
  IdleTimeout_try_from := fun d => match nanos d with 0 => Ok d | _ => Err tt end;
  TransportConfig_default := (None, None);
  tc_max_idle_timeout := fun c i => (i, snd c);
  tc_keep_alive_interval := fun c k => (fst c, k);
  serialize_private_key_der := fun _ => [x01];
  serialize_der := fun _ => Ok [x02];
  RootCertStore_empty := [];
  RootCertStore_add := fun s c => Ok (c :: s);
  client_builder_with_roots := fun _ => None;
  set_certificate_verifier := fun _ v => Some v;
  assertion := tt;
  ServerConfig_with_single_cert := fun certs key => Ok (certs, key, (None, None));
  server_set_transport := fun s t => (fst s, t);
  ClientConfig_new := fun c => (c, (None, None));
  client_set_transport := fun c t => (fst c, t) |}.

#[export] Instance demo_send_stream_eq : EqDecision (q_SendStream (Foreign := demo)) :=
  Nat.eq_dec.

#[export] Instance demo_recv_stream_eq : EqDecision (q_RecvStream (Foreign := demo)) :=
  Nat.eq_dec.

(** Handles. *)
Definition ep0 : q_Endpoint (Foreign := demo) := 0%nat.
Definition conn0 : q_Connection (Foreign := demo) := 0%nat.
Definition s0 : q_SendStream (Foreign := demo) := 0%nat.
Definition s1 : q_SendStream (Foreign := demo) := 1%nat.
Definition bi0 : q_IncomingBiStreams (Foreign := demo) := 0%nat.
Definition rs0 : q_RecvStream (Foreign := demo) := 0%nat.
Definition rs1 : q_RecvStream (Foreign := demo) := 1%nat.
Definition uni0 : q_IncomingUniStreams (Foreign := demo) := 0%nat.
Definition inc0 : q_Incoming (Foreign := demo) := 0%nat.
Definition tx0 : MessageTx (Foreign := demo) := 0%nat.
Definition ctx0 : ConnectionTx (Foreign := demo) := 0%nat.
Definition crx0 : ConnectionRx (Foreign := demo) := 0%nat.
Definition term0 : TerminationRx (Foreign := demo) := 0%nat.

(** A client configuration here is its verifier and its transport configuration. *)
#[export] Instance demo_rustls_laws : RustlsLaws := {|
  server_cert_check (c : q_ClientConfig (Foreign := demo)) :=
    match fst c with Some v => v | None => SkipCertificateVerification end;
  server_cert_check_new _ _ := eq_refl;
  server_cert_check_transport _ _ := eq_refl |}.

(** A server configuration is its certificate, its key and its transport configuration. *)
#[export, refine] Instance demo_config_laws : QuinnConfigLaws := {|
  idle_millis (i : q_IdleTimeout (Foreign := demo)) := as_millis i;
  idle_of (t : q_TransportConfig (Foreign := demo)) := fst t;
  keep_alive_of (t : q_TransportConfig (Foreign := demo)) := snd t;
  server_transport (s : q_ServerConfig (Foreign := demo)) := snd s;
  server_identity (s : q_ServerConfig (Foreign := demo)) := fst s;
  client_transport (c : q_ClientConfig (Foreign := demo)) := snd c |}.
Proof.
  all: try done.
  - intros d i. cbn. destruct (nanos d); [|done..]. by intros [= ->].
  - intros certs key s. cbn. by intros [= <-].
Defined.

(** The texts of other crates are all empty. *)
#[export] Instance demo_text : ForeignText := {|
  foreign_text _ := EmptyString;
  foreign_source _ := None;
  code_text _ := EmptyString;
  code_debug _ := EmptyString |}.

(** ** A codec *)

Definition encode_addr (a : SocketAddr) : option Bytes :=
  match a with
  | V4 (mkV4 (mkIpv4 a b c d) port) =>
      if (0 <=? port) && (port <? 2 ^ 16) then Some ([a; b; c; d] ++ to_be_bytes 2 port) else None
  | V6 _ => None
  end.

Definition decode_addr (bs : Bytes) : option SocketAddr :=
  match bs with
  | [a; b; c; d; p; q] => Some (V4 (mkV4 (mkIpv4 a b c d) (from_be_bytes [p; q])))
  | _ => None
  end.

Lemma decode_encode_addr a bs : encode_addr a = Some bs -> decode_addr bs = Some a.
Proof.
  destruct a as [[[a b c d] port]|]; cbn [encode_addr]; [|done].
  destruct ((0 <=? port) && (port <? 2 ^ 16)) eqn:E; [|done]. intros <-%(inj Some).
  pose proof (from_to_be_bytes 2 port) as H. pose proof (length_to_be_bytes 2 port) as Hl. revert H Hl.
  destruct (to_be_bytes 2 port) as [|p [|q [|]]]; try done. intros H _. cbn [app decode_addr].
  rewrite H, Z.mod_small by lia. done.
Qed.

Definition out_of_range : bincode_Error := bincode_Custom "out of range".

Definition demo_serialize (m : WireMsg) : Result Bytes bincode_Error :=
  match m with
  | EndpointEchoReq => Ok [x00]
  | EndpointEchoResp a =>
      match encode_addr a with Some bs => Ok (x01 :: bs) | None => Err out_of_range end
  | EndpointVerificationReq a =>
      match encode_addr a with Some bs => Ok (x02 :: bs) | None => Err out_of_range end
  | EndpointVerificationResp b => Ok [x03; if b then x01 else x00]
  | UserMsg m => Ok (x04 :: m)
  end.

Definition demo_deserialize (bs : Bytes) : Result WireMsg bincode_Error :=
  match bs with
  | [x00] => Ok EndpointEchoReq
  | x01 :: bs =>
      match decode_addr bs with Some a => Ok (EndpointEchoResp a) | None => Err out_of_range end
  | x02 :: bs =>
      match decode_addr bs with
      | Some a => Ok (EndpointVerificationReq a) | None => Err out_of_range
      end
  | [x03; x00] => Ok (EndpointVerificationResp false)
  | [x03; x01] => Ok (EndpointVerificationResp true)
  | x04 :: m => Ok (UserMsg m)
  | _ => Err out_of_range
  end.

#[export] Instance demo_bincode : Bincode :=
  {| serialize := demo_serialize; deserialize := demo_deserialize |}.

#[export] Instance demo_bincode_laws : BincodeLaws.
Proof.
  split.
  - intros m bs. cbn. destruct m as [|a|a|[]|m]; cbn; try (by intros [= <-]).
    + destruct (encode_addr a) eqn:E; [|done]. intros [= <-]. cbn. by rewrite (decode_encode_addr a).
    + destruct (encode_addr a) eqn:E; [|done]. intros [= <-]. cbn. by rewrite (decode_encode_addr a).
  - intros m bs. cbn. destruct m as [|a|a|[]|m]; cbn; try (by intros [= <-]);
      destruct (encode_addr a); [|done| |done]; by intros [= <-].
Qed.

(** ** A backoff *)

Definition retry_step {R X} (op : io (Result R (backoff_Error X))) (n : nat) :
    io (nat + Result R X) :=
  let* r := op in
  Ret (match r, n with
       | Ok v, _ => inr (Ok v)
       | Err (Permanent e), _ => inr (Err e)
       | Err (Transient e), O => inr (Err e)
       | Err (Transient e), S n => inl n
       end).

#[export] Instance demo_backoff : Backoff :=
  {| backoff_retry := fun R X _ op => loop (retry_step op) 2%nat |}.

#[export] Instance demo_backoff_laws : BackoffLaws.
Proof.
  split. intros R X b op tr o Hr. apply runs_loop in Hr.
  induction Hr as [n n' t1 t2 o H1 _ IH|n r t H1|n h t H1].
  - apply runs_bind_done in H1 as (r & t3 & t4 & -> & H1 & H2). apply runs_ret_done in H2 as [-> Hr].
    rewrite app_nil_r. destruct r as [v|[e|e]], n as [|n]; simplify_eq. by eapply retried_again.
  - apply runs_bind_done in H1 as (r' & t3 & t4 & -> & H1 & H2). apply runs_ret_done in H2 as [-> Hr].
    rewrite app_nil_r. destruct r' as [v|[e|e]], n as [|n]; simplify_eq; eauto using @retried.
  - apply runs_bind in H1 as [(r & t3 & t4 & -> & H1 & H2)|(h' & Hh & H1)].
    + destruct H2 as [-> [?|Hh]]; simplify_eq. rewrite app_nil_r. apply retried_halt.
      by eapply runs_done_running.
    + simplify_eq. by apply retried_halt.
Qed.

(** ** A scripted world

    The lists are the answers still to be given, in order; when one is used up the
    answer is the natural end (success, or no more items). [w_fresh] numbers the
    streams that are opened, [w_net] says what they will deliver. A read returns at
    most four bytes. *)
Record world := mkWorld
  { w_net : q_RecvStream (Foreign := demo) -> stream;
    w_uni : list (option (Result nat q_ConnectionError));
    w_incoming : list nat;
    w_await : list (Result q_NewConnection q_ConnectionError);
    w_writes : list (Result unit q_WriteError);
    w_sends : list (Result unit MessageItem);
    w_termination : list (Result unit broadcast_TryRecvError);
    w_fresh : nat }.

Definition demo_addr : SocketAddr := V4 (mkV4 LOCALHOST 1234).
Definition demo_peer : SocketAddr := V4 (mkV4 (mkIpv4 x0a x00 x00 x02) 4321).

Definition set_net (w : world) (s : nat) (st : stream) : world :=
  mkWorld (fun t => if decide (t = s) then st else w_net w t) (w_uni w) (w_incoming w) (w_await w)
    (w_writes w) (w_sends w) (w_termination w) (w_fresh w).

Definition demo_read (w : world) (s len : nat) : Result (option Bytes) q_ReadError * world :=
  match content (w_net w s), ends (w_net w s) with
  | [], Finished => (Ok None, w)
  | [], Failed e next => (Err e, set_net w s (mkStream [] next))
  | c, e =>
      let k := Nat.min (Nat.min len 4) (length c) in
      (Ok (Some (take k c)), set_net w s (mkStream (drop k c) e))
  end.

Definition demo_read_exact (w : world) (s len : nat) : Result Bytes q_ReadExactError * world :=
  let c := content (w_net w s) in
  let e := ends (w_net w s) in
  if (len <=? length c)%nat then (Ok (take len c), set_net w s (mkStream (drop len c) e))
  else (Err (exact_error e), set_net w s (mkStream [] (after e))).

Definition demo_answer (T : Type) (e : ev T) (w : world) : T * world :=
  let '(mkWorld net uni inc awt wr snd term fresh) := w in
  match e in ev T return T * world with
  | EndpointServer _ _ => (Ok (0, 0)%nat, w)
  | EndpointClient _ => (Ok 0%nat, w)
  | EndpointLocalAddr _ => (Ok demo_addr, w)
  | SetDefaultClientConfig _ _ => (tt, w)
  | Connect _ _ _ => (Ok 0%nat, w)
  | AwaitConnecting c =>
      match awt with
      | [] => (Ok (mkNewConnection (F := demo) c c c), w)
      | a :: awt => (a, mkWorld net uni inc awt wr snd term fresh)
      end
  | EndpointClose _ _ _ => (tt, w)
  | NextIncoming _ =>
      match inc with
      | [] => (None, w)
      | c :: inc => (Some c, mkWorld net uni inc awt wr snd term fresh)
      end
  | WaitIdle _ => (tt, w)
  | RemoteAddress _ => (demo_peer, w)
  | StableId _ => (7, w)
  | OpenUni _ => (Ok fresh, mkWorld net uni inc awt wr snd term (S fresh))
  | OpenBi _ => (Ok (fresh, fresh), mkWorld net uni inc awt wr snd term (S fresh))
  | ConnectionClose _ _ _ => (tt, w)
  | NextUni _ =>
      match uni with
      | [] => (None, w)
      | a :: uni => (a, mkWorld net uni inc awt wr snd term fresh)
      end
  | NextBi _ => (None, w)
  | SetPriority _ _ => (true, w)
  | WriteAll _ _ =>
      match wr with
      | [] => (Ok tt, w)
      | a :: wr => (a, mkWorld net uni inc awt wr snd term fresh)
      end
  | Finish _ => (Ok tt, w)
  | Read s len => demo_read w s len
  | ReadExact s len => demo_read_exact w s len
  | NewMessageChannel _ => ((0, 0)%nat, w)
  | NewConnectionChannel _ => ((0, 0)%nat, w)
  | NewAliveChannel => ((0, 0)%nat, w)
  | NewTerminationChannel _ => ((0, 0)%nat, w)
  | SendMessage _ _ =>
      match snd with
      | [] => (Ok tt, w)
      | a :: snd => (a, mkWorld net uni inc awt wr snd term fresh)
      end
  | RecvMessage _ => (None, w)
  | SendConnection _ _ => (true, w)
  | RecvConnection _ => (None, w)
  | TryRecvConnection _ => (Err mpsc_Empty, w)
  | SendTermination _ => (true, w)
  | TryRecvTermination _ =>
      match term with
      | [] => (Ok tt, w)
      | a :: term => (a, mkWorld net uni inc awt wr snd term fresh)
      end
  | LockStream _ => (tt, w)
  | UnlockStream _ => (tt, w)
  | Spawn _ => (tt, w)
  | Tick _ => (tt, w)
  | Sleep _ => (tt, w)
  | SearchGateway => (Ok 0%nat, w)
  | GatewayAddPort _ _ _ _ _ => (Ok tt, w)
  | GenerateSimpleSelfSigned _ => (Ok 0%nat, w)
  | InstallColorEyre => (Ok tt, w)
  | EnvArgs => (Some [], w)
  | Println _ => (true, w)
  end.

Definition demo_handler : handler ev world :=
  mkHandler demo_answer.

(** ** Executions in it *)

Section Run.
Context {A : Type} (p : io A) (w : world).

Definition run : option (A * list (event ev) * world) := exec demo_handler 20 p w.
Definition result_of : option A := match run with Some (a, _, _) => Some a | None => None end.
Definition trace_of : list (event ev) := match run with Some (_, tr, _) => tr | None => [] end.
Definition net_after : q_RecvStream (Foreign := demo) -> stream :=
  match run with Some (_, _, w') => w_net w' | None => w_net w end.

Lemma demo_runs a : result_of = Some a -> runs p trace_of (Done a).
Proof.
  unfold result_of, trace_of. destruct run as [[[a' tr] w']|] eqn:E; [|done].
  intros [= ->]. by eapply exec_sound.
Qed.

(** A read is never asked for no bytes. *)
Definition read_sensible (v : event ev) : bool :=
  match v with
  | Ev e _ => match e with Read _ len => (0 <? len)%nat | _ => true end
  end.

Lemma demo_answer_conforms T (e : ev T) v :
  Forall read_sensible [Ev e (demo_answer T e v).1] ->
  conforms (w_net v) [Ev e (demo_answer T e v).1] (w_net (demo_answer T e v).2).
Proof.
  intros Hs. exists (w_net (demo_answer T e v).2). split; [|done].
  destruct v as [net uni inc awt wr snd term fresh].
  destruct e; cbn [demo_answer event_conforms fst]; try done; try by case_match.
  - inversion_clear Hs as [|? ? Hl _]. assert (0 < len)%nat as Hlen by (by destruct len; [done|lia]). clear Hl.
    unfold demo_read. cbn [w_net]. destruct (net s) as [[|b c] [|e next]] eqn:En; cbn [content ends].
    1: cbn [fst Datatypes.snd]; cbn; rewrite En; split; [constructor|done].
    all: cbn [fst Datatypes.snd set_net w_net]; rewrite decide_True by done; split;
      [constructor; cbn [length]; lia|intros t Ht; by rewrite decide_False].
  - unfold demo_read_exact. cbn [w_net].
    destruct (Nat.leb_spec len (length (content (net s)))); cbn [fst Datatypes.snd set_net w_net];
      rewrite decide_True by done; (split; [|intros t Ht; by rewrite decide_False]);
      destruct (net s) as [c e]; by constructor.
Qed.

Lemma demo_conforms : Forall read_sensible trace_of -> conforms (w_net w) trace_of net_after.
Proof.
  unfold trace_of, net_after. destruct run as [[[a' tr] w']|] eqn:E; [|done].
  revert E. apply (exec_respects demo_handler
    (fun w tr w' => Forall read_sensible tr -> conforms (w_net w) tr (w_net w'))).
  - done.
  - intros w1 t1 w2 t2 w3 H1 H2 Hs. apply Forall_app in Hs as [Hs1 Hs2]. apply conforms_app. eauto.
  - apply demo_answer_conforms.
Qed.

End Run.
