(* ===== verification/Witnesses.v ===== *)
(** * The theorems at concrete inputs

    Each theorem with hypotheses, applied in the environment of [Demo.v] to an
    execution in which they hold. *)

From Stdlib Require Import Strings.Byte.
From S2P Require Import Prelude Std Prog ProgFacts Foreign WireTypes Errors ConfigTypes Effects.
From S2P Require Import Wire StreamSpec WireFacts Framing Config ConfigFacts Connection.
From S2P Require Import Incoming Igd IgdFacts Endpoint ErrorFacts SendFacts UniListener.
From S2P Require Import Verification BiListener BiStreams EndpointFacts Rpc NewPeer Demo.

Local Open Scope Z_scope.
Local Open Scope prog_scope.

(** An execution that was computed is a run. *)
Ltac by_execution := apply demo_runs; vm_compute; reflexivity.

(** Its reads conform to the streams of the world. *)
Ltac by_conformance := apply demo_conforms; vm_compute; repeat constructor.

(** ** Worlds *)

Definition hello : Bytes := [x68; x69].
Definition fbytes (m : WireMsg) : Bytes := unwrap_or (frame m) [].

Definition no_stream : stream := mkStream [] Finished.

Definition world_with (net : q_RecvStream (Foreign := demo) -> stream) : world := mkWorld net [] [] [] [] [] [] 10.

Definition quiet_world : world := world_with (fun _ => no_stream).

(** Stream 0 holds a user message and an echo request, and the start of a third
    message. *)
Definition reading_world : world :=
  world_with (fun s => if decide (s = rs0)
    then mkStream (fbytes (UserMsg hello) ++ fbytes EndpointEchoReq ++ [x00; x01]) Finished
    else no_stream).

(** ** Framing *)

Lemma read_from_stream_refines_witness :
  (Ok (Some (UserMsg hello)), net_after (read_from_stream rs0) reading_world rs0)
  = decode (w_net reading_world rs0)
  /\ others_unchanged rs0 (w_net reading_world) (net_after (read_from_stream rs0) reading_world).
Proof.
  apply (read_from_stream_refines rs0 (trace_of (read_from_stream rs0) reading_world));
    [by_execution|by_conformance].
Defined.

Definition written_trace (m : WireMsg) : list (event ev) :=
  trace_of (write_to_stream m s0) quiet_world.

Lemma messages_in_order_witness :
  decode_all 3 (mkStream (written s0
    (concat [written_trace (UserMsg hello); written_trace (EndpointEchoResp demo_peer)])) Finished)
  = Some ([UserMsg hello; EndpointEchoResp demo_peer], Ok tt)
  /\ (UserMsg [] ∉ [UserMsg hello; EndpointEchoResp demo_peer] ->
      upto_empty [UserMsg hello; EndpointEchoResp demo_peer]
      = ([UserMsg hello; EndpointEchoResp demo_peer], Ok tt)).
Proof.
  apply (messages_in_order s0 [UserMsg hello; EndpointEchoResp demo_peer]).
  constructor; [by_execution|]. constructor; [by_execution|constructor].
Defined.

(** Two streams with messages, then a benign close. *)
Definition uni_world : world :=
  mkWorld (fun s =>
      if decide (s = rs0) then mkStream (fbytes (UserMsg hello) ++ fbytes (UserMsg [x21])) Finished
      else if decide (s = rs1) then mkStream (fbytes (UserMsg [x3f]) ++ [x00]) Finished
      else no_stream)
    [Some (Ok rs0); Some (Ok rs1); Some (Err q_TimedOut)] [] [] [] [] [] 10.

Definition uni_trace : list (event ev) := trace_of (listen_on_uni_streams uni0 tx0) uni_world.

Lemma uni_listener_correct_witness :
  reported uni_trace `prefix_of` map uni_item (uni_spec (w_net uni_world) (accepted uni_trace))
  /\ (ended (accepted uni_trace) ->
      reported uni_trace = map uni_item (uni_spec (w_net uni_world) (accepted uni_trace)))
  /\ (forall current t c, runs (uni_messages_next uni0 current) t (Done (None, c)) ->
        ended (accepted t)).
Proof.
  apply (uni_listener_correct uni0 tx0 uni_trace (Done tt) (w_net uni_world)
    (net_after (listen_on_uni_streams uni0 tx0) uni_world)).
  - by_execution.
  - by_conformance.
  - assert (streams_of (accepted uni_trace) = [rs0; rs1]) as -> by (vm_compute; reflexivity).
    apply (bool_decide_unpack _). vm_compute. exact I.
Defined.

(** The two messages of the first stream, that of the second and its truncated end. *)
Example uni_reported :
  map (fun i => match i with Ok (m, _) => Some m | Err _ => None end) (reported uni_trace)
  = [Some hello; Some [x21]; Some [x3f]; None].
Proof. vm_compute. reflexivity. Qed.

(** The receiver is gone after the first item. *)
Definition gone_world : world :=
  mkWorld (w_net uni_world) (w_uni uni_world) [] [] []
    [Err (Ok (hello, None))] [] 10.

Definition gone_trace : list (event ev) := trace_of (listen_on_uni_streams uni0 tx0) gone_world.

Lemma uni_listener_stops_witness :
  exists tr1 v tr2, gone_trace = tr1 ++ v :: tr2 /\ event_stops v /\ tr2 = [].
Proof.
  exists (take 4 gone_trace), (Ev (SendMessage tx0 (Ok (hello, None))) (Err (Ok (hello, None)))), [].
  assert (gone_trace = take 4 gone_trace
    ++ Ev (SendMessage tx0 (Ok (hello, None))) (Err (Ok (hello, None))) :: []) as Ht
    by (vm_compute; reflexivity).
  split; [exact Ht|]. split; [vm_compute; reflexivity|].
  apply (uni_listener_stops uni0 tx0 gone_trace (Done tt) (take 4 gone_trace)
    (Ev (SendMessage tx0 (Ok (hello, None))) (Err (Ok (hello, None)))) []);
    [by_execution|exact Ht|vm_compute; reflexivity].
Defined.

Lemma write_to_stream_correct_witness :
  written s0 (written_trace (UserMsg hello)) = fbytes (UserMsg hello).
Proof.
  refine (proj1 (proj2 (proj2 (write_to_stream_correct (UserMsg hello) s0
    (written_trace (UserMsg hello)) (Ok tt) _))) eq_refl).
  by_execution.
Defined.

Lemma decode_frame_witness :
  decode (mkStream (fbytes (EndpointVerificationReq demo_addr) ++ [x00]) Finished)
  = (Ok (Some (EndpointVerificationReq demo_addr)), mkStream [x00] Finished).
Proof. apply decode_frame; [vm_compute; reflexivity|done]. Defined.

Lemma header_roundtrip_witness :
  from_bytes (to_bytes (mkMsgHeader 1 70000 x01 (x00, x00))) = mkMsgHeader 1 70000 x01 (x00, x00).
Proof. apply header_roundtrip. repeat split; vm_compute; congruence. Defined.

Lemma header_bytes_roundtrip_witness :
  to_bytes (from_bytes (take 9 (fbytes EndpointEchoReq)))
  = take 7 (take 9 (fbytes EndpointEchoReq)) ++ [x00; x00].
Proof. apply header_bytes_roundtrip. vm_compute. reflexivity. Defined.

Lemma decode_all_total_witness :
  exists ms r, decode_all 40 (w_net reading_world rs0) = Some (ms, r).
Proof. apply decode_all_total. vm_compute. lia. Defined.

(** A message of 4 GiB. *)
Definition four_gib : Bytes := replicate (Z.to_nat 4294967296) x00.

Lemma four_gib_too_long : u32_MAX < zlen four_gib.
Proof.
  unfold zlen, four_gib. rewrite length_replicate, Z2Nat.id by lia. unfold u32_MAX. lia.
Qed.

Lemma too_long_runs p :
  u32_MAX < zlen p ->
  runs (write_to_stream (UserMsg p) s0) [] (Done (Err (SendError_Serialization (too_long (zlen p))))).
Proof.
  intros Hp. unfold write_to_stream. apply runs_try_done. left. exists (p, USER_MSG_FLAG), [], [].
  split_and!; [done|by apply runs_ret_done|]. rewrite MsgHeader_new_spec.
  destruct (Z.leb_spec (zlen p) u32_MAX); [lia|]. by apply runs_ret_done.
Qed.

Lemma write_too_long_witness :
  @nil (event ev) = [] /\ Err (T := unit) (SendError_Serialization (too_long (zlen four_gib)))
    = Err (SendError_Serialization (too_long (zlen four_gib))).
Proof.
  apply (write_too_long four_gib s0 [] (Err (SendError_Serialization (too_long (zlen four_gib))))).
  - apply four_gib_too_long.
  - apply too_long_runs, four_gib_too_long.
Defined.

(** ** Sending *)

Definition demo_connection (cfg : option RetryConfig) : Connection := mkConnection conn0 cfg (0%nat : AliveTx).

(** The first attempt fails half way: its stream was stopped. *)
Definition flaky_world : world :=
  mkWorld (fun _ => no_stream) [] [] [] [Ok tt; Err (q_WriteStopped 3)] [] [] 10.

Definition retrying : Connection := demo_connection (Some RetryConfig_default).
Definition sent_trace : list (event ev) := trace_of (send retrying hello) flaky_world.

Lemma send_with_attempts_witness :
  exists trs tr', sent_trace = concat trs ++ tr' /\ Forall (failed_attempt retrying hello 0) trs
    /\ runs (send_uni retrying hello 0) tr' (Done (Ok tt))
    /\ (@None RetryConfig = None -> default_retry_config retrying = None -> trs = []).
Proof. apply (send_with_attempts retrying hello 0 None sent_trace (Ok tt)). by_execution. Defined.

Lemma send_delivers_witness :
  exists tr0 s known fin, sent_trace = tr0 ++ delivery conn0 s hello 0 known fin
    /\ finished_or_stopped fin.
Proof. apply (send_delivers retrying hello sent_trace). by_execution. Defined.

(** ** Bidirectional streams *)

(** The served stream holds an echo request, a verification request and a user
    message; the stream the verification opens holds the echo response. *)
Definition bi_world : world :=
  world_with (fun s =>
    if decide (s = rs0)
    then mkStream (fbytes EndpointEchoReq ++ fbytes (EndpointVerificationReq demo_addr)
                   ++ fbytes (UserMsg hello)) Finished
    else if decide (s = 10%nat) then mkStream (fbytes (EndpointEchoResp demo_addr)) Finished
    else no_stream).

Definition bi_program : io unit := handle_bi_stream ep0 demo_peer tx0 s0 rs0.
Definition bi_trace : list (event ev) := trace_of bi_program bi_world.

Ltac by_freshness := vm_compute; repeat (constructor; [repeat split; congruence|]); constructor.

Lemma bi_handler_reports_witness :
  exists k, reported bi_trace = bi_items s0 k (w_net bi_world rs0)
    /\ (Done tt = Done tt -> Forall (fun v => ~ event_refused v) bi_trace ->
        bi_complete k (w_net bi_world rs0)).
Proof.
  apply (bi_handler_reports ep0 demo_peer tx0 s0 rs0 bi_trace (Done tt) (w_net bi_world)
    (net_after bi_program bi_world)); [by_execution|by_conformance|by_freshness].
Defined.

Lemma bi_handler_answers_witness :
  exists k bss, Forall2 (answers demo_peer) (bi_reads k (w_net bi_world rs0)) bss
    /\ written s0 bi_trace = concat bss
    /\ reported bi_trace = bi_items s0 k (w_net bi_world rs0)
    /\ net_after bi_program bi_world rs0 = bi_left k (w_net bi_world rs0)
    /\ (Forall (fun v => ~ event_refused v) bi_trace -> bi_complete k (w_net bi_world rs0)).
Proof.
  apply (bi_handler_answers ep0 demo_peer tx0 s0 rs0 bi_trace (w_net bi_world)
    (net_after bi_program bi_world)); [by_execution|by_conformance|by_freshness|by_freshness].
Defined.

(** Both requests were answered, the second one positively. *)
Example bi_written :
  written s0 bi_trace = fbytes (EndpointEchoResp demo_peer) ++ fbytes (EndpointVerificationResp true).
Proof. vm_compute. reflexivity. Qed.

Lemma bi_handler_locked_witness :
  is_Some (lock_after s0 false bi_trace)
  /\ (Done tt = Done tt -> lock_after s0 false bi_trace = Some false).
Proof. apply (bi_handler_locked ep0 demo_peer tx0 s0 rs0 bi_trace (Done tt)). by_execution. Defined.

Definition bi_gone_world : world :=
  mkWorld (w_net bi_world) [] [] [] [] [Err (Ok (hello, None))] [] 10.

Definition bi_gone_trace : list (event ev) := trace_of bi_program bi_gone_world.

Definition last_report : event ev :=
  Ev (SendMessage tx0 (Ok (hello, Some (mkSendStream s0)))) (Err (Ok (hello, None))).

Lemma bi_handler_stops_witness :
  exists tr1, bi_gone_trace = tr1 ++ last_report :: [] /\ event_stops last_report /\ @nil (event ev) = [].
Proof.
  pose (tr1 := take (length bi_gone_trace - 1) bi_gone_trace).
  assert (bi_gone_trace = tr1 ++ last_report :: []) as Ht by (vm_compute; reflexivity).
  exists tr1. split; [exact Ht|]. split; [vm_compute; reflexivity|].
  apply (bi_handler_stops ep0 demo_peer tx0 s0 rs0 bi_gone_trace (Done tt) tr1 last_report []);
    [by_execution|exact Ht|vm_compute; reflexivity].
Defined.

(** Two accepted streams, served one after the other; then the streams end. *)
Definition two_world : world :=
  world_with (fun s =>
    if decide (s = rs1) then mkStream (fbytes (UserMsg [x21])) Finished else w_net bi_world s).

Definition two_program : io unit :=
  let* _ := handle_bi_stream ep0 demo_peer tx0 s0 rs0 in handle_bi_stream ep0 demo_peer tx0 s1 rs1.

Definition accepting_trace : list (event ev) :=
  [Ev (NextBi bi0) (Some (Ok (s0, rs0))); Ev (NextBi bi0) (Some (Ok (s1, rs1)));
   Ev (NextBi bi0) None].

Definition two_trace : list (event ev) := accepting_trace ++ trace_of two_program two_world.

Lemma bi_next_answer a :
  runs (bi_streams_next bi0) [Ev (NextBi bi0) a] (Done (filter_benign_close a)).
Proof.
  apply runs_bind_done. exists a, [Ev (NextBi bi0) a], [].
  split_and!; [done|by apply runs_call_done|by apply runs_ret_done].
Qed.

Lemma served_in_turn t1 t2 :
  runs (handle_bi_stream ep0 demo_peer tx0 s0 rs0) t1 (Done tt) ->
  runs (handle_bi_stream ep0 demo_peer tx0 s1 rs1) t2 (Done tt) ->
  bi_listener ep0 demo_peer bi0 tx0 (accepting_trace ++ t1 ++ t2) BiStreamEnded.
Proof.
  intros H1 H2.
  exists accepting_trace, [(s0, rs0); (s1, rs1)], (Done (Ok tt)), [(t1, Done tt); (t2, Done tt)].
  split_and!.
  - eapply (accepts_one _ [_] [_; _]); [exact (bi_next_answer _)|].
    eapply (accepts_one _ [_] [_]); [exact (bi_next_answer _)|].
    apply accepts_end. exact (bi_next_answer _).
  - constructor; [done|]. constructor; [done|constructor].
  - apply spawns_start; [done|]. apply spawns_start; [done|]. apply spawns_other; [done|].
    cbn [map fst app]. clear H1 H2. induction t1 as [|v t1 IH]; cbn [app].
    + induction t2 as [|v t2 IH]; [by repeat constructor|].
      by apply (spawns_running _ [] [] [[]] v t2 []).
    + by apply (spawns_running _ [] [] [] v t1 [t2]).
  - split; [done|]. constructor; [done|]. by constructor.
Qed.

Lemma two_listener : bi_listener ep0 demo_peer bi0 tx0 two_trace BiStreamEnded.
Proof.
  assert (runs two_program (trace_of two_program two_world) (Done tt)) as Hr by by_execution.
  apply runs_bind_done in Hr as ([] & t1 & t2 & Ht & H1 & H2).
  unfold two_trace. rewrite Ht. clear Ht. by apply served_in_turn.
Qed.

Lemma bi_listener_reports_witness :
  exists items, merges items (reported two_trace)
    /\ Forall2 (served (w_net two_world) two_trace BiStreamEnded) (bi_accepted two_trace) items.
Proof.
  apply (bi_listener_reports ep0 demo_peer bi0 tx0 two_trace BiStreamEnded (w_net two_world)
    (net_after two_program two_world)).
  - apply two_listener.
  - apply conforms_app. exists (w_net two_world). split; [|by_conformance].
    cbn [accepting_trace conforms]. do 3 (exists (w_net two_world); split; [intros t; reflexivity|]).
    intros t. reflexivity.
  - apply (bool_decide_unpack _). vm_compute. exact I.
  - apply (bool_decide_unpack _). vm_compute. exact I.
Defined.

(** One message of each stream. *)
Example two_reported :
  map (fun i => match i with Ok (m, Some s) => Some (m, ss_inner s) | _ => None end)
    (reported two_trace) = [Some (hello, s0); Some ([x21], s1)].
Proof. vm_compute. reflexivity. Qed.

Lemma handle_verification_sound_witness :
  exists tr1 tr2 b,
    trace_of (handle_endpoint_verification ep0 s0 demo_addr) bi_world = tr1 ++ tr2
    /\ verdict ep0 demo_addr tr1 b
    /\ runs (write_to_stream (EndpointVerificationResp b) s0) tr2 (Done (Ok tt)).
Proof. apply (proj1 (handle_verification_sound ep0 s0 demo_addr)). by_execution. Defined.

(** ** Endpoints *)

Definition demo_endpoint : Endpoint :=
  {| ep_local_addr := demo_addr; ep_public_addr := None; quinn_endpoint := ep0;
     ep_retry_config := RetryConfig_default; termination_tx := (0%nat : TerminationTx) |}.

(** The first handshake fails, the second succeeds. *)
Definition connecting_world : world :=
  mkWorld (fun s => if decide (s = 10%nat) then mkStream (fbytes (EndpointEchoResp demo_peer)) Finished
                    else no_stream)
    [] [] [Err q_TimedOut] [] [] [] 10.

Definition connect_trace : list (event ev) := trace_of (connect_to demo_endpoint demo_peer) connecting_world.

Definition connection_made : Connection * ConnectionIncoming :=
  (mkConnection conn0 (Some RetryConfig_default) (0%nat : AliveTx),
   mkConnectionIncoming (0%nat : MessageRx) (0%nat : AliveTx)).

Lemma connect_to_correct_witness :
  exists trs tr', connect_trace = concat trs ++ tr'
    /\ Forall (fun t => exists error, attempt_failed demo_endpoint demo_peer t error) trs
    /\ exists connecting nc peer alive chan,
         tr' = connected demo_endpoint demo_peer connecting nc peer alive chan
         /\ connection_made.1 = mkConnection (nc_connection nc) (Some RetryConfig_default) alive.1
         /\ connection_made.2 = mkConnectionIncoming chan.2 alive.1.
Proof.
  apply (connect_to_correct demo_endpoint demo_peer connect_trace (Ok connection_made)). by_execution.
Defined.

Definition any_trace : list (event ev) :=
  trace_of (connect_to_any demo_endpoint [demo_addr; demo_peer]) connecting_world.

Lemma connect_to_any_correct_witness :
  exists attempts,
    Forall2 (fun addr a => runs (new_connection demo_endpoint addr) a.1 a.2)
      [demo_addr; demo_peer] attempts
    /\ merges (map fst attempts) any_trace
    /\ exists l t l', attempts = l ++ (t, Done (Ok connection_made)) :: l'
         /\ Forall (fun a => behind a.2) (l ++ l').
Proof.
  apply (connect_to_any_correct demo_endpoint [demo_addr; demo_peer] any_trace (Some connection_made)).
  by_execution.
Defined.

Lemma connect_to_any_no_panic_witness :
  ~ runs (connect_to_any demo_endpoint []) [] (Halt Faulted).
Proof. apply (connect_to_any_no_panic demo_endpoint [] []). Defined.

(** ** The RPCs *)

Definition echo_server_trace : list (event ev) :=
  trace_of (handle_endpoint_echo s0 demo_peer) quiet_world.
Definition echo_trace : list (event ev) :=
  trace_of (endpoint_echo (demo_connection None)) connecting_world.

(** The only stream the client opens is number 10. *)
Lemma opens_ten (contact : Connection) tr bs (n : q_RecvStream (Foreign := demo) -> stream) :
  Forall (fun v => match v with
    | Ev e x => match e in ev T return T -> Prop with
                | OpenBi _ => fun a => match a with Ok p => p.2 = 10%nat | Err _ => True end
                | _ => fun _ => True
                end x end) tr ->
  (exists rest, content (n 10%nat) = bs ++ rest) -> receives contact bs n tr.
Proof.
  intros Ht Hb s rs Hin. rewrite list.Forall_forall in Ht. specialize (Ht _ Hin). cbn in Ht. by subst.
Qed.

Definition echo_result : Result SocketAddr RpcError := Ok demo_peer.

Lemma echo_rpc_witness :
  echo_result = Ok demo_peer \/ echo_result = Err RpcError_TimedOut
  \/ exists e, echo_result = Err (RpcError_Send e).
Proof.
  apply (echo_rpc (demo_connection None) echo_trace echo_result (w_net connecting_world)
    (net_after (endpoint_echo (demo_connection None)) connecting_world) s0 demo_peer echo_server_trace).
  - by_execution.
  - by_execution.
  - by_conformance.
  - apply opens_ten; [vm_compute; repeat constructor|]. exists []. vm_compute. reflexivity.
Defined.

(** The client's world: its stream carries the positive answer. *)
Definition verifying_world : world :=
  world_with (fun s => if decide (s = 10%nat) then mkStream (fbytes (EndpointVerificationResp true)) Finished
                       else no_stream).

Definition verification_server_trace : list (event ev) :=
  trace_of (handle_endpoint_verification ep0 s0 demo_addr) bi_world.
Definition verification_trace : list (event ev) :=
  trace_of (endpoint_verification (demo_connection None) demo_addr) verifying_world.

Lemma verification_rpc_witness :
  exists tr1 tr2, verification_server_trace = tr1 ++ tr2 /\ verdict ep0 demo_addr tr1 true
    /\ runs (write_to_stream (EndpointVerificationResp true) s0) tr2 (Done (Ok tt)).
Proof.
  apply (verification_rpc (demo_connection None) demo_addr verification_trace true
    (w_net verifying_world)
    (net_after (endpoint_verification (demo_connection None) demo_addr) verifying_world)
    ep0 s0 rs0 verification_server_trace).
  - by_execution.
  - by_execution.
  - by_conformance.
  - by_freshness.
  - apply opens_ten; [vm_compute; repeat constructor|]. exists []. vm_compute. reflexivity.
Defined.

(** The peer closes the stream without an answer. *)
Lemma is_reachable_any_answer_witness :
  runs (is_reachable demo_endpoint demo_peer)
    (trace_of (new_connection demo_endpoint demo_peer) quiet_world
     ++ (Ev (OpenBi conn0) (Ok (s0, rs0)) :: written_trace EndpointEchoReq)
     ++ trace_of (read_from_stream rs0) quiet_world) (Done (Ok tt)).
Proof.
  apply (is_reachable_any_answer demo_endpoint demo_peer _ _ _ connection_made.1 connection_made.2
    s0 rs0 None).
  - by_execution.
  - exists (written_trace EndpointEchoReq). split; [reflexivity|by_execution].
  - by_execution.
Defined.

(** ** Bringing up a peer *)

Definition demo_config : Config :=
  {| forward_port := true; external_port := Some 7000; external_ip := None; idle_timeout := None;
     keep_alive_interval := Some (from_secs 5); upnp_lease_duration := None;
     retry_config := RetryConfig_default |}.

(** The contact sees [demo_peer] and answers [valid]. *)
Definition contact_world (valid : bool) : world :=
  world_with (fun s =>
    if decide (s = 10%nat) then mkStream (fbytes (EndpointEchoResp demo_peer)) Finished
    else if decide (s = 11%nat) then mkStream (fbytes (EndpointVerificationResp valid)) Finished
    else no_stream).

Definition peer_program :
    io (Result (Endpoint * IncomingConnections * option (Connection * ConnectionIncoming)) EndpointError) :=
  new_peer demo_addr [demo_peer] demo_config.

(** The IP the contact saw with the configured port. *)
Definition demo_public : SocketAddr := set_port demo_peer 7000.

Definition peer_endpoint : Endpoint := set_public_addr demo_endpoint demo_public.

Lemma new_peer_ok_witness :
  started [demo_peer] demo_config peer_endpoint (mkIncomingConnections crx0)
    (Some connection_made.1) (trace_of peer_program (contact_world true)).
Proof.
  apply (new_peer_ok demo_addr [demo_peer] demo_config _ peer_endpoint
    (mkIncomingConnections crx0) (Some connection_made)).
  by_execution.
Defined.

Lemma new_peer_error_witness :
  error_origin demo_config (trace_of peer_program (contact_world false))
    (EndpointError_Unreachable demo_public).
Proof. apply (new_peer_error demo_addr [demo_peer] demo_config). by_execution. Defined.

(** Three incoming connections, the second of which fails. *)
Definition incoming_world : world :=
  mkWorld (fun _ => no_stream) [] [1; 2; 3]%nat
    [Ok (mkNewConnection (F := demo) 1%nat 1%nat 1%nat); Err q_Reset] [] [] [] 10.

Definition accept_program : io unit := accept_connections inc0 ctx0 ep0 RetryConfig_default.
Definition accept_trace : list (event ev) := trace_of accept_program incoming_world.

Lemma accept_connections_ok_witness :
  handed accept_trace `prefix_of` arrivals accept_trace
  /\ (Done tt = Done tt ->
      handed accept_trace = arrivals accept_trace
      /\ exists tr', accept_trace = tr' ++ [Ev (NextIncoming inc0) None]).
Proof.
  apply (accept_connections_ok inc0 ctx0 ep0 RetryConfig_default accept_trace (Done tt)). by_execution.
Defined.

Example accepted_connections : handed accept_trace = [1; 3]%nat.
Proof. vm_compute. reflexivity. Qed.

(** ** Configuration *)

Definition internal_config : InternalConfig :=
  {| ic_client := ((Some SkipCertificateVerification, (Some (from_secs 18), Some (from_secs 5))) : q_ClientConfig);
     ic_server := (([[x02]], [x01], (Some (from_secs 18), Some (from_secs 5))) : q_ServerConfig);
     ic_forward_port := true;
     ic_external_port := Some 7000; ic_external_ip := None;
     ic_upnp_lease_duration := from_secs 120; ic_retry_config := RetryConfig_default |}.

Definition config_program : io (Result InternalConfig ConfigError) := try_from_config demo_config.
Definition config_trace : list (event ev) := trace_of config_program quiet_world.

Lemma try_from_config_ok_witness :
  (exists c cert, config_trace = [Ev (GenerateSimpleSelfSigned ["maidsafe.net"]) (Ok c)]
     /\ serialize_der c = Ok cert
     /\ server_identity (ic_server internal_config) = ([cert], serialize_private_key_der c))
  /\ transport_as_asked demo_config (server_transport (ic_server internal_config))
  /\ transport_as_asked demo_config (client_transport (ic_client internal_config))
  /\ ic_upnp_lease_duration internal_config = mkDuration 120 0
  /\ ic_forward_port internal_config = true /\ ic_external_port internal_config = Some 7000
  /\ ic_external_ip internal_config = None /\ ic_retry_config internal_config = RetryConfig_default.
Proof. apply (try_from_config_ok demo_config config_trace internal_config). by_execution. Defined.

Lemma client_accepts_any_certificate_witness :
  verify_server_cert (server_cert_check (ic_client internal_config)) [x00] [] tt [] [] tt
  = Ok assertion.
Proof.
  apply (client_accepts_any_certificate demo_config config_trace internal_config). by_execution.
Defined.

Definition bad_idle_config : Config :=
  {| forward_port := false; external_port := None; external_ip := None;
     idle_timeout := Some (from_millis 1500); keep_alive_interval := None;
     upnp_lease_duration := None; retry_config := RetryConfig_default |}.

Definition refused : Result InternalConfig ConfigError := Err (ConfigError_InvalidIdleTimeout (F := demo) tt).

Lemma try_from_config_bad_idle_witness :
  @nil (event ev) = [] /\ (Done refused = Done refused \/ Done refused = Halt Running).
Proof.
  apply (try_from_config_bad_idle (F := demo) bad_idle_config (from_millis 1500) DEFAULT_IDLE_TIMEOUT tt);
    [reflexivity..|].
  apply runs_ret_done. split; reflexivity.
Defined.

(** ** Port forwarding *)

Definition demo_v4 : SocketAddrV4 := mkV4 LOCALHOST 1234.
Definition lease : Duration := from_secs 5000000000.

Definition forward_program : io (Result unit IgdError) := igd_forward_port 7000 (V4 demo_v4) lease term0.

(** A lease longer than the gateway protocol can express is capped. *)
Lemma forward_port_runs_witness :
  exists gateway la, V4 demo_v4 = V4 la
    /\ trace_of forward_program quiet_world = forwarding gateway 7000 la lease term0.
Proof.
  apply (forward_port_runs 7000 (V4 demo_v4) lease term0 (trace_of forward_program quiet_world) (Ok tt)).
  - vm_compute. repeat split; congruence.
  - by_execution.
Defined.

Definition half_second : Duration := mkDuration 0 500000000.

Lemma subsecond_lease_witness :
  lease_of half_second = 0 /\ forall gateway, runs (igd_forward_port 7000 (V4 demo_v4) half_second term0)
    (forwarding gateway 7000 demo_v4 half_second term0) (Done (Ok tt)).
Proof. apply subsecond_lease; [vm_compute; repeat split; congruence|reflexivity]. Defined.

(** Two renewals, then the termination message. *)
Definition renewing_world : world :=
  mkWorld (fun _ => no_stream) [] [] [] [] [] [Err broadcast_Empty; Err broadcast_Empty] 10.

Definition renew_program : io unit := renew_port_periodically 7000 (V4 demo_v4) (from_secs 120) 120 term0.
Definition renew_trace : list (event ev) := trace_of renew_program renewing_world.

Lemma renewal_stops_witness :
  0 <= balance renew_trace /\ final event_terminates renew_trace
  /\ (Done tt = Done tt ->
      exists tr' a, renew_trace = tr' ++ [Ev (TryRecvTermination term0) a] /\ a <> Err broadcast_Empty).
Proof.
  apply (renewal_stops 7000 (V4 demo_v4) (from_secs 120) 120 term0 renew_trace (Done tt)). by_execution.
Defined.

Lemma zero_lease_panics_witness :
  runs (renew_port_periodically 7000 (V4 demo_v4) (from_secs 0) 0 term0) [] (Halt Faulted)
  /\ forall tr o, runs (renew_port_periodically 7000 (V4 demo_v4) (from_secs 0) 0 term0) tr o ->
       tr = [] /\ o <> Done tt.
Proof. apply zero_lease_panics. reflexivity. Defined.
