(* ===== verification/NodeWitnesses.v ===== *)
(** * The theorems about the example node at concrete inputs

    A script for the calls that only the node makes (its arguments, the connections and
    messages it takes), beside the world of [Demo.v] for the others. *)

From Stdlib Require Import Strings.Byte.
From S2P Require Import Prelude Std Parse Foreign WireTypes Errors ErrorText ConfigTypes Prog Eyre.
From S2P Require Import ProgFacts Effects Wire StreamSpec Config Connection Incoming Endpoint.
From S2P Require Import Channel SendFacts EndpointFacts Node NodeFacts Demo.

Local Open Scope Z_scope.

Record script := mkScript
  { sc_args : list string;
    sc_connections : list (Connection * ConnectionIncoming);
    sc_messages : list MessageItem }.

Definition node_answer (T : Type) (e : ev T) (ws : world * script) : T * (world * script) :=
  let '(w, mkScript args conns msgs) := ws in
  match e in ev T return T * (world * script) with
  | EnvArgs => (Some args, ws)
  | RecvConnection _ =>
      match conns with
      | [] => (None, ws)
      | c :: conns => (Some c, (w, mkScript args conns msgs))
      end
  | RecvMessage _ =>
      match msgs with
      | [] => (None, ws)
      | m :: msgs => (Some m, (w, mkScript args conns msgs))
      end
  | e => let '(x, w') := demo_answer _ e w in (x, (w', mkScript args conns msgs))
  end.

Definition node_handler : handler ev (world * script) :=
  mkHandler node_answer.

#[export] Instance demo_bytes_debug : BytesDebug := fun _ => EmptyString.

Definition node_run {A} (p : io A) (sc : script) : option (A * list (event ev) * (world * script)) :=
  exec node_handler 20 p (mkWorld (fun _ => mkStream [] Finished) [] [] [] [] [] [] 10, sc).

Definition node_trace {A} (p : io A) (sc : script) : list (event ev) :=
  match node_run p sc with Some (_, tr, _) => tr | None => [] end.

Definition node_result {A} (p : io A) (sc : script) : option A :=
  match node_run p sc with Some (a, _, _) => Some a | None => None end.

Lemma node_executes {A} (p : io A) sc a : node_result p sc = Some a -> runs p (node_trace p sc) (Done a).
Proof.
  unfold node_result, node_trace. destruct (node_run p sc) as [[[a' tr] w]|] eqn:E; [|done].
  intros [= ->]. by eapply exec_sound.
Qed.

Ltac by_node_execution := apply node_executes; vm_compute; reflexivity.

Definition node_conn : Connection := mkConnection conn0 (Some RetryConfig_default) (0%nat : AliveTx).
Definition node_incoming : ConnectionIncoming :=
  mkConnectionIncoming (0%nat : MessageRx) (0%nat : AliveTx).

(** A peer that sends "marco", something else and "marco" again. *)
Definition talking : script :=
  mkScript [] [] [Ok (MSG_MARCO, None); Ok ([x68; x69], None); Ok (MSG_MARCO, None)].

Definition service : io (Result unit Report) := serve_messages node_conn node_incoming demo_peer.

Lemma node_answers_marco_witness :
  exists msgs tr1 tr2, node_trace service talking = tr1 ++ tr2
    /\ dialogue node_conn (message_rx node_incoming) demo_peer msgs tr1
    /\ finale node_conn (message_rx node_incoming) demo_peer tr2 (Done (Ok tt)).
Proof. apply (node_answers_marco node_conn node_incoming demo_peer). by_node_execution. Defined.

Definition payloads (tr : list (event ev)) : list Bytes :=
  concat (map (fun v => match v with
    | Ev e _ => match e with WriteAll _ data => [data] | _ => [] end
    end) tr).

(** Two answers, each a header and "polo". *)
Example two_polos :
  payloads (node_trace service talking)
  = concat (replicate 2 [[x00; x01; x00; x00; x00; x04; x00; x00; x00]; MSG_POLO]).
Proof. vm_compute. reflexivity. Qed.

Definition node_endpoint : Endpoint :=
  mkEndpoint demo_addr None ep0 RetryConfig_default (0%nat : TerminationTx).

Definition two_args : list string := ["127.0.0.1:1234"; "[::1]:80"]%string.

Definition greetings : io (Result unit Report) := send_marcos node_endpoint two_args.

Lemma node_greets_witness :
  exists trs, node_trace greetings (mkScript [] [] []) = concat trs
    /\ Forall2 (greeted node_endpoint) two_args trs.
Proof. apply (node_greets node_endpoint two_args). by_node_execution. Defined.

Definition greeting_node : io (Result unit Report) := greet node_endpoint ("p2p_node" :: two_args)%string.

Lemma node_ignores_replies_witness : taken (node_trace greeting_node talking) = [].
Proof.
  apply (node_ignores_replies node_endpoint ("p2p_node" :: two_args)%string _ (Done (Ok tt))).
  by_node_execution.
Defined.

(** A peer whose second message cannot be read. *)
Definition reset_error : RecvError := RecvError_StreamLost (F := demo) (StreamError_Stopped 7).

Definition failing : script :=
  mkScript ["p2p_node"; "127.0.0.1:1234"]%string [(node_conn, node_incoming)]
    [Ok (MSG_MARCO, None); Err reset_error; Ok (MSG_MARCO, None)].

Definition failed_result : Result unit Report := Err (Report_of (D_Recv reset_error)).

Lemma node_stops_on_error_witness :
  @nil (event ev) = [] /\ (Done failed_result = Done (Err (Report_of (D_Recv reset_error)))
                           \/ exists h, Done failed_result = Halt h).
Proof.
  apply (node_stops_on_error (node_trace main failing) (Done failed_result)
    (take (length (node_trace main failing) - 1) (node_trace main failing)) (message_rx node_incoming)
    reset_error []).
  - by_node_execution.
  - vm_compute. reflexivity.
Defined.
