(* ===== verification/SystemWitnesses.v ===== *)
(** * The theorems about whole connections at concrete inputs *)

From Stdlib Require Import Strings.Byte.
From S2P Require Import Prelude Std Utf8 Prog ProgFacts Foreign WireTypes Errors ConfigTypes.
From S2P Require Import ErrorText TextFacts Effects Wire StreamSpec WireFacts Framing Config.
From S2P Require Import Connection Incoming Channel Igd Endpoint SendFacts UniListener BiListener.
From S2P Require Import EndpointFacts Panics Delivery Locking Demo Witnesses.

Local Open Scope Z_scope.

(** ** Texts *)

(** A peer that closes the connection with bytes that are not UTF-8. *)
Definition rude_close : dyn_error :=
  D_Connection (F := demo) (ConnectionError_Closed (Close_Application 3 [x6e; xff; x6f])).

Example rude_text :
  String.list_byte_of_string (display rude_close)
  = String.list_byte_of_string "The connection was closed by application (error code: 3, reason: n"
    ++ [xef; xbf; xbd] ++ String.list_byte_of_string "o)".
Proof. vm_compute. reflexivity. Qed.

(** ** Panics *)

Lemma tasks_panic_only_on_zero_lease_witness :
  exists port a d d32 rx,
    RenewPortPeriodically 7000 (V4 demo_v4) (from_secs 0) 0 term0 = RenewPortPeriodically port a d d32 rx
    /\ Duration_zero d = true.
Proof.
  apply (tasks_panic_only_on_zero_lease
    (RenewPortPeriodically 7000 (V4 demo_v4) (from_secs 0) 0 term0) []).
  split; [reflexivity|right; reflexivity].
Defined.

Lemma api_panics_only_on_broken_certificate_witness :
  panic_free (RecvStream_next (mkRecvStream rs0)).
Proof. apply (api_panics_only_on_broken_certificate _ (Api_stream_next (mkRecvStream rs0))). Defined.

(** ** Delivery *)

Definition peer_conn : Connection := mkConnection conn0 (Some RetryConfig_default) (0%nat : AliveTx).

(** The world in which the next stream is [k]. *)
Definition opening (k : nat) : world := mkWorld (fun _ => no_stream) [] [] [] [] [] [] k.

Definition send_trace (k : nat) (m : Bytes) : list (event ev) := trace_of (send peer_conn m) (opening k).

Definition two_messages : list Bytes := [hello; [x21]].
Definition two_sends : list (list (event ev)) := [send_trace 10 hello; send_trace 11 [x21]].
Definition both_sends : list (event ev) := concat two_sends.

Lemma both_merge : merges two_sends both_sends.
Proof.
  unfold both_sends, two_sends. cbn [concat]. apply merges_app, merges_app. constructor. constructor.
Qed.

Lemma both_fresh : NoDup (opened_uni both_sends).
Proof.
  assert (opened_uni both_sends = [10; 11]%nat) as -> by (vm_compute; reflexivity).
  apply (bool_decide_unpack _). vm_compute. exact I.
Qed.

(** Both frames arrive, the second stream first, and a third of another frame. *)
Definition torn : Bytes := take 10 (fbytes (UserMsg hello)).

Definition receiving_world : world :=
  mkWorld (fun r =>
      if decide (r = rs0) then mkStream (fbytes (UserMsg [x21])) Finished
      else if decide (r = rs1) then mkStream torn Finished
      else no_stream)
    [Some (Ok rs0); Some (Ok rs1); Some (Err q_TimedOut)] [] [] [] [] [] 10.

Definition receiving_trace : list (event ev) :=
  trace_of (listen_on_uni_streams uni0 tx0) receiving_world.

Lemma received_was_sent_witness : [x21] ∈ two_messages /\ @None SendStream = None.
Proof.
  apply (received_was_sent peer_conn two_messages two_sends both_sends uni0 tx0 receiving_trace
    (Done tt) (w_net receiving_world) (net_after (listen_on_uni_streams uni0 tx0) receiving_world)).
  - split_and!; [|exact both_merge|exact both_fresh].
    constructor; [exists (Done (Ok tt)); by_execution|].
    constructor; [exists (Done (Ok tt)); by_execution|constructor].
  - by_execution.
  - by_conformance.
  - assert (streams_of (accepted receiving_trace) = [rs0; rs1]) as -> by (vm_compute; reflexivity).
    apply (bool_decide_unpack _). vm_compute. exact I.
  - assert (streams_of (accepted receiving_trace) = [rs0; rs1]) as -> by (vm_compute; reflexivity).
    constructor; [|constructor; [|constructor]].
    + exists 11%nat. split; apply (bool_decide_unpack _); vm_compute; exact I.
    + exists 10%nat. split; apply (bool_decide_unpack _); vm_compute; exact I.
  - vm_compute. left.
Defined.

(** Both streams arrive whole, in the order in which they were opened. *)
Definition whole_world : world :=
  mkWorld (fun r =>
      if decide (r = rs0) then mkStream (fbytes (UserMsg hello)) Finished
      else if decide (r = rs1) then mkStream (fbytes (UserMsg [x21])) Finished
      else no_stream)
    [Some (Ok rs0); Some (Ok rs1); Some (Err q_TimedOut)] [] [] [] [] [] 10.

Definition whole_trace : list (event ev) := trace_of (listen_on_uni_streams uni0 tx0) whole_world.

Definition user_incoming : ConnectionIncoming :=
  mkConnectionIncoming (0%nat : MessageRx) (0%nat : AliveTx).

Definition take_item (a : option MessageItem) : list (event ev) :=
  [Ev (RecvMessage (message_rx user_incoming)) a].

Definition user_traces : list (list (event ev)) :=
  [take_item (Some (Ok (hello, None))); take_item (Some (Ok ([x21], None))); take_item None].

Definition user_results : list (Result (option Bytes) RecvError) :=
  [Ok (Some hello); Ok (Some [x21]); Ok None].

Lemma next_takes a r :
  next_result a = r -> runs (ConnectionIncoming_next user_incoming) (take_item a) (Done r).
Proof.
  intros <-. unfold ConnectionIncoming_next, next_with_stream.
  destruct a as [[[m st]|e]|]; cbn; right; eexists _, _; (split; [reflexivity|]); cbn; auto.
Qed.

Lemma sent_is_received_witness :
  exists msgs' k, two_messages ≡ₚ msgs' /\ Forall2 (holds both_sends) (opened_uni both_sends) msgs'
    /\ user_results `prefix_of` map (fun m => Ok (Some m)) msgs' ++ replicate k (Ok None)
    /\ (both_sends = concat two_sends -> msgs' = two_messages).
Proof.
  apply (sent_is_received peer_conn two_messages two_sends both_sends uni0 tx0 whole_trace
    (Done tt) (w_net whole_world) (net_after (listen_on_uni_streams uni0 tx0) whole_world)
    user_incoming user_results user_traces).
  - split_and!; [|repeat constructor; vm_compute; constructor|exact both_merge|exact both_fresh].
    constructor; [by_execution|]. constructor; [by_execution|constructor].
  - repeat constructor; discriminate.
  - by_execution.
  - by_conformance.
  - exists [rs0; rs1], (Some (Err q_TimedOut)). split_and!; [vm_compute; reflexivity|reflexivity| |].
    + apply (bool_decide_unpack _). vm_compute. exact I.
    + assert (opened_uni both_sends = [10; 11]%nat) as -> by (vm_compute; reflexivity).
      constructor; [vm_compute; reflexivity|]. constructor; [vm_compute; reflexivity|constructor].
  - do 3 (apply List.Forall2_cons; [apply next_takes; reflexivity|]). apply List.Forall2_nil.
  - exists 1%nat, []. vm_compute. reflexivity.
Defined.

(** ** The shared stream *)

(** A peer that asks for an echo on the stream and then finishes it. *)
Definition asking_world : world :=
  world_with (fun r => if decide (r = rs0) then mkStream (fbytes EndpointEchoReq) Finished else no_stream).

Definition asked : io unit := handle_bi_stream ep0 demo_peer tx0 s0 rs0.
Definition asked_trace : list (event ev) := trace_of asked asking_world.

(** A user that sends two messages in one turn. *)
Definition user_send (msg : Bytes) : list (event ev) :=
  trace_of (send_user_msg (mkSendStream s0) msg) quiet_world.

Definition one_turn : list (event ev) :=
  [] ++ ([Ev (LockStream s0) tt] ++ concat [user_send hello; user_send [x21]]
         ++ [Ev (UnlockStream s0) tt]) ++ [].

Definition shared_trace : list (event ev) := asked_trace ++ one_turn.

Lemma shared_stream_whole_witness :
  exists k replies order,
    net_after asked asking_world rs0 = bi_left k (w_net asking_world rs0)
    /\ (Forall (fun v => ~ event_refused v) asked_trace -> bi_complete k (w_net asking_world rs0))
    /\ Forall2 (reply_of demo_peer) (bi_reads k (w_net asking_world rs0)) replies
    /\ merges (map (fun m => [m]) (concat replies) :: [[[UserMsg hello; UserMsg [x21]]]]) order
    /\ decode_all (S (length (concat order))) (mkStream (written s0 shared_trace) Finished)
       = Some (concat order, Ok tt).
Proof.
  apply (shared_stream_whole s0 ep0 demo_peer tx0 rs0 asked_trace (w_net asking_world)
    (net_after asked asking_world) [one_turn] [[[hello; [x21]]]] shared_trace).
  - by_execution.
  - by_conformance.
  - vm_compute. repeat constructor.
  - vm_compute. repeat constructor.
  - split; [eexists; vm_compute; reflexivity|discriminate].
  - intros []; (split; [eexists; vm_compute; reflexivity|discriminate]).
  - apply List.Forall2_cons; [|apply List.Forall2_nil].
    apply (user_turn s0 [] [hello; [x21]] [user_send hello; user_send [x21]] [] []);
      [constructor| |by apply user_idle].
    apply List.Forall2_cons; [exists [], (user_send hello)|apply List.Forall2_cons; [exists [], (user_send [x21])|apply List.Forall2_nil]];
      (split; [reflexivity|]; split; [constructor|by_execution]).
  - repeat constructor; discriminate.
  - unfold shared_trace. apply merges_app, merges_nils. constructor.
  - vm_compute. repeat split; reflexivity.
Defined.

(** The peer reads the response and then the two messages. *)
Example shared_messages :
  option_map fst (decode_all 5 (mkStream (written s0 shared_trace) Finished))
  = Some [EndpointEchoResp demo_peer; UserMsg hello; UserMsg [x21]].
Proof. vm_compute. reflexivity. Qed.
