(* ===== verification/TestWitnesses.v ===== *)
(** * The tests of connection.rs at work

    A schedule for each test: the user's thread and the listeners that it spawns, executed
    in the environment of [Demo.v] with fresh handles, and put together to one trace of
    the whole system, in which the hypotheses of the theorems about the test hold and the
    test passes. *)

From Stdlib Require Import Strings.Byte.
From S2P Require Import Prelude Std Prog ProgFacts Foreign WireTypes Errors ConfigTypes Eyre Effects.
From S2P Require Import Wire StreamSpec WireFacts Framing Config Connection Incoming Igd Endpoint.
From S2P Require Import Panics System SystemFacts Tests EndpointTests ConnectionTests NetworkCheck Demo Witnesses.

Local Open Scope Z_scope.
Local Open Scope prog_scope.

(** ** Handles *)

#[export] Instance demo_connection_eq : EqDecision (q_Connection (Foreign := demo)) := Nat.eq_dec.
#[export] Instance demo_uni_eq : EqDecision (q_IncomingUniStreams (Foreign := demo)) := Nat.eq_dec.
#[export] Instance demo_bi_eq : EqDecision (q_IncomingBiStreams (Foreign := demo)) := Nat.eq_dec.
#[export] Instance demo_tx_eq : EqDecision (MessageTx (Foreign := demo)) := Nat.eq_dec.
#[export] Instance demo_rx_eq : EqDecision (MessageRx (Foreign := demo)) := Nat.eq_dec.
#[export] Instance demo_connecting_eq : EqDecision (q_Connecting (Foreign := demo)) := Nat.eq_dec.
#[export] Instance demo_endpoint_eq : EqDecision (q_Endpoint (Foreign := demo)) := Nat.eq_dec.

(** ** The user's environment

    The scripted world, in which endpoints, connections and channels are numbered by
    [u_fresh], the connection [c] has the remote address [u_remote c], [u_left] connections
    still come in, streams are opened as [u_opens] says, and [u_conns] and [u_items] are
    taken from the channels. Endpoint [k] has the port [1000 + k]. *)
Record user_world := mkUserWorld
  { u_world : world;
    u_fresh : nat;
    u_remote : nat -> SocketAddr;
    u_left : nat;
    u_opens : list (Result nat q_ConnectionError);
    u_conns : list (Connection * ConnectionIncoming);
    u_items : list (option MessageItem) }.

Definition port_addr (k : nat) : SocketAddr := V4 (mkV4 LOCALHOST (1000 + Z.of_nat k)).

Definition user_answer (T : Type) (e : ev T) (u : user_world) : T * user_world :=
  let '(mkUserWorld w k ra more os cs its) := u in
  let next := mkUserWorld w (S k) ra more os cs its in
  match e in ev T return T * user_world with
  | EndpointServer _ _ => (Ok (k, k), next)
  | EndpointClient _ => (Ok k, next)
  | EndpointLocalAddr ep => (Ok (port_addr ep), u)
  | Connect _ _ _ => (Ok k, next)
  | NextIncoming _ =>
      match more with
      | O => (None, u)
      | S more => (Some k, mkUserWorld w (S k) ra more os cs its)
      end
  | AwaitConnecting c => (Ok (mkNewConnection (F := demo) k k k), next)
  | RemoteAddress c => (ra c, u)
  | NewMessageChannel _ => ((k, k), next)
  | NewConnectionChannel _ => ((k, k), next)
  | RecvConnection _ =>
      match cs with
      | [] => (None, u)
      | c :: cs => (Some c, mkUserWorld w k ra more os cs its)
      end
  | OpenUni _ =>
      match os with
      | [] => (Err q_TimedOut, u)
      | a :: os => (a, mkUserWorld w k ra more os cs its)
      end
  | OpenBi _ =>
      match os with
      | Ok s :: os => (Ok (s, s), mkUserWorld w k ra more os cs its)
      | _ => (Err q_TimedOut, u)
      end
  | RecvMessage _ =>
      match its with
      | [] => (None, u)
      | a :: its => (a, mkUserWorld w k ra more os cs its)
      end
  | e => let (a, w') := demo_answer _ e w in (a, mkUserWorld w' k ra more os cs its)
  end.

Definition user_handler : handler ev user_world := mkHandler user_answer.

Section User.
Context {A : Type} (p : io A) (u : user_world).

Definition user_run : option (A * list (event ev) * user_world) := exec user_handler 20 p u.
Definition user_trace : list (event ev) := match user_run with Some (_, t, _) => t | None => [] end.
Definition user_result : option A := match user_run with Some (a, _, _) => Some a | None => None end.

Lemma user_runs a : user_result = Some a -> runs p user_trace (Done a).
Proof.
  unfold user_result, user_trace. destruct user_run as [[[a' tr] w']|] eqn:E; [|done].
  intros [= ->]. by eapply exec_sound.
Qed.

Lemma user_reads : Forall read_sensible user_trace -> reads_truly (w_net (u_world u)) user_trace.
Proof.
  unfold user_trace. destruct user_run as [[[a' tr] u']|] eqn:E; [|by eexists].
  intros Hs. exists (w_net (u_world u')). revert E Hs. apply (exec_respects user_handler
    (fun u tr u' => Forall read_sensible tr -> conforms (w_net (u_world u)) tr (w_net (u_world u')))).
  - done.
  - intros w1 t1 w2 t2 w3 H1 H2 Hs. apply Forall_app in Hs as [Hs1 Hs2]. apply conforms_app. eauto.
  - intros T e [w k ra more os cs its] Hs. pose proof (demo_answer_conforms T e w) as Hd. revert Hs Hd.
    destruct e; cbn [answer user_handler user_answer]; try (by intros _ _; exists (w_net w));
      try (destruct demo_answer as [a w'] eqn:Ha; cbn; auto; fail).
    all: destruct w, os as [|[]], its, more, cs; by intros _ _; eexists.
Qed.

End User.

(** ** Schedules *)

(** Threads run in turn: one performs [l], in which it spawns tasks. *)
Lemma system_turn n ts1 l t ts2 new g :
  Forall2 (task_trace n) (spawned l) new -> system n (ts1 ++ t :: ts2 ++ new) g ->
  system n (ts1 ++ (l ++ t) :: ts2) (l ++ g).
Proof.
  revert ts2 new. induction l as [|v l IH]; intros ts2 new Hn Hs.
  - inversion Hn; subst. by rewrite app_nil_r in Hs.
  - unfold spawned in Hn. cbn [map concat] in Hn. apply Forall2_app_inv_l in Hn as (n1 & n2 & H1 & H2 & ->).
    cbn [app]. apply (system_step n _ _ _ _ n1); [done|]. apply (IH _ n2 H2).
    by rewrite <- app_assoc.
Qed.

(** The turn of a thread that ends, with and without tasks. *)
Lemma system_finish n ts1 l ts2 new g :
  Forall2 (task_trace n) (spawned l) new -> system n (ts1 ++ [] :: ts2 ++ new) g ->
  system n (ts1 ++ l :: ts2) (l ++ g).
Proof.
  intros Hn Hs. pose proof (system_turn n ts1 l [] ts2 new g Hn Hs) as Ht. by rewrite app_nil_r in Ht.
Qed.

Lemma system_last n ts1 l ts2 g :
  spawned l = [] -> system n (ts1 ++ [] :: ts2) g -> system n (ts1 ++ l :: ts2) (l ++ g).
Proof.
  intros Hl Hs. apply (system_finish n ts1 l ts2 []); [rewrite Hl; constructor|by rewrite app_nil_r].
Qed.

(** ** The listeners *)

(** The listener for unidirectional streams of an end, to which [r] are the streams. *)
Definition uni_world_of (net : q_RecvStream (Foreign := demo) -> stream) (l : list (option (Result nat q_ConnectionError))) : world :=
  mkWorld net l [] [] [] [] [] 0.

Definition uni_thread_of (net : q_RecvStream (Foreign := demo) -> stream) (k tx : nat) l : list (event ev) :=
  trace_of (listen_on_uni_streams (k : q_IncomingUniStreams) (tx : MessageTx)) (uni_world_of net l).

Lemma uni_task net peer k alive tx l r :
  result_of (listen_on_uni_streams k tx) (uni_world_of net l) = Some r ->
  Forall read_sensible (uni_thread_of net k tx l) ->
  task_trace net (ListenOnUniStreams peer k alive tx) (uni_thread_of net k tx l).
Proof.
  intros Hr Hs. split; [by exists (Done r); apply demo_runs|].
  eexists. by apply (demo_conforms _ (uni_world_of net l)).
Qed.

Lemma uni_idle n peer k alive tx : task_trace n (ListenOnUniStreams peer k alive tx) [].
Proof. split; [exists (Halt Running); apply runs_start|by exists n]. Qed.

(** A listener for bidirectional streams that was not polled yet. *)
Lemma bi_idle n ep peer bs alive tx : task_trace n (ListenOnBiStreams ep peer bs alive tx) [].
Proof.
  split; [|by exists n]. exists BiRunning, [], [], (Halt Running), [].
  split_and!; [|constructor|constructor; constructor|done]. constructor. by left.
Qed.

(** One whose connection timed out. *)
Definition bi_lost (k : nat) : list (event ev) :=
  [Ev (NextBi (k : q_IncomingBiStreams)) (Some (Err q_TimedOut))].

Lemma bi_lost_task n ep peer k alive tx :
  task_trace n (ListenOnBiStreams ep peer k alive tx) (bi_lost k).
Proof.
  split; [|by exists n, n]. exists BiStreamEnded, (bi_lost k), [], (Done (Ok tt)), [].
  split_and!; [|constructor| |done].
  - apply accepts_end. cbn. right. eexists _, _. split; [done|]. split; [done|by left].
  - apply spawns_other; [done|]. constructor. constructor.
Qed.

(** One that accepts a stream and handles it to its end. *)
Definition bi_world net : world := uni_world_of net [].

Definition bi_accept (k s r : nat) : event ev :=
  Ev (NextBi (k : q_IncomingBiStreams)) (Some (Ok (s, r))).

Definition bi_thread_of net (ep : nat) peer (k tx s r : nat) : list (event ev) :=
  bi_accept k s r :: trace_of (handle_bi_stream (ep : q_Endpoint) peer (tx : MessageTx) (s : q_SendStream)
       (r : q_RecvStream)) (bi_world net).

Lemma spawns_one {A} (starts : A -> bool) x p : starts x = true -> spawns starts [x] [p] [] (x :: p).
Proof.
  intros Hx. apply spawns_start; [done|]. cbn [app]. induction p as [|y p IH].
  - constructor. by constructor.
  - by apply (spawns_running _ _ _ [] y p []).
Qed.

Lemma bi_task net ep peer k alive tx s r :
  result_of (handle_bi_stream ep peer tx s r) (bi_world net) = Some tt ->
  Forall read_sensible (bi_thread_of net ep peer k tx s r) ->
  task_trace net (ListenOnBiStreams ep peer k alive tx) (bi_thread_of net ep peer k tx s r).
Proof.
  intros Hr Hs. apply Forall_cons_1 in Hs as [_ Hs]. split.
  - exists BiRunning, [bi_accept k s r], [(s, r)], (Halt Running),
      [(trace_of (handle_bi_stream ep peer tx s r) (bi_world net), Done tt)].
    split_and!; [|constructor; [|constructor]| |done].
    + apply (accepts_one _ [_] []); [|constructor; by left].
      cbn. right. eexists _, _. split; [done|]. split; [done|by left].
    + cbn [fst snd]. by apply demo_runs.
    + by apply spawns_one.
  - eexists. exists net. split; [done|]. by apply (demo_conforms _ (bi_world net)).
Qed.

(** ** basic_usage *)

(** The handles of the first connection, from endpoint 0 to endpoint 1, are all 3. *)
Definition two_ends (c : nat) : SocketAddr := port_addr (if decide (c = 3%nat) then 1 else 0).

Definition basic_net (r : q_RecvStream (Foreign := demo)) : stream :=
  match r with
  | 20%nat => mkStream (fbytes (UserMsg HELLO)) Finished
  | 21%nat => mkStream (fbytes (UserMsg WORLD)) Finished
  | _ => no_stream
  end.

Definition basic_world : user_world :=
  mkUserWorld (world_with basic_net) 0 two_ends 1 [Ok 10%nat; Ok 11%nat] []
    [Some (Ok (HELLO, None)); Some (Ok (WORLD, None))].

Definition basic_trace := user_trace test_basic_usage basic_world.
Definition basic_uni1 := uni_thread_of basic_net 3 4 [Some (Ok 21%nat)].
Definition basic_uni2 := uni_thread_of basic_net 6 7 [Some (Ok 20%nat)].

(** "hello" is sent and read, "world" is sent and read, and the user comes to the end. *)
Definition basic_system : list (event ev) :=
  take 22 basic_trace ++ basic_uni2 ++ take 4 (drop 22 basic_trace) ++ basic_uni1
  ++ drop 26 basic_trace ++ [].

Lemma basic_is_system : system basic_net [basic_trace] basic_system.
Proof.
  assert (basic_trace = take 22 basic_trace ++ take 4 (drop 22 basic_trace) ++ drop 26 basic_trace)
    as Ht by (vm_compute; reflexivity).
  rewrite Ht at 1. apply (system_turn _ [] _ _ [] [basic_uni1; []; basic_uni2; []]).
  - constructor; [apply (uni_task _ _ _ _ _ _ tt); vm_compute; [reflexivity|repeat constructor]|].
    constructor; [apply bi_idle|].
    constructor; [apply (uni_task _ _ _ _ _ _ tt); vm_compute; [reflexivity|repeat constructor]|].
    constructor; [apply bi_idle|constructor].
  - apply (system_last _ [_; basic_uni1; []] basic_uni2 [[]]); [vm_compute; reflexivity|].
    apply (system_turn _ [] _ _ [basic_uni1; []; []; []] []); [constructor|].
    apply (system_last _ [_] basic_uni1 [[]; []; []]); [vm_compute; reflexivity|].
    apply (system_last _ [] _ [[]; []; []; []]); [vm_compute; reflexivity|]. by repeat constructor.
Qed.

Lemma basic_usage_passes_witness : Done (Ok tt : Result unit Report) <> Halt Faulted.
Proof.
  apply (basic_usage_passes basic_net basic_trace (Done (Ok tt)) basic_system).
  - apply user_runs. vm_compute. reflexivity.
  - exact basic_is_system.
  - apply checked_network_sound, (bool_decide_unpack _). vm_compute. exact I.
  - intros (c & e & Ht & _). apply (f_equal length) in Ht. vm_compute in Ht. discriminate.
Defined.

(** ** test_endpoint_echo *)

Definition echo_net (r : q_RecvStream (Foreign := demo)) : stream :=
  match r with
  | 10%nat => mkStream (fbytes (EndpointEchoResp (port_addr 0))) Finished
  | 20%nat => mkStream (fbytes EndpointEchoReq) Finished
  | _ => no_stream
  end.

Definition echo_world : user_world := mkUserWorld (world_with echo_net) 0 two_ends 1 [Ok 10%nat] [] [].
Definition echo_trace := user_trace test_endpoint_echo echo_world.
Definition echo_bi2 := bi_thread_of echo_net 1 (port_addr 0) 6 7 12 20.

(** The request is written, answered by the listener, and the answer is read. *)
Definition echo_system : list (event ev) :=
  take 22 echo_trace ++ echo_bi2 ++ drop 22 echo_trace ++ [].

Lemma echo_is_system : system echo_net [echo_trace] echo_system.
Proof.
  rewrite <- (take_drop 22 echo_trace) at 1.
  apply (system_turn _ [] _ _ [] [[]; []; []; echo_bi2]).
  - constructor; [apply uni_idle|]. constructor; [apply bi_idle|]. constructor; [apply uni_idle|].
    constructor; [|constructor]. apply bi_task; vm_compute; [reflexivity|repeat constructor].
  - apply (system_last _ [_; []; []; []] echo_bi2 []); [vm_compute; reflexivity|].
    apply (system_last _ [] _ [[]; []; []; []]); [vm_compute; reflexivity|]. by repeat constructor.
Qed.

Lemma endpoint_echo_passes_witness : Done (Ok tt : Result unit Report) <> Halt Faulted.
Proof.
  apply (endpoint_echo_passes echo_net echo_trace (Done (Ok tt)) echo_system).
  - apply user_runs. vm_compute. reflexivity.
  - apply (user_reads _ echo_world). vm_compute. repeat constructor.
  - exact echo_is_system.
  - apply checked_network_sound, (bool_decide_unpack _). vm_compute. exact I.
  - apply checked_direct_sound, (bool_decide_unpack _). vm_compute. exact I.
  - intros (c & e & Ht & _). apply (f_equal length) in Ht. vm_compute in Ht. discriminate.
Defined.

(** ** benign_connection_loss *)

Definition idle_net (r : q_RecvStream (Foreign := demo)) : stream := no_stream.
Definition idle_world : user_world := mkUserWorld (world_with idle_net) 0 two_ends 1 [] [] [].
Definition idle_trace := user_trace test_benign_connection_loss idle_world.
Definition lost_uni k tx := uni_thread_of idle_net k tx [Some (Err q_TimedOut)].

(** The listeners see the timeout, and then the user does. *)
Definition idle_system : list (event ev) :=
  take 19 idle_trace ++ lost_uni 3 4 ++ bi_lost 3 ++ lost_uni 6 7 ++ bi_lost 6
  ++ drop 19 idle_trace ++ [].

Lemma idle_is_system : system idle_net [idle_trace] idle_system.
Proof.
  rewrite <- (take_drop 19 idle_trace) at 1.
  apply (system_turn _ [] _ _ [] [lost_uni 3 4; bi_lost 3; lost_uni 6 7; bi_lost 6]).
  - constructor; [apply (uni_task _ _ _ _ _ _ tt); vm_compute; [reflexivity|repeat constructor]|].
    constructor; [apply bi_lost_task|].
    constructor; [apply (uni_task _ _ _ _ _ _ tt); vm_compute; [reflexivity|repeat constructor]|].
    constructor; [apply bi_lost_task|constructor].
  - apply (system_last _ [_] _ [_; _; _]); [vm_compute; reflexivity|].
    apply (system_last _ [_; []] _ [_; _]); [vm_compute; reflexivity|].
    apply (system_last _ [_; []; []] _ [_]); [vm_compute; reflexivity|].
    apply (system_last _ [_; []; []; []] _ []); [vm_compute; reflexivity|].
    apply (system_last _ [] _ [[]; []; []; []]); [vm_compute; reflexivity|]. by repeat constructor.
Qed.

Lemma benign_loss_passes_witness :
  (Ok tt : Result unit Report) = Ok tt
  \/ exists e, (Ok tt : Result unit Report) = Err e /\ set_up_error e.
Proof.
  apply (benign_loss_passes idle_net idle_trace (Ok tt) idle_system).
  - apply user_runs. vm_compute. reflexivity.
  - exact idle_is_system.
  - apply checked_network_sound, (bool_decide_unpack _). vm_compute. exact I.
  - vm_compute. repeat constructor.
Defined.

(** ** The tests of endpoint.rs *)

(** The tests come to their end in the scripted world. *)
Definition external_tests : list (io (Result unit Report)) :=
  [test_new_without_external_addr; test_new_with_external_ip; test_new_with_external_port;
   test_new_with_external_addr].

Lemma endpoint_tests_pass_witness :
  Forall (fun test => runs test (trace_of test quiet_world) (Done (Ok tt))
    /\ Forall event_local_v4 (trace_of test quiet_world) /\ assertions_hold test) external_tests.
Proof.
  destruct endpoint_tests_pass as (H1 & H2 & H3 & H4).
  do 4 (constructor; [split_and!; [by_execution|vm_compute; repeat constructor|assumption]|]). constructor.
Defined.
