(* ===== verification/CommonWitnesses.v ===== *)
(** * The tests of tests/common.rs at work

    Schedules of whole endpoints: the user's thread, the accept loop that it spawns, and the
    listeners that the loop spawns for the connection it accepts. *)

From Stdlib Require Import Strings.Byte.
From S2P Require Import Prelude Std Prog ProgFacts Foreign WireTypes Errors ConfigTypes Eyre Effects.
From S2P Require Import Wire StreamSpec WireFacts Framing Config Connection Incoming Igd Endpoint.
From S2P Require Import Panics System SystemFacts Tests ConnectionTests CommonTests ClientTest.
From S2P Require Import NetworkCheck Demo Witnesses TestWitnesses.

Local Open Scope Z_scope.
Local Open Scope prog_scope.

(** ** Accept loops *)

(** The loop of endpoint [ep], to which one connection comes, with handles from 50 on. *)
Definition accept_world (net : q_RecvStream (Foreign := demo) -> stream) (ra : nat -> SocketAddr) : user_world :=
  mkUserWorld (world_with net) 50 ra 1 [] [] [].

Definition accept_loop_of (ep tx : nat) : io unit :=
  accept_connections (ep : q_Incoming) (tx : ConnectionTx) (ep : q_Endpoint) impatient.

Lemma accept_task net ra ep tx :
  user_result (accept_loop_of ep tx) (accept_world net ra) = Some tt ->
  Forall read_sensible (user_trace (accept_loop_of ep tx) (accept_world net ra)) ->
  task_trace net (ListenForIncomingConnections ep tx ep impatient)
    (user_trace (accept_loop_of ep tx) (accept_world net ra)).
Proof.
  intros Hr Hs. split; [by exists (Done tt); apply user_runs|]. by apply (user_reads _ (accept_world net ra)).
Qed.

Lemma accept_idle net inc tx ep cfg : task_trace net (ListenForIncomingConnections inc tx ep cfg) [].
Proof. split; [exists (Halt Running); apply runs_start|by exists net]. Qed.

(** What the user gets from it. *)
Definition accepted_connection : Connection * ConnectionIncoming :=
  (mkConnection (F := demo) 51%nat (Some impatient) 0%nat, mkConnectionIncoming (F := demo) 52%nat 0%nat).

(** [handed_over], event by event. *)
Definition hands (before : list (event ev)) (v : event ev) : Prop :=
  match v with
  | Ev e x =>
      match e in ev T return T -> Prop with
      | RecvConnection rx => fun a =>
          match a with
          | Some c => exists cap tx, Ev (NewConnectionChannel cap) (tx, rx) ∈ before
                        /\ Ev (SendConnection tx c) true ∈ before
          | None => True
          end
      | _ => fun _ => True
      end x
  end.

Lemma each_handed g : each hands [] g -> handed_over g.
Proof. intros Hg g1 rx c g2 ->. by apply each_split in Hg. Qed.

(** Find an event in a computed trace. *)
Ltac find_event := repeat first [apply list_elem_of_here|apply list_elem_of_further].

Ltac by_handing :=
  apply each_handed; vm_compute;
  repeat first [exact I|split; [exact I|]|split; [eexists _, _; split; find_event|]].

(** ** single_message *)

Definition single_net (r : q_RecvStream (Foreign := demo)) : stream :=
  match r with
  | 20%nat => mkStream (fbytes (UserMsg HELLO)) Finished
  | _ => no_stream
  end.

(** Endpoints 0 and 2; the server's end of the connection is 51. *)
Definition from_second (c : nat) : SocketAddr := port_addr (if decide (c = 51%nat) then 2 else 0).

Definition single_world : user_world :=
  mkUserWorld (world_with single_net) 0 from_second 0 [Ok 10%nat] [accepted_connection]
    [Some (Ok (HELLO, None))].

Definition single_trace := user_trace (test_single_message HELLO) single_world.

Definition single_accept := user_trace (accept_loop_of 0 1) (accept_world single_net from_second).
Definition single_uni := uni_thread_of single_net 51 52 [Some (Ok 20%nat)].

(** The message is sent; the server accepts the connection, its listener reads the message,
    and the user gets both. *)
Definition single_system : list (event ev) :=
  take 26 single_trace ++ single_accept ++ single_uni ++ drop 26 single_trace ++ [].

Lemma single_is_system : system single_net [single_trace] single_system.
Proof.
  rewrite <- (take_drop 26 single_trace) at 1.
  apply (system_turn _ [] _ _ [] [single_accept; []; []; []]).
  - constructor; [apply accept_task; vm_compute; [reflexivity|repeat constructor]|].
    constructor; [apply accept_idle|]. constructor; [apply uni_idle|]. constructor; [apply bi_idle|constructor].
  - apply (system_finish _ [_] single_accept [[]; []; []] [single_uni; []]).
    + constructor; [apply (uni_task _ _ _ _ _ _ tt); vm_compute; [reflexivity|repeat constructor]|].
      constructor; [apply bi_idle|constructor].
    + apply (system_last _ [_; []; []; []; []] single_uni [[]]); [vm_compute; reflexivity|].
      apply (system_last _ [] _ [[]; []; []; []; []; []]); [vm_compute; reflexivity|]. by repeat constructor.
Qed.

Lemma single_message_passes_witness : Done (Ok tt : Result unit Report) <> Halt Faulted.
Proof.
  apply (single_message_passes single_net HELLO single_trace (Done (Ok tt)) single_system).
  - apply user_runs. vm_compute. reflexivity.
  - exact single_is_system.
  - apply checked_network_sound, (bool_decide_unpack _). vm_compute. exact I.
  - apply checked_direct_sound, (bool_decide_unpack _). vm_compute. exact I.
  - by_handing.
  - vm_compute. repeat constructor.
  - vm_compute. repeat constructor; eexists; reflexivity.
Defined.

(** ** client *)

Definition client_net (r : q_RecvStream (Foreign := demo)) : stream :=
  match r with
  | 20%nat => mkStream (fbytes (UserMsg HELLO)) Finished
  | 21%nat => mkStream (fbytes (UserMsg WORLD)) Finished
  | _ => no_stream
  end.

(** After "hello" and "world" no stream can be opened. *)
Definition client_world : user_world :=
  mkUserWorld (world_with client_net) 0 from_second 0 [Ok 10%nat; Ok 11%nat] [accepted_connection]
    [Some (Ok (HELLO, None)); Some (Ok (WORLD, None))].

Definition client_trace := user_trace test_client client_world.
Definition client_accept := user_trace (accept_loop_of 0 1) (accept_world client_net from_second).
Definition server_uni := uni_thread_of client_net 51 52 [Some (Ok 20%nat)].
Definition client_uni := uni_thread_of client_net 4 5 [Some (Ok 21%nat)].

(** "hello" is sent, the connection accepted and the message read; the user answers, the
    client's listener reads the answer, and the user comes to the end. *)
Definition client_system : list (event ev) :=
  take 24 client_trace ++ client_accept ++ server_uni ++ take 8 (drop 24 client_trace) ++ client_uni
  ++ drop 32 client_trace ++ [].

Lemma client_is_system : system client_net [client_trace] client_system.
Proof.
  assert (client_trace = take 24 client_trace ++ take 8 (drop 24 client_trace) ++ drop 32 client_trace)
    as Ht by (vm_compute; reflexivity).
  rewrite Ht at 1. apply (system_turn _ [] _ _ [] [client_accept; client_uni; []]).
  - constructor; [apply accept_task; vm_compute; [reflexivity|repeat constructor]|].
    constructor; [apply (uni_task _ _ _ _ _ _ tt); vm_compute; [reflexivity|repeat constructor]|].
    constructor; [apply bi_idle|constructor].
  - apply (system_finish _ [_] client_accept [client_uni; []] [server_uni; []]).
    + constructor; [apply (uni_task _ _ _ _ _ _ tt); vm_compute; [reflexivity|repeat constructor]|].
      constructor; [apply bi_idle|constructor].
    + apply (system_last _ [_; []; client_uni; []] server_uni [[]]); [vm_compute; reflexivity|].
      apply (system_turn _ [] _ _ [[]; client_uni; []; []; []] []); [constructor|].
      apply (system_last _ [_; []] client_uni [[]; []; []]); [vm_compute; reflexivity|].
      apply (system_finish _ [] _ [[]; []; []; []; []] [[]; []]).
      * constructor; [apply uni_idle|]. constructor; [apply bi_idle|constructor].
      * by repeat constructor.
Qed.

Lemma client_passes_witness : Done (Ok tt : Result unit Report) <> Halt Faulted.
Proof.
  apply (client_passes client_net client_trace (Done (Ok tt)) client_system).
  - apply user_runs. vm_compute. reflexivity.
  - exact client_is_system.
  - apply checked_network_sound, (bool_decide_unpack _). vm_compute. exact I.
  - apply checked_direct_sound, (bool_decide_unpack _). vm_compute. exact I.
  - by_handing.
  - vm_compute. repeat constructor.
Defined.
